(* ===== verification/_CoqProject ===== *)
-Q . S2P
Prelude.v
PortAlloc.v
Text.v
Chunker.v
ClipRouter.v
Backchannel.v
Workflow.v
Regex.v
Template.v
DographTools.v
WorkflowLoad.v
WorkflowSpec.v
SttGate.v
AgentState.v
AgentLoop.v
AgentFrame.v
AgentInv.v
LlmTurn.v
LlmSpec.v
AgentSpec.v
AgentRuns.v
LlmClient.v
LlmReply.v
CallLog.v
Json.v
Extract.v
TtsClient.v
TtsSpec.v
TtsReader.v
SttClient.v
SttSpec.v
Session.v
JitterBuffer.v
AriManager.v
AriInv.v
AriFound.v
AriDial.v
Pcm.v
BargeIn.v
Recordings.v
Pricing.v
Wire.v
FramedCall.v
Rtp.v
Esl.v
EslSpec.v
FreeSwitch.v
FreeSwitchInv.v
Limiter.v
Campaign.v
Runner.v
RunnerInv.v
RunnerLoop.v
RunRecord.v
Outbound.v
HttpTool.v
Services.v
Qa.v
Store.v
CallAgent.v
Config.v
CallStart.v
Metrics.v
Logging.v
Storage.v
AudioTap.v
Server.v
EndianCheck.v
