(* ===== verification/Prelude.v ===== *)
(** * Vaani: a verification development of the voice-call server

    Vaani (Go, under [src/]) answers and places telephone calls and lets a
    language model talk on them. A call's audio comes in over RTP, AudioSocket
    or FreeSWITCH's earshot; an agent sends it to a speech recogniser (STT),
    asks an LLM what to answer and plays what a synthesizer (TTS) says; a call
    manager drives the telephone switch; a campaign dialer places calls under
    limits kept in Redis and tables kept in Postgres.

    ** How the parts interact, and where each is

    Each file models the source files it names, one definition per function,
    method, goroutine step or table statement, under the source's names.

    - Ports and sessions. [PortAlloc] (internal/media/portalloc.go): the pool of
      media ports. [Session] (internal/session/call.go): a call's state and its
      once-only teardown.
    - The call manager. [AriManager] (internal/ari/handlers.go, outbound.go,
      transfer.go): [Manager]'s maps of staged, active, ringing and transfer
      channels, the handlers of Asterisk's events, set-up ([startCall],
      [completeBridge]), dialing, transfer, [teardown] and [teardownAll], over
      [PortAlloc] and [Session]. A waiting handler is cut where other goroutines
      (timers, dead media, a lost connection, shutdown) can run. [AriInv],
      [AriFound] and [AriDial] prove what every interleaving keeps.
    - Media. [Pcm] (byteorder.go, mixrecorder.go, wav.go), [Wire]
      (audiosocket.go, audiosocket_call.go's wire, earshot.go), [JitterBuffer]
      (jitterbuffer.go), [FramedCall] (handler.go, audiosocket_call.go,
      watchdog.go), [Rtp] (rtp.go, loopback.go), all of internal/media. A wire
      and a frame handler are interfaces ([Wire.FrameWire],
      [FramedCall.Handler]): the pipeline's theorems hold for any of them, and
      the files discharge them for the code's own.
    - The agent, internal/ai/agent. [AgentState]: the fields of [Handler] and
      its effects; [AgentLoop]: the event loop's handlers; [AgentFrame]:
      [ProcessFrame], the 20 ms tick; [LlmTurn]: the goroutine of one LLM turn
      (rounds, tools, edges, transfer, fallback lines; extract.go's
      [plainHistory], recordings.go's clips). They share the state: the loop
      starts turns, the turn posts events back, the tick consumes what the loop
      queued. [AgentInv], [AgentSpec], [LlmSpec] hold the theorems, [AgentRuns]
      concrete runs. Its parts: [Chunker] (chunker.go), [ClipRouter]
      (recordings.go), [Backchannel] (backchannel.go), [Workflow] (workflow.go,
      tools.go, llmfail.go), [SttGate] (sttgate.go), [BargeIn] (bargein.go,
      bargein_ten.go; its levels in binary64, by the standard library's
      [SpecFloat]), [CallLog] (calllog.go), [Json] and [Extract] (extract.go:
      the JSON found in a model's reply, the extractions of a call).
    - A call's start and end. [CallAgent] (internal/callagent): which handler a
      call gets, dialing a provider, the figures of the summary; [CallStart]: the
      agent's configuration out of [Config] and [Store], [NewHandler], the
      reader of the recogniser; [RunRecord] (recordRun, internal/dograh/run.go):
      the call's record, its files and its cost; [Pricing] (cost.go,
      pricing.go); [Qa] (qa.go,
      qa_llm.go, qa_conversation.go); [Metrics] (internal/metrics/agent.go, the
      agent's sinks).
    - The clients the agent talks through. [LlmClient] and [LlmReply]
      (internal/ai/llm/client.go): retries, the event stream, the assembly of
      streamed tool calls. [TtsClient] and [TtsSpec] (internal/ai/tts/sarvam.go):
      which request arriving audio belongs to and when a generation is done;
      [TtsReader] (handler.go's readTTS): the two channels merged. [SttClient] and
      [SttSpec] (internal/ai/stt/sarvam.go): one connection, redials with backoff.
    - A workflow, internal/dograh. [Regex] and [Template] (template.go),
      [DographTools] (tools.go, httptool.go's schemas), [HttpTool] (a tool's
      request), [WorkflowLoad] and [WorkflowSpec] (workflow.go: the stored
      graph made into the agent's nodes), [Recordings] (recordings.go: the cache
      of clips), [Services] (services.go: models and keys), [Store] (store.go: all
      of it put together for a call), [Storage] (storage.go: S3 requests).
    - FreeSWITCH. [Esl] and [EslSpec] (internal/esl/esl.go): the event socket's
      reader, commands and event queue. [FreeSwitch] and [FreeSwitchInv]
      (internal/freeswitch/manager.go): the calls of the process and how they end.
    - Campaigns. [Limiter] (internal/campaign/limiter.go): the Lua scripts on
      Redis's sorted sets and the operations that run them. [Campaign]
      (internal/dograh/campaign.go, outbound.go): the table statements the
      dialer runs; [Outbound]: campaign settings, the wallet rule, dial strings,
      test calls. [Runner] (internal/campaign/runner.go): dialing one contact, a
      finished call, the sweep, a restart, over both; [RunnerInv] proves what any
      run of them keeps; [RunnerLoop]: the goroutines that repeat them.
    - The process. [Config] (internal/config/config.go): the environment made
      into a configuration; [Logging] (logging.go, banner.go); [Server]
      (cmd/server, the ARI client and externalMedia); [AudioTap]
      (internal/media/audiotap.go); [EndianCheck] (cmd/endianness-check).
    - [Prelude] (this file): results, machine integers, reachability, the state
      and writer monad with its relational proof rule, list lemmas, automation.
      [Text]: Go strings as bytes, UTF-8, the [strings] functions used; Unicode's
      category tables are an interface.

    ** Conventions

    Stateful code is a function in a monad over the component's record that
    also lists its effects: every call into a timer, a client, a log or metrics
    sink the code is judged by is an effect, plain log lines are not. What the
    code learns from outside (the clock, a peer's answer, whether a call failed)
    is read from an environment or an outcome argument, universally quantified in
    the theorems. A step is what runs without another goroutine of the same
    state in between: a whole handler where a lock or an event loop makes it
    atomic, a part of it where not. Runs are lists of labels or steps, so a
    theorem over all runs is one over all interleavings. A Go panic is [None].
    Machine integers wrap where the code's do ([u8], [u16], [u32], [i16],
    [i32], [i64]); counters that cannot reach 2^63 are [Z].

    Invariants are proved as relations between the start, the effects and the end
    of a computation that compose ([StepRel], [does]), so each handler is checked
    once and every run follows.

    ** Fuel

    Recursions that are not structural carry fuel equal to a bound of what is
    left: the length of the text ([Text.runes], [Text.trim_left],
    [Chunker.feed_loop], [LlmTurn.json_chars], [Json]'s strings and members), the
    length of the path ([Config.search]), the samples carried
    ([BargeIn.hopLoop]), the places of the queue ([AgentLoop.queue_frames]), the
    size of the port range ([PortAlloc.scan]), twenty digits of a 64-bit number
    ([Campaign.digits]), the number of rounds ([LlmTurn.runRounds], the code's own
    limit of five). [Text.runes_fuel_enough], [Chunker.scan_loop_fuel] and
    [Chunker.feed_loop_fuel] show that more fuel changes nothing; elsewhere the
    specification theorems, which say exactly what comes out, show it.

    ** What the theorems show

    - Calls end, once, and give back what they hold: [AgentInv] (one hang-up),
      [AriInv], [AriFound], [AriDial] (ports, channels, [Done]), [Session]
      (teardown), [RunnerInv] (slots, contacts), [FreeSwitchInv] (channels),
      [RunRecord] (the record survives any failing write).
    - What the caller hears: [AgentInv] and [AgentSpec] (an interrupted reply is
      gone, resuming replays it, audio is re-sliced without loss, a dead
      synthesizer cannot hold the turn), [Chunker], [ClipRouter], [TtsSpec] and
      [TtsReader] (audio in order, ends after it, once), [Template].
    - What the model is told: [LlmSpec] (tool protocol, history, failures, every
      turn ends), [AgentInv] (history is append-only), [LlmReply] (tool calls
      arrive whole; no reply is spoken twice by a retry), [HttpTool], [Extract].
    - What the recogniser hears and says: [SttGate] (equal to a plain queue),
      [SttSpec] (results in order, one connection), [CallStart] (in order to the
      event loop; what the configuration rules out).
    - Media: [JitterBuffer], [Rtp], [Wire], [FramedCall], [Pcm], [AudioTap]
      (order, conservation, round trips, no panic of a channel).
    - Limits: [Limiter] (slots, rate), [RunnerInv] (retries, redials),
      [RunnerLoop] (one goroutine per campaign, it always stops).
    - Set-up: [Config] (what loads is consistent), [WorkflowSpec] (a workflow
      that loads is the stored graph), [Store], [Services], [Storage] (a signed
      request is accepted), [Recordings] (a clip is loaded once).
    - Control and accounts: [EslSpec] (each command gets its own reply, events
      keep their order), [Logging] (what a masked line tells), [CallLog],
      [Pricing], [Metrics] (interruptions add up).
    Runs where the code does something else than it means to are [Example]s
    next to the theorem they limit.

    ** Not modelled

    Third-party libraries (WebSocket, pion/rtp, Redis, Postgres, Prometheus,
    Asterisk's native client, the native voice-activity detector), url.Parse,
    ParseFloat, SHA-256, HMAC, slog's formats, the ffmpeg conversion of a clip
    and the decoding of JSON columns are parameters where a modelled function
    uses them. Not modelled at all, because nothing of the program's logic is in
    them: the set-up of OTLP telemetry (internal/config/otel_*.go), the names of
    the media and campaign metrics, SQL connections and the scanning of rows,
    random request ids (internal/ai/reqid), the binding of the native detector
    (tenvad), audio assets, the buffer pool, pacer and frame-size log of
    internal/media, and the load generator (cmd/loadgen). Redis's float64 times
    are exact numbers, as [Limiter] says. *)

From stdpp Require Export base gmap list strings.
From Stdlib Require Export ZArith Lia.

#[export] Set Default Proof Using "Type".

Create HintDb vaani.
Create Rewrite HintDb vaani.
Create Rewrite HintDb vaani_m.

(** ** Results of fallible operations: Go's [(T, error)] *)

Inductive result (T E : Type) : Type :=
  | Ok (t : T)
  | Err (e : E).
Arguments Ok {T E} t.
Arguments Err {T E} e.

Definition is_ok {T E} (r : result T E) : bool :=
  match r with Ok _ => true | Err _ => false end.

(** ** Machine integers: Go's wrap-around conversions, on [Z] *)

Definition u8 (z : Z) : Z := (z mod 256)%Z.
Definition u16 (z : Z) : Z := (z mod 65536)%Z.
Definition u32 (z : Z) : Z := (z mod 4294967296)%Z.
Definition i16 (z : Z) : Z := ((z + 32768) mod 65536 - 32768)%Z.
Definition i32 (z : Z) : Z := ((z + 2147483648) mod 4294967296 - 2147483648)%Z.
Definition i64 (z : Z) : Z := ((z + 2 ^ 63) mod 2 ^ 64 - 2 ^ 63)%Z.

Lemma i64_small (z : Z) : (- 2 ^ 63 <= z < 2 ^ 63)%Z -> i64 z = z.
Proof. intros H. unfold i64. rewrite Z.mod_small; [lia|]. split; [lia|]. change (2 ^ 64)%Z with (2 ^ 63 + 2 ^ 63)%Z. lia. Qed.

(** ** Finite executions of a step relation *)

Section reachability.
Context {A : Type} (R : A -> A -> Prop).

Inductive star : A -> A -> Prop :=
  | star_refl a : star a a
  | star_step a b c : R a b -> star b c -> star a c.

(** An invariant that holds at the start and is kept by every step holds at
    every reachable state. *)
Lemma star_invariant (P : A -> Prop) :
  (forall a b, P a -> R a b -> P b) ->
  forall a b, star a b -> P a -> P b.
Proof. intros Hstep a b Hs. induction Hs; eauto. Qed.
End reachability.

Lemma triple_parts {A B C} (x : A * B * C) : x = (x.1.1, x.1.2, x.2).
Proof. by destruct x as [[??]?]. Qed.

(** ** Record update: [r <| field := v |>]

    A record type declares its eta expansion once ([Eta]); the update of any
    field is then found by instance search, abstracting the projection in it. *)

Class Eta (R : Type) := eta_record : R -> R.

Class FieldUpdate {R T : Type} (proj : R -> T) := field_update : (T -> T) -> R -> R.

Ltac find_field_update :=
  lazymatch goal with
  | |- @FieldUpdate ?R ?T ?proj =>
      let e := constr:(_ : Eta R) in
      let e := eval hnf in e in
      let e := eval pattern proj in e in
      lazymatch e with
      | ?mk _ => exact (fun f => mk (fun r => f (proj r)))
      end
  end.

#[export] Hint Extern 1 (FieldUpdate _) => find_field_update : typeclass_instances.

Declare Scope record_scope.

Notation "r <| proj := v |>" := (field_update (proj := proj) (fun _ => v) r)
  (at level 1, left associativity, proj at level 9) : record_scope.
Notation "r <| proj ::= f |>" := (field_update (proj := proj) f r)
  (at level 1, left associativity, proj at level 9) : record_scope.

#[global] Open Scope record_scope.

(** ** Stateful code: state passing with an output log

    [M S W A]: read and change a state [S], emit effects [W], return an [A]. *)

Definition M (S W A : Type) : Type := S -> A * S * list W.

Definition mret {S W A} (a : A) : M S W A := fun s => (a, s, []).

Definition mseq {S W A B} (m : M S W A) (k : A -> M S W B) : M S W B :=
  fun s => let '(a, s1, w1) := m s in let '(b, s2, w2) := k a s1 in (b, s2, w1 ++ w2).

Definition mread {S W} : M S W S := fun s => (s, s, []).
Definition mmod {S W} (f : S -> S) : M S W unit := fun s => (tt, f s, []).
Definition memit {S W} (w : W) : M S W unit := fun s => (tt, s, [w]).
Definition mwhen {S W} (b : bool) (m : M S W unit) : M S W unit := if b then m else mret tt.

Definition mstate {S W A} (m : M S W A) (s : S) : S := (m s).1.2.
Definition mout {S W A} (m : M S W A) (s : S) : list W := (m s).2.
Definition mval {S W A} (m : M S W A) (s : S) : A := (m s).1.1.

Declare Scope m_scope.
Delimit Scope m_scope with m.

Notation "'let!' x := m 'in' k" := (mseq m (fun x => k))
  (at level 10, x name, m at level 100, k at level 200) : m_scope.
Notation "m1 ;; m2" := (mseq m1 (fun _ => m2))
  (at level 100, right associativity) : m_scope.

(** A property of states that [m] keeps, whatever it returns. *)
Definition keeps {S W A} (P : S -> Prop) (m : M S W A) : Prop :=
  forall s, P s -> P (mstate m s).

Section monad_lemmas.
Context {S W : Type}.
Implicit Types P : S -> Prop.

Lemma m_parts {A} (m : M S W A) s : m s = (mval m s, mstate m s, mout m s).
Proof. unfold mval, mstate, mout. by destruct (m s) as [[??]?]. Qed.

Lemma mstate_at {A} (m m' : M S W A) s s' : m s = m' s' -> mstate m s = mstate m' s'.
Proof. unfold mstate. by intros ->. Qed.

Lemma mout_at {A} (m m' : M S W A) s s' : m s = m' s' -> mout m s = mout m' s'.
Proof. unfold mout. by intros ->. Qed.

Lemma mstate_ret {A} (a : A) (s : S) : mstate (mret (W := W) a) s = s.
Proof. done. Qed.

Lemma mval_ret {A} (a : A) (s : S) : mval (mret (S := S) (W := W) a) s = a.
Proof. done. Qed.

Lemma mstate_seq {A B} (m : M S W A) (k : A -> M S W B) s :
  mstate (mseq m k) s = mstate (k (mval m s)) (mstate m s).
Proof. unfold mstate, mval, mseq. destruct (m s) as [[a s1] w1]. simpl. by destruct (k a s1) as [[b s2] w2]. Qed.

Lemma mout_seq {A B} (m : M S W A) (k : A -> M S W B) s :
  mout (mseq m k) s = mout m s ++ mout (k (mval m s)) (mstate m s).
Proof. unfold mstate, mval, mout, mseq. destruct (m s) as [[a s1] w1]. simpl. by destruct (k a s1) as [[b s2] w2]. Qed.

Lemma mval_seq {A B} (m : M S W A) (k : A -> M S W B) s :
  mval (mseq m k) s = mval (k (mval m s)) (mstate m s).
Proof. unfold mstate, mval, mseq. destruct (m s) as [[a s1] w1]. simpl. by destruct (k a s1) as [[b s2] w2]. Qed.

(** Running a read or an update first is running the rest from there. *)
Lemma mread_seq_at {A} (k : S -> M S W A) s : mseq mread k s = k s s.
Proof. unfold mseq, mread. by destruct (k s s) as [[??]?]. Qed.

Lemma mmod_seq_at {A} f (k : unit -> M S W A) s : mseq (mmod f) k s = k tt (f s).
Proof. unfold mseq, mmod. by destruct (k tt (f s)) as [[??]?]. Qed.

Lemma mstate_mod f (s : S) : mstate (mmod (W := W) f) s = f s.
Proof. done. Qed.

Lemma mstate_emit (w : W) (s : S) : mstate (memit w) s = s.
Proof. done. Qed.

Lemma mval_mod f (s : S) : mval (mmod (W := W) f) s = tt.
Proof. done. Qed.

Lemma mval_emit (w : W) (s : S) : mval (memit w) s = tt.
Proof. done. Qed.

Lemma mout_ret {A} (a : A) (s : S) : mout (mret (W := W) a) s = [].
Proof. done. Qed.

Lemma mout_mod f (s : S) : mout (mmod (W := W) f) s = [].
Proof. done. Qed.

Lemma mout_emit (w : W) (s : S) : mout (memit w) s = [w].
Proof. done. Qed.

Lemma mstate_read_seq {A} (k : S -> M S W A) s : mstate (mseq mread k) s = mstate (k s) s.
Proof. by rewrite mstate_seq. Qed.

Lemma mout_read_seq {A} (k : S -> M S W A) s : mout (mseq mread k) s = mout (k s) s.
Proof. by rewrite mout_seq. Qed.

Lemma mval_read_seq {A} (k : S -> M S W A) s : mval (mseq mread k) s = mval (k s) s.
Proof. by rewrite mval_seq. Qed.

Lemma keeps_ret {A} P (a : A) : keeps (W := W) P (mret a).
Proof. by intros s. Qed.

Lemma keeps_emit P (w : W) : keeps P (memit w).
Proof. by intros s. Qed.

Lemma keeps_read P : keeps (W := W) P mread.
Proof. by intros s. Qed.

Lemma keeps_mod P f : (forall s, P s -> P (f s)) -> keeps (W := W) P (mmod f).
Proof. intros H s Hs. apply H, Hs. Qed.

Lemma keeps_seq {A B} P (m : M S W A) (k : A -> M S W B) :
  keeps P m -> (forall a, keeps P (k a)) -> keeps P (mseq m k).
Proof. intros Hm Hk s Hs. rewrite mstate_seq. apply Hk, Hm, Hs. Qed.

Lemma keeps_read_seq {B} P (k : S -> M S W B) :
  (forall s, P s -> P (mstate (k s) s)) -> keeps P (mseq mread k).
Proof. intros H s Hs. rewrite mstate_seq. apply H, Hs. Qed.

Lemma keeps_when P b (m : M S W unit) : (b = true -> keeps P m) -> keeps P (mwhen b m).
Proof. intros H. destruct b; [by apply H|apply keeps_ret]. Qed.
End monad_lemmas.

(** ** What a computation does: a relation between its start, output and end

    A relation that holds of doing nothing and composes is proved of a handler
    by taking it apart ([does_auto]); the handlers' own lemmas go into the hint
    database [does]. *)

Class StepRel {S W : Type} (R : S -> list W -> S -> Prop) := {
  step_nil : forall s, R s [] s;
  step_app : forall s1 w1 s2 w2 s3, R s1 w1 s2 -> R s2 w2 s3 -> R s1 (w1 ++ w2) s3;
}.

Definition does_at {S W A} (R : S -> list W -> S -> Prop) (m : M S W A) (s : S) : Prop :=
  R s (mout m s) (mstate m s).
Definition does {S W A} (R : S -> list W -> S -> Prop) (m : M S W A) : Prop :=
  forall s, does_at R m s.

Section does.
Context {S W : Type} (R : S -> list W -> S -> Prop) `{HR : !StepRel R}.

Lemma does_at_ret {A} (a : A) s : does_at R (mret a) s.
Proof using HR. apply step_nil. Qed.

Lemma does_at_mod f s : R s [] (f s) -> does_at R (mmod f) s.
Proof. done. Qed.

Lemma does_at_emit w s : R s [w] s -> does_at R (memit w) s.
Proof. done. Qed.

Lemma does_at_seq {A B} (m : M S W A) (k : A -> M S W B) s :
  does_at R m s -> does_at R (k (mval m s)) (mstate m s) -> does_at R (mseq m k) s.
Proof using HR. unfold does_at. rewrite mout_seq, mstate_seq. intros H1 H2. by eapply step_app. Qed.

Lemma does_at_read {A} (k : S -> M S W A) s : does_at R (k s) s -> does_at R (mseq mread k) s.
Proof. unfold does_at. by rewrite mout_seq, mstate_seq. Qed.

Lemma does_at_mod_seq {A} f (k : unit -> M S W A) s :
  R s [] (f s) -> does_at R (k tt) (f s) -> does_at R (mseq (mmod f) k) s.
Proof using HR. intros H1 H2. by apply does_at_seq. Qed.

Lemma does_at_emit_seq {A} w (k : unit -> M S W A) s :
  R s [w] s -> does_at R (k tt) s -> does_at R (mseq (memit w) k) s.
Proof using HR. intros H1 H2. by apply does_at_seq. Qed.

(** After a part known only by what it does, nothing is known of the state. *)
Lemma does_at_call {A B} (m : M S W A) (k : A -> M S W B) s :
  does R m -> (forall a s', does_at R (k a) s') -> does_at R (mseq m k) s.
Proof using HR. intros H1 H2. apply does_at_seq; [apply H1|apply H2]. Qed.

Lemma does_at_when b (m : M S W unit) s :
  (b = true -> does_at R m s) -> does_at R (mwhen b m) s.
Proof using HR. intros H. destruct b; [by apply H|apply does_at_ret]. Qed.

Lemma does_of {A} (m : M S W A) s : does R m -> does_at R m s.
Proof. done. Qed.
End does.

Create HintDb does.

(** Take a handler apart; [tac] is for the single updates and effects. *)
Ltac does_auto tac :=
  repeat first
  [ progress intros
  | solve [auto with does nocore]
  | match goal with
    | |- does _ _ => intro
    | |- does_at _ (mret _) _ => apply does_at_ret; apply _
    | |- does_at _ (mseq mread _) _ => apply does_at_read; cbv beta
    | |- does_at _ (mmod _) _ => apply does_at_mod; tac
    | |- does_at _ (memit _) _ => apply does_at_emit; tac
    | |- does_at _ (mwhen _ _) _ => apply does_at_when; [apply _|]
    | |- does_at _ (mseq (mmod _) _) _ => apply does_at_mod_seq; [apply _|tac|cbv beta]
    | |- does_at _ (mseq (memit _) _) _ => apply does_at_emit_seq; [apply _|tac|cbv beta]
    | |- does_at _ (mseq _ _) _ => apply does_at_call; [apply _|..]
    | |- does_at _ (match ?x with _ => _ end) _ => destruct x eqn:?
    | |- does_at _ (let '(_, _) := ?x in _) _ => destruct x eqn:?
    end
  | apply does_of; solve [auto with does nocore] ].

(** Expose the state, value and output of a monadic term. *)
Ltac open_m :=
  unfold mstate, mval, mout, mseq, mread, mmod, memit, mret, mwhen, field_update; simpl.

Lemma mseq_inv {S W A B} (m : M S W A) (k : A -> M S W B) s b s2 w :
  mseq m k s = (b, s2, w) ->
  exists a s1 w1 w2, m s = (a, s1, w1) /\ k a s1 = (b, s2, w2) /\ w = w1 ++ w2.
Proof.
  unfold mseq. destruct (m s) as [[a s1] w1] eqn:E.
  destruct (k a s1) as [[b' s2'] w2] eqn:E2. intros [= <- <- <-]. eauto 10.
Qed.

(** Take a run of a monadic term apart, step by step. *)
Ltac minv :=
  repeat match goal with
  | H : mseq mread _ _ = _ |- _ =>
      apply mseq_inv in H as (? & ? & ? & ? & H1 & H & ?);
      unfold mread in H1; injection H1 as <- <- <-
  | H : mseq _ _ _ = (_, _, _) |- _ =>
      let H1 := fresh H in apply mseq_inv in H as (? & ? & ? & ? & H1 & H & ?)
  | H : mret _ _ = (_, _, _) |- _ => unfold mret in H; injection H as <- <- <-
  | H : mmod _ _ = (_, _, _) |- _ => unfold mmod in H; injection H as <- <- <-
  | H : memit _ _ = (_, _, _) |- _ => unfold memit in H; injection H as <- <- <-
  | H : mwhen ?b _ _ = (_, _, _) |- _ => destruct b eqn:?; unfold mwhen in H
  end; subst.

#[export] Hint Rewrite @mstate_seq @mout_seq @mval_seq : vaani_m.

(** Run the state of a monadic term whose control flow is settled. *)
Ltac run_state :=
  repeat first
  [ progress rewrite ?mstate_read_seq, ?mstate_seq, ?mstate_mod, ?mstate_emit, ?mstate_ret,
      ?mval_read_seq, ?mval_seq, ?mval_mod, ?mval_emit, ?mval_ret
  | progress cbv beta ].
Ltac run_out :=
  repeat first
  [ progress rewrite ?mout_read_seq, ?mout_seq, ?mout_mod, ?mout_emit, ?mout_ret
  | progress run_state ].

(** ** Automation *)



(** Case analysis on every [match]/[if] that blocks the goal or a hypothesis,
    keeping the equations. *)
Ltac split_matches :=
  repeat (case_match; simplify_eq/=; try done).

(** Turn the boolean comparisons of the code into propositions. *)
Ltac bool_to_prop :=
  repeat match goal with
  | H : (_ && _) = true |- _ => apply andb_true_iff in H as [? ?]
  | H : (_ && _) = false |- _ => apply andb_false_iff in H
  | H : (_ || _) = false |- _ => apply orb_false_iff in H as [? ?]
  | H : (_ || _) = true |- _ => apply orb_true_iff in H
  | H : bool_decide _ = true |- _ => apply bool_decide_eq_true in H
  | H : bool_decide _ = false |- _ => apply bool_decide_eq_false in H
  | H : negb _ = true |- _ => apply negb_true_iff in H
  | H : negb _ = false |- _ => apply negb_false_iff in H
  | H : (_ <? _)%Z = true |- _ => apply Z.ltb_lt in H
  | H : (_ <? _)%Z = false |- _ => apply Z.ltb_ge in H
  | H : (_ <=? _)%Z = true |- _ => apply Z.leb_le in H
  | H : (_ <=? _)%Z = false |- _ => apply Z.leb_gt in H
  | H : (_ =? _)%Z = true |- _ => apply Z.eqb_eq in H
  | H : (_ =? _)%Z = false |- _ => apply Z.eqb_neq in H
  end.

Ltac zunfold := unfold u8, u16, u32, i16, i32 in *.

Lemma u16_range z : (0 <= u16 z < 65536)%Z.
Proof. apply Z.mod_pos_bound. lia. Qed.

Lemma u16_small z : (0 <= z < 65536)%Z -> u16 z = z.
Proof. apply Z.mod_small. Qed.

Lemma i16_range z : (-32768 <= i16 z < 32768)%Z.
Proof. unfold i16. pose proof (Z.mod_pos_bound (z + 32768) 65536). lia. Qed.

Lemma i16_small z : (-32768 <= z < 32768)%Z -> i16 z = z.
Proof. intros. unfold i16. rewrite Z.mod_small; lia. Qed.

(** [uint16(int16(z))] is [uint16(z)]: the two's complement bits survive. *)
Lemma u16_i16 z : u16 (i16 z) = u16 z.
Proof. zunfold. Z.div_mod_to_equations. lia. Qed.

Lemma i16_u16 z : i16 (u16 z) = i16 z.
Proof. zunfold. Z.div_mod_to_equations. lia. Qed.

#[export] Hint Resolve u16_range i16_range u16_small i16_small : vaani.
#[export] Hint Rewrite u16_i16 i16_u16 : vaani.
