(* ===== verification/PortAlloc.v ===== *)
(** [internal/media/portalloc.go]: the pool of UDP/TCP media ports. *)

From S2P Require Import Prelude.

Local Open Scope Z_scope.

(** ** The interface the call manager relies on *)

(** What a port pool promises its client: [alloc] hands out a port that was
    free and marks exactly it; [free] releases exactly the given port. *)
Class PortPool (P : Type) := {
  pp_alloc : P -> P * result Z (Z * Z);
  pp_free : P -> Z -> P;
  pp_held : P -> gset Z;
}.

Class PortPoolLaws (P : Type) `{PortPool P} (pp_ok : P -> Prop) := {
  pp_alloc_ok p q r : pp_ok p -> (pp_alloc p = (q, r)) -> pp_ok q;
  pp_free_ok p n : pp_ok p -> pp_ok (pp_free p n);
  pp_alloc_fresh p q n : pp_alloc p = (q, Ok n) ->
    n ∉ pp_held p /\ pp_held q = {[n]} ∪ pp_held p;
  pp_alloc_err p q e : pp_alloc p = (q, Err e) -> q = p;
  pp_free_held p n : pp_held (pp_free p n) = pp_held p ∖ {[n]};
}.

Module PortAllocator.

(** Go's [inUse map[int]bool]; an absent key reads as [false]. *)
Record t := { base : Z; count : Z; inUse : gmap Z bool }.

Definition NewPortAllocator (b c : Z) : t :=
  {| base := b; count := c; inUse := ∅ |}.

Definition in_use (m : gmap Z bool) (port : Z) : bool := default false (m !! port).

(** The [for i := 0; i < a.count; i++] scan: [left] iterations remain. *)
Fixpoint scan (m : gmap Z bool) (b i : Z) (left : nat) : option Z :=
  match left with
  | O => None
  | S k => if in_use m (b + i) then scan m b (i + 1) k else Some (b + i)
  end.

(** The error carries the range its message prints. *)
Definition Alloc (a : t) : t * result Z (Z * Z) :=
  match scan (inUse a) (base a) 0 (Z.to_nat (count a)) with
  | Some port =>
      ({| base := base a; count := count a; inUse := <[port := true]> (inUse a) |}, Ok port)
  | None => (a, Err (base a, base a + count a - 1))
  end.

Definition Free (a : t) (port : Z) : t :=
  {| base := base a; count := count a; inUse := delete port (inUse a) |}.

Definition InUse (a : t) : nat := size (inUse a).

(** The ports currently reserved. *)
Definition held (m : gmap Z bool) : gset Z :=
  dom (filter (fun kv => kv.2 = true) m).

(** Every recorded port lies in the range and is recorded as [true]. *)
Definition wf (a : t) : Prop :=
  forall p v, inUse a !! p = Some v -> v = true /\ base a <= p < base a + count a.

#[global] Instance pool : PortPool t := {
  pp_alloc := Alloc;
  pp_free := Free;
  pp_held a := held (inUse a);
}.

(** *** The scan *)

Lemma scan_Some m b k i p :
  scan m b i k = Some p ->
  b + i <= p < b + i + Z.of_nat k /\ in_use m p = false /\
  (forall q, b + i <= q < p -> in_use m q = true).
Proof.
  revert i. induction k as [|k IH]; intros i; simpl; [done|].
  destruct (in_use m (b + i)) eqn:E.
  - intros H. apply IH in H as (? & ? & Hq). split_and!; [lia|lia|done|].
    intros q Hr. destruct (decide (q = b + i)) as [->|]; [done|apply Hq; lia].
  - intros [= <-]. split_and!; [lia|lia|done|lia].
Qed.

Lemma scan_None m b k i :
  scan m b i k = None <->
  (forall q, b + i <= q < b + i + Z.of_nat k -> in_use m q = true).
Proof.
  revert i. induction k as [|k IH]; intros i; simpl.
  - split; [lia|done].
  - destruct (in_use m (b + i)) eqn:E.
    + rewrite IH. split; intros H q Hq.
      * destruct (decide (q = b + i)) as [->|]; [done|apply H; lia].
      * apply H; lia.
    + split; [done|]. intros H. rewrite H in E; [done|lia].
Qed.

Lemma in_use_held m p : in_use m p = true <-> p ∈ held m.
Proof.
  unfold in_use, held. rewrite elem_of_dom. unfold is_Some.
  setoid_rewrite map_lookup_filter_Some. simpl. split.
  - destruct (m !! p) as [[]|] eqn:E; naive_solver.
  - intros (v & -> & ->). done.
Qed.

Lemma held_insert m p :
  held (<[p := true]> m) = {[p]} ∪ held m.
Proof.
  apply set_eq. intros q. rewrite elem_of_union, elem_of_singleton, <- !in_use_held.
  unfold in_use. rewrite lookup_insert. case_decide; naive_solver.
Qed.

Lemma held_delete m p :
  held (delete p m) = held m ∖ {[p]}.
Proof.
  apply set_eq. intros q. rewrite elem_of_difference, elem_of_singleton, <- !in_use_held.
  unfold in_use. rewrite lookup_delete. case_decide; naive_solver.
Qed.

Lemma Alloc_wf a a' r : wf a -> Alloc a = (a', r) -> wf a'.
Proof.
  unfold Alloc. intros Hwf. destruct (scan _ _ _ _) as [p|] eqn:E; intros [= <- <-]; [|done].
  apply scan_Some in E as (Hr & _ & _). intros q v. simpl.
  rewrite lookup_insert. case_decide; [intros [= <-]; subst; split; [done|lia]|apply Hwf].
Qed.

Lemma Free_wf a p : wf a -> wf (Free a p).
Proof.
  intros Hwf q v. simpl. rewrite lookup_delete. case_decide; [done|apply Hwf].
Qed.

#[global] Instance pool_laws : PortPoolLaws t wf.
Proof.
  split; simpl.
  - eauto using Alloc_wf.
  - eauto using Free_wf.
  - intros p q n. unfold Alloc. destruct (scan _ _ _ _) as [k|] eqn:E; intros [= <- <-]; simpl.
    apply scan_Some in E as (_ & Hf & _). split; [|apply held_insert].
    rewrite <- in_use_held, Hf. done.
  - intros p q e. unfold Alloc. destruct (scan _ _ _ _); by intros [= <- <-].
  - intros p n. apply held_delete.
Qed.

(** *** Properties *)

(** C3: [Alloc] succeeds with the lowest free port of the range, which was
    not in use, and marks that port and no other; it fails exactly when every
    port of the range is in use, and then changes nothing. *)
Theorem Alloc_spec (a : t) :
  match Alloc a with
  | (a', Ok p) =>
      base a <= p < base a + count a /\ in_use (inUse a) p = false /\
      (forall q, base a <= q < p -> in_use (inUse a) q = true) /\
      (forall q, in_use (inUse a') q = in_use (inUse a) q || (q =? p))
  | (a', Err e) =>
      a' = a /\ e = (base a, base a + count a - 1) /\
      (forall q, base a <= q < base a + count a -> in_use (inUse a) q = true)
  end.
Proof.
  unfold Alloc. destruct (scan _ _ _ _) as [p|] eqn:E.
  - apply scan_Some in E as (Hr & Hf & Hlow). split_and!; [lia|lia|done| |].
    + intros q Hq. apply Hlow. lia.
    + intros q. simpl. unfold in_use. rewrite lookup_insert.
      case_decide; destruct (Z.eqb_spec q p); subst; try done.
      * by rewrite orb_true_r.
      * by rewrite orb_false_r.
  - rewrite scan_None in E. split_and!; [done|done|]. intros q Hq. apply E. lia.
Qed.

End PortAllocator.
