(* ===== verification/Text.v ===== *)
(** Go strings as byte lists: UTF-8 decoding ([unicode/utf8]), the rune
    predicates the code uses and the [strings] helpers it calls. The Unicode
    category tables are an interface ([Unicode]): every theorem holds for any
    tables, so in particular for Go's. *)

From Stdlib Require Import Ascii String.
From S2P Require Import Prelude.

Local Open Scope Z_scope.

Abbreviation bytes := (list Z).
Abbreviation rune := Z (only parsing).

(** The bytes of a literal. *)
Fixpoint bs (s : string) : bytes :=
  match s with
  | EmptyString => []
  | String.String c r => Z.of_nat (nat_of_ascii c) :: bs r
  end.

(** The categories of [unicode.IsLetter], [IsDigit], [Is(M, _)], [IsPunct],
    [IsSymbol] and the mapping [unicode.ToLower]. *)
Class Unicode := {
  IsLetter : Z -> bool;
  IsDigit : Z -> bool;
  IsMark : Z -> bool;
  IsPunct : Z -> bool;
  IsSymbol : Z -> bool;
  ToLower : Z -> Z;
}.

(** [unicode.IsSpace]: the White_Space property. *)
Definition IsSpace (r : Z) : bool :=
  ((9 <=? r) && (r <=? 13)) || (r =? 32) || (r =? 133) || (r =? 160) ||
  (r =? 5760) || ((8192 <=? r) && (r <=? 8202)) || (r =? 8232) || (r =? 8233) ||
  (r =? 8239) || (r =? 8287) || (r =? 12288).

(** [utf8.RuneError]. *)
Definition RuneError : Z := 65533.

Definition cont (b : Z) : bool := (128 <=? b) && (b <=? 191).

Definition between (lo b hi : Z) : bool := (lo <=? b) && (b <=? hi).

(** [utf8.DecodeRune]: the first rune and its width; [(RuneError, 1)] on an
    invalid or truncated encoding, [(RuneError, 0)] on the empty string. *)
Definition DecodeRune (s : bytes) : Z * Z :=
  match s with
  | [] => (RuneError, 0)
  | b0 :: r0 =>
      if b0 <? 128 then (b0, 1)
      else if b0 <? 194 then (RuneError, 1)
      else if b0 <? 224 then
        match r0 with
        | b1 :: _ => if cont b1 then ((b0 - 192) * 64 + (b1 - 128), 2) else (RuneError, 1)
        | _ => (RuneError, 1)
        end
      else if b0 <? 240 then
        match r0 with
        | b1 :: b2 :: _ =>
            if between (if b0 =? 224 then 160 else 128) b1 (if b0 =? 237 then 159 else 191) &&
               cont b2
            then ((b0 - 224) * 4096 + (b1 - 128) * 64 + (b2 - 128), 3) else (RuneError, 1)
        | _ => (RuneError, 1)
        end
      else if b0 <? 245 then
        match r0 with
        | b1 :: b2 :: b3 :: _ =>
            if between (if b0 =? 240 then 144 else 128) b1 (if b0 =? 244 then 143 else 191) &&
               cont b2 && cont b3
            then ((b0 - 240) * 262144 + (b1 - 128) * 4096 + (b2 - 128) * 64 + (b3 - 128), 4)
            else (RuneError, 1)
        | _ => (RuneError, 1)
        end
      else (RuneError, 1)
  end.

(** [for _, r := range s]: the runes in order, one per decoding step; the fuel
    is the byte count, which the widths use up. *)
Fixpoint runes_fuel (n : nat) (s : bytes) : list Z :=
  match n, s with
  | S k, _ :: _ => let '(r, w) := DecodeRune s in r :: runes_fuel k (drop (Z.to_nat w) s)
  | _, _ => []
  end.

Definition runes (s : bytes) : list Z := runes_fuel (length s) s.

(** [utf8.EncodeRune] / [strings.Builder.WriteRune]. *)
Definition EncodeRune (r : Z) : bytes :=
  if (0 <=? r) && (r <? 128) then [r]
  else if (0 <=? r) && (r <? 2048) then [192 + r / 64; 128 + r mod 64]
  else if (r <? 0) || (1114111 <? r) || between 55296 r 57343 then [239; 191; 189]
  else if r <? 65536 then [224 + r / 4096; 128 + r / 64 mod 64; 128 + r mod 64]
  else [240 + r / 262144; 128 + r / 4096 mod 64; 128 + r / 64 mod 64; 128 + r mod 64].

(** [utf8.RuneStart]. *)
Definition RuneStart (b : Z) : bool := negb (cont b).

(** The search of [utf8.DecodeLastRune] for a rune-start byte: from [start]
    down to [lim], [left] steps at most. *)
Fixpoint last_start (left : nat) (s : bytes) (start lim : Z) : Z :=
  match left with
  | O => start
  | S k =>
      if start <? lim then start
      else if RuneStart (default 0 (s !! Z.to_nat start)) then start
      else last_start k s (start - 1) lim
  end.

(** [utf8.DecodeLastRune]. *)
Definition DecodeLastRune (s : bytes) : Z * Z :=
  let fin := Z.of_nat (length s) in
  if fin =? 0 then (RuneError, 0)
  else
    let r := default 0 (s !! Z.to_nat (fin - 1)) in
    if r <? 128 then (r, 1)
    else
      let lim := Z.max 0 (fin - 4) in
      let start := Z.max 0 (last_start 4 s (fin - 2) lim) in
      let '(r, w) := DecodeRune (drop (Z.to_nat start) s) in
      if start + w =? fin then (r, w) else (RuneError, 1).

(** Drop the leading white space, then (reversed) the trailing one. *)
Fixpoint trim_left (n : nat) (s : bytes) : bytes :=
  match n with
  | O => s
  | S k =>
      match s with
      | [] => []
      | _ => let '(r, w) := DecodeRune s in
             if IsSpace r then trim_left k (drop (Z.to_nat w) s) else s
      end
  end.

Fixpoint trim_right (n : nat) (s : bytes) : bytes :=
  match n with
  | O => s
  | S k =>
      match s with
      | [] => []
      | _ => let '(r, w) := DecodeLastRune s in
             if IsSpace r then trim_right k (take (length s - Z.to_nat w) s) else s
      end
  end.

(** [strings.TrimSpace]. *)
Definition TrimSpace (s : bytes) : bytes :=
  let l := trim_left (length s) s in trim_right (length l) l.

(** [strings.HasPrefix]. *)
Fixpoint HasPrefix (s p : bytes) : bool :=
  match p, s with
  | [], _ => true
  | b :: q, c :: t => (b =? c) && HasPrefix t q
  | _ :: _, [] => false
  end.

(** [strings.Join]. *)
Fixpoint Join (l : list bytes) (sep : bytes) : bytes :=
  match l with
  | [] => []
  | [x] => x
  | x :: r => x ++ sep ++ Join r sep
  end.

(** [strings.TrimPrefix]. *)
Definition TrimPrefix (s p : bytes) : bytes := if HasPrefix s p then drop (length p) s else s.

(** [strings.Split] at a one-byte separator. *)
Fixpoint split_at (sep : Z) (cur s : bytes) : list bytes :=
  match s with
  | [] => [cur]
  | c :: r => if c =? sep then cur :: split_at sep [] r else split_at sep (cur ++ [c]) r
  end.
Definition Split (sep : Z) (s : bytes) : list bytes := split_at sep [] s.

(** [strings.Cut] at a one-byte separator. *)
Fixpoint Cut (sep : Z) (s : bytes) : option (bytes * bytes) :=
  match s with
  | [] => None
  | c :: r => if c =? sep then Some ([], r) else '(a, b) ← Cut sep r; Some (c :: a, b)
  end.

(** [strconv.Atoi]. *)
Fixpoint digits (acc : Z) (s : bytes) : option Z :=
  match s with
  | [] => Some acc
  | c :: r => if between 48 c 57 then digits (10 * acc + (c - 48)) r else None
  end.

Definition Atoi (s : bytes) : option Z :=
  let of_digits (d : bytes) := match d with [] => None | _ => digits 0 d end in
  match s with
  | 45 :: r => match of_digits r with Some z => if z <=? 2 ^ 63 then Some (- z) else None | None => None end
  | 43 :: r => match of_digits r with Some z => if z <? 2 ^ 63 then Some z else None | None => None end
  | _ => match of_digits s with Some z => if z <? 2 ^ 63 then Some z else None | None => None end
  end.

(** *** Decoding facts *)

Lemma DecodeRune_width (s : bytes) :
  s <> [] -> 1 <= (DecodeRune s).2 <= Z.of_nat (length s) /\ (DecodeRune s).2 <= 4.
Proof.
  intros Hs. unfold DecodeRune. destruct s as [|b0 r0]; [done|].
  assert (1 <= Z.of_nat (length (b0 :: r0))) by (simpl; lia).
  repeat case_match; simpl in *; simplify_eq/=; lia.
Qed.

(** A rune decoded from something else than the bytes of an ASCII character is
    not an ASCII character. *)
Lemma DecodeRune_ascii (b : Z) (t : bytes) :
  0 <= b < 128 -> DecodeRune (b :: t) = (b, 1).
Proof. intros H. unfold DecodeRune. case_match; [done|]. bool_to_prop. lia. Qed.

#[export] Hint Resolve DecodeRune_width : vaani.

(** *** Prefixes *)

Lemma HasPrefix_nil s : HasPrefix s [] = true.
Proof. by destruct s. Qed.

Lemma HasPrefix_app s p q : HasPrefix s p = true -> HasPrefix (s ++ q) p = true.
Proof.
  revert s. induction p as [|b p IH]; intros s H; [apply HasPrefix_nil|].
  destruct s as [|c s]; simpl in *; [done|]. apply andb_true_iff in H as [-> H]. by apply IH.
Qed.

Lemma HasPrefix_long s p q : (length p <= length s)%nat -> HasPrefix (s ++ q) p = HasPrefix s p.
Proof.
  revert s. induction p as [|b p IH]; intros s H; [by rewrite !HasPrefix_nil|].
  destruct s as [|c s]; simpl in *; [lia|]. f_equal. apply IH. lia.
Qed.

Lemma HasPrefix_length s p : HasPrefix s p = true -> (length p <= length s)%nat.
Proof.
  revert s. induction p as [|b p IH]; intros s H; [simpl; lia|].
  destruct s as [|c s]; simpl in *; [done|]. apply andb_true_iff in H as [_ H]. apply IH in H. lia.
Qed.

Lemma HasPrefix_self p q : HasPrefix (p ++ q) p = true.
Proof. induction p as [|b p IH]; simpl; [apply HasPrefix_nil|]. by rewrite Z.eqb_refl. Qed.

Lemma HasPrefix_inv s p : HasPrefix s p = true -> exists q, s = p ++ q.
Proof.
  revert s. induction p as [|b p IH]; intros s H; [by exists s|].
  destruct s as [|c s]; [done|]. unfold HasPrefix in H; fold HasPrefix in H.
  apply andb_true_iff in H as [->%Z.eqb_eq H]. apply IH in H as [q ->]. by exists q.
Qed.

Lemma HasPrefix_elem s p b : HasPrefix s p = true -> b ∈ p -> b ∈ s.
Proof.
  revert s. induction p as [|x p IH]; intros s H Hb; [by apply elem_of_nil in Hb|]. destruct s as [|y s]; [done|]. cbn [HasPrefix] in H.
  apply andb_prop in H as [E H]. apply Z.eqb_eq in E as ->. apply elem_of_cons in Hb as [->|Hb]; [left|right; auto].
Qed.

(** What is trimmed is a part of the text. *)
Lemma trim_left_sub n s : exists p, s = p ++ trim_left n s.
Proof.
  revert s. induction n as [|n IH]; intros s; [by exists []|]. cbn [trim_left]. destruct s as [|c s]; [by exists []|].
  destruct (DecodeRune (c :: s)) as [r w]. destruct (IsSpace r); [|by exists []]. destruct (IH (drop (Z.to_nat w) (c :: s))) as [p Hp].
  exists (take (Z.to_nat w) (c :: s) ++ p). by rewrite <- app_assoc, <- Hp, take_drop.
Qed.

Lemma trim_right_sub n s : exists q, s = trim_right n s ++ q.
Proof.
  revert s. induction n as [|n IH]; intros s; [exists []; symmetry; apply app_nil_r|]. cbn [trim_right]. destruct s as [|c s]; [by exists []|].
  destruct (DecodeLastRune (c :: s)) as [r w]. destruct (IsSpace r); [|exists []; symmetry; apply app_nil_r].
  set (m := (length (c :: s) - Z.to_nat w)%nat). destruct (IH (take m (c :: s))) as [q Hq]. exists (q ++ drop m (c :: s)).
  by rewrite app_assoc, <- Hq, take_drop.
Qed.

Lemma TrimSpace_sub s : exists p q, s = p ++ TrimSpace s ++ q.
Proof.
  unfold TrimSpace. destruct (trim_left_sub (length s) s) as [p Hp]. remember (trim_left (length s) s) as l. clear Heql.
  destruct (trim_right_sub (length l) l) as [q Hq]. exists p, q. by rewrite <- Hq.
Qed.

(** *** Splitting *)

Lemma split_at_field sep cur s t : sep ∉ s -> split_at sep cur (s ++ sep :: t) = (cur ++ s) :: Split sep t.
Proof.
  revert cur. induction s as [|c s IH]; intros cur H; cbn [app split_at].
  - by rewrite Z.eqb_refl, app_nil_r.
  - apply not_elem_of_cons in H as [Hc H]. rewrite (proj2 (Z.eqb_neq _ _)) by done. rewrite IH by done. by rewrite <- app_assoc.
Qed.

Lemma Split_field sep s t : sep ∉ s -> Split sep (s ++ sep :: t) = s :: Split sep t.
Proof. intros H. unfold Split at 1. by rewrite split_at_field. Qed.

Lemma Split_last sep s : sep ∉ s -> Split sep s = [s].
Proof.
  unfold Split. change [s] with [[] ++ s]. generalize (@nil Z) as cur. induction s as [|c s IH]; intros cur H; cbn [split_at]; [by rewrite app_nil_r|].
  apply not_elem_of_cons in H as [Hc H]. rewrite (proj2 (Z.eqb_neq _ _)) by done. rewrite IH by done. by rewrite <- app_assoc.
Qed.

Lemma Cut_field sep s t : sep ∉ s -> Cut sep (s ++ sep :: t) = Some (s, t).
Proof.
  induction s as [|c s IH]; intros H; cbn [app Cut]; [by rewrite Z.eqb_refl|].
  apply not_elem_of_cons in H as [Hc H]. rewrite (proj2 (Z.eqb_neq _ _)) by done. by rewrite IH.
Qed.

Lemma Cut_key sep s k v : Cut sep s = Some (k, v) -> s = k ++ sep :: v /\ sep ∉ k.
Proof.
  revert k. induction s as [|c s IH]; intros k H; [done|]. cbn [Cut] in H. destruct (Z.eqb_spec c sep) as [->|Hc].
  - injection H as <- <-. split; [done|by apply not_elem_of_nil].
  - destruct (Cut sep s) as [[a b]|]; [|done]. injection H as <- <-. destruct (IH a eq_refl) as [-> Hk]. split; [done|].
    by apply not_elem_of_cons.
Qed.

(** What ends with an ASCII character that is no space, at both ends, is
    trimmed already. *)
Definition solid (c : Z) : Prop := 0 <= c < 128 /\ IsSpace c = false.

Lemma TrimSpace_ends x a i c : solid x -> solid c -> x :: a = i ++ [c] -> TrimSpace (x :: a) = x :: a.
Proof.
  intros [Hx Sx] [Hc Sc] E. unfold TrimSpace. cbn [length trim_left]. rewrite (DecodeRune_ascii x a) by done. rewrite Sx.
  change (S (length a)) with (length (x :: a)). rewrite E.
  assert (DecodeLastRune (i ++ [c]) = (c, 1)) as Hl.
  { unfold DecodeLastRune. rewrite length_app, Nat2Z.inj_add. change (Z.of_nat (length [c])) with 1.
    rewrite (proj2 (Z.eqb_neq _ 0)) by lia. replace (Z.to_nat (Z.of_nat (length i) + 1 - 1)) with (length i) by lia. rewrite lookup_app_r, Nat.sub_diag by lia. simpl.
    by rewrite (proj2 (Z.ltb_lt _ _)) by lia. }
  rewrite length_app, Nat.add_1_r. cbn [trim_right]. rewrite Hl, Sc. by destruct i.
Qed.

(** *** Whole text: a sequence of complete encodings

    What [DecodeRune] reads from it does not depend on the bytes that follow. *)

Definition encodes (c : bytes) (r : Z) : Prop :=
  c <> [] /\ forall t, DecodeRune (c ++ t) = (r, Z.of_nat (length c)).

Inductive whole : bytes -> Prop :=
  | whole_nil : whole []
  | whole_cons c r s : encodes c r -> whole s -> whole (c ++ s).

(** A Unicode scalar value. *)
Definition scalar (r : Z) : Prop := 0 <= r < 55296 \/ 57343 < r <= 1114111.

Ltac decide_bools :=
  repeat first
    [ rewrite (proj2 (Z.ltb_lt _ _)) by lia | rewrite (proj2 (Z.ltb_ge _ _)) by lia
    | rewrite (proj2 (Z.leb_le _ _)) by lia | rewrite (proj2 (Z.leb_gt _ _)) by lia ].

Lemma DecodeRune_2 b0 b1 t :
  194 <= b0 < 224 -> 128 <= b1 <= 191 ->
  DecodeRune (b0 :: b1 :: t) = ((b0 - 192) * 64 + (b1 - 128), 2).
Proof. intros. unfold DecodeRune, cont. by decide_bools. Qed.

Lemma DecodeRune_3 b0 b1 b2 t :
  224 <= b0 < 240 -> 128 <= b1 <= 191 -> 128 <= b2 <= 191 ->
  (b0 = 224 -> 160 <= b1) -> (b0 = 237 -> b1 <= 159) ->
  DecodeRune (b0 :: b1 :: b2 :: t) = ((b0 - 224) * 4096 + (b1 - 128) * 64 + (b2 - 128), 3).
Proof.
  intros. unfold DecodeRune, cont, between. decide_bools.
  destruct (Z.eqb_spec b0 224), (Z.eqb_spec b0 237); decide_bools; done.
Qed.

Lemma DecodeRune_4 b0 b1 b2 b3 t :
  240 <= b0 < 245 -> 128 <= b1 <= 191 -> 128 <= b2 <= 191 -> 128 <= b3 <= 191 ->
  (b0 = 240 -> 144 <= b1) -> (b0 = 244 -> b1 <= 143) ->
  DecodeRune (b0 :: b1 :: b2 :: b3 :: t) =
    ((b0 - 240) * 262144 + (b1 - 128) * 4096 + (b2 - 128) * 64 + (b3 - 128), 4).
Proof.
  intros. unfold DecodeRune, cont, between. decide_bools.
  destruct (Z.eqb_spec b0 240), (Z.eqb_spec b0 244); decide_bools; done.
Qed.

(** [utf8.DecodeRune] undoes [utf8.EncodeRune]. *)
Lemma EncodeRune_encodes r : scalar r -> encodes (EncodeRune r) r.
Proof.
  intros Hr. unfold scalar in Hr. unfold EncodeRune, between. split.
  { repeat case_match; done. }
  intros t. decide_bools. case_match; bool_to_prop.
  { rewrite <- DecodeRune_ascii with (t := t); [done|lia]. }
  case_match; bool_to_prop.
  { cbn [app length]. rewrite DecodeRune_2; [f_equal| |]; Z.div_mod_to_equations; lia. }
  case_match eqn:Hbad; [bool_to_prop; exfalso; naive_solver lia|]. bool_to_prop.
  case_match; bool_to_prop; cbn [app length].
  { rewrite DecodeRune_3; [f_equal|..]; Z.div_mod_to_equations; lia. }
  rewrite DecodeRune_4; [f_equal|..]; Z.div_mod_to_equations; lia.
Qed.

Lemma whole_app s t : whole s -> whole t -> whole (s ++ t).
Proof. induction 1; intros; simpl; [done|]. rewrite <- app_assoc. econstructor; eauto. Qed.

Lemma whole_encode rs : Forall scalar rs -> whole (concat (map EncodeRune rs)).
Proof. induction 1; simpl; [constructor|]. econstructor; [by apply EncodeRune_encodes|done]. Qed.

Lemma whole_ascii s : Forall (fun b => 0 <= b < 128) s -> whole s.
Proof.
  induction 1 as [|b s Hb _ IH]; [constructor|]. change (b :: s) with ([b] ++ s).
  apply (whole_cons _ b); [|done]. split; [done|]. intros t. by apply DecodeRune_ascii.
Qed.

Lemma encodes_pos c r : encodes c r -> 1 <= Z.of_nat (length c).
Proof. intros [Hc _]. destruct c; [done|]. simpl. lia. Qed.

Lemma runes_fuel_enough n m s :
  (length s <= n)%nat -> (length s <= m)%nat -> runes_fuel n s = runes_fuel m s.
Proof.
  revert m s. induction n as [|n IH]; intros m s Hn Hm.
  { destruct s; [by destruct m|simpl in Hn; lia]. }
  destruct s as [|b s]; [by destruct m|]. destruct m as [|m]; [simpl in Hm; lia|].
  cbn [runes_fuel]. pose proof (DecodeRune_width (b :: s) ltac:(done)) as [Hw _].
  destruct (DecodeRune (b :: s)) as [r w]. cbn [fst snd] in Hw.
  f_equal. apply IH; rewrite length_drop; simpl in *; lia.
Qed.

Lemma runes_cons c r s : encodes c r -> runes (c ++ s) = r :: runes s.
Proof.
  intros Hc. pose proof (encodes_pos c r Hc). destruct Hc as [Hne Hd]. unfold runes.
  rewrite length_app. destruct c as [|b c]; [done|]. cbn [length Nat.add app runes_fuel].
  change (b :: c ++ s) with ((b :: c) ++ s). rewrite Hd, Nat2Z.id, drop_app_length.
  f_equal. apply runes_fuel_enough; lia.
Qed.

Lemma runes_app s t : whole s -> runes (s ++ t) = runes s ++ runes t.
Proof.
  induction 1 as [|c r s Hc Hs IH]; [done|].
  rewrite <- app_assoc, !(runes_cons c r) by done. by rewrite IH.
Qed.

#[export] Hint Resolve whole_nil whole_app whole_ascii : vaani.

(** A concrete table for the witnesses: ASCII and the Devanagari block. *)
#[global] Instance ascii_deva : Unicode := {
  IsLetter r := between 65 r 90 || between 97 r 122 || between 2308 r 2361;
  IsDigit r := between 48 r 57 || between 2406 r 2415;
  IsMark r := between 2304 r 2307 || between 2362 r 2364 || between 2366 r 2383;
  IsPunct r := between 33 r 35 || between 37 r 42 || between 44 r 47 || between 58 r 59 ||
               between 63 r 64 || between 2404 r 2405;
  IsSymbol r := (r =? 36) || (r =? 43) || between 60 r 62 || (r =? 94) || (r =? 96);
  ToLower r := if between 65 r 90 then r + 32 else r;
}.

Example decode_deva : runes (bs "हाँ") = [2361; 2366; 2305].
Proof. reflexivity. Qed.

Example decode_last_deva : DecodeLastRune (bs "है।") = (2404, 3).
Proof. reflexivity. Qed.

Example trim_example : TrimSpace (bs "  ok  ") = bs "ok".
Proof. reflexivity. Qed.
