(* ===== verification/Chunker.v ===== *)
(** [internal/ai/agent/chunker.go]: cutting streamed LLM text into TTS chunks. *)

From Stdlib Require Import String.
From S2P Require Import Prelude Text.

Local Open Scope Z_scope.

Section chunker.
Context `{U : Unicode}.

Definition chunkerRuneThreshold : Z := 80.
Definition chunkerHardLimit : Z := 2 * chunkerRuneThreshold.
Definition virama : Z := 2381.

(** [sentenceDelimiters]: [. ! ? \n] and the two dandas. *)
Definition sentenceDelimiters (r : Z) : bool :=
  (r =? 46) || (r =? 33) || (r =? 63) || (r =? 10) || (r =? 2404) || (r =? 2405).

Definition is_pause (prev : Z) : bool := (prev =? 44) || (prev =? 59) || (prev =? 58).

(** The loop variables of [nextCut]. *)
Record scan := mkScan {
  sc_i : Z; sc_runes : Z; sc_content : bool;
  sc_space : Z; sc_pause : Z; sc_prev : Z;
}.

Definition scan_init : scan := mkScan 0 0 false 0 0 0.

(** One iteration on the buffer [buf]: [inl cut] returns [(cut, true)],
    [inr s] goes round with [s]. *)
Definition scan_step (buf : bytes) (s : scan) : Z + scan :=
  let '(r, w) := DecodeRune (drop (Z.to_nat (sc_i s)) buf) in
  let i := sc_i s + w in
  let n := sc_runes s + 1 in
  let brk := IsSpace r && sc_content s in
  let space := if brk then i else sc_space s in
  let pause := if brk && is_pause (sc_prev s) && (chunkerRuneThreshold / 2 <=? n)
               then i else sc_pause s in
  let delim := sentenceDelimiters r && sc_content s in
  let forced :=
    if (chunkerRuneThreshold <=? n) && negb delim then
      if 0 <? pause then Some pause
      else if 0 <? space then Some space
      else if (chunkerHardLimit <=? n) && (i <? Z.of_nat (length buf)) then
        let next := (DecodeRune (drop (Z.to_nat i) buf)).1 in
        if negb (IsMark next) && negb (r =? virama) then Some i else None
      else None
    else None in
  match forced with
  | Some c => inl c
  | None =>
      if delim then
        if (r =? 46) && IsDigit (sc_prev s)
        then inr (mkScan i n (sc_content s) space pause r)
        else inl i
      else inr (mkScan i n (sc_content s || IsLetter r || IsDigit r) space pause r)
  end.

Fixpoint scan_loop (fuel : nat) (buf : bytes) (s : scan) : option Z :=
  match fuel with
  | O => None
  | S k =>
      if sc_i s <? Z.of_nat (length buf) then
        match scan_step buf s with
        | inl c => Some c
        | inr s' => scan_loop k buf s'
        end
      else None
  end.

(** [nextCut]: every iteration consumes at least one byte, so the buffer's
    length bounds the iterations. *)
Definition nextCut (buf : bytes) : option Z := scan_loop (length buf) buf scan_init.

(** The [for] loop of [Feed]: the chunks in order and the bytes left. *)
Fixpoint feed_loop (fuel : nat) (buf : bytes) : list bytes * bytes :=
  match fuel with
  | O => ([], buf)
  | S k =>
      match nextCut buf with
      | None => ([], buf)
      | Some c =>
          let '(out, rest) := feed_loop k (drop (Z.to_nat c) buf) in
          (take (Z.to_nat c) buf :: out, rest)
      end
  end.

(** [SentenceChunker.Feed]: the chunker's state is its buffer. *)
Definition Feed (buf token : bytes) : list bytes * bytes :=
  feed_loop (S (length (buf ++ token))) (buf ++ token).

Definition hasLetterOrDigit (s : bytes) : bool :=
  existsb (fun r => IsLetter r || IsDigit r) (runes s).

(** [SentenceChunker.Flush]: the text to send and the (emptied) buffer. *)
Definition Flush (buf : bytes) : bytes * bytes :=
  match buf with
  | [] => ([], [])
  | _ => if hasLetterOrDigit buf then (buf, []) else ([], [])
  end.

(** *** The positions a scan passes

    [reach buf i n b]: the loop of [nextCut] reaches offset [i] after [n] runes,
    [b] telling whether one of them was a letter or a digit. *)

Inductive reach (buf : bytes) : Z -> Z -> bool -> Prop :=
  | reach_start : reach buf 0 0 false
  | reach_rune i n b r w :
      reach buf i n b -> i < Z.of_nat (length buf) ->
      DecodeRune (drop (Z.to_nat i) buf) = (r, w) ->
      reach buf (i + w) (n + 1) (b || IsLetter r || IsDigit r).

Lemma decode_at (buf : bytes) i :
  0 <= i < Z.of_nat (length buf) ->
  1 <= (DecodeRune (drop (Z.to_nat i) buf)).2 <= Z.of_nat (length buf) - i.
Proof.
  intros Hi. pose proof (DecodeRune_width (drop (Z.to_nat i) buf)) as H.
  rewrite length_drop in H. destruct H as [? _]; [|lia].
  intros Hn. apply (f_equal length) in Hn. rewrite length_drop in Hn. simpl in Hn. lia.
Qed.

Lemma reach_bounds buf i n b : reach buf i n b -> 0 <= i <= Z.of_nat (length buf).
Proof.
  induction 1 as [|i n b r w _ IH Hi Hd]; [lia|].
  pose proof (decode_at buf i ltac:(lia)). rewrite Hd in *. simpl in *. lia.
Qed.

Record scan_ok (buf : bytes) (s : scan) : Prop := {
  ok_here : reach buf (sc_i s) (sc_runes s) (sc_content s);
  ok_space : sc_space s = 0 \/ 0 < sc_space s /\ exists n, reach buf (sc_space s) n true;
  ok_pause : sc_pause s = 0 \/ 0 < sc_pause s /\ exists n, reach buf (sc_pause s) n true;
}.

(** A cut ends a chunk that has content, or one that reached the hard limit. *)
Definition cut_ok (buf : bytes) (c : Z) : Prop :=
  0 < c /\ exists n b, reach buf c n b /\ (b = true \/ chunkerHardLimit <= n).

Lemma scan_step_ok buf s :
  scan_ok buf s -> sc_i s < Z.of_nat (length buf) ->
  match scan_step buf s with
  | inl c => cut_ok buf c
  | inr s' => scan_ok buf s' /\ sc_i s < sc_i s'
  end.
Proof.
  intros [Hr Hsp Hpa] Hi. unfold scan_step.
  pose proof (reach_bounds _ _ _ _ Hr) as Hb. pose proof (decode_at buf (sc_i s) ltac:(lia)) as Hw.
  destruct (DecodeRune _) as [r w] eqn:Hd. simpl in Hw.
  pose proof (reach_rune _ _ _ _ _ _ Hr Hi Hd) as Hn.
  assert (forall x y, (IsSpace r && sc_content s && x = true -> y = sc_i s + w) ->
    (IsSpace r && sc_content s && x = false -> y = 0 \/ 0 < y /\ exists n, reach buf y n true) ->
    y = 0 \/ 0 < y /\ exists n, reach buf y n true) as Hbrk.
  { intros x y Ht Hf. destruct (_ && x) eqn:E; [|by apply Hf]. right. rewrite Ht by done.
    bool_to_prop. split; [lia|]. exists (sc_runes s + 1).
    by replace (sc_content s) with true in Hn. }
  set (space := if IsSpace r && sc_content s then _ else _).
  set (pause := if _ && is_pause _ && _ then _ else _).
  assert (space = 0 \/ 0 < space /\ exists n, reach buf space n true) as Hspace.
  { apply (Hbrk true); rewrite andb_true_r; unfold space; by intros ->. }
  assert (pause = 0 \/ 0 < pause /\ exists n, reach buf pause n true) as Hpause.
  { apply (Hbrk (is_pause (sc_prev s) && (chunkerRuneThreshold / 2 <=? sc_runes s + 1)));
      rewrite andb_assoc; unfold pause; by intros ->. }
  clearbody space pause. clear Hbrk Hsp Hpa.
  assert (forall x, 0 < x -> (x = 0 \/ 0 < x /\ exists n, reach buf x n true) -> cut_ok buf x) as Hcut.
  { intros x Hx [->|[_ [n Hrn]]]; [lia|]. split; [done|]. exists n, true. auto. }
  destruct (sentenceDelimiters r && sc_content s) eqn:Hdel.
  { rewrite andb_false_r. bool_to_prop. rewrite H0 in Hn. destruct (_ && IsDigit _).
    - split; [split; simpl; [by rewrite H0|done|done]|simpl; lia].
    - split; [lia|]. eauto 10. }
  destruct ((_ <=? _) && negb _); [|split; [by split|simpl; lia]].
  destruct (0 <? pause) eqn:E1; bool_to_prop; [by apply Hcut|].
  destruct (0 <? space) eqn:E2; bool_to_prop; [by apply Hcut|].
  destruct ((_ <=? _) && (_ <? _)) eqn:E3; bool_to_prop;
    [destruct (negb _ && _)|]; try (split; [by split|simpl; lia]).
  split; [lia|]; eauto 10.
Qed.

Lemma scan_init_ok buf : scan_ok buf scan_init.
Proof. split; simpl; [constructor|by left|by left]. Qed.

Lemma scan_loop_cut fuel buf s c :
  scan_ok buf s -> scan_loop fuel buf s = Some c -> cut_ok buf c.
Proof.
  revert s. induction fuel as [|k IH]; intros s Hs; simpl; [done|].
  destruct (_ <? _) eqn:E; [|done]. bool_to_prop. pose proof (scan_step_ok buf s Hs E) as H.
  destruct (scan_step buf s); [by intros [= ->]|]. by apply IH, H.
Qed.

Lemma nextCut_ok buf c : nextCut buf = Some c -> cut_ok buf c.
Proof. apply scan_loop_cut, scan_init_ok. Qed.

Lemma nextCut_bounds buf c : nextCut buf = Some c -> 0 < c <= Z.of_nat (length buf).
Proof. intros H%nextCut_ok. destruct H as (? & n & b & Hr%reach_bounds & _). lia. Qed.

(** The fuel never runs out before the buffer does. *)
Lemma scan_loop_fuel f1 f2 buf s :
  scan_ok buf s -> Z.of_nat (length buf) - sc_i s <= Z.of_nat f1 ->
  Z.of_nat (length buf) - sc_i s <= Z.of_nat f2 ->
  scan_loop f1 buf s = scan_loop f2 buf s.
Proof.
  revert f2 s. induction f1 as [|k IH]; intros f2 s Hs H1 H2; simpl.
  { destruct f2; simpl; [done|]. destruct (_ <? _) eqn:E; [|done]. bool_to_prop. lia. }
  destruct (_ <? _) eqn:E; bool_to_prop;
    (destruct f2; simpl; [try lia; done|]); [|by rewrite (proj2 (Z.ltb_ge _ _))].
  rewrite (proj2 (Z.ltb_lt _ _)) by done. pose proof (scan_step_ok buf s Hs E) as H.
  destruct (scan_step buf s); [done|]. apply IH; [apply H|lia|lia].
Qed.

(** *** Feeding *)

Lemma feed_loop_fuel k1 k2 buf :
  (length buf < k1)%nat -> (length buf < k2)%nat -> feed_loop k1 buf = feed_loop k2 buf.
Proof.
  revert k2 buf. induction k1 as [|k IH]; intros k2 buf H1 H2; [lia|]. destruct k2 as [|k2]; [lia|].
  simpl. destruct (nextCut buf) as [c|] eqn:E; [|done]. apply nextCut_bounds in E.
  by rewrite (IH k2) by (rewrite length_drop; lia).
Qed.

Lemma feed_loop_spec k buf out rest :
  (length buf < k)%nat -> feed_loop k buf = (out, rest) ->
  concat out ++ rest = buf /\ Forall (fun c => c <> []) out /\ nextCut rest = None.
Proof.
  revert buf out rest. induction k as [|k IH]; intros buf out rest Hk E; [lia|]. simpl in E.
  destruct (nextCut buf) as [c|] eqn:Ec; [|by injection E as <- <-].
  apply nextCut_bounds in Ec.
  destruct (feed_loop k _) as [out' rest'] eqn:E'. injection E as <- <-.
  apply IH in E' as (Hc & Ho & Hr); [|rewrite length_drop; lia].
  split_and!; [|constructor; [|done]|done].
  - simpl. rewrite <- app_assoc, Hc. apply take_drop.
  - intros Hn. apply (f_equal length) in Hn. rewrite length_take in Hn. simpl in Hn. lia.
Qed.

(** The chunker loses and invents nothing: the chunks [Feed] releases,
    followed by what it keeps, are the buffered text followed by the token; no
    chunk is empty, and nothing that could already be cut is kept back. *)
Theorem Feed_lossless buf token :
  let '(out, rest) := Feed buf token in
  concat out ++ rest = buf ++ token /\ Forall (fun c => c <> []) out /\ nextCut rest = None.
Proof.
  destruct (Feed buf token) as [out rest] eqn:E. eapply feed_loop_spec; [|exact E]. lia.
Qed.

(** *** Whole text *)

Lemma hasLetterOrDigit_app s t :
  whole s -> hasLetterOrDigit (s ++ t) = hasLetterOrDigit s || hasLetterOrDigit t.
Proof. intros Hs. unfold hasLetterOrDigit. by rewrite runes_app, existsb_app. Qed.

Lemma whole_step buf i :
  0 <= i < Z.of_nat (length buf) -> whole (drop (Z.to_nat i) buf) ->
  exists c r s, encodes c r /\ whole s /\ drop (Z.to_nat i) buf = c ++ s /\
    drop (Z.to_nat (i + Z.of_nat (length c))) buf = s /\
    take (Z.to_nat (i + Z.of_nat (length c))) buf = take (Z.to_nat i) buf ++ c.
Proof.
  intros Hi Hw. inversion Hw as [Hn|c r s Hc Hs Heq].
  { apply (f_equal length) in Hn. rewrite length_drop in Hn. simpl in Hn. lia. }
  exists c, r, s. symmetry in Heq. split_and!; try done.
  - rewrite Z2Nat.inj_add, Nat2Z.id, <- drop_drop, Heq by lia. apply drop_app_length.
  - rewrite Z2Nat.inj_add, Nat2Z.id by lia.
    rewrite <- (take_drop (Z.to_nat i) buf) at 1. rewrite Heq, take_app_add';
      [by rewrite take_app_length|rewrite length_take; lia].
Qed.

Lemma reach_whole buf i n b :
  whole buf -> reach buf i n b ->
  whole (take (Z.to_nat i) buf) /\ whole (drop (Z.to_nat i) buf) /\
  Z.of_nat (length (runes (take (Z.to_nat i) buf))) = n /\
  hasLetterOrDigit (take (Z.to_nat i) buf) = b.
Proof.
  intros Hw. induction 1 as [|i n b r w Hr IH Hi Hd].
  { rewrite take_0, drop_0. split_and!; [constructor|done|done|done]. }
  apply reach_bounds in Hr. destruct IH as (Ht & Hdr & Hn & Hb).
  destruct (whole_step buf i ltac:(lia) Hdr) as (c & r' & s & Hc & Hs & He & Hd' & Ht').
  pose proof Hc as [_ Hdec]. rewrite He, Hdec in Hd. injection Hd as -> <-.
  assert (whole c) as Hwc by (rewrite <- (app_nil_r c); econstructor; [done|constructor]).
  assert (runes c = [r]) as Hrc by (rewrite <- (app_nil_r c); by rewrite (runes_cons c r)).
  rewrite Ht', Hd'. split_and!; [by apply whole_app|done| |].
  - rewrite runes_app, length_app, Hrc by done. simpl. lia.
  - rewrite hasLetterOrDigit_app, Hb by done. unfold hasLetterOrDigit. rewrite Hrc.
    simpl. by rewrite orb_false_r, orb_assoc.
Qed.

(** What can be said of every chunk: it has content, unless it was cut at the
    hard limit. *)
Definition chunk_ok (c : bytes) : Prop :=
  hasLetterOrDigit c = true \/ chunkerHardLimit <= Z.of_nat (length (runes c)).

Lemma cut_whole buf c :
  whole buf -> nextCut buf = Some c ->
  chunk_ok (take (Z.to_nat c) buf) /\ whole (take (Z.to_nat c) buf) /\
  whole (drop (Z.to_nat c) buf).
Proof.
  intros Hw H%nextCut_ok. destruct H as (_ & n & b & Hr & Hc).
  apply reach_whole in Hr as (Ht & Hd & Hn & Hb); [|done]. unfold chunk_ok.
  rewrite Hb, Hn. auto.
Qed.

Lemma feed_loop_whole k buf out rest :
  whole buf -> feed_loop k buf = (out, rest) -> Forall chunk_ok out /\ Forall whole out /\ whole rest.
Proof.
  revert buf out rest. induction k as [|k IH]; intros buf out rest Hw E; simpl in E.
  { injection E as <- <-. auto. }
  destruct (nextCut buf) as [c|] eqn:Ec; [|injection E as <- <-; auto].
  destruct (cut_whole buf c Hw Ec) as (Hok & Hwt & Hwd).
  destruct (feed_loop k _) as [out' rest'] eqn:E'. injection E as <- <-.
  apply IH in E' as (? & ? & ?); auto.
Qed.

(** Every chunk handed to the synthesizer is whole text (no character is
    split) and holds a letter or digit, unless it reached the hard limit of 160
    characters without a word break; the remainder is whole text too. *)
Theorem Feed_chunks buf token out rest :
  whole buf -> whole token -> Feed buf token = (out, rest) ->
  Forall (fun c => whole c /\ chunk_ok c) out /\ whole rest.
Proof.
  intros Hb Ht E. apply feed_loop_whole in E as (Hok & Hw & Hr); [|by apply whole_app].
  split; [by apply Forall_and|done].
Qed.

(** *** Streaming *)

Lemma decode_ext buf t i :
  0 <= i < Z.of_nat (length buf) -> whole (drop (Z.to_nat i) buf) ->
  DecodeRune (drop (Z.to_nat i) (buf ++ t)) = DecodeRune (drop (Z.to_nat i) buf).
Proof.
  intros Hi Hw. destruct (whole_step buf i Hi Hw) as (c & r & s & [_ Hc] & _ & He & _).
  rewrite drop_app_le, He, <- app_assoc, !Hc by lia. done.
Qed.

(** A step that cuts, or that does not end the buffer, is the same step when
    more text follows. *)
Lemma scan_step_ext buf t s :
  whole buf -> scan_ok buf s -> sc_i s < Z.of_nat (length buf) ->
  match scan_step buf s with
  | inl c => scan_step (buf ++ t) s = inl c
  | inr s' => sc_i s' < Z.of_nat (length buf) -> scan_step (buf ++ t) s = inr s'
  end.
Proof.
  intros Hw Hs Hi. pose proof (scan_step_ok buf s Hs Hi) as Hok. destruct Hs as [Hr _ _].
  pose proof (reach_bounds _ _ _ _ Hr). pose proof (reach_whole _ _ _ _ Hw Hr) as (_ & Hd & _).
  revert Hok. unfold scan_step. rewrite decode_ext by (done || lia).
  destruct (DecodeRune (drop (Z.to_nat (sc_i s)) buf)) as [r w] eqn:E.
  pose proof (reach_rune _ _ _ _ _ _ Hr Hi E) as Hr'.
  pose proof (reach_bounds _ _ _ _ Hr'). pose proof (reach_whole _ _ _ _ Hw Hr') as (_ & Hd' & _).
  rewrite length_app. intros _.
  set (delim := sentenceDelimiters r && sc_content s).
  set (space := if IsSpace r && sc_content s then _ else _).
  set (pause := if _ && is_pause _ && _ then _ else _). clearbody delim space pause.
  destruct (sc_i s + w <? Z.of_nat (length buf)) eqn:Elt; bool_to_prop.
  - rewrite decode_ext by (done || lia).
    rewrite (proj2 (Z.ltb_lt _ (Z.of_nat (length buf + length t)))) by lia.
    match goal with |- match ?T with _ => _ end => by destruct T end.
  - rewrite andb_false_r. destruct delim; simpl; [rewrite andb_false_r|rewrite andb_true_r].
    + destruct (_ && _); simpl; [lia|done].
    + destruct (chunkerRuneThreshold <=? _); simpl; [|lia].
      destruct (0 <? pause); [done|]. destruct (0 <? space); [done|]. simpl. lia.
Qed.

Lemma scan_loop_ext f buf t s c :
  whole buf -> scan_ok buf s -> scan_loop f buf s = Some c -> scan_loop f (buf ++ t) s = Some c.
Proof.
  intros Hw. revert s. induction f as [|f IH]; intros s Hs; simpl; [done|].
  destruct (sc_i s <? Z.of_nat (length buf)) eqn:E; [|done]. bool_to_prop.
  rewrite (proj2 (Z.ltb_lt _ _)) by (rewrite length_app; lia).
  pose proof (scan_step_ok buf s Hs E) as Hok. pose proof (scan_step_ext buf t s Hw Hs E) as Hx.
  destruct (scan_step buf s) as [c'|s']; [by rewrite Hx|].
  intros Hl. destruct (sc_i s' <? Z.of_nat (length buf)) eqn:E'; bool_to_prop.
  - rewrite Hx by done. apply IH; [apply Hok|done].
  - destruct f; simpl in Hl; [done|]. by rewrite (proj2 (Z.ltb_ge _ _)) in Hl.
Qed.

Lemma nextCut_ext buf t c : whole buf -> nextCut buf = Some c -> nextCut (buf ++ t) = Some c.
Proof.
  intros Hw H. pose proof (nextCut_bounds _ _ H).
  apply (scan_loop_ext _ _ t) in H; [|done|apply scan_init_ok].
  (* more fuel does not change a result *)
  revert H. unfold nextCut. rewrite length_app.
  generalize (length buf), scan_init. intros f s H. revert s H.
  induction f as [|f IH]; intros s Hf; simpl in *; [done|].
  destruct (_ <? _); [|done]. destruct (scan_step _ s); [done|]. by apply IH.
Qed.

Lemma feed_loop_ext k k' buf t out rest :
  whole buf -> (length buf < k)%nat -> (length buf + length t < k')%nat ->
  feed_loop k buf = (out, rest) ->
  feed_loop k' (buf ++ t) =
    (let '(out', rest') := feed_loop k' (rest ++ t) in (out ++ out', rest')).
Proof.
  revert k' buf out rest. induction k as [|k IH]; intros k' buf out rest Hw Hk Hk' E; [lia|].
  simpl in E. destruct (nextCut buf) as [c|] eqn:Ec; cycle 1.
  { injection E as <- <-. by destruct (feed_loop k' _). }
  destruct (cut_whole buf c Hw Ec) as (_ & _ & Hwd). pose proof (nextCut_bounds _ _ Ec).
  destruct (feed_loop k (drop (Z.to_nat c) buf)) as [out1 rest1] eqn:E1. injection E as <- <-.
  destruct k' as [|k']; [lia|].
  pose proof E1 as E2. apply feed_loop_spec in E2 as (Hl & _ & _); [|rewrite length_drop; lia].
  apply (f_equal length) in Hl. rewrite length_app, length_drop in Hl.
  rewrite (feed_loop_fuel (S k') k' (rest1 ++ t)) by (rewrite length_app; lia).
  simpl. rewrite (nextCut_ext buf t c Hw Ec), drop_app_le, take_app_le by lia.
  rewrite (IH k' _ out1 rest1) by (done || rewrite length_drop; lia).
  by destruct (feed_loop k' (rest1 ++ t)).
Qed.

(** C38: the chunks do not depend on how the language model's text was split
    into tokens: feeding two tokens one after the other releases exactly the
    chunks, and keeps exactly the text, of feeding their concatenation. *)
Theorem Feed_streaming buf t1 t2 out1 rest1 out2 rest2 :
  whole buf -> whole t1 ->
  Feed buf t1 = (out1, rest1) -> Feed rest1 t2 = (out2, rest2) ->
  Feed buf (t1 ++ t2) = (out1 ++ out2, rest2).
Proof.
  intros Hb H1 E1 E2. unfold Feed in *. pose proof E1 as E3.
  apply feed_loop_spec in E3 as (Hl & _ & _); [|lia]. apply (f_equal length) in Hl.
  rewrite length_app in Hl.
  rewrite app_assoc, (feed_loop_ext _ _ _ _ _ _ (whole_app _ _ Hb H1) (Nat.lt_succ_diag_r _))
    by (done || rewrite !length_app; lia).
  erewrite (feed_loop_fuel _ _ (rest1 ++ t2)), E2; [done| |lia]. rewrite !length_app in *. lia.
Qed.

(** [Flush] at the end of a turn loses only text without a letter or a
    digit, which the synthesizer would refuse, and leaves the buffer empty. *)
Theorem Flush_spec buf :
  (Flush buf).2 = [] /\
  ((Flush buf).1 = buf \/ (Flush buf).1 = [] /\ hasLetterOrDigit buf = false).
Proof.
  unfold Flush. destruct buf as [|b s]; [auto|]. destruct (hasLetterOrDigit (b :: s)); auto.
Qed.

End chunker.

Example feed_example : Feed [] (bs "Hello. I am 3.5 years old! ok") =
  ([bs "Hello."; bs " I am 3.5 years old!"], bs " ok").
Proof. vm_compute. reflexivity. Qed.

Lemma Feed_streaming_witness :
  Feed [] (bs "Hello. I am" ++ bs " 3.5 years old! ok") =
    ([bs "Hello."] ++ [bs " I am 3.5 years old!"], bs " ok").
Proof.
  apply (Feed_streaming [] (bs "Hello. I am") (bs " 3.5 years old! ok") _ (bs " I am"));
    [constructor| |by vm_compute|by vm_compute].
  apply whole_ascii. repeat constructor; simpl; lia.
Defined.

Lemma Feed_chunks_witness :
  Forall (fun c => whole c /\ chunk_ok c) [bs "Hello."; bs " I am 3.5 years old!"] /\
  whole (bs " ok").
Proof.
  apply (Feed_chunks [] (bs "Hello. I am 3.5 years old! ok"));
    [constructor| |by vm_compute].
  apply whole_ascii. repeat constructor; simpl; lia.
Defined.

(** The hard limit ignores the content rule: 161 bare full stops are cut into a
    chunk without a letter or a digit, which the synthesizer rejects. *)
Theorem hard_limit_content_free :
  let '(out, _) := Feed [] (replicate 161 46) in
  out = [replicate 160 46] /\ forallb (fun c => negb (hasLetterOrDigit c)) out = true.
Proof. by vm_compute. Qed.
