(* ===== verification/ClipRouter.v ===== *)
(** [internal/ai/agent/recordings.go]: [clipRouter], which decides whether an
    LLM reply is spoken or names a recording to play, as its tokens arrive.
    A Go panic (index out of range) is [None]. *)

From Stdlib Require Import String.
From S2P Require Import Prelude Text.

Local Open Scope Z_scope.

Module ClipRouter.

Definition RecordingMarker : bytes := [226; 151; 143].
Definition TTSMarker : bytes := [226; 150; 184].

Inductive routerMode := modeDetecting | modeTTS | modeRecording.
#[global] Instance routerMode_dec : EqDecision routerMode.
Proof. solve_decision. Defined.

Record t := mk { mode : routerMode; buf : bytes; stopped : bool }.
#[global] Instance eta_t : Eta t := fun r => mk (mode r) (buf r) (stopped r).
Definition new : t := mk modeDetecting [] false.

(** ** The [strings] functions used *)

(** [strings.Index]. *)
Fixpoint Index (s sub : bytes) : option nat :=
  if HasPrefix s sub then Some 0%nat
  else match s with [] => None | _ :: r => S <$> Index r sub end.

(** The cut set [" \t\n"]: [TrimLeft] and [ContainsAny] with it. *)
Definition blank (b : Z) : bool := (b =? 32) || (b =? 9) || (b =? 10).
Fixpoint TrimLeft (s : bytes) : bytes :=
  match s with b :: r => if blank b then TrimLeft r else s | [] => [] end.
Definition ContainsAny (s : bytes) : bool := existsb blank s.

(** The bytes up to the next white space. *)
Fixpoint field (n : nat) (s : bytes) : bytes :=
  match n, s with
  | S k, _ :: _ => let '(r, w) := DecodeRune s in
                   if IsSpace r then [] else take (Z.to_nat w) s ++ field k (drop (Z.to_nat w) s)
  | _, _ => []
  end.

(** [strings.Fields(s)[0]]; [None] if there is no field. *)
Definition Fields0 (s : bytes) : option bytes :=
  match trim_left (length s) s with [] => None | r => Some (field (length r) r) end.

(** ** The router *)

(** [feed] in [modeTTS]: the text to speak. *)
Definition feedTTS (r : t) (tok : bytes) : t * bytes :=
  if stopped r then (r, [])
  else match Index tok RecordingMarker with
       | Some i => (r <| stopped := true |>, take i tok)
       | None => (r, tok)
       end.

(** [feed] in [modeRecording]: the recording to play. *)
Definition feedRecording (r : t) (tok : bytes) : option (t * option bytes) :=
  if stopped r then Some (r, None)
  else
    let tok := match Index tok TTSMarker with Some i => take i tok | None => tok end in
    let r := r <| buf := buf r ++ tok |> in
    let rest := TrimLeft (buf r) in
    if ContainsAny rest then
      match Fields0 rest with
      | Some id => Some (r <| stopped := true |>, Some id)
      | None => None
      end
    else Some (r, None).

Definition feed (r : t) (tok : bytes) : option (t * bytes * option bytes) :=
  match mode r with
  | modeTTS => let '(r, s) := feedTTS r tok in Some (r, s, None)
  | modeRecording =>
      match feedRecording r tok with Some (r, id) => Some (r, [], id) | None => None end
  | modeDetecting =>
      let b := buf r ++ tok in
      match Index b RecordingMarker, Index b TTSMarker with
      | Some i, None =>
          match feedRecording (mk modeRecording [] (stopped r)) (drop (i + length RecordingMarker) b) with
          | Some (r, id) => Some (r, [], id)
          | None => None
          end
      | Some i, Some j =>
          if (i <? j)%nat then
            match feedRecording (mk modeRecording [] (stopped r)) (drop (i + length RecordingMarker) b) with
            | Some (r, id) => Some (r, [], id)
            | None => None
            end
          else let '(r, s) := feedTTS (mk modeTTS [] (stopped r)) (TrimPrefix (drop (j + length TTSMarker) b) [32]) in Some (r, s, None)
      | None, Some j =>
          let '(r, s) := feedTTS (mk modeTTS [] (stopped r)) (TrimPrefix (drop (j + length TTSMarker) b) [32]) in Some (r, s, None)
      | None, None => Some (r <| buf := b |>, [], None)
      end
  end.

Definition speakRest (r : t) : t * bytes :=
  let rest := TrimLeft (buf r) in
  let rest := match Fields0 rest with Some f => TrimLeft (TrimPrefix rest f) | None => rest end in
  match Index rest RecordingMarker with
  | Some i => (mk modeTTS [] true, take i rest)
  | None => (mk modeTTS [] false, rest)
  end.

Definition flush (r : t) : t * bytes * option bytes :=
  match mode r with
  | modeRecording =>
      match Fields0 (buf r) with
      | Some f => if stopped r then (r, [], None) else (r <| stopped := true |>, [], Some f)
      | None => (r, [], None)
      end
  | modeDetecting => (r <| buf := [] |>, buf r, None)
  | modeTTS => (r, [], None)
  end.

(** A whole reply, token by token, every recording asked for being there: the
    text spoken and the recordings played. *)
Fixpoint feeds (r : t) (toks : list bytes) : option (t * bytes * list bytes) :=
  match toks with
  | [] => Some (r, [], [])
  | tok :: l =>
      match feed r tok with
      | None => None
      | Some (r1, s, id) =>
          match feeds r1 l with
          | None => None
          | Some (r2, s', ids) => Some (r2, s ++ s', option_list id ++ ids)
          end
      end
  end.

Definition reply (toks : list bytes) : option (bytes * list bytes) :=
  match feeds new toks with
  | Some (r, s, ids) => let '(_, s', id) := flush r in Some (s ++ s', ids ++ option_list id)
  | None => None
  end.

(** ** [Index] of a growing text *)

#[local] Arguments HasPrefix : simpl never.
#[local] Arguments DecodeRune : simpl never.
#[local] Arguments IsSpace : simpl never.

Lemma Index_bound s sub i : Index s sub = Some i -> (i + length sub <= length s)%nat.
Proof.
  revert i. induction s as [|b s IH]; intros i; simpl.
  - destruct (HasPrefix [] sub) eqn:E; [|done]. intros [= <-]. by apply HasPrefix_length in E.
  - destruct (HasPrefix (b :: s) sub) eqn:E.
    + intros [= <-]. by apply HasPrefix_length in E.
    + destruct (Index s sub) as [j|]; [|done]. intros [= <-]. specialize (IH j eq_refl). lia.
Qed.

(** The first occurrence is found as soon as it has fully arrived. *)
Lemma Index_prefix c d sub : sub <> [] ->
  Index c sub = match Index (c ++ d) sub with
                | Some i => if (i + length sub <=? length c)%nat then Some i else None
                | None => None
                end.
Proof.
  intros Hsub. induction c as [|b c IH]; simpl.
  - assert (HasPrefix [] sub = false) as -> by (by destruct sub).
    destruct (Index d sub) as [i|]; [|done]. destruct sub; [done|]. simpl.
    by replace (i + S (length sub) <=? 0)%nat with false by (symmetry; apply Nat.leb_gt; lia).
  - destruct (HasPrefix (b :: c) sub) eqn:E.
    + pose proof (HasPrefix_app _ _ d E) as E2. simpl in E2. rewrite E2.
      apply HasPrefix_length in E. simpl in E.
      by replace (0 + length sub <=? S (length c))%nat with true by (symmetry; apply Nat.leb_le; lia).
    + rewrite IH. destruct (HasPrefix (b :: c ++ d) sub) eqn:E2.
      * assert (length c < length sub - 1)%nat.
        { destruct (decide (length sub <= length (b :: c))%nat) as [Hl|]; [|simpl in *; lia].
          change (b :: c ++ d) with ((b :: c) ++ d) in E2. rewrite HasPrefix_long in E2 by done. congruence. }
        replace (0 + length sub <=? S (length c))%nat with false by (symmetry; apply Nat.leb_gt; lia).
        destruct (Index (c ++ d) sub) as [i|]; [|done].
        by replace (i + length sub <=? length c)%nat with false by (symmetry; apply Nat.leb_gt; lia).
      * destruct (Index (c ++ d) sub) as [i|]; simpl; [|done].
        destruct (Nat.leb_spec (i + length sub) (length c));
          destruct (Nat.leb_spec (S (i + length sub)) (S (length c))); simpl; try done; lia.
Qed.

Lemma Index_none_mid a b c sub : sub <> [] -> Index (a ++ b ++ c) sub = None -> Index b sub = None.
Proof.
  intros Hs H. assert (H2 : Index (b ++ c) sub = None).
  { revert H. induction a as [|x a IH]; simpl; [done|]. destruct (HasPrefix _ _); [done|].
    destruct (Index (a ++ b ++ c) sub); [done|]. auto. }
  rewrite (Index_prefix b c sub Hs), H2. done.
Qed.

(** ** Recording ids: printable ASCII without spaces *)

Definition id_ok (id : bytes) : Prop := id <> [] /\ Forall (fun b => 33 <= b <= 126) id.
Definition blanks (ws : bytes) : Prop := Forall (fun b => blank b = true) ws.

Lemma blank_cases b : blank b = true -> b = 32 \/ b = 9 \/ b = 10.
Proof. unfold blank. rewrite !orb_true_iff, !Z.eqb_eq. tauto. Qed.

Lemma id_byte b : 33 <= b <= 126 -> blank b = false /\ IsSpace b = false.
Proof.
  intros Hb. unfold blank, IsSpace. rewrite !orb_false_iff, !andb_false_iff, !Z.eqb_neq, !Z.leb_gt. lia.
Qed.

Lemma blank_space b : blank b = true -> IsSpace b = true /\ 0 <= b < 128.
Proof. intros [->|[->| ->]]%blank_cases; split; done. Qed.

Lemma TrimLeft_blanks ws x : blanks ws -> TrimLeft (ws ++ x) = TrimLeft x.
Proof. induction 1 as [|b ws Hb _ IH]; simpl; [done|]. by rewrite Hb. Qed.

Lemma TrimLeft_id id x : id_ok id -> TrimLeft (id ++ x) = id ++ x.
Proof.
  intros [Hn Hid]. destruct id as [|b id]; [done|]. simpl. inversion Hid; subst.
  by rewrite (proj1 (id_byte b ltac:(done))).
Qed.

Lemma ContainsAny_id id : Forall (fun b => 33 <= b <= 126) id -> ContainsAny id = false.
Proof. induction 1 as [|b id Hb _ IH]; simpl; [done|]. by rewrite (proj1 (id_byte b Hb)), IH. Qed.

Lemma field_id id x n : Forall (fun b => 33 <= b <= 126) id -> (length (id ++ x) <= n)%nat ->
  match x with [] => True | w :: _ => blank w = true end -> field n (id ++ x) = id.
Proof.
  intros Hid. revert n. induction Hid as [|b id Hb _ IH]; intros n Hn Hx; simpl in *.
  - destruct n, x as [|w x]; simpl; try done. destruct (blank_space w Hx) as [Hs Hw].
    by rewrite DecodeRune_ascii, Hs by done.
  - destruct n as [|n]; [lia|]. simpl. rewrite DecodeRune_ascii by lia. rewrite (proj2 (id_byte b Hb)).
    simpl. change (Z.to_nat 1) with 1%nat. simpl. rewrite drop_0. f_equal. apply IH; [lia|done].
Qed.

Lemma trim_left_blanks ws x n : blanks ws -> (length ws + length x <= n)%nat -> exists m,
  (length x <= m)%nat /\ trim_left n (ws ++ x) = trim_left m x.
Proof.
  intros Hws. revert n. induction Hws as [|b ws Hb _ IH]; intros n Hn; [by exists n|].
  simpl in *. destruct n as [|n]; [lia|]. destruct (blank_space b Hb) as [Hs Hr]. simpl.
  rewrite DecodeRune_ascii by done. rewrite Hs. change (Z.to_nat 1) with 1%nat. simpl. rewrite drop_0. apply IH. lia.
Qed.

Lemma Fields0_id ws id x : blanks ws -> id_ok id -> match x with [] => True | w :: _ => blank w = true end ->
  Fields0 (ws ++ id ++ x) = Some id.
Proof.
  intros Hws [Hn Hid] Hx. unfold Fields0.
  destruct (trim_left_blanks ws (id ++ x) (length (ws ++ id ++ x)) Hws) as (m & Hm & ->); [rewrite (length_app ws); lia|].
  assert (trim_left m (id ++ x) = id ++ x) as ->.
  { destruct id as [|b id]; [done|]. inversion Hid; subst. destruct m; simpl; [done|].
    rewrite DecodeRune_ascii by lia. by rewrite (proj2 (id_byte b ltac:(done))). }
  destruct (id ++ x) as [|b r] eqn:E; [by destruct id|]. rewrite <- E. by rewrite field_id.
Qed.

(** ** Replies in tokens *)

Lemma feeds_plain toks c :
  Index (c ++ concat toks) RecordingMarker = None -> Index (c ++ concat toks) TTSMarker = None ->
  feeds (mk modeDetecting c false) toks = Some (mk modeDetecting (c ++ concat toks) false, [], []).
Proof.
  revert c. induction toks as [|tok l IH]; intros c H1 H2; simpl.
  - by rewrite app_nil_r.
  - simpl in H1, H2. rewrite app_assoc in H1, H2. unfold feed. simpl.
    rewrite (Index_prefix (c ++ tok) (concat l)), H1, (Index_prefix (c ++ tok) (concat l)), H2 by done.
    unfold field_update; simpl. rewrite IH by done. simpl. by rewrite app_assoc.
Qed.

Lemma feeds_tts toks : Index (concat toks) RecordingMarker = None ->
  feeds (mk modeTTS [] false) toks = Some (mk modeTTS [] false, concat toks, []).
Proof.
  induction toks as [|tok l IH]; intros H; simpl; [done|]. simpl in H.
  unfold feed, feedTTS. simpl. rewrite (Index_prefix tok (concat l)), H by done. cbv iota beta.
  rewrite IH; [done|]. rewrite <- (app_nil_r (concat l)) in H. by apply (Index_none_mid tok (concat l) []) in H.
Qed.

Lemma TrimPrefix_space s : TrimPrefix s [32] = s \/ s = 32 :: TrimPrefix s [32].
Proof.
  unfold TrimPrefix. destruct s as [|b s]; [by left|].
  assert (HasPrefix (b :: s) [32] = (32 =? b)) as -> by (unfold HasPrefix; destruct s; by rewrite andb_true_r).
  destruct (Z.eqb_spec 32 b) as [<-|]; [|by left]. right. simpl. by rewrite drop_0.
Qed.

Lemma feeds_spoken toks c j :
  Index (c ++ concat toks) RecordingMarker = None -> Index (c ++ concat toks) TTSMarker = Some j ->
  (length c < j + 3)%nat ->
  exists s, feeds (mk modeDetecting c false) toks = Some (mk modeTTS [] false, s, []) /\
    (s = drop (j + 3) (c ++ concat toks) \/ 32 :: s = drop (j + 3) (c ++ concat toks)).
Proof.
  revert c. induction toks as [|tok l IH]; intros c H1 H2 Hc; simpl in *.
  - apply Index_bound in H2. rewrite app_nil_r in H2. simpl in H2. lia.
  - rewrite app_assoc in *. set (b := c ++ tok) in *. unfold feed. simpl. fold b.
    rewrite (Index_prefix b (concat l)), H1, (Index_prefix b (concat l)), H2 by done.
    change (length TTSMarker) with 3%nat. destruct (Nat.leb_spec (j + 3) (length b)) as [Hle|Hlt].
    + set (x := drop (j + 3) b).
      assert (Hx : drop (j + 3) (b ++ concat l) = x ++ concat l) by (unfold x; by rewrite drop_app_le).
      unfold feedTTS. simpl.
      assert (H3 : Index (TrimPrefix x [32]) RecordingMarker = None).
      { assert (exists p, b = p ++ TrimPrefix x [32]) as [p Hp].
        { destruct (TrimPrefix_space x) as [->|Hx2]; [exists (take (j + 3) b); unfold x; by rewrite take_drop|].
          exists (take (j + 3) b ++ [32]). rewrite <- app_assoc. simpl. rewrite <- Hx2. unfold x. by rewrite take_drop. }
        rewrite Hp, <- app_assoc in H1. by eapply Index_none_mid. }
      rewrite H3. rewrite feeds_tts.
      * exists (TrimPrefix x [32] ++ concat l). split; [done|]. rewrite Hx.
        destruct (TrimPrefix_space x) as [->|Hx2]; [by left|right]. by rewrite app_comm_cons, <- Hx2.
      * rewrite <- (app_nil_r (concat l)) in H1. by apply (Index_none_mid b (concat l) []) in H1.
    + unfold field_update; simpl. destruct (IH b H1 H2 Hlt) as (s & -> & Hs). by exists s.
Qed.

Lemma feeds_stopped toks b : feeds (mk modeRecording b true) toks = Some (mk modeRecording b true, [], []).
Proof. induction toks as [|tok l IH]; simpl; [done|]. unfold feed, feedRecording. simpl. by rewrite IH. Qed.

(** The text after "●": blanks, the id, and what ends it. *)
Record rec_body (ws id tail : bytes) : Prop := {
  rb_ws : blanks ws; rb_id : id_ok id;
  rb_tail : match tail with [] => True | w :: _ => blank w = true end;
}.

Definition head (ws id tail : bytes) : bytes := ws ++ id ++ take 1 tail.

(** Text that stops inside the head names no id yet. *)
Lemma no_id_yet ws id tail b d : rec_body ws id tail -> ws ++ id ++ tail = b ++ d ->
  (length b <= length ws + length id)%nat -> ContainsAny (TrimLeft b) = false.
Proof.
  intros [Hw [Hn Hi] _] Hb Hlen. destruct (decide (length b <= length ws)%nat) as [Hle|Hgt].
  - assert (b = take (length b) ws) as ->.
    { rewrite <- (take_app_length b d) at 1. rewrite <- Hb. by rewrite take_app_le. }
    assert (blanks (take (length b) ws)) as Hbl by (by apply Forall_take).
    rewrite <- (app_nil_r (take _ ws)), TrimLeft_blanks; done.
  - assert (b = ws ++ take (length b - length ws) id) as ->.
    { rewrite <- (take_app_length b d) at 1. rewrite <- Hb. rewrite take_app_ge by lia. f_equal.
      by rewrite take_app_le by lia. }
    rewrite TrimLeft_blanks by done. set (i := take _ id).
    assert (Forall (fun b => 33 <= b <= 126) i) as Hf by (by apply Forall_take).
    destruct i as [|x r]; [done|]. simpl. inversion Hf; subst. rewrite (proj1 (id_byte x ltac:(done))).
    by apply ContainsAny_id.
Qed.

Lemma id_there ws id w rest : rec_body ws id (w :: rest) ->
  ContainsAny (TrimLeft (ws ++ id ++ w :: rest)) = true /\ Fields0 (TrimLeft (ws ++ id ++ w :: rest)) = Some id.
Proof.
  intros [Hw Hi Hb]. rewrite TrimLeft_blanks, TrimLeft_id by done. split.
  - unfold ContainsAny. rewrite existsb_app. simpl. by rewrite Hb, orb_true_r.
  - apply (Fields0_id [] id (w :: rest)); [constructor|done|done].
Qed.

Lemma Index_at s sub i : Index s sub = Some i -> exists p q, s = p ++ sub ++ q /\ length p = i.
Proof.
  revert i. induction s as [|b s IH]; intros i; simpl.
  - destruct (HasPrefix [] sub) eqn:E; [|done]. intros [= <-]. apply HasPrefix_inv in E as [q E]. by exists [], q.
  - destruct (HasPrefix (b :: s) sub) eqn:E.
    + intros [= <-]. apply HasPrefix_inv in E as [q E]. by exists [], q.
    + destruct (Index s sub) as [j|]; [|done]. intros [= <-]. destruct (IH j eq_refl) as (p & q & -> & <-).
      by exists (b :: p), q.
Qed.

(** A marker does not run over a blank, so a cut keeps what ends in one. *)
Lemma cut_after a w c i : blank w = true -> Index (a ++ [w]) TTSMarker = None ->
  Index ((a ++ [w]) ++ c) TTSMarker = Some i -> (length (a ++ [w]) <= i)%nat.
Proof.
  intros Hw Hn Hi. rewrite (Index_prefix _ c) in Hn by done. rewrite Hi in Hn. change (length TTSMarker) with 3%nat in Hn.
  destruct (Nat.leb_spec (i + 3) (length (a ++ [w]))) as [|Hlt]; [done|]. clear Hn.
  apply Index_at in Hi as (p & q & E & Hp). destruct (decide (length (a ++ [w]) <= i)%nat) as [|Hgt]; [done|exfalso].
  rewrite length_app in *. simpl in *.
  assert (Hk : (((a ++ [w]) ++ c) !! length a) = Some w).
  { rewrite <- app_assoc. rewrite lookup_app_r by lia. by rewrite Nat.sub_diag. }
  rewrite E, lookup_app_r in Hk by lia.
  assert (length a - length p < 3)%nat as Hb by lia.
  destruct (length a - length p)%nat as [|[|[|]]]; simpl in Hk; [injection Hk as <-; done..|lia].
Qed.

Lemma feeds_recording toks : forall b ws id tail, rec_body ws id tail ->
  Index (head ws id tail) TTSMarker = None -> b ++ concat toks = ws ++ id ++ tail ->
  (length b <= length ws + length id)%nat ->
  exists r, feeds (mk modeRecording b false) toks = Some (r, [], match tail with [] => [] | _ => [id] end) /\
    mode r = modeRecording /\ (tail <> [] /\ stopped r = true \/ tail = [] /\ buf r = ws ++ id /\ stopped r = false).
Proof.
  induction toks as [|tok l IH]; intros b ws id tail R Hm Hb Hlen; simpl.
  - rewrite app_nil_r in Hb. assert (tail = []) as ->.
    { apply (f_equal length) in Hb. rewrite !length_app in Hb. destruct tail; simpl in *; [done|lia]. }
    eexists. split; [done|]. simpl. rewrite app_nil_r in Hb. auto.
  - simpl in Hb. unfold feed, feedRecording. cbn [mode stopped buf].
    destruct (decide (length (b ++ tok) <= length ws + length id)%nat) as [Hle|Hgt].
    + assert (Hcut : Index tok TTSMarker = None).
      { unfold head in Hm. assert (exists z, ws ++ id ++ take 1 tail = b ++ tok ++ z) as [z Hz].
        { exists (drop (length (b ++ tok)) (ws ++ id ++ take 1 tail)).
          rewrite (app_assoc b tok). rewrite <- (take_drop (length (b ++ tok)) (ws ++ id ++ take 1 tail)) at 1. f_equal.
          transitivity (take (length (b ++ tok)) ((b ++ tok) ++ concat l)); [|by rewrite take_app_length].
          rewrite <- (app_assoc b tok (concat l)), Hb.
          rewrite !(app_assoc ws id). rewrite (take_app_le (ws ++ id) tail), (take_app_le (ws ++ id) (take 1 tail)); [done|rewrite ?length_app in *; lia..]. }
        rewrite Hz in Hm. by eapply Index_none_mid. }
      rewrite Hcut. unfold field_update. cbn [mode stopped buf].
      rewrite (no_id_yet ws id tail (b ++ tok) (concat l) R); [|by rewrite <- app_assoc|done].
      destruct (IH (b ++ tok) ws id tail R Hm) as (r & -> & Hr); [by rewrite <- app_assoc|done|].
      exists r. done.
    + destruct tail as [|w rest].
      { apply (f_equal length) in Hb. rewrite !length_app in *. simpl in Hb. lia. }
      assert (exists t1 t2, tok = t1 ++ t2 /\ b ++ t1 = ws ++ id ++ [w] /\ t2 ++ concat l = rest) as (t1 & t2 & -> & Ht1 & Ht2).
      { exists (take (length ws + length id + 1 - length b) tok), (drop (length ws + length id + 1 - length b) tok).
        rewrite take_drop. split; [done|].
        assert (Ht : b ++ take (length ws + length id + 1 - length b) tok = ws ++ id ++ [w]).
        { transitivity (take (length ws + length id + 1) (b ++ tok ++ concat l)).
          - rewrite take_app_ge by lia. f_equal. rewrite take_app_le; [done|]. rewrite length_app in Hgt. lia.
          - rewrite Hb. rewrite (app_assoc ws id), take_app_ge by (rewrite length_app; lia).
            rewrite length_app. replace (length ws + length id + 1 - (length ws + length id))%nat with 1%nat by lia.
            by rewrite <- app_assoc. }
        split; [done|]. apply (app_inv_head (ws ++ id ++ [w])). rewrite <- Ht at 1.
        rewrite <- !app_assoc. simpl. rewrite (app_assoc (take _ _)), take_drop. exact Hb. }
      assert (Hw : blank w = true) by (apply (rb_tail _ _ _ R)).
      assert (exists a1, t1 = a1 ++ [w]) as [a1 ->].
      { destruct t1 as [|x t1 _] using rev_ind.
        - rewrite app_nil_r in Ht1. apply (f_equal length) in Ht1. rewrite !length_app in Ht1. simpl in Ht1. lia.
        - exists t1. rewrite !app_assoc in Ht1. apply app_inj_tail in Ht1 as [_ ->]. done. }
      assert (Hcut : exists y, match Index ((a1 ++ [w]) ++ t2) TTSMarker with
        | Some i => take i ((a1 ++ [w]) ++ t2) | None => (a1 ++ [w]) ++ t2 end = (a1 ++ [w]) ++ y).
      { destruct (Index ((a1 ++ [w]) ++ t2) TTSMarker) as [i|] eqn:Ei; [|exists t2; reflexivity].
        apply cut_after in Ei; [|done|].
        - exists (take (i - length (a1 ++ [w])) t2). by rewrite take_app_ge.
        - unfold head in Hm. change (take 1 (w :: rest)) with [w] in Hm. rewrite <- Ht1 in Hm. rewrite <- (app_nil_r (a1 ++ [w])) in Hm.
          by eapply Index_none_mid. }
      destruct Hcut as [y ->]. unfold field_update. cbn [mode stopped buf].
      assert (b ++ (a1 ++ [w]) ++ y = ws ++ id ++ w :: y) as ->.
      { rewrite app_assoc, Ht1. rewrite <- !app_assoc. done. }
      destruct (id_there ws id w y) as [-> ->]; [by destruct R; split|].
      rewrite feeds_stopped. eexists. split; [done|]. simpl. auto.
Qed.

(** The reply's format: [pre ++ "●" ++ ws ++ id ++ tail], the first "●" there,
    and no "▸" before the id's end. *)
Record rec_reply (pre ws id tail text : bytes) : Prop := {
  rr_body : rec_body ws id tail;
  rr_text : text = pre ++ RecordingMarker ++ ws ++ id ++ tail;
  rr_first : Index text RecordingMarker = Some (length pre);
  rr_say : Index (pre ++ RecordingMarker ++ head ws id tail) TTSMarker = None;
}.

Lemma say_later pre ws id tail text b d : rec_reply pre ws id tail text -> text = b ++ d ->
  match Index b TTSMarker with Some j => (length pre < j)%nat | None => True end.
Proof.
  intros [R Ht _ Hs] Hb. destruct (Index b TTSMarker) as [j|] eqn:E; [|done].
  assert (Ht2 : text = (pre ++ RecordingMarker ++ head ws id tail) ++ drop 1 tail).
  { rewrite Ht. unfold head. rewrite <- !app_assoc. by rewrite take_drop. }
  rewrite (Index_prefix b d), <- Hb, Ht2 in E by done.
  rewrite (Index_prefix _ (drop 1 tail)) in Hs by done.
  destruct (Index _ TTSMarker) as [k|]; [|done].
  destruct (k + length TTSMarker <=? length b)%nat; [injection E as ->|done].
  destruct (Nat.leb_spec (j + length TTSMarker) (length (pre ++ RecordingMarker ++ head ws id tail))) as [|Hlt]; [done|].
  unfold head in Hlt. rewrite !length_app in Hlt. change (length RecordingMarker) with 3%nat in Hlt. change (length TTSMarker) with 3%nat in Hlt.
  destruct R as [_ [Hn _] _]. destruct id; [done|]. simpl in Hlt. lia.
Qed.

Lemma feeds_detect pre ws id tail text toks : rec_reply pre ws id tail text -> forall c,
  c ++ concat toks = text -> (length c < length pre + 3)%nat ->
  exists r, feeds (mk modeDetecting c false) toks = Some (r, [], match tail with [] => [] | _ => [id] end) /\
    mode r = modeRecording /\ (tail <> [] /\ stopped r = true \/ tail = [] /\ buf r = ws ++ id /\ stopped r = false).
Proof.
  intros RR. induction toks as [|tok l IH]; intros c Hc Hlen; simpl in *.
  - rewrite app_nil_r in Hc. subst c. rewrite (rr_text _ _ _ _ _ RR), !length_app in Hlen. simpl in Hlen. lia.
  - rewrite app_assoc in Hc. set (b := c ++ tok) in *. unfold feed. cbn [mode stopped buf]. fold b.
    pose proof (say_later _ _ _ _ _ b (concat l) RR (eq_sym Hc)) as Hj.
    rewrite (Index_prefix b (concat l)), Hc, (rr_first _ _ _ _ _ RR) by done.
    change (length RecordingMarker) with 3%nat. destruct (Nat.leb_spec (length pre + 3) (length b)) as [Hle|Hgt].
    + set (x := drop (length pre + 3) b).
      destruct (feeds_recording (x :: l) [] ws id tail) as (r & Hr & Hm & Hs); [apply RR| | |simpl; lia|].
      * pose proof (rr_say _ _ _ _ _ RR) as H. rewrite app_assoc in H.
        rewrite <- (app_nil_r (head ws id tail)) in H. by eapply Index_none_mid.
      * simpl. pose proof (rr_text _ _ _ _ _ RR) as Ht. rewrite <- Hc, app_assoc in Ht.
        apply (f_equal (drop (length pre + 3))) in Ht. rewrite drop_app_le in Ht by done. fold x in Ht. rewrite Ht.
        rewrite drop_app_ge by (rewrite length_app; simpl; lia). rewrite length_app. simpl.
        by rewrite Nat.sub_diag, drop_0.
      * exists r. split; [|done]. simpl in Hr. unfold feed in Hr. cbn [mode stopped buf] in Hr.
        destruct (Index b TTSMarker) as [j|]; [|exact Hr].
        destruct (Nat.ltb_spec (length pre) j); [exact Hr|lia].
    + assert (Index b TTSMarker = None) as ->.
      { rewrite (rr_text _ _ _ _ _ RR) in Hc. destruct (Index b TTSMarker) as [j|] eqn:E; [|done].
        apply Index_bound in E. change (length TTSMarker) with 3%nat in E. lia. }
      unfold field_update. cbn [mode stopped buf]. destruct (IH b Hc Hgt) as (r & -> & Hr). by exists r.
Qed.

Lemma reply_recording pre ws id tail text toks : rec_reply pre ws id tail text -> concat toks = text ->
  reply toks = Some ([], [id]).
Proof.
  intros RR Ht. destruct (feeds_detect _ _ _ _ _ toks RR [] Ht) as (r & Hr & Hm & Hs); [simpl; lia|].
  unfold reply. change (mk modeDetecting [] false) with new in Hr. rewrite Hr.
  unfold flush. rewrite Hm. destruct (rr_body _ _ _ _ _ RR) as [Hws Hid Htl]. destruct Hs as [[Hn Hs]|(-> & Hb & Hs)].
  - rewrite Hs. destruct tail; [done|]. by destruct (Fields0 (buf r)).
  - pose proof (Fields0_id ws id [] Hws Hid I) as HF. rewrite app_nil_r in HF. by rewrite Hb, Hs, HF.
Qed.

Lemma reply_plain toks : Index (concat toks) RecordingMarker = None -> Index (concat toks) TTSMarker = None ->
  reply toks = Some (concat toks, []).
Proof. intros H1 H2. unfold reply, new. rewrite feeds_plain; [done|done|done]. Qed.

Lemma reply_spoken toks j : Index (concat toks) RecordingMarker = None -> Index (concat toks) TTSMarker = Some j ->
  exists s, reply toks = Some (s, []) /\ (s = drop (j + 3) (concat toks) \/ 32 :: s = drop (j + 3) (concat toks)).
Proof.
  intros H1 H2. destruct (feeds_spoken toks [] j H1 H2) as (s & Hs & Hor); [simpl; lia|].
  exists s. unfold reply, new. rewrite Hs. simpl. by rewrite app_nil_r.
Qed.

(** The reply format holds however the LLM's tokens cut the reply, and
    without a panic: a reply with no marker is spoken whole; one with "▸" and
    no "●" speaks what follows the marker (less at most one space) and plays
    nothing; one with "●", an id of printable ASCII and no "▸" before the
    id's end plays exactly that id, once, and speaks nothing, whether a blank
    ends the id or the reply does. *)
Theorem reply_format toks :
  (Index (concat toks) RecordingMarker = None -> Index (concat toks) TTSMarker = None ->
   reply toks = Some (concat toks, [])) /\
  (forall j, Index (concat toks) RecordingMarker = None -> Index (concat toks) TTSMarker = Some j ->
   exists s, reply toks = Some (s, []) /\ (s = drop (j + 3) (concat toks) \/ 32 :: s = drop (j + 3) (concat toks))) /\
  (forall pre ws id tail, rec_reply pre ws id tail (concat toks) -> reply toks = Some ([], [id])).
Proof.
  split; [apply reply_plain|]. split; [intros j; apply reply_spoken|]. intros. by eapply reply_recording.
Qed.

(** "● r1 hi" in tokens that cut the marker and the id. *)
Definition cut_reply : list bytes := [[226]; [151; 143; 32]; [114]; [49; 32; 104]; [105]].

Lemma reply_format_witness : rec_reply [] [32] [114; 49] [32; 104; 105] (concat cut_reply) /\
  reply cut_reply = Some ([], [[114; 49]]).
Proof.
  assert (rec_reply [] [32] [114; 49] [32; 104; 105] (concat cut_reply)) as R.
  { split; [|reflexivity|reflexivity|reflexivity].
    split; [by repeat constructor| |reflexivity]. split; [done|]. repeat constructor; lia. }
  split; [exact R|]. destruct (reply_format cut_reply) as [_ [_ H]]. exact (H _ _ _ _ R).
Defined.

(** A marker followed by a line end of another kind and nothing else: the
    white space [TrimLeft] leaves is a blank to [ContainsAny], but not a field
    to [Fields], whose first element is indexed. *)
Example line_end_panics : reply [RecordingMarker ++ [13; 10]] = None.
Proof. vm_compute. reflexivity. Qed.

(** "●", " rec1▸", "hi there": the text after the second marker is taken up
    by the id. *)
Example second_marker_kept :
  reply [RecordingMarker; [32; 114; 101; 99; 49] ++ TTSMarker; [104; 105; 32; 116]] = Some ([], [[114; 101; 99; 49; 104; 105]]).
Proof. vm_compute. reflexivity. Qed.

End ClipRouter.
