(* ===== verification/Backchannel.v ===== *)
(** [internal/ai/agent/backchannel.go] (the acknowledgement test) and
    [junkTranscript] of [handler.go]. *)

From Stdlib Require Import String.
From S2P Require Import Prelude Text.

Local Open Scope Z_scope.

(** The acknowledgement words, as the byte strings of the source. *)
Definition backchannelWordList : list string := [
  "yes"; "yeah"; "yea"; "yep"; "yup"; "ok"; "okay"; "okk"; "k"; "alright"; "right"; "sure";
  "hmm"; "hm"; "mm"; "mhm"; "mmhmm"; "uh"; "huh"; "uhhuh"; "aha"; "ah"; "oh";
  "haan"; "han"; "haa"; "ha"; "haanji"; "hanji"; "ji"; "jee";
  "achha"; "acha"; "accha"; "achchha"; "theek"; "thik"; "theekhai"; "hai"; "sahi"; "bilkul";
  "जी"; "हाँ"; "हां"; "हा"; "हाँजी"; "हांजी"; "जीहाँ"; "हम्म"; "हम्म्म"; "हम"; "हं"; "हूँ"; "हुँ"; "ऊँ"; "उँ";
  "अच्छा"; "अच्छाजी"; "ठीक"; "है"; "सही"; "बिल्कुल"; "बिलकुल"; "ओके"; "ओह"; "आह";
  "جی"; "ہاں"; "اچھا"; "ٹھیک"; "ہے";
  "हो"; "होय"; "बरं"; "बर"; "आहे";
  "હા"; "હાં"; "જી"; "હમ્મ"; "બરાબર"; "સારું"; "ઓકે"; "અચ્છા"; "ઠીક"; "છે";
  "হ্যাঁ"; "হ্যা"; "হুম"; "আচ্ছা"; "ঠিক"; "আছে"; "ওকে"; "জি";
  "ਹਾਂ"; "ਹਾਂਜੀ"; "ਜੀ"; "ਹਮ"; "ਅੱਛਾ"; "ਠੀਕ"; "ਹੈ"; "ਓਕੇ";
  "ହଁ"; "ହଉ"; "ଆଚ୍ଛା"; "ଠିକ୍"; "ଠିକ"; "ଅଛି"; "ଓକେ";
  "ஆமா"; "ஆமாம்"; "சரி"; "ம்ம்"; "ம்"; "ஹ்ம்"; "ஓகே"; "ஆ";
  "అవును"; "సరే"; "అలాగే"; "హా"; "ఊ"; "హ్మ్"; "ఓకే";
  "ಹೌದು"; "ಸರಿ"; "ಹಾ"; "ಹ್ಮ್"; "ಓಕೆ"; "ಆಯ್ತು";
  "അതെ"; "ശരി"; "ഉം"; "ഹാ"; "ഓക്കെ"; "ഓകെ"
]%string.

Definition backchannelWords : list (list Z) := map (fun w => runes (bs w)) backchannelWordList.

Section backchannel.
Context `{U : Unicode}.

(** [strings.FieldsFunc] on the runes: the maximal runs of runes that are not
    separators. [cur] is the field being read, reversed. *)
Fixpoint fields_func (sep : Z -> bool) (cur : list Z) (l : list Z) : list (list Z) :=
  match l with
  | [] => match cur with [] => [] | _ => [rev cur] end
  | r :: t =>
      if sep r then
        match cur with
        | [] => fields_func sep [] t
        | _ => rev cur :: fields_func sep [] t
        end
      else fields_func sep (r :: cur) t
  end.

Definition is_separator (r : Z) : bool := IsSpace r || IsPunct r || IsSymbol r.

(** The loop of [squeezeRepeats]; [prev] starts as Go's zero rune. *)
Fixpoint squeeze (prev run : Z) (w : list Z) : list Z :=
  match w with
  | [] => []
  | r :: t =>
      let run' := if r =? prev then run + 1 else 1 in
      if run' <=? 2 then r :: squeeze r run' t else squeeze r run' t
  end.

Definition squeezeRepeats (w : list Z) : list Z := squeeze 0 0 w.

Definition is_backchannel_word (w : list Z) : bool :=
  bool_decide (squeezeRepeats w ∈ backchannelWords).

(** [backchannel]: only acknowledgement words, and at least one. *)
Definition backchannel (text : bytes) : bool :=
  match fields_func is_separator [] (map ToLower (runes text)) with
  | [] => false
  | ws => forallb is_backchannel_word ws
  end.

(** The loop of [junkTranscript]: [None] is the early [return false]. *)
Fixpoint junk_count (n : Z) (l : list Z) : option Z :=
  match l with
  | [] => Some n
  | r :: t =>
      if IsDigit r then None
      else if IsLetter r || IsMark r then junk_count (n + 1) t
      else junk_count n t
  end.

Definition junkTranscript (text : bytes) : bool :=
  match junk_count 0 (runes text) with None => false | Some n => n <? 2 end.

(** *** Drawn-out words *)

(** A word as runs of one rune; neighbours differ. *)
Fixpoint expand (l : list (Z * nat)) : list Z :=
  match l with
  | [] => []
  | (r, n) :: t => replicate n r ++ expand t
  end.

Fixpoint proper (prev : option Z) (l : list (Z * nat)) : Prop :=
  match l with
  | [] => True
  | (r, n) :: t => Some r <> prev /\ (0 < n)%nat /\ proper (Some r) t
  end.

Lemma squeeze_run p k n w :
  0 <= k ->
  squeeze p k (replicate n p ++ w) =
    replicate (Nat.min n (Z.to_nat (2 - k))) p ++ squeeze p (k + Z.of_nat n) w.
Proof.
  revert k. induction n as [|n IH]; intros k Hk; [by rewrite Z.add_0_r|].
  simpl squeeze. rewrite Z.eqb_refl.
  replace (k + Z.of_nat (S n)) with ((k + 1) + Z.of_nat n) by lia. rewrite IH by lia.
  destruct (k + 1 <=? 2) eqn:E; bool_to_prop.
  - replace (Nat.min (S n) (Z.to_nat (2 - k))) with (S (Nat.min n (Z.to_nat (2 - (k + 1))))) by lia.
    done.
  - by replace (Z.to_nat (2 - (k + 1))) with 0%nat by lia;
      replace (Z.to_nat (2 - k)) with 0%nat by lia; rewrite !Nat.min_0_r.
Qed.

Lemma squeeze_runs l p k :
  0 <= k -> proper (Some p) l ->
  squeeze p k (expand l) = expand (map (fun '(r, n) => (r, Nat.min n 2)) l).
Proof.
  revert p k. induction l as [|[r n] l IH]; intros p k Hk; [done|]. intros (Hr & Hn & Hl).
  destruct n as [|n]; [lia|]. simpl expand. simpl squeeze.
  rewrite (proj2 (Z.eqb_neq r p)) by congruence. simpl.
  rewrite squeeze_run by lia. rewrite IH by (done || lia).
  destruct n as [|n]; [done|]. simpl. by rewrite Nat.min_0_r.
Qed.

(** A letter held long counts as its short form: [squeezeRepeats] keeps a
    word's runs of equal letters, cut to two each, and changes nothing else. *)
Theorem squeezeRepeats_runs l :
  proper None l -> Forall (fun '(r, _) => r <> 0) l ->
  squeezeRepeats (expand l) = expand (map (fun '(r, n) => (r, Nat.min n 2)) l).
Proof.
  intros Hl Hz. apply squeeze_runs; [lia|]. destruct l as [|[r n] l]; [done|].
  destruct Hl as (_ & Hn & Hl). split_and!; [|done..].
  apply Forall_cons in Hz as [Hz _]. congruence.
Qed.

(** No listed word is out of the filter's reach: each is its own short form. *)
Lemma backchannelWords_squeezed : Forall (fun w => squeezeRepeats w = w) backchannelWords.
Proof. vm_compute. repeat constructor. Qed.

End backchannel.

Example backchannel_examples :
  backchannel (bs "Hmmmm, ok!") = true /\ backchannel (bs "जी") = true /\
  backchannel (bs "जी नहीं") = false /\ junkTranscript (bs "ह") = true.
Proof. vm_compute. done. Qed.

Lemma squeezeRepeats_runs_witness :
  squeezeRepeats (expand [(104, 1%nat); (109, 5%nat)]) = runes (bs "hmm").
Proof.
  rewrite (squeezeRepeats_runs [(104, 1%nat); (109, 5%nat)]);
    [reflexivity|simpl; split_and!; try congruence; lia|by repeat constructor].
Defined.
