(* ===== verification/Workflow.v ===== *)
(** [internal/ai/agent/workflow.go], the constants and [Tool] of [tools.go] and
    [llmfail.go]: the static data an agent call runs on. A [*Node] is its index
    in the workflow's node table (edges form a graph). *)

From Stdlib Require Import String.
From S2P Require Import Prelude Text.

Local Open Scope Z_scope.

Definition maxToolRounds : Z := 5.

Inductive ToolKind := ToolFunction | ToolEndCall | ToolTransfer.

#[global] Instance ToolKind_dec : EqDecision ToolKind.
Proof. solve_decision. Defined.

Record Clip := mkClip { clip_ID : bytes; clip_PCM : bytes; clip_Transcript : bytes }.

(** [llm.FunctionDef]: only the name matters to the dispatch. *)
Record Tool := mkTool {
  tool_Name : bytes; tool_Kind : ToolKind; tool_Message : bytes;
  tool_MessageClip : option Clip; tool_hasRun : bool;
  tool_Destination : bytes; tool_Timeout : Z;
}.

Record Edge := mkEdge {
  edge_Name : bytes; edge_Speech : bytes; edge_SpeechClip : option Clip; edge_To : Z;
}.

Record Node := mkNode {
  node_ID : bytes; node_Name : bytes; node_Prompt : bytes;
  Greeting : bytes; GreetingClip : option Clip;
  node_Clips : option (list (bytes * Clip));
  node_End : bool; AllowInterrupt : bool; node_hasExtraction : bool;
  Tools : list Tool; Edges : list Edge;
}.

(** [InterruptMode]: "on" as [true]. *)
Definition InterruptMode (bargeInEnabled : bool) (n : Node) : bool :=
  bargeInEnabled && AllowInterrupt n && negb (node_End n).

(** [toolDefs]: what the LLM is offered, tools first. *)
Definition toolDefs (n : Node) : list bytes :=
  map tool_Name (Tools n) ++ map edge_Name (Edges n).

Definition node_edge (n : Node) (name : bytes) : option Edge :=
  List.find (fun e => bool_decide (edge_Name e = name)) (Edges n).

Definition node_tool (n : Node) (name : bytes) : option Tool :=
  List.find (fun t => bool_decide (tool_Name t = name)) (Tools n).

(** [LLMFailurePolicy]. *)
Record LLMFailurePolicy := mkPolicy {
  MaxFailedTurns : Z; Apology : bytes; Language : bytes;
}.

Inductive fallback := FallbackHangup | FallbackApology.

Section llmfail.
Context `{U : Unicode}.

Definition ToLowerString (s : bytes) : bytes := flat_map (fun r => EncodeRune (ToLower r)) (runes s).

(** [LLMFailurePolicy.line]: the text, its kind and whether the call ends. *)
Definition line (p : LLMFailurePolicy) (n : Z) : bytes * fallback * bool :=
  let hindi := HasPrefix (ToLowerString (Language p)) (bs "hi") in
  if (0 <? MaxFailedTurns p) && (MaxFailedTurns p <=? n) then
    if hindi
    then (bs "माफ़ कीजिए, कुछ तकनीकी समस्या है। हम आपको थोड़ी देर में दोबारा कॉल करेंगे। धन्यवाद।", FallbackHangup, true)
    else (bs "Sorry, we are having a technical problem. We will call you back shortly. Thank you.", FallbackHangup, true)
  else if negb (bool_decide (Apology p = [])) then (Apology p, FallbackApology, false)
  else if hindi
  then (bs "माफ़ कीजिए, मुझे ठीक से सुनाई नहीं दिया। क्या आप दोबारा बोल सकते हैं?", FallbackApology, false)
  else (bs "Sorry, I didn't catch that. Could you please say it again?", FallbackApology, false).
End llmfail.

(** What the LLM is offered is exactly what the dispatch can find. *)
Lemma toolDefs_dispatch (n : Node) (name : bytes) :
  name ∈ toolDefs n <-> is_Some (node_edge n name) \/ is_Some (node_tool n name).
Proof.
  unfold toolDefs. rewrite elem_of_app, !list_elem_of_fmap.
  assert (forall (A : Type) (f : A -> bytes) l,
    (exists y, name = f y /\ y ∈ l) <->
    is_Some (List.find (fun y => bool_decide (f y = name)) l)) as H.
  { intros A f l. split.
    - intros (y & -> & Hy). destruct (List.find _ l) eqn:E; [eauto|].
      apply list_elem_of_In in Hy. pose proof (find_none _ _ E _ Hy) as Hn.
      simpl in Hn. by case_bool_decide.
    - intros [y Hy]. apply find_some in Hy as [Hin Hb]. case_bool_decide; [|done].
      exists y. by rewrite list_elem_of_In. }
  rewrite (H _ tool_Name), (H _ edge_Name). unfold node_edge, node_tool. tauto.
Qed.
