(* ===== verification/Regex.v ===== *)
(** [regexp] as the program uses it: patterns of character classes, greedy and
    lazy repeats of one, options and captures, matched leftmost-first. The matches
    at a position are listed by preference; the first is the one Go takes.

    Classes are over bytes: those of the program are of ASCII characters or
    their complements, and a longer rune is in a complement byte by byte. *)

From Stdlib Require Import String.
From S2P Require Import Prelude Text.

Local Open Scope Z_scope.

Inductive re :=
  | Eps
  | Chr (f : Z -> bool)
  | Star (f : Z -> bool)        (* [f]* *)
  | Lazy (f : Z -> bool)        (* [f]*? *)
  | Seq (a b : re)
  | Alt (a b : re)              (* a|b *)
  | Opt (a : re)                (* (?:a)? *)
  | Cap (n : nat) (a : re).     (* the n-th group *)

Definition Plus (f : Z -> bool) : re := Seq (Chr f) (Star f).
Definition Lit (c : Z) : re := Chr (Z.eqb c).
Fixpoint Word (s : bytes) : re := match s with [] => Eps | [c] => Lit c | c :: r => Seq (Lit c) (Word r) end.
Fixpoint Seqs (l : list re) : re := match l with [] => Eps | [r] => r | r :: l => Seq r (Seqs l) end.

(** [\s]. *)
Definition space (c : Z) : bool := (c =? 9) || (c =? 10) || (c =? 12) || (c =? 13) || (c =? 32).

Abbreviation captures := (list (nat * bytes)).

(** What a greedy repeat may leave, the longest repeat first. *)
Fixpoint greedy (f : Z -> bool) (s : bytes) : list bytes :=
  match s with
  | c :: r => if f c then greedy f r ++ [s] else [s]
  | [] => [[]]
  end.

(** What a lazy repeat may leave, the shortest repeat first. *)
Fixpoint lazily (f : Z -> bool) (s : bytes) : list bytes :=
  s :: match s with c :: r => if f c then lazily f r else [] | [] => [] end.

(** The matches at the front of [s]: what they capture and what they leave. *)
Fixpoint matches (r : re) (s : bytes) (cs : captures) : list (captures * bytes) :=
  match r with
  | Eps => [(cs, s)]
  | Chr f => match s with c :: t => if f c then [(cs, t)] else [] | [] => [] end
  | Star f => map (pair cs) (greedy f s)
  | Lazy f => map (pair cs) (lazily f s)
  | Seq a b => flat_map (fun x => matches b x.2 x.1) (matches a s cs)
  | Alt a b => matches a s cs ++ matches b s cs
  | Opt a => matches a s cs ++ [(cs, s)]
  | Cap n a => map (fun x => ((n, take (length s - length x.2) s) :: x.1, x.2)) (matches a s cs)
  end.

Definition match_front (r : re) (s : bytes) : option (captures * bytes) := hd_error (matches r s []).

Definition group (n : nat) (cs : captures) : bytes := default [] (snd <$> List.find (fun x => (x.1 =? n)%nat) cs).

(** [FindStringSubmatch]. *)
Fixpoint FindStringSubmatch (r : re) (s : bytes) : option captures :=
  match match_front r s with
  | Some (cs, _) => Some cs
  | None => match s with [] => None | _ :: t => FindStringSubmatch r t end
  end.

(** [ReplaceAllStringFunc], for a pattern with no empty match; [skip] bytes of
    the front belong to a match already replaced. *)
Fixpoint replaceAll (r : re) (f : bytes -> bytes) (skip : nat) (s : bytes) : bytes :=
  match s with
  | [] => []
  | c :: t =>
      match skip with
      | S k => replaceAll r f k t
      | O =>
          match match_front r s with
          | Some (_, rest) =>
              let n := (length s - length rest)%nat in f (take n s) ++ replaceAll r f (n - 1) t
          | None => c :: replaceAll r f 0 t
          end
      end
  end.
Definition ReplaceAllStringFunc (r : re) (s : bytes) (f : bytes -> bytes) : bytes := replaceAll r f 0 s.

(** ** Lemmas *)

(** The preferred match of a sequence. *)
Lemma hd_flat_map {A B} (f : A -> list B) x l y : hd_error (f x) = Some y -> hd_error (flat_map f (x :: l)) = Some y.
Proof. simpl. destruct (f x); [done|by intros [= ->]]. Qed.

(** A repeat cannot go on into [t]. *)
Definition stops (f : Z -> bool) (t : bytes) : Prop := match t with c :: _ => f c = false | [] => True end.

Lemma greedy_run f l t : forallb f l = true -> stops f t -> exists m, greedy f (l ++ t) = t :: m.
Proof.
  intros Hl Ht. induction l as [|x l IH]; simpl in *.
  - destruct t as [|c t]; [by exists []|]. simpl in Ht. simpl. rewrite Ht. by exists [].
  - apply andb_true_iff in Hl as [-> Hl]. destruct (IH Hl) as [m ->]. by eexists.
Qed.

(** Whatever a repeat leaves is a suffix of the run it goes through. *)
Lemma greedy_suffix f l t u : forallb f l = true -> stops f t -> In u (greedy f (l ++ t)) -> exists l1 l2, l = l1 ++ l2 /\ u = l2 ++ t.
Proof.
  intros Hl Ht. induction l as [|x l IH]; simpl in *.
  - assert (greedy f t = [t]) as -> by (destruct t as [|c t]; [done|]; simpl in *; by rewrite Ht).
    intros [<-|[]]. by exists [], [].
  - apply andb_true_iff in Hl as [-> Hl]. rewrite in_app_iff. intros [H|[<-|[]]].
    + destruct (IH Hl H) as (l1 & l2 & -> & ->). by exists (x :: l1), l2.
    + by exists [], (x :: l).
Qed.

Lemma flat_map_nil {A B} (f : A -> list B) l : (forall x, In x l -> f x = []) -> flat_map f l = [].
Proof. induction l as [|x l IH]; intros H; simpl; [done|]. rewrite H, IH; [done| |]; auto with datatypes. Qed.

(** The preferred match of [r] at [s] captures [cs'] and leaves [t]. *)
Definition prefers (r : re) (s : bytes) (cs : captures) (cs' : captures) (t : bytes) : Prop :=
  hd_error (matches r s cs) = Some (cs', t).

Lemma prefers_seq a b s cs cs1 t1 cs2 t2 :
  prefers a s cs cs1 t1 -> prefers b t1 cs1 cs2 t2 -> prefers (Seq a b) s cs cs2 t2.
Proof.
  unfold prefers. simpl. destruct (matches a s cs) as [|x l]; [done|]. intros [= ->] H. by apply hd_flat_map.
Qed.

Lemma prefers_chr f c s cs : f c = true -> prefers (Chr f) (c :: s) cs cs s.
Proof. unfold prefers. simpl. by intros ->. Qed.

Lemma prefers_star f l t cs : forallb f l = true -> stops f t -> prefers (Star f) (l ++ t) cs cs t.
Proof. intros Hl Ht. unfold prefers. simpl. by destruct (greedy_run f l t Hl Ht) as [m ->]. Qed.

Lemma prefers_plus f l t cs : l <> [] -> forallb f l = true -> stops f t -> prefers (Plus f) (l ++ t) cs cs t.
Proof.
  intros Hne Hl Ht. destruct l as [|x l]; [done|]. apply andb_true_iff in Hl as [Hx Hl].
  eapply prefers_seq; [by apply prefers_chr|by apply prefers_star].
Qed.

Lemma prefers_opt a s cs cs' t : prefers a s cs cs' t -> prefers (Opt a) s cs cs' t.
Proof. unfold prefers. simpl. by destruct (matches a s cs). Qed.

Lemma prefers_skip a s cs : matches a s cs = [] -> prefers (Opt a) s cs cs s.
Proof. unfold prefers. simpl. by intros ->. Qed.

Lemma prefers_cap n a l t cs cs' : prefers a (l ++ t) cs cs' t -> prefers (Cap n a) (l ++ t) cs ((n, l) :: cs') t.
Proof.
  unfold prefers. simpl. destruct (matches a (l ++ t) cs) as [|x m]; [done|]. intros [= ->]. simpl.
  do 4 f_equal. rewrite length_app, Nat.add_sub. by rewrite take_app_length.
Qed.

(** A lazy repeat stops at the first place the rest matches. *)
Lemma lazily_first {A} (f : Z -> bool) (g : bytes -> list A) l t y :
  forallb f l = true -> (forall l1 l2, l = l1 ++ l2 -> l2 <> [] -> g (l2 ++ t) = []) -> hd_error (g t) = Some y ->
  hd_error (flat_map g (lazily f (l ++ t))) = Some y.
Proof.
  intros Hl Hg Hy. revert Hl Hg. induction l as [|c l IH]; intros Hl Hg.
  - cbn [app]. destruct t; apply hd_flat_map; done.
  - apply andb_true_iff in Hl as [Hc Hl]. cbn [app lazily flat_map]. pose proof (Hg [] (c :: l)) as H0. cbn [app] in H0. rewrite H0, Hc by done. simpl.
    apply IH; [done|]. intros l1 l2 -> Hne. apply (Hg (c :: l1)); done.
Qed.

Lemma prefers_lazy n f b l t cs cs' u :
  forallb f l = true ->
  (forall l1 l2 x, l = l1 ++ l2 -> l2 <> [] -> matches b (l2 ++ t) x = []) ->
  prefers b t ((n, l) :: cs) cs' u -> prefers (Seq (Cap n (Lazy f)) b) (l ++ t) cs cs' u.
Proof.
  intros Hl Hb Hp. unfold prefers in *. cbn [matches]. rewrite !flat_map_concat_map, !map_map, <- flat_map_concat_map.
  apply lazily_first; [done| |].
  - intros l1 l2 -> Hne. by rewrite (Hb l1 l2).
  - cbn [fst snd]. by rewrite length_app, Nat.add_sub, take_app_length.
Qed.

Lemma prefers_eps s cs : prefers Eps s cs cs s.
Proof. done. Qed.

(** Replacing goes on behind a match. *)
Lemma replaceAll_skip r f k s : (k <= length s)%nat -> replaceAll r f k s = replaceAll r f 0 (drop k s).
Proof.
  revert k. induction s as [|c s IH]; intros k Hk; [by destruct k|]. destruct k as [|k]; [done|].
  simpl in Hk. cbn [drop]. rewrite <- IH by lia. done.
Qed.

Lemma replaceAll_match r f m t cs : m <> [] -> prefers r (m ++ t) [] cs t -> replaceAll r f 0 (m ++ t) = f m ++ replaceAll r f 0 t.
Proof.
  intros Hm Hp. destruct m as [|c m]; [done|]. cbn [app replaceAll]. unfold match_front.
  change (c :: m ++ t) with ((c :: m) ++ t). rewrite Hp, length_app, Nat.add_sub, take_app_length. f_equal.
  cbn [length]. rewrite Nat.sub_succ, Nat.sub_0_r, replaceAll_skip by (rewrite length_app; lia). by rewrite drop_app_length.
Qed.

Lemma replaceAll_none r f l t :
  (forall c u, c ∈ l -> matches r (c :: u) [] = []) -> replaceAll r f 0 (l ++ t) = l ++ replaceAll r f 0 t.
Proof.
  intros H. induction l as [|c l IH]; [done|]. cbn [app replaceAll]. unfold match_front.
  rewrite H by (by left). simpl. f_equal. apply IH. intros x u Hx. apply H. by right.
Qed.

Lemma FindStringSubmatch_front r s cs t : prefers r s [] cs t -> FindStringSubmatch r s = Some cs.
Proof. unfold prefers. intros H. destruct s; simpl; unfold match_front; by rewrite H. Qed.
