(* ===== verification/Template.v ===== *)
(** [internal/dograh/template.go]: [{{variables}}] in prompts, greetings and
    transitions: built-in times, dotted paths into the call's variables, defaults
    and fallbacks.

    A variable is a decoded JSON value. How a number and a nested object are
    printed ([strconv.FormatFloat], [json.Marshal]) and the clock in a zone
    ([time.LoadLocation], [Time.Format], [Weekday]) are parameters. *)

From Stdlib Require Import String.
From S2P Require Import Prelude Text Regex.

Local Open Scope Z_scope.

(** ** Patterns *)

Definition not_path (c : Z) : bool := negb ((c =? 124) || space c || (c =? 125)).   (* [^|\s}] *)
Definition not_colon (c : Z) : bool := negb ((c =? 58) || (c =? 125)).              (* [^:}] *)
Definition not_brace (c : Z) : bool := negb (c =? 125).                             (* [^}] *)

(** [\{\{\s*([^|\s}]+)(?:\s*\|\s*([^:}]+)(?::([^}]+))?)?\s*\}\}] *)
Definition templateVar : re :=
  Seqs [Lit 123; Lit 123; Star space; Cap 1 (Plus not_path);
        Opt (Seqs [Star space; Lit 124; Star space; Cap 2 (Plus not_colon); Opt (Seqs [Lit 58; Cap 3 (Plus not_brace)])]);
        Star space; Lit 125; Lit 125].

(** [\{\{\s*(?:current_time|current_weekday)_([^|\s}]+)] *)
Definition builtinTZ : re :=
  Seqs [Lit 123; Lit 123; Star space; Alt (Word (bs "current_time")) (Word (bs "current_weekday")); Lit 95; Cap 1 (Plus not_path)].

(** ** Values *)

Section values.
(** [float64]s, as [encoding/json] decodes them. *)
Context {float64 : Type}.

Inductive value :=
  | VNull | VString (s : bytes) | VBool (b : bool) | VNumber (f : float64)
  | VObject (m : list (bytes * value)) | VArray (l : list value).

Definition field (m : list (bytes * value)) (key : bytes) : option value :=
  snd <$> List.find (fun kv => bool_decide (kv.1 = key)) m.

(** [lookupPath]: nil as [None]. *)
Fixpoint walk (cur : value) (keys : list bytes) : option value :=
  match keys with
  | [] => Some cur
  | key :: r =>
      match cur with
      | VObject m => match field m key with None | Some VNull => None | Some v => walk v r end
      | _ => None
      end
  end.
Definition lookupPath (vars : list (bytes * value)) (path : bytes) : option value := walk (VObject vars) (Split 46 path).

Variable FormatFloat : float64 -> bytes.
Variable Marshal : value -> bytes.

(** [formatValue]. *)
Definition formatValue (v : option value) : bytes :=
  match v with
  | None | Some VNull => []
  | Some (VString s) => s
  | Some (VBool true) => bs "True"
  | Some (VBool false) => bs "False"
  | Some (VNumber f) => FormatFloat f
  | Some v => Marshal v
  end.

Context `{U : Unicode}.
Variable ToUpper : Z -> Z.

(** [pyTitle]. *)
Fixpoint title (prevLetter : bool) (rs : list Z) : list Z :=
  match rs with
  | [] => []
  | r :: l => if IsLetter r then (if prevLetter then ToLower r else ToUpper r) :: title true l else r :: title false l
  end.
Definition pyTitle (s : bytes) : bytes := flat_map EncodeRune (title false (runes s)).

(** The time now in a zone, as "2006-01-02 15:04:05 MST" and its weekday;
    [None] for a zone there is not. *)
Variable clock : bytes -> option (bytes * bytes).

(** [builtinValue]. *)
Definition in_zone (zone : bytes) : option (bytes * bytes) := clock (if bool_decide (zone = []) then bs "UTC" else zone).
Definition builtinValue (path defaultTZ : bytes) : option bytes :=
  if bool_decide (path = bs "current_time") then fst <$> in_zone defaultTZ
  else if HasPrefix path (bs "current_time_") then fst <$> in_zone (TrimPrefix path (bs "current_time_"))
  else if bool_decide (path = bs "current_weekday") then snd <$> in_zone defaultTZ
  else if HasPrefix path (bs "current_weekday_") then snd <$> in_zone (TrimPrefix path (bs "current_weekday_"))
  else None.

(** ** [renderTemplate] *)

(** The zone a bare {{current_time}} inherits. *)
Definition defaultTZ_of (s : bytes) : bytes :=
  match FindStringSubmatch builtinTZ s with Some cs => TrimSpace (group 1 cs) | None => [] end.

(** The default of a filter, for a value that is missing or "". *)
Definition default_of (path m2 m3 : bytes) : bytes :=
  let filter := TrimSpace m2 in
  if bool_decide (filter = bs "fallback") then
    if negb (bool_decide (m3 = [])) then TrimSpace m3 else pyTitle path
  else filter.

Definition missing (v : option value) : bool :=
  match v with None | Some VNull => true | Some (VString s) => bool_decide (s = []) | _ => false end.

(** What stands for one match. *)
Definition replacement (vars : list (bytes * value)) (defaultTZ : bytes) (match_ : bytes) : bytes :=
  match FindStringSubmatch templateVar match_ with
  | None => []
  | Some m =>
      let path := TrimSpace (group 1 m) in
      match builtinValue path defaultTZ with
      | Some v => v
      | None =>
          let value := lookupPath vars path in
          if negb (bool_decide (group 2 m = [])) && missing value then default_of path (group 2 m) (group 3 m)
          else formatValue value
      end
  end.

(** [strings.ReplaceAll(out, `\n`, "\n")]. *)
Fixpoint newlines (s : bytes) : bytes :=
  match s with
  | 92 :: 110 :: r => 10 :: newlines r
  | c :: r => c :: newlines r
  | [] => []
  end.

Definition renderTemplate (s : bytes) (vars : list (bytes * value)) : bytes :=
  if bool_decide (s = []) then s
  else newlines (ReplaceAllStringFunc templateVar s (replacement vars (defaultTZ_of s))).

(** ** What rendering is for

    A template is text and placeholders. *)
Inductive filter := NoFilter | Default (w d : bytes) | Fallback (w name d : bytes).
Inductive segment := Text (t : bytes) | Placeholder (l path r : bytes) (f : filter).

Definition filter_source (f : filter) : bytes :=
  match f with
  | NoFilter => []
  | Default w d => [124] ++ w ++ d
  | Fallback w name d => [124] ++ w ++ name ++ [58] ++ d
  end.
Definition source (s : segment) : bytes :=
  match s with
  | Text t => t
  | Placeholder l path r f => [123; 123] ++ l ++ path ++ r ++ filter_source f ++ [125; 125]
  end.

Definition spaces (s : bytes) : Prop := forallb space s = true.
Definition wf_filter (f : filter) : Prop :=
  match f with
  | NoFilter => True
  | Default w d => spaces w /\ d <> [] /\ forallb not_colon d = true /\ stops space d
  | Fallback w name d => spaces w /\ name <> [] /\ forallb not_colon name = true /\ stops space name /\ d <> [] /\ forallb not_brace d = true
  end.
Definition wf (s : segment) : Prop :=
  match s with
  | Text t => 123 ∉ t
  | Placeholder l path r f => spaces l /\ path <> [] /\ forallb not_path path = true /\ spaces r /\ wf_filter f
  end.

(** What a segment becomes. *)
Definition fill (vars : list (bytes * value)) (tz : bytes) (s : segment) : bytes :=
  match s with
  | Text t => t
  | Placeholder _ path _ f =>
      let p := TrimSpace path in
      match builtinValue p tz with
      | Some v => v
      | None =>
          let v := lookupPath vars p in
          if missing v then
            match f with NoFilter => [] | Default _ d => default_of p d [] | Fallback _ name d => default_of p name d end
          else formatValue v
      end
  end.

Definition filter_captures (f : filter) (cs : captures) : captures :=
  match f with NoFilter => cs | Default _ d => (2%nat, d) :: cs | Fallback _ name d => (3%nat, d) :: (2%nat, name) :: cs end.

Lemma stops_app f l t : l <> [] -> stops f l -> stops f (l ++ t).
Proof. by destruct l. Qed.

Lemma path_stops path t : path <> [] -> forallb not_path path = true -> stops space (path ++ t).
Proof.
  destruct path as [|c path]; [done|]. simpl. unfold not_path. intros _ [H%negb_true_iff _]%andb_true_iff.
  apply orb_false_iff in H as [[_ H]%orb_false_iff _]. exact H.
Qed.

Lemma spaces_path r c t : spaces r -> not_path c = false -> stops not_path (r ++ c :: t).
Proof.
  destruct r as [|x r]; [done|]. unfold spaces, not_path. simpl. intros [-> _]%andb_true_iff _. by rewrite orb_true_r.
Qed.

(** The filter's part of the pattern. *)
Definition filterPart : re :=
  Seqs [Star space; Lit 124; Star space; Cap 2 (Plus not_colon); Opt (Seqs [Lit 58; Cap 3 (Plus not_brace)])].

Lemma filter_prefers r f t cs :
  spaces r -> wf_filter f ->
  exists r', spaces r' /\ prefers (Opt filterPart) (r ++ filter_source f ++ 125 :: t) cs (filter_captures f cs) (r' ++ 125 :: t).
Proof.
  intros Hr Hf. destruct f as [|w d|w name d]; cbn [filter_source filter_captures app].
  - exists r. split; [done|]. apply prefers_skip. unfold filterPart. cbn [Seqs matches].
    apply flat_map_nil. intros x Hx. apply in_map_iff in Hx as (u & <- & Hu).
    apply greedy_suffix in Hu as (l1 & l2 & -> & ->); [|done|done]. cbn [fst snd].
    unfold spaces in Hr. rewrite forallb_app in Hr. apply andb_true_iff in Hr as [_ Hr].
    destruct l2 as [|c l2]; [done|]. cbn [app]. apply andb_true_iff in Hr as [Hc _].
    unfold Lit. cbn [matches]. destruct (Z.eqb_spec 124 c) as [<-|]; [discriminate Hc|done].
  - destruct Hf as (Hw & Hne & Hd & Hs). exists []. split; [done|]. apply prefers_opt. unfold filterPart. cbn [Seqs app].
    eapply prefers_seq; [by apply prefers_star|]. eapply prefers_seq; [by apply prefers_chr|].
    rewrite <- app_assoc. eapply prefers_seq; [apply prefers_star; [done|by apply stops_app]|].
    eapply prefers_seq; [apply prefers_cap; by apply prefers_plus|]. by apply prefers_skip.
  - destruct Hf as (Hw & Hne & Hn & Hs & Hne' & Hd). exists []. split; [done|]. apply prefers_opt. unfold filterPart. cbn [Seqs app].
    eapply prefers_seq; [by apply prefers_star|]. eapply prefers_seq; [by apply prefers_chr|].
    rewrite <- !app_assoc. eapply prefers_seq; [apply prefers_star; [done|by apply stops_app]|].
    eapply prefers_seq; [apply prefers_cap; by apply prefers_plus|]. apply prefers_opt. cbn [app].
    eapply prefers_seq; [by apply prefers_chr|]. apply prefers_cap. by apply prefers_plus.
Qed.

Lemma placeholder_prefers l path r f t :
  wf (Placeholder l path r f) ->
  prefers templateVar (source (Placeholder l path r f) ++ t) [] (filter_captures f [(1%nat, path)]) t.
Proof.
  intros (Hl & Hne & Hp & Hr & Hf). unfold source. rewrite <- !app_assoc. cbn [app].
  unfold templateVar. cbn [Seqs]. fold filterPart.
  eapply prefers_seq; [by apply prefers_chr|]. eapply prefers_seq; [by apply prefers_chr|].
  eapply prefers_seq; [apply prefers_star; [done|by apply path_stops]|].
  eapply prefers_seq.
  - apply prefers_cap, prefers_plus; [done..|]. destruct f; by apply spaces_path.
  - destruct (filter_prefers r f (125 :: t) [(1%nat, path)] Hr Hf) as (r' & Hr' & Hpf).
    eapply prefers_seq; [exact Hpf|]. eapply prefers_seq; [by apply prefers_star|].
    eapply prefers_seq; by apply prefers_chr.
Qed.

Lemma replacement_fill l path r f vars tz :
  wf (Placeholder l path r f) ->
  replacement vars tz (source (Placeholder l path r f)) = fill vars tz (Placeholder l path r f).
Proof.
  intros Hw. pose proof (placeholder_prefers l path r f [] Hw) as Hp. rewrite app_nil_r in Hp.
  unfold replacement. rewrite (FindStringSubmatch_front _ _ _ _ Hp). unfold fill.
  destruct Hw as (_ & _ & _ & _ & Hf). destruct f as [|w d|w name d]; unfold group; simpl.
  - destruct (builtinValue _ _); [done|]. destruct (lookupPath _ _) as [v|]; [|done]. simpl.
    destruct v as [|[]| | | |]; done.
  - destruct Hf as (_ & Hne & _ & _). rewrite bool_decide_eq_false_2 by done. done.
  - destruct Hf as (_ & Hne & _ & _ & _ & _). rewrite bool_decide_eq_false_2 by done. done.
Qed.

(** C27: a template renders to its text with every placeholder filled in: a
    built-in time, else the variable at its path, else (missing or empty) its
    default, a fallback's value or the path's title; nothing else changes, and
    what is filled in is never rendered again. Spaces inside the braces and
    around the bar do not matter. *)
Theorem renderTemplate_fills segs vars :
  Forall wf segs ->
  let s := concat (map source segs) in
  renderTemplate s vars = newlines (concat (map (fill vars (defaultTZ_of s)) segs)).
Proof.
  intros Hwf s. unfold renderTemplate, ReplaceAllStringFunc. case_bool_decide as Hs.
  - rewrite Hs. assert (Hsrc : forall p l r f, source (Placeholder l p r f) <> []) by done.
    revert Hs. unfold s. clear s. induction Hwf as [|x segs Hx Hwf IH]; [done|]. cbn [map concat]. intros [Hn Hs]%app_eq_nil.
    destruct x as [t|l p r f]; [|by destruct (Hsrc p l r f)]. simpl in Hn. subst t. simpl. by apply IH.
  - f_equal. clear Hs. generalize (defaultTZ_of s). intros tz. unfold s. clear s.
    induction Hwf as [|x segs Hx Hwf IH]; [done|]. cbn [map concat]. destruct x as [t|l path r f].
    + cbn [source fill]. rewrite replaceAll_none; [by rewrite IH|]. intros c u Hc. unfold templateVar. cbn [Seqs matches].
      assert (Lit 123 = Chr (Z.eqb 123)) as -> by done. cbn [matches]. destruct (Z.eqb_spec 123 c) as [<-|]; [done|done].
    + rewrite (replaceAll_match _ _ _ _ (filter_captures f [(1%nat, path)])); [|done|by apply placeholder_prefers].
      by rewrite replacement_fill, IH.
Qed.
End values.

(** ** Examples *)

Definition ascii_upper (r : Z) : Z := if between 97 r 122 then r - 32 else r.
Definition noon (zone : bytes) : option (bytes * bytes) :=
  if bool_decide (zone = bs "UTC") || bool_decide (zone = bs "Asia/Kolkata") then Some (bs "12:00 " ++ zone, bs "Monday") else None.
Definition render_ascii : bytes -> list (bytes * value) -> bytes :=
  renderTemplate (float64 := Z) (U := ascii_deva) (fun z => [48 + z]) (fun _ => bs "{...}") ascii_upper noon.

Definition some_vars : list (bytes * value (float64 := Z)) :=
  [(bs "customer", VObject [(bs "name", VString (bs "Asha")); (bs "city", VString []); (bs "age", VNumber 7)]); (bs "vip", VBool true)].

Example rendered :
  map (fun s => render_ascii s some_vars)
    [bs "Hi {{customer.name}}, {{ customer.age |x}} {{vip}}\nat {{customer.city | home }}";
     bs "{{caller_name | fallback}} {{x.y|fallback: you }} {{gone}}.";
     bs "{{current_time_Asia/Kolkata}} {{current_weekday}} {{current_time_Mars | later}}";
     bs "{{}} {{a b}} {x} {{customer.name}} }}"] =
  [bs "Hi Asha, 7 True" ++ [10] ++ bs "at home";
   bs "Caller_Name you .";
   bs "12:00 Asia/Kolkata Monday later";
   bs "{{}} {{a b}} {x} Asha }}"].
Proof. by vm_compute. Qed.

Theorem renderTemplate_fills_witness :
  let segs := [Text (bs "Hi "); Placeholder [] (bs "customer.name") [32] (Default [32] (bs "there ")); Text (bs "!")] in
  Forall wf segs /\
  let s := concat (map source segs) in
  render_ascii s some_vars =
  newlines (concat (map (fill (U := ascii_deva) (fun z => [48 + z]) (fun _ => bs "{...}") ascii_upper noon some_vars (defaultTZ_of s)) segs)).
Proof.
  intros segs.
  assert (H : Forall wf segs).
  { repeat constructor; simpl; try discriminate; by apply (bool_decide_unpack _). }
  split; [exact H|]. exact (renderTemplate_fills (float64 := Z) (U := ascii_deva) (fun z => [48 + z]) (fun _ => bs "{...}") ascii_upper noon segs some_vars H).
Defined.
