(* ===== verification/DographTools.v ===== *)
(** [internal/dograh/tools.go], the schema and the credential header of
    [httptool.go], and [EdgeFunctionName]: how a row of Dograh's tools table
    becomes a tool of the agent.

    JSON decoding is a parameter; a tool's function ([httpTool.run]) is kept as
    its settings ([HttpTool] has the request it makes). Floats are binary64. *)

From Stdlib Require Import String SpecFloat.
From S2P Require Import Prelude Text Workflow.

Local Open Scope Z_scope.

(** ** Function names *)

Section names.
Context `{U : Unicode}.

Definition lower_digit (r : Z) : bool := between 97 r 122 || between 48 r 57.   (* [a-z0-9] *)
Definition func_char (r : Z) : bool := lower_digit r || (r =? 95).             (* [a-z0-9_] *)

(** [ReplaceAllString(strings.ToLower(s), "_")] of the runes outside a class of
    ASCII characters. *)
Definition underscored (ok : Z -> bool) (s : bytes) : bytes :=
  map (fun r => if ok r then r else 95) (runes (ToLowerString s)).

(** [underscores.ReplaceAllString(s, "_")]: [_+]. *)
Fixpoint collapse (s : bytes) : bytes :=
  match s with
  | 95 :: ((95 :: _) as r) => collapse r
  | c :: r => c :: collapse r
  | [] => []
  end.

(** [strings.Trim(s, "_")]. *)
Fixpoint trim_front (s : bytes) : bytes := match s with 95 :: r => trim_front r | _ => s end.
Definition trim (s : bytes) : bytes := rev (trim_front (rev (trim_front s))).

(** [FunctionName], [EdgeFunctionName]. *)
Definition FunctionName (toolName : bytes) : bytes := trim (collapse (underscored func_char toolName)).
Definition EdgeFunctionName (label : bytes) : bytes := underscored lower_digit label.
End names.

(** ** Rows *)

Record Credential := mkCredential { cred_Type : bytes; cred_Data : bytes }.
Record ToolRow := mkRow {
  row_UUID : bytes; row_Name : bytes; row_Description : bytes; row_Category : bytes;
  row_Definition : bytes; row_Credential : option Credential;
}.

(** [toolParam]; [Required] is nil when absent. *)
Inductive toolParam := Param (name type description : bytes) (required : option bool) (item_schema : list toolParam).

Record toolConfig := mkToolConfig {
  MessageType : bytes; CustomMessage : bytes; AudioRecordingID : Z;
  EndCallReason : bool; EndCallReasonDescription : bytes;
  cfg_Destination : bytes; cfg_Timeout : option spec_float;
  CustomMessageType : bytes; CustomMessageRecordingID : Z;
  Method : bytes; URL : bytes; Headers : list (bytes * bytes); CredentialUUID : bytes;
  TimeoutMS : option spec_float; Parameters_ : list toolParam;
}.
Definition no_config : toolConfig := mkToolConfig [] [] 0 false [] [] None [] 0 [] [] [] [] None [].

(** [clipSet]: the recordings by primary key and by recording id. *)
Record clipSet := mkClips { byPK : list (Z * Clip); byID : list (bytes * Clip); HasAny : bool }.
Definition clip_pk (c : clipSet) (pk : Z) : option Clip := snd <$> List.find (fun x => x.1 =? pk) (byPK c).

(** ** Parameter schemas *)

Inductive json := JString (s : bytes) | JArray (l : list json) | JObject (m : list (bytes * json)).

(** A map's assignment. *)
Fixpoint put {A} (k : bytes) (v : A) (m : list (bytes * A)) : list (bytes * A) :=
  match m with
  | [] => [(k, v)]
  | (k', v') :: r => if bool_decide (k' = k) then (k, v) :: r else (k', v') :: put k v r
  end.

Definition paramType (t : bytes) : bytes :=
  if bool_decide (t = bs "number") || bool_decide (t = bs "boolean") then t else bs "string".

(** [objectSchema]; [nested] is the schema of an item's fields. *)
Definition schema_of (nested : list toolParam -> list (bytes * json)) (top : bool) (params : list toolParam) : list (bytes * json) :=
  let step (acc : list (bytes * json) * list json) (p : toolParam) :=
    let '(Param name type desc required items) := p in
    if bool_decide (name = []) then acc
    else
      let s :=
        if top && bool_decide (type = bs "array") then
          JObject [(bs "type", JString (bs "array")); (bs "description", JString desc); (bs "items", JObject (nested items))]
        else if top && bool_decide (type = bs "object") then JObject (put (bs "description") (JString desc) (nested items))
        else JObject [(bs "type", JString (paramType type)); (bs "description", JString desc)] in
      (put name s acc.1, if default true required then acc.2 ++ [JString name] else acc.2) in
  let '(props, required) := fold_left step params ([], []) in
  [(bs "type", JString (bs "object")); (bs "properties", JObject props); (bs "required", JArray required)].

Definition objectSchema (params : list toolParam) (top : bool) : list (bytes * json) :=
  schema_of (schema_of (fun _ => []) false) top params.
Definition httpToolSchema (params : list toolParam) : json := JObject (objectSchema params true).

(** ** Durations *)

(** [time.Duration(f * float64(unit))]: truncated; on amd64 what does not fit
    is the smallest int64. *)
Definition of_int (z : Z) : spec_float := binary_normalize 53 1024 z 0 false.
Definition truncated (f : spec_float) : Z :=
  let z := match f with
           | S754_finite s m e => (if s then -1 else 1) * (if 0 <=? e then Z.pos m * 2 ^ e else Z.pos m / 2 ^ (- e))
           | S754_zero _ => 0
           | _ => - 2 ^ 63
           end in
  if (- 2 ^ 63 <=? z) && (z <? 2 ^ 63) then z else - 2 ^ 63.
Definition Duration (f : spec_float) (unit : Z) : Z := truncated (SFmul 53 1024 f (of_int unit)).
Definition positive_float (f : spec_float) : bool := SFltb (of_int 0) f.

Definition second : Z := 1000000000.
Definition millisecond : Z := 1000000.
Definition defaultHTTPToolTimeout : Z := 5 * second.

(** ** Credentials *)

(** [base64.StdEncoding.EncodeToString]. *)
Definition sextet (n : Z) : Z :=
  if n <? 26 then 65 + n else if n <? 52 then 71 + n else if n <? 62 then n - 4 else if n =? 62 then 43 else 47.
Fixpoint base64 (s : bytes) : bytes :=
  match s with
  | a :: b :: c :: r =>
      [sextet (a / 4); sextet ((a mod 4) * 16 + b / 16); sextet ((b mod 16) * 4 + c / 64); sextet (c mod 64)] ++ base64 r
  | [a; b] => [sextet (a / 4); sextet ((a mod 4) * 16 + b / 16); sextet ((b mod 16) * 4); 61]
  | [a] => [sextet (a / 4); sextet ((a mod 4) * 16); 61; 61]
  | [] => []
  end.

Section decoding.
Variable decodeCredential : bytes -> option (list (bytes * bytes)).
Variable decodeConfig : bytes -> option toolConfig.
Context `{U : Unicode}.
Variable ToUpper : bytes -> bytes.

(** [authHeader]: an error, no header, or its name and value. *)
Definition authHeader (c : Credential) : result (option (bytes * bytes)) unit :=
  match (if bool_decide (cred_Data c = []) then Some [] else decodeCredential (cred_Data c)) with
  | None => Err tt
  | Some d =>
      let get key def := default def (snd <$> List.find (fun kv => bool_decide (kv.1 = key)) d) in
      if bool_decide (cred_Type c = bs "bearer_token") then Ok (Some (bs "Authorization", bs "Bearer " ++ get (bs "token") []))
      else if bool_decide (cred_Type c = bs "api_key") then Ok (Some (get (bs "header_name") (bs "X-API-Key"), get (bs "api_key") []))
      else if bool_decide (cred_Type c = bs "basic_auth") then
        Ok (Some (bs "Authorization", bs "Basic " ++ base64 (get (bs "username") [] ++ [58] ++ get (bs "password") [])))
      else if bool_decide (cred_Type c = bs "custom_header") then Ok (Some (get (bs "header_name") (bs "X-Custom"), get (bs "header_value") []))
      else Ok None
  end.

(** ** [buildTool] *)

Record httpTool := mkHTTP { h_method : bytes; h_url : bytes; h_headers : list (bytes * bytes); h_timeout : Z }.

(** [agent.Tool], its definition whole. *)
Record built := mkBuilt {
  b_Name : bytes; b_Description : bytes; b_Parameters : option json;
  b_Kind : ToolKind; b_Message : bytes; b_MessageClip : option Clip;
  b_Destination : bytes; b_Timeout : Z; b_Run : option httpTool;
}.
#[global] Instance eta_built : Eta built := fun t =>
  mkBuilt (b_Name t) (b_Description t) (b_Parameters t) (b_Kind t) (b_Message t) (b_MessageClip t) (b_Destination t) (b_Timeout t) (b_Run t).

Inductive warning := WClipUnavailable (uuid : bytes) | WCredentialMissing (uuid : bytes) | WCredentialBad (uuid : bytes).
Inductive toolError := BadDefinition (uuid : bytes) | NoDestination (uuid : bytes) | NoURL (uuid : bytes) | Unsupported (uuid : bytes).

Definition parseToolConfig (r : ToolRow) : result toolConfig toolError :=
  if bool_decide (row_Definition r = []) then Ok no_config
  else match decodeConfig (row_Definition r) with Some c => Ok c | None => Err (BadDefinition (row_UUID r)) end.

(** [toolClipRef]. *)
Definition toolClipRef (r : ToolRow) : Z :=
  match parseToolConfig r with
  | Err _ => 0
  | Ok cfg =>
      if bool_decide (row_Category r = bs "http_api") then
        if bool_decide (CustomMessageType cfg = bs "audio") then CustomMessageRecordingID cfg else 0
      else if bool_decide (MessageType cfg = bs "audio") then AudioRecordingID cfg else 0
  end.

Definition blank (s : bytes) : bool := bool_decide (TrimSpace s = []).

(** [buildHTTPTool]; its warnings are joined into one line. *)
Definition buildHTTPTool (r : ToolRow) (cfg : toolConfig) (t : built) (clips : clipSet) : result (built * list warning) toolError :=
  if blank (URL cfg) then Err (NoURL (row_UUID r))
  else
    let m := ToUpper (Method cfg) in
    let timeout := match TimeoutMS cfg with
                   | Some f => if positive_float f then Duration f millisecond else defaultHTTPToolTimeout
                   | None => defaultHTTPToolTimeout
                   end in
    let '(headers, w1) :=
      if bool_decide (CredentialUUID cfg = []) then (Headers cfg, [])
      else match row_Credential r with
           | None => (Headers cfg, [WCredentialMissing (row_UUID r)])
           | Some c =>
               match authHeader c with
               | Err _ => (Headers cfg, [WCredentialBad (row_UUID r)])
               | Ok None => (Headers cfg, [])
               | Ok (Some (name, v)) => (put name v (Headers cfg), [])
               end
           end in
    let h := mkHTTP (if bool_decide (m = []) then bs "POST" else m) (URL cfg) headers timeout in
    let '(message, clip, w2) :=
      if bool_decide (CustomMessageType cfg = bs "audio") then
        match clip_pk clips (CustomMessageRecordingID cfg) with
        | Some c => ([], Some c, [])
        | None => ([], None, [WClipUnavailable (row_UUID r)])
        end
      else (CustomMessage cfg, None, []) in
    Ok (t <| b_Message := message |> <| b_MessageClip := clip |> <| b_Kind := ToolFunction |>
          <| b_Parameters := Some (httpToolSchema (Parameters_ cfg)) |> <| b_Run := Some h |>, w1 ++ w2).

Definition defaultReason : bytes :=
  bs "The reason for ending the call (e.g., 'voicemail_detected', 'issue_resolved', 'customer_requested')".
Definition reasonSchema (desc : bytes) : json :=
  JObject [(bs "type", JString (bs "object"));
           (bs "properties", JObject [(bs "reason", JObject [(bs "type", JString (bs "string")); (bs "description", JString desc)])]);
           (bs "required", JArray [JString (bs "reason")])].

Definition buildTool (r : ToolRow) (clips : clipSet) : result (built * list warning) toolError :=
  match parseToolConfig r with
  | Err e => Err e
  | Ok cfg =>
      let http := bool_decide (row_Category r = bs "http_api") in
      let t := mkBuilt (FunctionName (row_Name r))
                 (if bool_decide (row_Description r = []) then bs "Execute " ++ row_Name r ++ bs " tool" else row_Description r)
                 None ToolFunction [] None [] 0 None in
      let '(t, w) :=
        if bool_decide (MessageType cfg = bs "custom") then (t <| b_Message := CustomMessage cfg |>, [])
        else if bool_decide (MessageType cfg = bs "audio") then
          match clip_pk clips (AudioRecordingID cfg) with
          | Some c => (t <| b_MessageClip := Some c |>, [])
          | None => (t, if http then [] else [WClipUnavailable (row_UUID r)])
          end
        else (t, []) in
      if bool_decide (row_Category r = bs "end_call") then
        let t := t <| b_Kind := ToolEndCall |> in
        Ok (if EndCallReason cfg then
              t <| b_Parameters := Some (reasonSchema (if bool_decide (EndCallReasonDescription cfg = []) then defaultReason else EndCallReasonDescription cfg)) |>
            else t, w)
      else if bool_decide (row_Category r = bs "transfer_call") then
        if blank (cfg_Destination cfg) then Err (NoDestination (row_UUID r))
        else
          let t := t <| b_Kind := ToolTransfer |> <| b_Destination := cfg_Destination cfg |> in
          Ok (match cfg_Timeout cfg with
              | Some f => if positive_float f then t <| b_Timeout := Duration f second |> else t
              | None => t
              end, w)
      else if http then buildHTTPTool r cfg t clips
      else Err (Unsupported (row_UUID r))
  end.
End decoding.

(** What the agent runs (file Workflow). *)
Definition agent_tool (t : built) : Tool :=
  mkTool (b_Name t) (b_Kind t) (b_Message t) (b_MessageClip t) (match b_Run t with Some _ => true | None => false end) (b_Destination t) (b_Timeout t).
