(* ===== verification/WorkflowLoad.v ===== *)
(** [internal/dograh/workflow.go]: Dograh's stored workflow made into the
    agent's node graph.

    The stored JSON comes decoded; a built node is its place in the list of
    built nodes, as in file Workflow. Warnings are what they name, not their
    text. *)

From Stdlib Require Import String SpecFloat.
From S2P Require Import Prelude Text Workflow Template DographTools.

Local Open Scope Z_scope.

(** ** The stored workflow *)

Record variableData := mkVariable { v_Name : bytes; v_Type : bytes; v_Prompt : option bytes }.

Record nodeData := mkData {
  d_Name : bytes; d_Prompt : bytes; d_IsStart : bool; d_IsEnd : bool; d_AllowInterrupt : bool;
  d_AddGlobalPrompt : option bool; d_Greeting : bytes; d_GreetingType : bytes; d_ToolUUIDs : list bytes;
  d_GreetingRecordingID : Z; d_ExtractionEnabled : bool; d_ExtractionPrompt : bytes; d_ExtractionVariables : list variableData;
}.
Record storedNode := mkStored { n_ID : bytes; n_Type : bytes; n_Data : nodeData }.
Record storedEdge := mkStoredEdge {
  e_Source : bytes; e_Target : bytes; e_Label : bytes; e_Condition : bytes;
  e_TransitionSpeech : bytes; e_TransitionSpeechType : bytes; e_TransitionSpeechRecordingID : Z;
}.
Record workflowJSON := mkWorkflow { Nodes : list storedNode; StoredEdges : list storedEdge }.

Definition globalNodeType : bytes := bs "globalNode".

(** [toolUUIDs]. *)
Definition add_new (out : list bytes) (u : bytes) : list bytes := if bool_decide (u ∈ out) then out else out ++ [u].
Definition toolUUIDs (wf : workflowJSON) : list bytes :=
  fold_left add_new (flat_map (fun n => d_ToolUUIDs (n_Data n)) (Nodes wf)) [].

(** [strings.Contains]. *)
Fixpoint Contains (s sub : bytes) : bool :=
  HasPrefix s sub || match s with [] => false | _ :: r => Contains r sub end.

Definition recordingInstructions : bytes := bs "RESPONSE MODE INSTRUCTIONS - MANDATORY FORMAT:
Every response you generate MUST begin with excatcly one response mode indicator.
You have two modes for responding:

1. DYNAMIC SPEECH (▸): Generate text that will be converted to speech by TTS.
   Format: ▸ followed by a space and your full spoken response. Nothing else.
   Example: ▸ Hello! How can I help you today?

2. PRE-RECORDED AUDIO (●): Play a pre-recorded audio message.
   Format: ● followed by a space followed by recording_id followed by provided transcript. Nothing else.
   Example: ● rec_greeting_01 [ Provided Transcript ]

RULES:
- Your response MUST start with either ▸ or ● as the very first character.
- For ▸ (dynamic speech): Follow with a space and your response to be generated using TTS engine. Dont mix with ●
- For ● (pre-recorded audio): Follow with a space and recording_id of the audio clip with its transcript. Dont mix with ▸
- Use ● when a pre-recorded message matches the situation well.
- Use ▸ when you need to generate a dynamic, contextual response.
- *NEVER* mix modes in a single response, since we rely on the markers to decide whether to play using TTS or Pre-recorded audio.".

Definition promptRecordingRef : bytes := bs "RECORDING_ID:".

Section load.
Variable decodeCredential : bytes -> option (list (bytes * bytes)).
Variable decodeConfig : bytes -> option toolConfig.
Context `{U : Unicode}.
Variable ToUpper : bytes -> bytes.
(** [renderTemplate] with the call's variables (file Template). *)
Variable render : bytes -> bytes.

(** [recordingNeeds]: primary keys, and whether all are needed. *)
Definition recordingNeeds (wf : workflowJSON) (tools : list ToolRow) : list Z * bool :=
  (flat_map (fun n => let d := n_Data n in
       if d_IsStart d && bool_decide (d_GreetingType d = bs "audio") && (0 <? d_GreetingRecordingID d) then [d_GreetingRecordingID d] else []) (Nodes wf) ++
   flat_map (fun e => if bool_decide (e_TransitionSpeechType e = bs "audio") && (0 <? e_TransitionSpeechRecordingID e)
                      then [e_TransitionSpeechRecordingID e] else []) (StoredEdges wf) ++
   flat_map (fun r => let pk := toolClipRef decodeConfig r in if 0 <? pk then [pk] else []) tools,
   existsb (fun n => Contains (d_Prompt (n_Data n)) promptRecordingRef) (Nodes wf)).

(** ** The built graph *)

Record extraction := mkExtraction { x_Prompt : bytes; x_Vars : list variableData }.

Record edge := mkEdge { b_EdgeName : bytes; b_Condition : bytes; b_Speech : bytes; b_SpeechClip : option Clip; b_To : nat }.

Record node := mkNode {
  b_ID : bytes; b_NodeName : bytes; b_End : bool; b_AllowInterrupt : bool; b_Prompt : bytes;
  b_Clips : option (list (bytes * Clip)); b_Extraction : option extraction; b_Tools : list built;
  b_Greeting : bytes; b_GreetingClip : option Clip; b_Edges : list edge;
}.
#[global] Instance eta_node : Eta node := fun n =>
  mkNode (b_ID n) (b_NodeName n) (b_End n) (b_AllowInterrupt n) (b_Prompt n) (b_Clips n) (b_Extraction n) (b_Tools n)
    (b_Greeting n) (b_GreetingClip n) (b_Edges n).

Inductive note :=
  | NTool (w : warning) | NToolError (e : toolError) | NNoTool (name uuid : bytes) | NGreetingClip
  | NSharedName (node label name : bytes) | NSpeechClip (label : bytes).

Inductive buildError := TwoStarts | NoStart | UnknownNodes (label source target : bytes).

(** The attached tools: those built, by uuid, a later row over an earlier. *)
Definition buildTools (tools : list ToolRow) (clips : clipSet) : list (bytes * built) * list note :=
  fold_left (fun acc r =>
    match buildTool decodeCredential decodeConfig ToUpper r clips with
    | Err e => (acc.1, acc.2 ++ [NToolError e])
    | Ok (t, ws) => (put (row_UUID r) t acc.1, acc.2 ++ map NTool ws)
    end) tools ([], []).

Definition find_tool (ts : list (bytes * built)) (u : bytes) : option built := snd <$> List.find (fun x => bool_decide (x.1 = u)) ts.

(** [hasRow]. *)
Definition hasRow (rows : list ToolRow) (uuid : bytes) : bool := existsb (fun r => bool_decide (row_UUID r = uuid)) rows.

Definition globalPrompt (wf : workflowJSON) : bytes :=
  fold_left (fun p n => if bool_decide (n_Type n = globalNodeType) then render (d_Prompt (n_Data n)) else p) (Nodes wf) [].

Definition buildVariable (v : variableData) : variableData :=
  mkVariable (v_Name v) (v_Type v) ((fun p => if bool_decide (p = []) then p else render p) <$> v_Prompt v).

Definition node_tools (rows : list ToolRow) (ts : list (bytes * built)) (d : nodeData) : list built * list note :=
  (omap (find_tool ts) (d_ToolUUIDs d),
   omap (fun u => match find_tool ts u with
                  | Some _ => None
                  | None => if hasRow rows u then None else Some (NNoTool (d_Name d) u)
                  end) (d_ToolUUIDs d)).

(** One node, without its edges and greeting. *)
Definition buildNode (global : bytes) (rows : list ToolRow) (ts : list (bytes * built)) (clips : clipSet) (n : storedNode) : node :=
  let d := n_Data n in
  let p := render (d_Prompt d) in
  let recorded := HasAny clips && Contains p promptRecordingRef in
  let parts := (if negb (bool_decide (global = [])) && default true (d_AddGlobalPrompt d) then [global] else []) ++
               (if negb (bool_decide (p = [])) then [p] else []) ++
               (if recorded then [recordingInstructions] else []) in
  mkNode (n_ID n) (d_Name d) (d_IsEnd d) (d_AllowInterrupt d) (Join parts [10; 10])
    (if recorded then Some (byID clips) else None)
    (if d_ExtractionEnabled d && negb (bool_decide (d_ExtractionVariables d = []))
     then Some (mkExtraction (render (d_ExtractionPrompt d)) (map buildVariable (d_ExtractionVariables d))) else None)
    (node_tools rows ts d).1 [] None [].

(** The start node's greeting. *)
Definition greet (clips : clipSet) (d : nodeData) (n : node) : node * list note :=
  if bool_decide (d_GreetingType d = bs "audio") then
    match clip_pk clips (d_GreetingRecordingID d) with
    | Some c => (n <| b_GreetingClip := Some c |>, [])
    | None => (n, [NGreetingClip])
    end
  else if negb (bool_decide (d_Greeting d = [])) then (n <| b_Greeting := render (d_Greeting d) |>, [])
  else (n, []).

(** The nodes so far: the list, the node of each id, the start node, the notes. *)
Record building := mkBuilding { list_ : list node; byNodeID : list (bytes * nat); start : option nat; notes : list note }.

Definition addNode (global : bytes) (rows : list ToolRow) (ts : list (bytes * built)) (clips : clipSet) (b : building) (n : storedNode)
    : result building buildError :=
  if bool_decide (n_Type n = globalNodeType) then Ok b
  else
    let d := n_Data n in
    let nd := buildNode global rows ts clips n in
    let ws := notes b ++ (node_tools rows ts d).2 in
    let i := length (list_ b) in
    if d_IsStart d then
      match start b with
      | Some _ => Err TwoStarts
      | None =>
          let '(nd, w) := greet clips d nd in
          Ok (mkBuilding (list_ b ++ [nd]) (put (n_ID n) i (byNodeID b)) (Some i) (ws ++ w))
      end
    else Ok (mkBuilding (list_ b ++ [nd]) (put (n_ID n) i (byNodeID b)) (start b) ws).

Fixpoint addNodes global rows ts clips (b : building) (ns : list storedNode) : result building buildError :=
  match ns with
  | [] => Ok b
  | n :: r => match addNode global rows ts clips b n with Err e => Err e | Ok b => addNodes global rows ts clips b r end
  end.

Definition node_at (ids : list (bytes * nat)) (id : bytes) : option nat := snd <$> List.find (fun x => bool_decide (x.1 = id)) ids.

(** One edge. *)
Definition buildEdge (clips : clipSet) (e : storedEdge) (to : nat) : edge * list note :=
  let name := EdgeFunctionName (e_Label e) in
  if bool_decide (e_TransitionSpeechType e = bs "audio") then
    let clip := clip_pk clips (e_TransitionSpeechRecordingID e) in
    (mkEdge name (e_Condition e) [] clip to, match clip with Some _ => [] | None => [NSpeechClip (e_Label e)] end)
  else (mkEdge name (e_Condition e) (render (e_TransitionSpeech e)) None to, []).

Definition sharedNames (from : node) (e : storedEdge) : list note :=
  let name := EdgeFunctionName (e_Label e) in
  map (fun _ => NSharedName (b_NodeName from) (e_Label e) name) (List.filter (fun t => bool_decide (b_Name t = name)) (b_Tools from)).

Definition addEdge (clips : clipSet) (ids : list (bytes * nat)) (ns : list node) (ws : list note) (e : storedEdge) : result (list node * list note) buildError :=
  match node_at ids (e_Source e), node_at ids (e_Target e) with
  | Some i, Some j =>
      match ns !! i with
      | Some from =>
          let '(ed, w) := buildEdge clips e j in
          Ok (<[i := from <| b_Edges ::= fun l => l ++ [ed] |>]> ns, ws ++ sharedNames from e ++ w)
      | None => Err (UnknownNodes (e_Label e) (e_Source e) (e_Target e))
      end
  | _, _ => Err (UnknownNodes (e_Label e) (e_Source e) (e_Target e))
  end.

Fixpoint addEdges clips ids (ns : list node) (ws : list note) (es : list storedEdge) : result (list node * list note) buildError :=
  match es with
  | [] => Ok (ns, ws)
  | e :: r => match addEdge clips ids ns ws e with Err x => Err x | Ok (ns, ws) => addEdges clips ids ns ws r end
  end.

(** [buildWorkflow]. *)
Definition buildWorkflow (wf : workflowJSON) (tools : list ToolRow) (clips : clipSet) : result (list node * nat * list note) buildError :=
  let '(ts, w) := buildTools tools clips in
  match addNodes (globalPrompt wf) tools ts clips (mkBuilding [] [] None w) (Nodes wf) with
  | Err e => Err e
  | Ok b =>
      match start b with
      | None => Err NoStart
      | Some s =>
          match addEdges clips (byNodeID b) (list_ b) (notes b) (StoredEdges wf) with
          | Err e => Err e
          | Ok (ns, w) => Ok (ns, s, w)
          end
      end
  end.
End load.

(** What the agent runs. *)
Definition agent_edge (e : edge) : Edge := Workflow.mkEdge (b_EdgeName e) (b_Speech e) (b_SpeechClip e) (Z.of_nat (b_To e)).
Definition agent_node (n : node) : Node :=
  Workflow.mkNode (b_ID n) (b_NodeName n) (b_Prompt n) (b_Greeting n) (b_GreetingClip n) (b_Clips n) (b_End n) (b_AllowInterrupt n)
    (match b_Extraction n with Some _ => true | None => false end) (map agent_tool (b_Tools n)) (map agent_edge (b_Edges n)).
