(* ===== verification/WorkflowSpec.v ===== *)
(** [internal/dograh]: function names are names a provider takes, and a
    workflow that loads is the graph that was stored. *)

From Stdlib Require Import String.
From S2P Require Import Prelude Text Workflow Template DographTools WorkflowLoad.

Local Open Scope Z_scope.

(** ** Function names *)

Section names.
Context `{U : Unicode}.

Definition single (s : bytes) : Prop := forall l1 l2, s <> l1 ++ 95 :: 95 :: l2.

Lemma collapse_cons c s : c <> 95 -> collapse (c :: s) = c :: collapse s.
Proof. intros H. destruct c as [|c|c]; try done. do 7 (destruct c as [c|c|]; try done). Qed.

Lemma collapse_one s : (forall r, s <> 95 :: r) -> collapse (95 :: s) = 95 :: collapse s.
Proof.
  intros H. destruct s as [|c s]; [done|]. destruct (decide (c = 95)) as [->|Hne]; [by destruct (H s)|].
  destruct c as [|c|c]; try done. do 7 (destruct c as [c|c|]; try done).
Qed.

(** By what starts a string of names' characters. *)
Lemma collapse_ind (P : bytes -> Prop) :
  P [] -> (forall c s, c <> 95 -> P s -> P (c :: s)) -> (forall s, (forall r, s <> 95 :: r) -> P s -> P (95 :: s)) ->
  (forall s, P (95 :: s) -> P (95 :: 95 :: s)) -> forall s, P s.
Proof.
  intros H0 Hc H1 H2 s. induction s as [|c s IH]; [done|]. destruct (decide (c = 95)) as [->|Hne]; [|by apply Hc].
  destruct s as [|x s]; [by apply H1|]. destruct (decide (x = 95)) as [->|Hx]; [by apply H2|]. apply H1; [congruence|done].
Qed.

Lemma collapse_spec s :
  single (collapse s) /\ (forall P, Forall P s -> Forall P (collapse s)) /\ (forall r, collapse s = 95 :: r -> exists r', s = 95 :: r').
Proof.
  induction s as [|c s Hc (IH1 & IH2 & IH3)|s Hs (IH1 & IH2 & IH3)|s (IH1 & IH2 & IH3)] using collapse_ind.
  - split_and!; [by intros [] []|done|done].
  - rewrite collapse_cons by done. split_and!; [|intros P [H1 H2]%Forall_cons; constructor; auto|congruence].
    intros [|x l1] l2; [by intros [= -> _]|]. intros [= -> H]. by eapply IH1.
  - rewrite collapse_one by done. split_and!; [|intros P [H1 H2]%Forall_cons; constructor; auto|eauto].
    intros [|x l1] l2; [|intros [= <- H]; by eapply IH1]. intros [= H]. destruct (IH3 _ H) as [r ->]. by eapply Hs.
  - change (collapse (95 :: 95 :: s)) with (collapse (95 :: s)). split_and!; [done| |eauto]. intros P [_ H]%Forall_cons. auto.
Qed.

Lemma trim_front_spec s : exists u, s = u ++ trim_front s /\ (forall r, trim_front s <> 95 :: r).
Proof.
  induction s as [|c s (u & Hu & Hn)]; [by exists []|]. destruct (decide (c = 95)) as [->|Hne].
  - exists (95 :: u). cbn [app trim_front]. by rewrite <- Hu.
  - exists []. assert (trim_front (c :: s) = c :: s) as ->; [|split; [done|congruence]].
    destruct c as [|c|c]; try done. do 7 (destruct c as [c|c|]; try done).
Qed.

Lemma trim_spec s : exists u v, s = u ++ trim s ++ v /\ (forall r, trim s <> 95 :: r) /\ (forall r, trim s <> r ++ [95]).
Proof.
  destruct (trim_front_spec s) as (u & Hu & Hn). destruct (trim_front_spec (rev (trim_front s))) as (v & Hv & Hn').
  exists u, (rev v). unfold trim. 
  assert (Ht : trim_front s = rev (trim_front (rev (trim_front s))) ++ rev v).
  { rewrite <- rev_app_distr, <- Hv. by rewrite rev_involutive. }
  split_and!.
  - by rewrite <- Ht.
  - intros r Hr. rewrite Hr in Ht. by eapply Hn.
  - intros r Hr. apply (f_equal (@rev Z)) in Hr. rewrite rev_involutive, rev_app_distr in Hr. simpl in Hr. by eapply Hn'.
Qed.

Lemma underscored_chars ok s : Forall (fun c => ok c = true \/ c = 95) (underscored ok s).
Proof. unfold underscored. apply Forall_map, Forall_true. intros c. destruct (ok c) eqn:E; auto. Qed.

(** Every tool's function name is of letters a-z, digits and single
    underscores, none at either end; an edge's is of letters, digits and
    underscores, one character for each of its lower-cased label. *)
Theorem function_names (s : bytes) :
  Forall (fun c => func_char c = true) (FunctionName s) /\
  (forall l1 l2, FunctionName s <> l1 ++ 95 :: 95 :: l2) /\
  (forall r, FunctionName s <> 95 :: r /\ FunctionName s <> r ++ [95]) /\
  Forall (fun c => func_char c = true) (EdgeFunctionName s) /\
  length (EdgeFunctionName s) = length (runes (ToLowerString s)).
Proof.
  unfold FunctionName, EdgeFunctionName.
  destruct (collapse_spec (underscored func_char s)) as (H1 & H2 & _).
  destruct (trim_spec (collapse (underscored func_char s))) as (u & v & Hs & Hf & Hb).
  split_and!.
  - assert (H : Forall (fun c => func_char c = true) (collapse (underscored func_char s))).
    { apply H2. eapply Forall_impl; [apply underscored_chars|]. by intros c [?| ->]. }
    rewrite Hs in H. apply Forall_app in H as [_ H]. by apply Forall_app in H as [H _].
  - intros l1 l2 H. rewrite Hs, H in H1. apply (H1 (u ++ l1) (l2 ++ v)). by rewrite <- !app_assoc.
  - intros r. split; [apply Hf|apply Hb].
  - eapply Forall_impl; [apply underscored_chars|]. intros c [H| ->]; [|done]. unfold func_char. by rewrite H.
  - unfold underscored. by rewrite length_map.
Qed.
End names.

(** ** The graph *)

Section graph.
Variable decodeCredential : bytes -> option (list (bytes * bytes)).
Variable decodeConfig : bytes -> option toolConfig.
Context `{U : Unicode}.
Variable ToUpper : bytes -> bytes.
Variable render : bytes -> bytes.
Variable wf : workflowJSON.
Variable rows : list ToolRow.
Variable clips : clipSet.

(** The stored nodes that make steps; where the one an id names is (the last
    of that id); the start nodes among them. *)
Definition live (ns : list storedNode) : list storedNode := List.filter (fun n => negb (bool_decide (n_Type n = globalNodeType))) ns.
Fixpoint place_from (k : nat) (ns : list storedNode) (id : bytes) : option nat :=
  match ns with
  | [] => None
  | n :: r => match place_from (S k) r id with Some i => Some i | None => if bool_decide (n_ID n = id) then Some k else None end
  end.
Definition place (ns : list storedNode) (id : bytes) : option nat := place_from 0 ns id.
Fixpoint starts_from (k : nat) (ns : list storedNode) : list nat :=
  match ns with [] => [] | n :: r => (if d_IsStart (n_Data n) then [k] else []) ++ starts_from (S k) r end.
Definition starts (ns : list storedNode) : list nat := starts_from 0 ns.

(** The node a stored one becomes, and the edges that leave it. *)
Definition tools_built : list (bytes * built) := (buildTools decodeCredential decodeConfig ToUpper rows clips).1.
Definition step_of (n : storedNode) : node :=
  let nd := buildNode render (globalPrompt render wf) rows tools_built clips n in
  if d_IsStart (n_Data n) then (greet render clips (n_Data n) nd).1 else nd.
Definition edges_of (ns : list storedNode) (es : list storedEdge) (i : nat) : list edge :=
  omap (fun e => if bool_decide (place ns (e_Source e) = Some i)
                 then match place ns (e_Target e) with Some j => Some (buildEdge render clips e j).1 | None => None end
                 else None) es.
Definition with_edges (ns : list storedNode) (es : list storedEdge) (i : nat) (n : node) : node := n <| b_Edges := edges_of ns es i |>.

Lemma place_from_app k a n id :
  place_from k (a ++ [n]) id = if bool_decide (n_ID n = id) then Some (k + length a)%nat else place_from k a id.
Proof.
  revert k. induction a as [|x a IH]; intros k; cbn [app place_from length].
  - rewrite Nat.add_0_r. by case_bool_decide.
  - rewrite IH. case_bool_decide; [f_equal; lia|done].
Qed.

Lemma place_lt ns id i : place ns id = Some i -> (i < length ns)%nat.
Proof.
  unfold place. induction ns as [|n ns IH] using rev_ind; [done|]. rewrite place_from_app, length_app. simpl.
  case_bool_decide; [intros [= <-]; lia|]. intros Hi%IH. lia.
Qed.

Lemma starts_from_app k a n : starts_from k (a ++ [n]) = starts_from k a ++ if d_IsStart (n_Data n) then [(k + length a)%nat] else [].
Proof.
  revert k. induction a as [|x a IH]; intros k; cbn [app starts_from length].
  - by rewrite Nat.add_0_r, app_nil_r.
  - rewrite IH, app_assoc. by replace (S k + length a)%nat with (k + S (length a))%nat by lia.
Qed.

Lemma node_at_put k i ids id : node_at (put k i ids) id = if bool_decide (k = id) then Some i else node_at ids id.
Proof.
  unfold node_at. induction ids as [|[k' j] ids IH]; simpl; [by case_bool_decide|].
  destruct (decide (k' = k)) as [->|Hk].
  - rewrite (bool_decide_eq_true_2 (k = k)) by done. simpl. by case_bool_decide.
  - rewrite (bool_decide_eq_false_2 (k' = k)) by done. simpl. destruct (decide (k' = id)) as [->|Hi].
    + rewrite (bool_decide_eq_true_2 (id = id)) by done. by rewrite bool_decide_eq_false_2.
    + rewrite (bool_decide_eq_false_2 (k' = id)) by done. apply IH.
Qed.

Lemma starts_from_more k a l : exists m, starts_from k (a ++ l) = starts_from k a ++ m.
Proof. revert k. induction a as [|x a IH]; intros k; [by eexists|]. cbn [app starts_from]. destruct (IH (S k)) as [m ->]. eexists. by rewrite app_assoc. Qed.

(** Building, once the steps of [prev] are. *)
Record good (prev : list storedNode) (b : building) : Prop := {
  g_list : list_ b = map step_of prev;
  g_ids : forall id, node_at (byNodeID b) id = place prev id;
  g_start : starts prev = match start b with Some i => [i] | None => [] end;
}.

Lemma addNodes_good ns prev b :
  good prev b ->
  match addNodes render (globalPrompt render wf) rows tools_built clips b ns with
  | Ok b' => good (prev ++ live ns) b'
  | Err e => e = TwoStarts /\ (2 <= length (starts (prev ++ live ns)))%nat
  end.
Proof.
  revert prev b. induction ns as [|n ns IH]; intros prev b Hb; cbn [addNodes]; [by rewrite app_nil_r|].
  unfold addNode, live. cbn [List.filter]. case_bool_decide as Hg; cbn [negb]; [by apply IH|].
  fold (live ns). destruct Hb as [Hl Hi Hs].
  assert (Hids : forall id, node_at (put (n_ID n) (length (list_ b)) (byNodeID b)) id = place (prev ++ [n]) id).
  { intros id. rewrite node_at_put, Hi, Hl, length_map. unfold place. by rewrite place_from_app. }
  assert (Hst : starts (prev ++ [n]) = starts prev ++ if d_IsStart (n_Data n) then [length prev] else [])
    by (unfold starts; by rewrite starts_from_app).
  replace (prev ++ n :: live ns) with ((prev ++ [n]) ++ live ns) by by rewrite <- app_assoc.
  assert (Hlist : forall nd, nd = step_of n -> list_ b ++ [nd] = map step_of (prev ++ [n])) by (intros nd ->; by rewrite map_app, Hl).
  unfold step_of in Hlist. destruct (d_IsStart (n_Data n)).
  - destruct (start b) as [i|] eqn:Hsb.
    + split; [done|]. unfold starts. destruct (starts_from_more 0 (prev ++ [n]) (live ns)) as [m ->].
      fold (starts (prev ++ [n])). rewrite Hst, Hs, !length_app. simpl. lia.
    + destruct (greet render clips (n_Data n) _) as [nd w] eqn:Hgr. apply IH. split; [apply Hlist; by rewrite ?Hgr|done|].
      simpl. by rewrite Hst, Hs, Hl, length_map.
  - apply IH. split; [by apply Hlist|done|]. simpl. by rewrite Hst, Hs, app_nil_r.
Qed.

(** Linking, once the edges of [prev] are. *)
Definition linked (ns : list storedNode) (prev : list storedEdge) (l : list node) : Prop :=
  l = imap (with_edges ns prev) (map step_of ns).

Lemma step_of_edges n : b_Edges (step_of n) = [].
Proof.
  unfold step_of. destruct (d_IsStart _); [|done]. unfold greet. case_bool_decide; [by destruct (clip_pk _ _)|].
  by destruct (negb _).
Qed.

Lemma linked_none ns : linked ns [] (map step_of ns).
Proof.
  unfold linked. apply list_eq. intros m. rewrite list_lookup_imap. destruct (map step_of ns !! m) as [n|] eqn:Hm; [|done].
  simpl. f_equal. apply list_lookup_fmap_Some in Hm as (st & -> & _). unfold with_edges, edges_of. simpl.
  pose proof (step_of_edges st) as He. destruct (step_of st). simpl in He. by subst.
Qed.

Lemma addEdges_linked ns ids es prev l w :
  (forall id, node_at ids id = place ns id) -> linked ns prev l ->
  match addEdges render clips ids l w es with
  | Ok (l', _) => linked ns (prev ++ es) l' /\
      Forall (fun e => is_Some (place ns (e_Source e)) /\ is_Some (place ns (e_Target e))) es
  | Err x => exists e, e ∈ es /\ x = UnknownNodes (e_Label e) (e_Source e) (e_Target e) /\
      (place ns (e_Source e) = None \/ place ns (e_Target e) = None)
  end.
Proof.
  intros Hids. revert prev l w. induction es as [|e es IH]; intros prev l w Hl; cbn [addEdges]; [by rewrite app_nil_r|].
  unfold addEdge. rewrite !Hids.
  destruct (place ns (e_Source e)) as [i|] eqn:Hi; [|exists e; split; [by left|]; auto].
  destruct (place ns (e_Target e)) as [j|] eqn:Hj; [|exists e; split; [by left|]; auto].
  assert (Hlt : (i < length ns)%nat) by by eapply place_lt.
  destruct (l !! i) as [from|] eqn:Hfrom.
  2:{ apply lookup_ge_None in Hfrom. rewrite Hl, length_imap, length_map in Hfrom. lia. }
  destruct (buildEdge render clips e j) as [ed we] eqn:Hed.
  assert (Hl' : linked ns (prev ++ [e]) (<[i := from <| b_Edges ::= fun x => x ++ [ed] |>]> l)).
  { unfold linked in *. subst l. apply list_eq. intros m. rewrite list_lookup_imap in Hfrom.
    rewrite list_lookup_imap. destruct (decide (i = m)) as [<-|Hne].
    - rewrite list_lookup_insert_eq by (rewrite length_imap, length_map; lia).
      destruct (map step_of ns !! i) as [n|]; [|done]. simpl in *. injection Hfrom as <-. f_equal.
      unfold with_edges, edges_of. rewrite omap_app. cbn [omap list_omap]. rewrite bool_decide_eq_true_2 by done. by rewrite Hj, Hed.
    - rewrite list_lookup_insert_ne, list_lookup_imap by done. destruct (map step_of ns !! m) as [n|]; [|done]. simpl. f_equal.
      unfold with_edges, edges_of. rewrite omap_app. cbn [omap list_omap]. rewrite bool_decide_eq_false_2 by congruence.
      by rewrite app_nil_r. }
  specialize (IH _ _ (w ++ sharedNames from e ++ we) Hl'). rewrite <- app_assoc in IH. cbn [app] in IH.
  destruct (addEdges _ _ _ _ _ _) as [[l' w']|x].
  - destruct IH as [H1 H2]. split; [done|]. constructor; [|done]. rewrite Hi, Hj. eauto.
  - destruct IH as (e' & He & Hx & Hp). exists e'. split; [by right|done].
Qed.

(** C26: a workflow loads exactly when one of its steps is the start and every
    edge joins two of them, and then it is the stored graph: the steps in order,
    each with the edges that leave it in order, an id naming the last step that
    has it. Otherwise the error says which: two starts, none, or the edge. *)
Theorem buildWorkflow_graph :
  let ns := live (Nodes wf) in
  match buildWorkflow decodeCredential decodeConfig ToUpper render wf rows clips with
  | Err TwoStarts => (2 <= length (starts ns))%nat
  | Err NoStart => starts ns = []
  | Err (UnknownNodes label source target) =>
      length (starts ns) = 1%nat /\
      exists e, e ∈ StoredEdges wf /\ label = e_Label e /\ source = e_Source e /\ target = e_Target e /\
        (place ns source = None \/ place ns target = None)
  | Ok (built, s, _) =>
      starts ns = [s] /\
      Forall (fun e => is_Some (place ns (e_Source e)) /\ is_Some (place ns (e_Target e))) (StoredEdges wf) /\
      built = imap (with_edges ns (StoredEdges wf)) (map step_of ns)
  end.
Proof.
  intros ns. unfold buildWorkflow. destruct (buildTools _ _ _ _ _) as [ts w] eqn:Hts.
  assert (ts = tools_built) as -> by (unfold tools_built; by rewrite Hts).
  pose proof (addNodes_good (Nodes wf) [] (mkBuilding [] [] None w)) as H. fold ns in H. cbn [app] in H.
  destruct (addNodes _ _ _ _ _ _ _) as [b|x]; [|by destruct H as [-> H]; [by split|]].
  destruct H as [Hl Hi Hs]; [by split|]. destruct (start b) as [s|]; [|done].
  pose proof (addEdges_linked ns (byNodeID b) (StoredEdges wf) [] (list_ b) (notes b) Hi) as H.
  destruct (addEdges _ _ _ _ _ _) as [[l' w']|x].
  - destruct H as [H1 H2]; [rewrite Hl; apply linked_none|]. by split_and!.
  - destruct H as (e & He & -> & Hp); [rewrite Hl; apply linked_none|]. split; [by rewrite Hs|by exists e].
Qed.
End graph.

(** ** Examples *)

Example names :
  map (FunctionName (U := ascii_deva)) [bs "Transfer Call to Support Team"; bs "__get -- weather!"; bs "टूल"] =
  [bs "transfer_call_to_support_team"; bs "get_weather"; []] /\
  EdgeFunctionName (U := ascii_deva) (bs "Move to Main Agenda") = bs "move_to_main_agenda".
Proof. by vm_compute. Qed.

Definition step_data (name : bytes) (is_start : bool) : nodeData :=
  mkData name (bs "Ask {{x}}") is_start false true None [] [] [] 0 false [] [].
Definition two_ways : workflowJSON :=
  mkWorkflow [mkStored (bs "1") (bs "startCall") (step_data (bs "start") true); mkStored (bs "2") (bs "agentNode") (step_data (bs "a") false);
              mkStored (bs "g") globalNodeType (step_data (bs "global") false); mkStored (bs "3") (bs "agentNode") (step_data (bs "b") false)]
    [mkStoredEdge (bs "1") (bs "2") (bs "हाँ") [] [] [] 0; mkStoredEdge (bs "1") (bs "3") (bs "नहीं") [] [] [] 0;
     mkStoredEdge (bs "1") (bs "3") (bs "ठीक") [] [] [] 0].
Definition load_two : result (list node * nat * list note) buildError :=
  buildWorkflow (U := ascii_deva) (fun _ => None) (fun _ => None) id id two_ways [] (mkClips [] [] false).

(** Two labels of as many Devanagari characters make one function name: the
    second edge cannot be taken, and no note says so. *)
Example shadowed_edge :
  match load_two with
  | Ok ([n; _; _], s, ws) =>
      map (fun e => (b_EdgeName e, b_To e)) (b_Edges n) = [(bs "___", 1%nat); (bs "____", 2%nat); (bs "___", 2%nat)] /\
      (edge_To <$> node_edge (agent_node n) (bs "___")) = Some 1 /\ s = 0%nat /\ ws = []
  | _ => False
  end.
Proof. by vm_compute. Qed.
