(* ===== verification/SttGate.v ===== *)
(** [internal/ai/agent/sttgate.go]: sending the STT only the caller's speech,
    with a ring buffer of pre-roll frames. *)

From S2P Require Import Prelude Text.

Local Open Scope Z_scope.

Module STTGate.

Definition ms : Z := 1000000.
Definition second : Z := 1000 * ms.
Definition gateFrameDur : Z := 20 * ms.
Definition gateBytesPerSecond : Z := 32000.
Definition gateKeepalive : Z := 20 * second.
Definition gateKeepaliveChunk : Z := 100 * ms.
Definition gateVoicedWindow : Z := 100 * ms.
Definition FrameSize : Z := 640.

(** [gateWhy]. *)
Inductive gateWhy := gateQuiet | gateVAD | gateRMS.

#[global] Instance gateWhy_dec : EqDecision gateWhy.
Proof. solve_decision. Defined.

(** [STTGateConfig] without [Enabled]. *)
Record config := mkConfig { Preroll : Z; Hangover : Z; RMSFloor : Z }.

(** [sttGate]. Times are nanoseconds; [None] is the zero [time.Time]. The
    frames handed to [feed] are the output log. *)
Record t := mk {
  hangover : Z;
  ring : list bytes; head : Z; count : Z;
  opened : bool; lastVoiced : option Z; lastSent : Z;
  silence : bytes; sent : Z;
}.

#[global] Instance eta_t : Eta t := fun g =>
  mk (hangover g) (ring g) (head g) (count g) (opened g) (lastVoiced g) (lastSent g)
     (silence g) (sent g).

Definition newSTTGate (cfg : config) (now : Z) : t :=
  let frames := Z.max 1 (Z.quot (Preroll cfg) gateFrameDur) in
  mk (Hangover cfg) (replicate (Z.to_nat frames) []) 0 0 false None now
     (replicate (Z.to_nat (Z.quot gateKeepaliveChunk gateFrameDur * FrameSize)) 0) 0.

Section gate.
(** [feed]'s answer, as a function of what was sent before and the frame. *)
Context {E : Type} (feed : Z -> bytes -> option E).

Definition act (A : Type) : Type := M t bytes A.

Definition send (pcm : bytes) (now : Z) : act (option E) :=
  (let! g := mread in
   mmod (fun g => g <| sent ::= Z.add (Z.of_nat (length pcm)) |> <| lastSent := now |>) ;;
   memit pcm ;;
   mret (feed (sent g) pcm))%m.

Definition len (g : t) : Z := Z.of_nat (length (ring g)).

Definition push (pcm : bytes) : act unit :=
  mmod (fun g => g <| ring ::= <[Z.to_nat (head g) := pcm]> |>
                   <| head := (head g + 1) mod len g |>
                   <| count := Z.min (count g + 1) (len g) |>).

Definition orelse (a b : option E) : option E := match a with Some _ => a | None => b end.

(** The loop of [sendPreroll], from index [i], [left] frames to go. *)
Fixpoint preroll_loop (left : nat) (i : Z) (first : option E) (now : Z) : act (option E) :=
  match left with
  | O => mret first
  | S k =>
      (let! g := mread in
       let idx := Z.rem (head g - count g + i + len g) (len g) in
       let! e := send (default [] (ring g !! Z.to_nat idx)) now in
       preroll_loop k (i + 1) (orelse first e) now)%m
  end.

Definition sendPreroll (now : Z) : act (option E) :=
  (let! g := mread in
   let! first := preroll_loop (Z.to_nat (count g)) 0 None now in
   mmod (fun g => g <| count := 0 |>) ;;
   mret first)%m.

(** [now.Sub(g.lastVoiced) > g.hangover]; the zero time is longer ago than any
    hangover ([Sub] saturates). *)
Definition hung (g : t) (now : Z) : bool :=
  match lastVoiced g with None => true | Some v => hangover g <? now - v end.

(** [sttGate.frame]. *)
Definition frame (pcm : bytes) (why : gateWhy) (now : Z) : act (option E) :=
  (let voiced := negb (bool_decide (why = gateQuiet)) in
   mwhen voiced (mmod (fun g => g <| lastVoiced := Some now |>)) ;;
   let! g := mread in
   mwhen (opened g && hung g now) (mmod (fun g => g <| opened := false |>)) ;;
   let! g := mread in
   if opened g then send pcm now
   else if voiced then
     mmod (fun g => g <| opened := true |>) ;;
     let! err := sendPreroll now in
     let! e := send pcm now in
     mret (orelse err e)
   else
     push pcm ;;
     let! g := mread in
     if gateKeepalive <=? now - lastSent g then send (silence g) now else mret None)%m.

(** *** The ring as a queue *)

Record wf (g : t) : Prop := {
  wf_ring : ring g <> [];
  wf_head : 0 <= head g < len g;
  wf_count : 0 <= count g <= len g;
}.

Definition slot (g : t) (i : nat) : nat :=
  Z.to_nat (Z.rem (head g - count g + Z.of_nat i + len g) (len g)).

(** The frames kept, oldest first. *)
Definition kept (g : t) : list bytes :=
  map (fun i => default [] (ring g !! slot g i)) (seq 0 (Z.to_nat (count g))).

(** The newest [n] elements. *)
Definition lastn {A} (n : nat) (l : list A) : list A := drop (length l - n) l.

Lemma slot_mod g i : wf g -> (i < Z.to_nat (count g))%nat ->
  slot g i = Z.to_nat ((head g - count g + Z.of_nat i) mod len g).
Proof.
  intros [_ Hh Hc] Hi. unfold slot. rewrite Z.rem_mod_nonneg by lia.
  f_equal. rewrite <- (Z_mod_plus_full (head g - count g + Z.of_nat i) 1 (len g)). f_equal. lia.
Qed.

Lemma push_ring g pcm :
  mstate (push pcm) g = mk (hangover g) (<[Z.to_nat (head g) := pcm]> (ring g))
    ((head g + 1) mod len g) (Z.min (count g + 1) (len g)) (opened g) (lastVoiced g)
    (lastSent g) (silence g) (sent g).
Proof. reflexivity. Qed.

Lemma push_wf g pcm : wf g -> wf (mstate (push pcm) g).
Proof.
  intros [Hr Hh Hc]. rewrite push_ring. split; unfold len in *; simpl; rewrite ?length_insert.
  - intros Hn. apply (f_equal length) in Hn. rewrite length_insert in Hn. by destruct (ring g).
  - apply Z.mod_pos_bound. lia.
  - lia.
Qed.

Lemma kept_lookup g i : (i < Z.to_nat (count g))%nat ->
  kept g !! i = Some (default [] (ring g !! slot g i)).
Proof.
  intros Hi. unfold kept. rewrite list_lookup_fmap, lookup_seq_lt by done. done.
Qed.

Lemma kept_length g : length (kept g) = Z.to_nat (count g).
Proof. unfold kept. by rewrite length_map, length_seq. Qed.

(** Distances below the ring's size reach distinct slots. *)
Lemma mod_distinct a b n : 0 < n -> 0 < b - a < n -> a mod n <> b mod n.
Proof.
  intros Hn Hd He. pose proof (Z.div_mod a n). pose proof (Z.div_mod b n).
  assert (b - a = n * (b / n - a / n)) by lia. assert (b / n - a / n <= 0 \/ 1 <= b / n - a / n) by lia.
  nia.
Qed.

Lemma push_kept g pcm :
  wf g -> kept (mstate (push pcm) g) = lastn (length (ring g)) (kept g ++ [pcm]).
Proof.
  intros Hwf. pose proof (push_wf g pcm Hwf) as Hwf'. pose proof Hwf as [Hr Hh Hc].
  assert (0 < len g) as Hn by lia.
  assert (len (mstate (push pcm) g) = len g) as Hlen
    by (rewrite push_ring; unfold len; simpl; by rewrite length_insert).
  assert (Hcnt : count (mstate (push pcm) g) = Z.min (count g + 1) (len g)) by (by rewrite push_ring).
  apply list_eq_same_length with (n := Z.to_nat (count (mstate (push pcm) g))).
  { unfold lastn. rewrite length_drop, length_app, kept_length, Hcnt. unfold len in *. simpl. lia. }
  { apply kept_length. }
  intros i x y Hi. rewrite kept_lookup by done. unfold lastn.
  rewrite lookup_drop, length_app, kept_length, slot_mod by done.
  rewrite Hlen, Hcnt in *. rewrite push_ring. simpl.
  set (skip := (Z.to_nat (count g) + 1 - length (ring g))%nat).
  assert (Z.of_nat skip + Z.min (count g + 1) (len g) = count g + 1) as Hskip by (unfold skip, len in *; lia).
  assert (((head g + 1) mod len g - Z.min (count g + 1) (len g) + Z.of_nat i) mod len g =
          (head g - count g + Z.of_nat (skip + i)) mod len g) as ->.
  { replace ((head g + 1) mod len g - Z.min (count g + 1) (len g) + Z.of_nat i)
      with ((head g + 1) mod len g + (Z.of_nat i - Z.min (count g + 1) (len g))) by lia.
    rewrite Zplus_mod_idemp_l. f_equal. lia. }
  destruct (decide (skip + i = Z.to_nat (count g))%nat) as [Hs|Hs].
  - rewrite lookup_app_r by (rewrite kept_length; lia).
    rewrite kept_length, Hs, Nat.sub_diag. simpl.
    replace (head g - count g + Z.of_nat (Z.to_nat (count g))) with (head g) by lia.
    rewrite Z.mod_small, list_lookup_insert_eq by (unfold len in *; lia). simpl. congruence.
  - rewrite lookup_app_l by (rewrite kept_length; lia).
    rewrite kept_lookup, slot_mod by (done || lia).
    rewrite list_lookup_insert_ne; [congruence|].
    intros Heq. apply Z2Nat.inj in Heq; [|lia|apply Z.mod_pos_bound; lia].
    rewrite <- (Z.mod_small (head g) (len g)) in Heq at 1 by lia. symmetry in Heq.
    revert Heq. apply mod_distinct; lia.
Qed.

(** *** What the gate promises: a bounded queue of frames *)

(** The first of [feed]'s errors on the frames [l], [n] bytes having been sent. *)
Fixpoint feed_all (n : Z) (l : list bytes) : option E :=
  match l with
  | [] => None
  | p :: r => orelse (feed n p) (feed_all (n + Z.of_nat (length p)) r)
  end.

Definition bytes_of (l : list bytes) : Z := Z.of_nat (length (concat l)).

Record spec := mkSpec {
  queue : list bytes; s_open : bool; s_voiced : option Z; s_last : Z; s_sent : Z;
}.

(** [n] frames of pre-roll, [hang] of hangover, the keepalive chunk [sil]. *)
Definition spec_frame (n : nat) (hang : Z) (sil pcm : bytes) (why : gateWhy) (now : Z) (s : spec) :
    option E * spec * list bytes :=
  let speech := negb (bool_decide (why = gateQuiet)) in
  let lv := if speech then Some now else s_voiced s in
  let live := s_open s && match lv with None => false | Some v => now - v <=? hang end in
  if live || speech then
    let out := (if live then [] else queue s) ++ [pcm] in
    (feed_all (s_sent s) out,
     mkSpec (if live then queue s else []) true lv now (s_sent s + bytes_of out), out)
  else
    let q := lastn n (queue s ++ [pcm]) in
    if gateKeepalive <=? now - s_last s
    then (feed_all (s_sent s) [sil], mkSpec q false lv now (s_sent s + bytes_of [sil]), [sil])
    else (None, mkSpec q false lv (s_last s) (s_sent s), []).

(** The frames of a run: answers and what was sent. *)
Fixpoint spec_run (n : nat) (hang : Z) (sil : bytes) (l : list (bytes * gateWhy * Z)) (s : spec) :
    list (option E) * list (list bytes) :=
  match l with
  | [] => ([], [])
  | (pcm, why, now) :: r =>
      let '(e, s', w) := spec_frame n hang sil pcm why now s in
      let '(es, ws) := spec_run n hang sil r s' in (e :: es, w :: ws)
  end.

Fixpoint gate_run (l : list (bytes * gateWhy * Z)) (g : t) :
    list (option E) * list (list bytes) :=
  match l with
  | [] => ([], [])
  | (pcm, why, now) :: r =>
      let '(e, g', w) := frame pcm why now g in
      let '(es, ws) := gate_run r g' in (e :: es, w :: ws)
  end.

Definition abs (g : t) : spec := mkSpec (kept g) (opened g) (lastVoiced g) (lastSent g) (sent g).

Definition sent_to (g : t) (now : Z) (l : list bytes) : t :=
  mk (hangover g) (ring g) (head g) (count g) (opened g) (lastVoiced g)
     (match l with [] => lastSent g | _ => now end) (silence g) (sent g + bytes_of l).

Lemma sent_to_nil g now : sent_to g now [] = g.
Proof. destruct g. unfold sent_to, bytes_of. simpl. by rewrite Z.add_0_r. Qed.

Lemma bytes_of_cons p l : bytes_of (p :: l) = Z.of_nat (length p) + bytes_of l.
Proof. unfold bytes_of. simpl. rewrite length_app. lia. Qed.

Lemma sent_to_cons g now p l : sent_to (sent_to g now [p]) now l = sent_to g now (p :: l).
Proof.
  unfold sent_to. simpl. rewrite !bytes_of_cons, Z.add_0_r, <- Z.add_assoc. by destruct l.
Qed.

Lemma send_eq p now g : send p now g = (feed (sent g) p, sent_to g now [p], [p]).
Proof.
  unfold send, sent_to. open_m. rewrite bytes_of_cons, Z.add_0_r. by rewrite (Z.add_comm (sent g)).
Qed.

Lemma orelse_assoc a b c : orelse (orelse a b) c = orelse a (orelse b c).
Proof. by destruct a. Qed.

Lemma preroll_loop_eq k i first now g :
  let l := map (fun j => default [] (ring g !! slot g j)) (seq i k) in
  preroll_loop k (Z.of_nat i) first now g = (orelse first (feed_all (sent g) l), sent_to g now l, l).
Proof.
  simpl. revert i first g. induction k as [|k IH]; intros i first g.
  { simpl. unfold mret. rewrite sent_to_nil. by destruct first. }
  simpl. unfold mseq, mread. rewrite send_eq.
  replace (Z.of_nat i + 1) with (Z.of_nat (S i)) by lia. rewrite IH.
  rewrite sent_to_cons, orelse_assoc. simpl. rewrite bytes_of_cons, Z.add_0_r. done.
Qed.

Lemma sendPreroll_eq now g :
  sendPreroll now g = (feed_all (sent g) (kept g), (sent_to g now (kept g)) <| count := 0 |>, kept g).
Proof.
  unfold sendPreroll, mseq, mread. rewrite (preroll_loop_eq _ 0).
  unfold mmod, mret. simpl. by rewrite !app_nil_r.
Qed.

Lemma feed_all_snoc n l p :
  feed_all n (l ++ [p]) = orelse (feed_all n l) (feed (n + bytes_of l) p).
Proof.
  revert n. induction l as [|q l IH]; intros n; simpl.
  - rewrite Z.add_0_r. by destruct (feed n p).
  - rewrite IH, bytes_of_cons, Z.add_assoc. by rewrite orelse_assoc.
Qed.

Lemma bytes_of_snoc l p : bytes_of (l ++ [p]) = bytes_of l + Z.of_nat (length p).
Proof. unfold bytes_of. rewrite concat_app, length_app. simpl. rewrite app_nil_r. lia. Qed.

Lemma kept_empty g : wf g -> kept (g <| count := 0 |>) = [] /\ wf (g <| count := 0 |>).
Proof. intros [Hr Hh Hc]. split; [done|]. by split; unfold len in *; simpl; try lia. Qed.

Lemma wf_sent g now l : wf g -> wf (sent_to g now l).
Proof. by intros [Hr Hh Hc]; split. Qed.

(** One frame of the gate is one frame of the specification. *)
Lemma frame_refines g pcm why now e g' w :
  wf g -> frame pcm why now g = (e, g', w) ->
  wf g' /\ hangover g' = hangover g /\ silence g' = silence g /\
  length (ring g') = length (ring g) /\
  spec_frame (length (ring g)) (hangover g) (silence g) pcm why now (abs g) = (e, abs g', w).
Proof.
  intros Hwf. unfold frame, spec_frame.
  set (speech := negb (bool_decide (why = gateQuiet))).
  set (lv := if speech then Some now else s_voiced (abs g)).
  set (g1 := mk (hangover g) (ring g) (head g) (count g) (opened g) lv (lastSent g) (silence g) (sent g)).
  assert (mwhen (W := bytes) speech (mmod (fun g => g <| lastVoiced := Some now |>)) g = (tt, g1, []))
    as H1 by (unfold g1, lv; destruct speech; [done|by destruct g]).
  unfold mseq at 1. rewrite H1. simpl. clearbody speech.
  set (live := opened g && match lv with None => false | Some v => now - v <=? hangover g end).
  set (g2 := mk (hangover g) (ring g) (head g) (count g) live lv (lastSent g) (silence g) (sent g)).
  unfold mseq at 1, mread at 1.
  assert (mwhen (W := bytes) (opened g1 && hung g1 now) (mmod (fun g => g <| opened := false |>)) g1 =
    (tt, g2, [])) as H2.
  { unfold g2, live, g1, hung. simpl. destruct (opened g); simpl; [|done].
    destruct lv as [v|]; [|done]. rewrite Z.leb_antisym. by destruct (hangover g <? now - v). }
  unfold mseq at 1. rewrite H2. simpl.
  assert (wf g2) as Hwf2 by (by destruct Hwf; split).
  assert (kept g2 = kept g) as Hk by done.
  unfold mseq at 1, mread at 1. change (opened g2) with live. clearbody live.
  destruct live; [rewrite send_eq|destruct speech]; simpl orb; cbv iota.
  - intros [= <- <- <-]. split_and!; try done; [by apply wf_sent|]. unfold abs, sent_to. simpl.
    destruct (feed (sent g) pcm); done.
  - unfold mseq, mmod. rewrite sendPreroll_eq, send_eq. intros [= <- <- <-]. simpl.
    change (kept (g2 <| opened := true |>)) with (kept g).
    split_and!; try done.
    + apply wf_sent, kept_empty, wf_sent. by destruct Hwf; split.
    + rewrite feed_all_snoc, bytes_of_snoc. unfold abs, sent_to. simpl.
      by rewrite bytes_of_cons, Z.add_0_r, Z.add_assoc.
  - unfold mseq at 1. rewrite (m_parts (push pcm)). simpl.
    pose proof (push_wf g2 pcm Hwf2) as Hwf3. pose proof (push_kept g2 pcm Hwf2) as Hk3.
    rewrite push_ring in *. change (kept g2) with (kept g) in Hk3.
    change (ring g2) with (ring g) in Hk3. unfold mseq, mread. simpl.
    destruct (gateKeepalive <=? now - lastSent g); [rewrite send_eq|unfold mret];
      intros [= <- <- <-]; (split; [by try apply wf_sent|]); simpl; rewrite length_insert;
      (split_and!; [done..|]); unfold abs; simpl; rewrite <- Hk3; [|done].
    by destruct (feed (sent g) (silence g)).
Qed.

Lemma gate_run_refines l g :
  wf g ->
  gate_run l g = spec_run (length (ring g)) (hangover g) (silence g) l (abs g).
Proof.
  revert g. induction l as [|[[pcm why] now] l IH]; intros g Hwf; [done|]. simpl.
  destruct (frame pcm why now g) as [[e g'] w] eqn:Ef.
  apply frame_refines in Ef as (Hwf' & Hh & Hs & Hl & ->); [|done].
  by rewrite (IH g' Hwf'), Hh, Hs, Hl.
Qed.

Lemma newSTTGate_wf cfg now : wf (newSTTGate cfg now).
Proof.
  unfold newSTTGate. split; unfold len; simpl; rewrite ?length_replicate; [|lia|lia].
  intros Hn. apply (f_equal length) in Hn. rewrite length_replicate in Hn. simpl in Hn. lia.
Qed.

(** C39: the ring buffer is a bounded queue: over any run of frames, whatever
    the STT answers, the gate answers and sends exactly what the specification
    with a plain list of the newest [Preroll / 20ms] frames (one at least)
    answers and sends. *)
Theorem gate_refines cfg now0 l :
  gate_run l (newSTTGate cfg now0) =
  spec_run (Z.to_nat (Z.max 1 (Z.quot (Preroll cfg) gateFrameDur))) (Hangover cfg)
    (replicate 3200 0) l (mkSpec [] false None now0 0).
Proof.
  rewrite gate_run_refines by apply newSTTGate_wf.
  assert (kept (newSTTGate cfg now0) = []) as Hk by done.
  unfold abs. rewrite Hk. unfold newSTTGate. cbn [ring hangover silence opened lastVoiced lastSent sent].
  by rewrite length_replicate.
Qed.

(** *** What that means for the caller's words *)

Lemma lastn_app {A} n (l k : list A) : lastn n (lastn n l ++ k) = lastn n (l ++ k).
Proof.
  unfold lastn. rewrite !length_app, length_drop.
  destruct (decide (length l <= n)%nat) as [Hl|Hl].
  - replace (length l - n)%nat with 0%nat by lia. rewrite drop_0. f_equal. lia.
  - rewrite <- (drop_app_le l k) by lia. rewrite drop_drop. f_equal. lia.
Qed.

(** The gate after the quiet frames [qs] (audio and time). *)
Definition listen (g : t) (qs : list (bytes * Z)) : t :=
  foldl (fun g q => mstate (frame q.1 gateQuiet q.2) g) g qs.

Lemma listen_kept qs g :
  wf g -> opened g = false ->
  let g' := listen g qs in
  wf g' /\ opened g' = false /\ length (ring g') = length (ring g) /\
  lastn (length (ring g)) (kept g') = lastn (length (ring g)) (kept g ++ map fst qs).
Proof.
  revert g. induction qs as [|[q tq] qs IH]; intros g Hwf Hop; simpl.
  { by rewrite app_nil_r. }
  pose proof (m_parts (frame q gateQuiet tq) g) as Hf.
  apply frame_refines in Hf as (Hwf' & _ & _ & Hl & Hs); [|done].
  set (g' := mstate (frame q gateQuiet tq) g) in *.
  assert (opened g' = false /\ kept g' = lastn (length (ring g)) (kept g ++ [q])) as [Ho Hk].
  { unfold spec_frame in Hs. simpl in Hs. rewrite Hop in Hs. simpl in Hs.
    case_match; unfold abs in Hs; by injection Hs. }
  destruct (IH g' Hwf' Ho) as (Hw & Hop' & Hl' & Hk'). split_and!; [done|done|congruence|].
  rewrite Hl, Hk, lastn_app, <- app_assoc in Hk'. exact Hk'.
Qed.

(** The first syllable is kept: when speech is noticed after any stretch of
    quiet frames, the STT is sent the newest [Preroll / 20ms] of them (all, if
    there were fewer), oldest first, and then the frame itself. *)
Theorem preroll_sent cfg now0 qs pcm why now :
  why <> gateQuiet ->
  mout (frame pcm why now) (listen (newSTTGate cfg now0) qs) =
    lastn (Z.to_nat (Z.max 1 (Z.quot (Preroll cfg) gateFrameDur))) (map fst qs) ++ [pcm].
Proof.
  intros Hwhy. set (g := newSTTGate cfg now0).
  destruct (listen_kept qs g (newSTTGate_wf cfg now0) eq_refl) as (Hw & Ho & Hl & Hk).
  set (g' := listen g qs) in *.
  pose proof (m_parts (frame pcm why now) g') as Hf.
  apply frame_refines in Hf as (_ & _ & _ & _ & Hs); [|done].
  unfold spec_frame in Hs. rewrite bool_decide_eq_false_2 in Hs by done. simpl in Hs.
  rewrite Ho in Hs. simpl in Hs. injection Hs as _ _ _ _ _ _ <-. f_equal.
  assert (length (ring g) = Z.to_nat (Z.max 1 (Z.quot (Preroll cfg) gateFrameDur))) as <-
    by (apply length_replicate).
  change (lastn (length (ring g)) (kept g') = lastn (length (ring g)) (map fst qs)) in Hk.
  rewrite <- Hk. unfold lastn. rewrite kept_length.
  destruct Hw as [_ _ Hc]. unfold len in Hc. rewrite Hl in Hc.
  replace (Z.to_nat (count g') - length (ring g))%nat with 0%nat by lia. by rewrite drop_0.
Qed.

(** What is billed is what was sent: over any run, the gate's byte counter
    grows by exactly the bytes handed to the STT. *)
Theorem sent_accounts pcm why now g :
  wf g ->
  sent (mstate (frame pcm why now) g) = sent g + bytes_of (mout (frame pcm why now) g).
Proof.
  intros Hwf. pose proof (m_parts (frame pcm why now) g) as Hf.
  apply frame_refines in Hf as (_ & _ & _ & _ & Hs); [|done].
  unfold spec_frame in Hs.
  destruct (_ || _); [|destruct (_ <=? _)]; unfold abs in Hs; injection Hs as _ _ _ _ _ Hsent Hout;
    rewrite <- Hout, <- Hsent; try done; by rewrite Z.add_0_r.
Qed.

End gate.

(** [STTGateConfig.voiced]; [level] is [media.RMS pcm], a parameter here. *)
Definition voiced (c : config) (lastSpeech : option Z) (now : Z) (level : Z) : gateWhy :=
  if match lastSpeech with Some l => now - l <? gateVoicedWindow | None => false end then gateVAD
  else if (0 <? RMSFloor c) && (RMSFloor c <=? level) then gateRMS
  else gateQuiet.

Definition two_frames : config := mkConfig (40 * ms) second 0.

Lemma preroll_sent_witness :
  gateVAD <> gateQuiet /\
  mout (frame (fun _ _ => None (A := unit)) [4] gateVAD 3)
    (listen (fun _ _ => None (A := unit)) (newSTTGate two_frames 0) [([1], 0); ([2], 1); ([3], 2)])
  = [[2]; [3]; [4]].
Proof.
  split; [done|].
  rewrite (preroll_sent (fun _ _ => None) two_frames 0 [([1], 0); ([2], 1); ([3], 2)] [4] gateVAD 3)
    by done.
  reflexivity.
Defined.

Lemma sent_accounts_witness :
  wf (newSTTGate two_frames 0) /\
  sent (mstate (frame (fun _ _ => None (A := unit)) [7; 8] gateRMS 5) (newSTTGate two_frames 0)) =
    0 + bytes_of [[7; 8]].
Proof.
  split; [apply newSTTGate_wf|].
  rewrite (sent_accounts (fun _ _ => None) [7; 8] gateRMS 5 (newSTTGate two_frames 0))
    by apply newSTTGate_wf.
  reflexivity.
Defined.

End STTGate.
