(* ===== verification/AgentState.v ===== *)
(** The state of [internal/ai/agent/handler.go]'s [Handler]: its fields, the
    effects its goroutines have on the outside and what they read from it.

    Every handler below is one atomic step of its goroutine. Log lines
    ([slog]) and values only they print are left out; every call into
    [Config.Sink], [Config.Log], the TTS client, the timers and [Hangup] is an
    effect. Times are nanoseconds; [None] is the zero [time.Time]. *)

From S2P Require Import Prelude Text Workflow.

Local Open Scope Z_scope.

Definition ms : Z := 1000000.
Definition second : Z := 1000 * ms.
Definition FrameSize : Z := 640.

Inductive State := StateListening | StateTranscribing | StateThinking | StateSpeaking.

#[global] Instance State_dec : EqDecision State.
Proof. solve_decision. Defined.

(** [int(30 * time.Second / media.FrameInterval)]. *)
Definition outboundBufferFrames : Z := Z.quot (30 * second) (20 * ms).
Definition speakingDrainTimeoutTicks : Z := 500.
Definition holdMessageWaitTicks : Z := 150.
Definition sttFlushOnsetSlack : Z := 500 * ms.
Definition falseInterruptionTimeout : Z := 2 * second.
Definition falseInterruptionMaxPause : Z := 10 * second.
Definition maxUtteranceAge : Z := 60 * second.

Inductive Role := RSystem | RUser | RAssistant | RTool.

(** [llm.Message]; a tool call keeps its function's name and id. *)
Record Message := mkMessage {
  msg_Role : Role; msg_Content : bytes;
  msg_ToolCalls : list (bytes * bytes); msg_ToolCallID : bytes;
}.

Definition user_msg (c : bytes) : Message := mkMessage RUser c [] [].
Definition assistant_msg (c : bytes) : Message := mkMessage RAssistant c [] [].

Record outFrame := mkFrame { f_pcm : bytes; f_req : Z; f_gen : Z }.
Record spokenChunk := mkChunk { c_req : Z; c_text : bytes }.
Record heldSpeech := mkHeld { h_text : bytes; h_gen : Z; h_at : Z }.

(** [holdPlayer]. *)
Record holdPlayer := mkHold {
  hp_pcm : bytes; hp_loop : bool; hp_wait : bool;
  hp_pos : Z; hp_waited : Z; hp_saw : bool; hp_done : bool;
}.

#[global] Instance eta_hold : Eta holdPlayer := fun p =>
  mkHold (hp_pcm p) (hp_loop p) (hp_wait p) (hp_pos p) (hp_waited p) (hp_saw p) (hp_done p).

Inductive endReason := CallerSilent | MaxDurationReason | EndCallTool.

Inductive stage :=
  | StStt | StTtsOpen | StTtsSpeak | StTtsCancel | StTtsClosed | StTtsDrain | StTtsFull | StLlm.

(** [Config], the parts the handlers read. *)
Record Config := mkConfig {
  hasHangup : bool;
  IdleTimeout : Z; MaxDuration : Z;
  BargeInObserveOnly : bool;
  BargeInGuard : Z; BargeInMinSpeech : Z;
  STTFlushAfter : Z; PostCutSilence : Z;
  AckFilter : bool; AckEndMargin : Z;
  hasClock : bool;   (* [h.clock != nil] *)
}.

(** What the code asks of the outside, all of it output only. *)
Inductive effect :=
  | EBargeIn | EInterruptionPaused | EFalseInterruption | ETurnStarted
  | EError (s : stage)
  | ETTFB (service : Z) (d : Z)          (* 0 stt, 1 llm, 2 tts: Sink and Log *)
  | EUserSaid (text : bytes) (at_ : option Z)
  | EAgentSaid (text : bytes) (at_ : Z)
  | EReplyLatency (d : Z)
  | ESpeechHeld | ESpeechDelivered
  | EEnding (r : endReason)
  | EHangup
  | EStartLLM (gen : Z) (history : list Message) (client : Z)
  | ECancelLLM (gen : Z)
  | EOpenTTS (client : Z) | ECancelTTS (client : Z)
  | ESpeak (text : bytes) (gen : Z) | EPlay (text pcm : bytes) (gen : Z)
  | EEndGeneration (gen : Z)
  | ETTSChars (n : Z)
  | EArmIdle (seq : Z) (after : Z) | EArmResume (seq : Z) (after : Z)
  | EFeedSTT (pcm : bytes) | EFlushSTT
  | EDetect (pcm : bytes) | EDetectReset.

(** What one step reads from the outside: the clock, the local VAD and the
    outcome of the calls it makes. *)
Record env := mkEnv {
  now : Z;
  LastSpeechAt : option Z;
  tts_opens : bool; speak_ok : bool; cancel_ok : bool; feed_ok : bool; flush_ok : bool;
  detected : bool;
}.

(** [Handler]. The three signal channels are booleans (a full one-slot
    channel), [outbound] a bounded queue, [turnCancel] the generation whose
    context is still live, [tts] the number of the connection in use. *)
Record st := mkSt {
  state : State; speakingSince : Z; silenceUntil : Z; ttsDeliveryDone : bool;
  playingReq : Z; playingSince : Z; held : list heldSpeech; toolRunning : bool;
  hold : option holdPlayer; paused : bool;
  sttUttStart : Z; sttUtterance : bool; sttFlushAt : Z;
  replayPending : bool; replayGen : Z; closing : bool; node : Node;
  bargeInSig : bool; playbackDoneSig : bool; drainTimeoutSig : bool;
  tts : option Z; ttsConn : Z; turnCancel : option Z; history : list Message;
  ttsBuf : bytes; curGen : Z; turnStartedAt : Z; ttfaLoggedGen : Z;
  speechEndAt : option Z; turnSpeechEndAt : option Z;
  lastSoundAt : option Z; turnLastSoundAt : option Z;
  prevSpeechEndAt : option Z; agentQuietSince : option Z;
  turnChunks : list spokenChunk; turnToolMsgs : list Message; hangupAfterTurn : bool;
  turn : Z; turnTTFA : Z; turnReplyLatency : Z;
  ttft : option (Z * Z); replyStart : option (Z * Z);
  idleTimer : bool; idleSeq : Z; idleArmed : bool; idleCount : Z;
  ending : bool; endReasonIs : option endReason; hungUp : bool;
  pausedAt : Z; resumeSeq : Z; callerSpeaking : bool;
  speechRunStart : option Z;
  sentGen : Z; sentReq : Z; sentFrames : list bytes; replaying : bool; replayIdx : Z;
  flushedUtt : Z; emptyTicks : Z;
  outbound : list outFrame;
}.

#[global] Instance eta_st : Eta st := fun s => mkSt
  (state s) (speakingSince s) (silenceUntil s) (ttsDeliveryDone s)
  (playingReq s) (playingSince s) (held s) (toolRunning s)
  (hold s) (paused s)
  (sttUttStart s) (sttUtterance s) (sttFlushAt s)
  (replayPending s) (replayGen s) (closing s) (node s)
  (bargeInSig s) (playbackDoneSig s) (drainTimeoutSig s)
  (tts s) (ttsConn s) (turnCancel s) (history s)
  (ttsBuf s) (curGen s) (turnStartedAt s) (ttfaLoggedGen s)
  (speechEndAt s) (turnSpeechEndAt s)
  (lastSoundAt s) (turnLastSoundAt s)
  (prevSpeechEndAt s) (agentQuietSince s)
  (turnChunks s) (turnToolMsgs s) (hangupAfterTurn s)
  (turn s) (turnTTFA s) (turnReplyLatency s)
  (ttft s) (replyStart s)
  (idleTimer s) (idleSeq s) (idleArmed s) (idleCount s)
  (ending s) (endReasonIs s) (hungUp s)
  (pausedAt s) (resumeSeq s) (callerSpeaking s)
  (speechRunStart s)
  (sentGen s) (sentReq s) (sentFrames s) (replaying s) (replayIdx s)
  (flushedUtt s) (emptyTicks s)
  (outbound s).

(** [time.Time] comparisons: the zero time is before every other. *)
Definition after (a b : option Z) : bool :=
  match a, b with
  | None, _ => false
  | Some _, None => true
  | Some x, Some y => y <? x
  end.

Definition is_state (x : State) (s : st) : bool := bool_decide (state s = x).

Definition act (A : Type) : Type := M st effect A.

(** [signal]: a one-slot channel that is already full stays full. *)
Definition upd (f : st -> st) : act unit := mmod f.
Definition emit (e : effect) : act unit := memit e.

(** [NewHandler]: the state before the first event. [Config.Start] is the node. *)
Definition NewHandler (start : Node) : st := mkSt
  StateListening 0 0 false
  0 0 [] false
  None false
  0 false 0
  false 0 false start
  false false false
  None 0 None []
  [] 0 0 0
  None None
  None None
  None None
  [] [] false
  0 0 0
  None None
  false 0 false 0
  false None false
  0 0 false
  None
  0 0 [] false 0
  0 0
  [].
