(* ===== verification/AgentLoop.v ===== *)
(** [internal/ai/agent/handler.go]: the handlers of the event loop [run], one
    definition per method, and the event dispatch. *)

From S2P Require Import Prelude Text Chunker Backchannel Workflow AgentState.

Local Open Scope Z_scope.
Local Open Scope m_scope.

Section loop.
Context `{U : Unicode}.
Variable cfg : Config.

(** *** Recording references in recorded replies *)

(** [\s] of Go's regular expressions. *)
Definition re_space (b : Z) : bool := (b =? 9) || (b =? 10) || (b =? 12) || (b =? 13) || (b =? 32).

Definition RecordingMarker : bytes := [226; 151; 143].

Fixpoint drop_while (f : Z -> bool) (l : bytes) : bytes :=
  match l with
  | [] => []
  | b :: t => if f b then drop_while f t else l
  end.

(** One match of [●\s*(\S+)\s*] at the head: what follows it. *)
Definition ref_at (s : bytes) : option bytes :=
  if HasPrefix s RecordingMarker then
    match drop_while re_space (drop 3 s) with
    | [] => None
    | t => Some (drop_while re_space (drop_while (fun b => negb (re_space b)) t))
    end
  else None.

Fixpoint strip_refs (fuel : nat) (s : bytes) : bytes :=
  match fuel, s with
  | S k, b :: t =>
      match ref_at s with
      | Some r => strip_refs k r
      | None => b :: strip_refs k t
      end
  | _, _ => s
  end.

(** [stripRecordingRefs], the spoken text. *)
Definition stripRecordingRefs (s : bytes) : bytes := TrimSpace (strip_refs (length s) s).

(** *** Timers, ending the call *)

Definition stopIdleTimer : act unit :=
  upd (fun s => s <| idleTimer := false |> <| idleSeq ::= Z.succ |>).

Definition startIdleTimer : act unit :=
  stopIdleTimer ;;
  let! s := mread in
  if (IdleTimeout cfg <=? 0) || ending s then mret tt
  else
    upd (fun s => s <| idleTimer := true |>) ;;
    emit (EArmIdle (idleSeq s) (IdleTimeout cfg)).

Definition hangup : act unit :=
  let! s := mread in
  if hungUp s then mret tt
  else
    upd (fun s => s <| hungUp := true |>) ;;
    mwhen (hasHangup cfg) (emit EHangup).

Definition endCall (reason : endReason) : act unit :=
  upd (fun s => s <| ending := true |> <| endReasonIs := Some reason |> <| closing := true |>) ;;
  stopIdleTimer ;;
  let! s := mread in
  mwhen (is_state StateListening s || is_state StateTranscribing s) hangup.

(** *** Turns *)

Definition startTurnChunks : act unit :=
  upd (fun s => s <| turnChunks := [] |> <| turnToolMsgs := [] |> <| hangupAfterTurn := false |>
                  <| turnTTFA := 0 |> <| turnReplyLatency := 0 |> <| playingReq := 0 |>).

Definition openTTS (e : env) : act bool :=
  let! s := mread in
  match tts s with
  | Some _ => mret true
  | None =>
      if tts_opens e then
        upd (fun s => s <| ttsConn := ttsConn s + 1 |> <| tts := Some (ttsConn s + 1) |>) ;;
        emit (EOpenTTS (ttsConn s + 1)) ;;
        mret true
      else
        emit (EError StTtsOpen) ;;
        upd (fun s => s <| state := StateListening |>) ;;
        mret false
  end.

Definition startTurn (e : env) : act unit :=
  stopIdleTimer ;;
  upd (fun s => s <| state := StateThinking |>) ;;
  emit ETurnStarted ;;
  upd (fun s => s <| curGen ::= Z.succ |> <| turnStartedAt := now e |>
                  <| turnSpeechEndAt := None |> <| turnLastSoundAt := None |>) ;;
  startTurnChunks ;;
  let! ok := openTTS e in
  if ok then
    let! s := mread in
    upd (fun s => s <| turnCancel := Some (curGen s) |>) ;;
    emit (EStartLLM (curGen s) (history s) (default 0 (tts s)))
  else mret tt.

(** [acceptUserTurn]; [flushedAt] is only logged. *)
Definition acceptUserTurn (e : env) (text : bytes) (started speechEnd lastSound : option Z) : act unit :=
  upd (fun s => s <| history := history s ++ [user_msg text] |>) ;;
  emit (EUserSaid text started) ;;
  upd (fun s => s <| turn ::= Z.succ |>) ;;
  match speechEnd with
  | Some t => emit (ETTFB 0 (now e - t))
  | None => mret tt
  end ;;
  upd (fun s => s <| idleCount := 0 |>) ;;
  startTurn e ;;
  upd (fun s => s <| turnSpeechEndAt := speechEnd |> <| turnLastSoundAt := lastSound |>).

(** The loop of [recordReply]: the text so far and its last rune. *)
Fixpoint reply_text (cut : bool) (played : Z) (l : list spokenChunk) (b : bytes) (last : Z) : bytes :=
  match l with
  | [] => b
  | c :: t =>
      if cut && ((played =? 0) || (played <? c_req c)) then b
      else
        let first := (DecodeRune (c_text c)).1 in
        let gap := (sentenceDelimiters last || (last =? 44)) &&
                   negb (first =? RuneError) && negb (IsSpace first) in
        let b' := b ++ (if gap then [32] else []) ++ c_text c in
        let r := (DecodeLastRune (c_text c)).1 in
        reply_text cut played t b' (if r =? RuneError then last else r)
  end.

Definition recordReply (cut : bool) : act unit :=
  let! s := mread in
  let text := TrimSpace (reply_text cut (playingReq s) (turnChunks s) [] 0) in
  upd (fun s => s <| turnChunks := [] |> <| history := history s ++ turnToolMsgs s |>
                  <| turnToolMsgs := [] |>) ;;
  if bool_decide (text = []) then mret tt
  else
    upd (fun s => s <| history := history s ++ [assistant_msg text] |>) ;;
    let spoken := stripRecordingRefs text in
    match ttft s with
    | Some (g, d) => mwhen (g =? curGen s) (emit (ETTFB 1 d))
    | None => mret tt
    end ;;
    mwhen (0 <? turnTTFA s) (emit (ETTFB 2 (turnTTFA s))) ;;
    let started := match replyStart s with
                   | Some (g, t) => if g =? curGen s then t else turnStartedAt s
                   | None => turnStartedAt s
                   end in
    mwhen (negb (bool_decide (spoken = []))) (emit (EAgentSaid spoken started)).

(** *** Held caller speech *)

Definition utteranceStart (e : env) (s : st) : option Z :=
  if sttUttStart s =? 0 then None
  else if now e - sttUttStart s <? maxUtteranceAge then Some (sttUttStart s) else None.

Definition holdSpeech (e : env) (text : bytes) : act unit :=
  let! s := mread in
  let at_ := default (now e) (utteranceStart e s) in
  upd (fun s => s <| held := held s ++ [mkHeld text (curGen s) at_] |>) ;;
  emit ESpeechHeld.

Definition dropHeld : act unit := upd (fun s => s <| held := [] |>).

(** What [settleHeld] keeps: said over reply [gen], not before [from]. *)
Definition answers (gen from : Z) (l : list heldSpeech) : list heldSpeech :=
  base.filter (fun h => (h_gen h =? gen) && (from <=? h_at h) = true) l.

Definition settleHeld (e : env) (gen : Z) : act bool :=
  let! s := mread in
  upd (fun s => s <| held := [] |>) ;;
  let from := playingSince s - AckEndMargin cfg in
  match answers gen from (held s) with
  | [] => mret false
  | h :: _ as l =>
      emit ESpeechDelivered ;;
      acceptUserTurn e (Join (map h_text l) [32]) (Some (h_at h)) None None ;;
      mret true
  end.

(** *** Ending a turn *)

Definition finishTurn (e : env) (gen : Z) : act unit :=
  upd (fun s => if is_state StateSpeaking s || is_state StateThinking s
                then s <| state := StateListening |> else s) ;;
  upd (fun s => s <| agentQuietSince := Some (now e) |>) ;;
  recordReply false ;;
  upd (fun s => s <| ttsBuf := [] |>) ;;
  let! s := mread in
  if hangupAfterTurn s || ending s then
    dropHeld ;;
    upd (fun s => s <| hangupAfterTurn := false |>) ;;
    hangup
  else
    let! delivered := settleHeld e gen in
    if delivered then mret tt
    else
      upd (fun s => s <| idleArmed := true |>) ;;
      startIdleTimer.

Definition cancelTurn : act unit :=
  let! s := mread in
  match turnCancel s with
  | Some g => emit (ECancelLLM g) ;; upd (fun s => s <| turnCancel := None |>)
  | None => mret tt
  end.

(** *** Interruptions *)

Definition cutReply (e : env) : act unit :=
  cancelTurn ;;
  recordReply true ;;
  upd (fun s => s <| curGen ::= Z.succ |> <| agentQuietSince := Some (now e) |>) ;;
  let! s := mread in
  match tts s with
  | Some c =>
      emit (ECancelTTS c) ;;
      mwhen (negb (cancel_ok e)) (emit (EError StTtsCancel)) ;;
      upd (fun s => s <| tts := None |>)
  | None => mret tt
  end ;;
  upd (fun s => s <| ttsBuf := [] |> <| ttsDeliveryDone := false |> <| outbound := [] |>).

Definition confirmInterruption (e : env) : act unit :=
  upd (fun s => s <| resumeSeq ::= Z.succ |> <| state := StateTranscribing |> <| paused := false |>) ;;
  emit EBargeIn ;;
  dropHeld ;;
  cutReply e.

(** [resumeReply]; [false_one] for the reasons "no transcript" and
    "backchannel", which count as a false interruption. *)
Definition resumeReply (false_one : bool) : act unit :=
  upd (fun s => s <| resumeSeq ::= Z.succ |> <| replayGen := curGen s |>
                  <| replayPending := true |> <| paused := false |>) ;;
  mwhen false_one (emit EFalseInterruption).

Definition scheduleResumeCheck (after_ : Z) : act unit :=
  upd (fun s => s <| resumeSeq ::= Z.succ |>) ;;
  let! s := mread in
  emit (EArmResume (resumeSeq s) after_).

Definition handleBargeIn (e : env) : act unit :=
  let! s := mread in
  if paused s then
    upd (fun s => s <| pausedAt := now e |>) ;;
    scheduleResumeCheck falseInterruptionTimeout
  else mret tt.

(** Since when the caller has been quiet, as [handleResumeCheck] works it out. *)
Definition quietSince (e : env) (s : st) : Z :=
  let q := pausedAt s in
  let q := if hasClock cfg && after (LastSpeechAt e) (Some q)
           then default q (LastSpeechAt e) else q in
  let q := if after (prevSpeechEndAt s) (Some q) then default q (prevSpeechEndAt s) else q in
  if callerSpeaking s then now e else q.

Definition handleResumeCheck (e : env) (seq : Z) : act unit :=
  let! s := mread in
  if negb (seq =? resumeSeq s) || negb (paused s) then mret tt
  else
    let paused_for := now e - pausedAt s in
    let wait := falseInterruptionTimeout - (now e - quietSince e s) in
    if (0 <? wait) && (paused_for <? falseInterruptionMaxPause)
    then scheduleResumeCheck (Z.min wait (falseInterruptionMaxPause - paused_for))
    else resumeReply true.

(** *** The STT's events *)

Definition handleFinalTranscript (e : env) (text : bytes) : act unit :=
  let! s0 := mread in
  let speechEnd := speechEndAt s0 in
  let lastSound := lastSoundAt s0 in
  upd (fun s => s <| speechEndAt := None |> <| lastSoundAt := None |> <| sttFlushAt := 0 |>) ;;
  if now e <? silenceUntil s0 then mret tt
  else
    let go_on : act unit :=
      (let! s := mread in
       if is_state StateThinking s || is_state StateSpeaking s then
         mwhen (is_state StateSpeaking s && AckFilter cfg &&
                (negb (BargeInObserveOnly cfg) && negb (closing s) && InterruptMode true (node s)) &&
                negb (junkTranscript text))
               (holdSpeech e text)
       else acceptUserTurn e text (utteranceStart e s) speechEnd lastSound) in
    if paused s0 then
      if junkTranscript text then mret tt
      else if closing s0 then resumeReply false
      else if AckFilter cfg && backchannel text then holdSpeech e text ;; resumeReply true
      else confirmInterruption e ;; go_on
    else go_on.

Definition handleCallerSpeech (e : env) (started : bool) : act unit :=
  upd (fun s => s <| callerSpeaking := started |> <| sttUtterance := started |>) ;;
  if started then
    upd (fun s => s <| sttUttStart := now e |> <| speechEndAt := None |> <| lastSoundAt := None |>) ;;
    stopIdleTimer ;;
    upd (fun s => s <| idleCount := 0 |>)
  else
    upd (fun s => s <| speechEndAt := Some (now e) |> <| lastSoundAt := None |>) ;;
    let! s := mread in
    mwhen (hasClock cfg && after (LastSpeechAt e) (prevSpeechEndAt s) &&
           after (LastSpeechAt e) (agentQuietSince s) && negb (after (LastSpeechAt e) (Some (now e))))
          (upd (fun s => s <| lastSoundAt := LastSpeechAt e |>)) ;;
    upd (fun s => s <| prevSpeechEndAt := Some (now e) |>) ;;
    mwhen (idleArmed s && is_state StateListening s) startIdleTimer.

(** The two instructions of [handleIdle], which the LLM gets as user messages. *)
Definition idleFirstPrompt : bytes :=
  bs "The user has been quiet. Politely and briefly ask if they're still there in the language that the user has been speaking so far."%string.
Definition idleFinalPrompt : bytes :=
  bs "The user has been quiet. We will be disconnecting the call now. Wish them a good day in the language that the user has been speaking so far."%string.

Definition handleIdle (e : env) (seq : Z) : act unit :=
  let! s := mread in
  if negb (seq =? idleSeq s) || ending s || negb (is_state StateListening s) then mret tt
  else
    upd (fun s => s <| idleTimer := false |> <| idleCount ::= Z.succ |>) ;;
    let final := 2 <=? idleCount s + 1 in
    mwhen final
      (upd (fun s => s <| ending := true |> <| endReasonIs := Some CallerSilent |>
                       <| closing := true |>) ;;
       emit (EEnding CallerSilent)) ;;
    upd (fun s => s <| history := history s ++
                       [user_msg (if final then idleFinalPrompt else idleFirstPrompt)] |>) ;;
    startTurn e.

(** *** TTS and LLM events *)

(** The re-slicing loop of [handleTTSAudio]; a full queue drops the frame. *)
Fixpoint queue_frames (fuel : nat) (gen req : Z) : act unit :=
  match fuel with
  | O => mret tt
  | S k =>
      let! s := mread in
      if FrameSize <=? Z.of_nat (length (ttsBuf s)) then
        let frame := take (Z.to_nat FrameSize) (ttsBuf s) in
        upd (fun s => s <| ttsBuf := drop (Z.to_nat FrameSize) (ttsBuf s) |>) ;;
        (if Z.of_nat (length (outbound s)) <? outboundBufferFrames
         then upd (fun s => s <| outbound := outbound s ++ [mkFrame frame req gen] |>)
         else emit (EError StTtsFull)) ;;
        queue_frames k gen req
      else mret tt
  end.

(** The first audio of a generation: its latencies and the move to Speaking. *)
Definition first_audio (e : env) (gen : Z) : act unit :=
  upd (fun s => s <| ttfaLoggedGen := gen |> <| turnTTFA := now e - turnStartedAt s |>) ;;
  upd (fun s => match turnSpeechEndAt s with
                | Some t => s <| turnReplyLatency := now e - t |> | None => s end) ;;
  upd (fun s => match turnLastSoundAt s with
                | Some t => s <| turnReplyLatency := now e - t |> | None => s end) ;;
  let! s := mread in
  mwhen (0 <? turnReplyLatency s) (emit (EReplyLatency (turnReplyLatency s))) ;;
  mwhen (is_state StateThinking s)
    (upd (fun s => s <| state := StateSpeaking |> <| speakingSince := now e |>)).

Definition handleTTSAudio (e : env) (pcm : bytes) (gen req : Z) (text : bytes) : act unit :=
  let! s := mread in
  if negb (gen =? curGen s) then mret tt
  else
    mwhen (negb (bool_decide (text = [])) &&
           match last (turnChunks s) with Some c => negb (c_req c =? req) | None => true end)
      (upd (fun s => s <| turnChunks := turnChunks s ++ [mkChunk req text] |>)) ;;
    mwhen (negb (ttfaLoggedGen s =? gen)) (first_audio e gen) ;;
    upd (fun s => s <| ttsBuf := ttsBuf s ++ pcm |>) ;;
    let! s := mread in
    queue_frames (length (ttsBuf s)) gen req.

Definition handleTTSDone (e : env) (gen : Z) : act unit :=
  let! s := mread in
  if negb (gen =? curGen s) then mret tt
  else if is_state StateThinking s then finishTurn e gen
  else mwhen (is_state StateSpeaking s) (upd (fun s => s <| ttsDeliveryDone := true |>)).

Definition handleTTSClosed (e : env) (conn : Z) : act unit :=
  let! s := mread in
  match tts s with
  | None => mret tt
  | Some _ =>
      if negb (conn =? ttsConn s) then mret tt
      else
        upd (fun s => s <| tts := None |>) ;;
        if is_state StateThinking s then
          emit (EError StTtsClosed) ;; cancelTurn ;; finishTurn e (curGen s)
        else if is_state StateSpeaking s then
          emit (EError StTtsClosed) ;; cancelTurn ;;
          upd (fun s => s <| ttsDeliveryDone := true |>)
        else mret tt
  end.

Definition handleLLMDone (failed : bool) (gen : Z) (toolMsgs : list Message) (endc : bool) : act unit :=
  mwhen failed (emit (EError StLlm)) ;;
  let! s := mread in
  if negb (gen =? curGen s) then mret tt
  else upd (fun s => s <| turnToolMsgs := toolMsgs |> <| hangupAfterTurn := endc |>).

Definition handleDrainTimeout (e : env) : act unit :=
  upd (fun s => s <| ttsBuf := [] |> <| agentQuietSince := Some (now e) |>) ;;
  recordReply true ;;
  let! s := mread in
  mwhen (ending s) hangup.

(** *** The greeting *)

Definition sendToTTS (e : env) (text : bytes) (gen : Z) : act unit :=
  emit (ESpeak text gen) ;;
  if speak_ok e then emit (ETTSChars (Z.of_nat (length (runes text)))) else emit (EError StTtsSpeak).

Definition playClip (e : env) (clip : Clip) (text : bytes) (gen : Z) : act unit :=
  emit (EPlay text (clip_PCM clip) gen) ;;
  mwhen (negb (speak_ok e)) (emit (EError StTtsSpeak)).

Fixpoint speak_chunks (e : env) (l : list bytes) (gen : Z) : act unit :=
  match l with
  | [] => mret tt
  | c :: t => sendToTTS e c gen ;; speak_chunks e t gen
  end.

(** [handleGreeting]; nothing changes [curGen] during it, so its two
    [gen == h.curGen] tests always hold. *)
Definition handleGreeting (e : env) (start : Node) : act unit :=
  upd (fun s => s <| state := StateThinking |> <| curGen ::= Z.succ |> <| turnStartedAt := now e |>) ;;
  startTurnChunks ;;
  let! ok := openTTS e in
  if negb ok then mret tt
  else
    let! s := mread in
    let gen := curGen s in
    match GreetingClip start with
    | Some clip => playClip e clip (clip_Transcript clip) gen ;; emit (EEndGeneration gen)
    | None =>
        let '(chunks, rest) := Feed [] (Greeting start) in
        speak_chunks e chunks gen ;;
        let remainder := (Flush rest).1 in
        mwhen (negb (bool_decide (remainder = []))) (sendToTTS e remainder gen) ;;
        emit (EEndGeneration gen)
    end.

(** *** The dispatch of [run] and [handleEvent] *)

Inductive event :=
  | FinalTranscript (text : bytes)
  | LLMDone (failed : bool) (gen : Z) (toolMsgs : list Message) (endc : bool)
  | TTSAudio (pcm : bytes) (gen req : Z) (text : bytes)
  | TTSDone (gen : Z)
  | TTSClosed (conn : Z)
  | EndCallToolEv
  | GreetingEv
  | OpeningEv
  | CallerSpeech (started : bool)
  | ResumeCheck (seq : Z)
  | IdleEv (seq : Z)
  | MaxDurationEv.

Definition handleEvent (start : Node) (e : env) (ev : event) : act unit :=
  match ev with
  | FinalTranscript text => handleFinalTranscript e text
  | LLMDone failed gen msgs endc => handleLLMDone failed gen msgs endc
  | TTSAudio pcm gen req text => handleTTSAudio e pcm gen req text
  | TTSDone gen => handleTTSDone e gen
  | TTSClosed conn => handleTTSClosed e conn
  | EndCallToolEv => endCall EndCallTool
  | GreetingEv => handleGreeting e start
  | OpeningEv => startTurn e
  | CallerSpeech started => handleCallerSpeech e started
  | ResumeCheck seq => handleResumeCheck e seq
  | IdleEv seq => handleIdle e seq
  | MaxDurationEv => emit (EEnding MaxDurationReason) ;; endCall MaxDurationReason
  end.

(** What [run] can take from its channels: an event, or a raised signal. *)
Inductive input :=
  | Event (ev : event)
  | BargeInSignal | PlaybackDoneSignal | DrainTimeoutSignal.

(** One turn of [run]'s [select]; a signal is taken only when raised. *)
Definition run_step (start : Node) (e : env) (i : input) : act unit :=
  match i with
  | Event ev => handleEvent start e ev
  | BargeInSignal =>
      let! s := mread in
      mwhen (bargeInSig s) (upd (fun s => s <| bargeInSig := false |>) ;; handleBargeIn e)
  | PlaybackDoneSignal =>
      let! s := mread in
      mwhen (playbackDoneSig s)
        (upd (fun s => s <| playbackDoneSig := false |>) ;; finishTurn e (curGen s))
  | DrainTimeoutSignal =>
      let! s := mread in
      mwhen (drainTimeoutSig s)
        (upd (fun s => s <| drainTimeoutSig := false |>) ;; handleDrainTimeout e)
  end.

(** The end of [run] when the call's context is cancelled. *)
Definition run_exit : act unit :=
  let! s := mread in
  mwhen (negb (bool_decide (turnChunks s = []))) (recordReply true).

End loop.
