(* ===== verification/AgentFrame.v ===== *)
(** [internal/ai/agent/handler.go]: [ProcessFrame], the 20 ms tick of the
    media plane, and what it calls. [feedSTT] is one effect here; the gate
    behind it is the file SttGate. *)

From S2P Require Import Prelude Text Workflow AgentState.

Local Open Scope Z_scope.
Local Open Scope m_scope.

Section frame.
Variable cfg : Config.

(** [interruptible]. *)
Definition interruptible (s : st) : bool :=
  negb (BargeInObserveOnly cfg) && negb (closing s) && InterruptMode true (node s).

(** [holdPlayer.next]: the next frame and the player after it. *)
Definition hold_next (p : holdPlayer) : option bytes * holdPlayer :=
  let n := Z.of_nat (length (hp_pcm p)) in
  let play (p : holdPlayer) :=
    (Some (take (Z.to_nat FrameSize) (drop (Z.to_nat (hp_pos p)) (hp_pcm p))),
     p <| hp_pos := hp_pos p + FrameSize |>) in
  if n <? hp_pos p + FrameSize then
    if negb (hp_loop p) || (n <? FrameSize) then (None, p <| hp_done := true |>)
    else play (p <| hp_pos := 0 |>)
  else play p.

Definition to_list (o : option bytes) : list bytes := match o with Some f => [f] | None => [] end.

Definition processHoldFrame (p : holdPlayer) : act (list bytes) :=
  let! s := mread in
  match outbound s with
  | f :: rest =>
      upd (fun s => s <| outbound := rest |> <| hold := Some (p <| hp_saw := true |>) |>
                      <| playingReq := f_req f |>) ;;
      mret [f_pcm f]
  | [] =>
      if hp_wait p && negb (hp_saw p) && (hp_waited p <? holdMessageWaitTicks) then
        upd (fun s => s <| hold := Some (p <| hp_waited := hp_waited p + 1 |>) |>) ;;
        mret []
      else
        let '(f, p') := hold_next p in
        upd (fun s => s <| hold := Some p' |>) ;;
        mret (to_list f)
  end.

(** The end of [processSpeakingFrame]: an empty queue this tick. *)
Definition empty_tick : act (list bytes) :=
  let! s := mread in
  if ttsDeliveryDone s then
    upd (fun s => s <| ttsDeliveryDone := false |> <| emptyTicks := 0 |> <| playbackDoneSig := true |>) ;;
    mret []
  else if toolRunning s then
    upd (fun s => s <| emptyTicks := 0 |>) ;; mret []
  else
    upd (fun s => s <| emptyTicks ::= Z.succ |>) ;;
    let! s := mread in
    mwhen (speakingDrainTimeoutTicks <=? emptyTicks s)
      (upd (fun s => s <| emptyTicks := 0 |>) ;;
       emit (EError StTtsDrain) ;;
       mwhen (is_state StateSpeaking s)
         (upd (fun s => s <| state := StateListening |> <| drainTimeoutSig := true |>))) ;;
    mret [].

(** Playing from the queue: the sentence being played is remembered. *)
Definition play_queue (e : env) : act (list bytes) :=
  let! s := mread in
  match outbound s with
  | f :: rest =>
      upd (fun s => s <| outbound := rest |> <| emptyTicks := 0 |>) ;;
      mwhen (negb (f_gen f =? sentGen s) || negb (f_req f =? sentReq s))
        (upd (fun s => s <| sentGen := f_gen f |> <| sentReq := f_req f |>
                         <| sentFrames := [] |> <| playingSince := now e |>)) ;;
      upd (fun s => s <| playingReq := f_req f |> <| sentFrames := sentFrames s ++ [f_pcm f] |>) ;;
      mret [f_pcm f]
  | [] => empty_tick
  end.

(** Replaying the interrupted sentence, then the queue. *)
Definition replay_or_play (e : env) : act (list bytes) :=
  upd (fun s => if replayPending s
                then s <| replayPending := false |> <| replayIdx := 0 |>
                       <| replaying := negb (bool_decide (sentFrames s = [])) &&
                                       (sentGen s =? replayGen s) |>
                else s) ;;
  let! s := mread in
  if replaying s then
    match sentFrames s !! Z.to_nat (replayIdx s) with
    | Some f =>
        upd (fun s => s <| emptyTicks := 0 |> <| replayIdx ::= Z.succ |>) ;;
        mret [f]
    | None => upd (fun s => s <| replaying := false |>) ;; play_queue e
    end
  else play_queue e.

Definition processSpeakingFrame (e : env) (pcm : bytes) : act (list bytes) :=
  let! s := mread in
  if paused s then emit (EDetect pcm) ;; mret []
  else
    emit (EDetect pcm) ;;
    upd (fun s => s <| speechRunStart :=
           if detected e then Some (default (now e) (speechRunStart s)) else None |>) ;;
    let! s := mread in
    if detected e && (BargeInMinSpeech cfg <=? now e - default (now e) (speechRunStart s)) &&
       (BargeInGuard cfg <=? now e - speakingSince s) && interruptible s
    then
      upd (fun s => s <| paused := true |>) ;;
      emit EInterruptionPaused ;;
      emit EDetectReset ;;
      upd (fun s => s <| speechRunStart := None |> <| silenceUntil := now e + PostCutSilence cfg |>
                      <| emptyTicks := 0 |> <| bargeInSig := true |>) ;;
      mret []
    else replay_or_play e.

(** [maybeFlushSTT]. *)
Definition maybeFlushSTT (e : env) : act unit :=
  let! s := mread in
  let utt := sttUttStart s in
  if negb (sttUtterance s) || (utt =? 0) || (utt =? flushedUtt s) then mret tt
  else
    match LastSpeechAt e with
    | None => mret tt
    | Some l =>
        if l <? utt - sttFlushOnsetSlack then mret tt
        else if now e - l <? STTFlushAfter cfg then mret tt
        else
          upd (fun s => s <| flushedUtt := utt |> <| sttFlushAt := now e |>) ;;
          emit EFlushSTT ;;
          mwhen (negb (flush_ok e)) (emit (EError StStt))
    end.

(** The caller's frame goes to the STT, whatever the agent is doing. *)
Definition feed_part (e : env) (pcm : bytes) : act unit :=
  emit (EFeedSTT pcm) ;;
  mwhen (negb (feed_ok e)) (emit (EError StStt)) ;;
  mwhen ((0 <? STTFlushAfter cfg) && hasClock cfg) (maybeFlushSTT e).

(** [ProcessFrame]: the frames to send to the caller this tick. *)
Definition ProcessFrame (e : env) (pcm : bytes) : act (list bytes) :=
  let! s := mread in
  match hold s with
  | Some p => processHoldFrame p
  | None =>
      feed_part e pcm ;;
      let! s := mread in
      match state s with
      | StateSpeaking => processSpeakingFrame e pcm
      | _ => mwhen (hasClock cfg) (emit (EDetect pcm)) ;; mret []
      end
  end.

End frame.
