(* ===== verification/AgentInv.v ===== *)
(** Invariants of the voice agent over every interleaving of its goroutines:
    the event loop ([AgentLoop]), the media tick ([AgentFrame]) and the writes
    of the LLM turn's goroutine. Each is a composable relation between the
    start, the effects and the end of a run. *)

From S2P Require Import Prelude Text Workflow AgentState AgentLoop AgentFrame.

Local Open Scope Z_scope.
Local Open Scope m_scope.

(** Expose what the handlers are made of, the loops and the audio path apart. *)
Ltac unfold_handlers :=
  unfold run_step, handleEvent, handleFinalTranscript, handleCallerSpeech, handleIdle,
    handleTTSDone, handleTTSClosed, handleLLMDone, handleDrainTimeout,
    handleGreeting, handleBargeIn, handleResumeCheck, finishTurn, settleHeld, confirmInterruption,
    resumeReply, scheduleResumeCheck, cutReply, cancelTurn, recordReply, holdSpeech, dropHeld,
    acceptUserTurn, startTurnChunks, endCall, startIdleTimer, stopIdleTimer,
    first_audio, playClip, sendToTTS, ProcessFrame, feed_part, processHoldFrame, processSpeakingFrame,
    maybeFlushSTT, replay_or_play, play_queue, empty_tick, upd, emit.

Section inv.
Context `{U : Unicode}.
Variable cfg : Config.
Variable start : Node.

(** One atomic step of some goroutine of the call. The last five are the writes
    of [runLLMTurn], [runTool], [takeEdge] and [transfer] to shared fields. *)
Inductive label :=
  | LRun (e : env) (i : input)
  | LFrame (e : env) (pcm : bytes)
  | LNode (n : Node)
  | LClosing
  | LToolRunning (b : bool)
  | LHold (h : option holdPlayer)
  | LFirstToken (d t : Z * Z).

(** The step, and the frames it sends to the caller. *)
Definition agent_step (l : label) : act (list bytes) :=
  match l with
  | LRun e i => run_step cfg start e i ;; mret []
  | LFrame e pcm => ProcessFrame cfg e pcm
  | LNode n => upd (fun s => s <| node := n |>) ;; mret []
  | LClosing => upd (fun s => s <| closing := true |>) ;; mret []
  | LToolRunning b => upd (fun s => s <| toolRunning := b |>) ;; mret []
  | LHold h => upd (fun s => s <| hold := h |>) ;; mret []
  | LFirstToken d t => upd (fun s => s <| ttft := Some d |> <| replyStart := Some t |>) ;; mret []
  end.

Fixpoint agent_run (l : list label) : act (list (list bytes)) :=
  match l with
  | [] => mret []
  | x :: r => let! f := agent_step x in let! fs := agent_run r in mret (f :: fs)
  end.

Lemma does_run (R : st -> list effect -> st -> Prop) `{!StepRel R} ls :
  (forall l, does R (agent_step l)) -> does R (agent_run ls).
Proof.
  intros H. induction ls as [|l ls IH]; intros s; simpl; [apply does_at_ret, _|].
  apply does_at_call; [apply _|apply H|]. intros f s1. apply does_at_call; [apply _|apply IH|].
  intros fs s2. apply does_at_ret, _.
Qed.

(** *** The call is hung up at most once *)

Definition is_hangup (e : effect) : bool := match e with EHangup => true | _ => false end.
Definition hangups (w : list effect) : Z := Z.of_nat (length (base.filter (fun e => is_hangup e = true) w)).

Definition hang (s : st) (w : list effect) (s' : st) : Prop :=
  hangups w + Z.b2z (hungUp s) <= Z.b2z (hungUp s').

#[local] Instance hang_rel : StepRel hang.
Proof.
  split; unfold hang, hangups; [simpl; lia|].
  intros s1 w1 s2 w2 s3 H1 H2. rewrite filter_app, length_app. lia.
Qed.

Ltac hang_tac := unfold hang, hangups; simpl; repeat case_match; simpl; lia.
Ltac hang_auto := does_auto hang_tac.

Lemma hang_hangup : does hang (hangup cfg).
Proof.
  intros s. unfold does_at, hangup, mwhen, upd, emit. open_m.
  destruct (hungUp s) eqn:E; simpl; [unfold hang, hangups; rewrite E; simpl; lia|].
  destruct (hasHangup cfg); unfold hang, hangups; simpl; rewrite E; simpl; lia.
Qed.
#[local] Hint Resolve hang_hangup : does.

Ltac unfold_agent := unfold agent_step; unfold_handlers.

Lemma hang_queue_frames n gen req : does hang (queue_frames n gen req).
Proof. induction n as [|n IH]; simpl; unfold upd, emit; hang_auto. Qed.

Lemma hang_speak_chunks e l gen : does hang (speak_chunks e l gen).
Proof. induction l as [|c l IH]; simpl; unfold sendToTTS, emit; hang_auto. Qed.
#[local] Hint Resolve hang_queue_frames hang_speak_chunks : does.

Lemma hang_step l : does hang (agent_step l).
Proof. unfold_agent. unfold handleTTSAudio, first_audio, startTurn, startTurnChunks, openTTS, stopIdleTimer, upd, emit. hang_auto. Qed.

(** C1: the call is hung up at most once, whatever happens: over any
    interleaving of events, signals, media ticks and tool writes, from a call
    not yet hung up, [Config.Hangup] is called at most once; from one that is,
    never again. *)
Theorem hangup_at_most_once ls s :
  hangups (mout (agent_run ls) s) <= 1 - Z.b2z (hungUp s).
Proof.
  pose proof (does_run hang ls hang_step s) as H. unfold does_at, hang in H.
  destruct (hungUp (mstate (agent_run ls) s)), (hungUp s); simpl in *; lia.
Qed.

(** *** Every reply has its own generation *)

Definition start_gen (e : effect) : option Z :=
  match e with EStartLLM g _ _ => Some g | _ => None end.

(** Strictly increasing, above [lo] and at most [hi]. *)
Fixpoint increasing (lo : Z) (l : list Z) (hi : Z) : Prop :=
  match l with
  | [] => lo <= hi
  | g :: r => lo < g /\ increasing g r hi
  end.

Definition gens (s : st) (w : list effect) (s' : st) : Prop :=
  increasing (curGen s) (omap start_gen w) (curGen s').

Lemma increasing_app a l b m c : increasing a l b -> increasing b m c -> increasing a (l ++ m) c.
Proof.
  revert a. induction l as [|g l IH]; intros a; simpl.
  - intros Hab Hm. destruct m; simpl in *; intuition lia.
  - intros [? ?] ?. split; [done|]. by apply IH.
Qed.

#[local] Instance gens_rel : StepRel gens.
Proof.
  split; unfold gens; [simpl; lia|].
  intros s1 w1 s2 w2 s3 H1 H2. rewrite omap_app. by eapply increasing_app.
Qed.

Ltac gens_tac := unfold gens; simpl; repeat case_match; simpl; lia.
Ltac gens_auto := does_auto gens_tac.

(** No LLM turn is started and the generation stays. *)
Definition quiet (s : st) (w : list effect) (s' : st) : Prop :=
  omap start_gen w = [] /\ curGen s' = curGen s.

#[local] Instance quiet_rel : StepRel quiet.
Proof.
  split; unfold quiet; [done|]. intros s1 w1 s2 w2 s3 [H1 E1] [H2 E2].
  rewrite omap_app, H1, H2. split; [done|congruence].
Qed.

Lemma quiet_startTurnChunks : does quiet startTurnChunks.
Proof. unfold startTurnChunks, upd. does_auto ltac:(by split). Qed.

Lemma quiet_openTTS e : does quiet (openTTS e).
Proof. unfold openTTS, upd, emit. does_auto ltac:(by split). Qed.

(** Starts at [g] at most, the generation being [g] throughout. *)
Definition starts_at {A} (g : Z) (m : act A) : Prop :=
  forall s, curGen s = g ->
    increasing (g - 1) (omap start_gen (mout m s)) (curGen (mstate m s)).

Lemma starts_quiet {A B} (m : act A) (k : A -> act B) g :
  does quiet m -> (forall a, starts_at g (k a)) -> starts_at g (mseq m k).
Proof.
  intros Hm Hk s Hg. rewrite mout_seq, mstate_seq, omap_app. destruct (Hm s) as [-> E].
  apply Hk. congruence.
Qed.

Lemma gens_bump (f : st -> st) (k : unit -> act unit) s :
  curGen (f s) = Z.succ (curGen s) -> (forall g, starts_at g (k tt)) ->
  does_at gens (mseq (mmod f) k) s.
Proof.
  intros Hf Hk. unfold does_at, gens. rewrite mout_seq, mstate_seq.
  specialize (Hk _ (f s) Hf). by replace (Z.succ (curGen s) - 1) with (curGen s) in Hk by lia.
Qed.

Lemma starts_llm g : starts_at g (
  let! s := mread in upd (fun s => s <| turnCancel := Some (curGen s) |>) ;;
  emit (EStartLLM (curGen s) (history s) (default 0 (tts s)))).
Proof. intros s <-. simpl. lia. Qed.

Lemma gens_startTurn e : does gens (startTurn e).
Proof.
  intros s. unfold startTurn, stopIdleTimer. unfold upd at 1 2, emit at 1.
  apply does_at_mod_seq; [apply _|unfold gens; simpl; lia|].
  apply does_at_mod_seq; [apply _|unfold gens; simpl; lia|].
  apply does_at_emit_seq; [apply _|unfold gens; simpl; lia|].
  apply gens_bump; [done|]. intros g.
  apply starts_quiet; [apply quiet_startTurnChunks|]. intros _.
  apply starts_quiet; [apply quiet_openTTS|]. intros [].
  - apply starts_llm.
  - intros s' <-. unfold mstate, mret. simpl. lia.
Qed.

Lemma gens_openTTS e : does gens (openTTS e).
Proof. unfold openTTS, upd, emit. gens_auto. Qed.

Lemma gens_queue_frames n gen req : does gens (queue_frames n gen req).
Proof. induction n as [|n IH]; simpl; unfold upd, emit; gens_auto. Qed.

Lemma gens_speak_chunks e l gen : does gens (speak_chunks e l gen).
Proof. induction l as [|c l IH]; simpl; unfold sendToTTS, emit; gens_auto. Qed.
#[local] Hint Resolve gens_startTurn gens_openTTS gens_queue_frames gens_speak_chunks : does.

Lemma gens_hangup : does gens (hangup cfg).
Proof. unfold hangup, upd, emit. gens_auto. Qed.
#[local] Hint Resolve gens_hangup : does.

Lemma gens_step l : does gens (agent_step l).
Proof. unfold_agent. unfold handleTTSAudio, first_audio, upd, emit. gens_auto. Qed.

(** Every LLM turn has a generation of its own, larger than every earlier
    one: audio, done and error events of a superseded turn can therefore be
    told from the current one's by their number. *)
Theorem generations_increase ls s :
  increasing (curGen s) (omap start_gen (mout (agent_run ls) s)) (curGen (mstate (agent_run ls) s)).
Proof. exact (does_run gens ls gens_step s). Qed.

(** *** An interrupted reply is gone *)

(** [s] moved past generation [g]: nothing of it is queued. *)
Definition past (g : Z) (s : st) : Prop := g < curGen s /\ Forall (fun f => g < f_gen f) (outbound s).

Section past_inv.
Variable g : Z.

Definition past_kept (s : st) (_ : list effect) (s' : st) : Prop := past g s -> past g s'.

#[global] Instance past_rel : StepRel past_kept.
Proof. split; unfold past_kept; auto. Qed.

Ltac past_tac :=
  idtac; let H := fresh "H" in
  intros [? H]; unfold past; simpl in *; repeat case_match; simpl; split;
  first [ done | lia | constructor
        | match goal with E : outbound _ = _ :: _ |- _ => rewrite E, Forall_cons in H; apply H end ].
Ltac past_auto := does_auto past_tac.

Lemma past_queue_frames n gen req : g < gen -> does past_kept (queue_frames n gen req).
Proof.
  intros Hg. induction n as [|n IH]; simpl; unfold upd, emit; past_auto.
  intros [? H]. split; simpl; [done|]. apply Forall_app. split; [done|by repeat constructor].
Qed.

Lemma past_speak_chunks e l gen : does past_kept (speak_chunks e l gen).
Proof. induction l as [|c l IH]; simpl; unfold sendToTTS, emit; past_auto. Qed.
#[local] Hint Resolve past_queue_frames past_speak_chunks : does.

Lemma past_handleTTSAudio e pcm gen req text : does past_kept (handleTTSAudio e pcm gen req text).
Proof.
  intros s Hp. revert Hp. change (does_at past_kept (handleTTSAudio e pcm gen req text) s).
  destruct (decide (g < gen)) as [Hg|Hg].
  - unfold handleTTSAudio, first_audio, upd, emit. past_auto.
  - intros Hp. pose proof Hp as [Hc _]. unfold handleTTSAudio. rewrite mstate_seq.
    change (mval mread s) with s. rewrite (proj2 (Z.eqb_neq _ _)) by lia. exact Hp.
Qed.
#[local] Hint Resolve past_handleTTSAudio : does.

Lemma past_step l : does past_kept (agent_step l).
Proof. unfold_agent. unfold startTurn, startTurnChunks, openTTS, stopIdleTimer, hangup, upd, emit. past_auto. Qed.
End past_inv.
(** What [cutReply] does to the generation and the queue. *)
Lemma quiet_recordReply b : does quiet (recordReply b).
Proof. unfold recordReply, upd, emit. does_auto ltac:(by split). Qed.

Lemma quiet_cancelTurn : does quiet cancelTurn.
Proof. unfold cancelTurn, upd, emit. does_auto ltac:(by split). Qed.
#[local] Hint Resolve quiet_recordReply quiet_cancelTurn : does.

Definition cut_tts (e : env) : act unit :=
  let! s := mread in
  match tts s with
  | Some c =>
      emit (ECancelTTS c) ;;
      mwhen (negb (cancel_ok e)) (emit (EError StTtsCancel)) ;;
      upd (fun s => s <| tts := None |>)
  | None => mret tt
  end.

Lemma quiet_cut_tts e : does quiet (cut_tts e).
Proof. unfold cut_tts, upd, emit. does_auto ltac:(by split). Qed.

Lemma cutReply_past e s : past (curGen s) (mstate (cutReply e) s).
Proof.
  assert (mstate (cutReply e) s =
    mstate (cancelTurn ;; recordReply true ;;
      upd (fun s => s <| curGen ::= Z.succ |> <| agentQuietSince := Some (now e) |>) ;;
      cut_tts e ;;
      upd (fun s => s <| ttsBuf := [] |> <| ttsDeliveryDone := false |> <| outbound := [] |>)) s) as ->.
  { unfold cutReply, cut_tts. rewrite !mstate_seq. done. }
  rewrite !mstate_seq. set (s1 := mstate cancelTurn s). set (s2 := mstate (recordReply true) s1).
  set (s3 := mstate (upd _) s2). set (s4 := mstate (cut_tts e) s3).
  assert (curGen s1 = curGen s) as E1 by apply quiet_cancelTurn.
  assert (curGen s2 = curGen s1) as E2 by apply quiet_recordReply.
  assert (curGen s3 = Z.succ (curGen s2)) as E3 by done.
  assert (curGen s4 = curGen s3) as E4 by apply quiet_cut_tts.
  clearbody s1 s2 s3 s4. split; simpl; [lia|constructor].
Qed.

(** C10: an interrupted reply is gone for good: once [cutReply] has run, then
    whatever the TTS connection, the LLM turn or the timers of that reply still
    deliver, and in whatever order, no frame of its generation or of an earlier
    one is in the playback queue again. *)
Theorem interrupted_reply_gone e s ls :
  Forall (fun f => curGen s < f_gen f)
    (outbound (mstate (agent_run ls) (mstate (cutReply e) s))).
Proof.
  pose proof (does_run _ ls (past_step (curGen s)) (mstate (cutReply e) s)) as H.
  apply H, cutReply_past.
Qed.

(** *** The conversation only grows *)

Definition grows (s : st) (w : list effect) (s' : st) : Prop :=
  history s `prefix_of` history s' /\
  Forall (fun e => match e with
    | EStartLLM _ h _ => history s `prefix_of` h /\ h `prefix_of` history s'
    | _ => True end) w.

#[local] Instance grows_rel : StepRel grows.
Proof.
  split; unfold grows; [done|]. intros s1 w1 s2 w2 s3 [H1 F1] [H2 F2].
  split; [by etransitivity|]. apply Forall_app. split; eapply Forall_impl; try done;
    intros [] Hx; try done; destruct Hx; split; done || by etransitivity.
Qed.

Ltac grows_tac := idtac; unfold grows; simpl; repeat case_match; simpl; split;
  first [done | repeat constructor; done | by apply prefix_app_r].
Ltac grows_auto := does_auto grows_tac.

Lemma grows_queue_frames n gen req : does grows (queue_frames n gen req).
Proof. induction n as [|n IH]; simpl; unfold upd, emit; grows_auto. Qed.

Lemma grows_speak_chunks e l gen : does grows (speak_chunks e l gen).
Proof. induction l as [|c l IH]; simpl; unfold sendToTTS, emit; grows_auto. Qed.
#[local] Hint Resolve grows_queue_frames grows_speak_chunks : does.

Lemma grows_step l : does grows (agent_step l).
Proof.
  unfold_agent. unfold handleTTSAudio, first_audio, startTurn, startTurnChunks, openTTS,
    stopIdleTimer, hangup, upd, emit. grows_auto.
Qed.

(** The conversation the language model sees is append-only: over any run
    nothing in the history is changed or removed, and the history sent with
    each LLM turn is a prefix of the later one. *)
Theorem history_append_only ls s :
  let s' := mstate (agent_run ls) s in
  history s `prefix_of` history s' /\
  Forall (fun e => match e with
    | EStartLLM _ h _ => history s `prefix_of` h /\ h `prefix_of` history s'
    | _ => True end) (mout (agent_run ls) s).
Proof. exact (does_run grows ls grows_step s). Qed.

(** *** Stale timers *)

Definition timers_up (s : st) (_ : list effect) (s' : st) : Prop :=
  idleSeq s <= idleSeq s' /\ resumeSeq s <= resumeSeq s'.

#[local] Instance timers_rel : StepRel timers_up.
Proof. split; unfold timers_up; lia. Qed.

Ltac timers_auto := does_auto ltac:(unfold timers_up; simpl; repeat case_match; simpl; lia).

Lemma timers_queue_frames n gen req : does timers_up (queue_frames n gen req).
Proof. induction n as [|n IH]; simpl; unfold upd, emit; timers_auto. Qed.

Lemma timers_speak_chunks e l gen : does timers_up (speak_chunks e l gen).
Proof. induction l as [|c l IH]; simpl; unfold sendToTTS, emit; timers_auto. Qed.
#[local] Hint Resolve timers_queue_frames timers_speak_chunks : does.

Lemma timers_step l : does timers_up (agent_step l).
Proof.
  unfold_agent. unfold handleTTSAudio, first_audio, startTurn, startTurnChunks, openTTS,
    stopIdleTimer, hangup, upd, emit. timers_auto.
Qed.

Lemma handleIdle_stale e s q : q <> idleSeq s -> handleIdle e q s = (tt, s, []).
Proof. intros Hq. unfold handleIdle, mseq, mread. by rewrite (proj2 (Z.eqb_neq _ _)). Qed.

Lemma handleResumeCheck_stale e s q : q <> resumeSeq s -> handleResumeCheck cfg e q s = (tt, s, []).
Proof. intros Hq. unfold handleResumeCheck, mseq, mread. by rewrite (proj2 (Z.eqb_neq _ _)). Qed.

(** A stopped timer is dead: once the idle clock has been stopped or the
    pause settled ([stopIdleTimer], [resumeReply]), then whatever has happened
    since, a firing armed before it changes nothing and has no effect. *)
Theorem stale_timers_ignored s ls e q r b :
  q <= idleSeq s -> r <= resumeSeq s ->
  let s1 := mstate (stopIdleTimer ;; resumeReply b) s in
  let s2 := mstate (agent_run ls) s1 in
  handleEvent cfg start e (IdleEv q) s2 = (tt, s2, []) /\
  handleEvent cfg start e (ResumeCheck r) s2 = (tt, s2, []).
Proof.
  intros Hq Hr s1 s2. pose proof (does_run timers_up ls timers_step s1) as [H1 H2].
  fold s2 in H1, H2.
  assert (idleSeq s1 = Z.succ (idleSeq s) /\ resumeSeq s1 = Z.succ (resumeSeq s)) as [E1 E2].
  { unfold s1, resumeReply. rewrite !mstate_seq. by destruct b. }
  clearbody s1 s2. split; [apply handleIdle_stale|apply handleResumeCheck_stale]; lia.
Qed.

End inv.
