(* ===== verification/LlmTurn.v ===== *)
(** [internal/ai/agent]: the goroutine that runs one LLM turn: [runLLMTurn],
    [takeEdge], [runTool] and [transfer] of handler.go, [plainHistory] of
    extract.go and the playing of recordings of recordings.go.

    What the goroutine learns from the outside (the model's replies, the tools'
    results, whether a call succeeded, whether its context was cancelled) is an
    answer given at an instant; every question advances the instant, so nothing
    is assumed to answer the same twice. A context that is cancelled stays so. *)

From Stdlib Require Import String.
From S2P Require Import Prelude Text Chunker ClipRouter Workflow AgentState AgentLoop AgentInv.

Local Open Scope Z_scope.
Local Open Scope m_scope.

(** ** [encoding/json] and [strconv] on strings *)

Definition hex (d : Z) : Z := if d <? 10 then 48 + d else 87 + d.

(** [json.Marshal] of a string, HTML characters escaped. *)
Definition json_byte (b : Z) : bytes :=
  if (b =? 34) || (b =? 92) then [92; b]
  else if b =? 8 then [92; 98] else if b =? 12 then [92; 102]
  else if b =? 10 then [92; 110] else if b =? 13 then [92; 114] else if b =? 9 then [92; 116]
  else if (b <? 32) || (b =? 60) || (b =? 62) || (b =? 38)
  then [92; 117; 48; 48; hex (b / 16); hex (b mod 16)] else [b].

Fixpoint json_chars (n : nat) (s : bytes) : bytes :=
  match n, s with
  | S k, b :: t =>
      if b <? 128 then json_byte b ++ json_chars k t
      else
        let '(r, w) := DecodeRune s in
        (if (r =? RuneError) && (w =? 1) then [92; 117; 102; 102; 102; 100]
         else if (r =? 8232) || (r =? 8233) then [92; 117; 50; 48; 50; hex (r mod 16)]
         else take (Z.to_nat w) s) ++ json_chars k (drop (Z.to_nat w) s)
  | _, _ => []
  end.

Definition json_string (s : bytes) : bytes := [34] ++ json_chars (length s) s ++ [34].

(** [json.Marshal] of a map of strings, its keys in order. *)
Definition json_object (l : list (bytes * bytes)) : bytes :=
  [123] ++ Join (map (fun '(k, v) => json_string k ++ [58] ++ json_string v) l) [44] ++ [125].

Section quote.
(** [strconv.IsPrint], a Unicode table. *)
Variable IsPrint : Z -> bool.

Definition hexes (ds : list Z) : bytes := map hex ds.

Definition quote_rune (r : Z) : bytes :=
  if (r =? 34) || (r =? 92) then [92; r]
  else if IsPrint r then EncodeRune r
  else if r =? 7 then [92; 97] else if r =? 8 then [92; 98] else if r =? 12 then [92; 102]
  else if r =? 10 then [92; 110] else if r =? 13 then [92; 114] else if r =? 9 then [92; 116]
  else if r =? 11 then [92; 118]
  else if (r <? 32) || (r =? 127) then [92; 120] ++ hexes [r / 16; r mod 16]
  else if r <? 65536 then [92; 117] ++ hexes [r / 4096; r / 256 mod 16; r / 16 mod 16; r mod 16]
  else [92; 85; 48; 48] ++ hexes [r / 1048576; r / 65536 mod 16; r / 4096 mod 16; r / 256 mod 16; r / 16 mod 16; r mod 16].

Fixpoint quote_chars (n : nat) (s : bytes) : bytes :=
  match n, s with
  | S k, b :: _ =>
      let '(r, w) := DecodeRune s in
      (if (r =? RuneError) && (w =? 1) then [92; 120] ++ hexes [b / 16; b mod 16] else quote_rune r)
        ++ quote_chars k (drop (Z.to_nat w) s)
  | _, _ => []
  end.

(** The verb [%q]. *)
Definition Quote (s : bytes) : bytes := [34] ++ quote_chars (length s) s ++ [34].
End quote.

Definition toolErrorResult (err : bytes) : bytes := json_object [(bs "error", err); (bs "status", bs "error")].
Definition transferFailed (reason : bytes) : bytes := json_object [(bs "reason", reason); (bs "status", bs "failed")].
Definition edge_done : bytes := json_object [(bs "status", bs "done")].
Definition ending_call : bytes := json_object [(bs "status", bs "success"); (bs "action", bs "ending_call")].
Definition transferred_ok : bytes := json_object [(bs "status", bs "success"); (bs "action", bs "transferred")].

(** ** The request: [requestMessages] and [plainHistory] *)

Definition system_msg (c : bytes) : Message := mkMessage RSystem c [] [].

Definition requestMessages (node : Node) (history : list Message) : list Message :=
  if bool_decide (node_Prompt node = []) then history
  else system_msg (node_Prompt node) ::
       (if bool_decide (history = []) then [user_msg (node_Prompt node)] else []) ++ history.

Definition toolResponseMaxChars : nat := 2000.

Section plain.
(** [json.Unmarshal] into a map of raw values (its members by key; [None] on
    an error or null), and an [json.Encoder]'s rendering of one raw value and
    of a map, HTML characters kept. *)
Variable Unmarshal : bytes -> option (list (bytes * bytes)).
Variable EncodeRaw : bytes -> bytes.
Variable EncodeMap : list (bytes * bytes) -> bytes.

Definition member (k : bytes) (obj : list (bytes * bytes)) : option bytes :=
  snd <$> List.find (fun kv => bool_decide (kv.1 = k)) obj.

Definition toolResponseText (raw : bytes) : bytes * bool :=
  let cut text :=
    if (toolResponseMaxChars <? length (runes text))%nat
    then flat_map EncodeRune (take toolResponseMaxChars (runes text)) ++ bs "...(truncated)" else text in
  match Unmarshal raw with
  | None => (cut raw, true)
  | Some obj =>
      if (length obj =? 1)%nat && bool_decide (member (bs "status") obj = Some (json_string (bs "done"))) then ([], false)
      else
        (cut match member (bs "data") obj with
             | Some data => EncodeRaw data
             | None => EncodeMap (List.filter (fun kv => negb (bool_decide (kv.1 = bs "status")) && negb (bool_decide (kv.1 = bs "status_code"))) obj)
             end, true)
  end.

(** The function a tool call's id stands for: the last call with that id. *)
Definition call_name (msgs : list Message) (id : bytes) : bytes :=
  default (bs "unknown") (fst <$> List.find (fun c => bool_decide (c.2 = id)) (rev (flat_map msg_ToolCalls msgs))).

(** [add]; [out] is kept last message first. *)
Definition add (text : bytes) (out : list Message) : list Message :=
  if bool_decide (text = []) then out
  else match out with
       | mkMessage RAssistant c cs id :: r => mkMessage RAssistant (c ++ [10; 10] ++ text) cs id :: r
       | _ => assistant_msg text :: out
       end.

Definition plain_step (names : bytes -> bytes) (out : list Message) (m : Message) : list Message :=
  match msg_Role m with
  | RTool =>
      let '(text, keep) := toolResponseText (msg_Content m) in
      if keep : bool then add (bs "[Tool Response: " ++ names (msg_ToolCallID m) ++ bs "]" ++ [10] ++ text) out else out
  | RAssistant => add (msg_Content m) out
  | r => mkMessage r (msg_Content m) [] [] :: out
  end.

Definition plainHistory (msgs : list Message) : list Message :=
  rev (fold_left (plain_step (call_name msgs)) msgs []).
End plain.

(** ** The turn *)

Inductive endReason := EndReasonEndCallTool | EndReasonEndNode | EndReasonTransfer | EndReasonLLMDown.

(** What the goroutine does to the outside. [TWrite] is a write to a field it
    shares with the call's other goroutines, as the label [AgentInv] runs it
    under; [TEff] an effect [AgentState] already names. *)
Inductive teff :=
  | TWrite (l : label)
  | TEff (e : effect)
  | TStream (msgs : list Message) (tools : list bytes)
  | TFunctionStarted (name id : bytes) | TFunctionEnded (name id result : bytes)
  | TNodeEntered (n : Node) | TEnding (r : endReason)
  | TExtract (n : Node) (history : list Message)
  | TToolCall (name : bytes) (ok : bool)
  | TFallback (kind : fallback)
  | TDial (destination : bytes) (timeout : Z) | TConnect
  | TPost (ev : event)
  | TPanic.

(** [llm.Client.Stream]'s outcome: its tokens, the calls asked for (function
    name and id) and whether it failed. *)
Record streamed := mkStreamed { s_toks : list bytes; s_calls : list (bytes * bytes); s_failed : bool }.

(** The outside, by instant. *)
Record outside := mkOutside {
  clock : nat -> Z;
  cancelledAt : option nat;   (* the turn's context is cancelled *)
  endedAt : option nat;       (* the call's context is cancelled *)
  speaks : nat -> bool;       (* [Speak] and [Play] succeed *)
  streams : nat -> list Message -> list bytes -> streamed;
  runs : nat -> Tool -> result bytes bytes;
  dials : nat -> option bytes;      (* [Transfer]'s error *)
  connects : nat -> option bytes;   (* [connect]'s error *)
  posts : nat -> bool;        (* the [select] sends although the call has ended *)
}.

Definition reached (o : option nat) (t : nat) : bool := match o with Some c => (c <=? t)%nat | None => false end.
Definition call_over (o : outside) (t : nat) : bool := reached (endedAt o) t.
Definition ctx_over (o : outside) (t : nat) : bool := reached (cancelledAt o) t || call_over o t.

(** The parts of [Config] read here. *)
Record TurnConfig := mkTurnConfig {
  hasTransfer : bool; HoldAudio : bytes; BeepAudio : bytes;
  LLMFailures : LLMFailurePolicy; hasLog : bool;
}.

(** The goroutine's locals, [h.llmFailures] and the instant. *)
Record turn := mkTurn {
  t_node : Node; t_history : list Message; t_toolMsgs : list Message;
  t_endCall : bool; t_transferred : bool; t_spoke : bool; t_first : bool;
  t_chunker : bytes; t_router : option ClipRouter.t; t_said : bytes;
  t_failures : Z; t_tick : nat;
}.

#[global] Instance eta_turn : Eta turn := fun s => mkTurn
  (t_node s) (t_history s) (t_toolMsgs s) (t_endCall s) (t_transferred s) (t_spoke s) (t_first s)
  (t_chunker s) (t_router s) (t_said s) (t_failures s) (t_tick s).

Definition tact (A : Type) : Type := M turn teff A.
Definition tupd (f : turn -> turn) : tact unit := mmod f.
Definition temit (e : teff) : tact unit := memit e.

(** One question to the outside. *)
Definition ask {A} (f : nat -> A) : tact A :=
  let! s := mread in tupd (fun s => s <| t_tick ::= S |>) ;; mret (f (t_tick s)).

Inductive toolAction := actionNone | actionEndCall | actionTransferred.
Definition is_endCall (a : toolAction) : bool := match a with actionEndCall => true | _ => false end.
Definition is_transferred (a : toolAction) : bool := match a with actionTransferred => true | _ => false end.

(** How a round ends the loop, or not. *)
Inductive outcome := Next | Done (failed : bool) | Cancelled | Panicked.

Section turn.
Context `{U : Unicode}.
Variable IsPrint : Z -> bool.
Variable Unmarshal : bytes -> option (list (bytes * bytes)).
Variable EncodeRaw : bytes -> bytes.
Variable EncodeMap : list (bytes * bytes) -> bytes.
(** The workflow's nodes, by index. *)
Variable nodes : Z -> Node.
Variable cfg : TurnConfig.
Variable o : outside.
Variable gen : Z.

Definition sendToTTS (text : bytes) : tact unit :=
  let! over := ask (ctx_over o) in
  if over : bool then mret tt
  else
    temit (TEff (ESpeak text gen)) ;;
    let! ok := ask (speaks o) in
    if ok : bool then temit (TEff (ETTSChars (Z.of_nat (length (runes text)))))
    else temit (TEff (EError StTtsSpeak)).

Definition playClip (clip : Clip) (text : bytes) : tact unit :=
  let! over := ask (ctx_over o) in
  if over : bool then mret tt
  else
    temit (TEff (EPlay text (clip_PCM clip) gen)) ;;
    let! ok := ask (speaks o) in
    mwhen (negb ok) (temit (TEff (EError StTtsSpeak))).

(** [node.Clips[id]]. *)
Definition clip_of (n : Node) (id : bytes) : option Clip :=
  snd <$> List.find (fun kc => bool_decide (kc.1 = id)) (default [] (node_Clips n)).

Definition playRecording (n : Node) (id : bytes) : tact bool :=
  match clip_of n id with
  | None => mret false
  | Some clip =>
      playClip clip (ClipRouter.RecordingMarker ++ [32] ++ clip_ID clip ++ [32] ++ clip_Transcript clip ++ [32]) ;;
      mret true
  end.

(** [route]: the text to speak; [None] when [feed] panics. *)
Definition route (n : Node) (tok : bytes) : tact (option bytes) :=
  let! s := mread in
  match t_router s with
  | None => mret (Some tok)
  | Some r =>
      match ClipRouter.feed r tok with
      | None => mret None
      | Some (r1, speak, None) => tupd (fun s => s <| t_router := Some r1 |>) ;; mret (Some speak)
      | Some (r1, speak, Some id) =>
          let! ok := playRecording n id in
          if ok : bool then tupd (fun s => s <| t_router := Some r1 |>) ;; mret (Some speak)
          else
            let '(r2, rest) := ClipRouter.speakRest r1 in
            tupd (fun s => s <| t_router := Some r2 |>) ;; mret (Some (speak ++ rest))
      end
  end.

Fixpoint sendAll (l : list bytes) : tact unit :=
  match l with [] => mret tt | c :: r => sendToTTS c ;; sendAll r end.

(** [for _, chunk := range chunker.Feed(text)]. *)
Definition speak (text : bytes) : tact unit :=
  let! s := mread in
  let '(chunks, rest) := Feed (t_chunker s) text in
  tupd (fun s => s <| t_chunker := rest |>) ;; sendAll chunks.

(** The stream's callback; [false] when it panics. *)
Definition onToken (n : Node) (roundStart turnStartedAt : Z) (tok : bytes) : tact bool :=
  let! s := mread in
  mwhen (negb (t_first s))
    (let! now := ask (clock o) in
     tupd (fun s => s <| t_first := true |>) ;;
     temit (TWrite (LFirstToken (gen, now - turnStartedAt) (gen, roundStart)))) ;;
  tupd (fun s => s <| t_said ::= fun x => x ++ tok |>) ;;
  let! r := route n tok in
  match r with
  | None => mret false
  | Some text => speak text ;; mret true
  end.

Fixpoint onTokens (n : Node) (roundStart turnStartedAt : Z) (toks : list bytes) : tact bool :=
  match toks with
  | [] => mret true
  | tok :: r =>
      let! ok := onToken n roundStart turnStartedAt tok in
      if ok : bool then onTokens n roundStart turnStartedAt r else mret false
  end.

Definition takeEdge (e : Edge) : tact bytes :=
  let to := nodes (edge_To e) in
  match edge_SpeechClip e with
  | Some clip => playClip clip (clip_Transcript clip ++ [32])
  | None => mwhen (negb (bool_decide (edge_Speech e = []))) (sendToTTS (edge_Speech e ++ [32]))
  end ;;
  temit (TWrite (LNode to)) ;;
  temit (TNodeEntered to) ;;
  mwhen (node_End to) (temit (TWrite LClosing) ;; temit (TEnding EndReasonEndNode)) ;;
  tupd (fun s => s <| t_node := to |>) ;;
  mret edge_done.

Definition defaultTransferTimeout : Z := 30 * second.

(** [transfer]; [waitUntil] between the beep and the handover only waits. *)
Definition transfer (t : Tool) : tact (bytes * toolAction) :=
  if negb (hasTransfer cfg) then mret (transferFailed (bs "call transfer is not available"), actionNone)
  else
    temit (TWrite (LHold (Some (mkHold (HoldAudio cfg) true (negb (bool_decide (tool_Message t = []))) 0 0 false false)))) ;;
    temit (TDial (tool_Destination t) (if tool_Timeout t <=? 0 then defaultTransferTimeout else tool_Timeout t)) ;;
    let! err := ask (dials o) in
    match err with
    | Some e => temit (TWrite (LHold None)) ;; mret (transferFailed e, actionNone)
    | None =>
        temit (TWrite (LHold (Some (mkHold (BeepAudio cfg) false false 0 0 false false)))) ;;
        temit TConnect ;;
        let! err := ask (connects o) in
        match err with
        | Some e => temit (TWrite (LHold None)) ;; mret (transferFailed e, actionNone)
        | None => temit (TEnding EndReasonTransfer) ;; mret (transferred_ok, actionTransferred)
        end
    end.

(** [runTool]'s switch on the kind of tool. *)
Definition runKind (name : bytes) (t : Tool) : tact (bytes * toolAction) :=
  match tool_Kind t with
  | ToolEndCall =>
      temit (TWrite LClosing) ;; temit (TEnding EndReasonEndCallTool) ;; mret (ending_call, actionEndCall)
  | ToolTransfer => transfer t
  | ToolFunction =>
      if negb (tool_hasRun t)
      then mret (toolErrorResult (bs "tool " ++ Quote IsPrint (tool_Name t) ++ bs " has no implementation"), actionNone)
      else
        let! r := ask (fun i => runs o i t) in
        temit (TToolCall name (is_ok r)) ;;
        mret (match r with Ok x => (x, actionNone) | Err e => (toolErrorResult e, actionNone) end)
  end.

Definition runTool (n : Node) (name : bytes) : tact (bytes * toolAction) :=
  match node_tool n name with
  | None => mret (toolErrorResult (bs "unknown tool " ++ Quote IsPrint name), actionNone)
  | Some t =>
      match tool_MessageClip t with
      | Some clip => playClip clip (clip_Transcript clip ++ [32])
      | None => mwhen (negb (bool_decide (tool_Message t = []))) (sendToTTS (tool_Message t ++ [32]))
      end ;;
      temit (TWrite (LToolRunning true)) ;;
      let! r := runKind name t in
      temit (TWrite (LToolRunning false)) ;;
      mret r
  end.

Definition tool_msg (id result : bytes) : Message := mkMessage RTool result [] id.

(** One call of [for _, call := range calls]. *)
Definition doCall (call : bytes * bytes) : tact unit :=
  let '(name, id) := call in
  temit (TFunctionStarted name id) ;;
  let! s := mread in
  let! ra := match node_edge (t_node s) name with
    | Some e =>
        mwhen (node_hasExtraction (t_node s) && hasLog cfg) (temit (TExtract (t_node s) (t_history s))) ;;
        let! r := takeEdge e in mret (r, actionNone)
    | None => runTool (t_node s) name
    end in
  let '(result, action) := ra in
  temit (TFunctionEnded name id result) ;;
  tupd (fun s => s <| t_history ::= fun h => h ++ [tool_msg id result] |>
                   <| t_toolMsgs ::= fun h => h ++ [tool_msg id result] |>
                   <| t_endCall := t_endCall s || is_endCall action |>
                   <| t_transferred := t_transferred s || is_transferred action |>).

Fixpoint doCalls (calls : list (bytes * bytes)) : tact unit :=
  match calls with [] => mret tt | c :: r => doCall c ;; doCalls r end.

(** The reply is complete: the router's rest, then the chunker's. *)
Definition flushReply (n : Node) : tact unit :=
  let! s := mread in
  match t_router s with
  | None => mret tt
  | Some r =>
      let '(r1, text, id) := ClipRouter.flush r in
      tupd (fun s => s <| t_router := Some r1 |>) ;;
      match id with Some id => let! ok := playRecording n id in mret tt | None => mret tt end ;;
      speak text
  end ;;
  let! s := mread in
  let '(remainder, rest) := Flush (t_chunker s) in
  tupd (fun s => s <| t_chunker := rest |>) ;;
  mwhen (negb (bool_decide (remainder = []))) (sendToTTS remainder).

(** The model's calls, and what the turn does after them. *)
Definition toolPhase (calls : list (bytes * bytes)) : tact outcome :=
  tupd (fun s => s <| t_history ::= fun h => h ++ [mkMessage RAssistant (t_said s) calls []] |>
                   <| t_toolMsgs ::= fun h => h ++ [mkMessage RAssistant [] calls []] |>) ;;
  doCalls calls ;;
  let! over := ask (ctx_over o) in
  let! s := mread in
  if over : bool then
    mwhen (t_endCall s)
      (let! ended := ask (call_over o) in mwhen (negb ended) (temit (TPost EndCallToolEv))) ;;
    mret Cancelled
  else mret (if t_endCall s || t_transferred s then Done false else Next).

(** One round of the loop; [last] is [round == maxToolRounds-1]. *)
Definition runRound (turnStartedAt : Z) (last : bool) : tact outcome :=
  let! s := mread in
  let n := t_node s in
  let tools := toolDefs n in
  let msgs := requestMessages n (t_history s) in
  let msgs := if bool_decide (tools = []) then plainHistory Unmarshal EncodeRaw EncodeMap msgs else msgs in
  tupd (fun s => s <| t_router := match node_Clips n with Some _ => Some ClipRouter.new | None => None end |>
                   <| t_said := [] |>) ;;
  let! roundStart := ask (clock o) in
  temit (TStream msgs tools) ;;
  let! r := ask (fun i => streams o i msgs tools) in
  let! ok := onTokens n roundStart turnStartedAt (s_toks r) in
  if negb ok then temit TPanic ;; mret Panicked
  else
    tupd (fun s => s <| t_spoke := t_spoke s || negb (bool_decide (t_said s = [])) |>) ;;
    let! over := ask (ctx_over o) in
    if over : bool then mret Cancelled
    else if s_failed r then mret (Done true)
    else
      flushReply n ;;
      if bool_decide (s_calls r = []) || last then mret (Done false) else toolPhase (s_calls r).

Fixpoint runRounds (turnStartedAt : Z) (left : nat) : tact outcome :=
  match left with
  | O => mret (Done false)
  | S k =>
      let! r := runRound turnStartedAt (k =? 0)%nat in
      match r with Next => runRounds turnStartedAt k | x => mret x end
  end.

(** The fixed line of a turn that failed having said nothing. *)
Definition fallbackLine (failed : bool) : tact unit :=
  let! over := ask (ctx_over o) in
  let! s := mread in
  if failed && negb over && negb (t_spoke s) then
    let n := t_failures s + 1 in
    let '(text, kind, hang) := line (LLMFailures cfg) n in
    tupd (fun s => s <| t_failures := n |>) ;;
    temit (TFallback kind) ;;
    sendToTTS (text ++ [32]) ;;
    mwhen hang (tupd (fun s => s <| t_endCall := true |>) ;; temit (TEnding EndReasonLLMDown))
  else mwhen (negb failed) (tupd (fun s => s <| t_failures := 0 |>)).

(** What ends the turn: [llmDoneEvent], then [EndGeneration]. *)
Definition finishLLMTurn (failed : bool) : tact unit :=
  fallbackLine failed ;;
  tupd (fun s => s <| t_endCall := t_endCall s || node_End (t_node s) |>) ;;
  let! s := mread in
  let! sent := ask (fun i => negb (call_over o i) || posts o i) in
  mwhen sent (temit (TPost (LLMDone failed gen (t_toolMsgs s) (t_endCall s))) ;; temit (TEff (EEndGeneration gen))).

Definition runLLMTurn (turnStartedAt : Z) : tact outcome :=
  let! r := runRounds turnStartedAt (Z.to_nat maxToolRounds) in
  match r with Done failed => finishLLMTurn failed | _ => mret tt end ;;
  mret r.

(** The goroutine's locals when it starts. *)
Definition newTurn (n : Node) (history : list Message) (failures : Z) : turn :=
  mkTurn n history [] false false false false [] None [] failures 0.

End turn.
