(* ===== verification/LlmSpec.v ===== *)
(** The LLM turn of [LlmTurn], whatever the model, the tools and the callers
    of its contexts do: how a turn ends, that the conversation it sends keeps
    the tool protocol, and what a failing model costs the caller. *)

From Stdlib Require Import String.
From S2P Require Import Prelude Text Chunker ClipRouter Workflow AgentState AgentLoop AgentInv LlmTurn.

Local Open Scope Z_scope.
Local Open Scope m_scope.

(** ** Conversations that keep the tool protocol *)

(** The result [r] of the tool call [c] (name, id). *)
Definition answers_call (c : bytes * bytes) (r : Message) : Prop :=
  msg_Role r = RTool /\ msg_ToolCallID r = c.2 /\ msg_ToolCalls r = [].

(** Every tool call is answered at once, in order; no result is unasked for. *)
Inductive paired : list Message -> Prop :=
  | paired_nil : paired []
  | paired_said m l : msg_Role m <> RTool -> msg_ToolCalls m = [] -> paired l -> paired (m :: l)
  | paired_calls m rs l : msg_Role m = RAssistant -> msg_ToolCalls m <> [] ->
      Forall2 answers_call (msg_ToolCalls m) rs -> paired l -> paired (m :: rs ++ l).

Lemma paired_app a b : paired a -> paired b -> paired (a ++ b).
Proof.
  induction 1 as [|m l Hr Hc _ IH|m rs l Hr Hc Hf _ IH]; intros Hb; simpl; [done|by apply paired_said; auto|].
  rewrite <- app_assoc. apply paired_calls; auto.
Qed.

Lemma paired_block c calls rs : calls <> [] -> Forall2 answers_call calls rs ->
  paired (mkMessage RAssistant c calls [] :: rs).
Proof. intros. rewrite <- (app_nil_r rs). apply paired_calls; [done..|constructor]. Qed.

(** Neither tool results nor calls. *)
Definition plain (m : Message) : Prop := msg_Role m <> RTool /\ msg_ToolCalls m = [].

(** No assistant message follows another. *)
Fixpoint spaced (l : list Message) : Prop :=
  match l with
  | a :: (b :: _) as r => ~ (msg_Role a = RAssistant /\ msg_Role b = RAssistant) /\ spaced r
  | _ => True
  end.

(** [spaced] of a list kept last message first is the same. *)
Lemma spaced_snoc l a : spaced l -> (forall b, last l = Some b -> ~ (msg_Role b = RAssistant /\ msg_Role a = RAssistant)) ->
  spaced (l ++ [a]).
Proof.
  induction l as [|x l IH]; [done|]. intros H Ha. destruct l as [|y l]; simpl in *.
  - split; [by apply Ha|done].
  - destruct H as [H1 H2]. split; [done|]. apply IH; [done|]. intros b Hb. by apply Ha.
Qed.

Lemma spaced_rev l : spaced l -> spaced (rev l).
Proof.
  induction l as [|a l IH]; [done|]. simpl. intros H. apply spaced_snoc.
  - apply IH. by destruct l as [|b l]; [|destruct H].
  - intros b Hb. destruct l as [|x l]; [done|]. destruct H as [H _]. simpl in Hb. rewrite last_snoc in Hb.
    injection Hb as <-. tauto.
Qed.

(** What [plainHistory] builds, last message first. *)
Definition rendered (out : list Message) : Prop := Forall plain out /\ 
  spaced out /\ Forall (fun m => msg_Role m <> RAssistant \/ msg_Content m <> []) out.

Lemma rendered_add text out : rendered out -> rendered (add text out).
Proof.
  intros (H1 & H2 & H3). unfold add. case_bool_decide; [done|].
  assert (rendered (assistant_msg text :: out) \/ exists c cs id r, out = mkMessage RAssistant c cs id :: r) as [Hr|(c & cs & id & r & ->)].
  { destruct out as [|[[] c cs id] r]; [left..|right; eauto|left]; (split; [|split]);
      try (constructor; [by split|done]); try (constructor; [by right|done]); simpl; naive_solver. }
  - destruct out as [|[[] c cs id] r]; try done. destruct Hr as (_ & [H4 _] & _). simpl in H4. tauto.
  - inversion H1; inversion H3; subst. split; [|split].
    + constructor; [|done]. done.
    + destruct r; done.
    + constructor; [|done]. right. simpl. destruct c; done.
Qed.

Lemma rendered_plainHistory Unmarshal EncodeRaw EncodeMap msgs :
  Forall plain (plainHistory Unmarshal EncodeRaw EncodeMap msgs) /\
  spaced (plainHistory Unmarshal EncodeRaw EncodeMap msgs).
Proof.
  unfold plainHistory. generalize (call_name msgs) as names. intros names.
  assert (forall out, rendered out -> rendered (fold_left (plain_step Unmarshal EncodeRaw EncodeMap names) msgs out)) as H.
  { induction msgs as [|m l IH]; intros out Ho; [done|]. simpl. apply IH. unfold plain_step.
    destruct (msg_Role m) eqn:Er.
    - destruct Ho as (H1 & H2 & H3). split; [by constructor|]. split; [|constructor; [by left|done]].
      destruct out; simpl; [done|]. split; [by intros []|done].
    - destruct Ho as (H1 & H2 & H3). split; [by constructor|]. split; [|constructor; [by left|done]].
      destruct out; simpl; [done|]. split; [by intros []|done].
    - by apply rendered_add.
    - destruct (toolResponseText _ _ _ _) as [text []]; [by apply rendered_add|done]. }
  destruct (H [] ) as (H1 & H2 & _); [by repeat constructor|]. split; [by apply Forall_rev|by apply spaced_rev].
Qed.

(** ** What the turn's parts do *)

(** What ends a turn. *)
Definition closing_eff (e : teff) : bool :=
  match e with TPost _ | TEff (EEndGeneration _) | TPanic => true | _ => false end.
Definition is_stream (e : teff) : bool := match e with TStream _ _ => true | _ => false end.
Definition quiet (e : teff) : Prop := closing_eff e = false /\ is_stream e = false.
(** end_call ran. *)
Definition end_called (e : teff) : bool := match e with TEnding EndReasonEndCallTool => true | _ => false end.

(** Speaks, plays, writes shared fields; the conversation stays. With [b], end_call does not run. *)
Definition talks (b : bool) (s : turn) (w : list teff) (s' : turn) : Prop :=
  Forall (fun e => quiet e /\ (b = true -> end_called e = false)) w /\
  t_history s' = t_history s /\ t_toolMsgs s' = t_toolMsgs s /\ t_endCall s' = t_endCall s /\
  (t_router s = None -> t_router s' = None).

#[export] Instance talks_rel b : StepRel (talks b).
Proof.
  split; unfold talks; [done|]. intros s1 w1 s2 w2 s3 (H1 & -> & -> & -> & R1) (H2 & -> & -> & -> & R2).
  rewrite Forall_app. auto 10.
Qed.

Ltac talks_tac := idtac; unfold talks; simpl; split; [repeat constructor; congruence|auto using eq_refl].
Ltac talks_auto := unfold tupd, temit in *; does_auto talks_tac.

Lemma talks_ask b {A} (f : nat -> A) : does (talks b) (ask f).
Proof. unfold ask. talks_auto. Qed.
#[export] Hint Resolve talks_ask : does.

(** The same of what may also move the reply's router. *)
Definition tells (b : bool) (s : turn) (w : list teff) (s' : turn) : Prop :=
  Forall (fun e => quiet e /\ (b = true -> end_called e = false)) w /\
  t_history s' = t_history s /\ t_toolMsgs s' = t_toolMsgs s /\ t_endCall s' = t_endCall s.

#[export] Instance tells_rel b : StepRel (tells b).
Proof.
  split; unfold tells; [done|]. intros s1 w1 s2 w2 s3 (H1 & -> & -> & ->) (H2 & -> & -> & ->).
  by rewrite Forall_app.
Qed.

Lemma talks_tells b {A} (m : tact A) : does (talks b) m -> does (tells b) m.
Proof. intros H s. destruct (H s) as (H1 & H2 & H3 & H4 & _). done. Qed.
Lemma tells_weaken {A} (m : tact A) : does (tells true) m -> does (tells false) m.
Proof. intros H s. destruct (H s) as (H1 & H2). split; [|done]. eapply Forall_impl; [exact H1|]. naive_solver. Qed.

Ltac tells_tac := idtac; unfold tells; simpl; split; [repeat constructor; congruence|auto using eq_refl].
Ltac tells_auto := unfold tupd, temit in *; does_auto tells_tac.

Lemma tells_ask b {A} (f : nat -> A) : does (tells b) (ask f).
Proof. apply talks_tells. auto with does. Qed.
#[export] Hint Resolve tells_ask : does.

Section turn.
Context `{U : Unicode}.
Variable IsPrint : Z -> bool.
Variable Unmarshal : bytes -> option (list (bytes * bytes)).
Variable EncodeRaw : bytes -> bytes.
Variable EncodeMap : list (bytes * bytes) -> bytes.
Variable nodes : Z -> Node.
Variable cfg : TurnConfig.
Variable o : outside.
Variable gen : Z.
#[local] Set Default Proof Using "All".

Lemma talks_sendToTTS b text : does (talks b) (sendToTTS o gen text).
Proof. unfold sendToTTS. talks_auto. Qed.
Lemma talks_playClip b clip text : does (talks b) (playClip o gen clip text).
Proof. unfold playClip. talks_auto. Qed.
#[local] Hint Resolve talks_sendToTTS talks_playClip : does.
Lemma talks_playRecording b n id : does (talks b) (playRecording o gen n id).
Proof. unfold playRecording. talks_auto. Qed.
#[local] Hint Resolve talks_playRecording : does.
Lemma talks_sendAll b l : does (talks b) (sendAll o gen l).
Proof. induction l; simpl; talks_auto. Qed.
#[local] Hint Resolve talks_sendAll : does.
Lemma talks_speak b text : does (talks b) (speak o gen text).
Proof. unfold speak. talks_auto. Qed.
#[local] Hint Resolve talks_speak : does.
Lemma talks_takeEdge b e : does (talks b) (takeEdge nodes o gen e).
Proof. unfold takeEdge. talks_auto. Qed.
Lemma talks_transfer b t : does (talks b) (transfer cfg o t).
Proof. unfold transfer. talks_auto. Qed.
#[local] Hint Resolve talks_takeEdge talks_transfer : does.

Lemma tells_speak b text : does (tells b) (speak o gen text).
Proof. apply talks_tells, talks_speak. Qed.
Lemma tells_playRecording b n id : does (tells b) (playRecording o gen n id).
Proof. apply talks_tells, talks_playRecording. Qed.
Lemma tells_sendToTTS b text : does (tells b) (sendToTTS o gen text).
Proof. apply talks_tells, talks_sendToTTS. Qed.
Lemma tells_playClip b clip text : does (tells b) (playClip o gen clip text).
Proof. apply talks_tells, talks_playClip. Qed.
Lemma tells_takeEdge b e : does (tells b) (takeEdge nodes o gen e).
Proof. apply talks_tells, talks_takeEdge. Qed.
Lemma tells_transfer b t : does (tells b) (transfer cfg o t).
Proof. apply talks_tells, talks_transfer. Qed.
#[local] Hint Resolve tells_speak tells_playRecording tells_sendToTTS tells_playClip tells_takeEdge tells_transfer : does.

Lemma tells_route b n tok : does (tells b) (route o gen n tok).
Proof. unfold route. tells_auto. Qed.
#[local] Hint Resolve tells_route : does.
Lemma tells_onToken b n r t tok : does (tells b) (onToken o gen n r t tok).
Proof. unfold onToken. tells_auto. Qed.
#[local] Hint Resolve tells_onToken : does.
Lemma tells_onTokens b n r t toks : does (tells b) (onTokens o gen n r t toks).
Proof. induction toks; simpl; tells_auto. Qed.
Lemma tells_flushReply b n : does (tells b) (flushReply o gen n).
Proof. unfold flushReply. tells_auto. Qed.
Lemma tells_runTool n name : does (tells false) (runTool IsPrint cfg o gen n name).
Proof. unfold runTool, runKind. tells_auto. Qed.

(** Without a router the callback cannot panic. *)
Lemma onToken_plain n r t tok s : t_router s = None ->
  mval (onToken o gen n r t tok) s = true /\ t_router (mstate (onToken o gen n r t tok) s) = None.
Proof.
  intros Hs. unfold onToken. run_state. set (s1 := mstate _ s).
  assert (t_router s1 = None) as H1.
  { assert (does (talks true) (mwhen (negb (t_first s))
      (let! now := ask (clock o) in
       tupd (fun s => s <| t_first := true |>) ;;
       temit (TWrite (LFirstToken (gen, now - t) (gen, r)))))) as H by talks_auto.
    by apply (H s). }
  unfold tupd. run_state. set (s2 := _ <| t_said ::= _ |>).
  assert (t_router s2 = None) as H2 by exact H1.
  unfold route. run_state. rewrite H2. run_state. split; [done|]. by apply (talks_speak true tok s2).
Qed.

Lemma onTokens_plain n r t toks s : t_router s = None -> mval (onTokens o gen n r t toks) s = true.
Proof.
  revert s. induction toks as [|tok l IH]; intros s Hs; simpl; [done|]. run_state.
  destruct (onToken_plain n r t tok s Hs) as [-> H]. by apply IH.
Qed.

(** What [tells] says of a run. *)
Lemma tells_run b {A} (m : tact A) s a s' w : does (tells b) m -> m s = (a, s', w) ->
  Forall quiet w /\ (b = true -> existsb end_called w = false) /\
  t_history s' = t_history s /\ t_toolMsgs s' = t_toolMsgs s /\ t_endCall s' = t_endCall s.
Proof.
  intros Hm E. destruct (Hm s) as (H1 & H2). unfold mout, mstate in *. rewrite E in H1, H2. simpl in *.
  split; [eapply Forall_impl; [exact H1|naive_solver]|]. split; [|done].
  intros ->. clear -H1. induction H1 as [|e w [_ He] _ IH]; simpl; [done|]. by rewrite (He eq_refl), IH.
Qed.

Lemma runTool_ends n name s res a s' w : runTool IsPrint cfg o gen n name s = (res, a, s', w) ->
  existsb end_called w = true -> a = actionEndCall.
Proof.
  unfold runTool. destruct (node_tool n name) as [t|]; [|intros E; minv; done].
  intros E. apply mseq_inv in E as (? & s1 & w1 & w2 & E1 & E & ->).
  assert (existsb end_called w1 = false) as Hw1.
  { refine (proj1 (proj2 (tells_run true _ _ _ _ _ _ E1)) eq_refl). tells_auto. }
  unfold temit in E. minv. rewrite existsb_app, Hw1. simpl. rewrite existsb_app.
  unfold mret in E. simplify_eq. intros Hx. rewrite orb_false_r in Hx.
  unfold runKind in E2. destruct (tool_Kind t).
  - exfalso. assert (existsb end_called x6 = false) as He; [|congruence].
    refine (proj1 (proj2 (tells_run true _ _ _ _ _ _ E2)) eq_refl). tells_auto.
  - unfold temit, mseq, memit, mret in E2. by simplify_eq.
  - exfalso. assert (existsb end_called x6 = false) as He; [|congruence].
    refine (proj1 (proj2 (tells_run true _ _ _ _ _ _ E2)) eq_refl). tells_auto.
Qed.

(** One call is answered by one result; end_call is remembered. *)
Definition called (calls : list (bytes * bytes)) (s : turn) (w : list teff) (s' : turn) : Prop :=
  Forall quiet w /\ (exists rs, Forall2 answers_call calls rs /\
    t_history s' = t_history s ++ rs /\ t_toolMsgs s' = t_toolMsgs s ++ rs) /\
  (t_endCall s || existsb end_called w = true -> t_endCall s' = true).

Lemma doCall_called c s : does_at (called [c]) (doCall IsPrint nodes cfg o gen c) s.
Proof.
  unfold does_at. destruct (doCall IsPrint nodes cfg o gen c s) as [[[] s'] w] eqn:E.
  unfold mout, mstate. rewrite E. simpl. destruct c as [name id]. unfold doCall, temit, tupd in E.
  apply mseq_inv in E as (? & ? & w0 & w1 & E1 & E & ->). injection E1 as <- <- <-.
  apply mseq_inv in E as (? & ? & w2 & w3 & E1 & E & ->). injection E1 as <- <- <-.
  apply mseq_inv in E as ([result action] & s1 & w4 & w5 & E1 & E & ->).
  assert (Forall quiet w4 /\ (existsb end_called w4 = true -> action = actionEndCall) /\
    t_history s1 = t_history s /\ t_toolMsgs s1 = t_toolMsgs s /\ t_endCall s1 = t_endCall s) as (Q & A & H1 & H2 & H3).
  { destruct (node_edge (t_node s) name) as [e|].
    - apply (tells_run true) in E1 as (? & Hn & ?); [|tells_auto]. rewrite Hn by done. naive_solver.
    - pose proof (runTool_ends _ _ _ _ _ _ _ E1). apply (tells_run false) in E1 as (? & _ & ?); [|apply tells_runTool]. done. }
  unfold mseq, memit, mmod in E. simplify_eq/=. unfold called, field_update. simpl. rewrite H1, H2, H3.
  split; [|split].
  - constructor; [done|]. apply Forall_app. split; [done|]. by repeat constructor.
  - exists [tool_msg id result]. split; [|done]. constructor; [done|constructor].
  - rewrite existsb_app. simpl. rewrite orb_false_r. intros [->|Hx]%orb_true_iff; [done|].
    rewrite (A Hx). apply orb_true_r.
Qed.

Lemma doCalls_called calls s : does_at (called calls) (doCalls IsPrint nodes cfg o gen calls) s.
Proof.
  revert s. induction calls as [|c l IH]; intros s; simpl.
  - split; [constructor|]. split; [exists []; by rewrite !app_nil_r|]. simpl. by rewrite orb_false_r.
  - unfold does_at. rewrite mout_seq, mstate_seq.
    destruct (doCall_called c s) as (Q1 & (r1 & A1 & H1 & T1) & E1).
    destruct (IH (mstate (doCall IsPrint nodes cfg o gen c) s)) as (Q2 & (r2 & A2 & H2 & T2) & E2).
    split; [by apply Forall_app|]. split.
    + exists (r1 ++ r2). split; [exact (Forall2_app A1 A2)|]. by rewrite H2, T2, H1, T1, <- !app_assoc.
    + rewrite existsb_app, orb_assoc. intros [Hx|Hx]%orb_true_iff; apply E2; [by rewrite E1|]. rewrite Hx. apply orb_true_r.
Qed.

(** *** A round *)

(** How a round ran: what it asked the model, what it did before and after the
    calls, what it left. *)
Inductive round_ran (s : turn) (msgs : list Message) : outcome -> turn -> list teff -> Prop :=
  | ran_panic s' w : node_Clips (t_node s) <> None -> Forall quiet w -> existsb end_called w = false ->
      round_ran s msgs Panicked s' (TStream msgs (toolDefs (t_node s)) :: w ++ [TPanic])
  | ran_said r s' w : (r = Cancelled /\ (exists t, ctx_over o t = true) \/ exists failed, r = Done failed) ->
      Forall quiet w -> existsb end_called w = false ->
      t_history s' = t_history s -> t_toolMsgs s' = t_toolMsgs s -> t_endCall s' = t_endCall s ->
      round_ran s msgs r s' (TStream msgs (toolDefs (t_node s)) :: w)
  | ran_tools r calls said rs s' w tail : calls <> [] -> Forall2 answers_call calls rs ->
      t_history s' = t_history s ++ mkMessage RAssistant said calls [] :: rs ->
      t_toolMsgs s' = t_toolMsgs s ++ mkMessage RAssistant [] calls [] :: rs ->
      (t_endCall s || existsb end_called w = true -> t_endCall s' = true) ->
      Forall quiet w ->
      (tail = [] /\ r = Done false \/ tail = [] /\ r = Next /\ t_endCall s' = false \/
       r = Cancelled /\ (exists t, ctx_over o t = true) /\
        (tail = [TPost EndCallToolEv] \/ tail = [] /\ (t_endCall s' = true -> exists t, call_over o t = true))) ->
      round_ran s msgs r s' (TStream msgs (toolDefs (t_node s)) :: w ++ tail).

(** What the round sends the model. *)
Definition request (s : turn) : list Message :=
  let msgs := requestMessages (t_node s) (t_history s) in
  if bool_decide (toolDefs (t_node s) = []) then plainHistory Unmarshal EncodeRaw EncodeMap msgs else msgs.

Lemma toolPhase_ran calls s r s' w : toolPhase IsPrint nodes cfg o gen calls s = (r, s', w) ->
  exists rs w1 tail, w = w1 ++ tail /\ Forall2 answers_call calls rs /\
    t_history s' = t_history s ++ mkMessage RAssistant (t_said s) calls [] :: rs /\
    t_toolMsgs s' = t_toolMsgs s ++ mkMessage RAssistant [] calls [] :: rs /\
    (t_endCall s || existsb end_called w1 = true -> t_endCall s' = true) /\ Forall quiet w1 /\
    (tail = [] /\ r = Done false \/ tail = [] /\ r = Next /\ t_endCall s' = false \/
       r = Cancelled /\ (exists t, ctx_over o t = true) /\
        (tail = [TPost EndCallToolEv] \/ tail = [] /\ (t_endCall s' = true -> exists t, call_over o t = true))).
Proof.
  unfold toolPhase, tupd, temit. intros E.
  apply mseq_inv in E as (? & s0 & ? & w0 & E1 & E & ->). unfold mmod in E1. injection E1 as _ <- <-.
  set (s0 := _ <| t_toolMsgs ::= _ |>) in E.
  apply mseq_inv in E as (u & s1 & w1 & w2 & E1 & E & ->).
  pose proof (doCalls_called calls s0) as H. unfold does_at, mout, mstate in H. rewrite E1 in H.
  destruct H as (Q & (rs & A & H1 & H2) & H3). simpl in Q, H1, H2, H3.
  exists rs, w1, w2. split; [done|]. split; [done|].
  assert (forall s2, t_history s2 = t_history s1 -> t_toolMsgs s2 = t_toolMsgs s1 -> t_endCall s2 = t_endCall s1 ->
    t_history s2 = t_history s ++ mkMessage RAssistant (t_said s) calls [] :: rs /\
    t_toolMsgs s2 = t_toolMsgs s ++ mkMessage RAssistant [] calls [] :: rs /\
    (t_endCall s || existsb end_called w1 = true -> t_endCall s2 = true)) as Hk.
  { intros s2 -> -> ->. rewrite H1, H2. unfold s0, field_update. simpl. by rewrite <- !app_assoc. }
  apply mseq_inv in E as (over & s2 & w3 & w4 & E2 & E & ->).
  unfold ask in E2. unfold mseq, mread, tupd, mmod, mret in E2. injection E2 as <- <- <-.
  apply mseq_inv in E as (? & ? & ? & w5 & E2 & E & ->). unfold mread in E2. injection E2 as <- <- <-.
  destruct (ctx_over o (t_tick s1)) eqn:Ec.
  - unfold mwhen, ask, tupd, mseq, mread, mmod, memit, mret, field_update in E. simpl in E.
    destruct (t_endCall s1) eqn:Et; [match type of E with context [call_over o ?t] => destruct (call_over o t) eqn:Eo end|]; simpl in E; injection E as <- <- <-;
      destruct (Hk s1) as (K1 & K2 & K3); try done; rewrite Et in K3;
      (split; [exact K1|split; [exact K2|split; [simpl; rewrite ?Et; exact K3|split; [exact Q|]]]]);
      right; right; (split; [done|]); (split; [by eauto|]).
    + right. split; [done|]. by eauto.
    + by left.
    + right. split; [done|]. simpl. congruence.
  - injection E as <- <- <-. destruct (Hk (s1 <| t_tick ::= S |>)) as (K1 & K2 & K3); [done..|].
    split; [done|]. split; [done|]. split; [done|]. split; [done|]. simpl.
    destruct (t_endCall s1) eqn:Et; simpl; [by left|]. destruct (t_transferred s1); [by left|by right; left].
Qed.

Lemma runRound_ran ts last s r s' w :
  runRound IsPrint Unmarshal EncodeRaw EncodeMap nodes cfg o gen ts last s = (r, s', w) -> round_ran s (request s) r s' w.
Proof.
  unfold runRound, tupd, temit. intros E.
  apply mseq_inv in E as (? & ? & ? & w0 & E1 & E & ->). injection E1 as <- <- <-.
  apply mseq_inv in E as (? & s0 & ? & w1 & E1 & E & ->). injection E1 as _ <- <-.
  change (if bool_decide _ then _ else _) with (request s) in E.
  match type of E with _ ?x = _ => set (s0 := x) in E end.
  apply mseq_inv in E as (rs & s1 & ? & w2 & E1 & E & ->). injection E1 as _ <- <-.
  apply mseq_inv in E as (? & ? & ? & w3 & E1 & E & ->). injection E1 as _ <- <-.
  apply mseq_inv in E as (res & s2 & ? & w4 & E1 & E & ->). injection E1 as _ <- <-.
  match type of E with _ ?x = _ => set (s2 := x) in E end.
  apply mseq_inv in E as (ok & s3 & w5 & w6 & E1 & E & ->). simpl.
  assert (ok = false -> node_Clips (t_node s) <> None) as Hok.
  { intros -> Hc. pose proof (onTokens_plain (t_node s) rs ts (s_toks res) s2) as H. unfold mval in H.
    rewrite E1 in H. simpl in H. rewrite Hc in H. by specialize (H eq_refl). }
  apply (tells_run true) in E1 as (Q1 & C1 & H1 & T1 & L1); [|apply tells_onTokens]. specialize (C1 eq_refl).
  simpl in H1, T1, L1. destruct ok; simpl in E.
  2:{ unfold mseq, memit, mret in E. injection E as <- <- <-. by apply ran_panic; auto. }
  apply mseq_inv in E as (? & s4 & ? & w7 & E1 & E & ->). injection E1 as _ <- <-.
  apply mseq_inv in E as (over & s5 & ? & w8 & E1 & E & ->). injection E1 as <- <- <-.
  match type of E with _ ?x = _ => set (s5 := x) in E end. simpl in E.
  destruct (ctx_over o (t_tick s3)) eqn:Ec.
  { injection E as <- <- <-. rewrite app_nil_r. apply ran_said; eauto. }
  destruct (s_failed res).
  { injection E as <- <- <-. rewrite app_nil_r. apply ran_said; eauto. }
  apply mseq_inv in E as (? & s6 & w9 & w10 & E1 & E & ->).
  apply (tells_run true) in E1 as (Q2 & C2 & H2 & T2 & L2); [|apply tells_flushReply]. specialize (C2 eq_refl).
  simpl in H2, T2, L2.
  destruct (bool_decide (s_calls res = []) || last) eqn:Ecalls.
  { injection E as <- <- <-. rewrite app_nil_r. apply ran_said; try congruence; [by eauto|by apply Forall_app|].
    simpl. by rewrite !existsb_app, C1, C2. }
  apply orb_false_iff in Ecalls as [Ecalls _]. apply bool_decide_eq_false in Ecalls.
  apply toolPhase_ran in E as (rs' & w11 & tail & -> & A & H3 & T3 & L3 & Q3 & Ht).
  rewrite !app_assoc. eapply ran_tools; try eassumption.
  - by rewrite H3, H2, H1.
  - by rewrite T3, T2, T1.
  - rewrite !existsb_app, C1, C2. simpl. by rewrite <- L1, <- L2.
  - by repeat (apply Forall_app; split).
Qed.

(** The turn stays on the workflow's nodes. *)
Definition moves (s : turn) (w : list teff) (s' : turn) : Prop :=
  t_node s' = t_node s \/ exists z, t_node s' = nodes z.
#[local] Instance moves_rel : StepRel moves.
Proof. split; unfold moves; [by left|]. intros s1 w1 s2 w2 s3 [->|H1] [->|H2]; eauto. Qed.

Ltac moves_auto := unfold flushReply, runTool, runKind, transfer, takeEdge, onToken, route, playRecording, speak, playClip,
  sendToTTS, ask, tupd, temit in *; does_auto ltac:(idtac; unfold moves; simpl; eauto).

Lemma moves_sendAll l : does moves (sendAll o gen l).
Proof. induction l; simpl; moves_auto. Qed.
#[local] Hint Resolve moves_sendAll : does.
Lemma moves_onTokens n r t toks : does moves (onTokens o gen n r t toks).
Proof. induction toks; simpl; moves_auto. Qed.
Lemma moves_doCalls calls : does moves (doCalls IsPrint nodes cfg o gen calls).
Proof. induction calls as [|c l IH]; simpl; unfold doCall; moves_auto. Qed.
#[local] Hint Resolve moves_onTokens moves_doCalls : does.
Lemma moves_runRound ts last : does moves (runRound IsPrint Unmarshal EncodeRaw EncodeMap nodes cfg o gen ts last).
Proof. unfold runRound, toolPhase. moves_auto. Qed.

(** ** The whole turn *)

Let rounds := runRounds IsPrint Unmarshal EncodeRaw EncodeMap nodes cfg o gen.
Let whole := runLLMTurn IsPrint Unmarshal EncodeRaw EncodeMap nodes cfg o gen.

Lemma rounds_run ts k s r s' w : rounds ts (S k) s = (r, s', w) -> exists r1 s1 w1 w2,
  round_ran s (request s) r1 s1 w1 /\ moves s w1 s1 /\ w = w1 ++ w2 /\
  match r1 with Next => rounds ts k s1 = (r, s', w2) | _ => r = r1 /\ s' = s1 /\ w2 = [] end.
Proof.
  intros E. apply mseq_inv in E as (r1 & s1 & w1 & w2 & E1 & E & ->). exists r1, s1, w1, w2.
  split; [by eapply runRound_ran|]. split.
  - pose proof (moves_runRound ts (k =? 0)%nat s) as H. unfold does_at, mout, mstate in H. by rewrite E1 in H.
  - split; [done|]. destruct r1; [exact E|unfold mret in E; by simplify_eq..].
Qed.

Definition open_eff (e : teff) : Prop := closing_eff e = false.
Definition count_streams (w : list teff) : nat := length (List.filter is_stream w).

Lemma quiet_open w : Forall quiet w -> Forall open_eff w /\ count_streams w = 0%nat.
Proof.
  intros H. split; [eapply Forall_impl; [exact H|by intros e []]|].
  induction H as [|e w [_ He] _ IH]; unfold count_streams; simpl; [done|]. by rewrite He.
Qed.

(** How the rounds end: what they leave to be said last. *)
Definition rounds_end (s : turn) (r : outcome) (tail : list teff) : Prop :=
  match r with
  | Next => False
  | Done _ => tail = []
  | Cancelled => (tail = [] \/ tail = [TPost EndCallToolEv]) /\ exists t, ctx_over o t = true
  | Panicked => tail = [TPanic] /\ exists n, (n = t_node s \/ exists z, n = nodes z) /\ node_Clips n <> None
  end.

Lemma round_shape s msgs r s' w : round_ran s msgs r s' w -> exists body tail,
  w = body ++ tail /\ Forall open_eff body /\ count_streams body = 1%nat /\ (r = Next /\ tail = [] \/ rounds_end s r tail).
Proof.
  intros R. inversion R as [? v Hc Q C|? ? v Hr Q C|? calls said rs ? v tail Hne A H T L Q Ht]; subst;
    apply quiet_open in Q as [Q N].
  - exists (TStream msgs (toolDefs (t_node s)) :: v), [TPanic]. split; [done|]. split; [by constructor|].
    split; [unfold count_streams in *; simpl; by rewrite N|]. right. split; [done|]. eauto.
  - exists (TStream msgs (toolDefs (t_node s)) :: v), []. rewrite app_nil_r. split; [done|]. split; [by constructor|].
    split; [unfold count_streams in *; simpl; by rewrite N|]. right. destruct Hr as [[-> Hr]|[f ->]]; simpl; auto.
  - exists (TStream msgs (toolDefs (t_node s)) :: v), tail. split; [done|]. split; [by constructor|].
    split; [unfold count_streams in *; simpl; by rewrite N|].
    destruct Ht as [[-> ->]|[(-> & -> & _)|(-> & Hc & Ht)]]; [by right|by left|right].
    split; [|done]. destruct Ht as [->|[-> _]]; auto.
Qed.

Lemma rounds_shape ts k : forall s r s' w, rounds ts k s = (r, s', w) -> exists body tail,
  w = body ++ tail /\ Forall open_eff body /\ (count_streams body <= k)%nat /\ rounds_end s r tail.
Proof.
  induction k as [|k IH]; intros s r s' w E.
  { injection E as <- <- <-. exists [], []. split; [done|]. split; [constructor|]. split; [unfold count_streams; simpl; lia|done]. }
  apply rounds_run in E as (r1 & s1 & w1 & w2 & R & Mv & -> & E).
  destruct (round_shape _ _ _ _ _ R) as (b1 & t1 & -> & O1 & N1 & [[-> ->]|He]).
  - destruct (IH _ _ _ _ E) as (b2 & t2 & -> & O2 & N2 & He). exists (b1 ++ b2), t2.
    rewrite app_nil_r, app_assoc. split; [done|]. split; [by apply Forall_app|].
    split; [unfold count_streams in *; rewrite List.filter_app, length_app; lia|].
    destruct r; simpl in *; try done. destruct He as (-> & n & Hn & Hc). split; [done|]. exists n. split; [|done].
    destruct Hn as [->|Hn]; [|by right]. destruct Mv as [->|Hz]; [by left|by right].
  - assert (r = r1 /\ w2 = []) as [-> ->] by (destruct r1; naive_solver).
    exists b1, t1. rewrite app_nil_r. split; [done|]. split; [done|]. split; [lia|done].
Qed.

(** *** The end of the turn *)

Definition falls (s : turn) (w : list teff) (s' : turn) : Prop :=
  Forall (fun e => quiet e /\ end_called e = false) w /\ t_toolMsgs s' = t_toolMsgs s /\
  (t_endCall s = true -> t_endCall s' = true).
#[local] Instance falls_rel : StepRel falls.
Proof.
  split; unfold falls; [done|]. intros s1 w1 s2 w2 s3 (H1 & -> & L1) (H2 & -> & L2). rewrite Forall_app. auto.
Qed.

Lemma falls_ask {A} (f : nat -> A) : does falls (ask f).
Proof. unfold ask, tupd. does_auto ltac:(idtac; unfold falls; simpl; auto). Qed.
Lemma falls_sendToTTS text : does falls (sendToTTS o gen text).
Proof.
  intros s. destruct (talks_sendToTTS true text s) as (H & _ & H2 & H3 & _). split; [|split; [done|by rewrite H3]].
  eapply Forall_impl; [exact H|]. intros e [Hq Hn]. auto.
Qed.
#[local] Hint Resolve falls_ask falls_sendToTTS : does.
Lemma falls_fallbackLine f : does falls (fallbackLine cfg o gen f).
Proof.
  unfold fallbackLine, tupd, temit.
  does_auto ltac:(idtac; unfold falls; simpl; split; [repeat constructor|auto]).
Qed.

Lemma finish_run f s u s' w : finishLLMTurn cfg o gen f s = (u, s', w) -> exists w1 e tail,
  w = w1 ++ tail /\ Forall open_eff w1 /\ count_streams w1 = 0%nat /\ existsb end_called w = false /\
  (t_endCall s = true -> e = true) /\
  (tail = [TPost (LLMDone f gen (t_toolMsgs s) e); TEff (EEndGeneration gen)] \/
   tail = [] /\ exists t, call_over o t = true).
Proof.
  unfold finishLLMTurn, tupd, temit. intros E.
  apply mseq_inv in E as (? & s1 & w1 & w2 & E1 & E & ->).
  pose proof (falls_fallbackLine f s) as H. unfold does_at, mout, mstate in H. rewrite E1 in H. simpl in H.
  destruct H as (Q & T & L).
  assert (existsb end_called w1 = false) as C.
  { clear -Q. induction Q as [|e w [_ He] _ IH]; simpl; [done|]. by rewrite He. }
  assert (Forall quiet w1) as [O1 N1]%quiet_open by (eapply Forall_impl; [exact Q|by intros e []]).
  unfold ask, tupd, mwhen, mseq, mmod, mread, mret, memit, field_update in E. simpl in E.
  exists w1, (t_endCall s1 || node_End (t_node s1)).
  match type of E with context [call_over o ?t] => destruct (call_over o t) eqn:Eo; [destruct (posts o t)|] end;
    simpl in E; injection E as <- <- <-; rewrite ?T; eexists; (split; [done|]); (split; [done|]); (split; [done|]);
    (split; [rewrite existsb_app, C; done|]); (split; [intros Hs; by rewrite (L Hs)|]); eauto.
Qed.

Lemma whole_run ts s r s' w : whole ts s = (r, s', w) -> exists s1 w1 w2,
  rounds ts 5 s = (r, s1, w1) /\ w = w1 ++ w2 /\
  match r with Done f => exists u, finishLLMTurn cfg o gen f s1 = (u, s', w2) | _ => w2 = [] end.
Proof.
  intros E. apply mseq_inv in E as (r1 & s1 & w1 & w2 & E1 & E & ->).
  apply mseq_inv in E as (u & s2 & w3 & w4 & E2 & E & ->). unfold mret in E. simplify_eq.
  exists s1, w1, w3. rewrite app_nil_r. split; [exact E1|]. split; [done|].
  destruct r; unfold mret in E2; simplify_eq; eauto.
Qed.

(** C5: however the model, its tools and the callers of its contexts behave,
    one LLM turn asks the model at most five times and ends in one of three
    ways: its [llmDoneEvent] and then [EndGeneration], each once and last
    (neither only if the call's context was cancelled); cancelled, having
    posted nothing, or the event that still ends the call; or, only on a node
    with recordings, by the panic of the reply router. *)
Theorem turn_ends ts s : exists body tail,
  mout (whole ts) s = body ++ tail /\ Forall open_eff body /\ (count_streams body <= 5)%nat /\
  match mval (whole ts) s with
  | Done failed =>
      (exists msgs endc, tail = [TPost (LLMDone failed gen msgs endc); TEff (EEndGeneration gen)]) \/
      tail = [] /\ exists t, call_over o t = true
  | r => rounds_end s r tail
  end.
Proof.
  unfold mout, mval. destruct (whole ts s) as [[r s'] w] eqn:E. simpl.
  apply whole_run in E as (s1 & w1 & w2 & E1 & -> & E2).
  destruct (rounds_shape _ _ _ _ _ _ E1) as (body & tail & -> & O1 & N1 & He).
  destruct r as [|f| |]; simpl in He.
  - done.
  - destruct E2 as [u E2]. apply finish_run in E2 as (w1 & e & tl & -> & O2 & N2 & _ & _ & Ht).
    exists (body ++ w1), tl. rewrite He, app_nil_r, app_assoc. split; [done|]. split; [by apply Forall_app|].
    split; [unfold count_streams in *; rewrite List.filter_app, length_app; lia|].
    destruct Ht as [->|Ht]; [left|by right]. eauto.
  - exists body, tail. by rewrite E2, app_nil_r.
  - exists body, tail. by rewrite E2, app_nil_r.
Qed.

(** *** end_call *)

Lemma round_ends s msgs r s' w : round_ran s msgs r s' w -> existsb end_called w = true ->
  t_endCall s' = true /\ (exists f, r = Done f) \/
  r = Cancelled /\ (TPost EndCallToolEv ∈ w \/ exists t, call_over o t = true).
Proof.
  intros R Hx. inversion R as [? v Hc Q C|? ? v Hr Q C|? calls said rs ? v tail Hne A H T L Q Ht]; subst; simpl in Hx.
  - by rewrite existsb_app, C in Hx.
  - congruence.
  - assert (t_endCall s' = true) as Hs.
    { apply L. rewrite existsb_app in Hx. apply orb_true_iff in Hx as [->|Hx]; [apply orb_true_r|].
      destruct Ht as [[-> _]|[[-> _]|(_ & _ & [->|[-> _]])]]; done. }
    destruct Ht as [[-> ->]|[(-> & -> & Hn)|(-> & Hc & [->|[-> Ho]])]]; [by left; eauto|congruence|right..].
    + split; [done|]. left. rewrite app_comm_cons. set_solver.
    + auto.
Qed.

Lemma rounds_ends ts k : forall s r s' w, rounds ts k s = (r, s', w) -> existsb end_called w = true ->
  t_endCall s' = true /\ (exists f, r = Done f) \/
  r = Cancelled /\ (TPost EndCallToolEv ∈ w \/ exists t, call_over o t = true).
Proof.
  induction k as [|k IH]; intros s r s' w E Hx; [by injection E as <- <- <-|].
  apply rounds_run in E as (r1 & s1 & w1 & w2 & R & _ & -> & E).
  rewrite existsb_app in Hx. apply orb_true_iff in Hx as [Hx|Hx].
  - destruct (round_ends _ _ _ _ _ R Hx) as [[Hs [f ->]]|[-> Hp]].
    + destruct E as (-> & -> & ->). eauto.
    + destruct E as (-> & -> & ->). rewrite app_nil_r. auto.
  - destruct r1; [|destruct E as (_ & _ & ->); done..].
    destruct (IH _ _ _ _ E Hx) as [?|[-> [Hp|?]]]; [by left|right; split; [done|]; left|by right; auto].
    apply elem_of_app. by right.
Qed.


(** *** The conversation *)

(** A request keeps the tool protocol; with no tools to offer it has no trace
    of tools, and no two assistant messages in a row. *)
Definition sends_ok (e : teff) : Prop :=
  match e with
  | TStream msgs tools => paired msgs /\ (tools = [] -> Forall plain msgs /\ spaced msgs)
  | TPost (LLMDone _ _ msgs _) => paired msgs
  | _ => True
  end.

Lemma plain_paired l : Forall plain l -> paired l.
Proof. induction 1 as [|m l [H1 H2] _ IH]; by constructor. Qed.

Lemma request_ok s : paired (t_history s) -> sends_ok (TStream (request s) (toolDefs (t_node s))).
Proof.
  intros H. unfold request. simpl. case_bool_decide as Ht.
  - destruct (rendered_plainHistory Unmarshal EncodeRaw EncodeMap (requestMessages (t_node s) (t_history s))).
    auto using plain_paired.
  - split; [|done]. unfold requestMessages. case_bool_decide; [done|]. apply paired_said; [done..|].
    case_bool_decide; simpl; [by apply paired_said|done].
Qed.

Lemma quiet_sends w : Forall quiet w -> Forall sends_ok w.
Proof. intros H. eapply Forall_impl; [exact H|]. intros [] [H1 H2]; try done. Qed.

Lemma round_protocol s r s' w : round_ran s (request s) r s' w -> paired (t_history s) -> paired (t_toolMsgs s) ->
  Forall sends_ok w /\ (r <> Panicked -> paired (t_history s') /\ paired (t_toolMsgs s')).
Proof.
  intros R Hh Ht. pose proof (request_ok s Hh) as Hq.
  inversion R as [? v Hc Q C|? ? v Hr Q C H T L|? calls said rs ? v tail Hne A H T L Q Hl]; subst;
    apply quiet_sends in Q.
  - split; [|done]. constructor; [done|]. apply Forall_app. split; [done|]. by repeat constructor.
  - split; [by constructor|]. by rewrite H, T.
  - split.
    + constructor; [done|]. apply Forall_app. split; [done|].
      destruct Hl as [[-> _]|[[-> _]|(_ & _ & [->|[-> _]])]]; by repeat constructor.
    + intros _. rewrite H, T. split; apply paired_app; auto using paired_block.
Qed.

Lemma rounds_protocol ts k : forall s r s' w, rounds ts k s = (r, s', w) ->
  paired (t_history s) -> paired (t_toolMsgs s) -> Forall sends_ok w /\ (r <> Panicked -> paired (t_toolMsgs s')).
Proof.
  induction k as [|k IH]; intros s r s' w E Hh Ht; [injection E as <- <- <-; split; [constructor|done]|].
  apply rounds_run in E as (r1 & s1 & w1 & w2 & R & _ & -> & E).
  destruct (round_protocol _ _ _ _ R Hh Ht) as [F1 P1]. rewrite Forall_app.
  destruct r1; [destruct P1 as [Hh1 Ht1]; [done|]; destruct (IH _ _ _ _ E Hh1 Ht1); auto|..];
    destruct E as (-> & -> & ->); (split; [split; [done|constructor]|]); intros Hr; by destruct P1.
Qed.

(** C6: if the conversation the turn starts from keeps the tool protocol
    (every tool call answered at once, in order, under its id, and no other
    result), every request of the turn and what it leaves for the history do;
    a request that offers no tools mentions none, as the model's API demands. *)
Theorem tool_protocol ts s : paired (t_history s) -> paired (t_toolMsgs s) -> Forall sends_ok (mout (whole ts) s).
Proof.
  unfold mout. destruct (whole ts s) as [[r s'] w] eqn:E. simpl. intros Hh Ht.
  apply whole_run in E as (s1 & w1 & w2 & E1 & -> & E2).
  destruct (rounds_protocol _ _ _ _ _ _ E1 Hh Ht) as [F P]. apply Forall_app. split; [done|].
  destruct r as [|f| |]; [by subst| |by subst|by subst]. destruct E2 as [u E2].
  apply finish_run in E2 as (v & e & tl & -> & O & N & _ & _ & Hl). apply Forall_app. split.
  - clear -O N. unfold count_streams in N. induction O as [|x v Hx _ IH]; [constructor|]. simpl in N.
    destruct (is_stream x) eqn:Ex; [done|]. constructor; [|auto]. destruct x as [| | | | | | | | | | | |[]|]; done.
  - destruct Hl as [->|[-> _]]; [|constructor]. constructor; [|by constructor]. simpl. by apply P.
Qed.

(** *** A model that fails *)

Hypothesis live : cancelledAt o = None /\ endedAt o = None.

Lemma not_over t : ctx_over o t = false /\ call_over o t = false.
Proof. unfold ctx_over, call_over, reached. destruct live as [-> ->]. done. Qed.

Lemma fails_round ts s : (forall i m t, streams o i m t = mkStreamed [] [] true) ->
  runRound IsPrint Unmarshal EncodeRaw EncodeMap nodes cfg o gen ts false s =
  (Done true, s <| t_router := match node_Clips (t_node s) with Some _ => Some ClipRouter.new | None => None end |>
    <| t_said := [] |> <| t_spoke := t_spoke s |> <| t_tick := S (S (S (t_tick s))) |>, [TStream (request s) (toolDefs (t_node s))]).
Proof.
  intros F. unfold runRound, ask, tupd, temit, mseq, mread, mmod, mret, memit, field_update. simpl.
  rewrite F. simpl. unfold mret. rewrite (proj1 (not_over _)). simpl. by rewrite orb_false_r.
Qed.

Lemma fails_rounds ts s : (forall i m t, streams o i m t = mkStreamed [] [] true) -> exists s1,
  rounds ts 5 s = (Done true, s1, [TStream (request s) (toolDefs (t_node s))]) /\ t_spoke s1 = t_spoke s /\
  t_failures s1 = t_failures s /\ t_toolMsgs s1 = t_toolMsgs s /\ t_endCall s1 = t_endCall s /\ t_node s1 = t_node s.
Proof.
  intros F. eexists. split.
  - unfold rounds. change (runRounds _ _ _ _ _ _ _ _ ts 5) with
      (mseq (runRound IsPrint Unmarshal EncodeRaw EncodeMap nodes cfg o gen ts false)
        (fun r => match r with Next => runRounds IsPrint Unmarshal EncodeRaw EncodeMap nodes cfg o gen ts 4 | x => mret x end)).
    unfold mseq at 1. rewrite fails_round by done. reflexivity.
  - done.
Qed.

Lemma fails_finish s text kind hang : t_spoke s = false ->
  line (LLMFailures cfg) (t_failures s + 1) = (text, kind, hang) -> exists said s',
  finishLLMTurn cfg o gen true s = (tt, s', TFallback kind :: TEff (ESpeak (text ++ [32]) gen) :: said ::
     (if hang then [TEnding EndReasonLLMDown] else []) ++
     [TPost (LLMDone true gen (t_toolMsgs s) (t_endCall s || hang || node_End (t_node s))); TEff (EEndGeneration gen)]) /\
  t_failures s' = t_failures s + 1.
Proof.
  intros Hs El. unfold finishLLMTurn, fallbackLine, sendToTTS, ask, tupd, temit, mwhen, mseq, mread, mmod, mret, memit, field_update.
  simpl. rewrite (proj1 (not_over _)), Hs, El. simpl. rewrite (proj1 (not_over _)). simpl.
  match goal with |- context [speaks o ?t] => destruct (speaks o t) end; destruct hang; simpl;
    rewrite (proj2 (not_over _)); simpl; rewrite ?orb_true_r, ?orb_false_r; eexists _, _; (split; [reflexivity|done]).
Qed.

Lemma ok_finish s u s' w : finishLLMTurn cfg o gen false s = (u, s', w) -> t_failures s' = 0.
Proof.
  unfold finishLLMTurn, fallbackLine, ask, tupd, temit, mwhen, mseq, mread, mmod, mret, memit, field_update.
  simpl. rewrite (proj2 (not_over _)). simpl. by intros [= <- <- <-].
Qed.

(** A model that fails without a word costs the caller no silence: the
    turn, unless cancelled, says the fallback line, counts one more failed
    turn, and ends the call exactly when the count has reached the policy's
    limit (if it has one); a turn that succeeds starts the count again. *)
Theorem failing_model ts s : t_spoke s = false ->
  ((forall i m t, streams o i m t = mkStreamed [] [] true) ->
   let '(text, kind, hang) := line (LLMFailures cfg) (t_failures s + 1) in
   hang = (0 <? MaxFailedTurns (LLMFailures cfg)) && (MaxFailedTurns (LLMFailures cfg) <=? t_failures s + 1) /\
   t_failures (mstate (whole ts) s) = t_failures s + 1 /\ exists said,
   mout (whole ts) s = TStream (request s) (toolDefs (t_node s)) :: TFallback kind :: TEff (ESpeak (text ++ [32]) gen) :: said ::
     (if hang then [TEnding EndReasonLLMDown] else []) ++
     [TPost (LLMDone true gen (t_toolMsgs s) (t_endCall s || hang || node_End (t_node s))); TEff (EEndGeneration gen)]) /\
  (mval (whole ts) s = Done false -> t_failures (mstate (whole ts) s) = 0).
Proof.
  intros Hs. split.
  - intros F. destruct (line (LLMFailures cfg) (t_failures s + 1)) as [[text kind] hang] eqn:El.
    split; [unfold line in El; repeat case_match; simplify_eq; done|].
    destruct (fails_rounds ts s F) as (s1 & Hr & H1 & H2 & H3 & H4 & H5).
    rewrite <- H2 in El. rewrite <- H1 in Hs. destruct (fails_finish s1 text kind hang Hs El) as (said & s2 & Hf & Hn).
    assert (whole ts s = (Done true, s2, [TStream (request s) (toolDefs (t_node s))] ++ mout (finishLLMTurn cfg o gen true) s1 ++ [])) as Hw.
    { unfold whole, runLLMTurn. unfold mseq at 1. change (Z.to_nat maxToolRounds) with 5%nat. fold rounds. rewrite Hr.
      unfold mseq, mout. rewrite Hf. reflexivity. }
    unfold mstate, mout in *. rewrite Hw, Hf. simpl. rewrite <- H2, <- H3, <- H4, <- H5. split; [done|]. exists said. by rewrite app_nil_r.
  - unfold mval, mstate. destruct (whole ts s) as [[r s'] w] eqn:E. simpl. intros ->.
    apply whole_run in E as (s1 & w1 & w2 & E1 & -> & u & E2). by eapply ok_finish.
Qed.
End turn.

(** ** The call's history *)

Section call.
Context `{U : Unicode}.
Variable cfg : Config.
Variable start : Node.

(** What every step keeps: the history and the turn's tool messages are
    paired, and so is what the next turn is given. *)
Definition conv (s : st) (w : list effect) (s' : st) : Prop :=
  paired (history s) /\ paired (turnToolMsgs s) ->
  paired (history s') /\ paired (turnToolMsgs s') /\
  Forall (fun e => match e with EStartLLM _ h _ => paired h | _ => True end) w.

#[local] Instance conv_rel : StepRel conv.
Proof.
  split; unfold conv; [intros s [? ?]; auto|]. intros s1 w1 s2 w2 s3 H1 H2 H.
  destruct (H1 H) as (? & ? & ?). destruct H2 as (? & ? & ?); [done|]. rewrite Forall_app. done.
Qed.

Lemma paired_one m : msg_Role m <> RTool -> msg_ToolCalls m = [] -> paired [m].
Proof. intros. by apply paired_said; [..|constructor]. Qed.

Ltac conv_tac := idtac; unfold conv; simpl; intros [? ?]; repeat case_match; simpl;
  (split; [auto 10 using paired_app, paired_one, paired_nil|split; [auto using paired_nil|repeat constructor; auto]]).
Ltac conv_auto := does_auto conv_tac.

Lemma conv_queue_frames n gen req : does conv (queue_frames n gen req).
Proof. induction n as [|n IH]; simpl; unfold upd, emit; conv_auto. Qed.
Lemma conv_speak_chunks e l gen : does conv (speak_chunks e l gen).
Proof. induction l as [|c l IH]; simpl; unfold AgentLoop.sendToTTS, emit; conv_auto. Qed.
#[local] Hint Resolve conv_queue_frames conv_speak_chunks : does.

Definition posted_ok (l : label) : Prop :=
  match l with LRun _ (Event (LLMDone _ _ msgs _)) => paired msgs | _ => True end.

Lemma conv_step l : posted_ok l -> does conv (agent_step cfg start l).
Proof.
  intros Hl. destruct l as [e [[| | | | | | | | | | |]| | |]| | | | | |];
    unfold agent_step; unfold_handlers; unfold handleTTSAudio, first_audio, startTurn, startTurnChunks, openTTS,
    stopIdleTimer, hangup, upd, emit; conv_auto.
Qed.

(** If every turn posts tool messages that keep the tool protocol (as
    [LlmTurn] does, from such a conversation), the conversation keeps it over
    any run of the call, interruptions included, and every turn is started
    from one that does. *)
Theorem history_keeps_protocol ls s : Forall posted_ok ls -> paired (history s) -> paired (turnToolMsgs s) ->
  let s' := mstate (agent_run cfg start ls) s in
  paired (history s') /\ paired (turnToolMsgs s') /\
  Forall (fun e => match e with EStartLLM _ h _ => paired h | _ => True end) (mout (agent_run cfg start ls) s).
Proof.
  intros Hl Hh Ht. assert (does conv (agent_run cfg start ls)) as H; [|by apply (H s)]. clear -Hl.
  induction Hl as [|l ls Hl _ IH]; intros s; simpl; [apply does_at_ret, _|].
  apply does_at_call; [apply _|by apply conv_step|]. intros f s1. apply does_at_call; [apply _|apply IH|].
  intros fs s2. apply does_at_ret, _.
Qed.
End call.

(** ** Witnesses *)

(** A node whose only tool ends the call. *)
Definition bye_node : Node := mkNode [] [] (bs "p") [] None None false true false
  [mkTool (bs "end_call") ToolEndCall [] None false [] 0] [].
Definition bye_call : bytes * bytes := (bs "end_call", bs "id1").
(** The model says goodbye and calls it; the turn's context is cancelled at [c]. *)
Definition bye_model (c : option nat) : outside := mkOutside (fun _ => 0) c None (fun _ => true)
  (fun _ _ _ => mkStreamed [bs "Bye."] [bye_call] false) (fun _ _ => Ok []) (fun _ => None) (fun _ => None) (fun _ => true).
Definition dumb_model : outside := mkOutside (fun _ => 0) None None (fun _ => true)
  (fun _ _ _ => mkStreamed [] [] true) (fun _ _ => Ok []) (fun _ => None) (fun _ => None) (fun _ => true).
Definition turn_cfg : TurnConfig := mkTurnConfig false [] [] (mkPolicy 3 [] []) false.
Definition bye_turn (o : outside) : tact outcome :=
  runLLMTurn (fun _ => true) (fun _ => None) (fun b => b) (fun _ => []) (fun _ => bye_node) turn_cfg o 1 0.

Example bye_said : mout (bye_turn (bye_model None)) (newTurn bye_node [user_msg (bs "ok")] 0) =
  [TStream [system_msg (bs "p"); user_msg (bs "ok")] [bs "end_call"];
   TWrite (LFirstToken (1, 0) (1, 0)); TEff (ESpeak (bs "Bye.") 1); TEff (ETTSChars 4);
   TFunctionStarted (bs "end_call") (bs "id1"); TWrite (LToolRunning true); TWrite LClosing;
   TEnding EndReasonEndCallTool; TWrite (LToolRunning false); TFunctionEnded (bs "end_call") (bs "id1") ending_call;
   TPost (LLMDone false 1 [mkMessage RAssistant [] [bye_call] []; tool_msg (bs "id1") ending_call] true);
   TEff (EEndGeneration 1)].
Proof. vm_compute. reflexivity. Qed.


Lemma tool_protocol_witness : paired [user_msg (bs "ok")] /\
  Forall sends_ok (mout (bye_turn (bye_model None)) (newTurn bye_node [user_msg (bs "ok")] 0)).
Proof.
  assert (paired [user_msg (bs "ok")]) as H by (apply paired_said; [discriminate|reflexivity|constructor]).
  split; [exact H|]. apply (tool_protocol (fun _ => true) (fun _ => None) (fun b => b) (fun _ => []) (fun _ => bye_node) turn_cfg
    (bye_model None) 1 0 (newTurn bye_node [user_msg (bs "ok")] 0)); [exact H|constructor].
Defined.

Lemma failing_model_witness : t_failures (mstate (bye_turn dumb_model) (newTurn bye_node [] 2)) = 3 /\
  TPost (LLMDone true 1 [] true) ∈ mout (bye_turn dumb_model) (newTurn bye_node [] 2).
Proof.
  destruct (failing_model (fun _ => true) (fun _ => None) (fun b => b) (fun _ => []) (fun _ => bye_node) turn_cfg
    dumb_model 1 (conj eq_refl eq_refl) 0 (newTurn bye_node [] 2) eq_refl) as [H _].
  specialize (H (fun _ _ _ => eq_refl)). destruct (line _ _) as [[text kind] hang] eqn:E. vm_compute in E. injection E as <- <- <-.
  destruct H as (_ & Hn & said & Hw). split; [exact Hn|]. unfold bye_turn. rewrite Hw. simpl. repeat (apply elem_of_cons; first [by left|right]).
Defined.

Definition call_cfg : Config := mkConfig true 0 0 false 0 0 0 0 false 0 false.
Definition one_reply : list label :=
  [LRun (mkEnv 0 None true true true true true false) (Event (LLMDone false 0 [mkMessage RAssistant [] [bye_call] []; tool_msg (bs "id1") ending_call] true))].

Lemma history_keeps_protocol_witness : Forall posted_ok one_reply /\
  paired (turnToolMsgs (mstate (agent_run call_cfg bye_node one_reply) (NewHandler bye_node))).
Proof.
  assert (Forall posted_ok one_reply) as H.
  { constructor; [|constructor]. apply (paired_block [] [bye_call] [_]); [discriminate|]. by repeat constructor. }
  split; [exact H|].
  apply (history_keeps_protocol call_cfg bye_node one_reply (NewHandler bye_node) H); constructor.
Defined.
