(* ===== verification/AgentSpec.v ===== *)
(** What the agent's operations do, branch by branch: re-slicing the TTS audio,
    recording what was heard, pausing and resuming, the drain timeout, and what
    becomes of a transcript. *)

From Stdlib Require Import String.
From S2P Require Import Prelude Text Workflow Backchannel AgentState AgentLoop AgentFrame.

Local Open Scope Z_scope.
Local Open Scope m_scope.

Section spec.
Context `{U : Unicode}.
Variable cfg : Config.

(** *** Recording a reply *)

(** The sentences heard when request [played] was the last one played. *)
Fixpoint heard (played : Z) (l : list spokenChunk) : list spokenChunk :=
  match l with
  | [] => []
  | c :: t => if (played =? 0) || (played <? c_req c) then [] else c :: heard played t
  end.

Lemma reply_text_heard p l b last :
  reply_text true p l b last = reply_text false p (heard p l) b last.
Proof.
  revert b last. induction l as [|c l IH]; intros b last; [done|].
  simpl. destruct (_ || _); [done|]. simpl. apply IH.
Qed.

(** After an interruption the conversation records only what the caller
    heard: recording a cut reply is recording, in full, the reply made of the
    sentences up to the last one that had started playing. *)
Theorem cut_records_heard s :
  recordReply true s =
  recordReply false (s <| turnChunks := heard (playingReq s) (turnChunks s) |>).
Proof. unfold recordReply, mseq, mread, upd, mmod. simpl. by rewrite reply_text_heard. Qed.

(** *** Re-slicing the TTS audio *)

Definition room (s : st) : nat := Z.to_nat (outboundBufferFrames - Z.of_nat (length (outbound s))).

Definition queued (s : st) (fs : list outFrame) (rest : bytes) : st :=
  s <| ttsBuf := rest |> <| outbound := outbound s ++ take (room s) fs |>.

Lemma queue_frames_spec n gen req s :
  (length (ttsBuf s) <= n * 640 + 639)%nat ->
  exists fs rest,
    concat fs ++ rest = ttsBuf s /\ Forall (fun f => length f = 640%nat) fs /\
    (length rest < 640)%nat /\
    let frames := map (fun f => mkFrame f req gen) fs in
    queue_frames n gen req s =
      (tt, queued s frames rest, replicate (length fs - room s) (EError StTtsFull)).
Proof.
  revert s. induction n as [|n IH]; intros s Hn.
  { exists [], (ttsBuf s). split_and!; try done; [lia|]. simpl. unfold mret, queued.
    rewrite take_nil, app_nil_r. by destruct s. }
  simpl. unfold mseq at 1, mread.
  destruct (FrameSize <=? Z.of_nat (length (ttsBuf s))) eqn:E; unfold FrameSize in E; bool_to_prop; cycle 1.
  { exists [], (ttsBuf s). split_and!; try done; [lia|]. simpl. unfold mret, queued.
    rewrite take_nil, app_nil_r. by destruct s. }
  set (f := take 640 (ttsBuf s)).
  assert (length f = 640%nat) as Hf by (unfold f; rewrite length_take; lia).
  set (s1 := s <| ttsBuf := drop 640 (ttsBuf s) |>).
  set (F := mkFrame f req gen).
  assert ((length (drop 640 (ttsBuf s)) <= n * 640 + 639)%nat) as Hlen
    by (rewrite length_drop; lia).
  unfold mseq at 1, upd at 1, mmod at 1. change (Z.to_nat FrameSize) with 640%nat. fold s1.
  destruct (Z.of_nat (length (outbound s)) <? outboundBufferFrames) eqn:Er; bool_to_prop.
  - set (s2 := s1 <| outbound := outbound s ++ [F] |>).
    destruct (IH s2 Hlen) as (fs & rest & Hc & Hfs & Hr & Hq).
    exists (f :: fs), rest. split_and!; [|by constructor|done|].
    { simpl. rewrite <- app_assoc. rewrite Hc. apply take_drop. }
    cbn zeta in *. unfold mseq at 1, upd, mmod. change (outbound s1) with (outbound s).
    match goal with |- context [queue_frames n gen req ?x] => change x with s2 end. rewrite Hq.
    assert (room s = S (room s2)) as Hroom.
    { unfold room. simpl. rewrite length_app. simpl. lia. }
    rewrite Hroom. unfold queued. rewrite Hroom. simpl. by rewrite <- app_assoc.
  - destruct (IH s1 Hlen) as (fs & rest & Hc & Hfs & Hr & Hq).
    exists (f :: fs), rest. split_and!; [|by constructor|done|].
    { simpl. rewrite <- app_assoc. rewrite Hc. apply take_drop. }
    cbn zeta in *. unfold mseq at 1, emit, memit.
    match goal with |- context [queue_frames n gen req ?x] => change x with s1 end. rewrite Hq.
    assert (room s = 0%nat) as Hroom by (unfold room; lia).
    assert (room s1 = 0%nat) as Hroom1 by done.
    rewrite Hroom, Hroom1. unfold queued. rewrite Hroom, Hroom1. simpl.
    by rewrite Nat.sub_0_r.
Qed.

(** Neither the queue nor the bytes left over change, and nothing is lost. *)
Definition same_audio (s : st) (w : list effect) (s' : st) : Prop :=
  ttsBuf s' = ttsBuf s /\ outbound s' = outbound s /\ EError StTtsFull ∉ w.

#[local] Instance same_audio_rel : StepRel same_audio.
Proof.
  split; unfold same_audio; [set_solver|].
  intros s1 w1 s2 w2 s3 (E1 & E2 & E3) (F1 & F2 & F3). split_and!; [congruence..|set_solver].
Qed.

Ltac same_auto :=
  does_auto ltac:(unfold same_audio; simpl; repeat case_match; simpl; split_and!; set_solver).

Lemma same_first_audio e gen : does same_audio (first_audio e gen).
Proof. unfold first_audio, upd, emit. same_auto. Qed.

Lemma same_seq {B} (m : act unit) (k : unit -> act B) s (P : st -> list effect -> Prop) :
  does same_audio m ->
  (forall s', ttsBuf s' = ttsBuf s -> outbound s' = outbound s ->
    exists w v, mout (k tt) s' = w ++ v /\ EError StTtsFull ∉ w /\ P (mstate (k tt) s') v) ->
  exists w v, mout (mseq m k) s = w ++ v /\ EError StTtsFull ∉ w /\ P (mstate (mseq m k) s) v.
Proof.
  intros Hm Hk. rewrite mout_seq, mstate_seq. destruct (Hm s) as (E1 & E2 & E3).
  destruct (mval m s). destruct (Hk (mstate m s) E1 E2) as (w & v & -> & Hw & HP).
  exists (mout m s ++ w), v. rewrite app_assoc. set_solver.
Qed.

(** What an audio event leaves behind, and the frames lost. *)
Definition resliced (s : st) (pcm : bytes) (req gen : Z) (s' : st) (v : list effect) : Prop :=
  exists fs rest,
    concat fs ++ rest = ttsBuf s ++ pcm /\
    Forall (fun f => length f = 640%nat) fs /\ (length rest < 640)%nat /\
    ttsBuf s' = rest /\
    outbound s' = outbound s ++ take (room s) (map (fun f => mkFrame f req gen) fs) /\
    v = replicate (length fs - room s) (EError StTtsFull).

Definition append_audio (pcm : bytes) (gen req : Z) : act unit :=
  upd (fun s => s <| ttsBuf := ttsBuf s ++ pcm |>) ;;
  let! s := mread in
  queue_frames (length (ttsBuf s)) gen req.

Lemma append_audio_spec s pcm gen req :
  resliced s pcm req gen (mstate (append_audio pcm gen req) s) (mout (append_audio pcm gen req) s).
Proof.
  set (s1 := s <| ttsBuf := ttsBuf s ++ pcm |>).
  destruct (queue_frames_spec (length (ttsBuf s1)) gen req s1 ltac:(lia))
    as (fs & rest & Hc & Hfs & Hr & Hq).
  assert (append_audio pcm gen req s = queue_frames (length (ttsBuf s1)) gen req s1) as E.
  { unfold append_audio, mseq, upd, mmod, mread.
    match goal with |- context [queue_frames ?n gen req ?x] => change x with s1; change n with (length (ttsBuf s1)) end.
    by destruct (queue_frames _ _ _ _) as [[??]?]. }
  unfold mstate, mout. rewrite E, Hq. exists fs, rest. by split_and!.
Qed.

Lemma handleTTSAudio_spec e pcm req text s :
  exists w v, mout (handleTTSAudio e pcm (curGen s) req text) s = w ++ v /\ EError StTtsFull ∉ w /\
    resliced s pcm req (curGen s) (mstate (handleTTSAudio e pcm (curGen s) req text) s) v.
Proof.
  set (gen := curGen s). unfold handleTTSAudio.
  rewrite mstate_seq, mout_seq. change (mval mread s) with s. change (mstate mread s) with s.
  change (mout mread s) with (@nil effect). rewrite app_nil_l.
  change (gen =? curGen s) with (gen =? gen). rewrite Z.eqb_refl. simpl negb. cbv iota.
  apply (same_seq _ _ _ (resliced s pcm req gen)).
  { unfold upd. same_auto. }
  intros s1 B1 O1. apply (same_seq _ _ _ (resliced s pcm req gen)).
  { pose proof same_first_audio. same_auto. }
  intros s2 B2 O2. exists [], (mout (append_audio pcm gen req) s2).
  split_and!; [done|set_solver|].
  destruct (append_audio_spec s2 pcm gen req) as (fs & rest & Hc & Hf & Hr & Hb & Ho & Hv).
  unfold room in *. exists fs, rest. unfold room. rewrite <- O1, <- O2, <- B1, <- B2. by split_and!.
Qed.

(** C18: the audio of a reply reaches the caller byte for byte and in order: an
    audio event of the current generation cuts the bytes left over and the new
    ones into frames of exactly 640 bytes, keeps fewer than 640 bytes for the
    next event, and appends the frames, marked with their request and
    generation, to the playback queue until its 1500 places are full; only
    what does not fit is lost, one error each. *)
Theorem audio_resliced e pcm gen req text s :
  gen = curGen s ->
  let s' := mstate (handleTTSAudio e pcm gen req text) s in
  exists fs rest,
    concat fs ++ rest = ttsBuf s ++ pcm /\
    Forall (fun f => length f = 640%nat) fs /\ (length rest < 640)%nat /\
    ttsBuf s' = rest /\
    outbound s' = outbound s ++ take (room s) (map (fun f => mkFrame f req gen) fs) /\
    exists w, mout (handleTTSAudio e pcm gen req text) s =
      w ++ replicate (length fs - room s) (EError StTtsFull) /\ EError StTtsFull ∉ w.
Proof.
  intros -> s'. destruct (handleTTSAudio_spec e pcm req text s)
    as (w & v & E & Hw & fs & rest & ? & ? & ? & ? & ? & ->).
  exists fs, rest. split_and!; try done. by exists w.
Qed.
(** *** The player: what the media tick does while the agent speaks *)

Record player := mkPlayer {
  p_hold : option holdPlayer; p_state : State; p_paused : bool;
  p_out : list outFrame; p_gen : Z; p_req : Z; p_frames : list bytes;
  p_replaying : bool; p_idx : Z; p_pending : bool; p_pgen : Z;
  p_done : bool; p_tool : bool; p_empty : Z; p_playback : bool; p_drain : bool;
}.

Definition player_of (s : st) : player := mkPlayer
  (hold s) (state s) (paused s) (outbound s) (sentGen s) (sentReq s) (sentFrames s)
  (replaying s) (replayIdx s) (replayPending s) (replayGen s)
  (ttsDeliveryDone s) (toolRunning s) (emptyTicks s) (playbackDoneSig s) (drainTimeoutSig s).

(** One tick without the queue's head: the reply is over, a tool is running, or
    the synthesizer is late. *)
Definition player_empty (p : player) : player :=
  let '(mkPlayer h st pa o g r fs rp ix pe pg d t em pb dr) := p in
  if d then mkPlayer h st pa o g r fs rp ix pe pg false t 0 true dr
  else if t then mkPlayer h st pa o g r fs rp ix pe pg d t 0 pb dr
  else if speakingDrainTimeoutTicks <=? em + 1
       then mkPlayer h (if bool_decide (st = StateSpeaking) then StateListening else st) pa o g r fs rp ix
              pe pg d t 0 pb (bool_decide (st = StateSpeaking) || dr)
       else mkPlayer h st pa o g r fs rp ix pe pg d t (em + 1) pb dr.

Definition player_queue (p : player) : list bytes * player :=
  let '(mkPlayer h st pa o g r fs rp ix pe pg d t em pb dr) := p in
  match o with
  | f :: rest =>
      let new := negb (f_gen f =? g) || negb (f_req f =? r) in
      ([f_pcm f], mkPlayer h st pa rest (if new then f_gen f else g) (if new then f_req f else r)
         ((if new then [] else fs) ++ [f_pcm f]) rp ix pe pg d t 0 pb dr)
  | [] => ([], player_empty p)
  end.

Definition player_tick (p : player) : list bytes * player :=
  let '(mkPlayer h st pa o g r fs rp ix pe pg d t em pb dr) := p in
  let ix := if pe then 0 else ix in
  let rp := if pe then negb (bool_decide (fs = [])) && (g =? pg) else rp in
  match (if rp then fs !! Z.to_nat ix else None) with
  | Some f => ([f], mkPlayer h st pa o g r fs rp (Z.succ ix) false pg d t 0 pb dr)
  | None => player_queue (mkPlayer h st pa o g r fs false ix false pg d t em pb dr)
  end.

Definition same_player (s : st) (_ : list effect) (s' : st) : Prop := player_of s' = player_of s.

#[local] Instance same_player_rel : StepRel same_player.
Proof. split; unfold same_player; congruence. Qed.

Lemma same_feed_part e pcm : does same_player (feed_part cfg e pcm).
Proof. unfold feed_part, maybeFlushSTT, upd, emit. does_auto ltac:(reflexivity). Qed.

(** Every part of a tick from the queue, as the player sees it. *)
Lemma empty_tick_player s :
  mval empty_tick s = [] /\ player_of (mstate empty_tick s) = player_empty (player_of s).
Proof.
  unfold empty_tick, mval, mstate, mseq, mread, mmod, mret, mwhen, upd, emit, memit, is_state.
  unfold player_of at 2, player_empty. cbv [fst snd].
  destruct (ttsDeliveryDone s) eqn:Ed; [split; reflexivity|].
  destruct (toolRunning s) eqn:Et;
    [split; [reflexivity|unfold player_of; cbn; by rewrite Ed, Et]|].
  unfold field_update. cbn -[Z.leb]. unfold Z.succ.
  destruct (speakingDrainTimeoutTicks <=? emptyTicks s + 1);
    [destruct (bool_decide (state s = StateSpeaking))|];
    (split; [reflexivity|unfold player_of; cbn; by rewrite ?Ed, ?Et]).
Qed.

Lemma play_queue_player e s :
  mval (play_queue e) s = (player_queue (player_of s)).1 /\
  player_of (mstate (play_queue e) s) = (player_queue (player_of s)).2.
Proof.
  unfold play_queue. rewrite mval_seq, mstate_seq.
  change (mval mread s) with s. change (mstate mread s) with s.
  destruct (empty_tick_player s) as [Hv Hp].
  destruct (outbound s) as [|f rest] eqn:Eo.
  { rewrite Hv, Hp. clear Hv Hp. assert (p_out (player_of s) = []) as Ep by done.
    destruct (player_of s). simpl in Ep. by subst. }
  clear Hv Hp. do 3 (rewrite mval_seq, mstate_seq; cbv beta). set (s1 := mstate (upd _) s).
  assert (player_of s1 = let '(mkPlayer h st pa _ g r fs rp ix pe pg d t _ pb dr) := player_of s in
    mkPlayer h st pa rest g r fs rp ix pe pg d t 0 pb dr) as H1 by done.
  assert (p_out (player_of s) = f :: rest) as Ho by done.
  assert (sentGen s = p_gen (player_of s) /\ sentReq s = p_req (player_of s)) as [-> ->] by done.
  destruct (player_of s) as [h st pa o g r fs rp ix pe pg d t em pb dr]. simpl in Ho. subst o.
  clearbody s1. set (new := negb (f_gen f =? g) || negb (f_req f =? r)).
  cbn [p_gen p_req]. fold new. set (s2 := mstate (mwhen new _) s1).
  assert (player_of s2 = mkPlayer h st pa rest (if new then f_gen f else g) (if new then f_req f else r)
    (if new then [] else fs) rp ix pe pg d t 0 pb dr) as H2.
  { unfold s2. destruct new; [|done]. unfold player_of in H1.
    injection H1 as ????????????????. unfold player_of, mwhen, upd, mstate, mmod. cbn. f_equal; first [assumption | done | by f_equal]. }
  clearbody s2. unfold player_queue. fold new. cbn [fst snd]. split; [done|].
  unfold player_of in H2. injection H2 as ????????????????.
  unfold player_of, upd, mstate, mmod, mret. cbn. f_equal; first [assumption | done | by f_equal].
Qed.

Lemma replay_or_play_player e s :
  mval (replay_or_play e) s = (player_tick (player_of s)).1 /\
  player_of (mstate (replay_or_play e) s) = (player_tick (player_of s)).2.
Proof.
  unfold replay_or_play. rewrite mval_seq, mstate_seq.
  set (s1 := mstate (upd _) s). change (mval (upd _) s) with tt. cbv beta.
  assert (player_of s1 = (let '(mkPlayer h st pa o g r fs rp ix pe pg d t em pb dr) := player_of s in
    mkPlayer h st pa o g r fs (if pe then negb (bool_decide (fs = [])) && (g =? pg) else rp)
      (if pe then 0 else ix) false pg d t em pb dr)) as H1.
  { unfold s1, upd, mstate, mmod, player_of. cbn. destruct (replayPending s) eqn:E; cbn; by rewrite ?E. }
  unfold player_tick. destruct (player_of s) as [h st pa o g r fs rp ix pe pg d t em pb dr] eqn:Es.
  clearbody s1. rewrite mval_seq, mstate_seq.
  change (mval mread s1) with s1. change (mstate mread s1) with s1.
  set (rp1 := if pe then _ else rp) in *. set (ix1 := if pe then 0 else ix) in *.
  assert (replaying s1 = rp1 /\ replayIdx s1 = ix1 /\ sentFrames s1 = fs) as (-> & -> & ->).
  { unfold player_of in H1. injection H1 as ????????????????. done. }
  destruct rp1 eqn:Erp; cycle 1.
  { rewrite <- H1. apply play_queue_player. }
  destruct (fs !! Z.to_nat ix1) as [f|].
  - rewrite mval_seq, mstate_seq. split; [done|]. unfold upd, mstate, mmod, mret. unfold player_of in *.
    cbn. injection H1 as ????????????????. f_equal; first [assumption | done | by f_equal].
  - rewrite mval_seq, mstate_seq. change (mval (upd _) s1) with tt. cbv beta.
    set (s2 := mstate (upd _) s1).
    assert (player_of s2 = mkPlayer h st pa o g r fs false ix1 false pg d t em pb dr) as <-.
    { unfold s2, upd, mstate, mmod, player_of in *. cbn. injection H1 as ????????????????. f_equal; first [assumption | done | by f_equal]. }
    apply play_queue_player.
Qed.

(** A tick on which the local VAD hears nothing. *)
Lemma ProcessFrame_player e pcm s :
  hold s = None -> state s = StateSpeaking -> (paused s = true \/ detected e = false) ->
  let p := player_of s in
  let r := if paused s then ([], p) else player_tick p in
  mval (ProcessFrame cfg e pcm) s = r.1 /\ player_of (mstate (ProcessFrame cfg e pcm) s) = r.2.
Proof.
  intros Hh Hst Hd p r. unfold ProcessFrame. rewrite mval_seq, mstate_seq.
  change (mval mread s) with s. change (mstate mread s) with s. rewrite Hh.
  rewrite mval_seq, mstate_seq. pose proof (same_feed_part e pcm s) as H1.
  unfold does_at, same_player in H1.
  set (s1 := mstate (feed_part cfg e pcm) s) in *. clearbody s1.
  rewrite mval_seq, mstate_seq. change (mval mread s1) with s1. change (mstate mread s1) with s1.
  assert (state s1 = StateSpeaking /\ paused s1 = paused s) as [-> Hp1].
  { split; [rewrite <- Hst; exact (f_equal p_state H1)|exact (f_equal p_paused H1)]. }
  unfold processSpeakingFrame. rewrite mval_seq, mstate_seq.
  change (mval mread s1) with s1. change (mstate mread s1) with s1. rewrite Hp1.
  unfold r, p. clear r p. destruct (paused s); [by rewrite mval_seq, mstate_seq|].
  destruct Hd as [Hd|Hd]; [done|].
  rewrite mval_seq, mstate_seq. change (mstate (emit _) s1) with s1.
  rewrite mval_seq, mstate_seq. set (s2 := mstate (upd _) s1).
  assert (player_of s2 = player_of s) as H2 by (rewrite <- H1; unfold s2; by rewrite Hd).
  clearbody s2. rewrite mval_seq, mstate_seq.
  change (mval mread s2) with s2. change (mstate mread s2) with s2.
  rewrite Hd. simpl andb. cbv iota. rewrite <- H2. apply replay_or_play_player.
Qed.

Fixpoint ticks (l : list (env * bytes)) : act (list (list bytes)) :=
  match l with
  | [] => mret []
  | (e, pcm) :: r => let! f := ProcessFrame cfg e pcm in let! fs := ticks r in mret (f :: fs)
  end.

Definition ptick (p : player) : list bytes * player :=
  if p_paused p then ([], p) else player_tick p.

Fixpoint pticks (n : nat) (p : player) : list (list bytes) * player :=
  match n with
  | O => ([], p)
  | S k => let '(f, p1) := ptick p in let '(fs, p2) := pticks k p1 in (f :: fs, p2)
  end.

(** The local VAD hears nothing, or the reply is paused and it does not matter. *)
Definition calm (s : st) (l : list (env * bytes)) : Prop :=
  paused s = true \/ Forall (fun x => detected x.1 = false) l.

Lemma ptick_fixed p : p_paused (ptick p).2 = p_paused p /\ p_hold (ptick p).2 = p_hold p.
Proof.
  unfold ptick. destruct p. simpl. destruct p_paused0; [done|].
  unfold player_tick, player_queue, player_empty. by repeat (case_match; simplify_eq/=).
Qed.

(** While the agent speaks, ticks are the player's ticks. *)
Lemma ticks_player l s :
  hold s = None -> calm s l ->
  (forall k, (k < length l)%nat -> p_state (pticks k (player_of s)).2 = StateSpeaking) ->
  mval (ticks l) s = (pticks (length l) (player_of s)).1 /\
  player_of (mstate (ticks l) s) = (pticks (length l) (player_of s)).2.
Proof.
  revert s. induction l as [|[e pcm] l IH]; intros s Hh Hc Hs; [done|].
  cbn [ticks length pticks]. do 2 (rewrite mval_seq, mstate_seq; cbv beta).
  assert (paused s = true \/ detected e = false) as Hd.
  { destruct Hc as [Hc|Hc]; [by left|]. right. by apply Forall_cons in Hc as [? _]. }
  destruct (ProcessFrame_player e pcm s Hh (Hs 0%nat (Nat.lt_0_succ _)) Hd) as [Hv Hp].
  change (if paused s then ([], player_of s) else player_tick (player_of s))
    with (ptick (player_of s)) in Hv, Hp.
  pose proof (ptick_fixed (player_of s)) as [Hpa Hho]. rewrite Hv.
  set (s1 := mstate (ProcessFrame cfg e pcm) s) in *. clearbody s1.
  assert (Hs' : forall k, (k < length l)%nat -> p_state (pticks k (player_of s1)).2 = StateSpeaking).
  { intros k Hk. specialize (Hs (S k) ltac:(simpl; lia)). cbn [pticks] in Hs.
    rewrite Hp. destruct (ptick (player_of s)) as [f p1]. simpl in Hs |- *.
    by destruct (pticks k p1). }
  rewrite <- Hp in Hpa, Hho.
  destruct (IH s1) as [Hv' Hp']; [exact (eq_trans Hho Hh)| |done|].
  { destruct Hc as [Hc|Hc]; [left; exact (eq_trans Hpa Hc)|]. right.
    by apply Forall_cons in Hc as [_ ?]. }
  rewrite mval_ret, mstate_ret, Hv', Hp', Hp. destruct (ptick (player_of s)) as [f p1]. simpl.
  by destruct (pticks (length l) p1).
Qed.

Lemma pticks_app n m p :
  pticks (n + m) p =
    ((pticks n p).1 ++ (pticks m (pticks n p).2).1, (pticks m (pticks n p).2).2).
Proof.
  revert p. induction n as [|n IH]; intros p; simpl; [by destruct (pticks m p)|].
  destruct (ptick p) as [f p1]. rewrite IH. destruct (pticks n p1) as [fs p2]. simpl.
  by destruct (pticks m p2).
Qed.

(** A pause is a pause: while the reply is paused the caller is sent
    nothing, whatever the local VAD hears, and the reply waits untouched: the
    queued frames, the sentence being played and the turn's state are as they
    were, however long it lasts. *)
Theorem paused_plays_nothing l s :
  hold s = None -> state s = StateSpeaking -> paused s = true ->
  mval (ticks l) s = replicate (length l) [] /\ player_of (mstate (ticks l) s) = player_of s.
Proof.
  intros Hh Hst Hp.
  assert (forall n, pticks n (player_of s) = (replicate n [], player_of s)) as Hn.
  { intros n. induction n as [|n IH]; [done|]. simpl. unfold ptick.
    change (p_paused (player_of s)) with (paused s). by rewrite Hp, IH. }
  destruct (ticks_player l s) as [Hv Hq]; [done|by left| |by rewrite Hv, Hq, Hn].
  intros k _. by rewrite Hn.
Qed.

(** A player that speaks, is not paused, and has nothing to replay from the
    start of a sentence. *)
Lemma replay_ticks n h o g r fs i pg d t em pb dr :
  (i + n <= length fs)%nat ->
  exists em',
  pticks n (mkPlayer h StateSpeaking false o g r fs true (Z.of_nat i) false pg d t em pb dr) =
    (map (fun f => [f]) (take n (drop i fs)),
     mkPlayer h StateSpeaking false o g r fs true (Z.of_nat (i + n)) false pg d t em' pb dr).
Proof.
  revert i em. induction n as [|n IH]; intros i em Hn; cbn [pticks].
  { exists em. by rewrite Nat.add_0_r. }
  unfold ptick, player_tick. cbn [p_paused]. rewrite Nat2Z.id. destruct (lookup_lt_is_Some_2 fs i) as [f Hf]; [lia|]. rewrite Hf.
  replace (Z.succ (Z.of_nat i)) with (Z.of_nat (S i)) by lia.
  destruct (IH (S i) 0 ltac:(lia)) as [em' ->]. exists em'.
  rewrite (drop_S fs f i Hf). simpl. by replace (i + S n)%nat with (S (i + n)) by lia.
Qed.

Lemma queue_ticks n h o g r fs rp i pg d t em pb dr :
  (n <= length o)%nat -> (rp = true -> fs !! Z.to_nat i = None) ->
  let q := pticks n (mkPlayer h StateSpeaking false o g r fs rp i false pg d t em pb dr) in
  q.1 = map (fun f => [f_pcm f]) (take n o) /\ p_state q.2 = StateSpeaking.
Proof.
  revert o g r fs rp em. induction n as [|n IH]; intros o g r fs rp em Hn Hrp; [done|].
  destruct o as [|f o]; [simpl in Hn; lia|]. cbn [pticks]. unfold ptick, player_tick.
  cbn [p_paused].
  assert ((if rp then fs !! Z.to_nat i else None) = None) as -> by (destruct rp; [by apply Hrp|done]).
  cbn [player_queue].
  specialize (IH o (if negb (f_gen f =? g) || negb (f_req f =? r) then f_gen f else g)
    (if negb (f_gen f =? g) || negb (f_req f =? r) then f_req f else r)
    ((if negb (f_gen f =? g) || negb (f_req f =? r) then [] else fs) ++ [f_pcm f]) false 0
    ltac:(simpl in Hn; lia) ltac:(done)).
  destruct (pticks n _) as [out p']. simpl in *. destruct IH as [-> ->]. done.
Qed.

Lemma resume_pticks n k h o g r fs rp i d t em pb dr :
  fs <> [] -> (n <= length fs)%nat -> (k <= length o)%nat -> (k <> 0%nat -> n = length fs) ->
  let q := pticks (n + k) (mkPlayer h StateSpeaking false o g r fs rp i true g d t em pb dr) in
  q.1 = map (fun f => [f]) (take n fs) ++ map (fun f => [f_pcm f]) (take k o) /\
  p_state q.2 = StateSpeaking.
Proof.
  intros Hfs Hn Hk Hnk. destruct (decide (n + k = 0)%nat) as [Hz|Hz].
  { assert (n = 0%nat /\ k = 0%nat) as [-> ->] by lia. done. }
  assert (pticks (n + k) (mkPlayer h StateSpeaking false o g r fs rp i true g d t em pb dr) =
    pticks (n + k) (mkPlayer h StateSpeaking false o g r fs true (Z.of_nat 0) false g d t em pb dr)) as ->.
  { destruct (n + k)%nat; [done|]. cbn [pticks]. unfold ptick, player_tick. cbn [p_paused].
    rewrite bool_decide_eq_false_2, Z.eqb_refl by done. done. }
  destruct (replay_ticks n h o g r fs 0 g d t em pb dr Hn) as [em' E].
  rewrite pticks_app, E. cbn [fst snd]. rewrite drop_0.
  destruct (decide (k = 0%nat)) as [->|Hk0]; [done|].
  destruct (queue_ticks k h o g r fs true (Z.of_nat (0 + n)) g d t em' pb dr Hk) as [-> ->]; [|done].
  intros _. rewrite Nat2Z.id, (Hnk Hk0). by apply lookup_ge_None_2.
Qed.

(** C19: after a false interruption the caller hears the interrupted sentence
    again from its start and then the rest of the reply: from the moment the
    reply is resumed, with the VAD quiet, the ticks play the frames of the
    sentence that was being played, in order, and then the queue, losing
    nothing. *)
Theorem resume_replays l s :
  hold s = None -> state s = StateSpeaking -> paused s = false ->
  replayPending s = true -> sentGen s = replayGen s -> sentFrames s <> [] ->
  Forall (fun x => detected x.1 = false) l ->
  length l = (length (sentFrames s) + length (outbound s))%nat ->
  mval (ticks l) s = map (fun f => [f]) (sentFrames s ++ map f_pcm (outbound s)).
Proof.
  intros Hh Hst Hpa Hpe Hg Hfs Hl Hlen.
  assert (forall n k, (n <= length (sentFrames s))%nat -> (k <= length (outbound s))%nat ->
    (k <> 0%nat -> n = length (sentFrames s)) ->
    let q := pticks (n + k) (player_of s) in
    q.1 = map (fun f => [f]) (take n (sentFrames s)) ++ map (fun f => [f_pcm f]) (take k (outbound s)) /\
    p_state q.2 = StateSpeaking) as Hq.
  { intros n k. unfold player_of. rewrite Hst, Hpa, Hpe, <- Hg. by apply resume_pticks. }
  destruct (ticks_player l s Hh (or_intror Hl)) as [-> _].
  - intros k Hk. destruct (decide (k <= length (sentFrames s))%nat) as [Hle|Hgt].
    + rewrite <- (Nat.add_0_r k). apply Hq; lia.
    + replace k with (length (sentFrames s) + (k - length (sentFrames s)))%nat by lia.
      apply Hq; lia.
  - rewrite Hlen. destruct (Hq (length (sentFrames s)) (length (outbound s))) as [-> _]; [lia..|].
    rewrite !firstn_all, map_app, map_map. done.
Qed.

Lemma drain_ticks n h g r fs ix pg em pb dr :
  em + Z.of_nat n < speakingDrainTimeoutTicks ->
  pticks n (mkPlayer h StateSpeaking false [] g r fs false ix false pg false false em pb dr) =
  (replicate n [],
   mkPlayer h StateSpeaking false [] g r fs false ix false pg false false (em + Z.of_nat n) pb dr).
Proof.
  revert em. induction n as [|n IH]; intros em Hn; cbn [pticks]; [by rewrite Z.add_0_r|].
  unfold ptick, player_tick, player_queue, player_empty. cbn [p_paused].
  rewrite (proj2 (Z.leb_gt _ _)) by lia. rewrite IH by lia.
  by replace (em + 1 + Z.of_nat n) with (em + Z.of_nat (S n)) by lia.
Qed.

Lemma drain_last h g r fs ix pg pb dr :
  pticks 500 (mkPlayer h StateSpeaking false [] g r fs false ix false pg false false 0 pb dr) =
  (replicate 500 [],
   mkPlayer h StateListening false [] g r fs false ix false pg false false 0 pb true).
Proof.
  change 500%nat with (499 + 1)%nat. rewrite pticks_app, drain_ticks by (vm_compute; done). done.
Qed.

(** A dead synthesizer cannot hold the call: while the agent speaks with
    nothing left to play, no end of delivery and no tool running, the 500th
    tick in a row ends the turn (10 s), and not one tick earlier. *)
Theorem drain_timeout l s :
  hold s = None -> state s = StateSpeaking -> paused s = false ->
  outbound s = [] -> ttsDeliveryDone s = false -> toolRunning s = false ->
  replayPending s = false -> replaying s = false -> emptyTicks s = 0 ->
  Forall (fun x => detected x.1 = false) l -> (length l <= 500)%nat ->
  let s' := mstate (ticks l) s in
  mval (ticks l) s = replicate (length l) [] /\
  (state s' = StateSpeaking <-> (length l < 500)%nat) /\
  ((length l = 500)%nat -> state s' = StateListening /\ drainTimeoutSig s' = true).
Proof.
  intros Hh Hst Hpa Ho Hd Ht Hpe Hr Hem Hl Hlen.
  assert (player_of s = mkPlayer None StateSpeaking false [] (sentGen s) (sentReq s) (sentFrames s) false
    (replayIdx s) false (replayGen s) false false 0 (playbackDoneSig s) (drainTimeoutSig s)) as E.
  { unfold player_of. by rewrite Hh, Hst, Hpa, Ho, Hd, Ht, Hpe, Hr, Hem. }
  assert (forall n, (n < 500)%nat -> pticks n (player_of s) =
    (replicate n [], mkPlayer None StateSpeaking false [] (sentGen s) (sentReq s) (sentFrames s) false
       (replayIdx s) false (replayGen s) false false (0 + Z.of_nat n) (playbackDoneSig s)
       (drainTimeoutSig s))) as Hn.
  { intros n Hn. rewrite E, drain_ticks by (unfold speakingDrainTimeoutTicks; lia). done. }
  intros s'. destruct (ticks_player l s Hh (or_intror Hl)) as [Hv Hp].
  { intros k Hk. by rewrite Hn by lia. }
  fold s' in Hp. rewrite Hv. change (state s') with (p_state (player_of s')).
  change (drainTimeoutSig s') with (p_drain (player_of s')). rewrite Hp.
  destruct (decide (length l = 500%nat)) as [Hl5|Hl5].
  - rewrite Hl5, E, drain_last. simpl. split_and!; [done|split; [done|lia]|done].
  - rewrite Hn by lia. simpl. split_and!; [done|split; [lia|done]|lia].
Qed.
(** *** What becomes of a transcript *)

(** The timing marks of the utterance are consumed by its transcript. *)
Definition consumed (s : st) : st :=
  s <| speechEndAt := None |> <| lastSoundAt := None |> <| sttFlushAt := 0 |>.

(** The decision, once the transcript is not too early. *)
Definition transcript_go (e : env) (text : bytes) (speechEnd lastSound : option Z) : act unit :=
  let! s := mread in
  if is_state StateThinking s || is_state StateSpeaking s then
    mwhen (is_state StateSpeaking s && AckFilter cfg && interruptible cfg s &&
           negb (junkTranscript text)) (holdSpeech e text)
  else acceptUserTurn e text (utteranceStart e s) speechEnd lastSound.

Lemma handleFinalTranscript_eq e text s :
  handleFinalTranscript cfg e text s =
  (if now e <? silenceUntil s then mret tt
   else if paused s then
     if junkTranscript text then mret tt
     else if closing s then resumeReply false
     else if AckFilter cfg && backchannel text then holdSpeech e text ;; resumeReply true
     else confirmInterruption e ;; transcript_go e text (speechEndAt s) (lastSoundAt s)
   else transcript_go e text (speechEndAt s) (lastSoundAt s)) (consumed s).
Proof.
  unfold handleFinalTranscript. rewrite mread_seq_at. unfold upd at 1. rewrite mmod_seq_at. done.
Qed.

(** The speech [holdSpeech] keeps. *)
Definition held_speech (e : env) (text : bytes) (s : st) : heldSpeech :=
  mkHeld text (curGen s) (default (now e) (utteranceStart e s)).

(** While the agent thinks or speaks and the reply is not paused, the caller
    is muted: their transcript starts no turn, changes neither the conversation
    nor the reply, and is at most kept for the end of the reply - when the
    acknowledgement filter is on, the agent is speaking, the caller may
    interrupt here and it is more than a lone letter. *)
Theorem muted_transcript e text s :
  paused s = false -> state s = StateThinking \/ state s = StateSpeaking ->
  handleFinalTranscript cfg e text s =
    if (silenceUntil s <=? now e) && is_state StateSpeaking s && AckFilter cfg &&
       interruptible cfg s && negb (junkTranscript text)
    then (tt, consumed s <| held := held s ++ [held_speech e text s] |>, [ESpeechHeld])
    else (tt, consumed s, []).
Proof.
  intros Hp Hst. rewrite handleFinalTranscript_eq, Hp, Z.leb_antisym.
  destruct (now e <? silenceUntil s); [done|]. unfold transcript_go. rewrite mread_seq_at.
  assert (is_state StateThinking (consumed s) || is_state StateSpeaking (consumed s) = true) as ->.
  { unfold is_state. change (state (consumed s)) with (state s). by destruct Hst as [-> | ->]. }
  change (is_state StateSpeaking (consumed s)) with (is_state StateSpeaking s).
  change (interruptible cfg (consumed s)) with (interruptible cfg s). cbn [negb].
  change (true && is_state StateSpeaking s) with (is_state StateSpeaking s).
  destruct (is_state StateSpeaking s && AckFilter cfg && interruptible cfg s && negb (junkTranscript text));
    reflexivity.
Qed.

(** A transcript over a paused reply settles the interruption: a lone
    letter settles nothing; when the call is ending, or when it is only
    acknowledgements, the reply is resumed from the start of its sentence (an
    acknowledgement kept for its end). *)
Theorem paused_transcript_resumes e text s :
  paused s = true -> silenceUntil s <= now e ->
  junkTranscript text || closing s || AckFilter cfg && backchannel text = true ->
  handleFinalTranscript cfg e text s =
    if junkTranscript text then (tt, consumed s, [])
    else
      let ack := negb (closing s) in
      let s1 := if ack then consumed s <| held := held s ++ [held_speech e text s] |> else consumed s in
      (tt, s1 <| resumeSeq := resumeSeq s + 1 |> <| replayGen := curGen s |>
              <| replayPending := true |> <| paused := false |>,
       if ack then [ESpeechHeld; EFalseInterruption] else []).
Proof.
  intros Hp Hs Hc. rewrite handleFinalTranscript_eq, Hp, (proj2 (Z.ltb_ge _ _)) by done.
  destruct (junkTranscript text); [done|]. destruct (closing s) eqn:Ecl; [reflexivity|].
  simpl in Hc. rewrite Hc. reflexivity.
Qed.
(** The queue and the pause flag stay as they are. *)
Definition same_queue (s : st) (_ : list effect) (s' : st) : Prop :=
  outbound s' = outbound s /\ paused s' = paused s.

#[local] Instance same_queue_rel : StepRel same_queue.
Proof. split; unfold same_queue; intuition congruence. Qed.

Lemma same_queue_accept e text a b c : does same_queue (acceptUserTurn e text a b c).
Proof.
  unfold acceptUserTurn, startTurn, stopIdleTimer, startTurnChunks, openTTS, upd, emit.
  does_auto ltac:(unfold same_queue; simpl; split; reflexivity).
Qed.

Lemma cutReply_clears e s :
  outbound (mstate (cutReply e) s) = [] /\ ttsBuf (mstate (cutReply e) s) = [].
Proof.
  unfold cutReply. do 2 (rewrite mstate_seq; cbv beta). generalize (mstate (recordReply true) (mstate cancelTurn s)).
  intros s1. rewrite mstate_seq. cbv beta. generalize (mstate (upd (fun s => s <| curGen ::= Z.succ |> <| agentQuietSince := Some (now e) |>)) s1).
  intros s2. do 2 (rewrite mstate_seq; cbv beta). done.
Qed.

(** Neither the state nor the pause flag changes. *)
Definition same_mode (s : st) (_ : list effect) (s' : st) : Prop :=
  state s' = state s /\ paused s' = paused s.

#[local] Instance same_mode_rel : StepRel same_mode.
Proof. split; unfold same_mode; intuition congruence. Qed.

Lemma same_mode_cutReply e : does same_mode (cutReply e).
Proof. unfold cutReply, cancelTurn, recordReply, upd, emit. does_auto ltac:(unfold same_mode; simpl; split; reflexivity). Qed.

(** The reply's resume check is off, the caller has the floor. *)
Definition consumed_pause (s : st) : st :=
  s <| resumeSeq ::= Z.succ |> <| state := StateTranscribing |> <| paused := false |>.

Lemma confirmInterruption_spec e s :
  let s' := mstate (confirmInterruption e) s in
  state s' = StateTranscribing /\ paused s' = false /\ outbound s' = [] /\ ttsBuf s' = [] /\
  EBargeIn ∈ mout (confirmInterruption e) s.
Proof.
  set (s3 := consumed_pause s).
  assert (confirmInterruption e s = (emit EBargeIn ;; dropHeld ;; cutReply e) s3) as E
    by (unfold confirmInterruption; unfold upd at 1; by rewrite mmod_seq_at).
  assert (mstate (confirmInterruption e) s = mstate (emit EBargeIn ;; dropHeld ;; cutReply e) s3) as ->
    by (unfold mstate; by rewrite E).
  assert (mout (confirmInterruption e) s = mout (emit EBargeIn ;; dropHeld ;; cutReply e) s3) as ->
    by (unfold mout; by rewrite E).
  do 2 (rewrite mstate_seq; cbv beta). rewrite mout_seq. set (s4 := mstate dropHeld _).
  assert (state s4 = StateTranscribing /\ paused s4 = false) as [H1 H2] by done.
  destruct (same_mode_cutReply e s4) as [E1 E2]. destruct (cutReply_clears e s4) as [E3 E4].
  split_and!; [congruence|congruence|done|done|]. apply elem_of_app. left. by left.
Qed.

(** Words over a paused reply, not too early, that are more than a lone letter
    and more than an acknowledgement, in a call that is not ending. *)
Definition real_interruption (e : env) (text : bytes) (s : st) : Prop :=
  paused s = true /\ silenceUntil s <= now e /\ junkTranscript text = false /\
  closing s = false /\ AckFilter cfg && backchannel text = false.

(** A real interruption takes the floor: words that are no acknowledgement,
    said over a paused reply, cut it - the queue and the bytes left over are
    emptied, the pause is over - and the same transcript becomes the caller's
    turn. *)
Theorem interruption_cuts e text s :
  real_interruption e text s ->
  let s' := mstate (handleFinalTranscript cfg e text) s in
  let w := mout (handleFinalTranscript cfg e text) s in
  outbound s' = [] /\ paused s' = false /\ EBargeIn ∈ w /\ exists at_, EUserSaid text at_ ∈ w.
Proof.
  intros (Hp & Hs & Hj & Hc & Ha) s' w.
  assert (handleFinalTranscript cfg e text s =
    (confirmInterruption e ;; transcript_go e text (speechEndAt s) (lastSoundAt s)) (consumed s)) as E.
  { by rewrite handleFinalTranscript_eq, Hp, (proj2 (Z.ltb_ge _ _)), Hj, Hc, Ha. }
  unfold s', w. rewrite (mstate_at _ _ _ _ E), (mout_at _ _ _ _ E). clear E s' w.
  rewrite mstate_seq, mout_seq.
  destruct (confirmInterruption_spec e (consumed s)) as (H1 & H2 & H3 & H4 & H5).
  set (s1 := mstate (confirmInterruption e) (consumed s)) in *. clearbody s1.
  assert (transcript_go e text (speechEndAt s) (lastSoundAt s) s1 =
    acceptUserTurn e text (utteranceStart e s1) (speechEndAt s) (lastSoundAt s) s1) as E.
  { unfold transcript_go. rewrite mread_seq_at. unfold is_state. by rewrite H1. }
  rewrite (mstate_at _ _ _ _ E), (mout_at _ _ _ _ E).
  destruct (same_queue_accept e text (utteranceStart e s1) (speechEndAt s) (lastSoundAt s) s1) as [Q1 Q2].
  rewrite Q1, Q2. split_and!; [done|done|set_solver|].
  exists (utteranceStart e s1). apply elem_of_app. right.
  unfold acceptUserTurn. do 2 rewrite mout_seq. simpl. by left.
Qed.
End spec.
