(* ===== verification/AgentRuns.v ===== *)
(** Concrete runs of the voice agent: the witnesses of [AgentInv] and
    [AgentSpec], and runs that end where the code does not mean to. *)

From Stdlib Require Import String.
From S2P Require Import Prelude Text Workflow Backchannel AgentState AgentLoop AgentFrame AgentInv AgentSpec.

Local Open Scope Z_scope.
Local Open Scope m_scope.

Definition cfg0 : Config := mkConfig true (10 * second) 0 false 0 0 0 0 true second true.

Definition node0 : Node := mkNode [] (bs "start") (bs "prompt") [] None None false true false [] [].

(** Everything succeeds, the VAD hears nothing. *)
Definition calm_at (t : Z) : env := mkEnv t None true true true true true false.
Definition loud_at (t : Z) : env := mkEnv t (Some t) true true true true true true.
Definition no_tts (t : Z) : env := mkEnv t None false true true true true false.

Definition ev (t : Z) (e : event) : label := LRun (calm_at t) (Event e).
Definition tick (t : Z) : label := LFrame (calm_at t) [].
Definition loud (t : Z) : label := LFrame (loud_at t) [].

Definition run_from (s : st) (l : list label) : st := mstate (agent_run cfg0 node0 l) s.
Definition played (s : st) (l : list label) : list bytes := concat (mval (agent_run cfg0 node0 l) s).
Definition effects (s : st) (l : list label) : list effect := mout (agent_run cfg0 node0 l) s.

(** A frame of one byte value, and the audio of [n] of them. *)
Definition pcm (b : Z) (n : nat) : bytes := replicate (n * 640) b.
Definition marks (l : list bytes) : list Z := map (fun f => default (-1) (head f)) l.

(** The opening turn, two sentences of two frames each, queued. *)
Definition speaking : list label :=
  [ev 1 OpeningEv; ev 2 (TTSAudio (pcm 1 2) 1 1 (bs "one")); ev 3 (TTSAudio (pcm 2 2) 1 2 (bs "two"))].

Definition spoken : st := run_from (NewHandler node0) speaking.

Example speaking_plays : marks (played spoken [tick 4; tick 5; tick 6; tick 7]) = [1; 1; 2; 2].
Proof. by vm_compute. Qed.

(** *** Witnesses *)

Definition paused_st : st := run_from spoken [tick 4; loud 5; LRun (calm_at 6) BargeInSignal].

Lemma paused_plays_nothing_witness :
  hold paused_st = None /\ state paused_st = StateSpeaking /\ paused paused_st = true /\
  mval (ticks cfg0 [(calm_at 7, []); (loud_at 8, [])]) paused_st = [[]; []].
Proof.
  split; [by vm_compute|]. split; [by vm_compute|]. split; [by vm_compute|].
  apply (paused_plays_nothing cfg0 [(calm_at 7, []); (loud_at 8, [])] paused_st); by vm_compute.
Defined.

Definition resumed_st : st := run_from paused_st [ev (9 * second) (ResumeCheck 1)].

Definition three_ticks : list (env * bytes) := [(calm_at 1, []); (calm_at 2, []); (calm_at 3, []); (calm_at 4, [])].

Lemma resume_replays_witness :
  marks (concat (mval (ticks cfg0 three_ticks) resumed_st)) = [1; 1; 2; 2].
Proof.
  rewrite (resume_replays cfg0 three_ticks resumed_st);
    [by vm_compute|by vm_compute|by vm_compute|by vm_compute|by vm_compute|by vm_compute|by vm_compute
    |repeat constructor|by vm_compute].
Defined.

Lemma audio_resliced_witness :
  let s' := mstate (handleTTSAudio (calm_at 5) (pcm 3 1 ++ [9]) 1 3 []) spoken in
  exists fs rest,
    concat fs ++ rest = ttsBuf spoken ++ (pcm 3 1 ++ [9]) /\
    Forall (fun f => length f = 640%nat) fs /\ (length rest < 640)%nat /\
    ttsBuf s' = rest /\
    outbound s' = outbound spoken ++ take (room spoken) (map (fun f => mkFrame f 3 1) fs) /\
    exists w, mout (handleTTSAudio (calm_at 5) (pcm 3 1 ++ [9]) 1 3 []) spoken =
      w ++ replicate (length fs - room spoken) (EError StTtsFull) /\ EError StTtsFull ∉ w.
Proof. apply (audio_resliced (calm_at 5) (pcm 3 1 ++ [9]) 1 3 [] spoken). by vm_compute. Defined.

Definition silent_st : st := run_from spoken [tick 4; tick 5; tick 6; tick 7].

Lemma drain_timeout_witness :
  let s' := mstate (ticks cfg0 (replicate 500 (calm_at 8, []))) silent_st in
  state s' = StateListening /\ drainTimeoutSig s' = true.
Proof.
  apply (drain_timeout cfg0 (replicate 500 (calm_at 8, [])) silent_st);
    [by vm_compute..|by apply Forall_replicate|by rewrite length_replicate|by rewrite length_replicate].
Defined.

Lemma muted_transcript_witness :
  handleFinalTranscript cfg0 (calm_at 9) (bs "haan") spoken =
    (tt, consumed spoken <| held := [held_speech (calm_at 9) (bs "haan") spoken] |>, [ESpeechHeld]).
Proof.
  rewrite (muted_transcript cfg0 (calm_at 9) (bs "haan") spoken);
    [by vm_compute|by vm_compute|right; by vm_compute].
Defined.

Lemma paused_transcript_resumes_witness :
  (handleFinalTranscript cfg0 (calm_at 9) (bs "haan ji") paused_st).2 = [ESpeechHeld; EFalseInterruption].
Proof.
  rewrite (paused_transcript_resumes cfg0 (calm_at 9) (bs "haan ji") paused_st); by vm_compute.
Defined.

Lemma interruption_cuts_witness :
  outbound (mstate (handleFinalTranscript cfg0 (calm_at 9) (bs "wait a moment")) paused_st) = [].
Proof.
  apply (interruption_cuts cfg0 (calm_at 9) (bs "wait a moment") paused_st).
  by vm_compute.
Defined.

Lemma stale_timers_ignored_witness :
  1 <= idleSeq spoken /\
  (let s1 := mstate (stopIdleTimer ;; resumeReply true) spoken in
   let s2 := mstate (agent_run cfg0 node0 [tick 3]) s1 in
   handleEvent cfg0 node0 (calm_at 9) (IdleEv 1) s2 = (tt, s2, []) /\
   handleEvent cfg0 node0 (calm_at 9) (ResumeCheck 0) s2 = (tt, s2, [])).
Proof.
  split; [by vm_compute|].
  refine (stale_timers_ignored cfg0 node0 spoken [tick 3] (calm_at 9) 1 0 true _ _); by vm_compute.
Defined.

(** *** Runs that end where the code does not mean to *)

(** The second silence prompt cannot be spoken (the TTS connection closed and
    does not reopen): the call is marked as ending, no timer is left, and
    nobody hangs up. *)
Definition silent_call : list label :=
  [ev 1 OpeningEv; ev 2 (TTSDone 1); ev 3 (IdleEv 2); ev 4 (TTSDone 2); ev 5 (TTSClosed 1);
   LRun (no_tts 6) (Event (IdleEv 4))].

Theorem final_prompt_without_tts :
  let s := run_from (NewHandler node0) silent_call in
  idleCount s = 2 /\ ending s = true /\ state s = StateListening /\ idleTimer s = false /\
  hungUp s = false /\ EHangup ∉ effects (NewHandler node0) silent_call.
Proof.
  cbv zeta. do 5 (split; [by vm_compute|]).
  assert (existsb (fun e => match e with EHangup => true | _ => false end)
    (effects (NewHandler node0) silent_call) = false) as H by (by vm_compute).
  intros Hin. apply list_elem_of_In in Hin.
  by rewrite (proj2 (existsb_exists _ _) (ex_intro _ EHangup (conj Hin eq_refl))) in H.
Qed.

(** A real interruption during the replay of a sentence: [replaying] survives
    the cut, so the next reply begins with the rest of the old sentence. *)
Definition interrupted_replay : list label :=
  [tick 4; tick 5; loud 7; LRun (calm_at 8) BargeInSignal;
   ev (9 * second) (ResumeCheck 1);                   (* a false interruption: resume *)
   tick (9 * second); loud (10 * second); LRun (calm_at (10 * second)) BargeInSignal;
   ev (11 * second) (FinalTranscript (bs "wait a moment"));   (* a real one: cut *)
   ev (12 * second) (TTSAudio (pcm 7 2) 3 1 (bs "new"))].

Theorem cut_replay_leaks :
  let s := run_from spoken interrupted_replay in
  curGen s = 3 /\ marks (map f_pcm (outbound s)) = [7; 7] /\
  marks (played s [tick (13 * second); tick (14 * second); tick (15 * second)]) = [1; 7; 7].
Proof. by vm_compute. Qed.

(** Audio still in flight when the drain timeout ends a turn is of the current
    generation: it is queued while nobody speaks, and opens the next reply. *)
Definition late_audio : list label :=
  [tick 4; tick 5; tick 6; tick 7] ++ replicate 500 (tick 8) ++
  [LRun (calm_at 9) DrainTimeoutSignal; ev 10 (TTSAudio (pcm 5 1) 1 3 (bs "late"));
   ev 11 (FinalTranscript (bs "hello there")); ev 12 (TTSAudio (pcm 7 1) 2 4 (bs "new"))].

Theorem late_audio_leaks :
  let s := run_from spoken late_audio in
  state s = StateSpeaking /\ curGen s = 2 /\
  map (fun f => (default 0 (head (f_pcm f)), f_gen f)) (outbound s) = [(5, 1); (7, 2)].
Proof. by vm_compute. Qed.

(** A pause raised between the end of playback and the event loop's taking note
    of it survives the turn: the caller's answer is then treated as an
    acknowledgement over a reply that no longer exists, and never delivered. *)
Definition pause_after_end : list label :=
  [tick 4; tick 5; tick 6; tick 7; ev 8 (TTSDone 1); tick 9; loud 10;
   LRun (calm_at 11) PlaybackDoneSignal; LRun (calm_at 11) BargeInSignal].

Theorem answer_after_end_lost :
  let s := run_from spoken pause_after_end in
  state s = StateListening /\ paused s = true /\
  let s1 := run_from s [ev (2 * second) (FinalTranscript (bs "haan ji"))] in
  state s1 = StateListening /\ turn s1 = 0 /\
  map h_text (held s1) = [bs "haan ji"] /\ idleTimer s1 = true /\
  (* the next reply's end drops it: it was said over an earlier generation *)
  let s2 := run_from s1 [ev (20 * second) (IdleEv (idleSeq s1)); ev (21 * second) (TTSDone 2)] in
  held s2 = [] /\ turn s2 = 0.
Proof. by vm_compute. Qed.
