(* ===== verification/LlmClient.v ===== *)
(** [internal/ai/llm/client.go]: one streamed chat completion: its attempts and
    retries, the lines of its event stream, and the assembly of the tool calls
    the provider streams in fragments.

    The provider answers each attempt with a [response]; JSON decoding of one
    line ([json.Unmarshal] into a [chatCompletionChunk]) is a parameter. The
    context ends at an instant of the outside, every question to it being one;
    while a body is read its end shows as a read error. Building the request and
    the tracing span are left out but for the failure of the first. *)

From Stdlib Require Import String.
From S2P Require Import Prelude Text.

Local Open Scope Z_scope.

Definition ms : Z := 1000000.

Record FunctionCall := mkFunction { Name : bytes; Arguments : bytes }.

(** [Type] is a keyword here: [CallType]. *)
Record ToolCall := mkToolCall {
  ID : bytes; CallType : bytes; Function : FunctionCall; ExtraContent : bytes;
}.

#[global] Instance eta_ToolCall : Eta ToolCall := fun c =>
  mkToolCall (ID c) (CallType c) (Function c) (ExtraContent c).
#[global] Instance eta_FunctionCall : Eta FunctionCall := fun f => mkFunction (Name f) (Arguments f).

(** The zero [ToolCall]. *)
Definition zeroCall : ToolCall := mkToolCall [] [] (mkFunction [] []) [].

(** [Tool], with its [FunctionDef]. *)
Record Tool := mkTool { ToolType : bytes; ToolName : bytes; Description : bytes; Parameters_ : bytes }.

Definition noParams : bytes :=
  [123; 34] ++ bs "type" ++ [34; 58; 34] ++ bs "object" ++ [34; 44; 34] ++ bs "properties" ++ [34; 58; 123; 125; 125].

Record Usage := mkUsage { PromptTokens : Z; CompletionTokens : Z; TotalTokens : Z; CachedTokens : Z }.

(** ** Assembling streamed tool calls *)

Record toolCallDelta := mkDelta {
  d_Index : option Z; d_ID : bytes; d_Type : bytes; d_Name : bytes; d_Arguments : bytes;
  d_ExtraContent : bytes;
}.

Definition empty_or (a b : bytes) : bytes := if bool_decide (b = []) then a else b.

(** [toolCallAssembler.slot]: the calls (made longer where need be) and the
    place of the fragment's call. *)
Definition slot_by_id (cs : list ToolCall) (d : toolCallDelta) : list ToolCall * nat :=
  if bool_decide (d_ID d = []) then
    match cs with [] => ([zeroCall], 0%nat) | _ => (cs, pred (length cs)) end
  else
    match list_find (fun c => ID c = d_ID d) cs with
    | Some (i, _) => (cs, i)
    | None => (cs ++ [zeroCall], length cs)
    end.

Definition slot (cs : list ToolCall) (d : toolCallDelta) : list ToolCall * nat :=
  match d_Index d with
  | Some z =>
      if 0 <=? z then
        let i := Z.to_nat z in
        match cs !! i with
        | None => (cs ++ replicate (S i - length cs) zeroCall, i)
        | Some c =>
            if bool_decide (d_ID d = [] \/ ID c = [] \/ ID c = d_ID d) then (cs, i) else slot_by_id cs d
        end
      else slot_by_id cs d
  | None => slot_by_id cs d
  end.

(** What [add] writes into the fragment's call. *)
Definition merge (d : toolCallDelta) (c : ToolCall) : ToolCall :=
  {| ID := empty_or (ID c) (d_ID d);
     CallType := empty_or (CallType c) (d_Type d);
     Function := mkFunction (empty_or (Name (Function c)) (d_Name d)) (Arguments (Function c) ++ d_Arguments d);
     ExtraContent := if bool_decide (d_ExtraContent d = [] \/ d_ExtraContent d = bs "null")
                     then ExtraContent c else d_ExtraContent d |}.

Definition add (cs : list ToolCall) (d : toolCallDelta) : list ToolCall :=
  let '(cs, i) := slot cs d in alter (merge d) i cs.

(** [done]. *)
Definition finished (c : ToolCall) : option ToolCall :=
  if bool_decide (Name (Function c) = []) then None
  else
    let c := c <| CallType := if bool_decide (CallType c = []) then bs "function" else CallType c |> in
    Some (if bool_decide (TrimSpace (Arguments (Function c)) = [])
          then c <| Function ::= fun f => f <| Arguments := bs "{}" |> |> else c).

Definition done_ (cs : list ToolCall) : list ToolCall := omap finished cs.

(** ** The stream of one attempt *)

Record choice := mkChoice { Content : bytes; DeltaCalls : list toolCallDelta }.

Record chatCompletionChunk := mkChunk {
  ChunkID : bytes; Error_ : bytes; ChunkUsage : option Usage; Choices : list choice;
}.

Inductive error :=
  | BuildError
  | RequestError
  | StatusError (code retryAfter : Z)
  | ProviderError (raw : bytes)
  | ReadError
  | EmptyStream
  | StreamIdle.

(** [http.Client.Do]'s outcome: an error, or a status, the [Retry-After] header
    as [strconv.Atoi] reads it, the lines scanned and whether reading failed. *)
Inductive response :=
  | NoResponse
  | Responded (code : Z) (retryAfter : option Z) (lines : list bytes) (readErr : bool).

Inductive retryResult := Recovered | Exhausted.

Inductive effect :=
  | EPost (attempt : Z) (tools : list Tool)
  | EAlive
  | EToken (tok : bytes)
  | EUsage (u : Usage)
  | ERequest (attempt status : Z) (chunkID : bytes) (ok : bool)
  | ESleep (d : Z)
  | ERetry (r : retryResult).

Inductive cause := CallerDone | IdleTimeout.

Record outside := mkOutside {
  attempts : Z -> response;            (* what the n-th attempt gets *)
  builds : bool;                       (* the request can be built *)
  endsAt : option (nat * cause);       (* when the context ends, and why *)
  jitter : nat -> Z;                   (* [rand.N(200 * time.Millisecond)] *)
}.

Record Client := mkClient { Retries : Z; RetryMaxWait : Z }.

Definition NewClient : Client := mkClient 2 (2000 * ms).

(** The instant, and the locals of the attempt being read. *)
Record state := mkState {
  tick : nat; calls : list ToolCall; got : bool; usage : option Usage; chunkID : bytes;
}.

#[global] Instance eta_state : Eta state := fun s =>
  mkState (tick s) (calls s) (got s) (usage s) (chunkID s).

Definition act (A : Type) : Type := M state effect A.
Definition upd (f : state -> state) : act unit := mmod f.
Definition emit (e : effect) : act unit := memit e.

Local Open Scope m_scope.

Definition ask {A} (f : nat -> A) : act A :=
  let! s := mread in upd (fun s => s <| tick ::= S |>) ;; mret (f (tick s)).

Definition ctx_over (o : outside) (t : nat) : bool :=
  match endsAt o with Some (n, _) => (n <=? t)%nat | None => false end.

Definition idled (o : outside) (t : nat) : bool :=
  match endsAt o with Some (n, IdleTimeout) => (n <=? t)%nat | _ => false end.

(** The tools as they are sent. *)
Definition sentTool (t : Tool) : Tool :=
  mkTool (if bool_decide (ToolType t = []) then bs "function" else ToolType t) (ToolName t) (Description t)
    (if bool_decide (Parameters_ t = []) then noParams else Parameters_ t).

(** [strings.CutPrefix] with [data:], then [TrimPrefix] with a space. *)
Definition sse_data (line : bytes) : option bytes :=
  if HasPrefix line (bs "data:") then
    Some (match drop 5 line with 32 :: r => r | r => r end)
  else None.

Definition report : act unit :=
  let! s := mread in match usage s with Some u => emit (EUsage u) | None => mret tt end.

Definition read_choice (c : choice) : act unit :=
  mwhen (negb (bool_decide (Content c = [])))
    (upd (fun s => s <| got := true |>) ;; emit (EToken (Content c))) ;;
  mwhen (negb (bool_decide (DeltaCalls c = []))) (upd (fun s => s <| got := true |>)) ;;
  upd (fun s => s <| calls ::= fun cs => fold_left add (DeltaCalls c) cs |>).

Fixpoint read_choices (l : list choice) : act unit :=
  match l with [] => mret tt | c :: r => read_choice c ;; read_choices r end.

Section client.
Variable Unmarshal : bytes -> option chatCompletionChunk.

(** One chunk of the stream; an error object ends it. *)
Definition read_chunk (k : chatCompletionChunk) : act (option error) :=
  upd (fun s => if bool_decide (chunkID s = []) then s <| chunkID := ChunkID k |> else s) ;;
  if negb (bool_decide (Error_ k = [])) && negb (bool_decide (Error_ k = bs "null")) then
    mret (Some (ProviderError (Error_ k)))
  else
    match ChunkUsage k with Some u => upd (fun s => s <| usage := Some u |>) | None => mret tt end ;;
    read_choices (Choices k) ;;
    mret None.

(** The [for scanner.Scan()] loop; [None] at the end of the body. *)
Fixpoint scan (lines : list bytes) : act (option (result (list ToolCall) error)) :=
  match lines with
  | [] => mret None
  | line :: r =>
      emit EAlive ;;
      match sse_data line with
      | None => scan r
      | Some data =>
          if bool_decide (data = bs "[DONE]") then
            report ;; let! s := mread in mret (Some (Ok (done_ (calls s))))
          else
            match Unmarshal data with
            | None => scan r
            | Some k =>
                let! e := read_chunk k in
                match e with Some e => mret (Some (Err e)) | None => scan r end
            end
      end
  end.

Definition read_body (lines : list bytes) (readErr : bool) : act (result (list ToolCall) error) :=
  let! x := scan lines in
  match x with
  | Some r => mret r
  | None =>
      if readErr then mret (Err ReadError)
      else
        let! s := mread in
        if negb (got s) then mret (Err EmptyStream)
        else report ;; mret (Ok (done_ (calls s)))
  end.

Variable o : outside.
Variable tools : list Tool.

(** The status of the response, 0 for none. *)
Definition status (r : response) : Z := match r with NoResponse => 0 | Responded code _ _ _ => code end.

(** [stream]: one attempt. *)
Definition stream (attempt : Z) : act (result (list ToolCall) error) :=
  upd (fun s => s <| calls := [] |> <| got := false |> <| usage := None |> <| chunkID := [] |>) ;;
  let r := attempts o attempt in
  let! x :=
    (if negb (builds o) then mret (Err BuildError)
     else
       emit (EPost attempt (map sentTool tools)) ;;
       match r with
       | NoResponse => mret (Err RequestError)
       | Responded code retryAfter lines readErr =>
           if (code <? 200) || (300 <=? code) then
             mret (Err (StatusError code (match retryAfter with
                                          | Some secs => if 0 <? secs then secs * 1000 * ms else 0
                                          | None => 0 end)))
           else read_body lines readErr
       end) in
  let! s := mread in
  emit (ERequest attempt (if builds o then status r else 0) (chunkID s) (is_ok x)) ;;
  mret x.

(** [retryable], but for the context. *)
Definition retryable (e : error) : bool :=
  match e with
  | StatusError code _ => (code =? 429) || (code =? 502) || (code =? 503) || (code =? 504)
  | RequestError => true
  | _ => false
  end.

Definition retryWait (c : Client) (attempt jit : Z) (e : error) : Z :=
  let wait := attempt * (300 * ms) + jit in
  Z.min (match e with StatusError _ after => if 0 <? after then after else wait | _ => wait end) (RetryMaxWait c).

(** The loop over the extra attempts; [left] of them remain. *)
Fixpoint retry_loop (c : Client) (left : nat) (attempt : Z) (retried : bool) (x : result (list ToolCall) error) :
  act (bool * result (list ToolCall) error) :=
  match left, x with
  | S k, Err e =>
      let! over := ask (ctx_over o) in
      if over || negb (retryable e) then mret (retried, x)
      else
        let! jit := ask (jitter o) in
        emit (ESleep (retryWait c attempt jit e)) ;;
        let! over := ask (ctx_over o) in
        if over : bool then mret (retried, x)
        else let! x := stream (attempt + 1) in retry_loop c k (attempt + 1) true x
  | _, _ => mret (retried, x)
  end.

(** [Stream]: what it reports at the end, and the whole. *)
Definition conclude (retried : bool) (x : result (list ToolCall) error) : act (result (list ToolCall) error) :=
  let! over := ask (ctx_over o) in
  mwhen (retried && negb over) (emit (ERetry (if is_ok x then Recovered else Exhausted))) ;;
  let! idle := ask (idled o) in
  mret (match x with Err e => if idle : bool then Err StreamIdle else x | Ok _ => x end).

Definition Stream (c : Client) : act (result (list ToolCall) error) :=
  let! x := stream 1 in
  let! rx := retry_loop c (Z.to_nat (Retries c)) 1 false x in
  conclude rx.1 rx.2.
End client.
