(* ===== verification/LlmReply.v ===== *)
(** [internal/ai/llm/client.go]: what a whole [Stream] comes to. A reference
    definition gives the reply of one attempt from its response alone; a stream
    is the reply of its last attempt. Streamed tool calls arrive whole. *)

From Stdlib Require Import String.
From S2P Require Import Prelude Text LlmClient.

Local Open Scope Z_scope.
Local Open Scope m_scope.

(** ** The reply of one attempt, as a function of its body

    [body]: the chunks up to the end of the reply, and how it ends: the body
    ran out, [DONE], or an error object. *)

Inductive body_end := RanOut | SaidDone | SentError (raw : bytes).

Section reference.
Variable Unmarshal : bytes -> option chatCompletionChunk.

Definition error_object (k : chatCompletionChunk) : bool :=
  negb (bool_decide (Error_ k = [])) && negb (bool_decide (Error_ k = bs "null")).

Fixpoint body (lines : list bytes) : list chatCompletionChunk * body_end :=
  match lines with
  | [] => ([], RanOut)
  | line :: r =>
      match sse_data line with
      | None => body r
      | Some data =>
          if bool_decide (data = bs "[DONE]") then ([], SaidDone)
          else
            match Unmarshal data with
            | None => body r
            | Some k => if error_object k then ([], SentError (Error_ k))
                        else let '(ks, e) := body r in (k :: ks, e)
            end
      end
  end.

Definition choices (ks : list chatCompletionChunk) : list choice := ks ≫= Choices.
Definition said_by (ks : list chatCompletionChunk) : list bytes :=
  filter (fun t => t <> []) (map Content (choices ks)).
Definition called_by (ks : list chatCompletionChunk) : list ToolCall :=
  done_ (fold_left add (choices ks ≫= DeltaCalls) []).

(** Something was said or called. *)
Definition answered (ks : list chatCompletionChunk) : bool :=
  existsb (fun c => negb (bool_decide (Content c = [])) || negb (bool_decide (DeltaCalls c = []))) (choices ks).

Definition is_2xx (code : Z) : bool := (200 <=? code) && (code <? 300).

Definition reply (r : response) : result (list ToolCall) error :=
  match r with
  | NoResponse => Err RequestError
  | Responded code after lines readErr =>
      if is_2xx code then
        let '(ks, e) := body lines in
        match e with
        | SaidDone => Ok (called_by ks)
        | SentError raw => Err (ProviderError raw)
        | RanOut => if readErr then Err ReadError
                    else if answered ks then Ok (called_by ks) else Err EmptyStream
        end
      else Err (StatusError code (match after with Some secs => Z.max 0 (secs * 1000 * ms) | None => 0 end))
  end.

Definition said (r : response) : list bytes :=
  match r with
  | Responded code _ lines _ => if is_2xx code then said_by (body lines).1 else []
  | NoResponse => []
  end.
End reference.

(** What was said, asked and counted, in the order of the effects. *)
Definition tokens (w : list effect) : list bytes := omap (fun e => match e with EToken t => Some t | _ => None end) w.
Definition posts (w : list effect) : list Z := omap (fun e => match e with EPost n _ => Some n | _ => None end) w.
Definition usages (w : list effect) : list Usage := omap (fun e => match e with EUsage u => Some u | _ => None end) w.

Lemma tokens_app w1 w2 : tokens (w1 ++ w2) = tokens w1 ++ tokens w2.
Proof. apply omap_app. Qed.
Lemma posts_app w1 w2 : posts (w1 ++ w2) = posts w1 ++ posts w2.
Proof. apply omap_app. Qed.
Lemma usages_app w1 w2 : usages (w1 ++ w2) = usages w1 ++ usages w2.
Proof. apply omap_app. Qed.
#[local] Hint Rewrite tokens_app posts_app usages_app : vaani.

(** *** Reading a body *)

Lemma report_spec s :
  mstate report s = s /\ tokens (mout report s) = [] /\ posts (mout report s) = [] /\
  (length (usages (mout report s)) <= 1)%nat.
Proof. unfold report, mstate, mout, mseq, mread. destruct (usage s); cbn; repeat split; lia. Qed.

Lemma read_choices_spec l s :
  mstate (read_choices l) s =
    s <| got := got s || existsb (fun c => negb (bool_decide (Content c = [])) || negb (bool_decide (DeltaCalls c = []))) l |>
      <| calls := fold_left add (l ≫= DeltaCalls) (calls s) |> /\
  tokens (mout (read_choices l) s) = filter (fun t => t <> []) (map Content l) /\
  posts (mout (read_choices l) s) = [] /\ usages (mout (read_choices l) s) = [].
Proof.
  revert s. induction l as [|c l IH]; intros s; cbn [read_choices].
  - destruct s. cbn. by rewrite orb_false_r.
  - run_out. rewrite !tokens_app, !posts_app, !usages_app.
    match goal with |- context [mstate (read_choices l) ?t] => destruct (IH t) as (-> & -> & -> & ->) end.
    unfold read_choice, mwhen. destruct c as [t ds]. cbn [Content DeltaCalls existsb map].
    rewrite filter_cons. destruct s.
    destruct (decide (t = [])) as [->|Ht]; [|rewrite (bool_decide_eq_false_2 _ Ht)];
      (destruct (decide (ds = [])) as [->|Hd]; [|rewrite (bool_decide_eq_false_2 _ Hd)]); cbn;
      rewrite ?fold_left_app, ?orb_true_r; try (rewrite decide_True by done); try (rewrite decide_False by naive_solver);
      done.
Qed.

Section attempt.
Variable Unmarshal : bytes -> option chatCompletionChunk.

#[local] Opaque report.

(** What [scan] leaves of the locals. *)
Definition after_body (ks : list chatCompletionChunk) (s t : state) : Prop :=
  got t = got s || answered ks /\ calls t = fold_left add (choices ks ≫= DeltaCalls) (calls s).

Definition scanned (ks : list chatCompletionChunk) (e : body_end) (s : state) : option (result (list ToolCall) error) :=
  match e with
  | RanOut => None
  | SaidDone => Some (Ok (done_ (fold_left add (choices ks ≫= DeltaCalls) (calls s))))
  | SentError raw => Some (Err (ProviderError raw))
  end.

Lemma after_body_cons k ks s t u :
  after_body [k] s t -> after_body ks t u -> after_body (k :: ks) s u.
Proof.
  unfold after_body, answered, choices. cbn. rewrite app_nil_r, existsb_app, orb_assoc, bind_app, fold_left_app.
  by intros [<- <-] [-> ->].
Qed.

Lemma read_chunk_spec k s :
  error_object k = false ->
  mval (read_chunk k) s = None /\ after_body [k] s (mstate (read_chunk k) s) /\
  tokens (mout (read_chunk k) s) = said_by [k] /\ posts (mout (read_chunk k) s) = [] /\
  usages (mout (read_chunk k) s) = [].
Proof.
  intros Hk. unfold read_chunk. unfold error_object in Hk. rewrite Hk.
  unfold after_body, answered, said_by, choices. cbn [mbind list_bind]. rewrite !app_nil_r.
  run_out. rewrite !tokens_app, !posts_app, !usages_app.
  match goal with |- context [mstate (read_choices ?l) ?t] => destruct (read_choices_spec l t) as (-> & -> & -> & ->) end.
  destruct s as [t cs g u id]. destruct (ChunkUsage k); cbn; destruct (bool_decide (id = [])); cbn; rewrite ?app_nil_r; done.
Qed.

Lemma read_chunk_error k s :
  error_object k = true ->
  mval (read_chunk k) s = Some (ProviderError (Error_ k)) /\ tokens (mout (read_chunk k) s) = [] /\
  posts (mout (read_chunk k) s) = [] /\ usages (mout (read_chunk k) s) = [].
Proof. intros Hk. unfold read_chunk. unfold error_object in Hk. rewrite Hk. by run_out. Qed.
#[local] Opaque read_chunk.

Lemma said_by_cons k ks : said_by (k :: ks) = said_by [k] ++ said_by ks.
Proof. unfold said_by, choices. cbn. by rewrite app_nil_r, map_app, filter_app. Qed.

Lemma scan_spec lines s :
  let '(ks, e) := body Unmarshal lines in
  mval (scan Unmarshal lines) s = scanned ks e s /\
  (e = RanOut -> after_body ks s (mstate (scan Unmarshal lines) s)) /\
  tokens (mout (scan Unmarshal lines) s) = said_by ks /\
  posts (mout (scan Unmarshal lines) s) = [] /\
  (length (usages (mout (scan Unmarshal lines) s)) <= match e with SaidDone => 1 | _ => 0 end)%nat.
Proof.
  revert s. induction lines as [|line r IH]; intros s; cbn [scan body].
  { unfold after_body. cbn. by rewrite orb_false_r. }
  destruct (sse_data line) as [data|] eqn:El; [|specialize (IH s); destruct (body Unmarshal r); run_out; exact IH].
  case_bool_decide as Hd.
  { unfold emit. cbv beta iota. run_out. rewrite !tokens_app, !posts_app, !usages_app.
    destruct (report_spec s) as (-> & -> & -> & Hu). cbn. rewrite app_nil_r. by split_and!. }
  destruct (Unmarshal data) as [k|] eqn:Ek; [|specialize (IH s); destruct (body Unmarshal r); run_out; exact IH].
  destruct (error_object k) eqn:Eo.
  { unfold emit. run_out. rewrite !tokens_app, !posts_app, !usages_app.
    destruct (read_chunk_error k s Eo) as (-> & -> & -> & ->). by split_and!. }
  unfold emit. run_out. destruct (read_chunk_spec k s Eo) as (-> & Hb & Et & Ep & Eu).
  specialize (IH (mstate (read_chunk k) s)).
  destruct (body Unmarshal r) as [ks e] eqn:Eb. destruct IH as (IHv & IHs & IHt & IHp & IHu).
  rewrite !tokens_app, !posts_app, !usages_app, IHv, IHt, IHp, Et, Ep, Eu. cbn [app tokens posts usages omap].
  split_and!; [|by intros He; eapply after_body_cons; eauto|by rewrite (said_by_cons k ks)|done|exact IHu].
  destruct Hb as [_ Hc]. destruct e; cbn; [done| |done]. rewrite Hc. unfold choices. cbn.
  by rewrite app_nil_r, bind_app, fold_left_app.
Qed.

Lemma read_body_spec lines readErr s :
  calls s = [] -> got s = false ->
  mval (read_body Unmarshal lines readErr) s = reply Unmarshal (Responded 200 None lines readErr) /\
  tokens (mout (read_body Unmarshal lines readErr) s) = said_by (body Unmarshal lines).1 /\
  posts (mout (read_body Unmarshal lines readErr) s) = [] /\
  (length (usages (mout (read_body Unmarshal lines readErr) s)) <=
     if is_ok (reply Unmarshal (Responded 200 None lines readErr)) then 1 else 0)%nat.
Proof.
  intros Hc Hg. unfold read_body. run_out. rewrite !tokens_app, !posts_app, !usages_app. cbn [reply is_2xx].
  pose proof (scan_spec lines s) as H. destruct (body Unmarshal lines) as [ks e].
  destruct H as (-> & Hs & -> & -> & Hu). cbn [fst].
  change (is_2xx 200) with true. cbv iota.
  unfold scanned, called_by. rewrite Hc. destruct e.
  - destruct (Hs eq_refl) as [Hg' Hc']. rewrite Hg in Hg'. rewrite Hc in Hc'. cbn in Hg', Hc'.
    destruct readErr; [cbn; rewrite !app_nil_r; split_and!; done || lia|].
    run_out. rewrite Hg'. destruct (answered ks); cbn [negb].
    + run_out. rewrite !tokens_app, !posts_app, !usages_app, Hc', !length_app.
      destruct (report_spec (mstate (scan Unmarshal lines) s)) as (_ & -> & -> & Hr).
      cbn. rewrite !app_nil_r. split_and!; done || lia.
    + cbn. rewrite !app_nil_r; split_and!; done || lia.
  - cbn. rewrite !app_nil_r; split_and!; done || lia.
  - cbn. rewrite !app_nil_r; split_and!; done || lia.
Qed.

(** An attempt's answer, words and count depend on its response alone. *)
Definition said_in (o : outside) (n : Z) : list bytes := if builds o then said Unmarshal (attempts o n) else [].
Definition answer (o : outside) (n : Z) : result (list ToolCall) error :=
  if builds o then reply Unmarshal (attempts o n) else Err BuildError.

Lemma stream_spec o tools n s :
  mval (stream Unmarshal o tools n) s = answer o n /\
  tokens (mout (stream Unmarshal o tools n) s) = said_in o n /\
  posts (mout (stream Unmarshal o tools n) s) = (if builds o then [n] else []) /\
  (length (usages (mout (stream Unmarshal o tools n) s)) <= if is_ok (answer o n) then 1 else 0)%nat.
Proof.
  unfold stream, answer, said_in, upd, emit. run_out. rewrite !tokens_app, !posts_app, !usages_app.
  destruct (builds o); cbn [negb]; [|cbn; by split_and!].
  run_out. rewrite !tokens_app, !posts_app, !usages_app, !length_app.
  destruct (attempts o n) as [|code after lines readErr]; [cbn; by split_and!|].
  unfold said, reply, is_2xx.
  destruct (Z.ltb_spec code 200), (Z.leb_spec 300 code), (Z.leb_spec 200 code), (Z.ltb_spec code 300);
    try lia; cbn [orb andb].
  1-2: cbn; destruct after as [secs|]; [|by split_and!]; destruct (Z.ltb_spec 0 secs); split_and!; try done;
    repeat f_equal; unfold ms; lia.
  match goal with |- context [mval (read_body Unmarshal lines readErr) ?t] =>
    destruct (read_body_spec lines readErr t) as (-> & -> & -> & Hu); [done|done|] end.
  cbn. rewrite !app_nil_r, Nat.add_0_r. by split_and!.
Qed.
#[local] Opaque stream.

(** *** The retries *)

Lemma ask_seq_at {A B} (f : nat -> A) (k : A -> act B) s :
  mseq (ask f) k s = k (f (tick s)) (s <| tick ::= S |>).
Proof. unfold ask, upd, mseq, mread, mmod, mret. by destruct (k _ _) as [[??]?]. Qed.

Lemma mval_ask_seq {A B} (f : nat -> A) (k : A -> act B) s :
  mval (mseq (ask f) k) s = mval (k (f (tick s))) (s <| tick ::= S |>).
Proof. unfold mval. by rewrite ask_seq_at. Qed.

Lemma mout_ask_seq {A B} (f : nat -> A) (k : A -> act B) s :
  mout (mseq (ask f) k) s = mout (k (f (tick s))) (s <| tick ::= S |>).
Proof. unfold mout. by rewrite ask_seq_at. Qed.

Lemma mval_emit_seq {A} e (k : unit -> act A) s : mval (mseq (emit e) k) s = mval (k tt) s.
Proof. unfold mval, mseq, emit, memit. by destruct (k tt s) as [[??]?]. Qed.

Lemma mout_emit_seq {A} e (k : unit -> act A) s : mout (mseq (emit e) k) s = e :: mout (k tt) s.
Proof. unfold mout, mseq, emit, memit. by destruct (k tt s) as [[??]?]. Qed.

Section retries.
Variable o : outside.
Variable tools : list Tool.
Variable c : Client.

(** Attempts [n..m] failed before any reply, in a way another attempt may fix. *)
Definition retried_from (n m : Z) : Prop :=
  forall i, n <= i < m -> exists e, answer o i = Err e /\ retryable e = true.

Lemma retryable_silent i e : answer o i = Err e -> retryable e = true -> said_in o i = [].
Proof.
  unfold answer, said_in, said. destruct (builds o); [|done]. unfold reply.
  destruct (attempts o i) as [|code after lines readErr]; [done|].
  destruct (is_2xx code); [|done]. destruct (body Unmarshal lines) as [ks []]; destruct readErr; try done;
    repeat case_match; intros [= <-]; done.
Qed.

Lemma retry_loop_spec left n retried s :
  exists m, n <= m <= n + Z.of_nat left /\ retried_from n m /\
    (mval (retry_loop Unmarshal o tools c left n retried (answer o n)) s).2 = answer o m /\
    ((mval (retry_loop Unmarshal o tools c left n retried (answer o n)) s).1 = retried || (n <? m)) /\
    let w := mout (retry_loop Unmarshal o tools c left n retried (answer o n)) s in
    tokens w = (if n <? m then said_in o m else []) /\
    posts w = (if builds o then seqZ (n + 1) (m - n) else []) /\
    (length (usages w) <= if (n <? m)%Z && is_ok (answer o m) then 1 else 0)%nat.
Proof.
  revert n retried s. induction left as [|k IH]; intros n retried s.
  all: assert (Hstop : forall t, exists m, n <= m <= n + Z.of_nat t /\ retried_from n m /\
    answer o n = answer o m /\ retried = retried || (n <? m) /\
    [] = (if n <? m then said_in o m else []) /\ [] = (if builds o then seqZ (n + 1) (m - n) else []) /\
    (0 <= if (n <? m)%Z && is_ok (answer o m) then 1 else 0)%nat).
  1,3: intros t; exists n; rewrite Z.ltb_irrefl, Z.sub_diag, orb_false_r; split_and!; try done; try lia;
    [intros i Hi; lia|by destruct (builds o)].
  { cbn [retry_loop]. destruct (Hstop 0%nat) as (m & H). exists m. by destruct (answer o n). }
  destruct (answer o n) as [x|e] eqn:Ea.
  { destruct (Hstop (S k)) as (m & H). by exists m. }
  cbn [retry_loop]. rewrite !mval_ask_seq, !mout_ask_seq.
  destruct (ctx_over o (tick s) || negb (retryable e)) eqn:Eover.
  { destruct (Hstop (S k)) as (m & H). by exists m. }
  apply orb_false_iff in Eover as [_ Er%negb_false_iff].
  rewrite !mval_ask_seq, !mout_ask_seq, !mval_emit_seq, !mout_emit_seq, !mval_ask_seq, !mout_ask_seq.
  match goal with |- context [ctx_over o ?t] => destruct (ctx_over o t) end.
  { destruct (Hstop (S k)) as (m & H). by exists m. }
  rewrite mout_seq, !mval_seq.
  match goal with |- context [ESleep ?d :: ?w] => change (ESleep d :: w) with ([ESleep d] ++ w) end.
  rewrite !tokens_app, !posts_app, !usages_app, !length_app.
  match goal with |- context [mval (stream _ _ _ _) ?t] => destruct (stream_spec o tools (n + 1) t) as (-> & -> & -> & Hu) end.
  match goal with |- context [retry_loop _ _ _ _ _ _ true _] =>
    match goal with |- context [mstate ?st ?t] => destruct (IH (n + 1) true (mstate st t)) as (m & Hm & Hr & -> & -> & -> & -> & Hu2) end end.
  exists m. rewrite (proj2 (Z.ltb_lt n m)) by lia. rewrite orb_true_r.
  assert (Hrn : retried_from n m).
  { intros i Hi. destruct (decide (i = n)) as [->|]; [by exists e|]. apply Hr. lia. }
  split_and!; [lia|lia|done|done|done| | |].
  - destruct (Z.ltb_spec (n + 1) m) as [Hlt|]; [|by replace m with (n + 1) by lia; rewrite app_nil_r].
    destruct (Hr (n + 1) ltac:(lia)) as (e' & He' & Hre'). by rewrite (retryable_silent _ _ He' Hre').
  - destruct (builds o); [|done]. rewrite (seqZ_cons (n + 1)) by lia. cbn. do 2 f_equal; lia.
  - match goal with |- (_ + ?b <= ?c)%nat => change (b <= c)%nat end. destruct (Z.ltb_spec (n + 1) m) as [Hlt|]; cbn [andb] in *.
    + destruct (Hr (n + 1) ltac:(lia)) as (e' & He' & Hre'). rewrite He' in Hu. cbn in Hu. lia.
    + replace m with (n + 1) by lia. lia.
Qed.

Lemma conclude_spec retried x s :
  (mval (conclude o retried x) s = x \/ mval (conclude o retried x) s = Err StreamIdle /\ is_ok x = false) /\
  tokens (mout (conclude o retried x) s) = [] /\ posts (mout (conclude o retried x) s) = [] /\
  usages (mout (conclude o retried x) s) = [].
Proof.
  unfold conclude, mwhen. rewrite !mval_ask_seq, !mout_ask_seq.
  destruct (retried && _); rewrite ?mval_emit_seq, ?mout_emit_seq, ?mval_ask_seq, ?mout_ask_seq;
    destruct x; cbn; repeat case_match; cbn; auto.
Qed.

End retries.
End attempt.

(** ** Tool calls arrive whole

    [made_of c ds]: the fragments [ds] carry the call [c], its arguments in
    pieces. A provider streams its calls by index, the fragments of different
    calls in any order between each other ([by_index]), or one call after the
    other, each begun by its id and with no index or 0 ([by_id]). *)

Definition fits (c : ToolCall) (d : toolCallDelta) : Prop :=
  (d_ID d = [] \/ d_ID d = ID c) /\ (d_Type d = [] \/ d_Type d = CallType c) /\
  (d_Name d = [] \/ d_Name d = Name (Function c)) /\
  (d_ExtraContent d = [] \/ d_ExtraContent d = bs "null" \/ d_ExtraContent d = ExtraContent c).

Definition given {A} (f : toolCallDelta -> list A) (x : list A) (ds : list toolCallDelta) : Prop :=
  x = [] \/ Exists (fun d => f d = x) ds.

Definition made_of (c : ToolCall) (ds : list toolCallDelta) : Prop :=
  Forall (fits c) ds /\ given d_ID (ID c) ds /\ given d_Type (CallType c) ds /\
  given d_Name (Name (Function c)) ds /\ given d_ExtraContent (ExtraContent c) ds /\
  ExtraContent c <> bs "null" /\ ds ≫= d_Arguments = Arguments (Function c).

(** A call [done] returns as it is. *)
Definition complete (c : ToolCall) : Prop :=
  CallType c <> [] /\ Name (Function c) <> [] /\ TrimSpace (Arguments (Function c)) <> [].

Definition at_index (i : nat) (d : toolCallDelta) : Prop := d_Index d = Some (Z.of_nat i).
#[global] Instance at_index_dec i d : Decision (at_index i d).
Proof. unfold at_index. apply _. Defined.

Inductive in_turn : list ToolCall -> list toolCallDelta -> Prop :=
  | in_turn_nil : in_turn [] []
  | in_turn_snoc cs c ds d rest :
      in_turn cs ds -> ID c <> [] -> Forall (fun c' => ID c' <> ID c) cs ->
      d_ID d = ID c -> (d_Index d = None \/ d_Index d = Some 0) ->
      Forall (fun e => d_Index e = None) rest -> made_of c (d :: rest) ->
      in_turn (cs ++ [c]) (ds ++ d :: rest).

Inductive streams (cs : list ToolCall) (ds : list toolCallDelta) : Prop :=
  | by_index :
      Forall (fun d => exists i, (i < length cs)%nat /\ at_index i d) ds ->
      (forall i c, cs !! i = Some c -> made_of c (filter (at_index i) ds)) -> streams cs ds
  | by_id : in_turn cs ds -> streams cs ds.

(** The call the fragments [ds] make on their own. *)
Definition assembled (ds : list toolCallDelta) : ToolCall := fold_left (fun c d => merge d c) ds zeroCall.

Lemma assembled_snoc ds d : assembled (ds ++ [d]) = merge d (assembled ds).
Proof. unfold assembled. by rewrite fold_left_app. Qed.

(** A field given in fragments is what they give: by induction on them. *)
Lemma assembled_field (f : toolCallDelta -> bytes) (g : ToolCall -> bytes) x ds :
  (forall d c, g c = [] \/ g c = x -> f d = [] \/ f d = x -> g (merge d c) = empty_or (g c) (f d)) ->
  g zeroCall = [] -> Forall (fun d => f d = [] \/ f d = x) ds ->
  (g (assembled ds) = [] \/ g (assembled ds) = x) /\ (given f x ds -> g (assembled ds) = x).
Proof.
  intros Hm H0. induction ds as [|d ds IH] using rev_ind.
  { intros _. rewrite <- H0 at 1. split; [by left|]. intros [->|H%Exists_nil]; [done|done]. }
  intros [Hds [Hd _]%Forall_cons]%Forall_app. destruct (IH Hds) as [IHo IHg].
  rewrite assembled_snoc, Hm by done. unfold empty_or. case_bool_decide as E.
  - split; [done|]. intros [Hx|[Hx|Hx%Exists_cons]%Exists_app]; [apply IHg; by left|apply IHg; by right|].
    destruct Hx as [Hx|Hx%Exists_nil]; [|done]. apply IHg. left. congruence.
  - destruct Hd as [|Hd]; [done|]. rewrite Hd. auto.
Qed.

(** The extra content but for JSON's null. *)
Definition extra (d : toolCallDelta) : bytes := if bool_decide (d_ExtraContent d = bs "null") then [] else d_ExtraContent d.

Lemma merge_extra d c : ExtraContent (merge d c) = empty_or (ExtraContent c) (extra d).
Proof. unfold merge, extra, empty_or. cbn. repeat case_bool_decide; naive_solver. Qed.

Lemma assembled_arguments ds : Arguments (Function (assembled ds)) = ds ≫= d_Arguments.
Proof.
  induction ds as [|d ds IH] using rev_ind; [done|].
  rewrite assembled_snoc, bind_app. cbn. by rewrite IH, app_nil_r.
Qed.

Lemma assembled_ID c ds :
  Forall (fits c) ds -> (ID (assembled ds) = [] \/ ID (assembled ds) = ID c) /\ (given d_ID (ID c) ds -> ID (assembled ds) = ID c).
Proof. intros H. apply assembled_field; [done|done|]. eapply Forall_impl; [exact H|]. intros d (? & _). done. Qed.

Lemma made_of_assembled c ds : made_of c ds -> assembled ds = c.
Proof.
  intros (Hf & Hi & Ht & Hn & Hx & Hnull & Ha).
  assert (Fid := proj2 (assembled_ID c ds Hf) Hi).
  assert (Fty : CallType (assembled ds) = CallType c).
  { apply (assembled_field d_Type CallType); try done. eapply Forall_impl; [exact Hf|]. by intros d (_ & ? & _). }
  assert (Fnm : Name (Function (assembled ds)) = Name (Function c)).
  { apply (assembled_field d_Name (fun c => Name (Function c))); try done. eapply Forall_impl; [exact Hf|]. by intros d (_ & _ & ? & _). }
  assert (Fex : ExtraContent (assembled ds) = ExtraContent c).
  { apply (assembled_field extra ExtraContent); [intros; apply merge_extra|done| |].
    - eapply Forall_impl; [exact Hf|]. intros d (_ & _ & _ & Hd). unfold extra. case_bool_decide; naive_solver.
    - destruct Hx as [|Hx]; [by left|right]. eapply Exists_impl; [exact Hx|]. intros d Hd. cbn in Hd.
      unfold extra. rewrite bool_decide_eq_false_2 by congruence. done. }
  pose proof (assembled_arguments ds) as Far. rewrite Ha in Far.
  destruct (assembled ds) as [i t [n a] x], c as [i' t' [n' a'] x']. cbn in *. congruence.
Qed.

Lemma finished_complete c : complete c -> finished c = Some c.
Proof.
  intros (Ht & Hn & Ha). unfold finished. rewrite (bool_decide_eq_false_2 _ Hn), (bool_decide_eq_false_2 _ Ht).
  destruct c as [i t [n a] x]. cbn in *. by rewrite (bool_decide_eq_false_2 _ Ha).
Qed.

Lemma done_complete cs : Forall complete cs -> done_ cs = cs.
Proof. induction 1 as [|c cs Hc _ IH]; [done|]. cbn. rewrite (finished_complete _ Hc). cbn. f_equal. exact IH. Qed.

(** *** By index *)

(** The places the fragments so far have made hold what their fragments make. *)
Definition by_place (ds : list toolCallDelta) (cs : list ToolCall) : Prop :=
  (forall i x, cs !! i = Some x -> x = assembled (filter (at_index i) ds)) /\
  (forall i, cs !! i = None -> filter (at_index i) ds = []).

Lemma filter_at_other i j ds d : at_index j d -> i <> j -> filter (at_index i) (ds ++ [d]) = filter (at_index i) ds.
Proof.
  intros Hd Hij. rewrite filter_app, filter_cons_False, filter_nil, app_nil_r; [done|].
  unfold at_index in *. rewrite Hd. intros [= ?]. lia.
Qed.

Lemma filter_at_self j ds d : at_index j d -> filter (at_index j) (ds ++ [d]) = filter (at_index j) ds ++ [d].
Proof. intros Hd. by rewrite filter_app, filter_cons_True. Qed.

Lemma slot_at_index j d cs :
  at_index j d -> (forall c, cs !! j = Some c -> d_ID d = [] \/ ID c = [] \/ ID c = d_ID d) ->
  slot cs d = (cs ++ replicate (S j - length cs) zeroCall, j).
Proof.
  intros Hd Hc. unfold slot. rewrite Hd. rewrite (proj2 (Z.leb_le _ _)) by lia. rewrite Nat2Z.id.
  destruct (cs !! j) as [c|] eqn:E; [|done].
  rewrite bool_decide_eq_true_2 by auto. apply lookup_lt_Some in E.
  replace (S j - length cs)%nat with 0%nat by lia. by rewrite app_nil_r.
Qed.

Lemma length_add j d cs :
  at_index j d -> (forall c, cs !! j = Some c -> d_ID d = [] \/ ID c = [] \/ ID c = d_ID d) ->
  length (add cs d) = (length cs + (S j - length cs))%nat.
Proof. intros Hd Hc. unfold add. by rewrite (slot_at_index j d cs Hd Hc), length_alter, length_app, length_replicate. Qed.

Lemma by_place_add ds cs j d :
  by_place ds cs -> at_index j d ->
  (forall c, cs !! j = Some c -> d_ID d = [] \/ ID c = [] \/ ID c = d_ID d) ->
  by_place (ds ++ [d]) (add cs d).
Proof.
  intros [Hs Hn] Hd Hid. unfold add. rewrite (slot_at_index j d cs Hd Hid).
  assert (Hpad : forall i x, (cs ++ replicate (S j - length cs) zeroCall) !! i = Some x -> x = assembled (filter (at_index i) ds)).
  { intros i x [Hx|[Hi Hx]]%lookup_app_Some; [by apply Hs|]. apply lookup_replicate in Hx as [-> _].
    rewrite Hn; [done|]. by apply lookup_ge_None. }
  split.
  - intros i x. destruct (decide (i = j)) as [->|Hij].
    + rewrite list_lookup_alter, decide_True by done. intros (y & Hy & ->)%fmap_Some.
      by rewrite (filter_at_self j ds d Hd), assembled_snoc, (Hpad j y Hy).
    + rewrite list_lookup_alter_ne by done. rewrite (filter_at_other i j ds d Hd Hij). apply Hpad.
  - intros i Hi. apply lookup_ge_None in Hi. rewrite length_alter, length_app, length_replicate in Hi.
    rewrite (filter_at_other i j ds d Hd) by lia. apply Hn, lookup_ge_None. lia.
Qed.

Lemma fold_by_place cs ds :
  Forall (fun d => exists i, (i < length cs)%nat /\ at_index i d) ds ->
  (forall i c, cs !! i = Some c -> Forall (fits c) (filter (at_index i) ds)) ->
  by_place ds (fold_left add ds []) /\ (length (fold_left add ds []) <= length cs)%nat.
Proof.
  induction ds as [|d ds IH] using rev_ind; [by intros _ _; split; [|cbn; lia]|].
  intros [Hds [(j & Hj & Hd) _]%Forall_cons]%Forall_app Hfit. rewrite fold_left_app. cbn [fold_left].
  destruct (lookup_lt_is_Some_2 cs j Hj) as [c Hc].
  assert (Hfit' : forall i c, cs !! i = Some c -> Forall (fits c) (filter (at_index i) ds)).
  { intros i c' Hc'. specialize (Hfit i c' Hc'). rewrite filter_app in Hfit. by apply Forall_app in Hfit as [? _]. }
  destruct (IH Hds Hfit') as [Hp Hl].
  pose proof (Hfit j c Hc) as Hfd. rewrite (filter_at_self j ds d Hd) in Hfd. apply Forall_app in Hfd as [_ [(Hid & _) _]%Forall_cons].
  assert (Hslot : forall x, fold_left add ds [] !! j = Some x -> d_ID d = [] \/ ID x = [] \/ ID x = d_ID d).
  { intros x Hx. rewrite (proj1 Hp j x Hx). destruct (proj1 (assembled_ID c _ (Hfit' j c Hc))) as [->| ->]; naive_solver. }
  split; [by apply (by_place_add _ _ j)|].
  rewrite (length_add j d _ Hd Hslot). lia.
Qed.

Lemma streams_by_index cs ds :
  Forall complete cs -> Forall (fun d => exists i, (i < length cs)%nat /\ at_index i d) ds ->
  (forall i c, cs !! i = Some c -> made_of c (filter (at_index i) ds)) -> fold_left add ds [] = cs.
Proof.
  intros Hc Hds Hm. destruct (fold_by_place cs ds Hds) as [[Hs Hn] Hl].
  { intros i c Hi. by destruct (Hm i c Hi). }
  apply list_eq. intros i. destruct (cs !! i) as [c|] eqn:Ei.
  - pose proof (made_of_assembled c _ (Hm i c Ei)) as Ha.
    destruct (fold_left add ds [] !! i) as [x|] eqn:Ex; [by rewrite (Hs i x Ex), Ha|].
    rewrite (Hn i Ex) in Ha. exfalso. rewrite Forall_lookup in Hc. destruct (Hc i c Ei) as (_ & Hname & _).
    by rewrite <- Ha in Hname.
  - apply lookup_ge_None in Ei. apply lookup_ge_None. lia.
Qed.

(** *** By id *)

Lemma list_find_none_id (cs : list ToolCall) id : Forall (fun c => ID c <> id) cs -> list_find (fun c => ID c = id) cs = None.
Proof. intros H. apply list_find_None. exact H. Qed.

(** The first fragment of a call with a new id opens it at the end. *)
Lemma add_opens cs c d :
  Forall (fun c' => ID c' <> ID c) cs -> Forall (fun c' => ID c' <> []) cs -> ID c <> [] -> d_ID d = ID c ->
  d_Index d = None \/ d_Index d = Some 0 -> add cs d = cs ++ [merge d zeroCall].
Proof.
  intros Hnew Hids Hc Hd Hidx. assert (Hslot : slot cs d = (cs ++ [zeroCall], length cs)).
  { assert (Hby : slot_by_id cs d = (cs ++ [zeroCall], length cs)).
    { unfold slot_by_id. rewrite Hd, (bool_decide_eq_false_2 _ Hc). by rewrite list_find_none_id. }
    unfold slot. destruct Hidx as [-> | ->]; [done|]. cbn. destruct cs as [|x cs]; [done|].
    change ((x :: cs) !! Z.to_nat 0) with (Some x). cbv iota beta.
    apply Forall_cons in Hnew as [Hx _]. apply Forall_cons in Hids as [Hx' _].
    rewrite bool_decide_eq_false_2; [done|]. rewrite Hd. naive_solver. }
  unfold add. rewrite Hslot, alter_app_r_alt, Nat.sub_diag by lia. done.
Qed.

(** A fragment without index, of the last call, goes to it. *)
Lemma add_continues cs c x d :
  Forall (fun c' => ID c' <> ID c) cs -> ID c <> [] -> ID x = ID c -> d_Index d = None -> d_ID d = [] \/ d_ID d = ID c ->
  add (cs ++ [x]) d = cs ++ [merge d x].
Proof.
  intros Hnew Hc Hx Hidx Hd. assert (Hslot : slot (cs ++ [x]) d = (cs ++ [x], length cs)).
  { unfold slot, slot_by_id. rewrite Hidx. destruct Hd as [-> | Hd].
    - rewrite bool_decide_eq_true_2 by done. destruct (cs ++ [x]) as [|y l] eqn:E; [by destruct cs|].
      rewrite <- E, length_app. cbn. f_equal. lia.
    - rewrite Hd, (bool_decide_eq_false_2 _ Hc), list_find_app_r by (by apply list_find_none_id).
      cbn. rewrite decide_True by done. cbn. f_equal; lia. }
  unfold add. rewrite Hslot, alter_app_r_alt, Nat.sub_diag by lia. done.
Qed.

Lemma add_call cs c d rest :
  Forall (fun c' => ID c' <> ID c) cs -> Forall (fun c' => ID c' <> []) cs -> ID c <> [] -> d_ID d = ID c ->
  d_Index d = None \/ d_Index d = Some 0 -> Forall (fun e => d_Index e = None) rest -> Forall (fits c) (d :: rest) ->
  fold_left add (d :: rest) cs = cs ++ [assembled (d :: rest)].
Proof.
  intros Hnew Hids Hc Hd Hidx Hrest Hfit. induction rest as [|e rest IH] using rev_ind.
  { cbn. by apply (add_opens cs c). }
  apply Forall_app in Hrest as [Hrest [He _]%Forall_cons].
  change (d :: rest ++ [e]) with ((d :: rest) ++ [e]) in *. apply Forall_app in Hfit as [Hfit [(Hide & _) _]%Forall_cons].
  rewrite fold_left_app, (IH Hrest Hfit), assembled_snoc. cbn [fold_left].
  apply (add_continues _ c); [done|done| |done|done].
  apply (proj2 (assembled_ID c _ Hfit)). right. by apply Exists_cons_hd.
Qed.

Lemma in_turn_fold cs ds : in_turn cs ds -> fold_left add ds [] = cs /\ Forall (fun c => ID c <> []) cs.
Proof.
  induction 1 as [|cs c ds d rest _ [IH IHid] Hc Hnew Hd Hidx Hrest Hm]; [done|].
  rewrite fold_left_app, IH. split; [|apply Forall_app; by split; [|constructor]].
  destruct Hm as (Hf & Hrestm). rewrite (add_call cs c) by done. by rewrite (made_of_assembled c (d :: rest)).
Qed.

(** C31: however a provider streams its tool calls (fragments by index, mixed
    between calls, or call after call by id, with or without an index 0), the
    assembler returns exactly those calls, in their order, each with its id,
    name, extra content and whole arguments. *)
Theorem calls_arrive_whole cs ds : Forall complete cs -> streams cs ds -> done_ (fold_left add ds []) = cs.
Proof.
  intros Hc [Hds Hm|Ht].
  - rewrite (streams_by_index cs ds) by done. by apply done_complete.
  - destruct (in_turn_fold cs ds Ht) as [-> _]. by apply done_complete.
Qed.

Definition weather : ToolCall := mkToolCall (bs "a1") (bs "function") (mkFunction (bs "weather") (bs "{1}")) [].
Definition hours : ToolCall := mkToolCall (bs "b2") (bs "function") (mkFunction (bs "hours") (bs "{}")) [].

(** Two calls by index, the second's end before the first's. *)
Definition mixed : list toolCallDelta :=
  [mkDelta (Some 0) (bs "a1") (bs "function") (bs "weather") (bs "{") [];
   mkDelta (Some 1) (bs "b2") (bs "function") (bs "hours") (bs "{") [];
   mkDelta (Some 1) [] [] [] (bs "}") [];
   mkDelta (Some 0) [] [] [] (bs "1}") []].

Lemma calls_arrive_whole_witness : streams [weather; hours] mixed /\ done_ (fold_left add mixed []) = [weather; hours].
Proof.
  assert (H : streams [weather; hours] mixed).
  { apply by_index.
    - repeat constructor; (exists 0%nat; by split; [cbn; lia|]) || (exists 1%nat; by split; [cbn; lia|]).
    - intros [|[|i]] c [= <-]; split_and!; try done;
        try (right; apply Exists_cons_hd; reflexivity); try (left; reflexivity);
        vm_compute; repeat apply Forall_cons_2; try apply Forall_nil_2; split_and!; auto. }
  split; [exact H|]. apply calls_arrive_whole; [|exact H]. repeat constructor; vm_compute; discriminate.
Defined.
