(* ===== verification/CallLog.v ===== *)
(** [internal/ai/agent/calllog.go]: the record of a call, as Dograh's call
    history shows it: its events, turns, nodes, outcome, extracted variables and
    what it used.

    Every method holds the log's mutex throughout, so any use of a log is a
    sequence of calls. A formatted time is its value at the format's precision: an
    event's in microseconds, a turn's in milliseconds; times are ns since 1970.
    [extracted]'s values are any JSON values; a [nil] log does nothing. *)

From Stdlib Require Import String SpecFloat Sorting.Sorted.
From stdpp Require Import sorting.
From S2P Require Import Prelude Text Workflow LlmClient.

Local Open Scope Z_scope.

(** [llm.Usage.Add]. *)
Definition no_usage : Usage := mkUsage 0 0 0 0.
Definition Usage_Add (u o : Usage) : Usage :=
  mkUsage (PromptTokens u + PromptTokens o) (CompletionTokens u + CompletionTokens o)
    (TotalTokens u + TotalTokens o) (CachedTokens u + CachedTokens o).

Section calllog.
Context {json : Type}.

Inductive payload :=
  | PTranscription (text : bytes) (stamp : Z)
  | PBotText (text : bytes) (stamp : Z)
  | PTransition (id name : bytes) (previous : option (bytes * bytes)) (allow_interrupt : bool)
  | PCallStart (name id : bytes)
  | PCallEnd (name id : bytes) (result : option bytes)
  | PLatency (d : Z)
  | PTTFB (service : bytes) (d : Z).

(** [LogEvent]. *)
Record LogEvent := mkEvent { ev_Payload : payload; ev_Timestamp : Z; ev_Turn : Z; ev_Node : option (bytes * bytes) }.

(** [CallLog]. *)
Record t := mkLog {
  events : list LogEvent; turn : Z; node : option Node; visited : list bytes; reason : bytes; userSpoke : bool;
  extracted : option (gmap bytes json); keys : list bytes;
  replies : Z; bargeIns : Z; pauses : Z; falseInterruptions : Z; heldSpeech : Z; heldDelivered : Z;
  errors : gmap bytes Z; replyLatencies : list Z;
  llmUsage : gmap bytes Usage; ttsChars : Z; sttSeconds : spec_float; sttGated : bool;
}.

#[global] Instance eta_t : Eta t := fun l =>
  mkLog (events l) (turn l) (node l) (visited l) (reason l) (userSpoke l) (extracted l) (keys l)
    (replies l) (bargeIns l) (pauses l) (falseInterruptions l) (heldSpeech l) (heldDelivered l)
    (errors l) (replyLatencies l) (llmUsage l) (ttsChars l) (sttSeconds l) (sttGated l).

Definition New : t := mkLog [] 0 None [] [] false None [] 0 0 0 0 0 0 ∅ [] ∅ 0 (S754_zero false) false.

(** ** Methods *)

Definition us (now : Z) : Z := now / 1000.
Definition ms (now : Z) : Z := now / 1000000.

(** [add]. *)
Definition add (now : Z) (p : payload) (l : t) : t :=
  l <| events ::= fun es => es ++ [mkEvent p (us now) (turn l) ((fun n => (node_ID n, node_Name n)) <$> node l)] |>.

(** [turnTime]; zero is no time. *)
Definition turnTime (now started : Z) : Z := ms (if started =? 0 then now else started).

Definition BargeIn (l : t) : t := l <| bargeIns ::= Z.succ |>.
Definition InterruptionPaused (l : t) : t := l <| pauses ::= Z.succ |>.
Definition FalseInterruption (l : t) : t := l <| falseInterruptions ::= Z.succ |>.
Definition TurnStarted (l : t) : t := l <| replies ::= Z.succ |>.
Definition SpeechHeld (l : t) : t := l <| heldSpeech ::= Z.succ |>.
Definition SpeechDelivered (l : t) : t := l <| heldDelivered ::= Z.succ |>.
Definition Error (stage : bytes) (l : t) : t := l <| errors ::= fun m => <[stage := default 0 (m !! stage) + 1]> m |>.
Definition ReplyLatency (now d : Z) (l : t) : t := add now (PLatency d) (l <| replyLatencies ::= fun x => x ++ [Z.quot d 1000000] |>).
Definition TTFBMeasured (now : Z) (service : bytes) (d : Z) (l : t) : t := add now (PTTFB service d) l.
Definition LLMUsage (key : bytes) (u : Usage) (l : t) : t :=
  l <| llmUsage ::= fun m => <[key := Usage_Add (default no_usage (m !! key)) u]> m |>.
Definition TTSChars (n : Z) (l : t) : t := l <| ttsChars ::= Z.add n |>.
Definition STTAudio (seconds : spec_float) (gated : bool) (l : t) : t := l <| sttSeconds := seconds |> <| sttGated := gated |>.

Definition NodeEntered (now : Z) (n : Node) (l : t) : t :=
  let p := PTransition (node_ID n) (node_Name n) ((fun m => (node_ID m, node_Name m)) <$> node l) (AllowInterrupt n) in
  let l := add now p (l <| node := Some n |>) in
  if bool_decide (node_Name n ∈ visited l) then l else l <| visited ::= fun v => v ++ [node_Name n] |>.

Definition UserSaid (now : Z) (text : bytes) (started : Z) (l : t) : t :=
  add now (PTranscription text (turnTime now started))
    (l <| turn ::= Z.succ |> <| userSpoke ::= fun b => b || negb (bool_decide (text = [])) |>).

Definition AgentSaid (now : Z) (text : bytes) (started : Z) (l : t) : t := add now (PBotText text (turnTime now started)) l.
Definition FunctionStarted (now : Z) (name id : bytes) (l : t) : t := add now (PCallStart name id) l.
Definition FunctionEnded (now : Z) (name id result : bytes) (l : t) : t :=
  add now (PCallEnd name id (if bool_decide (result = []) then None else Some result)) l.
Definition Ending (why : bytes) (l : t) : t := if bool_decide (reason l = []) then l <| reason := why |> else l.

(** [Extracted]; [vars] are the values of the keys. *)
Definition extract_key (vars : bytes -> json) (l : t) (k : bytes) : t :=
  let m := default ∅ (extracted l) in
  (match m !! k with Some _ => l | None => l <| keys ::= fun ks => ks ++ [k] |> end) <| extracted := Some (<[k := vars k]> m) |>.
Definition Extracted (vars : bytes -> json) (ks : list bytes) (l : t) : t :=
  fold_left (extract_key vars) ks (l <| extracted := Some (default ∅ (extracted l)) |>).

(** ** The summary *)

(** [EventTime], in ms. *)
Definition stamp (p : payload) : option Z :=
  match p with PTranscription _ s | PBotText _ s => Some s | _ => None end.
Definition EventTime (e : LogEvent) : Z := default (ev_Timestamp e / 1000) (stamp (ev_Payload e)).

(** [sort.SliceStable] by [EventTime]. *)
Fixpoint insert_event (e : LogEvent) (l : list LogEvent) : list LogEvent :=
  match l with
  | [] => [e]
  | x :: r => if EventTime x <=? EventTime e then x :: insert_event e r else e :: l
  end.
Definition sortedEvents (es : list LogEvent) : list LogEvent := fold_left (fun acc e => insert_event e acc) es [].

Record CallSummary := mkSummary {
  Events : list LogEvent; NodesVisited : list bytes; EndReason : bytes; UserSpoke : bool;
  ExtractedVars : option (gmap bytes json); ExtractedKeys : list bytes;
  UserTurns : Z; AgentReplies : Z; BargeIns : Z; Pauses : Z; FalseInterruptions : Z; HeldSpeech : Z; HeldDelivered : Z;
  Errors : gmap bytes Z; ReplyLatenciesMS : list Z; LLMUsages : gmap bytes Usage; TTSCharsSent : Z;
  STTAudioSeconds : spec_float; STTGated : bool;
}.

Definition Summary (l : t) : CallSummary :=
  mkSummary (sortedEvents (events l)) (visited l) (reason l) (userSpoke l) (extracted l) (keys l) (turn l) (replies l)
    (bargeIns l) (pauses l) (falseInterruptions l) (heldSpeech l) (heldDelivered l) (errors l) (replyLatencies l)
    (llmUsage l) (ttsChars l) (sttSeconds l) (sttGated l).

(** ** A log's life: the calls of its methods, each at its time *)

Inductive entry :=
  | CBargeIn | CInterruptionPaused | CFalseInterruption | CTurnStarted | CSpeechHeld | CSpeechDelivered
  | CError (stage : bytes) | CReplyLatency (d : Z) | CTTFB (service : bytes) (d : Z)
  | CLLMUsage (key : bytes) (u : Usage) | CTTSChars (n : Z) | CSTTAudio (s : spec_float) (gated : bool)
  | CNodeEntered (n : Node) | CUserSaid (text : bytes) (started : Z) | CAgentSaid (text : bytes) (started : Z)
  | CFunctionStarted (name id : bytes) | CFunctionEnded (name id result : bytes)
  | CEnding (why : bytes) | CExtracted (vars : bytes -> json) (ks : list bytes).

Definition apply (l : t) (c : Z * entry) : t :=
  let '(now, c) := c in
  match c with
  | CBargeIn => BargeIn l | CInterruptionPaused => InterruptionPaused l | CFalseInterruption => FalseInterruption l
  | CTurnStarted => TurnStarted l | CSpeechHeld => SpeechHeld l | CSpeechDelivered => SpeechDelivered l
  | CError s => Error s l | CReplyLatency d => ReplyLatency now d l | CTTFB s d => TTFBMeasured now s d l
  | CLLMUsage k u => LLMUsage k u l | CTTSChars n => TTSChars n l | CSTTAudio s g => STTAudio s g l
  | CNodeEntered n => NodeEntered now n l | CUserSaid x s => UserSaid now x s l | CAgentSaid x s => AgentSaid now x s l
  | CFunctionStarted n i => FunctionStarted now n i l | CFunctionEnded n i r => FunctionEnded now n i r l
  | CEnding w => Ending w l | CExtracted v ks => Extracted v ks l
  end.

Definition life (cs : list (Z * entry)) : t := fold_left apply cs New.

(** ** The events in order *)

Lemma insert_event_perm e l : insert_event e l ≡ₚ e :: l.
Proof.
  induction l as [|x l IH]; [done|]. simpl. destruct (_ <=? _); [|done]. rewrite IH. apply Permutation_swap.
Qed.

Definition before (x y : LogEvent) : Prop := EventTime x <= EventTime y.

Lemma insert_sorted e l : StronglySorted before l -> StronglySorted before (insert_event e l).
Proof.
  induction 1 as [|x l Hl IH Hx]; simpl; [repeat constructor|]. destruct (Z.leb_spec (EventTime x) (EventTime e)).
  - constructor; [done|]. rewrite insert_event_perm. by constructor.
  - constructor; [by constructor|]. constructor; [unfold before; lia|]. eapply Forall_impl; [done|]. unfold before. lia.
Qed.

Definition at_time (z : Z) (l : list LogEvent) : list LogEvent := List.filter (fun e => EventTime e =? z) l.

Lemma List_filter_nil {A} (f : A -> bool) l : (forall x, In x l -> f x = false) -> List.filter f l = [].
Proof. induction l as [|x l IH]; intros H; [done|]. simpl. rewrite H by (by left). apply IH. intros y Hy. apply H. by right. Qed.

Lemma insert_stable z e l : StronglySorted before l -> at_time z (insert_event e l) = at_time z l ++ at_time z [e].
Proof.
  unfold at_time. induction 1 as [|x l Hl IH Hx]; [done|]. cbn [insert_event].
  destruct (Z.leb_spec (EventTime x) (EventTime e)) as [Hle|Hlt]; cbn [List.filter] in *.
  - rewrite IH. by destruct (EventTime x =? z).
  - destruct (Z.eqb_spec (EventTime e) z) as [<-|Hne]; [|by rewrite app_nil_r].
    assert (Hnil : List.filter (fun y => EventTime y =? EventTime e) (x :: l) = []).
    { apply List_filter_nil. intros y Hy.
      assert (before x y) by (destruct Hy as [<-|Hy]; [unfold before; lia|rewrite Forall_forall in Hx; apply Hx; by apply list_elem_of_In]).
      unfold before in *. apply Z.eqb_neq. lia. }
    cbn [List.filter] in Hnil. by rewrite Hnil.
Qed.

(** The call's events come out in the order of their times, a transcript at
    the moment its turn began: none lost or added, and those of one
    millisecond in the order they were logged. *)
Theorem events_sorted (cs : list (Z * entry)) :
  let es := events (life cs) in
  Events (Summary (life cs)) ≡ₚ es /\ StronglySorted before (Events (Summary (life cs))) /\
  forall z, at_time z (Events (Summary (life cs))) = at_time z es.
Proof.
  intros es. unfold Summary, sortedEvents. cbn [Events]. fold es. clearbody es.
  induction es as [|e es (IH1 & IH2 & IH3)] using rev_ind; [by repeat constructor|].
  rewrite fold_left_app. cbn [fold_left]. split_and!.
  - rewrite insert_event_perm, IH1. apply Permutation_cons_append.
  - by apply insert_sorted.
  - intros z. rewrite insert_stable by done. rewrite IH3. unfold at_time. by rewrite List.filter_app.
Qed.

(** ** What a summary says of the calls made *)

Definition count (p : entry -> bool) (cs : list (Z * entry)) : Z := Z.of_nat (length (List.filter (fun c => p c.2) cs)).
Definition pick {A} (f : entry -> option A) (cs : list (Z * entry)) : list A := omap (fun c => f c.2) cs.

(** The first of each. *)
Fixpoint firsts (l : list bytes) : list bytes :=
  match l with [] => [] | x :: r => x :: List.filter (fun y => negb (bool_decide (y = x))) (firsts r) end.

Lemma count_snoc p cs c : count p (cs ++ [c]) = count p cs + if p c.2 then 1 else 0.
Proof. unfold count. rewrite List.filter_app, length_app. simpl. destruct (p c.2); simpl; lia. Qed.

Lemma pick_snoc {A} (f : entry -> option A) cs c : pick f (cs ++ [c]) = pick f cs ++ option_list (f c.2).
Proof. unfold pick. rewrite omap_app. simpl. by destruct (f c.2). Qed.

Lemma firsts_elem l x : x ∈ firsts l <-> x ∈ l.
Proof.
  induction l as [|y l IH]; [done|]. simpl. rewrite !elem_of_cons, list_elem_of_In, filter_In, <- list_elem_of_In, IH, negb_true_iff, bool_decide_eq_false.
  destruct (decide (x = y)); tauto.
Qed.

Lemma firsts_snoc l x : firsts (l ++ [x]) = if bool_decide (x ∈ l) then firsts l else firsts l ++ [x].
Proof.
  induction l as [|y l IH]; [done|]. cbn [app firsts]. rewrite IH. destruct (decide (x ∈ l)) as [Hx|Hx].
  - rewrite !(bool_decide_eq_true_2 (x ∈ _)) by (try right; done). done.
  - rewrite (bool_decide_eq_false_2 (x ∈ l)) by done. rewrite List.filter_app. cbn [List.filter]. destruct (decide (x = y)) as [->|Hne].
    + rewrite !bool_decide_eq_true_2 by (first [done | by left]). cbn [negb]. by rewrite app_nil_r.
    + rewrite !bool_decide_eq_false_2; [done| |done]. intros [?|?]%elem_of_cons; done.
Qed.

Definition writes (cs : list (Z * entry)) : list (bytes * json) :=
  concat (pick (fun e => match e with CExtracted v ks => Some (map (fun k => (k, v k)) ks) | _ => None end) cs).
Definition merged (l : list (bytes * json)) : gmap bytes json := fold_left (fun m kv => <[kv.1 := kv.2]> m) l ∅.

(** What the extractions leave. *)
Definition extracts (l : t) (w : list (bytes * json)) : Prop :=
  default ∅ (extracted l) = merged w /\ keys l = firsts (map fst w).

Lemma merged_dom w k : is_Some (merged w !! k) <-> k ∈ map fst w.
Proof.
  unfold merged. induction w as [|[k' v] w IH] using rev_ind; [simpl; rewrite lookup_empty; split; [by intros []|by intros ?%not_elem_of_nil]|].
  rewrite fold_left_app, map_app, elem_of_app. simpl. rewrite list_elem_of_singleton.
  destruct (decide (k' = k)) as [->|Hne]; [rewrite lookup_insert_eq; split; eauto|].
  rewrite lookup_insert_ne, IH by done. split; [auto|]. by intros [|].
Qed.

Lemma merged_snoc w kv : merged (w ++ [kv]) = <[kv.1 := kv.2]> (merged w).
Proof. unfold merged. by rewrite fold_left_app. Qed.

Lemma extract_key_extracts vars k l w : extracts l w -> extracts (extract_key vars l k) (w ++ [(k, vars k)]).
Proof.
  intros [H1 H2]. unfold extracts, extract_key. rewrite merged_snoc, map_app, H1. cbn [map fst snd]. rewrite firsts_snoc.
  pose proof (merged_dom w k) as Hd. destruct (merged w !! k) as [v|].
  - rewrite bool_decide_eq_true_2 by (by apply Hd). done.
  - rewrite bool_decide_eq_false_2 by (intros H; apply Hd in H; by destruct H). simpl. by rewrite H2.
Qed.

Lemma extract_keys_extracts vars ks l w : extracts l w -> extracts (fold_left (extract_key vars) ks l) (w ++ map (fun k => (k, vars k)) ks).
Proof.
  revert w l. induction ks as [|k ks IH]; intros w l H; [by rewrite app_nil_r|]. cbn [map fold_left].
  replace (w ++ (k, vars k) :: map (fun k => (k, vars k)) ks) with ((w ++ [(k, vars k)]) ++ map (fun k => (k, vars k)) ks) by by rewrite <- app_assoc.
  by apply IH, extract_key_extracts.
Qed.

Lemma Extracted_extracts vars ks l w : extracts l w -> extracts (Extracted vars ks l) (w ++ map (fun k => (k, vars k)) ks).
Proof. intros H. by apply extract_keys_extracts. Qed.

(** Extracting leaves the rest alone. *)
Lemma extract_key_rest vars k l : exists x y, extract_key vars l k = l <| extracted := x |> <| keys := y |>.
Proof.
  unfold extract_key. exists (Some (<[k := vars k]> (default ∅ (extracted l)))).
  destruct (_ !! k); [exists (keys l)|exists (keys l ++ [k])]; by destruct l.
Qed.

Lemma extract_keys_rest vars ks l l' :
  (exists x y, l = l' <| extracted := x |> <| keys := y |>) ->
  exists x y, fold_left (extract_key vars) ks l = l' <| extracted := x |> <| keys := y |>.
Proof.
  revert l. induction ks as [|k ks IH]; intros l H; [done|]. cbn [fold_left]. apply IH. destruct H as (x & y & ->).
  destruct (extract_key_rest vars k (l' <| extracted := x |> <| keys := y |>)) as (x' & y' & ->). by exists x', y'.
Qed.

Lemma Extracted_rest vars ks l : exists x y, Extracted vars ks l = l <| extracted := x |> <| keys := y |>.
Proof. apply extract_keys_rest. exists (Some (default ∅ (extracted l))), (keys l). by destruct l. Qed.

(** The log after the calls [cs]. *)
Record accounts (cs : list (Z * entry)) (l : t) : Prop := {
  a_reason : reason l = default [] (head (List.filter (fun w => negb (bool_decide (w = []))) (pick (fun e => match e with CEnding w => Some w | _ => None end) cs)));
  a_visited : visited l = firsts (pick (fun e => match e with CNodeEntered n => Some (node_Name n) | _ => None end) cs);
  a_turn : turn l = count (fun e => match e with CUserSaid _ _ => true | _ => false end) cs;
  a_spoke : userSpoke l = existsb (fun x => negb (bool_decide (x = []))) (pick (fun e => match e with CUserSaid x _ => Some x | _ => None end) cs);
  a_replies : replies l = count (fun e => match e with CTurnStarted => true | _ => false end) cs;
  a_bargeIns : bargeIns l = count (fun e => match e with CBargeIn => true | _ => false end) cs;
  a_pauses : pauses l = count (fun e => match e with CInterruptionPaused => true | _ => false end) cs;
  a_false : falseInterruptions l = count (fun e => match e with CFalseInterruption => true | _ => false end) cs;
  a_held : heldSpeech l = count (fun e => match e with CSpeechHeld => true | _ => false end) cs;
  a_delivered : heldDelivered l = count (fun e => match e with CSpeechDelivered => true | _ => false end) cs;
  a_errors : forall s, default 0 (errors l !! s) = count (fun e => match e with CError s' => bool_decide (s' = s) | _ => false end) cs;
  a_latencies : replyLatencies l = pick (fun e => match e with CReplyLatency d => Some (Z.quot d 1000000) | _ => None end) cs;
  a_usage : forall k, default no_usage (llmUsage l !! k) =
    fold_left Usage_Add (pick (fun e => match e with CLLMUsage k' u => if bool_decide (k' = k) then Some u else None | _ => None end) cs) no_usage;
  a_chars : ttsChars l = fold_left Z.add (pick (fun e => match e with CTTSChars n => Some n | _ => None end) cs) 0;
  a_stt : (sttSeconds l, sttGated l) =
    default (S754_zero false, false) (last (pick (fun e => match e with CSTTAudio s g => Some (s, g) | _ => None end) cs));
  a_extracts : extracts l (writes cs);
}.

Lemma writes_snoc cs c :
  writes (cs ++ [c]) = writes cs ++ match c.2 with CExtracted v ks => map (fun k => (k, v k)) ks | _ => [] end.
Proof. unfold writes. rewrite pick_snoc, concat_app. f_equal. destruct c.2; simpl; by rewrite ?app_nil_r. Qed.

Lemma NodeEntered_rest now n l :
  exists x v, NodeEntered now n l = l <| events := x |> <| node := Some n |> <| visited := v |> /\
    v = if bool_decide (node_Name n ∈ visited l) then visited l else visited l ++ [node_Name n].
Proof.
  exists (events (NodeEntered now n l)), (visited (NodeEntered now n l)).
  unfold NodeEntered, add. simpl. case_bool_decide; destruct l; done.
Qed.

Lemma Ending_rest w l : Ending w l = l <| reason := if bool_decide (reason l = []) then w else reason l |>.
Proof. unfold Ending. case_bool_decide; by destruct l. Qed.

(** The calls one at a time: a field that [c] does not touch stays, one it
    touches gets what [c] brings. *)
Ltac quiet_call H :=
  destruct H as [H1 H2 H3 H4 H5 H6 H7 H8 H9 H10 H11 H12 H13 H14 H15 H16];
  split; try (let s := fresh "s" in intros s); rewrite ?pick_snoc, ?count_snoc, ?writes_snoc; cbn [snd option_list];
  rewrite ?app_nil_r, ?Z.add_0_r; auto.

Lemma accounts_snoc cs l c : accounts cs l -> accounts (cs ++ [c]) (apply l c).
Proof.
  intros H. destruct c as [now c]. destruct c; cbn [apply]; try solve [quiet_call H; simpl; rewrite ?app_nil_r; f_equal; auto];
    try solve [quiet_call H; simpl; lia].
  - quiet_call H. simpl. destruct (decide (stage = s)) as [->|Hne].
    + rewrite lookup_insert_eq, bool_decide_eq_true_2 by done. simpl. by rewrite H11.
    + rewrite lookup_insert_ne, bool_decide_eq_false_2, Z.add_0_r by done. auto.
  - quiet_call H. simpl. rewrite fold_left_app. destruct (decide (key = s)) as [->|Hne].
    + rewrite lookup_insert_eq, bool_decide_eq_true_2 by done. simpl. by rewrite H13.
    + rewrite lookup_insert_ne, bool_decide_eq_false_2 by done. simpl. auto.
  - quiet_call H. simpl. rewrite fold_left_app. simpl. lia.
  - quiet_call H. simpl. by rewrite last_snoc.
  - destruct (NodeEntered_rest now n l) as (x & v & -> & ->). quiet_call H. simpl. rewrite H2, firsts_snoc.
    rewrite (bool_decide_ext _ _ (firsts_elem _ _)). done.
  - quiet_call H; simpl; [lia|]. rewrite existsb_app. simpl. by rewrite orb_false_r, H4.
  - rewrite Ending_rest. quiet_call H. simpl. rewrite H1, List.filter_app. set (ws := pick _ cs).
    assert (Hf : forall w, In w (List.filter (fun w => negb (bool_decide (w = []))) ws) -> w <> []).
    { intros w [_ Hw%negb_true_iff%bool_decide_eq_false]%filter_In. done. }
    destruct (List.filter _ ws) as [|w ws']; simpl.
    + by destruct why.
    + rewrite bool_decide_eq_false_2; [done|]. apply Hf. by left.
  - destruct (Extracted_rest vars ks l) as (x & y & E). pose proof (Extracted_extracts vars ks l (writes cs) (a_extracts _ _ H)) as Hx.
    rewrite E in *. quiet_call H.
Qed.

(** The summary of a call is what was reported of it, however the reports
    interleave: the first reason to end it, each node once in the order first
    entered, the turns, replies, interruptions and failures counted, the tokens
    of each model and the characters summed, and of every variable extracted the
    last value, its key once in the order first written. *)
Theorem summary_accounts (cs : list (Z * entry)) :
  let s := Summary (life cs) in
  EndReason s = default [] (head (List.filter (fun w => negb (bool_decide (w = []))) (pick (fun e => match e with CEnding w => Some w | _ => None end) cs))) /\
  NodesVisited s = firsts (pick (fun e => match e with CNodeEntered n => Some (node_Name n) | _ => None end) cs) /\
  UserTurns s = count (fun e => match e with CUserSaid _ _ => true | _ => false end) cs /\
  UserSpoke s = existsb (fun x => negb (bool_decide (x = []))) (pick (fun e => match e with CUserSaid x _ => Some x | _ => None end) cs) /\
  AgentReplies s = count (fun e => match e with CTurnStarted => true | _ => false end) cs /\
  BargeIns s = count (fun e => match e with CBargeIn => true | _ => false end) cs /\
  (forall x, default 0 (Errors s !! x) = count (fun e => match e with CError y => bool_decide (y = x) | _ => false end) cs) /\
  (forall k, default no_usage (LLMUsages s !! k) =
     fold_left Usage_Add (pick (fun e => match e with CLLMUsage k' u => if bool_decide (k' = k) then Some u else None | _ => None end) cs) no_usage) /\
  TTSCharsSent s = fold_left Z.add (pick (fun e => match e with CTTSChars n => Some n | _ => None end) cs) 0 /\
  default ∅ (ExtractedVars s) = merged (writes cs) /\ ExtractedKeys s = firsts (map fst (writes cs)).
Proof.
  assert (H : accounts cs (life cs)).
  { induction cs as [|c cs IH] using rev_ind; [split; intros; cbn; by rewrite ?lookup_empty|]. unfold life. rewrite fold_left_app. by apply accounts_snoc. }
  destruct H as [H1 H2 H3 H4 H5 H6 H7 H8 H9 H10 H11 H12 H13 H14 H15 [H16 H17]]. by split_and!.
Qed.
End calllog.

(** A reply that was cut in on is logged after the words that cut it, and
    comes out before them; the second reason does not count. *)
Example interrupted_call :
  let node := mkNode (bs "1") (bs "start") [] [] None None false true false [] [] in
  let log := life (json := bytes) [(1000000000, CNodeEntered node); (2000000000, CUserSaid (bs "wait") 1500000000); (2000000001, CAgentSaid (bs "Hello, I") 1200000000);
                   (3000000000, CExtracted (fun k => k ++ bs "1") [bs "b"; bs "a"]); (3500000000, CExtracted (fun k => k ++ bs "2") [bs "a"; bs "c"]);
                   (4000000000, CEnding (bs "end_call_tool")); (5000000000, CEnding (bs "user_qualified")); (6000000000, CNodeEntered node)] in
  let s := Summary log in
  (map (fun e => (ev_Payload e, ev_Turn e)) (Events s), EndReason s, NodesVisited s, ExtractedKeys s, (.!! bs "a") <$> ExtractedVars s) =
  ([(PTransition (bs "1") (bs "start") None true, 0); (PBotText (bs "Hello, I") 1200, 1); (PTranscription (bs "wait") 1500, 1);
    (PTransition (bs "1") (bs "start") (Some (bs "1", bs "start")) true, 1)],
   bs "end_call_tool", [bs "start"], [bs "b"; bs "a"; bs "c"], Some (Some (bs "a2"))).
Proof. by vm_compute. Qed.
