(* ===== verification/Json.v ===== *)
(** [encoding/json]'s reading of a text, as far as the program's own code
    depends on it: the scanner that decides what is valid, the extent of a
    text's first value, a string's value and the members of an object. *)

From Stdlib Require Import String.
From S2P Require Import Prelude Text.

Local Open Scope Z_scope.

(** ** The scanner: one step per byte *)

(** What an open container expects next of the text ([parseState]). *)
Inductive pstate := ObjectKey | ObjectValue | ArrayValue.

(** The scanner's [step] function. *)
Inductive jstate :=
  | BeginValue | BeginValueOrEmpty | BeginString | BeginStringOrEmpty
  | InString | InStringEsc | InStringEscU (left : nat)
  | Neg | Num0 | Num1 | Dot | Dot0 | NumE | NumESign | NumE0
  | InLit (rest : bytes)
  | EndValue | EndTop.

#[global] Instance jstate_dec : EqDecision jstate.
Proof. solve_decision. Defined.

Abbreviation scan := (jstate * list pstate)%type.

Definition space (c : Z) : bool := (c =? 32) || (c =? 9) || (c =? 13) || (c =? 10).
Definition digit (c : Z) : bool := (48 <=? c) && (c <=? 57).
Definition hexdigit (c : Z) : bool := digit c || ((97 <=? c) && (c <=? 102)) || ((65 <=? c) && (c <=? 70)).

(** [maxNestingDepth]. *)
Definition maxNestingDepth : Z := 10000.

Definition push (p : pstate) (q : jstate) (k : list pstate) : option scan :=
  if Z.of_nat (length (p :: k)) <=? maxNestingDepth then Some (q, p :: k) else None.

Definition pop (k : list pstate) : option scan := Some (match k with [] => EndTop | _ => EndValue end, k).

(** [stateEndValue]. *)
Definition end_value (k : list pstate) (c : Z) : option scan :=
  match k with
  | [] => if space c then Some (EndTop, []) else None
  | p :: k' =>
      if space c then Some (EndValue, k)
      else match p with
           | ObjectKey => if c =? 58 then Some (BeginValue, ObjectValue :: k') else None
           | ObjectValue => if c =? 44 then Some (BeginString, ObjectKey :: k') else if c =? 125 then pop k' else None
           | ArrayValue => if c =? 44 then Some (BeginValue, k) else if c =? 93 then pop k' else None
           end
  end.

(** [stateBeginValue]. *)
Definition begin_value (k : list pstate) (c : Z) : option scan :=
  if c =? 123 then push ObjectKey BeginStringOrEmpty k
  else if c =? 91 then push ArrayValue BeginValueOrEmpty k
  else if c =? 34 then Some (InString, k)
  else if c =? 45 then Some (Neg, k)
  else if c =? 48 then Some (Num0, k)
  else if c =? 116 then Some (InLit (bs "rue"), k)
  else if c =? 102 then Some (InLit (bs "alse"), k)
  else if c =? 110 then Some (InLit (bs "ull"), k)
  else if digit c then Some (Num1, k) else None.

(** The states that hand a byte that is no part of the value to
    [stateEndValue]. *)
Definition closing (q : jstate) (c : Z) : bool :=
  let e := (c =? 101) || (c =? 69) in
  match q with
  | EndValue => true
  | Num0 => negb ((c =? 46) || e) | Num1 => negb (digit c || (c =? 46) || e)
  | Dot0 => negb (digit c || e) | NumE0 => negb (digit c)
  | _ => false
  end.

Definition escapes (c : Z) : bool := existsb (Z.eqb c) (bs "bfnrt\/" ++ [34]).

Definition step (q : jstate) (k : list pstate) (c : Z) : option scan :=
  if closing q c then end_value k c
  else match q with
       | BeginValue => if space c then Some (q, k) else begin_value k c
       | BeginValueOrEmpty => if space c then Some (q, k) else if c =? 93 then end_value k c else begin_value k c
       | BeginString => if space c then Some (q, k) else if c =? 34 then Some (InString, k) else None
       | BeginStringOrEmpty =>
           if space c then Some (q, k)
           else if c =? 125 then end_value (match k with _ :: r => ObjectValue :: r | [] => [] end) c
           else if c =? 34 then Some (InString, k) else None
       | InString => if c =? 34 then Some (EndValue, k) else if c =? 92 then Some (InStringEsc, k) else if c <? 32 then None else Some (q, k)
       | InStringEsc => if escapes c then Some (InString, k) else if c =? 117 then Some (InStringEscU 3, k) else None
       | InStringEscU n => if hexdigit c then Some (match n with O => InString | S m => InStringEscU m end, k) else None
       | Neg => if c =? 48 then Some (Num0, k) else if digit c then Some (Num1, k) else None
       | Num0 | Num1 => if digit c then Some (Num1, k) else if c =? 46 then Some (Dot, k) else Some (NumE, k)
       | Dot => if digit c then Some (Dot0, k) else None
       | Dot0 => if digit c then Some (Dot0, k) else Some (NumE, k)
       | NumE => if (c =? 43) || (c =? 45) then Some (NumESign, k) else if digit c then Some (NumE0, k) else None
       | NumESign | NumE0 => if digit c then Some (NumE0, k) else None
       | InLit l => match l with
                    | x :: [] => if c =? x then Some (EndValue, k) else None
                    | x :: r => if c =? x then Some (InLit r, k) else None
                    | [] => None
                    end
       | EndTop => if space c then Some (EndTop, k) else None
       | EndValue => None
       end.

(** [scanner.eof]. *)
Definition ends (q : jstate) (k : list pstate) : bool :=
  match q with
  | EndTop => true
  | _ => match step q k 32 with Some (EndTop, _) => true | _ => false end
  end.

Fixpoint run (q : jstate) (k : list pstate) (s : bytes) : option scan :=
  match s with
  | [] => Some (q, k)
  | c :: r => match step q k c with Some (q', k') => run q' k' r | None => None end
  end.

Definition accepts (x : option scan) : bool := match x with Some (q, k) => ends q k | None => false end.

(** [json.Valid]. *)
Definition Valid (s : bytes) : bool := accepts (run BeginValue [] s).

(** ** The first value of a text: [Decoder.Decode] into a raw value, from its
    first byte *)
Fixpoint value_loop (q : jstate) (k : list pstate) (s : bytes) : option bytes :=
  match s with
  | [] => if ends q k then Some [] else None
  | c :: r =>
      if match k with [] => closing q c | _ => false end then Some []
      else match step q k c with
           | None => None
           | Some (EndTop, _) => Some [c]
           | Some (q', k') => cons c <$> value_loop q' k' r
           end
  end.
Definition first_value (s : bytes) : option bytes := value_loop BeginValue [] s.

Fixpoint skip_space (s : bytes) : bytes :=
  match s with c :: r => if space c then skip_space r else s | [] => [] end.

(** ** Strings: [unquote] *)

Definition hexval (c : Z) : Z := if digit c then c - 48 else if c <? 97 then c - 55 else c - 87.
Definition hex4 (s : bytes) : option (Z * bytes) :=
  match s with
  | a :: b :: c :: d :: r =>
      if forallb hexdigit [a; b; c; d] then Some (((hexval a * 16 + hexval b) * 16 + hexval c) * 16 + hexval d, r) else None
  | _ => None
  end.
Definition unescape (c : Z) : Z :=
  if c =? 98 then 8 else if c =? 102 then 12 else if c =? 110 then 10 else if c =? 114 then 13 else if c =? 116 then 9 else c.

(** The inside of a valid string; what is not UTF-8 is replaced. *)
Fixpoint unquote_chars (n : nat) (s : bytes) : bytes :=
  match n, s with
  | S n, 92 :: 117 :: r =>
      match hex4 r with
      | None => []
      | Some (u, r) =>
          if (55296 <=? u) && (u <=? 57343) then
            match r with
            | 92 :: 117 :: r' =>
                match hex4 r' with
                | Some (v, r'') =>
                    if (u <? 56320) && (56320 <=? v) && (v <=? 57343)
                    then EncodeRune ((u - 55296) * 1024 + (v - 56320) + 65536) ++ unquote_chars n r''
                    else EncodeRune RuneError ++ unquote_chars n r
                | None => EncodeRune RuneError ++ unquote_chars n r
                end
            | _ => EncodeRune RuneError ++ unquote_chars n r
            end
          else EncodeRune u ++ unquote_chars n r
      end
  | S n, 92 :: c :: r => unescape c :: unquote_chars n r
  | S n, _ :: _ => let '(r, w) := DecodeRune s in EncodeRune r ++ unquote_chars n (drop (Z.to_nat w) s)
  | _, _ => []
  end.

(** A string in its quotes. *)
Definition unquote (s : bytes) : bytes := let i := take (length s - 2) (drop 1 s) in unquote_chars (length i) i.

(** ** Objects *)

(** The members of a valid object behind its brace or a comma, keys decoded. *)
Fixpoint members_loop (n : nat) (s : bytes) : list (bytes * bytes) :=
  match n with
  | O => []
  | S n =>
      let s := skip_space s in
      if negb (HasPrefix s [34]) then []
      else match first_value s with
           | None => []
           | Some key =>
               let s := skip_space (drop 1 (skip_space (drop (length key) s))) in
               match first_value s with
               | None => []
               | Some v => (unquote key, v) :: members_loop n (drop 1 (skip_space (drop (length v) s)))
               end
           end
  end.
Definition members (raw : bytes) : list (bytes * bytes) := members_loop (length raw) (drop 1 (skip_space raw)).

(** *** Numbers [strconv.ParseFloat] refuses: those that round to infinity *)

Definition is_num (q : jstate) : bool :=
  match q with Neg | Num0 | Num1 | Dot | Dot0 | NumE | NumESign | NumE0 => true | _ => false end.

(** The number literals of a text. *)
Fixpoint numbers (q : jstate) (k : list pstate) (cur : bytes) (s : bytes) : list bytes :=
  let out := if bool_decide (cur = []) then [] else [cur] in
  match s with
  | [] => out
  | c :: r =>
      match step q k c with
      | None => out
      | Some (q', k') => if is_num q' then numbers q' k' (cur ++ [c]) r else out ++ numbers q' k' [] r
      end
  end.

Definition digits_value (l : bytes) : Z := fold_left (fun n c => n * 10 + (c - 48)) l 0.
Fixpoint span_digits (s : bytes) : bytes * bytes :=
  match s with
  | c :: r => if digit c then let '(d, t) := span_digits r in (c :: d, t) else ([], s)
  | [] => ([], [])
  end.

(** The literal's digits and its exponent of ten; the exponent's digits count
    up to 10000. *)
Definition decimal (s : bytes) : bytes * Z :=
  let s := match s with 45 :: r => r | _ => s end in
  let '(i, s) := span_digits s in
  let '(f, s) := match s with 46 :: r => span_digits r | _ => ([], s) end in
  let e := match s with
           | [] => 0
           | _ :: s =>
               let neg := HasPrefix s [45] in
               let d := (span_digits (match s with 43 :: r | 45 :: r => r | _ => s end)).1 in
               let v := fold_left (fun n c => if n <? 10000 then n * 10 + (c - 48) else n) d 0 in if neg then - v else v
           end in
  (i ++ f, e - Z.of_nat (length f)).

(** Halfway between the largest [float64] and 2^1024. *)
Definition overflow_at : Z := 2 ^ 1024 - 2 ^ 970.

Definition in_range (s : bytes) : bool :=
  let '(d, e) := decimal s in
  let m := digits_value d in
  if m =? 0 then true
  else
    let size := Z.of_nat (length d) + e in
    if size <? 300 then true
    else if Z.log2 m / 4 + e >? 310 then false
    else if 0 <=? e then m * 10 ^ e <? overflow_at else m <? overflow_at * 10 ^ (- e).

(** [json.Unmarshal] into a map: the members, the later of two of one key
    last; nothing for a text that is not an object or holds a number out of
    range. *)
Definition object_members (raw : bytes) : option (list (bytes * bytes)) :=
  if Valid raw && HasPrefix (skip_space raw) [123] && forallb in_range (numbers BeginValue [] [] raw)
  then Some (members raw) else None.

(** ** Lemmas *)

(** A text with ['] for the double quote. *)
Definition qs (s : string) : bytes := map (fun c => if c =? 39 then 34 else c) (bs s).

Example valid_texts :
  map Valid [bs "{}"; qs " [1, -0.5e+3, null] "; bs "[1,]"; bs "01"; qs "{'a' : [true, '\u00e9\n']} "; bs "nul"; bs "1 2"; bs ""; qs "{'a'}"; bs "[[]"] =
  [true; true; false; false; true; false; false; false; false; false].
Proof. by vm_compute. Qed.

Example object_in_order :
  object_members (qs " {'b': {'x': 1}, 'a' :[1, 2] , '\u0915':null,'b': 1e308}") =
    Some [(bs "b", qs "{'x': 1}"); (bs "a", bs "[1, 2]"); (bs "क", bs "null"); (bs "b", bs "1e308")] /\
  object_members (qs "{'b': 1, 'a': [2e308]}") = None /\ object_members (bs "[1]") = None /\ object_members (bs "null") = None.
Proof. by vm_compute. Qed.

Lemma run_app q k s t : run q k (s ++ t) = match run q k s with Some (q', k') => run q' k' t | None => None end.
Proof. revert q k. induction s as [|c s IH]; intros q k; [done|]. simpl. by destruct (step q k c) as [[q' k']|]. Qed.

Lemma closing_ends q c : closing q c = true -> ends q [] = true.
Proof. by destruct q. Qed.

Lemma value_loop_accepts s q k v : value_loop q k s = Some v -> accepts (run q k v) = true.
Proof.
  revert q k v. induction s as [|c s IH]; intros q k v; simpl.
  { case_match; [|done]. by intros [= <-]. }
  destruct (match k with [] => closing q c | _ => false end) eqn:E.
  { intros [= <-]. destruct k; [|done]. by eapply closing_ends. }
  destruct (step q k c) as [[q' k']|] eqn:Es; [|done].
  assert (H : q' = EndTop -> accepts (run q k [c]) = true) by (intros ->; simpl; by rewrite Es).
  destruct q'; try (intros [= <-]; by apply H);
    (intros (w & Hw & ->)%fmap_Some; simpl; rewrite Es; by apply IH).
Qed.

(** What a decoder takes for the first value is a valid text. *)
Lemma first_value_valid s v : first_value s = Some v -> Valid v = true.
Proof. apply value_loop_accepts. Qed.

(** Inside a container the scanner stays inside, or is at the end. *)
Lemma step_inside q k c q' k' : step q k c = Some (q', k') -> k <> [] -> q' = EndTop \/ k' <> [].
Proof.
  intros H Hk. destruct k as [|p k]; [done|]. unfold step in H. destruct (closing q c); [|destruct q as [| | | | | |[|]| | | | | | | | |[|? [|]]| |]];
    unfold begin_value, push, end_value, pop in H; repeat case_match; simplify_eq; auto.
Qed.

Lemma ends_inside q k : ends q k = true -> k <> [] -> q = EndTop.
Proof.
  intros H Hk. destruct k as [|p k]; [done|]. destruct q as [| | | | | |[|]| | | | | | | | |[|x [|]]| |]; try done; unfold ends, step, closing, end_value in H;
    simpl in H; repeat case_match; simplify_eq/=; bool_to_prop; simplify_eq; try done; try lia.
Qed.

Lemma run_EndTop s k q k' : run EndTop k s = Some (q, k') -> forallb space s = true.
Proof.
  revert k. induction s as [|c s IH]; intros k; [done|]. simpl. unfold step. simpl. destruct (space c); [|done]. apply IH.
Qed.

(** The first value of a text that begins with a whole container. *)
Lemma value_loop_inside j t q k c :
  accepts (run q k (j ++ [c])) = true -> space c = false -> k <> [] -> value_loop q k ((j ++ [c]) ++ t) = Some (j ++ [c]).
Proof.
  revert q k. induction j as [|x j IH]; intros q k H Hc Hk; simpl in *.
  - destruct k as [|p k0] eqn:Ek; [done|]. rewrite <- Ek in *. destruct (step q k c) as [[q' k']|] eqn:Es; [|done].
    simpl in H. assert (q' = EndTop) as ->; [|done].
    destruct (step_inside _ _ _ _ _ Es Hk) as [->|Hk']; [done|]. by eapply ends_inside.
  - destruct k as [|p k0] eqn:Ek; [done|]. rewrite <- Ek in *. destruct (step q k x) as [[q' k']|] eqn:Es; [|done].
    destruct (decide (q' = EndTop)) as [->|Hq].
    + exfalso. destruct (run EndTop k' (j ++ [c])) as [[]|] eqn:Er; [|done]. apply run_EndTop in Er.
      rewrite forallb_app in Er. simpl in Er. by rewrite Hc, andb_false_r in Er.
    + destruct (step_inside _ _ _ _ _ Es Hk) as [->|Hk']; [done|].
      destruct q'; try done; by rewrite IH.
Qed.

Definition opens (j : bytes) : Prop := match j with c :: _ => c = 123 \/ c = 91 | [] => False end.

Lemma first_value_container j c t :
  Valid (j ++ [c]) = true -> opens (j ++ [c]) -> space c = false -> first_value ((j ++ [c]) ++ t) = Some (j ++ [c]).
Proof.
  intros Hv Ho Hc. unfold first_value, Valid in *. destruct j as [|x j]; simpl in *.
  { destruct Ho as [->| ->]; done. }
  assert (push ObjectKey BeginStringOrEmpty [] = Some (BeginStringOrEmpty, [ObjectKey])) as E1 by by vm_compute.
  assert (push ArrayValue BeginValueOrEmpty [] = Some (BeginValueOrEmpty, [ArrayValue])) as E2 by by vm_compute.
  destruct Ho as [->| ->]; unfold step in *; cbn in Hv |- *; rewrite ?E1, ?E2 in *; by rewrite value_loop_inside.
Qed.
