(* ===== verification/Extract.v ===== *)
(** [internal/ai/agent/extract.go]: the variables extracted from a conversation:
    the request, the reading of the model's reply, and the extractions of one
    call: those in the background as the conversation leaves a node, and the
    last one as the call ends.

    A step of the lifecycle is one critical section, or one reply of the model,
    or one choice of a [select]; an extraction's own time limit is one of the
    ways its request can fail. *)

From Stdlib Require Import String.
From S2P Require Import Prelude Text ClipRouter AgentState Regex Json WorkflowLoad LlmTurn CallLog.

Local Open Scope Z_scope.

(** ** The request *)

Definition extractionSystemPrompt : bytes := bs "You are an assistant tasked with extracting structured data from the conversation. Return ONLY a valid JSON object with the requested variables as top-level keys. Do not wrap the JSON in markdown.".

Definition variable_line (v : variableData) : bytes :=
  bs "- " ++ v_Name v ++ bs " (VariableType." ++ v_Type v ++ bs "): " ++ default (bs "None") (v_Prompt v).

Section request.
Variable Unmarshal : bytes -> option (list (bytes * bytes)).
Variable EncodeRaw : bytes -> bytes.
Variable EncodeMap : list (bytes * bytes) -> bytes.

(** The line of a message, if it has one. *)
Definition message_line (names : bytes -> bytes) (m : Message) : option bytes :=
  match msg_Role m with
  | RUser => if bool_decide (msg_Content m = []) then None else Some (bs "user: " ++ msg_Content m)
  | RAssistant => if bool_decide (msg_Content m = []) then None else Some (bs "assistant: " ++ msg_Content m)
  | RTool =>
      let '(text, keep) := toolResponseText Unmarshal EncodeRaw EncodeMap (msg_Content m) in
      if keep : bool then Some (bs "[Tool Response: " ++ names (msg_ToolCallID m) ++ bs "]" ++ [10] ++ text) else None
  | RSystem => None
  end.

Definition conversationText (history : list Message) : bytes :=
  Join (omap (message_line (call_name history)) history) [10].

Definition extractionMessages (x : extraction) (history : list Message) : list Message :=
  [ system_msg (extractionSystemPrompt ++ (if bool_decide (x_Prompt x = []) then [] else [10; 10] ++ x_Prompt x));
    user_msg ([10; 10] ++ bs "Variables to extract:" ++ [10] ++ Join (map variable_line (x_Vars x)) [10]
              ++ [10; 10] ++ bs "Conversation history:" ++ [10] ++ conversationText history) ].
End request.

(** ** The reply *)

Definition fence : bytes := bs "```".
Definition codeBlock : re :=
  Seqs [Word fence; Opt (Word (bs "json")); Star Regex.space; Seq (Cap 1 (Lazy (fun _ => true))) (Seq (Star Regex.space) (Word fence))].

Definition jsonContainer (s : bytes) : option bytes :=
  if (HasPrefix s (bs "{") || HasPrefix s (bs "[")) && Valid s then Some s else None.

Definition fenced (s : bytes) : option bytes :=
  match FindStringSubmatch codeBlock s with Some m => jsonContainer (TrimSpace (group 1 m)) | None => None end.

Definition embedded (s open : bytes) : option bytes :=
  match ClipRouter.Index s open with Some i => first_value (drop i s) | None => None end.

Definition or_else {A} (x : option A) (y : option A) : option A := match x with Some _ => x | None => y end.

Definition ParseLLMJSON (reply : bytes) : bytes :=
  let s := TrimSpace reply in
  if bool_decide (s = []) then bs "{}"
  else default (json_object [(bs "raw", reply)])
         (or_else (jsonContainer s) (or_else (fenced s) (or_else (embedded s (bs "{")) (embedded s (bs "["))))).

(** [objectInOrder]: the values, raw, and the keys as they come. *)
Definition objectInOrder (raw : bytes) : option ((bytes -> bytes) * list bytes) :=
  (fun ms => (fun k => default [] (list_to_map (M := gmap bytes bytes) (rev ms) !! k), map fst ms)) <$> object_members raw.

(** *** Examples *)

Example parse_like_dograh :
  map ParseLLMJSON [qs "{'party': 'AAP'}"; fence ++ bs "json" ++ [10] ++ qs "{'party': 'AAP'}" ++ [10] ++ fence;
    qs "Here you go: {'a': {'b': 1}} thanks."; bs "list: [1, 2]"; bs "   "; bs "no json here"; qs "list: [{'a': 1}]"] =
  [qs "{'party': 'AAP'}"; qs "{'party': 'AAP'}"; qs "{'a': {'b': 1}}"; bs "[1, 2]"; bs "{}"; qs "{'raw':'no json here'}"; qs "{'a': 1}"].
Proof. by vm_compute. Qed.

(** ** What a reply is read as *)

Definition byte (b : Z) : Prop := 0 <= b < 256.

Lemma hexdigit_hex d : 0 <= d < 16 -> hexdigit (LlmTurn.hex d) = true.
Proof.
  intros H. unfold hexdigit, digit, LlmTurn.hex. destruct (Z.ltb_spec d 10); decide_bools; simpl; rewrite ?orb_true_r; done.
Qed.

(** A character of an encoded string leaves the scanner inside the string. *)
Definition stays (l : bytes) : Prop := forall k t, run InString k (l ++ t) = run InString k t.

Lemma stays_app a b : stays a -> stays b -> stays (a ++ b).
Proof. intros Ha Hb k t. by rewrite <- app_assoc, Ha, Hb. Qed.

Lemma stays_plain c : 32 <= c -> c <> 34 -> c <> 92 -> stays [c].
Proof.
  intros H1 H2 H3 k t. cbn [app run]. unfold step. cbn [closing].
  rewrite (proj2 (Z.eqb_neq c 34)), (proj2 (Z.eqb_neq c 92)) by done. by decide_bools.
Qed.

Lemma stays_u a b c d : forallb hexdigit [a; b; c; d] = true -> stays [92; 117; a; b; c; d].
Proof.
  simpl. rewrite !andb_true_iff. intros (Ha & Hb & Hc & Hd & _) k t. cbn [app run]. unfold step. simpl.
  by rewrite Ha, Hb, Hc, Hd.
Qed.

Lemma stays_escape c : escapes c = true -> stays [92; c].
Proof. intros H k t. cbn [app run]. unfold step. simpl. by rewrite H. Qed.

Lemma json_byte_stays b : 0 <= b < 128 -> stays (json_byte b).
Proof.
  intros Hb. unfold json_byte. repeat (case_match; bool_to_prop); try (by apply stays_escape); try lia.
  - apply stays_escape. by destruct H as [->%Z.eqb_eq| ->%Z.eqb_eq].
  - apply stays_u. simpl. rewrite !hexdigit_hex; [done| |]; Z.div_mod_to_equations; lia.
  - apply stays_plain; [lia|by intros ->|by intros ->].
Qed.

Lemma stays_high l : Forall (fun b => 128 <= b) l -> stays l.
Proof.
  induction 1 as [|b l Hb _ IH]; [by intros k t|]. change (b :: l) with ([b] ++ l). apply stays_app; [|done]. apply stays_plain; lia.
Qed.

Lemma DecodeRune_high b t r w :
  128 <= b -> DecodeRune (b :: t) = (r, w) -> (r = RuneError /\ w = 1) \/ Forall (fun x => 128 <= x) (take (Z.to_nat w) (b :: t)).
Proof.
  intros Hb. unfold DecodeRune, cont, between. repeat case_match; bool_to_prop; intros [= <- <-]; try (by left); try lia;
    right; repeat constructor; try done; try lia; repeat case_match; lia.
Qed.

Lemma json_chars_stays n s : (length s <= n)%nat -> Forall byte s -> stays (json_chars n s).
Proof.
  revert s. induction n as [|n IH]; intros s Hn Hs; [by intros k t|]. destruct s as [|b s]; [by intros k t|].
  cbn [json_chars]. inversion Hs as [|? ? Hb Hs']; subst. unfold byte in Hb. simpl in Hn. destruct (Z.ltb_spec b 128).
  { apply stays_app; [apply json_byte_stays; lia|apply IH; [lia|done]]. }
  pose proof (DecodeRune_width (b :: s) ltac:(done)) as [Hw _]. destruct (DecodeRune (b :: s)) as [r w] eqn:E. cbn [snd] in Hw.
  apply stays_app; [|apply IH; [rewrite length_drop; simpl; lia|by apply Forall_drop]].
  destruct (DecodeRune_high b s r w ltac:(lia) E) as [[-> ->]|Hf]; [by apply (stays_u 102 102 102 100)|].
  destruct ((r =? RuneError) && (w =? 1)); [by apply (stays_u 102 102 102 100)|].
  destruct ((r =? 8232) || (r =? 8233)) eqn:E2; [|by apply stays_high].
  apply (stays_u 50 48 50). simpl. rewrite hexdigit_hex; [done|]. Z.div_mod_to_equations; lia.
Qed.

(** The wrapping of a reply that is not JSON is. *)
Lemma raw_valid s : Forall byte s -> Valid (json_object [(bs "raw", s)]) = true.
Proof.
  intros Hs. unfold Valid, json_object. cbn [map Join]. unfold json_string at 2.
  replace (json_string (bs "raw")) with (qs "'raw'") by (by vm_compute).
  replace ([123] ++ _) with (qs "{'raw':'" ++ json_chars (length s) s ++ [34; 125]) by (cbn -[json_chars]; by rewrite <- !app_assoc).
  rewrite run_app. replace (run BeginValue [] (qs "{'raw':'")) with (Some (InString, [ObjectValue])) by (by vm_compute).
  rewrite json_chars_stays by done. done.
Qed.

Lemma Index_found s p i : ClipRouter.Index s p = Some i -> HasPrefix (drop i s) p = true.
Proof.
  revert i. induction s as [|c s IH]; intros i; cbn [ClipRouter.Index].
  - destruct (HasPrefix [] p) eqn:E; [|done]. by intros [= <-].
  - destruct (HasPrefix (c :: s) p) eqn:E; [by intros [= <-]|]. destruct (ClipRouter.Index s p) as [j|]; [|done].
    intros [= <-]. by apply IH.
Qed.

Lemma opens_prefix v : HasPrefix v (bs "{") || HasPrefix v (bs "[") = true -> opens v.
Proof. 
  destruct v as [|c v]; [done|]. change (bs "{") with [123]. change (bs "[") with [91]. cbn [HasPrefix].
  destruct (Z.eqb_spec 123 c) as [<-|]; [by left|]. destruct (Z.eqb_spec 91 c) as [<-|]; [by right|done].
Qed.

Lemma jsonContainer_ok s v : jsonContainer s = Some v -> v = s /\ Valid v = true /\ opens v.
Proof. unfold jsonContainer. destruct (_ && _) eqn:E; [|done]. intros [= <-]. apply andb_true_iff in E as [E ?]. split_and!; [done|done|]. by apply opens_prefix. Qed.

Lemma first_value_head c s v : (c = 123 \/ c = 91) -> first_value (c :: s) = Some v -> opens v.
Proof.
  intros Hc. unfold first_value. cbn [value_loop]. destruct Hc as [->| ->]; cbn [closing];
    (destruct (step _ _ _) as [[q' k']|]; [|done]); destruct q'; try (intros [= <-]; simpl; auto);
    intros (w & _ & ->)%fmap_Some; simpl; auto.
Qed.

Lemma embedded_ok s c v : (c = 123 \/ c = 91) -> embedded s [c] = Some v -> Valid v = true /\ opens v.
Proof.
  intros Hc. unfold embedded. destruct (ClipRouter.Index s [c]) as [i|] eqn:E; [|done]. intros H. split; [by eapply first_value_valid|].
  apply Index_found in E. destruct (drop i s) as [|x r]; [done|]. simpl in E. apply andb_true_iff in E as [->%Z.eqb_eq _].
  by eapply first_value_head.
Qed.

(** Whatever the model replies, what is read of it is one JSON object or
    array: reading a reply never fails. *)
Theorem ParseLLMJSON_valid (reply : bytes) (Hreply : Forall byte reply) :
  Valid (ParseLLMJSON reply) = true /\ opens (ParseLLMJSON reply).
Proof.
  unfold ParseLLMJSON. set (s := TrimSpace reply). case_bool_decide; [split; [by vm_compute|by left]|].
  change (bs "{") with [123]. change (bs "[") with [91].
  destruct (jsonContainer s) eqn:E1; cbn; [by apply jsonContainer_ok in E1 as (_ & ? & ?)|].
  destruct (fenced s) eqn:E2; cbn.
  { unfold fenced in E2. destruct (FindStringSubmatch codeBlock s); [|done]. by apply jsonContainer_ok in E2 as (_ & ? & ?). }
  destruct (embedded s [123]) eqn:E3; cbn; [eapply embedded_ok; [|exact E3]; auto|].
  destruct (embedded s [91]) eqn:E4; cbn; [eapply embedded_ok; [|exact E4]; auto|].
  split; [by apply raw_valid|by left].
Qed.

(** *** Where the JSON of a reply is found *)

(** A container and nothing behind it. *)
Definition container (j : bytes) : Prop :=
  Valid j = true /\ opens j /\ exists i c, j = i ++ [c] /\ (c = 125 \/ c = 93).

Lemma trim_ends j : opens j -> (exists i c, j = i ++ [c] /\ (c = 125 \/ c = 93)) -> TrimSpace j = j.
Proof.
  intros Ho (i & c & E & Hc). assert (Hs : forall b, b = 123 \/ b = 91 \/ b = 125 \/ b = 93 -> solid b) by (intros b [-> |[-> |[-> | ->]]]; by split).
  destruct j as [|x a]; [by destruct i|]. apply (TrimSpace_ends x a i c); [apply Hs..|done]; [destruct Ho; auto|destruct Hc; auto].
Qed.

Lemma jsonContainer_container j : container j -> jsonContainer j = Some j.
Proof.
  intros (Hv & Ho & _). unfold jsonContainer. rewrite Hv, andb_true_r. destruct j as [|c j]; [done|].
  change (bs "{") with [123]. change (bs "[") with [91]. cbn [HasPrefix]. rewrite !HasPrefix_nil. by destruct Ho as [->| ->].
Qed.

Lemma matches_word p s cs : matches (Word p) s cs = if HasPrefix s p then [(cs, drop (length p) s)] else [].
Proof.
  revert s. induction p as [|c p IH]; intros s; [by destruct s|]. destruct p as [|d p].
  - destruct s as [|x s]; [done|]. simpl. destruct (c =? x); by destruct s.
  - change (Word (c :: d :: p)) with (Seq (Lit c) (Word (d :: p))). destruct s as [|x s]; [done|].
    cbn [matches]. cbn [Lit]. change (HasPrefix (x :: s) (c :: d :: p)) with ((c =? x) && HasPrefix s (d :: p)).
    change (matches (Lit c) (x :: s) cs) with (if c =? x then [(cs, s)] else []). destruct (c =? x); [|done].
    cbn [flat_map fst snd andb]. by rewrite app_nil_r, IH.
Qed.

Lemma prefers_word p t cs : prefers (Word p) (p ++ t) cs cs t.
Proof. unfold prefers. by rewrite matches_word, HasPrefix_self, drop_app_length. Qed.

Lemma greedy_in f s u : In u (greedy f s) -> exists p, s = p ++ u /\ forallb f p = true.
Proof.
  induction s as [|c s IH]; simpl; [intros [<-|[]]; by exists []|]. destruct (f c) eqn:E.
  - intros [H|[<-|[]]]%in_app_iff; [|by exists []]. destruct (IH H) as (p & -> & Hp). exists (c :: p). simpl. by rewrite E.
  - intros [<-|[]]. by exists [].
Qed.

(** No fence is behind spaces where the block's text still goes on. *)
Lemma no_fence j l1 l2 t x :
  (exists i c, j = i ++ [c] /\ (c = 125 \/ c = 93)) -> ClipRouter.Index j fence = None -> j = l1 ++ l2 -> l2 <> [] ->
  matches (Seq (Star Regex.space) (Word fence)) (l2 ++ t) x = [].
Proof.
  intros (i & c & Hj & Hc) Hf -> Hne. cbn [matches]. apply flat_map_nil. intros y (u & <- & Hu)%in_map_iff. cbn [fst snd].
  rewrite matches_word. destruct (HasPrefix u fence) eqn:Eh; [exfalso|done].
  destruct (exists_last Hne) as (l & c' & ->). rewrite app_assoc in Hj. apply app_inj_tail in Hj as [_ ->].
  apply greedy_in in Hu as (p & Hp & Hsp).
  assert (Hl : exists l3, u = l3 ++ [c] ++ t /\ l = p ++ l3).
  { rewrite <- app_assoc in Hp. apply app_eq_app in Hp as (m & [[Hl ->]|[-> Hm]]); [by exists m|]. destruct m as [|z m].
    - exists []. split; [exact (eq_sym Hm)|by rewrite !app_nil_r].
    - exfalso. injection Hm as <- _. rewrite forallb_app in Hsp. apply andb_true_iff in Hsp as [_ Hsp]. by destruct Hc as [->| ->]. }
  destruct Hl as (l3 & -> & ->). clear Hp Hsp Hne. assert (Hi : ClipRouter.Index (l3 ++ [c]) fence = None).
  { apply (ClipRouter.Index_none_mid (l1 ++ p) _ []); [done|]. rewrite app_nil_r. by rewrite <- !app_assoc in *. }
  clear Hf. change fence with [96; 96; 96] in *.
  destruct l3 as [|x1 [|x2 [|x3 l3]]]; cbn [app HasPrefix] in Eh; rewrite ?andb_true_iff, ?Z.eqb_eq in Eh;
    destruct_and?; subst; try (destruct Hc; lia). cbn [app ClipRouter.Index HasPrefix] in Hi. by rewrite HasPrefix_nil in Hi.
Qed.

Lemma fenced_front lang w1 j w2 post :
  lang = [] \/ lang = bs "json" -> forallb Regex.space w1 = true -> forallb Regex.space w2 = true ->
  container j -> ClipRouter.Index j fence = None ->
  exists cs, FindStringSubmatch codeBlock (fence ++ lang ++ w1 ++ j ++ w2 ++ fence ++ post) = Some cs /\ group 1 cs = j.
Proof.
  intros Hlang Hw1 Hw2 (_ & Ho & He) Hf. exists [(1%nat, j)]. split; [|done]. apply (FindStringSubmatch_front _ _ _ post).
  assert (Hstop : Regex.stops Regex.space (j ++ w2 ++ fence ++ post)) by (destruct j as [|c j]; [done|]; by destruct Ho as [->| ->]).
  unfold codeBlock. cbn [Seqs]. eapply prefers_seq; [apply prefers_word|].
  eapply (prefers_seq _ _ _ _ [] (w1 ++ j ++ w2 ++ fence ++ post)).
  { destruct Hlang as [->| ->]; [|apply prefers_opt, prefers_word]. apply prefers_skip. cbn [app]. rewrite matches_word.
    destruct w1 as [|c w1]; [destruct j as [|c j]; [done|]; by destruct Ho as [->| ->]|].
    simpl in Hw1. apply andb_true_iff in Hw1 as [Hc _]. change (bs "json") with [106; 115; 111; 110]. cbn [app HasPrefix].
    destruct (Z.eqb_spec 106 c) as [<-|]; done. }
  eapply prefers_seq; [by apply prefers_star|]. apply (prefers_lazy 1 _ _ j).
  - by apply forallb_forall.
  - intros l1 l2 x -> Hne. by eapply no_fence.
  - eapply prefers_seq; [by apply prefers_star|]. apply prefers_word.
Qed.

Lemma no_backtick s : 96 ∉ s -> FindStringSubmatch codeBlock s = None.
Proof.
  assert (exists r, codeBlock = Seq (Word fence) r) as [r ->] by by eexists.
  induction s as [|c s IH]; intros Hs; cbn [FindStringSubmatch]; unfold match_front; cbn [matches]; rewrite matches_word; [done|].
  apply not_elem_of_cons in Hs as [Hc Hs]. change fence with [96; 96; 96]. cbn [HasPrefix].
  rewrite (proj2 (Z.eqb_neq 96 c)) by done. by apply IH.
Qed.

Lemma Index_skip p c s : c ∉ p -> ClipRouter.Index (p ++ c :: s) [c] = Some (length p).
Proof.
  induction p as [|x p IH]; intros Hc; cbn [app ClipRouter.Index HasPrefix].
  - by rewrite Z.eqb_refl, HasPrefix_nil.
  - apply not_elem_of_cons in Hc as [Hx Hp]. rewrite (proj2 (Z.eqb_neq c x)) by done. simpl. by rewrite IH.
Qed.

Lemma Index_absent s c : c ∉ s -> ClipRouter.Index s [c] = None.
Proof.
  induction s as [|x s IH]; [done|]. intros [Hx Hs]%not_elem_of_cons. cbn [ClipRouter.Index HasPrefix].
  rewrite (proj2 (Z.eqb_neq c x)) by done. simpl. by rewrite IH.
Qed.

Lemma embedded_found pre c j post :
  c ∉ pre -> container (c :: j) -> embedded (pre ++ (c :: j) ++ post) [c] = Some (c :: j).
Proof.
  intros Hc (Hv & Ho & (i & x & Hj & Hx)). unfold embedded. cbn [app]. rewrite Index_skip by done.
  rewrite drop_app_length. change (c :: j ++ post) with ((c :: j) ++ post). rewrite Hj in *.
  apply first_value_container; [done|done|]. by destruct Hx as [->| ->].
Qed.

(** An object or array a model replies with is what is read of its reply,
    bare, in a fenced block with or without a language, or in the middle of
    prose with no other bracket before it. *)
Theorem ParseLLMJSON_finds (reply j : bytes) (Hj : container j) :
  (TrimSpace reply = j -> ParseLLMJSON reply = j) /\
  (forall lang w1 w2 post,
     TrimSpace reply = fence ++ lang ++ w1 ++ j ++ w2 ++ fence ++ post -> lang = [] \/ lang = bs "json" ->
     forallb Regex.space (w1 ++ w2) = true -> ClipRouter.Index j fence = None -> ParseLLMJSON reply = j) /\
  (forall pre post,
     TrimSpace reply = pre ++ j ++ post -> pre <> [] -> 96 ∉ pre ++ j ++ post -> 91 ∉ pre -> 123 ∉ pre ->
     hd 0 j = 123 \/ 123 ∉ j ++ post -> ParseLLMJSON reply = j).
Proof.
  pose proof (jsonContainer_container j Hj) as Hc. unfold ParseLLMJSON. split_and!.
  - intros ->. rewrite bool_decide_eq_false_2, Hc; [done|]. intros ->. by destruct Hj as (_ & [] & _).
  - intros lang w1 w2 post -> Hlang Hw Hf. rewrite forallb_app in Hw. apply andb_true_iff in Hw as [Hw1 Hw2].
    rewrite bool_decide_eq_false_2 by done. change (jsonContainer (fence ++ ?x)) with (@None bytes).
    destruct (fenced_front lang w1 j w2 post) as (cs & H1 & H2); try done. unfold fenced. rewrite H1, H2, trim_ends; [|apply Hj|apply Hj].
    by rewrite Hc.
  - intros pre post -> Hpre Hb H91 H123 Hfirst. destruct pre as [|x pre]; [done|]. rewrite bool_decide_eq_false_2 by done.
    assert (jsonContainer ((x :: pre) ++ j ++ post) = None) as ->.
    { unfold jsonContainer. change (bs "{") with [123]. change (bs "[") with [91]. cbn [app HasPrefix].
      apply not_elem_of_cons in H91 as [H91 _]. apply not_elem_of_cons in H123 as [H123 _].
      by rewrite (proj2 (Z.eqb_neq 123 x)), (proj2 (Z.eqb_neq 91 x)) by done. }
    unfold fenced. rewrite no_backtick by done. cbn [or_else]. change (bs "{") with [123]. change (bs "[") with [91].
    destruct j as [|c j]; [by destruct Hj as (_ & [] & _)|]. destruct (proj1 (proj2 Hj)) as [->| ->].
    + by rewrite embedded_found.
    + destruct Hfirst as [Hfirst|Hfirst]; [done|]. unfold embedded at 1. rewrite (Index_absent _ 123); [|by rewrite not_elem_of_app].
      by rewrite embedded_found.
Qed.

(** ** The extractions of a call *)

(** One extraction: started, its request sent, over; its channel is closed
    when it is over. *)
Inductive job := Started (x : extraction) (history : list Message) | Asked | Ended.

Inductive outcome := Complete | NotWaited | ShuttingDown.
Inductive finish := NotFinishing | Waiting (pending : list nat) | Last (x : extraction) | Returned (o : outcome).

(** The fields of the handler: [extracting], [extractDone], [node] and
    [history], with what was asked of the model and logged. *)
Record extracts := mkExtracts {
  extracting : list job; extractDone : bool; e_fin : finish; e_node : option extraction; e_history : list Message;
  e_asked : list (list Message); e_log : list (list (bytes * bytes));
}.
#[global] Instance eta_extracts : Eta extracts := fun s =>
  mkExtracts (extracting s) (extractDone s) (e_fin s) (e_node s) (e_history s) (e_asked s) (e_log s).

Section lifecycle.
Variable Unmarshal : bytes -> option (list (bytes * bytes)).
Variable EncodeRaw : bytes -> bytes.
Variable EncodeMap : list (bytes * bytes) -> bytes.
(** [h.cfg.Log != nil]. *)
Variable hasLog : bool.

Definition ask (x : extraction) (history : list Message) (s : extracts) : extracts :=
  s <| e_asked ::= fun l => l ++ [extractionMessages Unmarshal EncodeRaw EncodeMap x history] |>.

(** The end of [extract]: the request failed, or the reply is read. *)
Definition reply_vars (reply : option bytes) : option (list (bytes * bytes)) := reply ≫= fun r => object_members (ParseLLMJSON r).
Definition extracted_reply (reply : option bytes) (s : extracts) : extracts :=
  match reply_vars reply with Some ms => s <| e_log ::= fun l => l ++ [ms] |> | None => s end.

(** [startExtraction]. *)
Definition startExtraction (x : option extraction) (history : list Message) (s : extracts) : extracts :=
  match x with
  | Some x => if negb hasLog || extractDone s then s else s <| extracting ::= fun l => l ++ [Started x history] |>
  | None => s
  end.

(** [FinishExtraction]: what it does under the mutex, the end of its waiting,
    and the node the call ended at. *)
Definition beginFinish (s : extracts) : extracts :=
  if hasLog then s <| extractDone := true |> <| e_fin := Waiting (seq 0 (length (extracting s))) |>
  else s <| e_fin := Returned Complete |>.
Definition lastExtraction (cancelled : bool) (s : extracts) : extracts :=
  match e_node s with
  | None => s <| e_fin := Returned Complete |>
  | Some x => if cancelled then s <| e_fin := Returned ShuttingDown |> else ask x (e_history s) (s <| e_fin := Last x |>)
  end.

Inductive label :=
  | LTalk (x : option extraction) (history : list Message)   (* the conversation goes on *)
  | LStart (x : option extraction) (history : list Message)
  | LAsk (i : nat) | LReply (i : nat) (reply : option bytes)
  | LFinish | LAwait | LWaitOver | LLast (cancelled : bool) | LLastReply (reply : option bytes).

Definition step (s : extracts) (l : label) : option extracts :=
  match l with
  | LTalk x h => Some (s <| e_node := x |> <| e_history := h |>)
  | LStart x h => Some (startExtraction x h s)
  | LAsk i => match extracting s !! i with Some (Started x h) => Some (ask x h (s <| extracting ::= <[i := Asked]> |>)) | _ => None end
  | LReply i r => match extracting s !! i with Some Asked => Some (extracted_reply r (s <| extracting ::= <[i := Ended]> |>)) | _ => None end
  | LFinish => match e_fin s with NotFinishing => Some (beginFinish s) | _ => None end
  | LAwait => match e_fin s with
              | Waiting (i :: r) => match extracting s !! i with Some Ended => Some (s <| e_fin := Waiting r |>) | _ => None end
              | _ => None
              end
  | LWaitOver => match e_fin s with Waiting (_ :: _) => Some (s <| e_fin := Returned NotWaited |>) | _ => None end
  | LLast c => match e_fin s with Waiting [] => Some (lastExtraction c s) | _ => None end
  | LLastReply r => match e_fin s with Last _ => Some (extracted_reply r (s <| e_fin := Returned Complete |>)) | _ => None end
  end.

Fixpoint steps (s : extracts) (ls : list label) : option extracts :=
  match ls with [] => Some s | l :: r => match step s l with Some s' => steps s' r | None => None end end.

Definition extracts0 : extracts := mkExtracts [] false NotFinishing None [] [] [].

(** *** Nothing is written once the end of the call has been waited out *)

Definition over (j : job) : bool := match j with Ended => true | _ => false end.

(** Waiting has got past every job not pending; done, past all of them. *)
Record good (s : extracts) : Prop := {
  g_done : hasLog = true -> e_fin s <> NotFinishing -> extractDone s = true;
  g_nolog : hasLog = false -> extracting s = [] /\ (e_fin s = NotFinishing \/ e_fin s = Returned Complete);
  g_past : match e_fin s with
           | NotFinishing => True
           | Waiting p => forall i, (i < length (extracting s))%nat -> i ∈ p \/ extracting s !! i = Some Ended
           | Returned NotWaited => True
           | _ => Forall (fun j => j = Ended) (extracting s)
           end;
}.

(** What [LReply] brings, the extractions started while it was allowed, and the
    one of the node the call ended at. *)
Definition label_reply (l : label) : option (list (bytes * bytes)) :=
  match l with LReply _ r | LLastReply r => reply_vars r | _ => None end.
Fixpoint starts (done : bool) (ls : list label) : list (extraction * list Message) :=
  match ls with
  | LStart (Some x) h :: r => (if negb hasLog || done then [] else [(x, h)]) ++ starts done r
  | LFinish :: r => starts hasLog r
  | _ :: r => starts done r
  | [] => []
  end.
Fixpoint ended_at (open : bool) (x : option extraction) (h : list Message) (ls : list label) : list (extraction * list Message) :=
  match ls with
  | LTalk x h :: r => ended_at open x h r
  | LFinish :: r => ended_at hasLog x h r
  | LWaitOver :: r => ended_at false x h r
  | LLast cancelled :: r =>
      (if open && negb cancelled then option_list ((fun x => (x, h)) <$> x) else []) ++ ended_at false x h r
  | _ :: r => ended_at open x h r
  | [] => []
  end.

Definition request (xh : extraction * list Message) : list Message := extractionMessages Unmarshal EncodeRaw EncodeMap xh.1 xh.2.
Definition wanted (s : extracts) : list (list Message) :=
  omap (fun j => match j with Started x h => Some (request (x, h)) | _ => None end) (extracting s).
Definition opened (s : extracts) : bool := match e_fin s with NotFinishing | Waiting _ => true | _ => false end.

Lemma extracted_reply_rest r s : exists l, extracted_reply r s = s <| e_log := l |> /\ l = e_log s ++ option_list (reply_vars r).
Proof. unfold extracted_reply. destruct (reply_vars r); [by eexists|]. exists (e_log s). rewrite app_nil_r. by destruct s. Qed.

Lemma list_insert_perm {A} (l : list A) i x y : l !! i = Some x -> exists r, l ≡ₚ x :: r /\ <[i := y]> l ≡ₚ y :: r.
Proof.
  intros H. exists (take i l ++ drop (S i) l). rewrite insert_take_drop by (by eapply lookup_lt_Some).
  rewrite <- (take_drop_middle l i x H) at 1. by rewrite !Permutation_middle.
Qed.

Lemma Forall_ended (s : extracts) i j : Forall (fun j => j = Ended) (extracting s) -> extracting s !! i = Some j -> j = Ended.
Proof. intros H Hi. by apply (Forall_lookup_1 _ _ _ _ H Hi). Qed.

(** A job that moves on towards its end is past what was past. *)
Lemma past_insert s i j j' :
  good s -> extracting s !! i = Some j -> j <> Ended ->
  good (s <| extracting ::= <[i := j']> |>).
Proof.
  intros [H1 H2 H3] Hi Hj. split; [done| |]; simpl.
  - intros H. apply H2 in H as [H _]. by rewrite H in Hi.
  - destruct (e_fin s) as [|p|x|[]]; try done; try (by apply (Forall_ended _ _ _ H3) in Hi).
    rewrite length_insert. intros k Hk. destruct (H3 k Hk) as [|Hend]; [by left|right].
    rewrite list_lookup_insert_ne; [done|]. intros ->. congruence.
Qed.
Lemma step_good s l s' : good s -> step s l = Some s' -> good s'.
Proof.
  intros G. pose proof G as [H1 H2 H3]. destruct l as [x h|x h|i|i r| | | |c|r]; simpl.
  - intros [= <-]. by split.
  - intros [= <-]. unfold startExtraction. destruct x as [x|]; [|done]. destruct hasLog eqn:Hl; [|done]. simpl.
    destruct (extractDone s) eqn:Hd; [done|].
    assert (Hf : e_fin s = NotFinishing) by (destruct (e_fin s); [done|..]; by specialize (H1 eq_refl ltac:(done))).
    split; simpl; rewrite ?Hf, ?Hl; done.
  - destruct (extracting s !! i) as [[x h| |]|] eqn:E; try done. intros [= <-].
    destruct (past_insert s i _ Asked G E) as [G1 G2 G3]; [done|]. by split.
  - destruct (extracting s !! i) as [[x h| |]|] eqn:E; try done. intros [= <-].
    destruct (extracted_reply_rest r (s <| extracting ::= <[i:=Ended]> |>)) as (l & -> & _).
    destruct (past_insert s i _ Ended G E) as [G1 G2 G3]; [done|]. by split.
  - destruct (e_fin s) eqn:E; try done. intros [= <-]. unfold beginFinish. destruct hasLog eqn:Hl.
    + split; simpl; rewrite ?Hl; try done. intros i Hi. left. apply elem_of_seq. lia.
    + destruct (H2 eq_refl) as [Hx _]. split; simpl; rewrite ?Hl, ?Hx; auto; done.
  - destruct (e_fin s) as [|[|i p]| |] eqn:E; try done. destruct (extracting s !! i) as [[]|] eqn:Ei; try done. intros [= <-].
    split; simpl; [by intros; apply H1|by intros [? []]%H2|]. intros k Hk. destruct (H3 k Hk) as [[->|]%elem_of_cons|]; auto.
  - destruct (e_fin s) as [|[|i p]| |] eqn:E; try done. intros [= <-]. split; simpl; [by intros; apply H1|by intros [? []]%H2|done].
  - destruct (e_fin s) as [|[|i p]| |] eqn:E; try done. intros [= <-].
    assert (Hall : Forall (fun j => j = Ended) (extracting s)).
    { apply Forall_lookup_2. intros k j Hk. destruct (H3 k) as [?%not_elem_of_nil|He]; [by eapply lookup_lt_Some|done|congruence]. }
    unfold lastExtraction, ask. destruct (e_node s); [destruct c|]; (split; simpl; [by intros; apply H1|by intros [? []]%H2|done]).
  - destruct (e_fin s) as [|[|i p]| |] eqn:E; try done. intros [= <-].
    destruct (extracted_reply_rest r (s <| e_fin := Returned Complete |>)) as (l & -> & _).
    split; simpl; [by intros; apply H1|by intros [? []]%H2|done].
Qed.

Lemma steps_good s ls s' : good s -> steps s ls = Some s' -> good s'.
Proof.
  revert s. induction ls as [|l ls IH]; intros s G; simpl; [by intros [= <-]|].
  destruct (step s l) as [s1|] eqn:E; [|done]. eapply IH. by eapply step_good.
Qed.

Lemma good0 : good extracts0.
Proof. by split; simpl; auto. Qed.

Lemma steps_log s ls s' : steps s ls = Some s' -> e_log s' = e_log s ++ omap label_reply ls.
Proof.
  revert s. induction ls as [|l ls IH]; intros s; simpl; [intros [= <-]; by rewrite app_nil_r|].
  destruct (step s l) as [s1|] eqn:E; [|done]. intros H. rewrite (IH s1 H). clear IH H. revert E.
  assert (Hx : forall r s0, e_log s0 = e_log s -> e_log (extracted_reply r s0) ++ omap label_reply ls = e_log s ++ option_list (reply_vars r) ++ omap label_reply ls).
  { intros r s0 H0. destruct (extracted_reply_rest r s0) as (x & -> & ->). simpl. by rewrite H0, <- app_assoc. }
  destruct l; simpl; unfold startExtraction, beginFinish, lastExtraction, ask;
    try (repeat case_match; intros; simplify_eq/=; done).
  - case_match; [|done]. case_match; try done. intros [= <-]. rewrite Hx by done. by destruct (reply_vars reply).
  - case_match; try done. intros [= <-]. rewrite Hx by done. by destruct (reply_vars reply).
Qed.

Lemma starts_nolog d ls : hasLog = false -> starts d ls = [].
Proof. intros H. revert d. induction ls as [|l ls IH]; intros d; [done|]. destruct l as [? ?|[?|] ?| | | | | | |]; simpl; rewrite ?H; simpl; auto. Qed.

Definition wants (j : job) : option (list Message) := match j with Started x h => Some (request (x, h)) | _ => None end.

Lemma wanted_insert (l : list job) i j j' :
  l !! i = Some j -> wants j' = None -> option_list (wants j) ++ omap wants (<[i:=j']> l) ≡ₚ omap wants l.
Proof.
  intros H Hj. destruct (list_insert_perm l i j j' H) as (r & E1 & E2). rewrite E2, E1. simpl. rewrite Hj. by destruct (wants j).
Qed.

(** What was asked of the model, or is about to be. *)
Lemma steps_asked s ls s' :
  good s -> steps s ls = Some s' ->
  e_asked s' ++ wanted s' ≡ₚ
    e_asked s ++ wanted s ++ map request (starts (extractDone s) ls) ++ map request (ended_at (opened s) (e_node s) (e_history s) ls).
Proof.
  revert s. induction ls as [|l ls IH]; intros s G; simpl; [intros [= <-]; by rewrite app_nil_r|].
  destruct (step s l) as [s1|] eqn:E; [|done]. intros H. rewrite (IH s1 (step_good _ _ _ G E) H). clear IH H s'.
  destruct l as [x h|x h|i|i r| | | |c|r]; simpl in E.
  - by injection E as <-.
  - injection E as <-. unfold startExtraction. destruct x as [x|]; [|done]. destruct (negb hasLog || extractDone s); [done|].
    unfold wanted. simpl. rewrite omap_app. simpl. by rewrite <- !app_assoc.
  - destruct (extracting s !! i) as [[x h| |]|] eqn:Ei; try done. injection E as <-. unfold ask, wanted. simpl.
    rewrite <- (wanted_insert (extracting s) i _ Asked Ei eq_refl). simpl. by rewrite <- !app_assoc.
  - destruct (extracting s !! i) as [[x h| |]|] eqn:Ei; try done. injection E as <-.
    destruct (extracted_reply_rest r (s <| extracting ::= <[i:=Ended]> |>)) as (l & -> & _). unfold wanted. simpl.
    by rewrite <- (wanted_insert (extracting s) i _ Ended Ei eq_refl).
  - destruct (e_fin s) eqn:Ef; try done. injection E as <-. unfold beginFinish, opened. destruct hasLog eqn:Hl; simpl; [done|].
    by rewrite !starts_nolog by done.
  - destruct (e_fin s) as [|[|i p]| |] eqn:Ef; try done. destruct (extracting s !! i) as [[]|]; try done. injection E as <-.
    unfold opened. by rewrite Ef.
  - destruct (e_fin s) as [|[|i p]| |] eqn:Ef; try done. by injection E as <-.
  - destruct (e_fin s) as [|[|i p]| |] eqn:Ef; try done. injection E as <-. unfold lastExtraction, opened. rewrite Ef.
    destruct (e_node s) as [x|] eqn:En; [destruct c|]; simpl; rewrite ?En; try (by destruct c); [done|].
    unfold ask, wanted. simpl. rewrite <- !app_assoc. apply Permutation_app_head. simpl. by rewrite !Permutation_middle.
  - destruct (e_fin s) as [|[|i p]| |] eqn:Ef; try done. injection E as <-.
    destruct (extracted_reply_rest r (s <| e_fin := Returned Complete |>)) as (l & -> & _). unfold opened. by rewrite Ef.
Qed.

Lemma wanted_over s : Forall (fun j => j = Ended) (extracting s) -> wanted s = [].
Proof. unfold wanted. induction 1 as [|j l -> _ IH]; done. Qed.

(** With every extraction over and the last one done, nothing more happens. *)
Lemma steps_settled s ls s' o :
  good s -> e_fin s = Returned o -> o <> NotWaited -> steps s ls = Some s' ->
  e_log s' = e_log s /\ e_asked s' = e_asked s /\ extracting s' = extracting s.
Proof.
  revert s. induction ls as [|l ls IH]; intros s G Hf Ho; simpl; [by intros [= <-]|].
  destruct (step s l) as [s1|] eqn:E; [|done]. intros H.
  assert (Hs : e_log s1 = e_log s /\ e_asked s1 = e_asked s /\ extracting s1 = extracting s /\ e_fin s1 = Returned o).
  { pose proof (g_past _ G) as Hp. rewrite Hf in Hp. assert (Hall : Forall (fun j => j = Ended) (extracting s)) by (by destruct o).
    destruct l as [x h|x h|i|i r| | | |c|r]; simpl in E; rewrite ?Hf in E; try done.
    - by injection E as <-.
    - injection E as <-. unfold startExtraction. destruct x; [|done]. destruct hasLog eqn:Hl; [|done].
      rewrite (g_done _ G); [done|done|by rewrite Hf].
    - destruct (extracting s !! i) as [j|] eqn:Ei; [|done]. by rewrite (Forall_ended _ _ _ Hall Ei) in E.
    - destruct (extracting s !! i) as [j|] eqn:Ei; [|done]. by rewrite (Forall_ended _ _ _ Hall Ei) in E. }
  destruct Hs as (<- & <- & <- & Hf'). eapply IH; [by eapply step_good|done|done|done].
Qed.

(** C35: once the end of a call has waited out its extractions, what it logged of
    them is final: each one started before was asked of the model once, over the
    conversation as it was then, and so was the node the call ended at; every
    reply that was an object is logged, in the order they came; and whatever
    still happens, none starts and none is logged any more. *)
Theorem extraction_settles (ls ls' : list label) (s s' : extracts) (o : outcome)
  (Hrun : steps extracts0 ls = Some s) (Hfin : e_fin s = Returned o) (Ho : o <> NotWaited) (Hmore : steps s ls' = Some s') :
  Forall (fun j => j = Ended) (extracting s) /\
  e_asked s ≡ₚ map request (starts false ls ++ ended_at true None [] ls) /\
  e_log s = omap label_reply ls /\
  e_log s' = e_log s /\ e_asked s' = e_asked s /\ extracting s' = extracting s.
Proof.
  pose proof (steps_good _ _ _ good0 Hrun) as G. pose proof (g_past _ G) as Hp. rewrite Hfin in Hp.
  assert (Hall : Forall (fun j => j = Ended) (extracting s)) by (by destruct o).
  pose proof (steps_asked _ _ _ good0 Hrun) as Ha. rewrite wanted_over, app_nil_r in Ha by done. simpl in Ha.
  split_and!; [done|by rewrite map_app|by apply (steps_log extracts0)|..]; by eapply steps_settled.
Qed.
End lifecycle.

(** ** Witnesses *)

Example ex_x : extraction := mkExtraction (bs "START") [mkVariable (bs "party") (bs "string") (Some (bs "who for")); mkVariable (bs "age") (bs "number") None].

Example messages_like_dograh :
  map msg_Content (extractionMessages (fun _ => None) id (fun _ => []) ex_x [assistant_msg (bs "hello"); user_msg (bs "AAP"); mkMessage RTool (bs "ok") [] (bs "zz")]) =
  [extractionSystemPrompt ++ [10; 10] ++ bs "START";
   bs "

Variables to extract:
- party (VariableType.string): who for
- age (VariableType.number): None

Conversation history:
assistant: hello
user: AAP
[Tool Response: unknown]
ok"].
Proof. by vm_compute. Qed.

Lemma ParseLLMJSON_valid_witness : Forall byte (bs "oops") /\ Valid (ParseLLMJSON (bs "oops")) = true.
Proof.
  assert (H : Forall byte (bs "oops")) by (repeat constructor; by vm_compute). split; [done|]. exact (proj1 (ParseLLMJSON_valid (bs "oops") H)).
Defined.

Lemma ParseLLMJSON_finds_witness :
  ParseLLMJSON (bs "Sure: " ++ qs "{'a': [1]}" ++ bs ".") = qs "{'a': [1]}".
Proof.
  assert (H : container (qs "{'a': [1]}")).
  { split; [by vm_compute|]. split; [by left|]. exists (qs "{'a': [1]"), 125. split; [by vm_compute|by left]. }
  apply (proj2 (proj2 (ParseLLMJSON_finds (bs "Sure: " ++ qs "{'a': [1]}" ++ bs ".") _ H)) (bs "Sure: ") (bs "."));
    [by vm_compute|done|..]; try (by apply (bool_decide_eq_true_1 _); vm_compute).
Defined.

(** Two extractions in the background, one of them failing and the other not
    heard before the end; a third, as the call is over, is not started. *)
Definition ex_run : list label :=
  [LTalk (Some ex_x) []; LStart (Some ex_x) []; LAsk 0; LTalk (Some ex_x) [user_msg (bs "A")]; LStart (Some ex_x) [user_msg (bs "A")];
   LFinish; LStart (Some ex_x) []; LReply 0 (Some (qs "{'p': 1}")); LAwait; LAsk 1; LReply 1 None; LAwait; LLast false; LLastReply (Some (qs "{'p': 2}"))].
Abbreviation ex_steps := (steps (fun _ => None) id (fun _ => []) true).
Definition ex_s : extracts := Eval vm_compute in default extracts0 (ex_steps extracts0 ex_run).

Lemma extraction_settles_witness :
  ex_steps extracts0 ex_run = Some ex_s /\ ex_steps ex_s [LStart (Some ex_x) []] = Some ex_s /\
  e_log ex_s = [[(bs "p", bs "1")]; [(bs "p", bs "2")]] /\ length (e_asked ex_s) = 3%nat.
Proof.
  assert (H1 : ex_steps extracts0 ex_run = Some ex_s) by by vm_compute.
  assert (H2 : ex_steps ex_s [LStart (Some ex_x) []] = Some ex_s) by by vm_compute.
  assert (H3 : e_fin ex_s = Returned Complete) by by vm_compute.
  destruct (extraction_settles (fun _ => None) id (fun _ => []) true ex_run [LStart (Some ex_x) []] ex_s ex_s Complete H1 H3 ltac:(done) H2) as (_ & Ha & Hl & _).
  split; [exact H1|]. split; [exact H2|]. split; [rewrite Hl; vm_compute; reflexivity|].
  rewrite (Permutation_length Ha). vm_compute. reflexivity.
Defined.
