(* ===== verification/TtsClient.v ===== *)
(** [internal/ai/tts/sarvam.go]: the synthesizer's client: which request the
    audio that arrives belongs to, recorded clips queued between requests, and
    when a generation's audio is complete.

    The two buffered channels are part of the state: a send that finds one full
    drops its value, a send on a closed one panics. [Speak] queues its request
    under one lock and writes its two messages under another, so those are two
    steps here ([speakQueue], [speakSend]). The receive loop handles one message
    per step; base64 decoding is a parameter. Log lines are left out. *)

From Stdlib Require Import String.
From S2P Require Import Prelude Text.

Local Open Scope Z_scope.

(** [client.go]'s [Chunk]. *)
Record Chunk := mkChunk { PCM : bytes; Gen : Z; Req : Z; Text : bytes }.

(** [pcm] is [None] for a [Speak]. *)
Record pendingReq := mkReq { r_gen : Z; r_req : Z; r_text : bytes; r_pcm : option bytes }.

Definition noReq : pendingReq := mkReq 0 0 [] None.

Record Config := mkConfig { WSURL : bytes; Voice : bytes; Model : bytes; Language : bytes; SampleRate : Z }.

(** The messages written: [config]'s data as raw JSON values. *)
Inductive wire := WConfig (data : list (bytes * bytes)) | WText (text : bytes) | WFlush | WPing.

(** An inbound message: its type, its base64 audio and its event type. *)
Record inbound := mkInbound { m_Type : bytes; m_Audio : bytes; m_EventType : bytes }.

Inductive effect :=
  | ESend (m : wire)
  | ECloseConn
  | EAudio (c : Chunk) | EAudioFull (c : Chunk)
  | EDone (gen : Z) | EDoneFull (gen : Z)
  | EPanic.

(** [sarvamClient], with what its channels hold. *)
Record t := mkClient {
  pending : list pendingReq; endedGens : gset Z; last : pendingReq; nextReq : Z;
  chansClosed : bool; closed : bool;
  audio : list Chunk; done_ : list Z;
}.

#[global] Instance eta_t : Eta t := fun s =>
  mkClient (pending s) (endedGens s) (last s) (nextReq s) (chansClosed s) (closed s) (audio s) (done_ s).

Definition audioBufferChunks : nat := 256.
Definition doneBufferSlots : nat := 16.

Definition New : t := mkClient [] ∅ noReq 0 false false [] [].

Definition act (A : Type) : Type := M t effect A.
Definition upd (f : t -> t) : act unit := mmod f.
Definition emit (e : effect) : act unit := memit e.

Local Open Scope m_scope.

(** A non-blocking send on [audio] and on [done]. *)
Definition sendAudio (c : Chunk) : act unit :=
  let! s := mread in
  if chansClosed s then emit EPanic
  else if (length (audio s) <? audioBufferChunks)%nat then
    upd (fun s => s <| audio ::= fun l => l ++ [c] |>) ;; emit (EAudio c)
  else emit (EAudioFull c).

Definition sendDone (g : Z) : act unit :=
  let! s := mread in
  if chansClosed s then emit EPanic
  else if (length (done_ s) <? doneBufferSlots)%nat then
    upd (fun s => s <| done_ ::= fun l => l ++ [g] |>) ;; emit (EDone g)
  else emit (EDoneFull g).

Definition genHasPending (g : Z) (l : list pendingReq) : bool := existsb (fun p => r_gen p =? g) l.

Definition emitDone (g : Z) : act unit :=
  let! s := mread in if chansClosed s then mret tt else sendDone g.

Definition emitDoneIfOver (g : Z) : act unit :=
  let! s := mread in
  mwhen (bool_decide (g ∈ endedGens s) && negb (genHasPending g (pending s))) (emitDone g).

Definition chunk_of (pcm : bytes) (p : pendingReq) : Chunk := mkChunk pcm (r_gen p) (r_req p) (r_text p).

(** [drainClipsLocked]; [l] is [pending]. *)
Fixpoint drainClips (l : list pendingReq) : act unit :=
  match l with
  | p :: r =>
      match r_pcm p with
      | Some pcm =>
          upd (fun s => s <| pending := r |>) ;;
          let! s := mread in
          mwhen (negb (chansClosed s)) (sendAudio (chunk_of pcm p) ;; emitDoneIfOver (r_gen p)) ;;
          drainClips r
      | None => mret tt
      end
  | [] => mret tt
  end.

(** [Speak]: nothing for blank text; an error once closed ([false]). *)
Definition speakQueue (text : bytes) (gen : Z) : act bool :=
  let! s := mread in
  if closed s then mret false
  else
    upd (fun s => let r := mkReq gen (nextReq s + 1) text None in
                  s <| nextReq := nextReq s + 1 |> <| last := r |> <| pending ::= fun l => l ++ [r] |>) ;;
    mret true.

(** The two writes; [okText] and [okFlush] say whether each succeeds. *)
Definition speakSend (text : bytes) (okText okFlush : bool) : act bool :=
  emit (ESend (WText text)) ;;
  if okText then emit (ESend WFlush) ;; mret okFlush else mret false.

Definition Speak (text : bytes) (gen : Z) (okText okFlush : bool) : act bool :=
  if bool_decide (TrimSpace text = []) then mret true
  else let! ok := speakQueue text gen in
       if ok : bool then speakSend text okText okFlush else mret false.

Definition Play (pcm text : bytes) (gen : Z) : act bool :=
  if bool_decide (pcm = []) then mret true
  else
    let! s := mread in
    if closed s then mret false
    else
      upd (fun s => s <| nextReq := nextReq s + 1 |>
                      <| pending ::= fun l => l ++ [mkReq gen (nextReq s + 1) text (Some pcm)] |>) ;;
      let! s := mread in drainClips (pending s) ;; mret true.

Definition EndGeneration (gen : Z) : act unit :=
  upd (fun s => s <| endedGens ::= fun g => {[gen]} ∪ g |>) ;; emitDoneIfOver gen.

(** [onFinal]: the oldest request is resolved; its text. *)
Definition onFinal : act bytes :=
  let! s := mread in
  match pending s with
  | [] => mret []
  | p :: r =>
      upd (fun s => s <| pending := r |>) ;;
      emitDoneIfOver (r_gen p) ;;
      drainClips r ;;
      mret (r_text p)
  end.

Definition peekReq (s : t) : pendingReq := match pending s with p :: _ => p | [] => last s end.

(** [forceClose], of [Cancel] and [Close]. *)
Definition forceClose : act unit :=
  let! s := mread in
  if closed s then mret tt else upd (fun s => s <| closed := true |>) ;; emit ECloseConn.

Section receive.
Variable DecodeString : bytes -> option bytes.

(** [receiveLoop]: one message. *)
Definition receive (m : inbound) : act unit :=
  if bool_decide (m_Type m = bs "error") then let! _ := onFinal in mret tt
  else if bool_decide (m_Type m = bs "event") && bool_decide (m_EventType m = bs "final") then
    let! _ := onFinal in mret tt
  else if bool_decide (m_Type m = bs "audio") && negb (bool_decide (m_Audio m = [])) then
    match DecodeString (m_Audio m) with
    | None => mret tt
    | Some raw => let! s := mread in sendAudio (chunk_of raw (peekReq s))
    end
  else mret tt.
End receive.

(** Its end, when reading fails: the channels are closed. *)
Definition receiveEnd : act unit := upd (fun s => s <| chansClosed := true |>).

(** A tick of [keepaliveLoop]: whether it goes on. *)
Definition keepalive (ok : bool) : act bool :=
  let! s := mread in
  if closed s then mret false else emit (ESend WPing) ;; mret ok.

(** [sendConfig]'s data, as raw JSON; [FormatInt] and [Quote] are the standard
    library's. *)
Section config.
Variable FormatInt : Z -> bytes.
Variable Quote : bytes -> bytes.

Definition withDefaults (c : Config) : Config :=
  mkConfig (if bool_decide (WSURL c = []) then bs "wss://api.sarvam.ai/text-to-speech/ws" else WSURL c)
    (Voice c) (Model c) (Language c) (if SampleRate c =? 0 then 16000 else SampleRate c).

Definition configData (c : Config) : list (bytes * bytes) :=
  [(bs "target_language_code", Quote (Language c)); (bs "speaker", Quote (Voice c));
   (bs "speech_sample_rate", Quote (FormatInt (SampleRate c)))] ++
  (if HasPrefix (Model c) (bs "bulbul:v4") then [] else [(bs "enable_preprocessing", bs "false")]) ++
  [(bs "output_audio_codec", Quote (bs "linear16")); (bs "pace", bs "1.0"); (bs "model", Quote (Model c))].

Definition sendConfig (c : Config) (ok : bool) : act bool :=
  emit (ESend (WConfig (configData c))) ;; mret ok.
End config.

(** Receives by the agent. *)
Definition recvAudio : act (option Chunk) :=
  let! s := mread in
  match audio s with [] => mret None | c :: r => upd (fun s => s <| audio := r |>) ;; mret (Some c) end.

Definition recvDone : act (option Z) :=
  let! s := mread in
  match done_ s with [] => mret None | g :: r => upd (fun s => s <| done_ := r |>) ;; mret (Some g) end.
