(* ===== verification/TtsSpec.v ===== *)
(** [internal/ai/tts/sarvam.go]: the synthesizer's client against a provider that
    answers requests in their order: audio is attributed to its own request and
    comes in order, and a generation is reported done once, after its audio. *)

From Stdlib Require Import String Sorted.
From stdpp Require Import sorting.
From S2P Require Import Prelude Text TtsClient.

Local Open Scope Z_scope.
Local Open Scope m_scope.

(** ** The client and its provider

    The provider answers the requests it was sent in their order, each with any
    audio and then one [final] or [error] ([owed]: the requests it has not
    answered). A connection whose write failed accepts no other. *)

Section provider.
Variable DecodeString : bytes -> option bytes.

Record world := mkWorld { cl : t; owed : list pendingReq; broken : bool }.

Inductive label :=
  | LSpeak (text : bytes) (gen : Z) (ok : bool)
  | LPlay (pcm text : bytes) (gen : Z)
  | LEnd (gen : Z)
  | LMsg (m : inbound)
  | LDown
  | LClose
  | LRecvAudio
  | LRecvDone.

Definition world0 : world := mkWorld New [] false.

Definition resolves (m : inbound) : bool :=
  bool_decide (m_Type m = bs "error") || (bool_decide (m_Type m = bs "event") && bool_decide (m_EventType m = bs "final")).

(** The audio of a message. *)
Definition audio_of (m : inbound) : option bytes :=
  if bool_decide (m_Type m = bs "audio") && negb (bool_decide (m_Audio m = [])) then DecodeString (m_Audio m) else None.

Definition lift (m : t -> list effect * t) (w : world) (owed : list pendingReq) (broken : bool) : option (list effect * world) :=
  let '(out, c) := m (cl w) in Some (out, mkWorld c owed broken).

Definition runs {A} (m : act A) (c : t) : list effect * t := (mout m c, mstate m c).

(** [None]: not something the provider does. *)
Definition step (l : label) (w : world) : option (list effect * world) :=
  let c := cl w in
  match l with
  | LSpeak text gen ok =>
      let ok := ok && negb (broken w) in
      let asked := negb (bool_decide (TrimSpace text = [])) && negb (closed c) in
      lift (runs (Speak text gen ok ok)) w
        (if asked && ok then owed w ++ [mkReq gen (nextReq c + 1) text None] else owed w)
        (broken w || (asked && negb ok))
  | LPlay pcm text gen => lift (runs (Play pcm text gen)) w (owed w) (broken w)
  | LEnd gen => lift (runs (EndGeneration gen)) w (owed w) (broken w)
  | LMsg m =>
      if chansClosed c then None
      else if resolves m then
        match owed w with [] => None | _ :: r => lift (runs (receive DecodeString m)) w r (broken w) end
      else
        match audio_of m, owed w with
        | Some _, [] => None
        | _, _ => lift (runs (receive DecodeString m)) w (owed w) (broken w)
        end
  | LDown => lift (runs receiveEnd) w (owed w) (broken w)
  | LClose => lift (runs forceClose) w (owed w) (broken w)
  | LRecvAudio => lift (runs recvAudio) w (owed w) (broken w)
  | LRecvDone => lift (runs recvDone) w (owed w) (broken w)
  end.

Fixpoint run (ls : list label) (w : world) : option (list effect * world) :=
  match ls with
  | [] => Some ([], w)
  | l :: r =>
      match step l w with
      | Some (o1, w1) => match run r w1 with Some (o2, w2) => Some (o1 ++ o2, w2) | None => None end
      | None => None
      end
  end.
End provider.

(** The chunks put on (or dropped from) [audio], and the generations on [done]. *)
Definition chunks (o : list effect) : list Chunk :=
  omap (fun e => match e with EAudio c | EAudioFull c => Some c | _ => None end) o.
Definition dones (o : list effect) : list Z :=
  omap (fun e => match e with EDone g | EDoneFull g => Some g | _ => None end) o.

Lemma chunks_app a b : chunks (a ++ b) = chunks a ++ chunks b.
Proof. apply omap_app. Qed.
Lemma words_dones_app a b : dones (a ++ b) = dones a ++ dones b.
Proof. apply omap_app. Qed.

(** *** What the parts do *)

(** Same client but for the channels' contents. *)
Definition same_queue (s s' : t) : Prop :=
  pending s' = pending s /\ endedGens s' = endedGens s /\ last s' = last s /\ nextReq s' = nextReq s /\
  chansClosed s' = chansClosed s /\ closed s' = closed s.

Lemma sendAudio_spec c s :
  chansClosed s = false ->
  same_queue s (mstate (sendAudio c) s) /\
  (mout (sendAudio c) s = [EAudio c] \/ mout (sendAudio c) s = [EAudioFull c]).
Proof.
  intros H. unfold sendAudio, same_queue, upd, emit. rewrite mstate_read_seq, mout_read_seq, H.
  case_match; [|cbn; auto 10]. rewrite mstate_seq, mout_seq. cbn. auto 10.
Qed.

Lemma emitDone_spec g s :
  same_queue s (mstate (emitDone g) s) /\
  if chansClosed s then mout (emitDone g) s = []
  else mout (emitDone g) s = [EDone g] \/ mout (emitDone g) s = [EDoneFull g].
Proof.
  unfold emitDone, sendDone, same_queue, upd, emit. rewrite mstate_read_seq, mout_read_seq.
  destruct (chansClosed s) eqn:H; [cbn; auto 10|]. rewrite mstate_read_seq, mout_read_seq, H.
  case_match; [|cbn; auto 10]. rewrite mstate_seq, mout_seq. cbn. auto 10.
Qed.

(** Whether [gen]'s [done] is due. *)
Definition over (g : Z) (s : t) : bool := bool_decide (g ∈ endedGens s) && negb (genHasPending g (pending s)).

Definition is_done (g : Z) (e : effect) : Prop := e = EDone g \/ e = EDoneFull g.

Lemma emitDoneIfOver_spec g s :
  same_queue s (mstate (emitDoneIfOver g) s) /\
  if over g s && negb (chansClosed s) then exists e, is_done g e /\ mout (emitDoneIfOver g) s = [e]
  else mout (emitDoneIfOver g) s = [].
Proof.
  unfold emitDoneIfOver, mwhen, over, is_done. rewrite mstate_read_seq, mout_read_seq.
  destruct (bool_decide _ && _); [|cbn; unfold same_queue; auto 10].
  destruct (emitDone_spec g s) as [Hs Ho]. split; [exact Hs|].
  destruct (chansClosed s); cbn [negb andb]; [exact Ho|]. naive_solver.
Qed.

Lemma EndGeneration_spec g s :
  let s' := mstate (EndGeneration g) s in
  pending s' = pending s /\ nextReq s' = nextReq s /\ chansClosed s' = chansClosed s /\
  endedGens s' = {[g]} ∪ endedGens s /\
  if negb (genHasPending g (pending s)) && negb (chansClosed s)
  then exists e, is_done g e /\ mout (EndGeneration g) s = [e] else mout (EndGeneration g) s = [].
Proof.
  unfold EndGeneration, upd. cbv zeta. rewrite mstate_seq, mout_seq, mstate_mod, mout_mod.
  set (s1 := s <| endedGens ::= _ |>).
  destruct (emitDoneIfOver_spec g s1) as [(-> & -> & _ & -> & -> & _) Ho]. split_and!; try done.
  unfold over in Ho. rewrite bool_decide_eq_true_2 in Ho by set_solver. exact Ho.
Qed.

(** Taking the oldest request away, with what it emits: its clip and its
    generation's [done]. [resolved] is [onFinal]'s, [clipped] [drainClips]'s. *)
Definition resolved (p : pendingReq) (r : list pendingReq) : act unit :=
  upd (fun s => s <| pending := r |>) ;; emitDoneIfOver (r_gen p).
Definition clipped (p : pendingReq) (r : list pendingReq) (pcm : bytes) : act unit :=
  upd (fun s => s <| pending := r |>) ;;
  let! s := mread in
  mwhen (negb (chansClosed s)) (sendAudio (chunk_of pcm p) ;; emitDoneIfOver (r_gen p)).

(** All but the queue. *)
Definition same_rest (s s' : t) : Prop :=
  endedGens s' = endedGens s /\ last s' = last s /\ nextReq s' = nextReq s /\
  chansClosed s' = chansClosed s /\ closed s' = closed s.

Lemma same_rest_trans s1 s2 s3 : same_rest s1 s2 -> same_rest s2 s3 -> same_rest s1 s3.
Proof. unfold same_rest. intuition congruence. Qed.

Lemma resolved_spec p r s :
  same_rest s (mstate (resolved p r) s) /\ pending (mstate (resolved p r) s) = r /\
  if bool_decide (r_gen p ∈ endedGens s) && negb (genHasPending (r_gen p) r) && negb (chansClosed s)
  then exists e, is_done (r_gen p) e /\ mout (resolved p r) s = [e]
  else mout (resolved p r) s = [].
Proof.
  unfold resolved, upd. rewrite mstate_seq, mout_seq, mstate_mod, mout_mod.
  destruct (emitDoneIfOver_spec (r_gen p) (s <| pending := r |>)) as [(H1 & H2 & H3 & H4 & H5 & H6) Ho].
  unfold same_rest. rewrite H1, H2, H3, H4, H5, H6. split_and!; try done.
Qed.

Lemma clipped_spec p r pcm s :
  same_rest s (mstate (clipped p r pcm) s) /\ pending (mstate (clipped p r pcm) s) = r /\
  if chansClosed s then mout (clipped p r pcm) s = []
  else exists e d, mout (clipped p r pcm) s = e :: d /\ (e = EAudio (chunk_of pcm p) \/ e = EAudioFull (chunk_of pcm p)) /\
    if bool_decide (r_gen p ∈ endedGens s) && negb (genHasPending (r_gen p) r)
    then exists e', is_done (r_gen p) e' /\ d = [e'] else d = [].
Proof.
  unfold clipped, upd. rewrite mstate_seq, mout_seq, mstate_mod, mout_mod, mstate_read_seq, mout_read_seq.
  change (chansClosed (s <| pending := r |>)) with (chansClosed s).
  destruct (chansClosed s) eqn:Hc; [cbn; unfold same_rest; auto 10|]. cbn [negb mwhen].
  rewrite mstate_seq, mout_seq.
  set (s1 := s <| pending := r |>) in *.
  destruct (sendAudio_spec (chunk_of pcm p) s1 Hc) as [(A1 & A2 & A3 & A4 & A5 & A6) Ha].
  set (s2 := mstate (sendAudio (chunk_of pcm p)) s1) in *.
  destruct (emitDoneIfOver_spec (r_gen p) s2) as [(H1 & H2 & H3 & H4 & H5 & H6) Ho].
  unfold same_rest. unfold over in Ho. rewrite A1, A2, A5 in Ho. rewrite H1, H2, H3, H4, H5, H6, A1, A2, A3, A4, A5, A6.
  cbn in Ho. rewrite Hc, andb_true_r in Ho. split_and!; try done.
  destruct Ha as [-> | ->]; cbn; eauto 10.
Qed.

Lemma onFinal_cons p r s : pending s = p :: r ->
  mstate onFinal s = mstate (drainClips r) (mstate (resolved p r) s) /\
  mout onFinal s = mout (resolved p r) s ++ mout (drainClips r) (mstate (resolved p r) s).
Proof.
  intros Hp. unfold onFinal. rewrite mstate_read_seq, mout_read_seq, Hp. unfold resolved, upd.
  run_out. cbn. by rewrite app_nil_r.
Qed.

Lemma drainClips_clip p r pcm s : r_pcm p = Some pcm ->
  mstate (drainClips (p :: r)) s = mstate (drainClips r) (mstate (clipped p r pcm) s) /\
  mout (drainClips (p :: r)) s = mout (clipped p r pcm) s ++ mout (drainClips r) (mstate (clipped p r pcm) s).
Proof.
  intros Hp. cbn [drainClips]. rewrite Hp. unfold clipped, upd.
  run_out. done.
Qed.

(** *** The queue's order *)

Definition speaks (l : list pendingReq) : list pendingReq := filter (fun p => r_pcm p = None) l.

(** Requests are numbered in order, and a recorded clip never waits at the
    head: nothing is before it. *)
Definition numbered (s : t) : Prop :=
  StronglySorted Z.lt (map r_req (pending s)) /\ Forall (fun p => r_req p <= nextReq s) (pending s).
Definition no_clip_first (l : list pendingReq) : Prop := match l with p :: _ => r_pcm p = None | [] => True end.

(** The number of the oldest request, or of the last one made. *)
Definition front (n : Z) (l : list pendingReq) : Z := match l with p :: _ => r_req p | [] => n end.

(** [l] ascends from [lo] to [hi]. *)
Fixpoint asc (lo : Z) (l : list Z) (hi : Z) : Prop :=
  match l with [] => lo <= hi | x :: r => lo <= x /\ asc x r hi end.

Lemma asc_app lo l1 mid l2 hi : asc lo l1 mid -> asc mid l2 hi -> asc lo (l1 ++ l2) hi.
Proof.
  revert lo. induction l1 as [|x l1 IH]; intros lo; cbn [app asc]; [|naive_solver].
  intros H1 H2. destruct l2; cbn in *; [lia|]. split; [lia|apply H2].
Qed.

Lemma asc_sorted lo l hi : asc lo l hi -> Sorted Z.le l.
Proof.
  revert lo. induction l as [|x l IH]; intros lo; [constructor|]. intros [Hlo H]. constructor; [by apply (IH x)|].
  destruct l; constructor. apply H.
Qed.

Lemma numbered_tail p r s s' :
  pending s = p :: r -> pending s' = r -> nextReq s' = nextReq s -> numbered s ->
  numbered s' /\ r_req p <= front (nextReq s) r.
Proof.
  unfold numbered. intros -> -> ->. cbn [map]. intros [[Hs Hp]%StronglySorted_inv [Hn Hf]%Forall_cons].
  split; [done|]. destruct r as [|q r]; [exact Hn|]. cbn in *. apply Forall_inv in Hp. lia.
Qed.

Lemma is_done_chunks g e : is_done g e -> chunks [e] = [] /\ e <> EPanic.
Proof. by intros [-> | ->]. Qed.

Lemma clipped_chunks p r pcm s :
  chunks (mout (clipped p r pcm) s) = (if chansClosed s then [] else [chunk_of pcm p]) /\
  EPanic ∉ mout (clipped p r pcm) s.
Proof.
  destruct (clipped_spec p r pcm s) as (_ & _ & Ho). destruct (chansClosed s); [rewrite Ho; split; [done|set_solver]|].
  destruct Ho as (e & d & -> & He & Hd). change (e :: d) with ([e] ++ d). rewrite chunks_app.
  assert (chunks d = [] /\ EPanic ∉ d) as [-> Hp].
  { destruct (bool_decide _ && _); [|subst; split; [done|set_solver]].
    destruct Hd as (e' & He' & ->). destruct (is_done_chunks _ _ He'). split; [done|set_solver]. }
  destruct He as [-> | ->]; split; done || set_solver.
Qed.

Lemma resolved_chunks p r s : chunks (mout (resolved p r) s) = [] /\ EPanic ∉ mout (resolved p r) s.
Proof.
  destruct (resolved_spec p r s) as (_ & _ & Ho). destruct (bool_decide _ && _ && _); [|rewrite Ho; split; [done|set_solver]].
  destruct Ho as (e & He & ->). destruct (is_done_chunks _ _ He). split; [done|set_solver].
Qed.

(** What draining does to the queue and emits. *)
Lemma drain_spec l s :
  pending s = l -> numbered s ->
  let s' := mstate (drainClips l) s in
  same_rest s s' /\ numbered s' /\ speaks (pending s') = speaks l /\ no_clip_first (pending s') /\
  asc (front (nextReq s) l) (map Req (chunks (mout (drainClips l) s))) (front (nextReq s) (pending s')) /\
  EPanic ∉ mout (drainClips l) s.
Proof.
  revert s. induction l as [|p l IH]; intros s Hp Hn.
  { cbn. rewrite Hp. unfold same_rest. cbn. split_and!; first [done | lia | set_solver]. }
  destruct (r_pcm p) as [pcm|] eqn:Ep.
  2:{ cbn [drainClips]. rewrite Ep. cbn. rewrite Hp. unfold same_rest. cbn. split_and!; first [done | lia | set_solver]. }
  destruct (drainClips_clip p l pcm s Ep) as [-> ->].
  destruct (clipped_spec p l pcm s) as (Hr & Hp' & _). destruct (clipped_chunks p l pcm s) as [Hc HP].
  destruct Hr as (R1 & R2 & R3 & R4 & R5).
  destruct (numbered_tail p l s _ Hp Hp' R3 Hn) as [Hn' Hfront].
  destruct (IH _ Hp' Hn') as (Q & Qn & Qs & Qh & Qa & QP). rewrite R3 in Qa.
  split_and!; [|done| |done| |].
  - eapply same_rest_trans; [|exact Q]. unfold same_rest. auto.
  - rewrite Qs. unfold speaks. by rewrite filter_cons_False by (by rewrite Ep).
  - rewrite chunks_app, map_app, Hc. eapply asc_app; [|exact Qa]. destruct (chansClosed s); cbn; lia.
  - rewrite elem_of_app. tauto.
Qed.

(** *** What every run keeps *)

Record inv (w : world) : Prop := {
  inv_num : numbered (cl w);
  inv_head : no_clip_first (pending (cl w));
  inv_owed : exists unsent, speaks (pending (cl w)) = owed w ++ unsent /\ (broken w = false -> unsent = []);
}.

(** A step's audio lies between the oldest requests before and after it. *)
Definition in_order (o : list effect) (w w' : world) : Prop :=
  asc (front (nextReq (cl w)) (pending (cl w))) (map Req (chunks o)) (front (nextReq (cl w')) (pending (cl w'))) /\
  EPanic ∉ o.

Lemma speaks_app a b : speaks (a ++ b) = speaks a ++ speaks b.
Proof. apply filter_app. Qed.

Lemma owed_head w p r : inv w -> owed w = p :: r -> exists q, pending (cl w) = p :: q.
Proof.
  intros [_ Hh (u & Hu & _)] Ho. rewrite Ho in Hu. destruct (pending (cl w)) as [|x q]; [done|].
  cbn in Hh. unfold speaks in Hu. rewrite filter_cons_True in Hu by done. exists q. injection Hu as -> _. done.
Qed.

Lemma numbered_snoc s s' p :
  pending s' = pending s ++ [p] -> nextReq s' = nextReq s + 1 -> r_req p = nextReq s + 1 -> numbered s ->
  numbered s' /\ front (nextReq s) (pending s) <= front (nextReq s') (pending s').
Proof.
  unfold numbered. intros -> -> Hp [Hs Hf]. split.
  - split; [|apply Forall_app; split; [eapply Forall_impl; [exact Hf|]; cbn; lia|repeat constructor; lia]].
    rewrite map_app. apply StronglySorted_app_2; [|done|repeat constructor].
    intros x1 x2 (y & -> & Hy)%list_elem_of_fmap ->%list_elem_of_singleton. rewrite Forall_forall in Hf.
    specialize (Hf y Hy). lia.
  - destruct (pending s); cbn; lia.
Qed.

Lemma Speak_spec text gen okT okF s :
  let asked := negb (bool_decide (TrimSpace text = [])) && negb (closed s) in
  let p := mkReq gen (nextReq s + 1) text None in
  mstate (Speak text gen okT okF) s =
    (if asked then s <| nextReq := nextReq s + 1 |> <| last := p |> <| pending ::= fun l => l ++ [p] |> else s) /\
  chunks (mout (Speak text gen okT okF) s) = [] /\ dones (mout (Speak text gen okT okF) s) = [] /\
  EPanic ∉ mout (Speak text gen okT okF) s.
Proof.
  unfold Speak. destruct (bool_decide _); cbn [negb andb]; [cbn; split_and!; done || set_solver|].
  unfold speakQueue, speakSend, mseq, mread, upd, mmod, mret, emit, memit, mstate, mout.
  destruct (closed s); cbn; [split_and!; done || set_solver|].
  destruct okT; cbn; split_and!; done || set_solver.
Qed.

Lemma Play_spec pcm text gen s :
  let p := mkReq gen (nextReq s + 1) text (Some pcm) in
  let s1 := s <| nextReq := nextReq s + 1 |> <| pending ::= fun l => l ++ [p] |> in
  if negb (bool_decide (pcm = [])) && negb (closed s)
  then mstate (Play pcm text gen) s = mstate (drainClips (pending s1)) s1 /\
       mout (Play pcm text gen) s = mout (drainClips (pending s1)) s1
  else mstate (Play pcm text gen) s = s /\ mout (Play pcm text gen) s = [].
Proof.
  unfold Play. destruct (bool_decide _); cbn [negb andb]; [done|].
  rewrite mstate_read_seq, mout_read_seq. destruct (closed s); [done|]. cbn [negb].
  unfold upd. run_out. rewrite app_nil_r. done.
Qed.

Lemma in_order_same o w w' :
  same_queue (cl w) (cl w') -> chunks o = [] -> EPanic ∉ o -> in_order o w w'.
Proof. intros (Hp & _ & _ & Hn & _) Hc HP. unfold in_order. rewrite Hp, Hn, Hc. cbn. split; [lia|done]. Qed.

Lemma tts_inv_same w w' :
  same_queue (cl w) (cl w') -> owed w' = owed w -> broken w' = broken w -> inv w -> inv w'.
Proof.
  intros (Hp & _ & _ & Hn & _) Ho Hb [H1 H2 H3]. split; unfold numbered in *; rewrite ?Hp, ?Hn, ?Ho, ?Hb; done.
Qed.

Lemma onFinal_spec p r s :
  pending s = p :: r -> numbered s ->
  let s' := mstate onFinal s in
  same_rest s s' /\ numbered s' /\ speaks (pending s') = speaks r /\ no_clip_first (pending s') /\
  asc (r_req p) (map Req (chunks (mout onFinal s))) (front (nextReq s') (pending s')) /\ EPanic ∉ mout onFinal s.
Proof.
  intros Hp Hn. cbv zeta. destruct (onFinal_cons p r s Hp) as [-> ->].
  destruct (resolved_spec p r s) as (Hr & Hp' & _). destruct (resolved_chunks p r s) as [Hc HP].
  destruct Hr as (R1 & R2 & R3 & R4 & R5).
  destruct (numbered_tail p r s _ Hp Hp' R3 Hn) as [Hn' Hfront].
  destruct (drain_spec r _ Hp' Hn') as (Q & Qn & Qs & Qh & Qa & QP).
  split_and!; [|done|done|done| |].
  - eapply same_rest_trans; [|exact Q]. unfold same_rest. auto.
  - rewrite chunks_app, Hc. destruct Q as (_ & _ & -> & _). rewrite R3 in *.
    change (map Req ([] ++ ?l)) with (map Req l). change (map Req ?l) with (map Req ([] : list Chunk) ++ map Req l).
    eapply asc_app; [|exact Qa]. cbn. exact Hfront.
  - rewrite elem_of_app. tauto.
Qed.

Section run.
Variable DecodeString : bytes -> option bytes.
Local Abbreviation step := (step DecodeString).
Local Abbreviation run := (run DecodeString).

(** A message's audio becomes one chunk of the request at the head. *)
Lemma receive_audio m raw s :
  resolves m = false -> audio_of DecodeString m = Some raw ->
  mstate (receive DecodeString m) s = mstate (sendAudio (chunk_of raw (peekReq s))) s /\
  mout (receive DecodeString m) s = mout (sendAudio (chunk_of raw (peekReq s))) s.
Proof.
  unfold resolves, audio_of, receive. intros [-> ->]%orb_false_iff.
  destruct (bool_decide (m_Type m = bs "audio") && _); [|done]. intros ->. by rewrite mstate_read_seq, mout_read_seq.
Qed.

Lemma receive_resolves m s :
  resolves m = true ->
  mstate (receive DecodeString m) s = mstate onFinal s /\ mout (receive DecodeString m) s = mout onFinal s.
Proof.
  unfold resolves, receive. intros H. destruct (bool_decide (m_Type m = bs "error")).
  2: cbn [orb] in H; rewrite H.
  all: rewrite mstate_seq, mout_seq; cbn; by rewrite app_nil_r.
Qed.

Lemma receive_other m s :
  resolves m = false -> audio_of DecodeString m = None ->
  mstate (receive DecodeString m) s = s /\ mout (receive DecodeString m) s = [].
Proof.
  unfold resolves, audio_of, receive. intros [-> ->]%orb_false_iff.
  destruct (bool_decide (m_Type m = bs "audio") && _); [|done]. by intros ->.
Qed.

Lemma step_queue (m : act bool) w o w' :
  same_queue (cl w) (mstate m (cl w)) -> chunks (mout m (cl w)) = [] -> EPanic ∉ mout m (cl w) ->
  lift (runs m) w (owed w) (broken w) = Some (o, w') -> inv w -> inv w' /\ in_order o w w'.
Proof.
  unfold lift, runs. intros Hq Hc HP [= <- <-] Hi. split; [by apply (tts_inv_same w)|by apply in_order_same].
Qed.

Lemma step_msg m w o w' : step (LMsg m) w = Some (o, w') -> inv w -> inv w' /\ in_order o w w'.
Proof.
  intros H Hi. cbn [TtsSpec.step] in H. destruct (chansClosed (cl w)) eqn:Hopen; [done|].
  destruct (resolves m) eqn:Hm.
  - destruct (owed w) as [|p r] eqn:Ho; [done|]. destruct (owed_head w p r Hi Ho) as [q Hq].
    unfold lift, runs in H. injection H as <- <-. destruct (receive_resolves m (cl w) Hm) as [Es Eo].
    destruct Hi as [Hn Hh (u & Hu & Hb)].
    destruct (onFinal_spec p q (cl w) Hq Hn) as (Q & Qn & Qs & Qh & Qa & QP).
    split; [split|]; cbn [cl owed broken]; rewrite ?Es, ?Eo; [done|done| |].
    + exists u. split; [|done]. rewrite Qs. rewrite Hq, Ho in Hu. unfold speaks in *. rewrite Hq in Hh.
      rewrite filter_cons_True in Hu by exact Hh. by injection Hu.
    + unfold in_order. cbn [cl]. rewrite Hq. split; [exact Qa|exact QP].
  - destruct (audio_of DecodeString m) as [raw|] eqn:Ha.
    + destruct (owed w) as [|p r] eqn:Ho; [done|]. destruct (owed_head w p r Hi Ho) as [q Hq].
      destruct (receive_audio m raw (cl w) Hm Ha) as [Es Eo].
      destruct (sendAudio_spec (chunk_of raw (peekReq (cl w))) (cl w) Hopen) as [Hsame Hout].
      unfold lift, runs in H. injection H as <- <-. rewrite Es, Eo. split.
      * apply (tts_inv_same w); done.
      * unfold in_order. cbn [cl]. destruct Hsame as (-> & _ & _ & -> & _). rewrite Hq. unfold peekReq in *. rewrite Hq in *.
        destruct Hout as [-> | ->]; cbn; (split; [lia|set_solver]).
    + destruct (receive_other m (cl w) Hm Ha) as [Es Eo].
      assert (H' : lift (runs (receive DecodeString m)) w (owed w) (broken w) = Some (o, w')) by (by destruct (owed w)).
      unfold lift, runs in H'. injection H' as <- <-. rewrite Es, Eo.
      split; [apply (tts_inv_same w); done|apply in_order_same; [done|done|set_solver]].
Qed.

Lemma step_speak text gen ok w o w' : step (LSpeak text gen ok) w = Some (o, w') -> inv w -> inv w' /\ in_order o w w'.
Proof.
  cbn [TtsSpec.step]. set (ok' := ok && negb (broken w)). unfold lift, runs. intros [= <- <-] [Hn Hh (u & Hu & Hb)].
  destruct (Speak_spec text gen ok' ok' (cl w)) as (Es & Ec & _ & EP).
  set (asked := negb _ && _) in *. set (p := mkReq gen (nextReq (cl w) + 1) text None) in *.
  destruct asked eqn:Ea.
  2:{ split; [split|]; cbn [cl owed broken]; rewrite ?Es; [done|done|exists u; by rewrite orb_false_r|].
      apply in_order_same; [done|done|done]. }
  destruct (numbered_snoc (cl w) (mstate (Speak text gen ok' ok') (cl w)) p) as [Hn' Hf]; [by rewrite Es|by rewrite Es|done|done|].
  split; [split|]; cbn [cl owed broken]; [done| | |].
  - rewrite Es. cbn. destruct (pending (cl w)); [done|exact Hh].
  - rewrite Es. cbn. rewrite speaks_app, Hu. change (speaks [p]) with [p]. destruct ok' eqn:Eo; cbn [andb].
    + apply andb_true_iff in Eo as [_ Hbr%negb_true_iff]. rewrite (Hb Hbr), app_nil_r.
      exists []. by rewrite app_nil_r.
    + exists (u ++ [p]). rewrite app_assoc. split; [done|]. by rewrite orb_true_r.
  - unfold in_order. cbn [cl]. rewrite Ec. split; [exact Hf|exact EP].
Qed.

Lemma step_play pcm text gen w o w' : step (LPlay pcm text gen) w = Some (o, w') -> inv w -> inv w' /\ in_order o w w'.
Proof.
  cbn [TtsSpec.step]. unfold lift, runs. intros [= <- <-] [Hn Hh (u & Hu & Hb)].
  pose proof (Play_spec pcm text gen (cl w)) as HP. cbv zeta in HP.
  destruct (negb _ && negb _).
  2:{ destruct HP as [Es Eo]. rewrite Es, Eo. split; [split; [done|done|by exists u]|apply in_order_same; [done|done|set_solver]]. }
  destruct HP as [Es Eo]. set (p := mkReq _ _ _ _) in *. set (s1 := (cl w) <| nextReq := nextReq (cl w) + 1 |> <| pending ::= _ |>) in *.
  destruct (numbered_snoc (cl w) s1 p) as [Hn' Hf]; [done|done|done|done|].
  destruct (drain_spec (pending s1) s1 eq_refl Hn') as (Q & Qn & Qs & Qh & Qa & QP).
  split; [split|]; cbn [cl owed broken]; rewrite ?Es; [done|done| |].
  - exists u. rewrite Qs. cbn. rewrite speaks_app, Hu. change (speaks [p]) with ([] : list pendingReq). by rewrite app_nil_r.
  - unfold in_order. cbn [cl]. rewrite Eo. split; [|exact QP].
    change (chunks ?o) with (chunks ([] : list effect) ++ chunks o). rewrite map_app.
    eapply asc_app; [exact Hf|]. destruct Q as (_ & _ & -> & _). exact Qa.
Qed.

Lemma recvAudio_spec s : same_queue s (mstate recvAudio s) /\ mout recvAudio s = [].
Proof. unfold recvAudio, same_queue, upd. rewrite mstate_read_seq, mout_read_seq. destruct (audio s); cbn; auto 10. Qed.

Lemma recvDone_spec s : same_queue s (mstate recvDone s) /\ mout recvDone s = [].
Proof. unfold recvDone, same_queue, upd. rewrite mstate_read_seq, mout_read_seq. destruct (done_ s); cbn; auto 10. Qed.

(** Steps that leave the queue alone. *)
Lemma step_quiet {A} (m : act A) w o w' :
  pending (mstate m (cl w)) = pending (cl w) -> nextReq (mstate m (cl w)) = nextReq (cl w) ->
  chunks (mout m (cl w)) = [] -> EPanic ∉ mout m (cl w) ->
  lift (runs m) w (owed w) (broken w) = Some (o, w') -> inv w -> inv w' /\ in_order o w w'.
Proof.
  unfold lift, runs. intros Hp Hn Hc HP [= <- <-] [I1 I2 I3].
  split; [split|]; unfold in_order, numbered in *; cbn [cl owed broken]; rewrite ?Hp, ?Hn, ?Hc; try done.
  cbn. split; [lia|done].
Qed.

Lemma step_inv l w o w' : step l w = Some (o, w') -> inv w -> inv w' /\ in_order o w w'.
Proof.
  destruct l; [apply step_speak|apply step_play| |apply step_msg|..].
  - cbn [TtsSpec.step]. intros H Hi. destruct (EndGeneration_spec gen (cl w)) as (H1 & H2 & _ & _ & Ho).
    eapply (step_quiet (EndGeneration gen)); [done|done| | |exact H|exact Hi];
      (destruct (_ && _); [destruct Ho as (e & He & ->); destruct (is_done_chunks _ _ He); done || set_solver
                          |rewrite Ho; done || set_solver]).
  - cbn [TtsSpec.step]. intros H Hi. eapply (step_quiet receiveEnd); [..|exact H|exact Hi]; done || (cbn; set_solver).
  - cbn [TtsSpec.step]. unfold forceClose, upd, emit. intros H Hi. eapply step_quiet; [..|exact H|exact Hi];
      rewrite ?mstate_read_seq, ?mout_read_seq; destruct (closed (cl w)); cbn; done || set_solver.
  - cbn [TtsSpec.step]. intros H Hi. destruct (recvAudio_spec (cl w)) as [(H1 & _ & _ & H4 & _) Ho].
    eapply (step_quiet recvAudio); [done|done| | |exact H|exact Hi]; rewrite Ho; done || set_solver.
  - cbn [TtsSpec.step]. intros H Hi. destruct (recvDone_spec (cl w)) as [(H1 & _ & _ & H4 & _) Ho].
    eapply (step_quiet recvDone); [done|done| | |exact H|exact Hi]; rewrite Ho; done || set_solver.
Qed.

Lemma run_inv ls w o w' : run ls w = Some (o, w') -> inv w -> inv w' /\ in_order o w w'.
Proof.
  revert w o. induction ls as [|l ls IH]; intros w o; cbn.
  { intros [= <- <-] Hi. split; [done|]. split; [cbn; lia|set_solver]. }
  destruct (step l w) as [[o1 w1]|] eqn:E1; [|done]. destruct (run ls w1) as [[o2 w2]|] eqn:E2; [|done].
  intros [= <- <-] Hi. destruct (step_inv l w o1 w1 E1 Hi) as [Hi1 [A1 P1]]. destruct (IH w1 o2 E2 Hi1) as [Hi2 [A2 P2]].
  split; [done|]. split; [|rewrite elem_of_app; tauto]. rewrite chunks_app, map_app. by eapply asc_app.
Qed.

Lemma inv0 : inv world0.
Proof.
  split; [split; constructor|done|]. exists []. done.
Qed.

End run.

(** *** A generation's [done] *)

Definition chunk_for (g : Z) (e : effect) : Prop := exists c, Gen c = g /\ (e = EAudio c \/ e = EAudioFull c).
Definition nodone (g : Z) (o : list effect) : Prop := Forall (fun e => ~ is_done g e) o.
Definition quiet (g : Z) (o : list effect) : Prop := Forall (fun e => ~ is_done g e /\ ~ chunk_for g e) o.

(** [g]'s [done] once, and none of its audio after it. *)
Definition finishes (g : Z) (o : list effect) : Prop :=
  exists o1 e o2, o = o1 ++ e :: o2 /\ nodone g o1 /\ is_done g e /\ quiet g o2.

(** What happens to an ended generation while the queue goes from [l] to [l']. *)
Definition phase (g : Z) (l : list pendingReq) (o : list effect) (l' : list pendingReq) : Prop :=
  if genHasPending g l
  then (genHasPending g l' = true /\ nodone g o) \/ (genHasPending g l' = false /\ finishes g o)
  else genHasPending g l' = false /\ quiet g o.

Lemma quiet_nodone g o : quiet g o -> nodone g o.
Proof. intros H. eapply Forall_impl; [exact H|]. cbn. tauto. Qed.

Lemma quiet_nil g : quiet g [].
Proof. constructor. Qed.

Lemma phase_same g l o : quiet g o -> phase g l o l.
Proof. intros H. unfold phase. destruct (genHasPending g l) eqn:E; [left|]; auto using quiet_nodone. Qed.

Lemma phase_app g l1 o1 l2 o2 l3 : phase g l1 o1 l2 -> phase g l2 o2 l3 -> phase g l1 (o1 ++ o2) l3.
Proof.
  unfold phase, finishes, nodone, quiet. destruct (genHasPending g l1).
  - intros [[-> H1]|[-> (a & e & b & -> & Ha & He & Hb)]].
    + intros [[-> H2]|[-> (a & e & b & -> & Ha & He & Hb)]]; [left; split; [done|by apply Forall_app]|right].
      split; [done|]. exists (o1 ++ a), e, b. rewrite <- app_assoc. split_and!; try done. by apply Forall_app.
    + intros [-> H2]. right. split; [done|]. exists a, e, (b ++ o2). rewrite <- app_assoc. cbn.
      split_and!; try done. by apply Forall_app.
  - intros [-> H1] [-> H2]. split; [done|by apply Forall_app].
Qed.

Lemma is_done_quiet g g' e : is_done g' e -> g <> g' -> quiet g [e].
Proof.
  unfold is_done, chunk_for. intros He Hg. repeat constructor.
  - intros Hd. destruct He as [-> | ->], Hd; congruence.
  - intros (c & _ & Hc). destruct He as [-> | ->], Hc; congruence.
Qed.

Lemma chunk_not_done g e c : e = EAudio c \/ e = EAudioFull c -> ~ is_done g e.
Proof. unfold is_done. intros [-> | ->] [|]; congruence. Qed.

Lemma chunk_quiet g e c : e = EAudio c \/ e = EAudioFull c -> Gen c <> g -> quiet g [e].
Proof.
  intros He Hg. repeat constructor; [by eapply chunk_not_done|]. intros (c' & Hc & Hd).
  destruct He as [-> | ->], Hd; congruence.
Qed.

(** The [done] of a popped request's generation, where it is due ([ended]). *)
Definition done_part (ended : bool) (p : pendingReq) (r : list pendingReq) (d : list effect) : Prop :=
  if ended && negb (genHasPending (r_gen p) r) then exists e, is_done (r_gen p) e /\ d = [e] else d = [].

(** Popping the oldest request [p]; [o] is what it emits before the [done]. *)
Lemma phase_pop g (ended : bool) p r o d :
  (r_gen p = g -> ended = true) -> nodone g o -> (r_gen p <> g -> quiet g o) -> done_part ended p r d ->
  phase g (p :: r) (o ++ d) r.
Proof.
  unfold done_part. intros Hend Hn Hq Hd. unfold phase. cbn [genHasPending existsb].
  fold (genHasPending g r). destruct (Z.eqb_spec (r_gen p) g) as [Hg|Hg]; cbn [orb].
  - rewrite (Hend Hg), Hg in Hd. cbn [andb] in Hd. destruct (genHasPending g r); cbn [negb] in Hd.
    + subst d. rewrite app_nil_r. auto.
    + destruct Hd as (e & He & ->). right. split; [done|]. exists o, e, []. split_and!; try done. apply quiet_nil.
  - assert (quiet g (o ++ d)).
    { apply Forall_app. split; [by apply Hq|]. destruct (_ && _); [|subst d; apply quiet_nil].
      destruct Hd as (e & He & ->). by apply (is_done_quiet g (r_gen p)). }
    destruct (genHasPending g r); [left|]; auto using quiet_nodone.
Qed.

Lemma resolved_phase g p r s :
  g ∈ endedGens s -> chansClosed s = false -> phase g (p :: r) (mout (resolved p r) s) r.
Proof.
  intros Hg Hc. destruct (resolved_spec p r s) as (_ & _ & Ho). rewrite Hc, andb_true_r in Ho.
  change (mout (resolved p r) s) with ([] ++ mout (resolved p r) s).
  apply (phase_pop g (bool_decide (r_gen p ∈ endedGens s))); [|constructor|constructor|exact Ho].
  intros ->. by apply bool_decide_eq_true.
Qed.

Lemma clipped_phase g p r pcm s :
  g ∈ endedGens s -> chansClosed s = false -> phase g (p :: r) (mout (clipped p r pcm) s) r.
Proof.
  intros Hg Hc. destruct (clipped_spec p r pcm s) as (_ & _ & Ho). rewrite Hc in Ho.
  destruct Ho as (e & d & -> & He & Hd). change (e :: d) with ([e] ++ d).
  apply (phase_pop g (bool_decide (r_gen p ∈ endedGens s))); [| | |exact Hd].
  - intros ->. by apply bool_decide_eq_true.
  - repeat constructor. by eapply chunk_not_done.
  - intros Hne. eapply chunk_quiet; [exact He|]. done.
Qed.

Lemma drain_phase g l s :
  pending s = l -> g ∈ endedGens s -> chansClosed s = false ->
  phase g l (mout (drainClips l) s) (pending (mstate (drainClips l) s)).
Proof.
  revert s. induction l as [|p l IH]; intros s Hp Hg Hc.
  { cbn [drainClips]. rewrite mstate_ret, mout_ret, Hp. apply phase_same, quiet_nil. }
  destruct (r_pcm p) as [pcm|] eqn:Ep.
  2:{ cbn [drainClips]. rewrite Ep, mstate_ret, mout_ret, Hp. apply phase_same, quiet_nil. }
  destruct (drainClips_clip p l pcm s Ep) as [-> ->].
  destruct (clipped_spec p l pcm s) as ((R1 & _ & _ & R4 & _) & Hp' & _).
  eapply phase_app; [by apply clipped_phase|]. apply IH; [done|by rewrite R1|by rewrite R4].
Qed.

Lemma onFinal_phase g p r s :
  pending s = p :: r -> g ∈ endedGens s -> chansClosed s = false ->
  phase g (p :: r) (mout onFinal s) (pending (mstate onFinal s)).
Proof.
  intros Hp Hg Hc. destruct (onFinal_cons p r s Hp) as [-> ->].
  destruct (resolved_spec p r s) as ((R1 & _ & _ & R4 & _) & Hp' & _).
  eapply phase_app; [by apply resolved_phase|]. apply drain_phase; [done|by rewrite R1|by rewrite R4].
Qed.

Section generations.
Variable DecodeString : bytes -> option bytes.
Variable g : Z.

(** Labels that ask for no more audio of [g], nor end it. *)
Definition not_of (l : label) : Prop :=
  match l with LSpeak _ g' _ | LPlay _ _ g' | LEnd g' => g' <> g | _ => True end.

Definition ended_open (w : world) : Prop := g ∈ endedGens (cl w) /\ chansClosed (cl w) = false.

Lemma genHasPending_snoc l p : r_gen p <> g -> genHasPending g (l ++ [p]) = genHasPending g l.
Proof. intros H. unfold genHasPending. rewrite existsb_app. cbn. apply Z.eqb_neq in H. by rewrite H, !orb_false_r. Qed.

Lemma phase_snoc l p o l' : r_gen p <> g -> phase g (l ++ [p]) o l' -> phase g l o l'.
Proof. intros H. unfold phase. by rewrite genHasPending_snoc. Qed.

Lemma phase_snoc_r l p : r_gen p <> g -> phase g l [] (l ++ [p]).
Proof. intros H. unfold phase. rewrite genHasPending_snoc by done. destruct (genHasPending g l); [left|]; split; done || constructor. Qed.

Lemma quiet_none o : chunks o = [] -> dones o = [] -> quiet g o.
Proof.
  induction o as [|e o IH]; [constructor|].
  unfold chunks, dones. destruct e; cbn; try done; intros Hc Hd; constructor; try (by apply IH);
    (split; [intros [|]; congruence|intros (? & _ & [|]); congruence]).
Qed.

Local Abbreviation step := (step DecodeString).
Local Abbreviation run := (run DecodeString).

(** What a step of another generation does to [g]. *)
Lemma step_phase l w o w' :
  step l w = Some (o, w') -> inv w -> not_of l -> ended_open w' ->
  (g ∈ endedGens (cl w) -> ended_open w /\ phase g (pending (cl w)) o (pending (cl w'))).
Proof.
  intros H Hi Hl [Hg' Hc'] Hg. destruct l as [text g' ok|pcm text g'|g'|m| | | |]; cbn [TtsSpec.step] in H; cbn [not_of] in Hl.
  - unfold lift, runs in H. injection H as <- <-. cbn [cl] in *.
    set (ok' := ok && _) in *. destruct (Speak_spec text g' ok' ok' (cl w)) as (Es & Ec & Ed & _).
    rewrite Es in *. destruct (negb _ && negb _); (split; [by split|]).
    + apply (phase_app g _ [] (pending (cl w) ++ [mkReq g' (nextReq (cl w) + 1) text None])); [by apply phase_snoc_r|].
      apply phase_same. by apply quiet_none.
    + apply phase_same. by apply quiet_none.
  - unfold lift, runs in H. injection H as <- <-. cbn [cl] in *.
    pose proof (Play_spec pcm text g' (cl w)) as HP. cbv zeta in HP.
    destruct (negb _ && negb _); destruct HP as [Es Eo]; rewrite Es, Eo in *; [|split; [by split|apply phase_same, quiet_nil]].
    set (p := mkReq g' _ _ _) in *. set (s1 := (cl w) <| nextReq := nextReq (cl w) + 1 |> <| pending ::= _ |>) in *.
    destruct Hi as [Hn _ _]. destruct (numbered_snoc (cl w) s1 p) as [Hn' _]; [done..|].
    destruct (drain_spec (pending s1) s1 eq_refl Hn') as ((Q1 & _ & _ & Q4 & _) & _). rewrite Q4 in Hc'.
    split; [by split|]. apply (phase_snoc _ p); [done|]. by apply drain_phase.
  - unfold lift, runs in H. injection H as <- <-. cbn [cl] in *.
    destruct (EndGeneration_spec g' (cl w)) as (-> & _ & E3 & _ & Ho). rewrite E3 in Hc'. split; [by split|].
    apply phase_same. destruct (_ && _); [|rewrite Ho; apply quiet_nil]. destruct Ho as (e & He & ->).
    eapply is_done_quiet; [exact He|done].
  - destruct (chansClosed (cl w)) eqn:Hopen; [done|]. split; [by split|]. destruct (resolves m) eqn:Hm.
    + destruct (owed w) as [|p r] eqn:Hw; [done|]. destruct (owed_head w p r Hi Hw) as [q Hq].
      unfold lift, runs in H. injection H as <- <-. cbn [cl]. destruct (receive_resolves DecodeString m (cl w) Hm) as [-> ->].
      rewrite Hq. by apply onFinal_phase.
    + destruct (audio_of DecodeString m) as [raw|] eqn:Ha.
      * destruct (owed w) as [|p r] eqn:Hw; [done|]. destruct (owed_head w p r Hi Hw) as [q Hq].
        unfold lift, runs in H. injection H as <- <-. cbn [cl].
        destruct (receive_audio DecodeString m raw (cl w) Hm Ha) as [-> ->]. unfold peekReq. rewrite Hq.
        destruct (sendAudio_spec (chunk_of raw p) (cl w) Hopen) as [(-> & _) Hout]. rewrite Hq.
        assert (He : exists e, mout (sendAudio (chunk_of raw p)) (cl w) = [e] /\ (e = EAudio (chunk_of raw p) \/ e = EAudioFull (chunk_of raw p)))
          by naive_solver.
        destruct He as (e & -> & He). unfold phase. cbn [genHasPending existsb].
        destruct (Z.eqb_spec (r_gen p) g) as [Hpg|Hpg]; cbn [orb].
        -- left. split; [done|]. repeat constructor. by eapply chunk_not_done.
        -- fold (genHasPending g q). assert (quiet g [e]) by (by eapply chunk_quiet).
           destruct (genHasPending g q); [left|]; auto using quiet_nodone.
      * assert (H' : lift (runs (receive DecodeString m)) w (owed w) (broken w) = Some (o, w')) by (by destruct (owed w)).
        unfold lift, runs in H'. injection H' as <- <-. cbn [cl].
        destruct (receive_other DecodeString m (cl w) Hm Ha) as [-> ->]. apply phase_same, quiet_nil.
  - unfold lift, runs in H. injection H as <- <-. done.
  - unfold lift, runs in H. injection H as <- <-. cbn [cl] in *. unfold forceClose, upd, emit in *.
    rewrite mstate_read_seq in *. rewrite mout_read_seq. destruct (closed (cl w)); (split; [by split|apply phase_same]);
      repeat constructor; [intros [|]|intros (? & _ & [|])]; congruence.
  - unfold lift, runs in H. injection H as <- <-. cbn [cl] in *.
    destruct (recvAudio_spec (cl w)) as [(-> & _ & _ & _ & E5 & _) ->]. rewrite E5 in Hc'.
    split; [by split|apply phase_same, quiet_nil].
  - unfold lift, runs in H. injection H as <- <-. cbn [cl] in *.
    destruct (recvDone_spec (cl w)) as [(-> & _ & _ & _ & E5 & _) ->]. rewrite E5 in Hc'.
    split; [by split|apply phase_same, quiet_nil].
Qed.

(** Before [g] ends nothing says it is done. *)
Lemma done_part_nodone p r d s :
  g ∉ endedGens s -> done_part (bool_decide (r_gen p ∈ endedGens s)) p r d -> nodone g d.
Proof.
  unfold done_part. intros Hg. case_bool_decide as Hp; cbn [andb]; [|intros ->; constructor].
  destruct (negb _); [|intros ->; constructor]. intros (e & He & ->).
  apply quiet_nodone, (is_done_quiet g (r_gen p)); [done|]. by intros ->.
Qed.

Lemma resolved_nodone p r s : g ∉ endedGens s -> nodone g (mout (resolved p r) s).
Proof.
  intros Hg. destruct (resolved_spec p r s) as (_ & _ & Ho). destruct (chansClosed s).
  - rewrite andb_false_r in Ho. rewrite Ho. constructor.
  - rewrite andb_true_r in Ho. by apply (done_part_nodone p r _ s).
Qed.

Lemma clipped_nodone p r pcm s : g ∉ endedGens s -> nodone g (mout (clipped p r pcm) s).
Proof.
  intros Hg. destruct (clipped_spec p r pcm s) as (_ & _ & Ho). destruct (chansClosed s); [rewrite Ho; constructor|].
  destruct Ho as (e & d & -> & He & Hd). constructor; [by eapply chunk_not_done|]. by apply (done_part_nodone p r _ s).
Qed.

Lemma drain_nodone l s :
  g ∉ endedGens s -> g ∉ endedGens (mstate (drainClips l) s) /\ nodone g (mout (drainClips l) s).
Proof.
  revert s. induction l as [|p l IH]; intros s Hg; [split; [done|constructor]|].
  destruct (r_pcm p) as [pcm|] eqn:Ep; [|cbn [drainClips]; rewrite Ep; split; [done|constructor]].
  destruct (drainClips_clip p l pcm s Ep) as [-> ->].
  destruct (clipped_spec p l pcm s) as ((R1 & _) & _). destruct (IH (mstate (clipped p l pcm) s)) as [H1 H2]; [by rewrite R1|].
  split; [done|]. apply Forall_app. split; [by apply clipped_nodone|done].
Qed.

Lemma step_before l w o w' :
  step l w = Some (o, w') -> inv w -> l <> LEnd g -> g ∉ endedGens (cl w) -> g ∉ endedGens (cl w') /\ nodone g o.
Proof.
  intros H Hi Hl Hg. destruct l as [text g' ok|pcm text g'|g'|m| | | |]; cbn [TtsSpec.step] in H.
  - unfold lift, runs in H. injection H as <- <-. cbn [cl] in *.
    set (ok' := ok && _) in *. destruct (Speak_spec text g' ok' ok' (cl w)) as (-> & Ec & Ed & _).
    split; [by destruct (negb _ && negb _)|]. apply quiet_nodone. by apply quiet_none.
  - unfold lift, runs in H. injection H as <- <-. cbn [cl] in *.
    pose proof (Play_spec pcm text g' (cl w)) as HP. cbv zeta in HP.
    destruct (negb _ && negb _); destruct HP as [-> ->]; [by apply drain_nodone|split; [done|constructor]].
  - unfold lift, runs in H. injection H as <- <-. cbn [cl] in *.
    destruct (EndGeneration_spec g' (cl w)) as (_ & _ & _ & -> & Ho). assert (g <> g') by congruence.
    split; [set_solver|]. apply quiet_nodone. destruct (_ && _); [|rewrite Ho; apply quiet_nil]. destruct Ho as (e & He & ->).
    by eapply is_done_quiet.
  - destruct (chansClosed (cl w)) eqn:Hopen; [done|]. destruct (resolves m) eqn:Hm.
    + destruct (owed w) as [|p r] eqn:Hw; [done|]. destruct (owed_head w p r Hi Hw) as [q Hq].
      unfold lift, runs in H. injection H as <- <-. cbn [cl]. destruct (receive_resolves DecodeString m (cl w) Hm) as [-> ->].
      destruct (onFinal_cons p q _ Hq) as [-> ->]. destruct (resolved_spec p q (cl w)) as ((R1 & _) & _).
      destruct (drain_nodone q (mstate (resolved p q) (cl w))) as [D1 D2]; [by rewrite R1|].
      split; [done|]. apply Forall_app. split; [by apply resolved_nodone|done].
    + destruct (audio_of DecodeString m) as [raw|] eqn:Ha.
      * destruct (owed w) as [|p r] eqn:Hw; [done|].
        unfold lift, runs in H. injection H as <- <-. cbn [cl].
        destruct (receive_audio DecodeString m raw (cl w) Hm Ha) as [-> ->].
        destruct (sendAudio_spec (chunk_of raw (peekReq (cl w))) (cl w) Hopen) as [(_ & -> & _) Hout]. split; [done|].
        destruct Hout as [-> | ->]; (constructor; [eapply chunk_not_done; auto|constructor]).
      * assert (H' : lift (runs (receive DecodeString m)) w (owed w) (broken w) = Some (o, w')) by (by destruct (owed w)).
        unfold lift, runs in H'. injection H' as <- <-. cbn [cl].
        destruct (receive_other DecodeString m (cl w) Hm Ha) as [-> ->]. split; [done|constructor].
  - unfold lift, runs in H. injection H as <- <-. split; [done|constructor].
  - unfold lift, runs in H. injection H as <- <-. cbn [cl]. unfold forceClose, upd, emit.
    rewrite mstate_read_seq, mout_read_seq. destruct (closed (cl w)); (split; [done|]); repeat constructor. intros [|]; congruence.
  - unfold lift, runs in H. injection H as <- <-. cbn [cl]. destruct (recvAudio_spec (cl w)) as [(_ & -> & _) ->]. split; [done|constructor].
  - unfold lift, runs in H. injection H as <- <-. cbn [cl]. destruct (recvDone_spec (cl w)) as [(_ & -> & _) ->]. split; [done|constructor].
Qed.

Lemma step_ended l w o w' :
  step l w = Some (o, w') -> inv w -> g ∈ endedGens (cl w) -> g ∈ endedGens (cl w').
Proof.
  intros H Hi Hg. destruct l as [text g' ok|pcm text g'|g'|m| | | |]; cbn [TtsSpec.step] in H;
    try (unfold lift, runs in H; injection H as <- <-; cbn [cl]).
  - set (ok' := ok && _). destruct (Speak_spec text g' ok' ok' (cl w)) as (-> & _). by destruct (negb _ && negb _).
  - pose proof (Play_spec pcm text g' (cl w)) as HP. cbv zeta in HP.
    destruct (negb _ && negb _); destruct HP as [-> _]; [|done].
    set (s1 := (cl w) <| nextReq := nextReq (cl w) + 1 |> <| pending ::= _ |>).
    destruct Hi as [Hn _ _]. destruct (numbered_snoc (cl w) s1 (mkReq g' (nextReq (cl w) + 1) text (Some pcm))) as [Hn' _]; [done..|].
    by destruct (drain_spec (pending s1) s1 eq_refl Hn') as ((-> & _) & _).
  - destruct (EndGeneration_spec g' (cl w)) as (_ & _ & _ & -> & _). set_solver.
  - destruct (chansClosed (cl w)) eqn:Hopen; [done|]. destruct (resolves m) eqn:Hm.
    + destruct (owed w) as [|p r] eqn:Hw; [done|]. destruct (owed_head w p r Hi Hw) as [q Hq].
      unfold lift, runs in H. injection H as <- <-. cbn [cl]. destruct (receive_resolves DecodeString m (cl w) Hm) as [-> _].
      destruct Hi as [Hn _ _]. by destruct (onFinal_spec p q (cl w) Hq Hn) as ((-> & _) & _).
    + destruct (audio_of DecodeString m) as [raw|] eqn:Ha.
      * destruct (owed w) as [|p r] eqn:Hw; [done|]. unfold lift, runs in H. injection H as <- <-. cbn [cl].
        destruct (receive_audio DecodeString m raw (cl w) Hm Ha) as [-> _].
        by destruct (sendAudio_spec (chunk_of raw (peekReq (cl w))) (cl w) Hopen) as [(_ & -> & _) _].
      * assert (H' : lift (runs (receive DecodeString m)) w (owed w) (broken w) = Some (o, w')) by (by destruct (owed w)).
        unfold lift, runs in H'. injection H' as <- <-. cbn [cl]. by destruct (receive_other DecodeString m (cl w) Hm Ha) as [-> _].
  - done.
  - unfold forceClose, upd, emit. rewrite mstate_read_seq. by destruct (closed (cl w)).
  - by destruct (recvAudio_spec (cl w)) as [(_ & -> & _) _].
  - by destruct (recvDone_spec (cl w)) as [(_ & -> & _) _].
Qed.

Lemma run_phase ls w o w' :
  run ls w = Some (o, w') -> inv w -> Forall not_of ls -> g ∈ endedGens (cl w) -> chansClosed (cl w') = false ->
  chansClosed (cl w) = false /\ phase g (pending (cl w)) o (pending (cl w')).
Proof.
  revert w o. induction ls as [|l ls IH]; intros w o; cbn [TtsSpec.run].
  { intros [= <- <-] _ _ _ Hc. split; [done|apply phase_same, quiet_nil]. }
  destruct (step l w) as [[o1 w1]|] eqn:E1; [|done]. destruct (run ls w1) as [[o2 w2]|] eqn:E2; [|done].
  intros [= <- <-] Hi [Hl Hls]%Forall_cons Hg Hc.
  destruct (step_inv DecodeString l w o1 w1 E1 Hi) as [Hi1 _]. pose proof (step_ended l w o1 w1 E1 Hi Hg) as Hg1.
  destruct (IH w1 o2 E2 Hi1 Hls Hg1 Hc) as [Hc1 H2].
  destruct (step_phase l w o1 w1 E1 Hi Hl (conj Hg1 Hc1) Hg) as [[_ Hc0] H1].
  split; [done|]. by eapply phase_app.
Qed.

Lemma run_before ls w o w' :
  run ls w = Some (o, w') -> inv w -> LEnd g ∉ ls -> g ∉ endedGens (cl w) -> inv w' /\ g ∉ endedGens (cl w') /\ nodone g o.
Proof.
  revert w o. induction ls as [|l ls IH]; intros w o; cbn [TtsSpec.run].
  { intros [= <- <-]. intros Hi _ Hg. split_and!; [done|done|constructor]. }
  destruct (step l w) as [[o1 w1]|] eqn:E1; [|done]. destruct (run ls w1) as [[o2 w2]|] eqn:E2; [|done].
  intros [= <- <-] Hi [Hl Hls]%not_elem_of_cons Hg.
  destruct (step_inv DecodeString l w o1 w1 E1 Hi) as [Hi1 _].
  destruct (step_before l w o1 w1 E1 Hi (not_eq_sym Hl) Hg) as [Hg1 H1].
  destruct (IH w1 o2 E2 Hi1 Hls Hg1) as (Hi2 & Hg2 & H2). split_and!; try done. by apply Forall_app.
Qed.

Lemma tts_run_app l1 l2 w o w' :
  run (l1 ++ l2) w = Some (o, w') ->
  exists o1 w1 o2, run l1 w = Some (o1, w1) /\ run l2 w1 = Some (o2, w') /\ o = o1 ++ o2.
Proof.
  revert w o. induction l1 as [|l l1 IH]; intros w o; cbn [app TtsSpec.run]; [intros H; by exists [], w, o|].
  destruct (step l w) as [[oa wa]|]; [|done]. destruct (run (l1 ++ l2) wa) as [[ob wb]|] eqn:E; [|done].
  intros [= <- <-]. destruct (IH wa ob E) as (o1 & w1 & o2 & R1 & R2 & ->). exists (oa ++ o1), w1, o2. by rewrite R1, R2, app_assoc.
Qed.
End generations.


(** ** Runs *)

Definition decode_id (b : bytes) : option bytes := Some b.
Definition audio_msg (pcm : bytes) : inbound := mkInbound (bs "audio") pcm [].
Definition final_msg : inbound := mkInbound (bs "event") [] (bs "final").
Definition error_msg : inbound := mkInbound (bs "error") [] [].

(** A sentence, a clip, a rejected sentence; then the next generation. *)
Definition reply_before : list label := [LSpeak (bs "Hello. ") 1 true; LPlay [9] (bs "rec") 1; LSpeak (bs "Bye. ") 1 true].
Definition reply_after : list label :=
  [LSpeak (bs "Next. ") 2 true; LMsg (audio_msg [1]); LMsg (audio_msg [2]); LMsg final_msg; LMsg error_msg; LMsg (audio_msg [3])].
Definition reply_out : list effect :=
  [ESend (WText (bs "Hello. ")); ESend WFlush; ESend (WText (bs "Bye. ")); ESend WFlush;
   ESend (WText (bs "Next. ")); ESend WFlush;
   EAudio (mkChunk [1] 1 1 (bs "Hello. ")); EAudio (mkChunk [2] 1 1 (bs "Hello. "));
   EAudio (mkChunk [9] 1 2 (bs "rec")); EDone 1; EAudio (mkChunk [3] 2 4 (bs "Next. "))].



(** Two goroutines in [Speak] at once: both requests are queued, then the second
    one's text is written first. The provider speaks it first, and its audio is
    tagged as the first request's. *)
Example crossed_speaks :
  let m := (let! _ := speakQueue (bs "first ") 1 in let! _ := speakQueue (bs "second ") 2 in
            speakSend (bs "second ") true true ;; speakSend (bs "first ") true true ;;
            receive decode_id (audio_msg [7]))%m in
  mout m New = [ESend (WText (bs "second ")); ESend WFlush; ESend (WText (bs "first ")); ESend WFlush;
                EAudio (mkChunk [7] 1 1 (bs "first "))].
Proof. reflexivity. Qed.
