(* ===== verification/TtsReader.v ===== *)
(** [readTTS] of [internal/ai/agent/handler.go]: the goroutine between a TTS
    connection's two channels and the agent's event loop.

    [TtsClient] says what is sent on the channels, in what order; here the sends
    and the reader's steps interleave. A step of the reader is one [select]. A
    goroutine blocked in a [select] gets the next send directly, as Go's
    channels do it. *)

From Stdlib Require Import String.
From S2P Require Import Prelude Text Workflow Backchannel AgentState AgentLoop AgentFrame AgentRuns TtsClient.

Local Open Scope Z_scope.

(** What the client's goroutine still does with its channels: a send that went
    in (one that found the buffer full left no trace), or a close. *)
Inductive item := PAudio (c : Chunk) | PDone (gen : Z) | PCloseAudio | PCloseDone.

(** About to look at the audio; about to select; blocked there; sending an
    event to [run]; gone. *)
Inductive phase := RPeek | RSelect | RParked | RSend (e : event) | REnd.

Record reader := mkReader {
  todo : list item; audioQ : list Chunk; doneQ : list Z; audioClosed : bool; doneClosed : bool;
  audioNil : bool; doneNil : bool; at_ : phase; out : list event;
}.
#[global] Instance eta_reader : Eta reader := fun r =>
  mkReader (todo r) (audioQ r) (doneQ r) (audioClosed r) (doneClosed r) (audioNil r) (doneNil r) (at_ r) (out r).

Definition audioEvent (c : Chunk) : event := TTSAudio (TtsClient.PCM c) (Gen c) (Req c) (TtsClient.Text c).

(** [readTTS]'s start. *)
Definition reader0 (script : list item) : reader := mkReader script [] [] false false false false RPeek [].

(** The client's next action. *)
Definition push (r : reader) : option reader :=
  match todo r with
  | [] => None
  | i :: rest =>
      let r := r <| todo := rest |> in
      Some (match at_ r, i with
            | RParked, PAudio c => r <| at_ := RSend (audioEvent c) |>
            | RParked, PDone g => r <| at_ := RSend (TTSDone g) |>
            | RParked, PCloseAudio => r <| audioClosed := true |> <| audioNil := true |> <| at_ := RPeek |>
            | RParked, PCloseDone => r <| doneClosed := true |> <| doneNil := true |> <| at_ := RPeek |>
            | _, PAudio c => r <| audioQ ::= fun q => q ++ [c] |>
            | _, PDone g => r <| doneQ ::= fun q => q ++ [g] |>
            | _, PCloseAudio => r <| audioClosed := true |>
            | _, PCloseDone => r <| doneClosed := true |>
            end)
  end.

(** A receive from [audioCh] that is ready; from [doneCh]. *)
Definition recvAudio (r : reader) : option reader :=
  if audioNil r then None
  else match audioQ r with
       | c :: q => Some (r <| audioQ := q |> <| at_ := RSend (audioEvent c) |>)
       | [] => if audioClosed r then Some (r <| audioNil := true |> <| at_ := RPeek |>) else None
       end.
Definition recvDone (r : reader) : option reader :=
  if doneNil r then None
  else match doneQ r with
       | g :: q => Some (r <| doneQ := q |> <| at_ := RSend (TTSDone g) |>)
       | [] => if doneClosed r then Some (r <| doneNil := true |> <| at_ := RPeek |>) else None
       end.

Inductive label := LPush | LPeek | LSelectAudio | LSelectDone | LPark | LPost | LGone.

Definition step (conn : Z) (r : reader) (l : label) : option reader :=
  match l, at_ r with
  | LPush, _ => push r
  | LPeek, RPeek =>
      if audioNil r && doneNil r then Some (r <| at_ := REnd |> <| out ::= fun o => o ++ [TTSClosed conn] |>)
      else Some (match recvAudio r with Some r' => r' | None => r <| at_ := RSelect |> end)
  | LSelectAudio, RSelect => recvAudio r
  | LSelectDone, RSelect => recvDone r
  | LPark, RSelect => match recvAudio r, recvDone r with None, None => Some (r <| at_ := RParked |>) | _, _ => None end
  | LPost, RSend e => Some (r <| at_ := RPeek |> <| out ::= fun o => o ++ [e] |>)
  | LGone, RSelect | LGone, RParked | LGone, RSend _ => Some (r <| at_ := REnd |>)
  | _, _ => None
  end.

Fixpoint run (conn : Z) (r : reader) (ls : list label) : option reader :=
  match ls with [] => Some r | l :: ls => match step conn r l with Some r' => run conn r' ls | None => None end end.

(** ** Nothing is lost, and each channel keeps its order *)

Definition audios (l : list item) : list event := omap (fun i => match i with PAudio c => Some (audioEvent c) | _ => None end) l.
Definition dones (l : list item) : list event := omap (fun i => match i with PDone g => Some (TTSDone g) | _ => None end) l.
Definition is_audio (e : event) : bool := match e with TTSAudio _ _ _ _ => true | _ => false end.
Definition is_done (e : event) : bool := match e with TTSDone _ => true | _ => false end.
Definition pending (r : reader) : list event := match at_ r with RSend e => [e] | _ => [] end.

(** The events forwarded, with the one being forwarded. *)
Definition given (r : reader) : list event := out r ++ pending r.

(** A script closes each channel once at most and sends nothing on it after. *)
Fixpoint ok (a d : bool) (l : list item) : Prop :=
  match l with
  | [] => True
  | PAudio _ :: r => a = false /\ ok a d r
  | PDone _ :: r => d = false /\ ok a d r
  | PCloseAudio :: r => a = false /\ ok true d r
  | PCloseDone :: r => d = false /\ ok a true r
  end.

(** What of the audio, and of the ends, has been sent on the channels. *)
Definition audioView (r : reader) : list event := List.filter is_audio (given r) ++ map audioEvent (audioQ r).
Definition doneView (r : reader) : list event := List.filter is_done (given r) ++ map TTSDone (doneQ r).

Definition idle (r : reader) : Prop := pending r = [].

Record wf (script : list item) (r : reader) : Prop := {
  w_sent : exists sent, script = sent ++ todo r /\ audios sent = audioView r /\ dones sent = doneView r;
  w_ok : ok (audioClosed r) (doneClosed r) (todo r);
  w_anil : audioNil r = true -> audioClosed r = true /\ audioQ r = [];
  w_dnil : doneNil r = true -> doneClosed r = true /\ doneQ r = [];
  w_open : at_ r = RSelect \/ at_ r = RParked -> audioNil r && doneNil r = false;
  w_parked : at_ r = RParked -> audioQ r = [] /\ doneQ r = [] /\ audioNil r = audioClosed r /\ doneNil r = doneClosed r;
}.

Lemma audios_app a b : audios (a ++ b) = audios a ++ audios b.
Proof. apply omap_app. Qed.
Lemma audio_dones_app a b : dones (a ++ b) = dones a ++ dones b.
Proof. apply omap_app. Qed.

Lemma wf_reader0 script : ok false false script -> wf script (reader0 script).
Proof. intros H. constructor; try done. by exists []. Qed.

Lemma push_view r r' i rest :
  todo r = i :: rest -> push r = Some r' -> (at_ r = RParked -> audioQ r = [] /\ doneQ r = []) ->
  todo r' = rest /\ audioView r' = audioView r ++ audios [i] /\ doneView r' = doneView r ++ dones [i].
Proof.
  unfold push, audioView, doneView, given, pending. intros -> H Hp. destruct (at_ r) eqn:Ea; [| |destruct (Hp eq_refl) as [Eq Ed]| |];
    destruct i; injection H as <-; simpl; rewrite ?Ea, ?Eq, ?Ed, ?map_app, ?List.filter_app; simpl; rewrite ?Ea, ?Eq, ?Ed; simpl; by rewrite ?map_app, ?app_nil_r, <- ?app_assoc.
Qed.

Lemma wf_push script r r' : wf script r -> push r = Some r' -> wf script r'.
Proof.
  intros [(sent & Hs & Ha & Hd) Hok Han Hdn Ho Hp] H. destruct (todo r) as [|i rest] eqn:Et; [by unfold push in H; rewrite Et in H|].
  destruct (push_view r r' i rest Et H) as (Vt & Va & Vd); [intros E; by destruct (Hp E) as (? & ? & _)|].
  assert (exists sent, script = sent ++ todo r' /\ audios sent = audioView r' /\ dones sent = doneView r') as Hsent.
  { exists (sent ++ [i]). rewrite Vt, Va, Vd, audios_app, audio_dones_app, Ha, Hd, <- app_assoc. done. }
  unfold push in H. rewrite Et in H. destruct i; simpl in Hok; destruct Hok as [Hc Hok];
    destruct (at_ r) eqn:Eat; injection H as <-; (constructor; [exact Hsent|..]; simpl in *; rewrite ?Eat;
      first [done | intros [E|E]; change (at_ r = RSelect) in E || change (at_ r = RParked) in E; first [congruence|apply Ho; auto; fail] | intros [E|E]; discriminate E | intros E; change (at_ r = RParked) in E; congruence | intros E; discriminate E | exact Hok | exact Han | exact Hdn | intros E; destruct (Han E); first [congruence | by split]
            | intros E; destruct (Hdn E); first [congruence | by split] | intros _; destruct (Hp eq_refl) as (? & ? & _); by split]).
Qed.

Lemma recvAudio_wf script r r' : wf script r -> at_ r = RPeek \/ at_ r = RSelect -> recvAudio r = Some r' -> wf script r'.
Proof.
  intros [Hsent Hok Han Hdn Ho Hp] Hat. unfold recvAudio. destruct (audioNil r) eqn:En; [done|].
  assert (Hpend : pending r = []) by (unfold pending; by destruct Hat as [->| ->]).
  destruct (audioQ r) as [|c q] eqn:Eq; [destruct (audioClosed r) eqn:Ec; [|done]|]; intros [= <-]; (constructor; simpl; [|first [exact Hok|rewrite Ec; exact Hok|exact Han|exact Hdn|intros E; discriminate E|intros [E|E]; discriminate E|intros E; congruence|intros _; split; congruence]..]).
  - destruct Hsent as (sent & ? & Ha & Hd). exists sent. unfold audioView, doneView, given in *. simpl. rewrite Hpend in *. done.
  - destruct Hsent as (sent & ? & Ha & Hd). exists sent. unfold audioView, doneView, given in *. simpl. rewrite Hpend, Eq in *. simpl in *.
    rewrite app_nil_r in *. rewrite !List.filter_app. simpl. rewrite app_nil_r, <- app_assoc. done.
Qed.

Lemma recvDone_wf script r r' : wf script r -> at_ r = RPeek \/ at_ r = RSelect -> recvDone r = Some r' -> wf script r'.
Proof.
  intros [Hsent Hok Han Hdn Ho Hp] Hat. unfold recvDone. destruct (doneNil r) eqn:En; [done|].
  assert (Hpend : pending r = []) by (unfold pending; by destruct Hat as [->| ->]).
  destruct (doneQ r) as [|c q] eqn:Eq; [destruct (doneClosed r) eqn:Ec; [|done]|]; intros [= <-]; (constructor; simpl; [|first [exact Hok|rewrite Ec; exact Hok|exact Han|exact Hdn|intros E; discriminate E|intros [E|E]; discriminate E|intros E; congruence|intros _; split; congruence]..]).
  - destruct Hsent as (sent & ? & Ha & Hd). exists sent. unfold audioView, doneView, given in *. simpl. rewrite Hpend in *. done.
  - destruct Hsent as (sent & ? & Ha & Hd). exists sent. unfold audioView, doneView, given in *. simpl. rewrite Hpend, Eq in *. simpl in *.
    rewrite app_nil_r in *. rewrite !List.filter_app. simpl. rewrite app_nil_r, <- app_assoc. done.
Qed.

Lemma reader_wf_step script conn r l r' : wf script r -> l <> LGone -> step conn r l = Some r' -> wf script r'.
Proof.
  intros W Hl. pose proof W as [(sent & Hs & Ha & Hd) Hok Han Hdn Ho Hp]. unfold step. destruct l; try done; [by intros H; apply (wf_push _ r)|..].
  - destruct (at_ r) eqn:Eat; try done. destruct (audioNil r && doneNil r) eqn:En.
    + intros [= <-]. apply andb_true_iff in En as [En Em]. destruct (Han En), (Hdn Em). constructor; simpl; try done; [|by intros [?|?]].
      exists sent. split; [done|]. unfold audioView, doneView, given, pending in *. simpl. rewrite Eat in *. rewrite !app_nil_r in *.
      rewrite !List.filter_app. simpl. by rewrite !app_nil_r.
    + destruct (recvAudio r) as [r1|] eqn:Er; intros [= <-]; [apply (recvAudio_wf _ r); auto|].
      constructor; simpl; try done. exists sent. unfold audioView, doneView, given, pending in *. simpl. by rewrite Eat in *.
  - destruct (at_ r) eqn:Eat; try done. apply recvAudio_wf; auto.
  - destruct (at_ r) eqn:Eat; try done. apply recvDone_wf; auto.
  - destruct (at_ r) eqn:Eat; try done. destruct (recvAudio r) eqn:E1; [done|]. destruct (recvDone r) eqn:E2; [done|]. intros [= <-].
    constructor; simpl; try done; [|by intros _; apply Ho; left|].
    + exists sent. unfold audioView, doneView, given, pending in *. simpl. by rewrite Eat in *.
    + intros _. unfold recvAudio in E1. unfold recvDone in E2. destruct (audioNil r) eqn:En; destruct (doneNil r) eqn:Em;
        try (destruct (Han eq_refl) as [-> ->]); try (destruct (Hdn eq_refl) as [-> ->]); destruct (audioQ r), (doneQ r), (audioClosed r), (doneClosed r); try done.
  - destruct (at_ r) eqn:Eat; try done. intros [= <-]. constructor; simpl; try done; [|by intros [?|?]].
    exists sent. unfold audioView, doneView, given, pending in *. simpl. rewrite Eat in *. by rewrite !app_nil_r.
Qed.

Lemma reader_wf_run script conn r ls r' : wf script r -> LGone ∉ ls -> run conn r ls = Some r' -> wf script r'.
Proof.
  revert r. induction ls as [|l ls IH]; intros r W Hl; cbn [run]; [by intros [= <-]|]. apply not_elem_of_cons in Hl as [Hl Hls].
  destruct (step conn r l) as [r1|] eqn:E; [|done]. apply IH; [by apply (reader_wf_step _ conn r l)|done].
Qed.

(** ** It ends *)

Definition phase_weight (p : phase) : nat := match p with RSend _ => 4 | RPeek => 3 | RSelect => 2 | RParked => 1 | REnd => 0 end.
Definition open_weight (nil : bool) : nat := if nil then 0 else 4.
(** What the reader and the client can still do. *)
Definition measure (r : reader) : nat :=
  5 * length (todo r) + 4 * (length (audioQ r) + length (doneQ r)) + open_weight (audioNil r) + open_weight (doneNil r) + phase_weight (at_ r).

Lemma recvAudio_measure r r' : recvAudio r = Some r' -> (2 <= phase_weight (at_ r))%nat -> (measure r' < measure r)%nat.
Proof.
  unfold recvAudio, measure. destruct (audioNil r) eqn:En; [done|]. destruct (audioQ r) as [|c q] eqn:Eq; [destruct (audioClosed r); [|done]|];
    intros [= <-] Hw; simpl; rewrite ?Eq, ?En; simpl; lia.
Qed.

Lemma recvDone_measure r r' : recvDone r = Some r' -> (2 <= phase_weight (at_ r))%nat -> (measure r' < measure r)%nat.
Proof.
  unfold recvDone, measure. destruct (doneNil r) eqn:En; [done|]. destruct (doneQ r) as [|c q] eqn:Eq; [destruct (doneClosed r); [|done]|];
    intros [= <-] Hw; simpl; rewrite ?Eq, ?En; simpl; lia.
Qed.

Lemma step_measure conn r l r' : step conn r l = Some r' -> at_ r = REnd \/ (measure r' < measure r)%nat.
Proof.
  unfold step. destruct l.
  - destruct r as [td aq dq ac dc an dn p o]. unfold push, measure. simpl. destruct td as [|i rest]; [done|]. intros H. right.
    destruct p, i; injection H as <-; simpl; rewrite ?length_app; simpl; lia || (destruct an, dn; simpl; lia).
  - destruct (at_ r) eqn:Ea; try done. destruct (_ && _) eqn:En.
    + intros [= <-]. right. unfold measure. simpl. rewrite Ea. simpl. lia.
    + destruct (recvAudio r) as [r1|] eqn:Er; intros [= <-]; right; [apply recvAudio_measure; [done|rewrite Ea; simpl; lia]|].
      unfold measure. simpl. rewrite Ea. simpl. lia.
  - destruct (at_ r) eqn:Ea; try done. intros H. right. apply recvAudio_measure; [done|rewrite Ea; simpl; lia].
  - destruct (at_ r) eqn:Ea; try done. intros H. right. apply recvDone_measure; [done|rewrite Ea; simpl; lia].
  - destruct (at_ r) eqn:Ea; try done. destruct (recvAudio r); [done|]. destruct (recvDone r); [done|]. intros [= <-]. right.
    unfold measure. simpl. rewrite Ea. simpl. lia.
  - destruct (at_ r) eqn:Ea; try done. intros [= <-]. right. unfold measure. simpl. rewrite Ea. simpl. lia.
  - destruct r as [td aq dq ac dc an dn p o]. unfold measure. simpl. destruct p; try done; intros [= <-]; simpl; first [by left|right; lia].
Qed.

(** Both channels are closed, now or by what the client still does. *)
Definition closing (r : reader) : Prop := (audioClosed r = true \/ PCloseAudio ∈ todo r) /\ (doneClosed r = true \/ PCloseDone ∈ todo r).

Lemma closing_step conn r l r' : closing r -> step conn r l = Some r' -> closing r'.
Proof.
  intros [Ha Hd]. unfold step, closing. destruct l.
  - destruct r as [td aq dq ac dc an dn p o]. unfold push. simpl in *. destruct td as [|i rest]; [done|]. intros H.
    destruct p, i; injection H as <-; simpl;
      (split; [destruct Ha as [Ha|[Ha|Ha]%elem_of_cons]|destruct Hd as [Hd|[Hd|Hd]%elem_of_cons]]); solve [by left|by right|discriminate].
  - destruct (at_ r) eqn:Ea; try done. destruct (_ && _) eqn:En; [by intros [= <-]|]. unfold recvAudio.
    destruct (audioNil r); [by intros [= <-]|]. destruct (audioQ r); [|by intros [= <-]]. destruct (audioClosed r) eqn:Ec; intros [= <-]; simpl; rewrite ?Ec; auto.
  - destruct (at_ r) eqn:Ea; try done. unfold recvAudio. destruct (audioNil r); [done|]. destruct (audioQ r); [|by intros [= <-]]. destruct (audioClosed r) eqn:Ec; intros [= <-]; simpl; rewrite ?Ec; auto.
  - destruct (at_ r) eqn:Ea; try done. unfold recvDone. destruct (doneNil r); [done|]. destruct (doneQ r); [|by intros [= <-]]. destruct (doneClosed r) eqn:Ec; intros [= <-]; simpl; rewrite ?Ec; auto.
  - destruct (at_ r) eqn:Ea; try done. destruct (recvAudio r); [done|]. destruct (recvDone r); [done|]. by intros [= <-].
  - destruct (at_ r) eqn:Ea; try done. by intros [= <-].
  - destruct (at_ r) eqn:Ea; try done; by intros [= <-].
Qed.

Lemma progress script conn r : wf script r -> closing r -> at_ r = REnd \/ exists l r', l <> LGone /\ step conn r l = Some r'.
Proof.
  intros [_ Hok Han Hdn Ho Hp] [Ha Hd]. destruct (at_ r) eqn:Eat; [right..|by left].
  - exists LPeek. unfold step. rewrite Eat. destruct (_ && _); eexists; (split; [done|reflexivity]).
  - destruct (recvAudio r) as [r1|] eqn:E1; [exists LSelectAudio, r1; split; [done|]; unfold step; by rewrite Eat|].
    destruct (recvDone r) as [r1|] eqn:E2; [exists LSelectDone, r1; split; [done|]; unfold step; by rewrite Eat|].
    exists LPark. unfold step. rewrite Eat, E1, E2. by eexists.
  - destruct (todo r) as [|i rest] eqn:Et.
    + exfalso. destruct Ha as [Ha|Ha%elem_of_nil]; [|done]. destruct Hd as [Hd|Hd%elem_of_nil]; [|done].
      destruct (Hp eq_refl) as (_ & _ & Hn & Hm). rewrite Ha in Hn. rewrite Hd in Hm. specialize (Ho (or_intror eq_refl)). by rewrite Hn, Hm in Ho.
    + exists LPush. unfold step, push. rewrite Et. by eexists.
  - exists LPost. unfold step. rewrite Eat. by eexists.
Qed.

Lemma ends_somehow script conn r : wf script r -> closing r -> exists ls r', LGone ∉ ls /\ run conn r ls = Some r' /\ at_ r' = REnd.
Proof.
  remember (measure r) as n eqn:Hn. revert r Hn. induction n as [n IH] using lt_wf_ind. intros r -> W C.
  destruct (decide (measure r = measure r)) as [_|]; [|done]. destruct (progress script conn r W C) as [H|(l & r1 & Hl & Hs)]; [exists [], r; split; [apply not_elem_of_nil|done]|].
  destruct (step_measure _ _ _ _ Hs) as [He|Hm]; [exists [], r; split; [apply not_elem_of_nil|done]|].
  destruct (IH _ Hm r1 eq_refl) as (ls & r2 & Hg & Hr & He); [by apply (reader_wf_step _ conn r l)|by apply (closing_step conn r l)|].
  exists (l :: ls), r2. split; [by apply not_elem_of_cons|]. cbn [run]. by rewrite Hs.
Qed.

Lemma run_app_reader conn r ls1 ls2 : run conn r (ls1 ++ ls2) = match run conn r ls1 with Some r' => run conn r' ls2 | None => None end.
Proof. revert r. induction ls1 as [|l ls1 IH]; intros r; [done|]. cbn [run app]. destruct (step conn r l); [apply IH|done]. Qed.

Definition ended (conn : Z) (r : reader) : Prop := at_ r = REnd -> audioNil r = true /\ doneNil r = true /\ exists o, out r = o ++ [TTSClosed conn].

Lemma ended_step script conn r l r' : wf script r -> ended conn r -> l <> LGone -> step conn r l = Some r' -> ended conn r'.
Proof.
  intros W He Hl. unfold step. destruct l; try done.
  - destruct W as [_ Hok Han Hdn _ _]. destruct r as [td aq dq ac dc an dn p o]. unfold push, ended in *. simpl in *. destruct td as [|i rest]; [done|]. intros H.
    destruct p, i; injection H as <-; simpl in *; try done; intros E; destruct (He E) as (Hn & Hm & Ho);
      destruct (Han Hn) as [Hc _], (Hdn Hm) as [Hd _]; rewrite Hc, Hd in Hok; by destruct Hok.
  - destruct (at_ r) eqn:Ea; try done. destruct (_ && _) eqn:En.
    + intros [= <-] _. apply andb_true_iff in En as [E1 E2]. simpl. split; [done|]. split; [done|]. by eexists.
    + unfold recvAudio. destruct (audioNil r); [by intros [= <-]|]. destruct (audioQ r); [destruct (audioClosed r)|]; by intros [= <-].
  - destruct (at_ r) eqn:Ea; try done. unfold recvAudio. destruct (audioNil r); [done|]. destruct (audioQ r); [destruct (audioClosed r)|]; by intros [= <-].
  - destruct (at_ r) eqn:Ea; try done. unfold recvDone. destruct (doneNil r); [done|]. destruct (doneQ r); [destruct (doneClosed r)|]; by intros [= <-].
  - destruct (at_ r) eqn:Ea; try done. destruct (recvAudio r); [done|]. destruct (recvDone r); [done|]. by intros [= <-].
  - destruct (at_ r) eqn:Ea; try done. by intros [= <-].
Qed.

Lemma reach_run script conn r ls r' :
  wf script r -> ended conn r -> closing r -> LGone ∉ ls -> run conn r ls = Some r' -> wf script r' /\ ended conn r' /\ closing r'.
Proof.
  revert r. induction ls as [|l ls IH]; intros r W E C Hl; cbn [run]; [by intros [= <-]|]. apply not_elem_of_cons in Hl as [Hl Hls].
  destruct (step conn r l) as [r1|] eqn:Es; [|done].
  apply IH; [by apply (reader_wf_step _ conn r l)|by apply (ended_step script conn r l)|by apply (closing_step conn r l)|done].
Qed.

Lemma views_prefix script r :
  wf script r -> (exists rest, audios script = List.filter is_audio (out r) ++ rest) /\ (exists rest, dones script = List.filter is_done (out r) ++ rest).
Proof.
  intros [(sent & -> & Ha & Hd) _ _ _ _ _]. rewrite audios_app, audio_dones_app, Ha, Hd. unfold audioView, doneView, given. rewrite !List.filter_app, <- !app_assoc.
  split; by eexists.
Qed.

(** While the call lives, the reader forwards the audio in the order it
    came and the ends in theirs, each once; and however sends and reads
    interleave, a connection that closes its channels leads, from anywhere, to
    the reader's end, when everything sent was forwarded and the event loop is
    told last that the connection is gone. *)
Theorem reader_forwards (script : list item) (conn : Z) (ls : list label) (r : reader) :
  ok false false script -> PCloseAudio ∈ script -> PCloseDone ∈ script -> LGone ∉ ls -> run conn (reader0 script) ls = Some r ->
  (exists rest, audios script = List.filter is_audio (out r) ++ rest) /\
  (exists rest, dones script = List.filter is_done (out r) ++ rest) /\
  exists ls' r', LGone ∉ ls' /\ run conn r ls' = Some r' /\ at_ r' = REnd /\
    List.filter is_audio (out r') = audios script /\ List.filter is_done (out r') = dones script /\ exists o, out r' = o ++ [TTSClosed conn].
Proof.
  intros Hok Hca Hcd Hl H. apply (reach_run script) in H as (W & E & C); [|by apply wf_reader0|by intros ?|by split; right|done].
  destruct (views_prefix _ _ W) as [Hpa Hpd]. split; [done|]. split; [done|].
  destruct (ends_somehow _ conn _ W C) as (ls' & r' & Hg & Hr & He). exists ls', r'. do 3 (split; [done|]).
  apply (reach_run script) in Hr as (W' & E' & _); [|done..]. destruct (E' He) as (Hn & Hm & Ho).
  destruct (w_anil _ _ W' Hn) as [Hc Hq], (w_dnil _ _ W' Hm) as [Hd Hdq]. destruct W' as [(sent & Hs & Ha & Hdn) Hok' _ _ _ _].
  rewrite Hc, Hd in Hok'. assert (todo r' = []) as Ht by (destruct (todo r') as [|[] ?]; simpl in Hok'; [done|by destruct Hok'..]).
  rewrite Ht, app_nil_r in Hs. subst sent. unfold audioView, doneView, given, pending in *. rewrite He, Hq, Hdq in *. simpl in *. rewrite !app_nil_r in *. done.
Qed.

(** ** An end does not overtake its audio, unless... *)

(** The audio sent before the k-th end. *)
Fixpoint before (l : list item) (k : nat) : nat :=
  match l with
  | [] => 0
  | PAudio _ :: r => S (before r k)
  | PDone _ :: r => match k with O => O | S k => before r k end
  | _ :: r => before r k
  end.

(** Each end forwarded comes after all the audio sent before it. *)
Definition timely (script : list item) (o : list event) : Prop :=
  forall pre g post, o = pre ++ TTSDone g :: post -> (before script (length (List.filter is_done pre)) <= length (List.filter is_audio pre))%nat.

(** Nothing is sent between the reader's look at the audio and its select. *)
Fixpoint unraced (conn : Z) (r : reader) (ls : list label) : Prop :=
  match ls with
  | [] => True
  | l :: ls => (l = LPush -> at_ r <> RSelect) /\ match step conn r l with Some r' => unraced conn r' ls | None => True end
  end.

Lemma before_app a b k : (k < length (dones a))%nat -> (before (a ++ b) k <= length (audios a))%nat.
Proof.
  revert k. induction a as [|i a IH]; intros k H; [simpl in H; lia|]. destruct i; simpl in *.
  - specialize (IH k H). lia.
  - destruct k as [|k]; [lia|]. apply IH. lia.
  - by apply IH.
  - by apply IH.
Qed.

Lemma before_at a g b : before (a ++ PDone g :: b) (length (dones a)) = length (audios a).
Proof. induction a as [|[] a IH]; simpl; congruence. Qed.

Lemma timely_front script a b : timely script (a ++ b) -> timely script a.
Proof. intros H pre g post ->. apply (H pre g (post ++ b)). by rewrite <- app_assoc. Qed.

Lemma timely_snoc script o e :
  timely script o -> (forall g, e = TTSDone g -> (before script (length (List.filter is_done o)) <= length (List.filter is_audio o))%nat) -> timely script (o ++ [e]).
Proof.
  intros H He pre g post E. destruct (decide (post = [])) as [->|Hne].
  - apply app_inj_tail in E as [-> ->]. by apply (He g).
  - destruct (exists_last Hne) as (p' & e' & ->). rewrite app_comm_cons, app_assoc in E. apply app_inj_tail in E as [-> _]. by apply (H _ g p').
Qed.

Definition keeping (script : list item) (r : reader) : Prop := timely script (given r) /\ (at_ r = RSelect -> audioQ r = []).

Lemma recvAudio_keeping script r r' : keeping script r -> at_ r = RPeek \/ at_ r = RSelect -> recvAudio r = Some r' -> keeping script r'.
Proof.
  intros [Ht Hq] Hat. unfold recvAudio. destruct (audioNil r); [done|]. assert (Hp : pending r = []) by (unfold pending; by destruct Hat as [->| ->]).
  unfold given in Ht. rewrite Hp, app_nil_r in Ht.
  destruct (audioQ r); [destruct (audioClosed r); [|done]|]; intros [= <-]; (split; [|done]); unfold given, pending; simpl; [by rewrite app_nil_r|by apply timely_snoc].
Qed.

Lemma keeping_step script conn r l r' :
  wf script r -> keeping script r -> l <> LGone -> (l = LPush -> at_ r <> RSelect) -> step conn r l = Some r' -> keeping script r'.
Proof.
  intros W K Hl Hr. pose proof K as [Ht Hq]. pose proof W as [(sent & Hs & Ha & Hd) _ _ _ _ Hpk]. unfold step. destruct l; try done.
  - clear W K. destruct r as [td aq dq ac dc an dn p o]. unfold push, keeping, given, pending, audioView, doneView in *. simpl in *.
    destruct td as [|i rest]; [done|]. intros H. destruct p; [| |destruct (Hpk eq_refl) as (-> & -> & _)| |]; destruct i; injection H as <-; simpl in *;
      rewrite ?app_nil_r in *; try done; try (by destruct (Hr eq_refl)); (split; [apply timely_snoc; [done|]|done]); intros g' Hg; [done|].
    unfold given, pending in Ha, Hd. simpl in Ha, Hd. rewrite app_nil_r in Ha, Hd. rewrite Hs, <- Ha, <- Hd, before_at. done.
  - destruct (at_ r) eqn:Ea; try done. destruct (_ && _).
    + intros [= <-]. split; [|done]. unfold given, pending in *. simpl. rewrite Ea, app_nil_r in *. by apply timely_snoc.
    + destruct (recvAudio r) as [r1|] eqn:Er; intros [= <-]; [apply (recvAudio_keeping _ r); auto|].
      split; [unfold given, pending in *; simpl; by rewrite Ea in Ht|]. intros _. simpl. unfold recvAudio in Er. destruct (audioNil r) eqn:En.
      * by destruct (w_anil _ _ W En).
      * by destruct (audioQ r).
  - destruct (at_ r) eqn:Ea; try done. apply recvAudio_keeping; auto.
  - destruct (at_ r) eqn:Ea; try done. unfold recvDone. destruct (doneNil r); [done|]. unfold keeping, audioView, doneView, given, pending in *. rewrite Ea, ?app_nil_r in *.
    destruct (doneQ r) as [|g q] eqn:Eq; [destruct (doneClosed r); [|done]|]; intros [= <-]; simpl; (split; [|done]); [by rewrite app_nil_r|].
    apply timely_snoc; [done|]. intros g' _. rewrite (Hq eq_refl) in Ha. simpl in Ha. rewrite app_nil_r in Ha. rewrite Hs, <- Ha. apply before_app.
    rewrite Hd, length_app. simpl. lia.
  - destruct (at_ r) eqn:Ea; try done. destruct (recvAudio r); [done|]. destruct (recvDone r); [done|]. intros [= <-]. split; [|done].
    unfold given, pending in *. simpl. by rewrite Ea in Ht.
  - destruct (at_ r) eqn:Ea; try done. intros [= <-]. split; [|done]. unfold given, pending in *. simpl. rewrite Ea in Ht. by rewrite app_nil_r.
Qed.

Lemma timely_run script conn r ls r' :
  wf script r -> keeping script r -> LGone ∉ ls -> unraced conn r ls -> run conn r ls = Some r' -> keeping script r'.
Proof.
  revert r. induction ls as [|l ls IH]; intros r W K Hl Hu; cbn [run]; [by intros [= <-]|]. apply not_elem_of_cons in Hl as [Hl Hls].
  cbn [unraced] in Hu. destruct Hu as [Hr Hu]. destruct (step conn r l) as [r1|] eqn:Es; [|done].
  apply IH; [by apply (reader_wf_step _ conn r l)|by apply (keeping_step script conn r l)|done..].
Qed.

(** C13: as long as nothing is sent between the reader's look at the audio and
    its select, no end of a generation reaches the event loop before audio sent
    ahead of it. *)
Theorem ends_after_audio (script : list item) (conn : Z) (ls : list label) (r : reader) :
  ok false false script -> LGone ∉ ls -> unraced conn (reader0 script) ls -> run conn (reader0 script) ls = Some r -> timely script (out r).
Proof.
  intros Hok Hl Hu H. assert (K : keeping script (reader0 script)) by (split; [by intros [] ? ?|done]).
  destruct (timely_run script conn _ _ _ (wf_reader0 _ Hok) K Hl Hu H) as [Ht _]. by apply timely_front in Ht.
Qed.

(** ** Examples *)

Definition ex_chunk : Chunk := mkChunk (AgentRuns.pcm 1 2) 1 1 (bs "one").
Definition ex_script : list item := [PAudio (mkChunk [1; 0] 1 1 (bs "one")); PDone 1; PCloseAudio; PCloseDone].

(** The reader parked: the end follows its audio. *)
Abbreviation in_time := [LPeek; LPark; LPush; LPost; LPeek; LPark; LPush; LPost; LPeek; LPark; LPush; LPeek; LPark; LPush; LPeek].
(** The audio and its end sent between the look and the select. *)
Abbreviation overtaking := [LPeek; LPush; LPush; LSelectDone; LPost; LPeek; LPost].

Definition names (o : list event) : list string :=
  map (fun e => match e with TTSAudio _ _ _ _ => "audio" | TTSDone _ => "done" | _ => "closed" end)%string o.

Example in_time_ex : (fun r => names (out r)) <$> run 1 (reader0 ex_script) in_time = Some ["audio"; "done"; "closed"]%string.
Proof. vm_compute. reflexivity. Qed.

Example end_overtakes : (fun r => names (out r)) <$> run 1 (reader0 ex_script) overtaking = Some ["done"; "audio"]%string.
Proof. vm_compute. reflexivity. Qed.

(** The agent, told of the end first, never plays the reply. *)
Definition replied (evs : list event) : list Z :=
  AgentRuns.marks (played (run_from (NewHandler node0) (ev 1 OpeningEv :: map (ev 2) evs)) [tick 4; tick 5; tick 6; tick 7]).
Example overtaken_reply_lost :
  (replied [audioEvent ex_chunk; TTSDone 1], replied [TTSDone 1; audioEvent ex_chunk]) = ([1; 1], []).
Proof. vm_compute. reflexivity. Qed.

#[global] Instance label_dec : EqDecision label.
Proof. solve_decision. Defined.

Example in_time_runs : exists r, run 1 (reader0 ex_script) in_time = Some r.
Proof. vm_compute. by eexists. Qed.
Example in_time_alive : LGone ∉ in_time.
Proof. apply (bool_decide_unpack _). by vm_compute. Qed.
Example in_time_unraced : unraced 1 (reader0 ex_script) in_time.
Proof. vm_compute. repeat (split; [intros E; first [discriminate E|intros E'; discriminate E']|]). exact I. Qed.
Example ex_script_ok : ok false false ex_script.
Proof. by cbn. Qed.
Example ex_script_closes : PCloseAudio ∈ ex_script /\ PCloseDone ∈ ex_script.
Proof. unfold ex_script. rewrite !elem_of_cons. auto 10. Qed.

Lemma reader_forwards_witness : exists r, run 1 (reader0 ex_script) in_time = Some r /\ exists rest, audios ex_script = List.filter is_audio (out r) ++ rest.
Proof.
  destruct in_time_runs as [r Hr]. exists r. split; [exact Hr|]. destruct ex_script_closes as [Ha Hd].
  exact (proj1 (reader_forwards ex_script 1 in_time r ex_script_ok Ha Hd in_time_alive Hr)).
Defined.

Lemma ends_after_audio_witness : exists r, run 1 (reader0 ex_script) in_time = Some r /\ timely ex_script (out r).
Proof.
  destruct in_time_runs as [r Hr]. exists r. split; [exact Hr|].
  exact (ends_after_audio ex_script 1 in_time r ex_script_ok in_time_alive in_time_unraced Hr).
Defined.
