(* ===== verification/SttClient.v ===== *)
(** [internal/ai/stt/sarvam.go]: the speech-to-text connection: [Feed] and
    [Flush] write to it or ask for a redial, a background redial replaces it,
    one receive loop per connection passes results on, [Close] ends it all.

    Callers, the redial, the receive loops and the consumer take steps over one
    client ([step]); a read of the shared state and the lock section that
    follows it are steps of their own, since others run in between. Whether a
    dial, a write or a read succeeds comes from outside; JSON decoding is a
    parameter. Query strings, headers and log lines are left out. *)

From Stdlib Require Import String.
From S2P Require Import Prelude Text.

Local Open Scope Z_scope.

Definition ms : Z := 1000000.

Definition reconnectBackoffMin : Z := 200 * ms.
Definition reconnectBackoffMax : Z := 5000 * ms.

(** [reconnectBackoff]; its loop from [i = 1]. *)
Fixpoint backoff_loop (k : nat) (d : Z) : Z :=
  match k with O => d | S k => if d <? reconnectBackoffMax then backoff_loop k (d * 2) else d end.
Definition reconnectBackoff (n : nat) : Z := Z.min (backoff_loop (n - 1) reconnectBackoffMin) reconnectBackoffMax.

(** ** Results *)

Inductive SignalKind := NoSignal | SpeechStarted | SpeechEnded.
Record Result := mkResult { RText : bytes; RFinal : bool; RSignal : SignalKind }.

(** [sttInboundMessage]. *)
Record inbound := mkInbound { m_type : bytes; m_transcript : bytes; m_signal : bytes; m_error : bytes; m_message : bytes }.

Definition result_of (m : inbound) : option Result :=
  if bool_decide (m_type m = bs "events") && bool_decide (m_signal m = bs "START_SPEECH") then Some (mkResult [] false SpeechStarted)
  else if bool_decide (m_type m = bs "events") && bool_decide (m_signal m = bs "END_SPEECH") then Some (mkResult [] false SpeechEnded)
  else if bool_decide (m_type m = bs "data") && negb (bool_decide (m_transcript m = [])) then Some (mkResult (m_transcript m) true NoSignal)
  else None.

(** ** The client *)

(** A receive loop: at its head, reading, about to send a result, returned. *)
Inductive receiver := AtHead | Reading | Sending (r : Result) | Returned.

(** A connection we hold and its receive loop. *)
Record connection := mkConn { open : bool; rd : receiver }.
#[global] Instance eta_connection : Eta connection := fun c => mkConn (open c) (rd c).

(** What is written: a frame or the flush message. *)
Inductive outgoing := Audio (pcm : bytes) | FlushMsg.

(** A call of [Feed] or [Flush]: it got a connection, got none, or is past
    [triggerReconnect]'s check. *)
Inductive calling := Have (c : nat) (m : outgoing) | Nil | Unswapped.

(** The redial's goroutine: about to look at the context, dialing, about to
    clear [reconnecting]. *)
Inductive redial := Starting | Dialing | Ending.

(** [sarvamClient]; times in ns, zero is the zero time; [over] is the context's
    end, [results] the channel (of 16), each result with its connection. *)
Record t := mkClient {
  conn : option nat; closed : bool; nextDialAt : Z; failures : nat;
  reconnecting : bool; results : list (nat * Result);
  conns : gmap nat connection; next : nat;
  callers : gmap nat calling; dialing : option redial; over : bool; now : Z;
}.
#[global] Instance eta_t : Eta t := fun s =>
  mkClient (conn s) (closed s) (nextDialAt s) (failures s) (reconnecting s) (results s) (conns s) (next s)
    (callers s) (dialing s) (over s) (now s).

Definition resultSlots : nat := 16.

(** [NewSarvamClient], its first dial made, at time [at_]. *)
Definition NewSarvamClient (at_ : Z) : t :=
  mkClient (Some 0%nat) false 0 0 false [] {[0%nat := mkConn true AtHead]} 1 ∅ None false at_.

Inductive effect :=
  | EWrite (c : nat) (m : outgoing)
  | EReturn (u : nat) (ok : bool)
  | EChecked (u : nat) (at_ : Z)
  | EDial
  | EDialFailed (at_ : Z)
  | EOpened (c : nat)
  | EReplaced (c : nat)
  | EShut (c : nat)          (* conn.Close *)
  | EClosed                  (* Close *)
  | EMessage (c : nat) (data : bytes)
  | EDropped (c : nat) (r : Result)
  | ETaken (c : nat) (r : Result).

Definition act (A : Type) : Type := M t effect A.
Definition upd (f : t -> t) : act unit := mmod f.
Definition emit (e : effect) : act unit := memit e.

Local Open Scope m_scope.

Definition set_rd (c : nat) (r : receiver) : act unit :=
  upd (fun s => s <| conns ::= alter (fun x => x <| rd := r |>) c |>).

(** [conn.Close]. *)
Definition shut (c : nat) : act unit :=
  upd (fun s => s <| conns ::= alter (fun x => x <| open := false |>) c |>) ;; emit (EShut c).

(** [invalidate]. *)
Definition invalidate (c : nat) : act unit :=
  upd (fun s => if bool_decide (conn s = Some c) then s <| conn := None |> else s) ;; shut c.

(** [Feed] and [Flush] of caller [u]: up to [getConn]. *)
Definition feedStart (u : nat) (m : outgoing) : act unit :=
  upd (fun s => s <| callers ::= <[u := match conn s with Some c => Have c m | None => Nil end]> |>).

Definition leave (u : nat) (ok : bool) : act unit :=
  upd (fun s => s <| callers ::= delete u |>) ;; emit (EReturn u ok).

(** Their write; [ok]: it succeeds, which it does not on a connection we shut. *)
Definition feedWrite (u : nat) (c : nat) (m : outgoing) (ok : bool) : act unit :=
  let! s := mread in
  if ok && match conns s !! c with Some x => open x | None => false end then emit (EWrite c m) ;; leave u true
  else invalidate c ;; leave u false.

(** [triggerReconnect]: its check, *)
Definition triggerCheck (u : nat) : act unit :=
  let! s := mread in
  if closed s || (now s <? nextDialAt s) then leave u false
  else emit (EChecked u (now s)) ;; upd (fun s => s <| callers ::= <[u := Unswapped]> |>).

(** its swap, *)
Definition triggerSwap (u : nat) : act unit :=
  let! s := mread in
  (if reconnecting s then mret tt
   else upd (fun s => s <| reconnecting := true |> <| dialing := Some Starting |>)) ;;
  leave u false.

(** and its goroutine. *)
Definition redialStart : act unit :=
  let! s := mread in
  if over s then upd (fun s => s <| dialing := Some Ending |>)
  else emit EDial ;; upd (fun s => s <| dialing := Some Dialing |>).

Definition redialDone (ok : bool) : act unit :=
  let! s := mread in
  (if negb ok then
     upd (fun s => s <| failures ::= S |>) ;;
     let! s := mread in
     upd (fun s => s <| nextDialAt := now s + reconnectBackoff (failures s) |>) ;;
     emit (EDialFailed (now s))
   else if closed s then
     upd (fun s => s <| conns ::= <[next s := mkConn true Returned]> |> <| next ::= S |>) ;; shut (next s)
   else
     match conn s with Some c => emit (EReplaced c) | None => mret tt end ;;
     upd (fun s => s <| conns ::= <[next s := mkConn true AtHead]> |> <| next ::= S |> <| conn := Some (next s) |>
                     <| failures := 0%nat |> <| nextDialAt := 0 |>) ;;
     emit (EOpened (next s))) ;;
  upd (fun s => s <| dialing := Some Ending |>).

Definition redialEnd : act unit := upd (fun s => s <| reconnecting := false |> <| dialing := None |>).

(** [Close]. *)
Definition Close : act unit :=
  let! s := mread in
  upd (fun s => s <| conn := None |> <| closed := true |>) ;; emit EClosed ;;
  match conn s with None => mret tt | Some c => shut c end.

Section decoding.
Variable decode : bytes -> option inbound.

(** [receiveLoop]: its head, a message read, the send of its result. *)
Definition receiveHead (c : nat) : act unit :=
  let! s := mread in set_rd c (if over s then Returned else Reading).

(** [data] is [None] on an error, which every read of a connection we shut is. *)
Definition receive (c : nat) (data : option bytes) : act unit :=
  match data with
  | None => invalidate c ;; set_rd c Returned
  | Some d =>
      emit (EMessage c d) ;;
      set_rd c (match decode d ≫= result_of with Some r => Sending r | None => AtHead end)
  end.

Definition receiveSend (c : nat) (r : Result) (stop : bool) : act unit :=
  let! s := mread in
  if over s && stop then emit (EDropped c r) ;; set_rd c Returned
  else
    mwhen (length (results s) <? resultSlots)%nat
      (upd (fun s => s <| results ::= fun l => l ++ [(c, r)] |>) ;; set_rd c AtHead).

(** ** Steps *)

Inductive label :=
  | LFeed (u : nat) (m : outgoing)
  | LCaller (u : nat) (ok : bool)
  | LRedial (ok : bool)
  | LReceive (c : nat) (data : option bytes) (stop : bool)
  | LTake
  | LOver
  | LClose
  | LTick (d : N).

Definition step (l : label) : act unit :=
  let! s := mread in
  match l with
  | LFeed u m => mwhen (bool_decide (callers s !! u = None)) (feedStart u m)
  | LCaller u ok =>
      match callers s !! u with
      | Some (Have c m) => feedWrite u c m ok
      | Some Nil => triggerCheck u
      | Some Unswapped => triggerSwap u
      | None => mret tt
      end
  | LRedial ok =>
      match dialing s with
      | Some Starting => redialStart
      | Some Dialing => redialDone ok
      | Some Ending => redialEnd
      | None => mret tt
      end
  | LReceive c data stop =>
      match conns s !! c with
      | Some x =>
          match rd x with
          | AtHead => receiveHead c
          | Reading => receive c (if open x then data else None)
          | Sending r => receiveSend c r stop
          | Returned => mret tt
          end
      | None => mret tt
      end
  | LTake =>
      match results s with
      | (c, r) :: l => upd (fun s => s <| results := l |>) ;; emit (ETaken c r)
      | [] => mret tt
      end
  | LOver => upd (fun s => s <| over := true |>)
  | LClose => Close
  | LTick d => upd (fun s => s <| now ::= Z.add (Z.of_N d) |>)
  end.

Fixpoint run (ls : list label) : act unit :=
  match ls with [] => mret tt | l :: r => step l ;; run r end.
End decoding.
