(* ===== verification/SttSpec.v ===== *)
(** [internal/ai/stt/sarvam.go]: what every run of the speech-to-text client
    keeps: which connections are open, when it may dial, and the order of the
    results. *)

From Stdlib Require Import String.
From S2P Require Import Prelude Text SttClient.

Local Open Scope Z_scope.
Local Open Scope m_scope.

(** ** The back-off

    200 ms doubled per failure in a row, at most five seconds. *)
Lemma backoff_loop_spec k d :
  0 < d -> Z.min (backoff_loop k d) reconnectBackoffMax = Z.min (d * 2 ^ Z.of_nat k) reconnectBackoffMax.
Proof.
  revert d. induction k as [|k IH]; intros d Hd; cbn [backoff_loop]; [by rewrite Z.mul_1_r|].
  rewrite Nat2Z.inj_succ, Z.pow_succ_r by apply Nat2Z.is_nonneg.
  destruct (Z.ltb_spec d reconnectBackoffMax) as [H|H].
  - rewrite IH by lia. f_equal. lia.
  - pose proof (Z.pow_pos_nonneg 2 (Z.of_nat k) ltac:(lia) ltac:(lia)). rewrite !Z.min_r; [done|nia|done].
Qed.

Lemma reconnectBackoff_spec n :
  reconnectBackoff n = Z.min (reconnectBackoffMin * 2 ^ Z.of_nat (n - 1)) reconnectBackoffMax.
Proof. apply backoff_loop_spec. reflexivity. Qed.

(** ** Connections and dials *)

(** What the trace says of the redials: failures in a row, and the wait after
    the last. *)
Definition tally (r : nat * Z) (e : effect) : nat * Z :=
  match e with
  | EDialFailed at_ => (S r.1, at_ + reconnectBackoff (S r.1))
  | EOpened _ => (0%nat, 0)
  | _ => r
  end.
Definition redials (o : list effect) : nat * Z := fold_left tally o (0%nat, 0).

Lemma redials_app a b : redials (a ++ b) = fold_left tally b (redials a).
Proof. apply fold_left_app. Qed.

(** No one dials before the wait is over; nothing is opened after [Close]. *)
Definition waited (o : list effect) : Prop :=
  forall o1 u at_ o2, o = o1 ++ EChecked u at_ :: o2 -> (redials o1).2 <= at_.
Definition shut_down (o : list effect) : Prop :=
  forall o1 c o2, o = o1 ++ EOpened c :: o2 -> EClosed ∉ o1.

(** Is connection [c] open, if we ever had it? *)
Definition opened (s : t) (c : nat) : option bool := open <$> conns s !! c.

Record inv (s : t) (o : list effect) : Prop := {
  i_next : forall c, opened s c <> None -> (c < next s)%nat;
  i_conn : forall c, conn s = Some c -> opened s c = Some true;
  i_open : forall c, opened s c = Some true -> conn s = Some c \/ EReplaced c ∈ o;
  i_closed : closed s = true -> conn s = None;
  i_closes : EClosed ∈ o -> closed s = true;
  i_redial : reconnecting s = bool_decide (dialing s <> None);
  i_tally : redials o = (failures s, nextDialAt s);
  i_waited : waited o;
  i_shut : shut_down o;
}.

Definition keeps (s : t) (w : list effect) (s' : t) : Prop := forall o, inv s o -> inv s' (o ++ w).

#[global] Instance keeps_rel : StepRel keeps.
Proof.
  split; [intros s o; by rewrite app_nil_r|]. intros s1 w1 s2 w2 s3 H1 H2 o H. rewrite app_assoc. by apply H2, H1.
Qed.

(** One more effect. *)
Lemma snoc_inv {A} (x : A) (P : list A -> A -> list A -> Prop) o e :
  (forall o1 y o2, o = o1 ++ y :: o2 -> P o1 y o2) -> (forall o1 y o2 o3, P o1 y o2 -> P o1 y o3) -> P o e [] ->
  forall o1 y o2, o ++ [e] = o1 ++ y :: o2 -> P o1 y o2.
Proof.
  intros Ho Hx He o1 y o2 H. destruct o2 as [|z o2 _] using rev_ind.
  - apply app_inj_tail in H as [<- <-]. done.
  - rewrite app_comm_cons, app_assoc in H. apply app_inj_tail in H as [-> _]. eapply Hx, Ho. done.
Qed.

Lemma waited_snoc o e : waited o -> (forall u at_, e = EChecked u at_ -> (redials o).2 <= at_) -> waited (o ++ [e]).
Proof.
  intros Ho He o1 u at_ o2 H.
  revert o1 o2 H. enough (G : forall o1 y o2, o ++ [e] = o1 ++ y :: o2 -> forall u at_, y = EChecked u at_ -> (redials o1).2 <= at_).
  { intros o1 o2 H. by eapply G. }
  apply (snoc_inv e (fun o1 y _ => forall u at_, y = EChecked u at_ -> (redials o1).2 <= at_)); [|done|done].
  intros o1 y o2 -> u' at' ->. by eapply Ho.
Qed.

Lemma shut_down_snoc o e : shut_down o -> (forall c, e = EOpened c -> EClosed ∉ o) -> shut_down (o ++ [e]).
Proof.
  intros Ho He o1 c o2 H.
  revert o1 o2 H. enough (G : forall o1 y o2, o ++ [e] = o1 ++ y :: o2 -> forall c, y = EOpened c -> EClosed ∉ o1).
  { intros o1 o2 H. by eapply G. }
  apply (snoc_inv e (fun o1 y _ => forall c, y = EOpened c -> EClosed ∉ o1)); [|done|done].
  intros o1 y o2 -> c' ->. by eapply Ho.
Qed.

(** An effect that says nothing of the connection. *)
Definition calm (e : effect) : Prop :=
  match e with EChecked _ _ | EDialFailed _ | EOpened _ | EClosed => False | _ => True end.

Lemma inv_calm s o e : calm e -> inv s o -> inv s (o ++ [e]).
Proof.
  intros He [Hn Hc Ho Hcl Hcs Hr Ht Hw Hs]. split; try done.
  - intros c Hx. destruct (Ho c Hx); [by left|right; set_solver].
  - rewrite elem_of_app. intros [H|H%list_elem_of_singleton]; [auto|by subst].
  - rewrite redials_app, Ht. by destruct e.
  - apply waited_snoc; [done|]. by intros u at_ ->.
  - apply shut_down_snoc; [done|]. by intros c ->.
Qed.

Lemma emit_keeps e : calm e -> does keeps (emit e).
Proof. intros He s. apply does_at_emit. intros o. by apply inv_calm. Qed.

(** A change of what the invariant does not look at. *)
Definition same (s s' : t) : Prop :=
  conn s' = conn s /\ closed s' = closed s /\ nextDialAt s' = nextDialAt s /\ failures s' = failures s /\
  reconnecting s' = reconnecting s /\ dialing s' = dialing s /\ next s' = next s /\ (forall c, opened s' c = opened s c).

Lemma stt_inv_same s s' o : same s s' -> inv s o -> inv s' o.
Proof.
  intros (E1 & E2 & E3 & E4 & E5 & E6 & E7 & E8) [Hn Hc Ho Hcl Hcs Hr Ht Hw Hs].
  split; rewrite ?E1, ?E2, ?E3, ?E4, ?E5, ?E6, ?E7; try done; intros c; rewrite E8; auto.
Qed.

Lemma upd_keeps f : (forall s, same s (f s)) -> does keeps (upd f).
Proof. intros H s. apply does_at_mod. intros o Hi. rewrite app_nil_r. by eapply stt_inv_same. Qed.

Lemma opened_alter f c (s : t) x : (forall y, open (f y) = open y) -> opened (s <| conns ::= alter f c |>) x = opened s x.
Proof.
  intros Hf. unfold opened, field_update. simpl. destruct (decide (c = x)) as [->|Hne].
  - rewrite lookup_alter_eq. destruct (conns s !! x); simpl; [by rewrite Hf|done].
  - by rewrite lookup_alter_ne.
Qed.

Lemma set_rd_keeps c r : does keeps (set_rd c r).
Proof. apply upd_keeps. intros s. split_and!; try done. intros x. by apply opened_alter. Qed.
#[local] Hint Resolve set_rd_keeps : does.
#[local] Hint Extern 1 (does keeps (emit _)) => (apply emit_keeps; exact I) : does.
#[local] Hint Extern 2 (does keeps (upd _)) => (apply upd_keeps; intros; split_and!; done) : does.

Lemma leave_keeps u ok : does keeps (leave u ok).
Proof. unfold leave. does_auto fail. Qed.
#[local] Hint Resolve leave_keeps : does.

(** A connection that is not the current one may be shut. *)
Lemma opened_shut c (s : t) x :
  opened (s <| conns ::= alter (fun x => x <| open := false |>) c |>) x =
  if decide (c = x) then (fun _ => false) <$> opened s x else opened s x.
Proof.
  unfold opened, field_update. simpl. destruct (decide (c = x)) as [->|Hne].
  - rewrite lookup_alter_eq. by destruct (conns s !! x).
  - by rewrite lookup_alter_ne.
Qed.

Lemma inv_shut c s o :
  conn s <> Some c -> inv s o -> inv (s <| conns ::= alter (fun x => x <| open := false |>) c |>) o.
Proof.
  intros Hne [Hn Hc Ho Hcl Hcs Hr Ht Hw Hs]. split; try done; intros x; rewrite opened_shut.
  - simpl. intros Hx. apply Hn. intros E. rewrite E in Hx. by destruct (decide (c = x)).
  - simpl. intros Hx. rewrite decide_False by congruence. by apply Hc.
  - simpl. destruct (decide (c = x)); [by destruct (opened s x)|]. apply Ho.
Qed.

Lemma shut_at c s : conn s <> Some c -> does_at keeps (shut c) s.
Proof.
  intros Hne. unfold shut, upd. apply does_at_mod_seq; [apply _| |apply emit_keeps; exact I].
  intros o Hi. rewrite app_nil_r. by apply inv_shut.
Qed.

Lemma inv_drop c s o : inv s o -> inv ((if bool_decide (conn s = Some c) then s <| conn := None |> else s) <| conns ::= alter (fun x => x <| open := false |>) c |>) o.
Proof.
  intros Hi. case_bool_decide as Hc; [|by apply inv_shut].
  destruct Hi as [Hn Hcn Ho Hcl Hcs Hr Ht Hw Hs].
  split; try done; intros x; rewrite opened_shut; change (opened (s <| conn := None |>) x) with (opened s x).
  - simpl. intros Hx. apply Hn. intros E. rewrite E in Hx. by destruct (decide (c = x)).
  - simpl. destruct (decide (c = x)) as [|Hne]; [by destruct (opened s x)|]. intros Hx.
    destruct (Ho x Hx) as [Hx'|]; [congruence|by right].
Qed.

Lemma invalidate_keeps c : does keeps (invalidate c).
Proof.
  intros s o Hi. unfold invalidate, shut. run_state. run_out.
  exact (inv_calm _ _ (EShut c) I (inv_drop c s o Hi)).
Qed.
#[local] Hint Resolve invalidate_keeps : does.

Lemma feedWrite_keeps u c m ok : does keeps (feedWrite u c m ok).
Proof. unfold feedWrite. does_auto fail. Qed.

Lemma triggerCheck_keeps u : does keeps (triggerCheck u).
Proof.
  intros s. unfold triggerCheck. apply does_at_read. destruct (_ || _) eqn:E; [by apply leave_keeps|].
  apply orb_false_iff in E as [_ E%Z.ltb_ge].
  apply does_at_seq; [apply _| |intros; apply upd_keeps; intros; split_and!; done].
  apply does_at_emit. intros o [Hn Hc Ho Hcl Hcs Hr Ht Hw Hs]. split; try done.
  - intros c Hx. destruct (Ho c Hx); [by left|right; set_solver].
  - rewrite elem_of_app, list_elem_of_singleton. intros [H|H]; [auto|done].
  - by rewrite redials_app, Ht.
  - apply waited_snoc; [done|]. intros u' at_ [= _ <-]. by rewrite Ht.
  - by apply shut_down_snoc.
Qed.

Lemma triggerSwap_keeps u : does keeps (triggerSwap u).
Proof.
  intros s. unfold triggerSwap. apply does_at_read. apply does_at_seq; [apply _| |intros; apply leave_keeps].
  destruct (reconnecting s); [apply does_at_ret, _|]. apply does_at_mod. intros o [Hn Hc Ho Hcl Hcs Hr Ht Hw Hs].
  rewrite app_nil_r. split; done.
Qed.

(** The redial's goroutine goes on. *)
Lemma inv_dialing d s o : dialing s <> None -> inv s o -> inv (s <| dialing := Some d |>) o.
Proof.
  intros Hd [Hn Hc Ho Hcl Hcs Hr Ht Hw Hs]. split; try done. simpl. by rewrite Hr, !bool_decide_eq_true_2.
Qed.

Lemma redialStart_keeps s : dialing s <> None -> does_at keeps redialStart s.
Proof.
  intros Hd. unfold redialStart. apply does_at_read. destruct (over s).
  - apply does_at_mod. intros o Hi. rewrite app_nil_r. by apply inv_dialing.
  - apply does_at_seq; [apply _|by apply emit_keeps|]. apply does_at_mod. intros o Hi. rewrite app_nil_r. by apply inv_dialing.
Qed.

Lemma opened_insert x c (s : t) d : opened (s <| conns ::= <[d := x]> |>) c = if decide (d = c) then Some (open x) else opened s c.
Proof.
  unfold opened, field_update. simpl. destruct (decide (d = c)) as [->|Hne]; [by rewrite lookup_insert_eq|by rewrite lookup_insert_ne].
Qed.

(** A dial failed. *)
Lemma inv_failed s o :
  inv s o -> inv (s <| failures ::= S |> <| nextDialAt := now s + reconnectBackoff (S (failures s)) |>) (o ++ [EDialFailed (now s)]).
Proof.
  intros [Hn Hc Ho Hcl Hcs Hr Ht Hw Hs]. split; try done.
  - intros c Hx. destruct (Ho c Hx); [by left|right; set_solver].
  - rewrite elem_of_app, list_elem_of_singleton. intros [H|H]; [auto|done].
  - by rewrite redials_app, Ht.
  - by apply waited_snoc.
  - by apply shut_down_snoc.
Qed.

(** One succeeded, too late: it is shut again. *)
Lemma inv_late s o :
  inv s o -> inv (s <| conns ::= <[next s := mkConn false Returned]> |> <| next ::= S |>) o.
Proof.
  intros [Hn Hc Ho Hcl Hcs Hr Ht Hw Hs]. 
  assert (E : forall c, opened (s <| conns ::= <[next s := mkConn false Returned]> |> <| next ::= S |>) c =
    if decide (next s = c) then Some false else opened s c) by (intros c; apply opened_insert).
  split; try done; intros c; rewrite E; destruct (decide (next s = c)) as [<-|Hne]; simpl; auto.
  - intros H%Hn. lia.
  - intros H%Hc. assert (next s < next s)%nat; [|lia]. apply Hn. by rewrite H.
  - done.
Qed.

(** One succeeded. *)
Lemma inv_opened s o :
  closed s = false -> (forall c, conn s = Some c -> EReplaced c ∈ o) -> inv s o ->
  inv (s <| conns ::= <[next s := mkConn true AtHead]> |> <| next ::= S |> <| conn := Some (next s) |> <| failures := 0%nat |> <| nextDialAt := 0 |>)
    (o ++ [EOpened (next s)]).
Proof.
  intros Hop Hrep [Hn Hc Ho Hcl Hcs Hr Ht Hw Hs].
  set (s' := s <| conns ::= _ |> <| next ::= _ |> <| conn := _ |> <| failures := _ |> <| nextDialAt := _ |>).
  assert (E : forall c, opened s' c = if decide (next s = c) then Some true else opened s c) by (intros c; apply opened_insert).
  split; try done.
  - intros c. rewrite E. unfold s'. simpl. destruct (decide (next s = c)) as [<-|]; [lia|]. intros H%Hn. lia.
  - intros c. rewrite E. unfold s'. simpl. intros [= <-]. by rewrite decide_True.
  - intros c. rewrite E. unfold s'. simpl. destruct (decide (next s = c)) as [<-|]; [by left|].
    intros [H|H]%Ho; right; [apply Hrep in H|]; set_solver.
  - unfold s'. simpl. congruence.
  - rewrite elem_of_app, list_elem_of_singleton. intros [H|H]; [by apply Hcs in H|done].
  - by rewrite redials_app, Ht.
  - by apply waited_snoc.
  - apply shut_down_snoc; [done|]. intros c [= <-] H%Hcs. congruence.
Qed.

Lemma redialDone_keeps ok s : dialing s <> None -> does_at keeps (redialDone ok) s.
Proof.
  intros Hd o Hi. unfold redialDone. rewrite mstate_read_seq, mout_read_seq. destruct ok; cbn [negb].
  - destruct (closed s) eqn:Hcl.
    + run_state. run_out. apply inv_dialing; [done|].
      replace (mstate (shut _) _) with (s <| conns ::= <[next s := mkConn false Returned]> |> <| next ::= S |>).
      { exact (inv_calm _ _ (EShut (next s)) I (inv_late s o Hi)). }
      unfold shut, upd, emit. run_state. unfold field_update. simpl. f_equal.
      apply map_eq. intros x. destruct (decide (next s = x)) as [<-|]; [by rewrite lookup_alter_eq, !lookup_insert_eq|by rewrite lookup_alter_ne, !lookup_insert_ne].
    + run_state. run_out. destruct (conn s) as [c|] eqn:Hcn.
      * apply inv_dialing; [done|]. rewrite <- app_assoc, (app_assoc o). apply inv_opened; [done| |by apply inv_calm].
        intros x Hx. change (conn s = Some x) in Hx. rewrite Hcn in Hx. injection Hx as <-. apply elem_of_app. right. by left.
      * apply inv_dialing; [done|]. apply inv_opened; [done| |done]. intros x Hx. change (conn s = Some x) in Hx. congruence.
  - run_state. run_out. apply inv_dialing; [done|]. by apply inv_failed.
Qed.

Lemma redialEnd_keeps : does keeps redialEnd.
Proof. intros s. apply does_at_mod. intros o [Hn Hc Ho Hcl Hcs Hr Ht Hw Hs]. rewrite app_nil_r. split; done. Qed.

(** [Close]. *)
Lemma inv_close s o :
  inv s o ->
  inv (s <| conns := match conn s with Some c => alter (fun x => x <| open := false |>) c (conns s) | None => conns s end |>
         <| conn := None |> <| closed := true |>) (o ++ [EClosed]).
Proof.
  intros [Hn Hc Ho Hcl Hcs Hr Ht Hw Hs]. set (s' := s <| conns := _ |> <| conn := _ |> <| closed := _ |>).
  assert (E : forall c, opened s' c = if decide (conn s = Some c) then (fun _ => false) <$> opened s c else opened s c).
  { intros c. unfold s', opened, field_update. simpl. destruct (conn s) as [d|]; simpl.
    - destruct (decide (Some d = Some c)) as [[= ->]|Hne]; [rewrite lookup_alter_eq; by destruct (conns s !! c)|].
      rewrite lookup_alter_ne by congruence. done.
    - by destruct (decide (None = Some c)). }
  split; try done.
  - intros c. rewrite E. intros Hx. apply Hn. intros Hz. rewrite Hz in Hx. by destruct (decide _).
  - intros c. rewrite E. destruct (decide _); [by destruct (opened s c)|]. intros [H|H]%Ho; [done|right; set_solver].
  - by rewrite redials_app, Ht.
  - by apply waited_snoc.
  - by apply shut_down_snoc.
Qed.

Lemma Close_keeps : does keeps Close.
Proof.
  intros s o Hi. unfold Close. rewrite mstate_read_seq, mout_read_seq. pose proof (inv_close s o Hi) as H.
  run_state. run_out. destruct (conn s) as [c|].
  - pose proof (inv_calm _ _ (EShut c) I H) as H'. rewrite <- app_assoc in H'. exact H'.
  - exact H.
Qed.

Section run.
Variable decode : bytes -> option inbound.

#[local] Hint Resolve Close_keeps redialEnd_keeps triggerCheck_keeps triggerSwap_keeps feedWrite_keeps : does.

Lemma receive_keeps c data : does keeps (receive decode c data).
Proof. unfold receive. does_auto fail. Qed.
Lemma receiveSend_keeps c r stop : does keeps (receiveSend c r stop).
Proof. unfold receiveSend. does_auto fail. Qed.
#[local] Hint Resolve receive_keeps receiveSend_keeps : does.

Lemma step_keeps l : does keeps (step decode l).
Proof.
  intros s. unfold step, feedStart, receiveHead. apply does_at_read.
  destruct l; try solve [does_auto fail].
  destruct (dialing s) as [[]|] eqn:Hd; [apply redialStart_keeps|apply redialDone_keeps|apply redialEnd_keeps|apply does_at_ret, _]; congruence.
Qed.

Lemma run_keeps ls : does keeps (run decode ls).
Proof.
  induction ls as [|l ls IH]; intros s; [apply does_at_ret, _|].
  apply does_at_seq; [apply _|apply step_keeps|]. intros. apply IH.
Qed.

Lemma New_inv at_ : inv (NewSarvamClient at_) [].
Proof.
  split; try done.
  - intros c. unfold opened. simpl. destruct c; [lia|]. by rewrite lookup_singleton_ne.
  - by intros c [= <-].
  - intros c. unfold opened. simpl. destruct c; [by left|]. by rewrite lookup_singleton_ne.
  - intros H. by apply not_elem_of_nil in H.
  - by intros o1 u at' o2 H%app_cons_not_nil.
  - by intros o1 c o2 H%app_cons_not_nil.
Qed.
End run.

(** Whatever the network does and however the callers, redials, receive
    loops and the end of the call interleave: a caller asks for a dial only
    when the back-off of the last failure (200 ms doubled for each in a row,
    at most five seconds) has passed; a redial runs at most one at a time; every
    connection still open is the current one, or was the current one when a
    redial replaced it; and once the client is closed none is current and none
    is opened again. *)
Theorem one_connection decode at_ ls :
  let s := mstate (run decode ls) (NewSarvamClient at_) in
  let o := mout (run decode ls) (NewSarvamClient at_) in
  (forall o1 u now o2, o = o1 ++ EChecked u now :: o2 -> (redials o1).2 <= now) /\
  redials o = (failures s, nextDialAt s) /\
  reconnecting s = bool_decide (dialing s <> None) /\
  (forall c x, conns s !! c = Some x -> open x = true -> conn s = Some c \/ EReplaced c ∈ o) /\
  (closed s = true -> conn s = None) /\
  (forall o1 c o2, o = o1 ++ EOpened c :: o2 -> EClosed ∉ o1).
Proof.
  intros s o. destruct (run_keeps decode ls _ [] (New_inv at_)) as [Hn Hc Ho Hcl Hcs Hr Ht Hw Hs].
  split_and!; try done. intros c x Hx Hop. apply Ho. unfold opened. fold s. by rewrite Hx; simpl; f_equal.
Qed.

(** ** The order of the results *)

Section results.
Variable decode : bytes -> option inbound.

(** The results of the messages of connection [c], those the consumer got,
    those given up; those in the channel and the one about to be sent. *)
Definition heard (c : nat) (o : list effect) : list Result :=
  omap (fun e => match e with EMessage d data => if decide (d = c) then decode data ≫= result_of else None | _ => None end) o.
Definition taken (c : nat) (o : list effect) : list Result :=
  omap (fun e => match e with ETaken d r => if decide (d = c) then Some r else None | _ => None end) o.
Definition dropped (c : nat) (o : list effect) : list Result :=
  omap (fun e => match e with EDropped d r => if decide (d = c) then Some r else None | _ => None end) o.
Definition queued (c : nat) (l : list (nat * Result)) : list Result :=
  omap (fun x => if decide (x.1 = c) then Some x.2 else None) l.
Definition doing (s : t) (c : nat) : option receiver := rd <$> conns s !! c.
Definition pending (x : option receiver) : list Result := match x with Some (Sending r) => [r] | _ => [] end.

Record flows (s : t) (o : list effect) : Prop := {
  f_order : forall c, heard c o = taken c o ++ queued c (results s) ++ pending (doing s c) ++ dropped c o;
  f_dropped : forall c, dropped c o <> [] -> over s = true /\ doing s c = Some Returned;
  f_next : forall c, doing s c <> None -> (c < next s)%nat;
  f_unknown : forall c, doing s c = None -> heard c o = [];
  f_once : forall c, (length (dropped c o) <= 1)%nat;
  f_slots : (length (results s) <= resultSlots)%nat;
}.

Definition flow (s : t) (w : list effect) (s' : t) : Prop := forall o, flows s o -> flows s' (o ++ w).

#[local] Instance flow_rel : StepRel flow.
Proof.
  split; [intros s o; by rewrite app_nil_r|]. intros s1 w1 s2 w2 s3 H1 H2 o H. rewrite app_assoc. by apply H2, H1.
Qed.

Lemma heard_app c a b : heard c (a ++ b) = heard c a ++ heard c b.
Proof. apply omap_app. Qed.
Lemma taken_app c a b : taken c (a ++ b) = taken c a ++ taken c b.
Proof. apply omap_app. Qed.
Lemma dropped_app c a b : dropped c (a ++ b) = dropped c a ++ dropped c b.
Proof. apply omap_app. Qed.
Lemma queued_app c a b : queued c (a ++ b) = queued c a ++ queued c b.
Proof. apply omap_app. Qed.

Definition mute (e : effect) : Prop := match e with EMessage _ _ | ETaken _ _ | EDropped _ _ => False | _ => True end.

Lemma emit_flow e : mute e -> does flow (emit e).
Proof.
  intros He s. apply does_at_emit. intros o [Ho Hd Hn Hu Hc Hs].
  split; try done; intros c; rewrite ?heard_app, ?taken_app, ?dropped_app; destruct e; try done; simpl; rewrite ?app_nil_r; auto.
Qed.

(** A change of what the flow does not look at. *)
Definition still (s s' : t) : Prop :=
  results s' = results s /\ (over s = true -> over s' = true) /\ next s' = next s /\ (forall c, doing s' c = doing s c).

Lemma upd_flow f : (forall s, still s (f s)) -> does flow (upd f).
Proof.
  intros H s. apply does_at_mod. intros o [Ho Hd Hn Hu Hc Hs]. rewrite app_nil_r. destruct (H s) as (E1 & E2 & E3 & E4).
  split; rewrite ?E1, ?E3; try done; intros c; rewrite E4; auto. intros [Hv Hr]%Hd. auto.
Qed.

Lemma doing_alter f c (s : t) x : doing (s <| conns ::= alter f c |>) x = if decide (c = x) then (fun y => rd (f y)) <$> conns s !! x else doing s x.
Proof.
  unfold doing, field_update. simpl. destruct (decide (c = x)) as [->|Hne]; [rewrite lookup_alter_eq; by destruct (conns s !! x)|by rewrite lookup_alter_ne].
Qed.

Lemma doing_open (s : t) c b x : doing (s <| conns ::= alter (fun y => y <| open := b |>) c |>) x = doing s x.
Proof. rewrite doing_alter. destruct (decide _) as [->|]; [|done]. unfold doing. by destruct (conns s !! x). Qed.

#[local] Hint Extern 1 (does flow (emit _)) => (apply emit_flow; exact I) : does.
#[local] Hint Extern 2 (does flow (upd _)) => (apply upd_flow; intros; split_and!; done) : does.

Lemma shut_flow c : does flow (shut c).
Proof.
  unfold shut. intros s. apply does_at_seq; [apply _| |intros; by apply emit_flow].
  apply upd_flow. intros s'. split_and!; try done. intros x. apply doing_open.
Qed.
#[local] Hint Resolve shut_flow : does.

Lemma invalidate_flow c : does flow (invalidate c).
Proof.
  intros s. unfold invalidate. apply does_at_seq; [apply _| |intros; apply shut_flow].
  apply upd_flow. intros s'. case_bool_decide; by split_and!.
Qed.
#[local] Hint Resolve invalidate_flow : does.

(** A receive loop moves with no result in its hands before or after. *)
Lemma set_rd_flow c r s :
  pending (doing s c) = [] -> pending (Some r) = [] -> (doing s c = Some Returned -> r = Returned) ->
  does_at flow (set_rd c r) s.
Proof.
  intros H1 H2 H3. apply does_at_mod. intros o [Ho Hd Hn Hu Hc Hs]. rewrite app_nil_r.
  assert (E : forall x, doing (s <| conns ::= alter (fun y => y <| rd := r |>) c |>) x =
    if decide (c = x) then (fun _ => r) <$> doing s x else doing s x).
  { intros x. rewrite doing_alter. destruct (decide _); [|done]. unfold doing. by destruct (conns s !! x). }
  split; try done; intros x; rewrite ?E; destruct (decide (c = x)) as [<-|]; try solve [auto].
  - destruct (doing s c) eqn:Hdo; cbn [fmap option_fmap option_map]; [rewrite H2; rewrite <- H1, <- Hdo; apply Ho|rewrite <- Hdo; apply Ho].
  - intros [Hv Hr]%Hd. split; [done|]. rewrite Hr. simpl. f_equal. by apply H3.
  - intros Hx. apply Hn. intros Hz. by rewrite Hz in Hx.
  - intros Hx. apply Hu. by destruct (doing s c).
Qed.

Lemma doing_set c r (s : t) x :
  doing (s <| conns ::= alter (fun y => y <| rd := r |>) c |>) x = if decide (c = x) then (fun _ => r) <$> doing s x else doing s x.
Proof. rewrite doing_alter. destruct (decide _); [|done]. unfold doing. by destruct (conns s !! x). Qed.

Lemma receiveHead_flow c s : doing s c = Some AtHead -> does_at flow (receiveHead c) s.
Proof.
  intros H. unfold receiveHead. apply does_at_read. apply set_rd_flow; rewrite ?H; try done. by destruct (over s).
Qed.

Lemma receive_flow c data s : doing s c = Some Reading -> does_at flow (receive decode c data) s.
Proof.
  intros H. unfold receive. destruct data as [d|].
  - intros o [Ho Hd Hn Hu Hc Hs]. unfold set_rd, upd, emit. run_state. run_out. rewrite app_nil_r.
    set (m := match _ with Some r => Sending r | None => AtHead end).
    assert (Hm : pending (Some m) = option_list (decode d ≫= result_of)) by (unfold m; by destruct (_ ≫= _)).
    split; try done; intros x; rewrite ?doing_set, ?heard_app, ?taken_app, ?dropped_app; simpl; rewrite ?app_nil_r;
      destruct (decide (c = x)) as [<-|]; simpl; rewrite ?app_nil_r; auto.
    + change (doing (mstate _ s) c) with (doing s c). rewrite Ho, H. cbn [fmap option_fmap option_map]. rewrite Hm.
      assert (dropped c o = []) as -> by (destruct (dropped c o) eqn:E; [done|]; destruct (Hd c) as [_ Hr]; congruence).
      simpl. rewrite !app_nil_r, <- !app_assoc. done.
    + intros Hx. destruct (Hd c Hx) as [_ Hr]. congruence.
    + intros _. apply Hn. congruence.
    + change (doing (mstate _ s) c) with (doing s c). by rewrite H.
  - apply does_at_seq; [apply _|apply invalidate_flow|]. intros a.
    assert (E : doing (mstate (invalidate c) s) c = doing s c).
    { unfold invalidate, shut, upd, emit. run_state. rewrite doing_open. by case_bool_decide. }
    apply set_rd_flow; rewrite ?E, ?H; done.
Qed.

Lemma receiveSend_flow c r stop s : doing s c = Some (Sending r) -> does_at flow (receiveSend c r stop) s.
Proof.
  intros H. unfold receiveSend. apply does_at_read. destruct (over s && stop) eqn:Hst.
  - apply andb_true_iff in Hst as [Hov _]. intros o [Ho Hd Hn Hu Hc Hs]. unfold set_rd, upd, emit. run_state. run_out. rewrite app_nil_r.
    split; try done; intros x; rewrite ?doing_set, ?heard_app, ?taken_app, ?dropped_app; simpl; rewrite ?app_nil_r;
      destruct (decide (c = x)) as [<-|]; simpl; rewrite ?app_nil_r; auto.
    + change (doing (mstate _ s) c) with (doing s c). rewrite Ho, H. simpl.
      assert (dropped c o = []) as -> by (destruct (dropped c o) eqn:E; [done|]; destruct (Hd c) as [_ Hr]; congruence).
      done.
    + intros _. split; [done|]. change (doing (mstate _ s) c) with (doing s c). by rewrite H.
    + intros _. apply Hn. congruence.
    + change (doing (mstate _ s) c) with (doing s c). by rewrite H.
    + assert (dropped c o = []) as -> by (destruct (dropped c o) eqn:E; [done|]; destruct (Hd c) as [_ Hr]; congruence).
      simpl. lia.
  - apply does_at_when; [apply _|]. intros Hl%Nat.ltb_lt. intros o [Ho Hd Hn Hu Hc Hs]. unfold set_rd, upd, emit. run_state. run_out. rewrite app_nil_r.
    split; try done; try (intros x; rewrite ?doing_set, ?heard_app, ?taken_app, ?dropped_app; simpl;
      change (doing (mstate _ s) x) with (doing s x)).
    + rewrite queued_app. simpl. destruct (decide (c = x)) as [<-|]; simpl; rewrite ?app_nil_r; auto.
      change (doing _ c) with (doing s c). rewrite Ho, H. simpl. by rewrite <- app_assoc.
    + change (doing _ x) with (doing s x). destruct (decide (c = x)) as [<-|]; auto. intros Hx. destruct (Hd c Hx) as [_ Hr]. congruence.
    + change (doing _ x) with (doing s x). destruct (decide (c = x)) as [<-|]; auto. intros _. apply Hn. congruence.
    + change (doing _ x) with (doing s x). destruct (decide (c = x)) as [<-|]; auto. by rewrite H.
    + simpl. rewrite length_app. simpl. change (length (results s) < resultSlots)%nat in Hl. lia.
Qed.

Lemma take_flow c r l s : results s = (c, r) :: l -> does_at flow (upd (fun s => s <| results := l |>) ;; emit (ETaken c r)) s.
Proof.
  intros H o [Ho Hd Hn Hu Hc Hs]. unfold upd, emit. run_state. run_out.
  split; try done; try (intros x; rewrite ?heard_app, ?taken_app, ?dropped_app; simpl; rewrite ?app_nil_r; try change (doing _ x) with (doing s x); auto).
  - rewrite Ho, H. simpl. destruct (decide (c = x)); simpl; rewrite ?app_nil_r, <- ?app_assoc; done.
  - simpl. rewrite H in Hs. simpl in Hs. lia.
Qed.

(** A new connection, nothing heard on it yet. *)
Lemma new_flow x s :
  pending (Some (rd x)) = [] -> does_at flow (upd (fun s' => s' <| conns ::= <[next s := x]> |> <| next ::= S |>)) s.
Proof.
  intros Hx. apply does_at_mod. intros o [Ho Hd Hn Hu Hc Hs]. rewrite app_nil_r.
  assert (Hnew : doing s (next s) = None).
  { destruct (doing s (next s)) eqn:E; [|done]. assert (next s < next s)%nat; [|lia]. apply Hn. by rewrite E. }
  assert (E : forall c, doing (s <| conns ::= <[next s := x]> |> <| next ::= S |>) c = if decide (next s = c) then Some (rd x) else doing s c).
  { intros c. unfold doing, field_update. simpl. destruct (decide (next s = c)) as [<-|]; [by rewrite lookup_insert_eq|by rewrite lookup_insert_ne]. }
  split; try done; intros c; rewrite ?E; destruct (decide (next s = c)) as [<-|]; auto.
  - rewrite Hx, Ho, Hnew. done.
  - intros [_ Hr]%Hd. congruence.
  - intros H%Hn. simpl. lia.
Qed.

Lemma redialDone_flow ok s : does_at flow (redialDone ok) s.
Proof.
  unfold redialDone. apply does_at_read. apply does_at_seq; [apply _| |intros; by apply upd_flow].
  destruct ok; cbn [negb]; [destruct (closed s)|].
  - apply does_at_seq; [apply _|by apply new_flow|]. intros. by apply shut_flow.
  - apply does_at_seq; [apply _|destruct (conn s); [by apply emit_flow|apply does_at_ret, _]|].
    assert (Hs : mstate (match conn s with Some c => emit (EReplaced c) | None => mret tt end) s = s) by by destruct (conn s).
    rewrite Hs. apply does_at_seq; [apply _| |intros; by apply emit_flow].
    pose proof (new_flow (mkConn true AtHead) s eq_refl) as H. intros o Hi. specialize (H o Hi).
    revert H. unfold upd. rewrite !mout_mod, !mstate_mod. by intros [Ho Hd Hn Hu Hc Hsl].
  - does_auto fail.
Qed.

Lemma leave_flow u ok : does flow (leave u ok).
Proof. unfold leave. does_auto fail. Qed.
Lemma Close_flow : does flow Close.
Proof. unfold Close. does_auto fail. Qed.
#[local] Hint Resolve leave_flow Close_flow : does.

Lemma step_flow l : does flow (step decode l).
Proof.
  intros s. unfold step, feedStart, feedWrite, triggerCheck, triggerSwap, redialStart, redialEnd. apply does_at_read.
  destruct l; try solve [does_auto fail].
  - destruct (dialing s) as [[]|]; [does_auto fail|apply redialDone_flow|does_auto fail|apply does_at_ret, _].
  - destruct (conns s !! c) as [x|] eqn:Hc; [|apply does_at_ret, _].
    assert (Hd : doing s c = Some (rd x)) by (unfold doing; by rewrite Hc).
    destruct (rd x); [by apply receiveHead_flow|by apply receive_flow|by apply receiveSend_flow|apply does_at_ret, _].
  - destruct (results s) as [|[c r] l] eqn:Hr; [apply does_at_ret, _|by apply take_flow].
Qed.

Lemma run_flow ls : does flow (run decode ls).
Proof.
  induction ls as [|l ls IH]; intros s; [apply does_at_ret, _|].
  apply does_at_seq; [apply _|apply step_flow|]. intros. apply IH.
Qed.

Lemma New_flows at_ : flows (NewSarvamClient at_) [].
Proof.
  split; try done.
  - intros c. unfold doing. simpl. destruct (decide (c = 0%nat)) as [->|]; [by rewrite lookup_singleton_eq|by rewrite lookup_singleton_ne].
  - intros c. unfold doing. simpl. destruct (decide (c = 0%nat)) as [->|]; [lia|by rewrite lookup_singleton_ne].
  - intros c. simpl. lia.
  - simpl. lia.
Qed.

(** C14: transcripts and speech signals reach the agent in the order the
    provider sent them, whatever else happens: of every connection, the results
    of its messages are those taken, then those in the channel, then the one its
    loop is about to send, none lost, repeated or reordered; only once the call
    is over is one given up, the last. The channel never holds more than 16. *)
Theorem results_in_order at_ ls c :
  let s := mstate (run decode ls) (NewSarvamClient at_) in
  let o := mout (run decode ls) (NewSarvamClient at_) in
  heard c o = taken c o ++ queued c (results s) ++ pending (doing s c) ++ dropped c o /\
  (over s = false -> dropped c o = []) /\ (length (dropped c o ++ pending (doing s c)) <= 1)%nat /\
  (length (results s) <= resultSlots)%nat.
Proof.
  intros s o. destruct (run_flow ls _ [] (New_flows at_)) as [Ho Hd Hn Hu Hc Hs]. fold s in Ho, Hd, Hs. cbn [app] in Ho, Hd, Hc. fold o in Ho, Hd, Hc.
  split_and!; [apply Ho| | |done].
  - intros Hov. destruct (dropped c o) eqn:E; [done|]. destruct (Hd c) as [H _]; congruence.
  - rewrite length_app. destruct (dropped c o) eqn:E; [|destruct (Hd c) as [_ Hr]; [congruence|]; rewrite Hr, <- E; cbn [pending length]; specialize (Hc c); lia].
    destruct (doing s c) as [[]|]; simpl; lia.
Qed.
End results.

(** ** Runs *)

(** A message is its transcript. *)
Definition plain (d : bytes) : option inbound := Some (mkInbound (bs "data") d [] [] []).

(** A frame in [Feed] while a redial finishes asks for another: the connection
    just opened is replaced and stays open, past [Close]. *)
Example crossed_redial :
  let s := mstate (run plain
    [LReceive 0 None false; LReceive 0 None false;             (* the connection fails *)
     LFeed 1 FlushMsg; LCaller 1 true; LCaller 1 true;          (* a redial is started *)
     LRedial true; LFeed 2 (Audio []);                          (* a frame finds no connection *)
     LRedial true; LRedial true;                                (* the redial ends *)
     LCaller 2 true; LCaller 2 true; LRedial true; LRedial true; LRedial true;
     LOver; LClose]) (NewSarvamClient 0) in
  (conn s, closed s, map (opened s) [0; 1; 2]%nat) = (None, true, [Some false; Some true; Some false]).
Proof. by vm_compute. Qed.

(** Two failed dials, each after its wait. *)
Example waits_between_dials :
  let tries := [LFeed 1 FlushMsg; LCaller 1 true; LCaller 1 true; LRedial false; LRedial false; LRedial false] in
  mout (run plain ([LReceive 0 None false; LReceive 0 None false] ++ tries ++ tries ++ [LTick 200000000%N] ++ tries)) (NewSarvamClient 0) =
  [EShut 0; EChecked 1 0; EReturn 1 false; EDial; EDialFailed 0; EReturn 1 false;
   EChecked 1 200000000; EReturn 1 false; EDial; EDialFailed 200000000].
Proof. by vm_compute. Qed.
