(* ===== verification/Session.v ===== *)
(** [internal/session/call.go]: the lifecycle of one call and its
    once-guaranteed teardown. *)

From S2P Require Import Prelude.

Module Session.

Inductive State := StateNew | StateStaged | StateBridged | StateMediaActive | StateTornDown.

#[global] Instance State_dec : EqDecision State.
Proof. solve_decision. Defined.

(** [Call]: [ctxDone] is the cancelled [Ctx], [once] the used [teardownOnce]. *)
Record Call := mkCall { state : State; ctxDone : bool; once : bool }.

#[global] Instance eta_Call : Eta Call := fun c => mkCall (state c) (ctxDone c) (once c).

Definition New : Call := mkCall StateNew false false.

Definition SetState (c : Call) (s : State) : Call := c <| state := s |>.

(** [Teardown fn]: [true] when this call is the one that runs [fn], with the
    call as [fn] finds it. *)
Definition Teardown (c : Call) : bool * Call :=
  if once c then (false, c)
  else (true, (SetState c StateTornDown) <| once := true |> <| ctxDone := true |>).

(** The operations of a call, by any goroutine, in the order they take effect. *)
Inductive op := OpSet (s : State) | OpTeardown.

#[global] Instance op_dec : EqDecision op.
Proof. solve_decision. Defined.

Definition run_op (c : Call) (o : op) : bool * Call :=
  match o with
  | OpSet s => (false, SetState c s)
  | OpTeardown => Teardown c
  end.

Fixpoint run_ops (c : Call) (l : list op) : nat * Call :=
  match l with
  | [] => (0, c)
  | o :: r =>
      let '(b, c1) := run_op c o in
      let '(n, c2) := run_ops c1 r in
      ((if b then 1 else 0) + n, c2)
  end.

Lemma run_ops_cons (c : Call) (o : op) (l : list op) :
  run_ops c (o :: l) =
  ((if (run_op c o).1 then 1 else 0) + (run_ops (run_op c o).2 l).1,
   (run_ops (run_op c o).2 l).2).
Proof. simpl. destruct (run_op c o) as [b c1]. simpl. by destruct (run_ops c1 l). Qed.

Lemma run_ops_once (l : list op) (c : Call) :
  (run_ops c l).1 = if once c then 0 else if bool_decide (OpTeardown ∈ l) then 1 else 0.
Proof.
  revert c. induction l as [|o l IH]; intros c; [by destruct (once c)|].
  rewrite run_ops_cons. simpl. rewrite IH.
  destruct o as [s|]; simpl; [|unfold Teardown]; destruct (once c) eqn:Ho;
    simpl; rewrite ?Ho; repeat case_bool_decide; set_solver.
Qed.

Lemma run_ops_cancelled (l : list op) (c : Call) :
  (once c = true -> ctxDone c = true) -> OpTeardown ∈ l -> ctxDone (run_ops c l).2 = true.
Proof.
  intros H0 Hin.
  assert (forall l c, ctxDone c = true -> ctxDone (run_ops c l).2 = true) as Hkeep.
  { clear. induction l as [|o l IH]; intros c Hc; [done|]. rewrite run_ops_cons. simpl.
    apply IH. destruct o; simpl; [done|]. unfold Teardown. by destruct (once c). }
  revert c H0. induction l as [|o l IH]; intros c H0; [set_solver|].
  rewrite run_ops_cons. simpl.
  destruct o as [s|].
  - apply IH; [set_solver|done].
  - apply Hkeep. simpl. unfold Teardown. destruct (once c); [by apply H0|done].
Qed.

(** Whatever goroutines do with a new call and in whatever order, the
    teardown action runs exactly once if anyone asks for it and not at all
    otherwise, and the call's context is cancelled from then on. *)
Theorem teardown_exactly_once (l : list op) :
  (run_ops New l).1 = (if bool_decide (OpTeardown ∈ l) then 1 else 0) /\
  (bool_decide (OpTeardown ∈ l) = true -> ctxDone (run_ops New l).2 = true).
Proof.
  split; [by rewrite run_ops_once|]. intros H%bool_decide_eq_true. by apply run_ops_cancelled.
Qed.

Lemma teardown_exactly_once_witness :
  bool_decide (OpTeardown ∈ [OpSet StateStaged; OpTeardown; OpTeardown]) = true /\
  ctxDone (run_ops New [OpSet StateStaged; OpTeardown; OpTeardown]).2 = true.
Proof.
  split; [vm_compute; reflexivity|].
  apply (proj2 (teardown_exactly_once [OpSet StateStaged; OpTeardown; OpTeardown])).
  vm_compute. reflexivity.
Defined.

(** [SetState] does not check transitions: a state set after the teardown
    replaces [StateTornDown], so the state alone does not tell that a call is
    over. *)
Example set_after_teardown :
  state (SetState (Teardown New).2 StateBridged) = StateBridged.
Proof. reflexivity. Qed.

End Session.
