(* ===== verification/JitterBuffer.v ===== *)
(** [internal/media/jitterbuffer.go]: reordering inbound RTP payloads over a
    fixed window, one frame out per tick. *)

From S2P Require Import Prelude.

Local Open Scope Z_scope.
Local Open Scope m_scope.

Module JB.

Definition starveFreezeThreshold : Z := 3.
Definition maxPrimingTicksFactor : Z := 2.

Inductive jbState := jbWaiting | jbActive | jbFrozen.

#[global] Instance jbState_dec : EqDecision jbState.
Proof. solve_decision. Defined.

Ltac jb_cases := open_m; intros; repeat (case_match; simplify_eq/=); bool_to_prop.

Section buffer.
(** A pooled frame buffer ([*[]byte]); [Release]'s [None] is [silentFrame()]. *)
Context {F : Type}.

(** [JitterSink]'s events, and frames given back to the pool. *)
Inductive ev :=
  | Late | Duplicate | SilenceInserted | SSRCChange | Reanchor | OutOfWindow
  | PutFrame (f : F).

Record t := mk {
  size : Z; slots : list (option F); have : list bool;
  started : bool; state : jbState; misses : Z; primingTicks : Z; maxPrimingTicks : Z;
  expected : Z; ssrc : Z;
}.

#[global] Instance eta_t : Eta t := fun j =>
  mk (size j) (slots j) (have j) (started j) (state j) (misses j) (primingTicks j)
     (maxPrimingTicks j) (expected j) (ssrc j).

Definition act (A : Type) : Type := M t ev A.
Definition upd (f : t -> t) : act unit := mmod f.

Definition NewJitterBuffer (size : Z) : t :=
  mk size (replicate (Z.to_nat size) None) (replicate (Z.to_nat size) false)
     false jbWaiting 0 0 (maxPrimingTicksFactor * size) 0 0.

(** [depthLocked]. *)
Definition depth (j : t) : Z := Z.of_nat (length (base.filter (fun b => b = true) (have j))).

(** The frames [clearSlotsLocked] returns to the pool, in slot order. *)
Fixpoint occupied (h : list bool) (s : list (option F)) : list F :=
  match h, s with
  | b :: h', x :: s' =>
      (if b then match x with Some f => [f] | None => [] end else []) ++ occupied h' s'
  | _, _ => []
  end.

Definition clearSlots : act unit := fun j =>
  (tt, j <| slots := replicate (length (slots j)) None |>
         <| have := replicate (length (have j)) false |>,
   map PutFrame (occupied (have j) (slots j))).

(** [reanchorLocked]. *)
Definition reanchor (seq : Z) : act unit :=
  clearSlots ;;
  upd (fun j => j <| expected := seq |> <| state := jbWaiting |> <| misses := 0 |>
                  <| primingTicks := 0 |>).

(** [resetLocked]. *)
Definition reset (seq newssrc : Z) : act unit :=
  clearSlots ;;
  upd (fun j => j <| expected := seq |> <| ssrc := newssrc |> <| state := jbWaiting |>
                  <| misses := 0 |> <| primingTicks := 0 |>).

(** [int16(seq - j.expected)] on [uint16]s. *)
Definition dist (seq exp : Z) : Z := i16 (u16 (seq - exp)).

Definition slot_of (seq size : Z) : nat := Z.to_nat (Z.rem seq size).

(** [Push]'s first [switch]; [true] is its early return. *)
Definition anchor (seq newssrc : Z) (frame : F) : act bool :=
  let! j := mread in
  if negb (started j) then
    upd (fun j => j <| started := true |> <| expected := seq |> <| ssrc := newssrc |>
                    <| state := jbWaiting |>) ;; mret false
  else if negb (newssrc =? ssrc j) then
    reset seq newssrc ;; memit SSRCChange ;; mret false
  else if bool_decide (state j = jbFrozen) then
    if dist seq (expected j) <? 0 then memit Late ;; memit (PutFrame frame) ;; mret true
    else reanchor seq ;; memit Reanchor ;; mret false
  else if bool_decide (state j = jbWaiting) && (i16 (size j) <=? dist seq (expected j)) then
    memit OutOfWindow ;; reanchor seq ;; mret false
  else mret false.

(** [Push]'s second [switch]. *)
Definition place (seq : Z) (frame : F) : act unit :=
  let! j := mread in
  let diff := dist seq (expected j) in
  if diff <? 0 then memit Late ;; memit (PutFrame frame)
  else if i16 (size j) <=? diff then memit OutOfWindow ;; memit (PutFrame frame)
  else
    let slot := slot_of seq (size j) in
    if default false (have j !! slot) then memit Duplicate ;; memit (PutFrame frame)
    else upd (fun j => j <| slots ::= <[slot := Some frame]> |> <| have ::= <[slot := true]> |>).

Definition Push (seq newssrc : Z) (frame : F) : act unit :=
  let! early := anchor seq newssrc frame in
  if early then mret tt else place seq frame.

(** The priming gate of [Release]; [true] means: return silence. *)
Definition priming : act bool :=
  let! j := mread in
  if bool_decide (state j = jbWaiting) then
    if depth j <? size j then
      upd (fun j => j <| primingTicks ::= Z.succ |>) ;;
      (if primingTicks j + 1 <? maxPrimingTicks j then mret true
       else upd (fun j => j <| state := jbActive |> <| misses := 0 |>) ;; mret false)
    else upd (fun j => j <| state := jbActive |> <| misses := 0 |>) ;; mret false
  else mret false.

(** The rest of [Release]: the expected slot, or a miss. *)
Definition take_slot : act (option F) :=
  let! j := mread in
  let slot := slot_of (expected j) (size j) in
  if default false (have j !! slot) then
    upd (fun j => j <| slots ::= <[slot := None]> |> <| have ::= <[slot := false]> |>
                    <| expected := u16 (expected j + 1) |> <| misses := 0 |>) ;;
    mret (default None (slots j !! slot))
  else
    memit SilenceInserted ;;
    if bool_decide (state j = jbFrozen) then mret None
    else
      upd (fun j => j <| misses ::= Z.succ |> <| expected := u16 (expected j + 1) |>) ;;
      mwhen (starveFreezeThreshold <=? misses j + 1) (upd (fun j => j <| state := jbFrozen |>)) ;;
      mret None.

Definition Release : act (option F) :=
  let! j := mread in
  if negb (started j) then mret None
  else
    let! silent := priming in
    if silent then mret None else take_slot.

(** *** Runs *)

Inductive op := OpPush (seq newssrc : Z) (f : F) | OpRelease.

(** The frames pushed by a run, in order. *)
Fixpoint pushed (l : list op) : list F :=
  match l with
  | [] => []
  | OpPush _ _ f :: r => f :: pushed r
  | OpRelease :: r => pushed r
  end.

(** A run's releases, in order. *)
Fixpoint run (l : list op) : act (list (option F)) :=
  match l with
  | [] => mret []
  | OpPush q s f :: r => Push q s f ;; run r
  | OpRelease :: r => let! x := Release in let! y := run r in mret (x :: y)
  end.

(** The frames a log returned to the pool. *)
Fixpoint puts (l : list ev) : list F :=
  match l with
  | [] => []
  | PutFrame f :: r => f :: puts r
  | _ :: r => puts r
  end.

Definition buffered (j : t) : list F := occupied (have j) (slots j).

Definition somes (l : list (option F)) : list F := omap id l.

(** *** The invariant *)

(** The slot arrays have the window's size and agree on what is stored. *)
Record wf (j : t) : Prop := {
  wf_size : 1 <= size j <= 10;
  wf_slots : Z.of_nat (length (slots j)) = size j;
  wf_have : have j = map (fun o => bool_decide (is_Some o)) (slots j);
  wf_expected : 0 <= expected j < 65536;
  wf_misses : 0 <= misses j <= starveFreezeThreshold;
  wf_active : state j <> jbFrozen -> misses j < starveFreezeThreshold;
  wf_fresh : started j = false -> state j = jbWaiting;
}.

(** *** Slots as options *)

Lemma occupied_somes (l : list (option F)) :
  occupied (map (fun o => bool_decide (is_Some o)) l) l = omap id l.
Proof. induction l as [|[f|] l IH]; simpl; rewrite ?IH; done. Qed.

Lemma map_insert {A B} (g : A -> B) (l : list A) k x :
  map g (<[k := x]> l) = <[k := g x]> (map g l).
Proof. revert k. induction l as [|y l IH]; intros [|k]; simpl; [done..|]. by rewrite IH. Qed.

Lemma occupied_insert (l : list (option F)) k o :
  occupied (<[k := bool_decide (is_Some o)]> (map (fun o => bool_decide (is_Some o)) l))
           (<[k := o]> l) = omap id (<[k := o]> l).
Proof. rewrite <- occupied_somes. f_equal. symmetry.
  apply (map_insert (fun o => bool_decide (is_Some o))). Qed.

Lemma buffered_somes (j : t) : wf j -> buffered j = omap id (slots j).
Proof. intros H. unfold buffered. rewrite (wf_have j H). apply occupied_somes. Qed.

Lemma omap_insert_Some (l : list (option F)) k f :
  l !! k = Some None -> omap id (<[k := Some f]> l) ≡ₚ f :: omap id l.
Proof.
  revert k. induction l as [|x l IH]; intros [|k]; simpl; [done..| |].
  - by intros [= ->].
  - intros H. destruct x as [y|]; simpl; rewrite IH by done; [by rewrite Permutation_swap|done].
Qed.

Lemma omap_insert_None (l : list (option F)) k f :
  l !! k = Some (Some f) -> omap id l ≡ₚ f :: omap id (<[k := None]> l).
Proof.
  revert k. induction l as [|x l IH]; intros [|k]; simpl; [done..| |].
  - by intros [= ->].
  - intros H. destruct x as [y|]; simpl; rewrite (IH k) by done; [by rewrite Permutation_swap|done].
Qed.

Lemma omap_replicate_None n : omap id (replicate n (None : option F)) = [].
Proof. by induction n. Qed.

Lemma puts_map (l : list F) : puts (map PutFrame l) = l.
Proof. induction l; simpl; congruence. Qed.

Lemma puts_app (v w : list ev) : puts (v ++ w) = puts v ++ puts w.
Proof. induction v as [|[] v IH]; simpl; rewrite ?IH; done. Qed.

Lemma slot_of_lt q n : 0 <= q -> 1 <= n -> (slot_of q n < Z.to_nat n)%nat.
Proof.
  intros Hq Hn. unfold slot_of. pose proof (Z.rem_bound_pos q n ltac:(lia) ltac:(lia)). lia.
Qed.

Lemma slot_lookup (j : t) q : wf j -> 0 <= q ->
  exists o, slots j !! slot_of q (size j) = Some o /\
    have j !! slot_of q (size j) = Some (bool_decide (is_Some o)).
Proof.
  intros H Hq. pose proof (wf_size j H). pose proof (wf_slots j H).
  pose proof (slot_of_lt q (size j) Hq ltac:(lia)).
  destruct (lookup_lt_is_Some_2 (slots j) (slot_of q (size j))) as [o Ho]; [lia|].
  exists o. split; [done|]. rewrite (wf_have j H), list_lookup_fmap. by rewrite Ho.
Qed.

Lemma wf_set_slot (j : t) k o e n st :
  wf j -> 0 <= e < 65536 -> 0 <= n <= starveFreezeThreshold ->
  (st <> jbFrozen -> n < starveFreezeThreshold) -> (started j = false -> st = jbWaiting) ->
  wf (mk (size j) (<[k := o]> (slots j)) (<[k := bool_decide (is_Some o)]> (have j))
         (started j) st n (primingTicks j) (maxPrimingTicks j) e (ssrc j)).
Proof.
  intros [] ????. split; simpl; rewrite ?length_insert; try done.
  rewrite wf_have0. by rewrite (map_insert (fun o => bool_decide (is_Some o))).
Qed.

Lemma map_replicate {A B} (g : A -> B) n x : map g (replicate n x) = replicate n (g x).
Proof. induction n; simpl; congruence. Qed.

Lemma clear_wf (j : t) e s n ticks src :
  wf j -> 0 <= e < 65536 -> 0 <= n < starveFreezeThreshold ->
  (started j = false -> s = jbWaiting) ->
  wf (mk (size j) (replicate (length (slots j)) None) (replicate (length (have j)) false)
         (started j) s n ticks (maxPrimingTicks j) e src).
Proof.
  intros [] ???. split; simpl; rewrite ?length_replicate; try done; try lia.
  rewrite wf_have0, length_map. clear. by rewrite map_replicate.
Qed.

Lemma clear_buffered (j : t) e s n ticks src :
  wf j ->
  buffered (mk (size j) (replicate (length (slots j)) None) (replicate (length (have j)) false)
         (started j) s n ticks (maxPrimingTicks j) e src) = [].
Proof.
  intros []. unfold buffered. simpl. rewrite wf_have0, length_map. clear.
  by induction (length (slots j)).
Qed.

(** What one step does to the frames: [f] are handed in, [g] handed out. *)
Definition conserves (fin fout : list F) (j j' : t) (w : list ev) : Prop :=
  fin ++ buffered j ≡ₚ fout ++ puts w ++ buffered j'.

(** The window emptied and moved to [e]: what [reanchor] and [reset] leave. *)
Definition cleared (e src : Z) (j : t) : t :=
  mk (size j) (replicate (length (slots j)) None) (replicate (length (have j)) false)
     (started j) jbWaiting 0 0 (maxPrimingTicks j) e src.

Definition freed (j : t) : list ev := map PutFrame (buffered j).

Lemma reanchor_eq q j : reanchor q j = (tt, cleared q (ssrc j) j, freed j).
Proof.
  unfold freed, buffered. rewrite <- (app_nil_r (map PutFrame _)). reflexivity.
Qed.

Lemma reset_eq q s j : reset q s j = (tt, cleared q s j, freed j).
Proof.
  unfold freed, buffered. rewrite <- (app_nil_r (map PutFrame _)). reflexivity.
Qed.

Lemma anchor_cases (j j' : t) q s f b w :
  anchor q s f j = (b, j', w) ->
  (b = true /\ j' = j /\ w = [Late; PutFrame f]) \/
  (b = false /\ j' = j /\ w = [] /\ started j = true) \/
  (b = false /\ started j = false /\ w = [] /\
   j' = mk (size j) (slots j) (have j) true jbWaiting (misses j) (primingTicks j)
           (maxPrimingTicks j) q s) \/
  (b = false /\ started j = true /\ puts w = buffered j /\ exists s', j' = cleared q s' j).
Proof.
  intros E. unfold anchor in E.
  apply mseq_inv in E as (jr & jr' & w0 & w1 & [= <- <- <-] & E & ->).
  destruct (started j); simpl in E; [|by injection E as <- <- <-; auto 10].
  assert (puts (freed j) = buffered j) as Hp by apply puts_map.
  destruct (negb _); [|destruct (bool_decide _); [destruct (_ <? _)|destruct (_ && _)]];
    unfold mseq, memit, mret in E; rewrite ?reanchor_eq, ?reset_eq in E;
    injection E as <- <- <-.
  1,3,4: right; right; right; split_and!; [done|done| |by eexists];
    simpl; by rewrite ?puts_app, ?Hp, ?app_nil_r.
  - by left.
  - by right; left.
Qed.

Lemma anchor_spec (j j' : t) q s f b w :
  wf j -> 0 <= q < 65536 -> anchor q s f j = (b, j', w) ->
  wf j' /\ size j' = size j /\ (b = false -> started j' = true) /\
  (if b then conserves [f] [] j j' w else conserves [] [] j j' w).
Proof.
  intros H Hq E. unfold conserves.
  apply anchor_cases in E as [(-> & -> & ->)|[(-> & -> & -> & ?)|[(-> & Hst & -> & ->)|(-> & Hst & Hp & s' & ->)]]].
  - by split_and!.
  - by split_and!.
  - split_and!; try done. destruct H as [????? Ha Hf].
    split; simpl; try done. intros _. apply Ha. by rewrite Hf.
  - split_and!; try done; [by apply clear_wf|].
    unfold cleared. by rewrite Hp, clear_buffered, app_nil_r.
Qed.

Lemma place_spec (j j' : t) q f u w :
  wf j -> 0 <= q < 65536 -> place q f j = (u, j', w) ->
  wf j' /\ size j' = size j /\ started j' = started j /\ conserves [f] [] j j' w.
Proof.
  intros H Hq. pose proof (slot_lookup j q H ltac:(lia)) as (o & Ho & Hh).
  unfold place, conserves. unfold upd; jb_cases; rewrite ?Hh in *; simplify_eq/=; split_and!; try done.
  - change true with (bool_decide (is_Some (Some f))). apply (wf_set_slot j); by destruct H.
  - unfold buffered. simpl. rewrite (wf_have j H). destruct o; [done|].
    rewrite (occupied_insert (slots j) _ (Some f)), occupied_somes. by rewrite omap_insert_Some.
Qed.

Lemma Push_spec (j j' : t) q s f u w :
  wf j -> 0 <= q < 65536 -> Push q s f j = (u, j', w) ->
  wf j' /\ size j' = size j /\ conserves [f] [] j j' w.
Proof.
  intros H Hq E. unfold Push in E. apply mseq_inv in E as (b & j1 & w1 & w2 & E1 & E & ->).
  apply anchor_spec in E1 as (Hw & Hsz & Hst & Hc); [|done..].
  destruct b; [minv; by rewrite app_nil_r|].
  apply place_spec in E as (Hw' & Hsz' & Hst' & Hc'); [|done..].
  split_and!; [done|congruence|].
  unfold conserves in *. simpl in *. by rewrite puts_app, Hc, Permutation_middle, Hc', app_assoc.
Qed.

Lemma priming_spec (j j' : t) b w :
  wf j -> started j = true -> priming j = (b, j', w) ->
  wf j' /\ size j' = size j /\ started j' = started j /\ expected j' = expected j /\
  slots j' = slots j /\ have j' = have j /\ w = [] /\
  (if b then state j' = jbWaiting else state j' <> jbWaiting).
Proof.
  intros [] Hst. unfold priming, starveFreezeThreshold in *. unfold upd; jb_cases; split_and!; try done;
    split; simpl; unfold starveFreezeThreshold; try done; try lia; try (intros; apply wf_active0); congruence.
Qed.

(** The expected frame is there. *)
Lemma take_slot_hit (j : t) f :
  wf j -> slots j !! slot_of (expected j) (size j) = Some (Some f) ->
  exists j', take_slot j = (Some f, j', []) /\ wf j' /\ size j' = size j /\
    started j' = started j /\ state j' = state j /\ misses j' = 0 /\
    expected j' = u16 (expected j + 1) /\ ssrc j' = ssrc j /\
    slots j' = <[slot_of (expected j) (size j) := None]> (slots j).
Proof.
  intros H Ho. pose proof (slot_lookup j (expected j) H (proj1 (wf_expected j H))) as (o & Ho' & Hh).
  simplify_eq. unfold take_slot, upd. open_m. rewrite Hh, Ho. simpl.
  eexists. split; [reflexivity|]. split_and!; try done.
  apply (wf_set_slot j _ None); [done|apply u16_range|done|done|apply H].
Qed.

(** It is not: silence, and one more miss while the stream is live. *)
Lemma take_slot_miss (j : t) :
  wf j -> started j = true -> slots j !! slot_of (expected j) (size j) = Some None ->
  exists j', take_slot j = (None, j', [SilenceInserted]) /\ wf j' /\ size j' = size j /\
    started j' = started j /\ slots j' = slots j /\ have j' = have j /\ ssrc j' = ssrc j /\
    (state j = jbFrozen -> j' = j) /\
    (state j <> jbFrozen -> misses j' = misses j + 1 /\ expected j' = u16 (expected j + 1) /\
       state j' = (if starveFreezeThreshold <=? misses j + 1 then jbFrozen else state j)).
Proof.
  intros H Hst Ho. pose proof (slot_lookup j (expected j) H (proj1 (wf_expected j H))) as (o & Ho' & Hh).
  simplify_eq. unfold take_slot, upd. open_m. rewrite Hh. simpl.
  destruct (bool_decide (state j = jbFrozen)) eqn:Hs; bool_to_prop;
    [eexists; by split_and!|].
  assert (misses j < starveFreezeThreshold) by (by apply (wf_active j H)).
  destruct (starveFreezeThreshold <=? misses j + 1) eqn:E;
    (eexists; split; [reflexivity|]); bool_to_prop; pose proof (u16_range (expected j + 1));
    (split; [|by split_and!]); destruct H as [????? Ha Hf]; split; simpl; try done;
    unfold starveFreezeThreshold in *; try lia.
  congruence.
Qed.

Lemma take_slot_spec (j j' : t) x w :
  wf j -> started j = true -> take_slot j = (x, j', w) ->
  wf j' /\ size j' = size j /\ started j' = started j /\ conserves [] (somes [x]) j j' w.
Proof.
  intros H Hst E. pose proof (slot_lookup j (expected j) H (proj1 (wf_expected j H))) as (o & Ho & _).
  unfold conserves. destruct o as [f|].
  - destruct (take_slot_hit j f H Ho) as (j1 & E1 & Hw & ? & ? & _ & _ & _ & _ & Hs).
    rewrite E1 in E. injection E as <- <- <-. split_and!; try done.
    rewrite (buffered_somes j), (buffered_somes j1), Hs by done. by apply omap_insert_None.
  - destruct (take_slot_miss j H Hst Ho) as (j1 & E1 & Hw & ? & ? & Hs & _).
    rewrite E1 in E. injection E as <- <- <-. split_and!; try done.
    by rewrite (buffered_somes j), (buffered_somes j1), Hs by done.
Qed.

Lemma Release_spec (j j' : t) x w :
  wf j -> Release j = (x, j', w) ->
  wf j' /\ size j' = size j /\ started j' = started j /\ conserves [] (somes [x]) j j' w.
Proof.
  intros H E. unfold Release in E.
  apply mseq_inv in E as (jr & jr' & w0 & w1 & [= <- <- <-] & E & ->).
  destruct (started j) eqn:Es; simpl in E; [|minv; split_and!; try done; by unfold conserves].
  apply mseq_inv in E as (b & j1 & v & v' & E0 & E & ->).
  apply priming_spec in E0 as (Hw & ? & ? & ? & Hs & ? & -> & _); [|done..].
  assert (buffered j1 = buffered j) as Hb
    by (by rewrite (buffered_somes j1), (buffered_somes j), Hs by done).
  unfold conserves. rewrite <- Hb. destruct b; [minv; split_and!; try congruence; done|].
  apply take_slot_spec in E as (? & ? & ? & Hc); [|done|congruence].
  split_and!; try congruence; done.
Qed.

(** *** Runs of a buffer *)

Definition op_ok (o : op) : Prop :=
  match o with OpPush q _ _ => 0 <= q < 65536 | OpRelease => True end.

Lemma run_spec (l : list op) (j j' : t) out w :
  wf j -> Forall op_ok l -> run l j = (out, j', w) ->
  wf j' /\ size j' = size j /\ conserves (pushed l) (somes out) j j' w.
Proof.
  unfold conserves. revert j out w. induction l as [|o l IH]; intros j out w H Hl E; simpl in E.
  { minv. by split_and!. }
  apply Forall_cons in Hl as [Ho Hl]. destruct o as [q s f|];
    apply mseq_inv in E as (x & j1 & w1 & w2 & E1 & E & ->).
  - apply Push_spec in E1 as (Hw & ? & Hc); [|done..].
    apply IH in E as (? & ? & Hc'); [|done..]. split_and!; [done|congruence|].
    unfold conserves in Hc. simpl in *. rewrite puts_app.
    rewrite (Permutation_app_comm (pushed l)), app_comm_cons, Hc.
    rewrite <- app_assoc, (Permutation_app_comm (buffered j1)), Hc'. solve_Permutation.
  - apply mseq_inv in E as (y & j2 & w3 & w4 & E2 & E & ->). minv.
    apply Release_spec in E1 as (Hw & ? & _ & Hc); [|done..].
    apply IH in E2 as (? & ? & Hc'); [|done..]. split_and!; [done|congruence|].
    unfold conserves in Hc. simpl app in Hc. rewrite Hc, app_nil_r, puts_app.
    assert (somes (x :: y) = somes [x] ++ somes y) as -> by (by destruct x).
    simpl pushed. transitivity (somes [x] ++ puts w1 ++ (pushed l ++ buffered j1));
      [solve_Permutation|]. rewrite Hc'. solve_Permutation.
Qed.

Lemma wf_new n : 1 <= n <= 10 -> wf (NewJitterBuffer n).
Proof.
  intros. unfold NewJitterBuffer, starveFreezeThreshold. split; simpl; rewrite ?length_replicate;
    try done; try lia. by rewrite map_replicate.
Qed.

Lemma buffered_new n : 1 <= n <= 10 -> buffered (NewJitterBuffer n) = [].
Proof. intros. rewrite buffered_somes by (by apply wf_new). apply omap_replicate_None. Qed.

(** C40: no inbound frame buffer is leaked or duplicated by the jitter buffer:
    over any run of [Push] and [Release] from a new buffer, the frames pushed
    are, as a multiset, exactly the frames released, the frames given back to
    the pool (late, duplicate, out of window, cleared) and the frames still in
    the window. *)
Theorem frames_conserved n l out j w :
  1 <= n <= 10 -> Forall op_ok l -> run l (NewJitterBuffer n) = (out, j, w) ->
  pushed l ≡ₚ somes out ++ puts w ++ buffered j.
Proof.
  intros Hn Hl E. apply run_spec in E as (_ & _ & Hc); [|by apply wf_new|done].
  unfold conserves in Hc. by rewrite buffered_new, app_nil_r in Hc by done.
Qed.

(** *** A stream that stops *)

(** The buffer has given up on the stream: nothing is due at [expected]. *)
Definition frozen (j : t) : Prop :=
  started j = true /\ state j = jbFrozen /\ slots j !! slot_of (expected j) (size j) = Some None.

(** How many more ticks it can take to get there without a packet. *)
Definition stall_ticks (j : t) : Z :=
  3 * Z.of_nat (length (omap id (slots j))) +
  match state j with
  | jbWaiting => 3 + Z.max 0 (maxPrimingTicks j - primingTicks j)
  | jbActive => 3 - misses j
  | jbFrozen => 0
  end.

Lemma frozen_Release (j : t) : wf j -> frozen j -> Release j = (None, j, [SilenceInserted]).
Proof.
  intros H (Hst & Hf & Ho). unfold Release.
  destruct (take_slot_miss j H Hst Ho) as (j' & E & _ & _ & _ & _ & _ & _ & Hj & _).
  unfold mseq at 1, mread at 1. rewrite Hst. simpl.
  unfold mseq, priming, mread, mseq. rewrite Hf. simpl. rewrite E, (Hj Hf). done.
Qed.

Lemma take_slot_progress (j j' : t) x w :
  wf j -> started j = true -> state j <> jbWaiting -> ~ frozen j ->
  take_slot j = (x, j', w) -> state j' <> jbWaiting /\ stall_ticks j' < stall_ticks j.
Proof.
  intros H Hst Hw Hnf E.
  pose proof (slot_lookup j (expected j) H (proj1 (wf_expected j H))) as (o & Ho & _).
  pose proof (wf_active j H) as Ha. unfold starveFreezeThreshold, stall_ticks in *.
  destruct o as [f|].
  - destruct (take_slot_hit j f H Ho) as (j1 & E1 & _ & _ & _ & Hs & Hm & _ & _ & Hsl).
    rewrite E1 in E. injection E as <- <- <-. rewrite Hs, Hm, Hsl. split; [done|].
    rewrite (omap_insert_None (slots j) _ f) by done. simpl length.
    destruct (state j); [done| |lia]. specialize (Ha ltac:(done)). lia.
  - destruct (take_slot_miss j H Hst Ho) as (j1 & E1 & _ & _ & _ & Hsl & _ & _ & _ & Hm).
    rewrite E1 in E. injection E as <- <- <-. rewrite Hsl.
    destruct (state j) eqn:Es; [done| |by destruct Hnf].
    destruct Hm as (-> & _ & ->); [done|]. specialize (Ha ltac:(done)).
    unfold starveFreezeThreshold. destruct (3 <=? misses j + 1) eqn:E2; bool_to_prop; split; try done; lia.
Qed.

Lemma Release_progress (j j' : t) x w :
  wf j -> started j = true -> ~ frozen j -> Release j = (x, j', w) ->
  stall_ticks j' < stall_ticks j.
Proof.
  intros H Hst Hnf E. unfold Release in E.
  apply mseq_inv in E as (jr & jr' & w0 & w1 & [= <- <- <-] & E & ->).
  rewrite Hst in E. simpl in E.
  apply mseq_inv in E as (b & j1 & v & v' & E0 & E & ->).
  pose proof E0 as Ep. apply priming_spec in Ep as (Hw & Hsz & Hs1 & He & Hs & _ & _ & Hb); [|done..].
  destruct (decide (state j = jbWaiting)) as [Hjw|Hjw]; cycle 1.
  { unfold priming in E0. apply mseq_inv in E0 as (jr & jr' & w2 & w3 & [= <- <- <-] & E0 & ->).
    rewrite bool_decide_eq_false_2 in E0 by done. minv.
    by eapply take_slot_progress in E as [_ ?]. }
  assert (stall_ticks j1 <= stall_ticks j - (if b then 1 else 0)) as Hle.
  { unfold priming in E0. revert E0. unfold stall_ticks. rewrite Hs, Hjw. unfold upd. open_m.
    rewrite Hjw. repeat case_match; intros; simplify_eq/=; bool_to_prop; lia. }
  destruct b; [minv; lia|].
  eapply take_slot_progress in E as [_ ?]; [lia|done|congruence|done|].
  intros (_ & Hf & _). unfold priming in E0. revert E0. unfold upd. open_m.
  rewrite Hjw. repeat case_match; intros; simplify_eq/=.
Qed.

Lemma frozen_dec (j : t) : wf j -> frozen j \/ ~ frozen j.
Proof.
  intros H. pose proof (slot_lookup j (expected j) H (proj1 (wf_expected j H))) as (o & Ho & _).
  unfold frozen. rewrite Ho. destruct (started j), (state j), o;
    try (left; by split_and!); right; by intros (? & ? & ?).
Qed.

Lemma frozen_run (j : t) n : wf j -> frozen j -> (run (replicate n OpRelease) j).1.2 = j.
Proof.
  intros H Hf. induction n as [|n IH]; [done|]. simpl. unfold mseq.
  rewrite frozen_Release by done. destruct (run _ j) as [[y j2] w]. simpl in *. by subst.
Qed.

(** A stalled stream always ends in silence: with no further packet, within
    [stall_ticks] ticks (two windows of priming, three misses, and what is
    buffered) the buffer is frozen, and every later [Release] returns silence
    and leaves the buffer, window position included, untouched. *)
Theorem stall_freezes (j j' : t) n out w :
  wf j -> started j = true -> stall_ticks j <= Z.of_nat n ->
  run (replicate n OpRelease) j = (out, j', w) ->
  frozen j' /\ Release j' = (None, j', [SilenceInserted]).
Proof.
  intros H Hst Hn E. enough (wf j' /\ frozen j') as [? ?] by auto using frozen_Release.
  revert j out w H Hst Hn E. induction n as [|n IH]; intros j out w H Hst Hn E; simpl in E.
  - injection E as <- <- <-. split; [done|]. pose proof (wf_active j H). unfold stall_ticks, starveFreezeThreshold in *.
    pose proof (slot_lookup j (expected j) H (proj1 (wf_expected j H))) as (o & Ho & _).
    destruct (state j) eqn:Es; [lia| |]; [specialize (H0 ltac:(done)); lia|].
    split_and!; [done..|]. destruct o as [f|]; [|done].
    rewrite (omap_insert_None (slots j) _ f) in Hn by done. simpl in Hn. lia.
  - apply mseq_inv in E as (x & j1 & w1 & w2 & E1 & E & ->).
    apply mseq_inv in E as (y & j2 & w3 & w4 & E2 & E & ->). minv.
    destruct (frozen_dec j H) as [Hf|Hf].
    + rewrite frozen_Release in E1 by done. injection E1 as <- <- <-.
      pose proof (frozen_run j n H Hf) as Hr. rewrite E2 in Hr. simpl in Hr. by subst.
    + pose proof E1 as E1'. apply Release_progress in E1; [|done..].
      apply Release_spec in E1' as (? & ? & ? & _); [|done].
      eapply IH; [done|congruence|lia|done].
Qed.

End buffer.
Arguments ev F : clear implicits.
Arguments t F : clear implicits.
Arguments op F : clear implicits.

(** *** Playout order

    Frames tagged with the sequence number they were pushed under. *)

Section order.
Context {X : Type}.
Notation buf := (t (Z * X)).
Notation slot := (option (Z * X)).

Definition tagged (o : op (Z * X)) : Prop :=
  match o with OpPush q _ f => f.1 = q /\ 0 <= q < 65536 | OpRelease => True end.

(** Every stored frame lies within the window, in the slot of its number. *)
Definition windowed (e n : Z) (l : list slot) : Prop :=
  forall k q x, l !! k = Some (Some (q, x)) ->
    k = slot_of q n /\ 0 <= q < 65536 /\ exists d, 0 <= d < n /\ q = u16 (e + d).

Record ordered (j : buf) : Prop := {
  ord_wf : wf j;
  ord_fresh : started j = false -> slots j = replicate (length (slots j)) None;
  ord_win : windowed (expected j) (size j) (slots j);
}.

Lemma windowed_empty e n k : windowed e n (replicate k None).
Proof. intros i q x Hi. apply lookup_replicate in Hi as [Hi _]. done. Qed.

Lemma windowed_take e n l :
  windowed e n l -> windowed e n (<[slot_of e n := None]> l).
Proof.
  intros H k q x Hk. destruct (decide (slot_of e n = k)) as [<-|Hne].
  - apply list_lookup_insert_Some in Hk as [(_ & ? & _)|[? _]]; done.
  - rewrite list_lookup_insert_ne in Hk by done. eauto.
Qed.

(** With nothing in the slot that is due, the window can move on by one. *)
Lemma windowed_advance e n l :
  0 <= e < 65536 -> windowed e n l ->
  (forall q x, l !! slot_of e n <> Some (Some (q, x))) -> windowed (u16 (e + 1)) n l.
Proof.
  intros He H Hno k q x Hk. destruct (H k q x Hk) as (Hs & Hq & d & Hd & Hqd).
  split_and!; try done; try lia.
  assert (d <> 0) as Hd0.
  { intros ->. rewrite Z.add_0_r, u16_small in Hqd by lia. subst. by eapply Hno. }
  exists (d - 1). split; [lia|]. rewrite Hqd. zunfold. Z.div_mod_to_equations. lia.
Qed.

Lemma windowed_put e n l q x :
  0 <= q < 65536 -> 0 <= dist q e < n -> windowed e n l ->
  windowed e n (<[slot_of q n := Some (q, x)]> l).
Proof.
  intros Hq Hd H k q' x' Hk.
  apply list_lookup_insert_Some in Hk as [(<- & [= <- <-] & _)|[Hne Hk]]; [|eauto].
  split_and!; try done; try lia. exists (dist q e). split; [done|].
  unfold dist in *. clear H. zunfold. Z.div_mod_to_equations. lia.
Qed.

Lemma ordered_anchor (j j' : buf) q s f b w :
  ordered j -> 0 <= q < 65536 -> anchor q s f j = (b, j', w) -> ordered j'.
Proof.
  intros H Hq E. pose proof E as E'.
  apply anchor_spec in E' as (Hw' & _); [|by destruct H|done]. destruct H as [Hw Hf Ho].
  apply anchor_cases in E as [(-> & -> & ->)|[(-> & -> & -> & ?)|[(-> & Hst & -> & ->)|(-> & Hst & Hp & s' & ->)]]];
    [done|done| |]; (split; [done| |]); simpl; try congruence.
  - rewrite (Hf Hst). apply windowed_empty.
  - apply windowed_empty.
Qed.

Lemma ordered_place (j j' : buf) q f u w :
  ordered j -> started j = true -> f.1 = q -> 0 <= q < 65536 -> place q f j = (u, j', w) -> ordered j'.
Proof.
  intros [Hw Hf Ho] Hst Hfq Hq E. pose proof E as E'.
  apply place_spec in E' as (Hw' & _ & Hst' & _); [|done..].
  pose proof (wf_size j Hw).
  split; [done|congruence|]. clear Hst' Hw'. revert E. destruct f as [q' x]. simpl in Hfq. subst q'.
  unfold place. unfold upd; jb_cases; try done. apply windowed_put; [done| |done]. rewrite i16_small in *; lia.
Qed.

Lemma ordered_Push (j j' : buf) q s f u w :
  ordered j -> f.1 = q -> 0 <= q < 65536 -> Push q s f j = (u, j', w) -> ordered j'.
Proof.
  intros H Hf Hq E. unfold Push in E. apply mseq_inv in E as (b & j1 & w1 & w2 & E1 & E & ->).
  pose proof E1 as E1'. apply anchor_spec in E1' as (_ & _ & Hst & _); [|by destruct H|done].
  apply ordered_anchor in E1; [|done..]. destruct b; [by minv|].
  eapply ordered_place in E; eauto.
Qed.

Lemma ordered_take (j j' : buf) x w :
  ordered j -> started j = true -> take_slot j = (x, j', w) -> ordered j'.
Proof.
  intros [Hw Hf Ho] Hst E. pose proof (wf_expected j Hw) as He.
  pose proof (slot_lookup j (expected j) Hw (proj1 He)) as (o & Hl & _).
  destruct o as [f|].
  - destruct (take_slot_hit j f Hw Hl) as (j1 & E1 & Hw1 & Hsz & Hst1 & _ & _ & He1 & _ & Hs).
    rewrite E1 in E. injection E as <- <- <-. split; [done|congruence|].
    rewrite He1, Hsz, Hs. apply windowed_advance; [done|by apply windowed_take|].
    intros q y Hq. apply list_lookup_insert_Some in Hq as [(_ & ? & _)|[? _]]; done.
  - destruct (take_slot_miss j Hw Hst Hl) as (j1 & E1 & Hw1 & Hsz & Hst1 & Hs & _ & _ & Hj & Hm).
    rewrite E1 in E. injection E as <- <- <-. split; [done|congruence|].
    destruct (decide (state j = jbFrozen)) as [Hz|Hz]; [by rewrite Hj|].
    destruct (Hm Hz) as (_ & -> & _). rewrite Hsz, Hs. apply windowed_advance; [done|done|].
    intros q y. by rewrite Hl.
Qed.

Lemma ordered_Release (j j' : buf) x w :
  ordered j -> Release j = (x, j', w) -> ordered j'.
Proof.
  intros H E. unfold Release in E.
  apply mseq_inv in E as (jr & jr' & w0 & w1 & [= <- <- <-] & E & ->).
  destruct (started j) eqn:Es; simpl in E; [|by minv].
  apply mseq_inv in E as (b & j1 & v & v' & E0 & E & ->).
  apply priming_spec in E0 as (Hw & Hsz & Hst & He & Hs & _ & -> & _); [|by destruct H|done].
  assert (ordered j1) as H1.
  { destruct H as [_ Hf Ho]. split; [done|congruence|]. by rewrite He, Hsz, Hs. }
  destruct b; [by minv|]. eapply ordered_take; [|by rewrite Hst|]; done.
Qed.

Lemma ordered_run l (j j' : buf) out w :
  ordered j -> Forall tagged l -> run l j = (out, j', w) -> ordered j'.
Proof.
  revert j out w. induction l as [|o l IH]; intros j out w H Hl E; simpl in E; [by minv|].
  apply Forall_cons in Hl as [Ht Hl]. destruct o as [q s f|];
    apply mseq_inv in E as (x & j1 & w1 & w2 & E1 & E & ->).
  - eapply IH; [|done..]. destruct Ht. by eapply ordered_Push.
  - apply mseq_inv in E as (y & j2 & w3 & w4 & E2 & E & ->). minv.
    eapply IH; [|done..]. by eapply ordered_Release.
Qed.

Lemma ordered_new n : 1 <= n <= 10 -> ordered (NewJitterBuffer n).
Proof.
  intros Hn. split; [by apply wf_new|simpl; by rewrite length_replicate|apply windowed_empty].
Qed.

(** Two numbers of one window share a slot only when they are equal, as long as
    the window divides the sequence space. *)
Lemma slot_unique e d n :
  0 < n -> (n | 65536) -> 0 <= e < 65536 -> 0 <= d < n ->
  slot_of (u16 (e + d)) n = slot_of e n -> d = 0.
Proof.
  intros Hn Hdiv He Hd Hs. unfold slot_of in Hs. pose proof (u16_range (e + d)).
  rewrite !Z.rem_mod_nonneg in Hs by lia.
  pose proof (Z.mod_pos_bound (u16 (e + d)) n Hn). pose proof (Z.mod_pos_bound e n Hn).
  assert (u16 (e + d) mod n = e mod n) as Hm by lia. unfold u16 in Hm.
  assert ((e + d) mod n = e mod n) as Hm2.
  { rewrite <- Hm. symmetry. by apply Z.mod_mod_divide. }
  pose proof (Z.div_mod (e + d) n). pose proof (Z.div_mod e n).
  assert (d = n * ((e + d) / n - e / n)) as Hk by lia.
  assert ((e + d) / n - e / n = 0) as Hk0 by nia. rewrite Hk0 in Hk. lia.
Qed.

(** Frames are played in sequence order: whatever the network reordered,
    duplicated or lost, a frame [Release] hands out is the one whose sequence
    number is due, and the next one due is its successor; for windows that
    divide the 16-bit sequence space (1, 2, 4 or 8 packets). *)
Theorem released_in_order l n out (j j' : buf) w q x w' :
  1 <= n <= 10 -> (n | 65536) -> Forall tagged l ->
  run l (NewJitterBuffer n) = (out, j, w) -> Release j = (Some (q, x), j', w') ->
  q = expected j /\ expected j' = u16 (q + 1).
Proof.
  intros Hn Hdiv Hl Er E. pose proof Er as Er'.
  apply run_spec in Er' as (Hw & Hsz & _); [|by apply wf_new|].
  2:{ eapply Forall_impl; [done|]. by intros [] H; [apply H|]. }
  apply ordered_run in Er; [|by apply ordered_new|done]. simpl in Hsz.
  unfold Release in E. apply mseq_inv in E as (jr & jr' & w0 & w1 & [= <- <- <-] & E & ->).
  destruct (started j) eqn:Es; simpl in E; [|by minv].
  apply mseq_inv in E as (b & j1 & v & v' & E0 & E & ->).
  apply priming_spec in E0 as (Hw1 & Hsz1 & Hst & He & Hs & _ & -> & _); [|done..].
  destruct b; [by minv|].
  pose proof (slot_lookup j1 (expected j1) Hw1 (proj1 (wf_expected j1 Hw1))) as (o & Ho & _).
  destruct o as [f|].
  - destruct (take_slot_hit j1 f Hw1 Ho) as (j2 & E1 & _ & _ & _ & _ & _ & He2 & _ & _).
    rewrite E1 in E. injection E as -> <- <-. rewrite Hs in Ho.
    destruct (ord_win j Er _ q x Ho) as (Hk & Hq & d & Hd & Hqd).
    rewrite He, Hsz1, Hsz in *. rewrite Hqd in Hk.
    rewrite (slot_unique (expected j) d n), Z.add_0_r, u16_small in Hqd
      by (try done; try lia; by destruct Hw).
    split; [done|]. by rewrite He2, Hqd.
  - destruct (take_slot_miss j1 Hw1 ltac:(congruence) Ho) as (j2 & E1 & _). rewrite E1 in E. done.
Qed.
End order.

(** *** Concrete runs *)

Definition push (q : Z) : op (Z * unit) := OpPush q 7 (q, tt).
Definition tick : op (Z * unit) := OpRelease.

Definition released (n : Z) (l : list (op (Z * unit))) : list (option Z) :=
  map (option_map fst) (mval (run l) (NewJitterBuffer n)).

Definition reordered : list (op (Z * unit)) :=
  [push 10; push 12; push 11; push 13; tick; push 14; push 12; tick; tick].

Definition reordered_end : t (Z * unit) := mstate (run reordered) (NewJitterBuffer 4).

Lemma frames_conserved_witness :
  puts (mout (run reordered) (NewJitterBuffer 4)) = [(12, tt)] /\
  pushed reordered ≡ₚ somes (mval (run reordered) (NewJitterBuffer 4)) ++
    puts (mout (run reordered) (NewJitterBuffer 4)) ++ buffered reordered_end.
Proof.
  split; [by vm_compute|].
  apply (frames_conserved 4 reordered);
    [lia|repeat constructor; lia|exact (m_parts (run reordered) _)].
Defined.

Lemma released_in_order_witness :
  mval Release reordered_end = Some (13, tt) /\
  13 = expected reordered_end /\ expected (mstate Release reordered_end) = u16 (13 + 1).
Proof.
  split; [by vm_compute|].
  apply (released_in_order reordered 4 (mval (run reordered) (NewJitterBuffer 4)) reordered_end
    (mstate Release reordered_end) (mout (run reordered) (NewJitterBuffer 4)) 13 tt
    (mout Release reordered_end));
    [lia|by exists 16384|repeat constructor; simpl; lia|exact (m_parts (run reordered) _)|by vm_compute].
Defined.

Definition one_frame : t (Z * unit) := mstate (Push 5 7 (5, tt)) (NewJitterBuffer 3).

Lemma stall_freezes_witness :
  stall_ticks one_frame = 12 /\
  (let j' := mstate (run (replicate 12 OpRelease)) one_frame in
   frozen j' /\ Release j' = (None, j', [SilenceInserted])).
Proof.
  split; [by vm_compute|].
  apply (stall_freezes one_frame _ 12 (mval (run (replicate 12 OpRelease)) one_frame)
    (mout (run (replicate 12 OpRelease)) one_frame)); 
    [|done|by vm_compute|exact (m_parts (run (replicate 12 OpRelease)) _)].
  split; vm_compute; try done; by split.
Defined.

Example reorder_is_undone :
  released 4 reordered = [Some 10; Some 11; Some 12].
Proof. by vm_compute. Qed.

(** The default window of three packets does not divide 65536: when the
    sequence number wraps, an in-order, loss-free stream loses a frame as a
    "duplicate" (65535 and 0 share slot 0) and plays silence in its place. *)
Theorem wrap_drops_frame :
  let l := [push 65533; push 65534; push 65535; tick; push 0; tick; push 1; tick; push 2; tick; tick] in
  released 3 l = [Some 65533; Some 65534; Some 65535; None; Some 1] /\
  mout (run l) (NewJitterBuffer 3) = [Duplicate; PutFrame (0, tt); SilenceInserted].
Proof. by vm_compute. Qed.

(** A frozen buffer still plays, and moves past, a frame that is due. *)
Example frozen_advances :
  let l := map push [0; 1; 2; 3; 4] ++ [tick; tick; tick; tick; push 8; tick; push 9; tick; tick; tick] in
  let j := mstate (run l) (NewJitterBuffer 5) in
  state j = jbFrozen /\ expected j = 8 /\ mval Release j = Some (8, tt) /\
  expected (mstate Release j) = 9.
Proof. by vm_compute. Qed.
End JB.
