(* ===== verification/AriManager.v ===== *)
(** [internal/ari]: [Manager] of handlers.go with outbound.go and transfer.go,
    as a transition system. Calls into Asterisk, the operating system and the
    agent are effects; their outcomes are read from an [env].

    The event loop runs one handler at a time; a handler that waits for
    Asterisk while other goroutines (timers, media planes, the connectivity
    watcher, a dialer) can run is split there: [loop] is what the event loop
    is in the middle of. A [*call] or [*outboundCall] is its index in a table;
    the maps [pending], [active] and [outbound] hold those indices. *)

From S2P Require Import Prelude PortAlloc Session.

Local Open Scope Z_scope.
Local Open Scope m_scope.

Module Manager.

(** Channel ids; [cause] of a destroyed channel is Asterisk's number. *)
Abbreviation chan := Z (only parsing).
Abbreviation ptr := Z (only parsing).

(** [Outcome]: connected, or why not ([dograh.Status...]). *)
Inductive outcome := OutConnected | OutCause (cause : Z) | OutNoAnswer | OutFailed.

#[global] Instance outcome_dec : EqDecision outcome.
Proof. solve_decision. Defined.

(** [outboundCall]: [o_done] is the used [once]. *)
Record ocall := mkOcall { o_chan : chan; answered : bool; agentStarted : bool; watchdog : bool; o_done : bool }.
#[global] Instance eta_ocall : Eta ocall := fun o =>
  mkOcall (o_chan o) (answered o) (agentStarted o) (watchdog o) (o_done o).

(** [call]. *)
Record call := mkCall {
  sess : Session.Call; c_ID : chan; ExternalID : chan; Port : Z;
  out : option ptr; bridge : option Z; media : bool; mediaCancelled : bool;
  transferChannel : option chan; maxDur : bool; sockets : bool;
}.
#[global] Instance eta_call : Eta call := fun c =>
  mkCall (sess c) (c_ID c) (ExternalID c) (Port c) (out c) (bridge c) (media c) (mediaCancelled c)
         (transferChannel c) (maxDur c) (sockets c).

Inductive effect :=
  | EAnswer (c : chan) | EHangup (c : chan) | EDeleteBridge (b : Z)
  | EAddChannel (b : Z) (c : chan) | ERemoveChannel (b : Z) (c : chan)
  | EBind (port : Z) | ECloseSocket (p : ptr) | EExternalMedia (c : chan) (port : Z)
  | EStartMedia (p : ptr) | EAgent (p : ptr) | EStopMedia (p : ptr)
  | EOriginate (c : chan) | EDone (p : ptr) (o : outcome) | ECallStarted (p : ptr).

(** The outcomes of one step's calls, and the identifiers it draws. *)
Record env := mkEnv {
  answer_ok : bool; bind_ok : bool; extmedia_ok : bool;
  bridge_ok : bool; add_caller_ok : bool; add_ext_ok : bool; originate_ok : bool;
  add_dest_ok : bool; newChan : chan; newBridge : Z;
}.

(** What the event loop is in the middle of: [completeBridge] of a call. *)
Inductive loopAt := Idle | Bridging (p : ptr).

Section manager.
Context {P : Type} `{PortPool P}.
(** [cfg.MaxCallDuration > 0]. *)
Variable maxCallDuration : bool.

(** [Manager]. [transfers] are the ringing transfer legs; [callsActive] is the
    [metrics.CallsActive] gauge; [next] numbers new calls. *)
Record st := mkSt {
  ports : P; pending : gmap Z Z; active : gmap Z Z; transfers : gset Z;
  outbound : gmap Z Z; calls : gmap Z call; outs : gmap Z ocall;
  callsActive : Z; next : Z; loop : loopAt;
}.
#[global] Instance eta_st : Eta st := fun s =>
  mkSt (ports s) (pending s) (active s) (transfers s) (outbound s) (calls s) (outs s)
       (callsActive s) (next s) (loop s).

Definition act (A : Type) : Type := M st effect A.
Definition upd (f : st -> st) : act unit := mmod f.
Definition emit (e : effect) : act unit := memit e.

Definition updCall (p : ptr) (f : call -> call) : act unit := upd (fun s => s <| calls ::= alter f p |>).
Definition updOut (p : ptr) (f : ocall -> ocall) : act unit := upd (fun s => s <| outs ::= alter f p |>).

Definition hangup (c : chan) : act unit := emit (EHangup c).

(** *** Outbound calls *)

(** [outboundCall.finish]: [Done] is started at most once. *)
Definition finish (p : ptr) (o : outcome) : act unit :=
  let! s := mread in
  match outs s !! p with
  | Some oc => mwhen (negb (o_done oc)) (updOut p (fun oc => oc <| o_done := true |>) ;; emit (EDone p o))
  | None => mret tt
  end.

(** [takeRinging]. *)
Definition takeRinging (id : chan) : act (option ptr) :=
  let! s := mread in
  match outbound s !! id with
  | Some p =>
      match outs s !! p with
      | Some oc =>
          if answered oc then mret None
          else
            upd (fun s => s <| outbound ::= delete id |>) ;;
            updOut p (fun oc => oc <| watchdog := false |>) ;;
            mret (Some p)
      | None => mret None
      end
  | None => mret None
  end.

Definition onOutboundDestroyed (id : chan) (cause : Z) : act unit :=
  let! o := takeRinging id in
  match o with Some p => finish p (OutCause cause) | None => mret tt end.

Definition outboundTimedOut (id : chan) : act unit :=
  let! o := takeRinging id in
  match o with Some p => hangup id ;; finish p OutNoAnswer | None => mret tt end.

Definition outboundSetupFailed (id : chan) : act unit :=
  let! s := mread in
  upd (fun s => s <| outbound ::= delete id |>) ;;
  match outbound s !! id with Some p => finish p OutFailed | None => mret tt end.

Definition finishOutbound (c : call) : act unit :=
  match out c with
  | None => mret tt
  | Some p =>
      let! s := mread in
      upd (fun s => s <| outbound ::= delete (c_ID c) |>) ;;
      match outs s !! p with
      | Some oc => finish p (if agentStarted oc then OutConnected else OutFailed)
      | None => mret tt
      end
  end.

Fixpoint hangupRinging (l : list chan) : act unit :=
  match l with
  | [] => mret tt
  | id :: r =>
      (let! o := takeRinging id in
       match o with Some p => hangup id ;; finish p OutFailed | None => mret tt end) ;;
      hangupRinging r
  end.

(** [hangupRingingOutbound]: answered calls are skipped by [takeRinging]. *)
Definition hangupRingingOutbound : act unit :=
  let! s := mread in hangupRinging (map fst (map_to_list (outbound s))).

(** [Dial]; [Some id] on success. *)
Definition Dial (e : env) : act (option chan) :=
  let! s := mread in
  let id := newChan e in
  let p := next s in
  upd (fun s => s <| next ::= Z.succ |> <| outs ::= <[p := mkOcall id false false false false]> |>
                  <| outbound ::= <[id := p]> |>) ;;
  emit (EOriginate id) ;;
  if originate_ok e then updOut p (fun oc => oc <| watchdog := true |>) ;; mret (Some id)
  else upd (fun s => s <| outbound ::= delete id |>) ;; mret None.

(** *** The end of a call *)

Definition freePort (n : Z) : act unit := upd (fun s => s <| ports := pp_free (ports s) n |>).

Definition closeMediaSocket (p : ptr) : act unit :=
  emit (ECloseSocket p) ;; updCall p (fun c => c <| sockets := false |>).

(** [abort]: cleanup of a call that never got its bridge. *)
Definition abort (p : ptr) : act unit :=
  let! s := mread in
  match calls s !! p with
  | None => mret tt
  | Some c =>
      upd (fun s => s <| pending ::= delete (ExternalID c) |>) ;;
      upd (fun s => s <| pending ::= delete (c_ID c) |>) ;;
      let '(first, sess') := Session.Teardown (sess c) in
      mwhen first
        (updCall p (fun c => c <| sess := sess' |>) ;;
         closeMediaSocket p ;;
         freePort (Port c) ;;
         hangup (c_ID c) ;; hangup (ExternalID c) ;;
         finishOutbound c)
  end.

(** [teardown]. *)
Definition teardown (p : ptr) : act unit :=
  let! s := mread in
  match calls s !! p with
  | None => mret tt
  | Some c =>
      let '(first, sess') := Session.Teardown (sess c) in
      mwhen first
        (updCall p (fun c => c <| sess := sess' |> <| maxDur := false |>) ;;
         upd (fun s => s <| active ::= delete (c_ID c) |>) ;;
         upd (fun s => s <| active ::= delete (ExternalID c) |>) ;;
         upd (fun s => s <| pending ::= delete (c_ID c) |>) ;;
         upd (fun s => s <| pending ::= delete (ExternalID c) |>) ;;
         match transferChannel c with
         | Some t => upd (fun s => s <| active ::= delete t |>) ;; hangup t
         | None => mret tt
         end ;;
         closeMediaSocket p ;;
         match bridge c with Some b => emit (EDeleteBridge b) | None => mret tt end ;;
         hangup (c_ID c) ;; hangup (ExternalID c) ;;
         freePort (Port c) ;;
         upd (fun s => s <| callsActive ::= Z.pred |>) ;;
         finishOutbound c)
  end.

Fixpoint teardown_list (l : list ptr) : act unit :=
  match l with
  | [] => mret tt
  | p :: r => teardown p ;; teardown_list r
  end.

(** [teardownAll]; the set [seen] of calls as a list without repetition. *)
Definition teardownAll : act unit :=
  hangupRingingOutbound ;;
  let! s := mread in
  let seen : gset Z := list_to_set (map snd (map_to_list (active s)) ++ map snd (map_to_list (pending s))) in
  upd (fun s => s <| active := ∅ |> <| pending := ∅ |>) ;;
  teardown_list (elements seen).

(** [hasCalls]; one tick of [watchConnectivity], [up] its last reading. *)
Definition hasCalls (s : st) : bool := negb (bool_decide (active s = ∅)) || negb (bool_decide (pending s = ∅)).
Definition watchTick (up now : bool) : act unit :=
  let! s := mread in mwhen (now && negb up && hasCalls s) teardownAll.

(** *** The start of a call *)

(** [startCall]. *)
Definition startCall (e : env) (id : chan) : act unit :=
  let! s := mread in
  let o := outbound s !! id in
  (if bool_decide (o = None) then emit (EAnswer id) else mret tt) ;;
  if bool_decide (o = None) && negb (answer_ok e) then hangup id
  else
    match pp_alloc (ports s) with
    | (ps, Err _) => upd (fun s => s <| ports := ps |>) ;; hangup id ;; outboundSetupFailed id
    | (ps, Ok port) =>
        upd (fun s => s <| ports := ps |>) ;;
        emit (EBind port) ;;
        if negb (bind_ok e) then freePort port ;; hangup id ;; outboundSetupFailed id
        else
          let p := next s in
          let ext := newChan e in
          let c := mkCall (Session.SetState Session.New Session.StateStaged) id ext port o None false false
                          None maxCallDuration true in
          upd (fun s => s <| next ::= Z.succ |> <| calls ::= <[p := c]> |>
                          <| pending := <[id := p]> (<[ext := p]> (pending s)) |>) ;;
          emit (EExternalMedia ext port) ;;
          if extmedia_ok e then mret tt
          else
            upd (fun s => s <| pending ::= delete ext |>) ;;
            upd (fun s => s <| pending ::= delete id |>) ;;
            closeMediaSocket p ;;
            freePort port ;;
            hangup id ;;
            outboundSetupFailed id
    end.

(** [completeBridge], after the ARI calls that create and fill the bridge. *)
Definition completeBridge (e : env) (p : ptr) : act unit :=
  let! s := mread in
  match calls s !! p with
  | None => mret tt
  | Some c =>
      let b := newBridge e in
      if negb (bridge_ok e) then abort p
      else
        emit (EAddChannel b (c_ID c)) ;;
        if negb (add_caller_ok e) then emit (EDeleteBridge b) ;; abort p
        else
          emit (EAddChannel b (ExternalID c)) ;;
          if negb (add_ext_ok e) then emit (EDeleteBridge b) ;; abort p
          else
            updCall p (fun c => c <| bridge := Some b |>
                                  <| mediaCancelled := Session.ctxDone (sess c) |>
                                  <| sess := Session.SetState (sess c) Session.StateBridged |>) ;;
            upd (fun s => s <| active := <[ExternalID c := p]> (<[c_ID c := p]> (active s)) |>
                            <| callsActive ::= Z.succ |>) ;;
            emit (ECallStarted p)
  end.

Inductive appArg := ArgNone | ArgTransfer | ArgOutbound.

Definition onTransferLegAnswered (id : chan) : act unit :=
  let! s := mread in
  if bool_decide (id ∈ transfers s) then mret tt else hangup id.

Definition onOutboundAnswered (e : env) (id : chan) : act unit :=
  let! s := mread in
  match outbound s !! id with
  | None => hangup id
  | Some p => updOut p (fun oc => oc <| answered := true |> <| watchdog := false |>) ;; startCall e id
  end.

(** [onStasisStart]; the externalMedia leg's arrival leaves the event loop in
    the middle of [completeBridge]. *)
Definition onStasisStart (e : env) (id : chan) (arg : appArg) : act unit :=
  match arg with
  | ArgTransfer => onTransferLegAnswered id
  | ArgOutbound => onOutboundAnswered e id
  | ArgNone =>
      let! s := mread in
      let ext := match pending s !! id with
                 | Some p => match calls s !! p with
                             | Some c => if ExternalID c =? id then Some (p, c) else None
                             | None => None
                             end
                 | None => None
                 end in
      match ext with
      | Some (p, c) =>
          upd (fun s => s <| pending ::= delete (c_ID c) |>) ;;
          upd (fun s => s <| pending ::= delete (ExternalID c) |>) ;;
          upd (fun s => s <| loop := Bridging p |>)
      | None => startCall e id
      end
  end.

Definition onStasisEnd (id : chan) : act unit :=
  let! s := mread in
  match active s !! id with
  | Some p =>
      match calls s !! p with
      | Some c =>
          upd (fun s => s <| active ::= delete (c_ID c) |>) ;;
          upd (fun s => s <| active ::= delete (ExternalID c) |>) ;;
          teardown p
      | None => mret tt
      end
  | None =>
      match pending s !! id with
      | Some p => abort p
      | None => mret tt
      end
  end.

(** [mediaHandler]: from here the agent's record completes an outbound run. *)
Definition mediaHandler (p : ptr) : act unit :=
  let! s := mread in
  match calls s !! p with
  | Some c =>
      match out c with Some o => updOut o (fun oc => oc <| agentStarted := true |>) | None => mret tt end ;;
      emit (EAgent p)
  | None => mret tt
  end.

(** The end of [startRTPMedia] / [startAudioSocketMedia]: no media plane for a
    call torn down meanwhile. *)
Definition startMedia (p : ptr) : act unit :=
  let! s := mread in
  match calls s !! p with
  | Some c =>
      if bool_decide (Session.state (sess c) = Session.StateTornDown) then mret tt
      else
        updCall p (fun c => c <| media := true |>
                              <| sess := Session.SetState (sess c) Session.StateMediaActive |>) ;;
        emit (EStartMedia p)
  | None => mret tt
  end.

(** *** Transfers *)

(** [transfer]: registered, then dialed; and how its wait ends. *)
Definition transferDial (id : chan) : act unit :=
  upd (fun s => s <| transfers ::= union {[id]} |>) ;; emit (EOriginate id).

Inductive waitEnd := WOriginateFailed | WAnswered | WFailed | WTimeout | WCancelled.

(** [true]: the destination answered, [connect] is returned. *)
Definition transferEnd (id : chan) (w : waitEnd) : act bool :=
  upd (fun s => s <| transfers ::= fun t => t ∖ {[id]} |>) ;;
  match w with
  | WAnswered => mret true
  | WOriginateFailed | WFailed => mret false
  | WTimeout | WCancelled => hangup id ;; mret false
  end.

(** [connectTransfer]'s two halves, around [AddChannel]'s round trip. *)
Definition connectTransfer1 (p : ptr) (dest : chan) : act bool :=
  let! s := mread in
  match calls s !! p with
  | Some c =>
      match bridge c with
      | Some b =>
          if bool_decide (Session.state (sess c) = Session.StateTornDown)
          then hangup dest ;; mret false
          else emit (EAddChannel b dest) ;; mret true
      | None => hangup dest ;; mret false
      end
  | None => mret false
  end.

Definition connectTransfer2 (e : env) (p : ptr) (dest : chan) : act bool :=
  let! s := mread in
  match calls s !! p with
  | Some c =>
      if negb (add_dest_ok e) || bool_decide (Session.state (sess c) = Session.StateTornDown)
      then hangup dest ;; mret false
      else
        updCall p (fun c => c <| transferChannel := Some dest |>) ;;
        upd (fun s => s <| active := delete (ExternalID c) (<[dest := p]> (active s)) |>) ;;
        emit (ERemoveChannel (default 0 (bridge c)) (ExternalID c)) ;;
        updCall p (fun c => c <| mediaCancelled := true |>) ;;
        emit (EStopMedia p) ;;
        hangup (ExternalID c) ;;
        mret true
  | None => mret false
  end.

(** *** Interleavings *)

(** What the goroutines do, one label per atomic step. *)
Inductive label :=
  | LStasisStart (id : chan) (arg : appArg) | LBridge
  | LStasisEnd (id : chan) | LDestroyed (id : chan) (cause : Z)
  | LMaxDuration (p : ptr) | LMediaHandler (p : ptr) | LStartMedia (p : ptr) | LMediaDead (p : ptr)
  | LDial | LOutboundTimeout (id : chan)
  | LTransferDial (id : chan) | LTransferEnd (id : chan) (w : waitEnd)
  | LConnect1 (p : ptr) (dest : chan) | LConnect2 (p : ptr) (dest : chan)
  | LTeardownAll | LWatch (up now : bool).

Definition unit_act {A} (m : act A) : act unit := mseq m (fun _ => mret tt).

(** [completeBridge] has started the call's media goroutine. *)
Definition started (s : st) (p : ptr) : bool :=
  match calls s !! p with Some c => bool_decide (bridge c <> None) | None => false end.

(** One step; event-loop labels do nothing while the loop is elsewhere, the
    timer only fires while armed, the media goroutines (the last two teardown
    when the connection never arrives or the media are dead) and the agent's
    transfers run once started. *)
Definition step (e : env) (l : label) : act unit :=
  let! s := mread in
  let idle := match loop s with Idle => true | Bridging _ => false end in
  match l with
  | LStasisStart id arg => mwhen idle (onStasisStart e id arg)
  | LBridge =>
      match loop s with
      | Bridging p => upd (fun s => s <| loop := Idle |>) ;; completeBridge e p
      | Idle => mret tt
      end
  | LStasisEnd id => mwhen idle (onStasisEnd id)
  | LDestroyed id cause => mwhen idle (onOutboundDestroyed id cause)
  | LMaxDuration p =>
      mwhen (match calls s !! p with Some c => maxDur c | None => false end) (teardown p)
  | LMediaHandler p => mwhen (started s p) (mediaHandler p)
  | LStartMedia p => mwhen (started s p) (startMedia p)
  | LMediaDead p => mwhen (started s p) (teardown p)
  | LDial => unit_act (Dial e)
  | LOutboundTimeout id => outboundTimedOut id
  | LTransferDial id => transferDial id
  | LTransferEnd id w => unit_act (transferEnd id w)
  | LConnect1 p d => mwhen (started s p) (unit_act (connectTransfer1 p d))
  | LConnect2 p d => mwhen (started s p) (unit_act (connectTransfer2 e p d))
  | LTeardownAll => teardownAll
  | LWatch up now => watchTick up now
  end.

Fixpoint run (l : list (env * label)) : act unit :=
  match l with
  | [] => mret tt
  | (e, x) :: r => step e x ;; run r
  end.

Definition init (p : P) : st := mkSt p ∅ ∅ ∅ ∅ ∅ ∅ 0 0 Idle.

End manager.
End Manager.
