(* ===== verification/AriInv.v ===== *)
(** [internal/ari]: what every interleaving of the call manager's goroutines
    keeps: media ports are held by exactly the calls that are up, every call
    that is up can still be found, and a dialed call's [Done] runs once. *)

From S2P Require Import Prelude PortAlloc Session AriManager.
Import Manager.
Import Session (once, ctxDone).

Local Open Scope Z_scope.
Local Open Scope m_scope.

(** Compute updates of a known state (strictly: each of them once). *)
Ltac run_updates :=
  cbv beta iota zeta delta [field_update ports pending active transfers outbound calls outs callsActive
    next loop sess c_ID ExternalID Port out bridge media mediaCancelled transferChannel maxDur sockets
    Session.SetState Session.Teardown Session.state ctxDone once].

(** ** Table entries of a call *)

(** Dropping table entries is all a later teardown does. *)
Definition shrinks (m m' : gmap Z Z) (c : call) : Prop :=
  forall k, m' !! k = m !! k \/
    (m' !! k = None /\ (k = c_ID c \/ k = ExternalID c \/ transferChannel c = Some k)).

Lemma shrinks_refl m c : shrinks m m c.
Proof. intros k. by left. Qed.

Lemma shrinks_delete m m' c k :
  shrinks m m' c -> (k = c_ID c \/ k = ExternalID c \/ transferChannel c = Some k) ->
  shrinks m (delete k m') c.
Proof.
  intros Hm Hk j. destruct (decide (k = j)) as [->|]; [right; by rewrite lookup_delete_eq|].
  rewrite lookup_delete_ne by done. apply Hm.
Qed.
Ltac shrink := repeat (apply shrinks_delete; [|simpl; tauto]); apply shrinks_refl.


Lemma shrinks_sub m m' c k p : shrinks m m' c -> m' !! k = Some p -> m !! k = Some p.
Proof. intros Hm Hk. destruct (Hm k) as [<-|[? _]]; congruence. Qed.

Lemma shrinks_trans m1 m2 m3 c : shrinks m1 m2 c -> shrinks m2 m3 c -> shrinks m1 m3 c.
Proof.
  intros H1 H2 k. destruct (H2 k) as [->|[-> ?]]; [apply H1|]. by right.
Qed.

Section manager.
Context {P : Type} `{HP : PortPool P}.
Variable mcd : bool.
Local Notation st := (@Manager.st P).
Implicit Types s : st.

(** ** Dialed calls: [finish] and its callers touch nothing else *)

Definition calls_frame (s : st) (w : list effect) (s' : st) : Prop :=
  ports s' = ports s /\ pending s' = pending s /\ active s' = active s /\ calls s' = calls s /\
  next s' = next s /\ loop s' = loop s /\ transfers s' = transfers s /\ callsActive s' = callsActive s.

#[global] Instance calls_frame_rel : StepRel calls_frame.
Proof. unfold calls_frame. split; intros; intuition congruence. Qed.

Ltac frame := idtac; unfold calls_frame; simpl; intuition reflexivity.

Lemma finish_frame p o : does calls_frame (finish p o).
Proof. unfold finish, updOut, upd, emit. does_auto frame. Qed.
Local Hint Resolve finish_frame : does.

Lemma takeRinging_frame id : does calls_frame (takeRinging id).
Proof. unfold takeRinging, updOut, upd, emit. does_auto frame. Qed.
Local Hint Resolve takeRinging_frame : does.

Lemma hangup_frame id : does calls_frame (hangup id).
Proof. unfold hangup, emit. does_auto frame. Qed.
Local Hint Resolve hangup_frame : does.

Lemma onOutboundDestroyed_frame id c : does calls_frame (onOutboundDestroyed id c).
Proof. unfold onOutboundDestroyed. does_auto frame. Qed.

Lemma outboundTimedOut_frame id : does calls_frame (outboundTimedOut id).
Proof. unfold outboundTimedOut. does_auto frame. Qed.

Lemma outboundSetupFailed_frame id : does calls_frame (outboundSetupFailed id).
Proof. unfold outboundSetupFailed, upd. does_auto frame. Qed.

Lemma finishOutbound_frame c : does calls_frame (finishOutbound c).
Proof. unfold finishOutbound, upd. does_auto frame. Qed.

Lemma hangupRinging_frame l : does calls_frame (hangupRinging l).
Proof. induction l; simpl; does_auto frame. Qed.
Local Hint Resolve hangupRinging_frame outboundSetupFailed_frame finishOutbound_frame
  onOutboundDestroyed_frame outboundTimedOut_frame : does.

Lemma hangupRingingOutbound_frame : does calls_frame (hangupRingingOutbound).
Proof. unfold hangupRingingOutbound. does_auto frame. Qed.

(** ** The end of a call, as one change *)

(** The call after the action of [Session.Teardown]. *)
Definition ended (c : call) : call := c <| sess := (Session.Teardown (sess c)).2 |> <| sockets := false |>.

Definition drop (c : call) (m : gmap Z Z) : gmap Z Z := delete (ExternalID c) (delete (c_ID c) m).

Definition same_but_tables (s s' : st) : Prop :=
  ports s' = ports s /\ calls s' = calls s /\ next s' = next s /\ loop s' = loop s.

(** [p], up in [s], is ended in [s']: its port is free, and only its own
    entries leave the tables. *)
Definition ends (p : ptr) (c : call) (s s' : st) : Prop :=
  (exists c', calls s' = <[p := c']> (calls s) /\ sess c' = (Session.Teardown (sess c)).2 /\
  sockets c' = false /\ c_ID c' = c_ID c /\ ExternalID c' = ExternalID c /\
  transferChannel c' = transferChannel c /\ bridge c' = bridge c) /\
  ports s' = pp_free (ports s) (Port c) /\
  shrinks (active s) (active s') c /\ shrinks (pending s) (pending s') c /\
  next s' = next s /\ loop s' = loop s.

Lemma alter_at {A} (f : A -> A) (m : gmap Z A) p c : m !! p = Some c -> alter f p m = <[p := f c]> m.
Proof. intros Hp. apply map_eq. intros k. rewrite lookup_alter, lookup_insert. case_decide; subst; by rewrite ?Hp. Qed.

Lemma frame_of {A} (m : act A) s : does calls_frame m ->
  let s' := mstate m s in
  ports s' = ports s /\ pending s' = pending s /\ active s' = active s /\ calls s' = calls s /\
  next s' = next s /\ loop s' = loop s.
Proof. intros Hm. destruct (Hm s) as (?&?&?&?&?&?&?&?). simpl. auto 10. Qed.

Lemma ends_frame p c s s1 s2 : ends p c s s1 -> ports s2 = ports s1 /\ pending s2 = pending s1 /\
  active s2 = active s1 /\ calls s2 = calls s1 /\ next s2 = next s1 /\ loop s2 = loop s1 ->
  ends p c s s2.
Proof. intros Hs (Hp&Hpe&Ha&Hc&Hn&Hl). unfold ends in *. by rewrite Hp, Hpe, Ha, Hc, Hn, Hl. Qed.

Ltac unfold_acts :=
  unfold closeMediaSocket, freePort, hangup, mwhen, updCall, updOut, emit, upd.

Ltac ended_by Hc :=
  (eapply ends_frame; [|apply (frame_of _ _ (finishOutbound_frame _))]); run_updates;
  unfold ends; simpl; split_and!; try done; try shrink;
  eexists; split;
    [erewrite (alter_at _ _ _ _ Hc), alter_at by apply lookup_insert_eq; apply insert_insert_eq|done].

Lemma teardown_ends p c s : calls s !! p = Some c -> once (sess c) = false ->
  ends p c s (mstate (teardown p) s).
Proof.
  intros Hc Ho. unfold teardown. rewrite mstate_read_seq, Hc.
  destruct s as [ps pe ac tr ob ca os cn nx lp]. simpl in Hc.
  destruct c as [[ss sd so] id ext po ou br me mc tc md so']. simpl in Ho. subst so.
  unfold Session.Teardown at 1. simpl once. cbv iota. unfold_acts. simpl transferChannel. simpl bridge.
  destruct tc as [t|]; destruct br as [b|]; run_state; ended_by Hc.
Qed.

Lemma abort_ends p c s : calls s !! p = Some c -> once (sess c) = false ->
  ends p c s (mstate (abort p) s).
Proof.
  intros Hc Ho. unfold abort. rewrite mstate_read_seq, Hc.
  destruct s as [ps pe ac tr ob ca os cn nx lp]. simpl in Hc.
  destruct c as [[ss sd so] id ext po ou br me mc tc md so']. simpl in Ho. subst so.
  unfold Session.Teardown at 1. simpl once. cbv iota. unfold_acts. run_state. ended_by Hc.
Qed.

Lemma teardown_again p c s : calls s !! p = Some c -> once (sess c) = true -> mstate (teardown p) s = s.
Proof.
  intros Hc Ho. unfold teardown. rewrite mstate_read_seq, Hc. unfold Session.Teardown. by rewrite Ho.
Qed.

Lemma abort_again p c s : calls s !! p = Some c -> once (sess c) = true ->
  let s' := mstate (abort p) s in
  same_but_tables s s' /\ shrinks (active s) (active s') c /\ shrinks (pending s) (pending s') c.
Proof.
  intros Hc Ho. unfold abort. rewrite mstate_read_seq, Hc. unfold Session.Teardown. rewrite Ho.
  unfold_acts. run_state. unfold same_but_tables, field_update; simpl.
  split_and!; try done; shrink.
Qed.

Lemma teardown_none p s : calls s !! p = None -> mstate (teardown p) s = s.
Proof. intros Hc. unfold teardown. by rewrite mstate_read_seq, Hc. Qed.

Lemma abort_none p s : calls s !! p = None -> mstate (abort p) s = s.
Proof. intros Hc. unfold abort. by rewrite mstate_read_seq, Hc. Qed.

(** ** Ports are held by the calls that are up *)

Context {ok_pool : P -> Prop} `{HL : !PortPoolLaws P ok_pool}.

(** Every call is up, over, or a set-up that failed; tables, timers, the event
    loop and the media goroutines know calls of the first two kinds only. *)
Definition sound (c : call) : Prop := sockets c = true \/ once (sess c) = true.
Definition tracked (s : st) (p : ptr) : Prop := exists c, calls s !! p = Some c /\ sound c.

Record inv (s : st) : Prop := mkInv {
  i_next : forall p c, calls s !! p = Some c -> p < next s;
  i_held : forall n, n ∈ pp_held (ports s) <->
    exists p c, calls s !! p = Some c /\ sockets c = true /\ Port c = n;
  i_distinct : forall p q c d, calls s !! p = Some c -> calls s !! q = Some d ->
    sockets c = true -> sockets d = true -> Port c = Port d -> p = q;
  i_once : forall p c, calls s !! p = Some c -> sockets c = true -> once (sess c) = false;
  i_bridge : forall p c, calls s !! p = Some c -> bridge c <> None \/ maxDur c = true -> sound c;
  i_pend : forall k p, pending s !! k = Some p -> tracked s p;
  i_act : forall k p, active s !! k = Some p -> tracked s p;
  i_loop : forall p, loop s = Bridging p -> tracked s p;
}.

(** Same call, as far as ports go. *)
Definition kin (c c' : call) : Prop :=
  sockets c' = sockets c /\ once (sess c') = once (sess c) /\ Port c' = Port c /\
  (bridge c' <> None \/ maxDur c' = true -> bridge c <> None \/ maxDur c = true \/ sound c).

Lemma kin_refl c : kin c c.
Proof. unfold kin. intuition. Qed.

Lemma kin_sound c c' : kin c c' -> sound c -> sound c'.
Proof. unfold kin, sound. intros (->&->&_) ?. done. Qed.

Lemma inv_update s s' : inv s -> pp_held (ports s') = pp_held (ports s) -> next s' = next s ->
  (forall p, option_Forall2 kin (calls s !! p) (calls s' !! p)) ->
  (forall k p, pending s' !! k = Some p -> tracked s p) ->
  (forall k p, active s' !! k = Some p -> tracked s p) ->
  (forall p, loop s' = Bridging p -> tracked s p) -> inv s'.
Proof.
  intros I Hp Hn Hc Hpe Hac Hlo.
  assert (Hb : forall p c', calls s' !! p = Some c' -> exists c, calls s !! p = Some c /\ kin c c').
  { intros p c' E. specialize (Hc p). rewrite E in Hc. inversion Hc; subst. eauto. }
  assert (Hf : forall p c, calls s !! p = Some c -> exists c', calls s' !! p = Some c' /\ kin c c').
  { intros p c E. specialize (Hc p). rewrite E in Hc. inversion Hc; subst. eauto. }
  assert (Ht : forall p, tracked s p -> tracked s' p).
  { intros p (c & E & Hs). destruct (Hf _ _ E) as (c' & E' & K). exists c'. eauto using kin_sound. }
  split; [..|by eauto|by eauto|by eauto].
  - intros p c' E. rewrite Hn. destruct (Hb _ _ E) as (c & E1 & _). by eapply i_next.
  - intros n. rewrite Hp, (i_held s I). split.
    + intros (p & c & E & Hs & <-). destruct (Hf _ _ E) as (c' & E' & K1 & _ & K2 & _).
      exists p, c'. split_and!; congruence.
    + intros (p & c' & E & Hs & <-). destruct (Hb _ _ E) as (c & E' & K1 & _ & K2 & _).
      exists p, c. split_and!; congruence.
  - intros p q c' d' E1 E2 H1 H2 H3.
    destruct (Hb _ _ E1) as (c & Ec & K1 & _ & K2 & _), (Hb _ _ E2) as (d & Ed & L1 & _ & L2 & _).
    eapply (i_distinct s I p q c d); congruence.
  - intros p c' E Hs. destruct (Hb _ _ E) as (c & E' & K1 & K2 & _). rewrite K2.
    eapply i_once; [done..|congruence].
  - intros p c' E Hs. destruct (Hb _ _ E) as (c & E' & K).
    eapply kin_sound; [done|]. destruct K as (_&_&_&K').
    destruct (K' Hs) as [?|[?|?]]; [eapply i_bridge; eauto..|done].
Qed.

Lemma all_kin (m : gmap Z call) p : option_Forall2 kin (m !! p) (m !! p).
Proof. destruct (m !! p); constructor. apply kin_refl. Qed.

Lemma alter_kin f (m : gmap Z call) p q : (forall c, m !! p = Some c -> kin c (f c)) ->
  option_Forall2 kin (m !! q) (alter f p m !! q).
Proof.
  intros Hk. rewrite lookup_alter. case_decide as E; [|apply all_kin]. subst.
  destruct (m !! q) eqn:E; constructor. by apply Hk.
Qed.

Definition same_calls (s s' : st) : Prop :=
  pp_held (ports s') = pp_held (ports s) /\ pending s' = pending s /\ active s' = active s /\ calls s' = calls s /\
  next s' = next s /\ loop s' = loop s.

Lemma inv_same s s' : inv s -> same_calls s s' -> inv s'.
Proof.
  intros I (Hp&Hpe&Ha&Hc&Hn&Hl). eapply inv_update; eauto; rewrite ?Hc, ?Hpe, ?Ha, ?Hl.
  - apply all_kin.
  - apply (i_pend s I).
  - apply (i_act s I).
  - apply (i_loop s I).
Qed.

Lemma frame_same {A} (m : act A) s : does calls_frame m -> same_calls s (mstate m s).
Proof. intros Hm. destruct (frame_of m s Hm) as (Hp&?). unfold same_calls. by rewrite Hp. Qed.

Lemma inv_frame {A} (m : act A) s : does calls_frame m -> inv s -> inv (mstate m s).
Proof. intros Hm I. by eapply inv_same, frame_same. Qed.

Lemma inv_shrinks s s' c : inv s -> same_but_tables s s' ->
  shrinks (active s) (active s') c -> shrinks (pending s) (pending s') c -> inv s'.
Proof.
  intros I (Hp&Hc&Hn&Hl) Ha Hpe. eapply inv_update; eauto; rewrite ?Hp, ?Hc, ?Hl; [done|..].
  - apply all_kin.
  - intros. eapply (i_pend s I), shrinks_sub; eauto.
  - intros. eapply (i_act s I), shrinks_sub; eauto.
  - apply (i_loop s I).
Qed.

(** Ending a call that is up gives its port back, and only its. *)
Lemma inv_ends p c s s' : inv s -> calls s !! p = Some c -> sockets c = true ->
  ends p c s s' -> inv s'.
Proof using HL.
  intros I E Hs ((c' & Hc & H1 & H2 & _) & Hp & Ha & Hpe & Hn & Hl).
  assert (Ho : once (sess c') = true).
  { rewrite H1. unfold Session.Teardown. by rewrite (i_once s I p c E Hs). }
  assert (Ht : forall q, tracked s q -> tracked s' q).
  { intros q (d & Ed & Hd). unfold tracked. rewrite Hc, lookup_insert. case_decide; [|by eauto].
    exists c'. split; [done|by right]. }
  split; rewrite ?Hc, ?Hn, ?Hl.
  - intros q d. rewrite lookup_insert. case_decide; [intros _; subst; eapply i_next; eauto|by apply i_next].
  - intros n. rewrite Hp, pp_free_held, elem_of_difference, elem_of_singleton, (i_held s I). split.
    + intros [(q & d & Ed & Hd & <-) Hne]. exists q, d. rewrite lookup_insert.
      case_decide; [subst; congruence|done].
    + intros (q & d & Ed & Hd & <-). rewrite lookup_insert in Ed.
      case_decide; [simplify_eq; congruence|]. split; [by exists q, d|].
      intros Hpo. by pose proof (i_distinct s I q p d c Ed E Hd Hs Hpo).
  - intros q r d d'. rewrite !lookup_insert. repeat case_decide; intros; simplify_eq; try congruence.
    eapply (i_distinct s I); eauto.
  - intros q d. rewrite lookup_insert. case_decide; intros; simplify_eq; [congruence|by eapply i_once].
  - intros q d. rewrite lookup_insert. case_decide; intros; simplify_eq; [by right|by eapply i_bridge].
  - intros k q Hk. eapply Ht, (i_pend s I k), shrinks_sub; [exact Hpe|exact Hk].
  - intros k q Hk. eapply Ht, (i_act s I k), shrinks_sub; [exact Ha|exact Hk].
  - intros q Hq. by apply Ht, i_loop.
Qed.

Lemma inv_teardown p s : inv s -> tracked s p -> inv (mstate (teardown p) s).
Proof using HL.
  intros I (c & E & Hs). destruct (once (sess c)) eqn:Ho; [by erewrite teardown_again|].
  destruct Hs as [Hs|]; [|congruence]. by eapply inv_ends, teardown_ends.
Qed.

Lemma inv_abort p s : inv s -> tracked s p -> inv (mstate (abort p) s).
Proof using HL.
  intros I (c & E & Hs). destruct (once (sess c)) eqn:Ho.
  - destruct (abort_again p c s E Ho) as (?&?&?). by eapply inv_shrinks.
  - destruct Hs as [Hs|]; [|congruence]. by eapply inv_ends, abort_ends.
Qed.

Lemma tracked_ends p c q s s' : inv s -> calls s !! p = Some c -> sockets c = true ->
  ends p c s s' -> tracked s q -> tracked s' q.
Proof.
  intros I E Hs ((c' & Hc & H1 & _) & _) (d & Ed & Hd). unfold tracked. rewrite Hc, lookup_insert.
  case_decide; [|by eauto]. exists c'. split; [done|right].
  rewrite H1. unfold Session.Teardown. by rewrite (i_once s I p c E Hs).
Qed.

Lemma tracked_teardown p q s : inv s -> tracked s p -> tracked s q -> tracked (mstate (teardown p) s) q.
Proof.
  intros I (c & E & Hs) Hq. destruct (once (sess c)) eqn:Ho; [by erewrite teardown_again|].
  destruct Hs as [Hs|]; [|congruence]. eapply tracked_ends; eauto using teardown_ends.
Qed.

Lemma inv_teardown_list l : forall s, inv s -> (forall p, p ∈ l -> tracked s p) ->
  inv (mstate (teardown_list l) s).
Proof using HL.
  induction l as [|p l IH]; intros s I Hl; simpl; run_state; [done|].
  apply IH; [apply inv_teardown; [done|apply Hl; left]|].
  intros q Hq. apply tracked_teardown; auto; apply Hl; [left|by right].
Qed.

(** *** The start of a call *)

Lemma held_alloc_free s ps n : pp_alloc (ports s) = (ps, Ok n) ->
  pp_held (pp_free ps n) = pp_held (ports s).
Proof using HL.
  intros E. apply pp_alloc_fresh in E as [Hf Hh]. rewrite pp_free_held, Hh. set_solver.
Qed.

(** A new call, up with a port that was free. *)
Lemma inv_new s s' ps n c ext : inv s -> pp_alloc (ports s) = (ps, Ok n) -> ports s' = ps ->
  Port c = n -> sockets c = true -> once (sess c) = false ->
  next s' = Z.succ (next s) -> calls s' = <[next s := c]> (calls s) ->
  pending s' = <[c_ID c := next s]> (<[ext := next s]> (pending s)) ->
  active s' = active s -> loop s' = loop s -> inv s'.
Proof using HL.
  intros I Hal Hp Hpo Hs Ho Hn Hc Hpe Ha Hl.
  destruct (pp_alloc_fresh _ _ _ Hal) as [Hfr Hh].
  assert (Hnew : calls s !! next s = None).
  { destruct (calls s !! next s) eqn:E; [|done]. apply (i_next s I) in E. lia. }
  assert (Hself : tracked s' (next s)).
  { exists c. rewrite Hc, lookup_insert_eq. split; [done|by left]. }
  assert (Ht : forall q, tracked s q -> tracked s' q).
  { intros q (d & Ed & Hd). exists d. rewrite Hc, lookup_insert_ne; [done|congruence]. }
  assert (Hno : forall q d, calls s !! q = Some d -> sockets d = true -> Port d <> n).
  { intros q d Ed Hd Hq. apply Hfr, (i_held s I). eauto. }
  split; rewrite ?Hc, ?Hn, ?Hl.
  - intros q d. rewrite lookup_insert. case_decide; [lia|]. intros Hq. apply (i_next s I) in Hq. lia.
  - intros k. rewrite Hp, Hh, elem_of_union, elem_of_singleton, (i_held s I). split.
    + intros [->|(q & d & Ed & Hd & <-)]; [exists (next s), c; by rewrite lookup_insert_eq|].
      exists q, d. rewrite lookup_insert_ne; [done|congruence].
    + intros (q & d & Ed & Hd & <-). rewrite lookup_insert in Ed.
      case_decide; [left; congruence|right; eauto].
  - intros q r d d'. rewrite !lookup_insert. repeat case_decide; intros; simplify_eq; try done.
    + by destruct (Hno r d').
    + by destruct (Hno q d).
    + by eapply (i_distinct s I).
  - intros q d. rewrite lookup_insert. case_decide; intros; simplify_eq; [done|by eapply i_once].
  - intros q d. rewrite lookup_insert. case_decide; intros; simplify_eq; [by left|by eapply i_bridge].
  - intros k q. rewrite Hpe, !lookup_insert. repeat case_decide; intros; simplify_eq; eauto using i_pend.
  - intros k q. rewrite Ha. intros Hk. by eapply Ht, (i_act s I).
  - intros q Hq. by apply Ht, i_loop.
Qed.

(** A new call whose set-up failed, known to nobody. *)
Lemma inv_new_failed s s' c : inv s -> pp_held (ports s') = pp_held (ports s) ->
  sockets c = false -> bridge c = None -> maxDur c = false ->
  next s' = Z.succ (next s) -> calls s' = <[next s := c]> (calls s) ->
  (forall k p, pending s' !! k = Some p -> pending s !! k = Some p) ->
  active s' = active s -> loop s' = loop s -> inv s'.
Proof.
  intros I Hp Hs Hb Hm Hn Hc Hpe Ha Hl.
  assert (Hnew : calls s !! next s = None).
  { destruct (calls s !! next s) eqn:E; [|done]. apply (i_next s I) in E. lia. }
  assert (Ht : forall q, tracked s q -> tracked s' q).
  { intros q (d & Ed & Hd). exists d. rewrite Hc, lookup_insert_ne; [done|congruence]. }
  split; rewrite ?Hc, ?Hn, ?Hl.
  - intros q d. rewrite lookup_insert. case_decide; [lia|]. intros Hq. apply (i_next s I) in Hq. lia.
  - intros k. rewrite Hp, (i_held s I). split.
    + intros (q & d & Ed & Hd & <-). exists q, d. rewrite lookup_insert_ne; [done|congruence].
    + intros (q & d & Ed & Hd & <-). rewrite lookup_insert in Ed. case_decide; [congruence|eauto].
  - intros q r d d'. rewrite !lookup_insert. repeat case_decide; intros; simplify_eq; try congruence.
    by eapply (i_distinct s I).
  - intros q d. rewrite lookup_insert. case_decide; intros; simplify_eq; [congruence|by eapply i_once].
  - intros q d. rewrite lookup_insert. case_decide; [|intros; by eapply i_bridge].
    intros [= <-] [?|?]; congruence.
  - intros k q Hk. by eapply Ht, (i_pend s I), Hpe.
  - intros k q. rewrite Ha. intros Hk. by eapply Ht, (i_act s I).
  - intros q Hq. by apply Ht, i_loop.
Qed.

Lemma inv_startCall e id s : mcd = false \/ extmedia_ok e = true ->
  inv s -> inv (mstate (startCall mcd e id) s).
Proof using HL.
  intros Hok I. unfold startCall. rewrite mstate_read_seq, mstate_seq.
  match goal with |- context [mstate ?a s] => assert (mstate a s = s) as -> by (by case_bool_decide) end.
  destruct (_ && _); [by apply (inv_frame (hangup id)), I; apply hangup_frame|].
  destruct (pp_alloc (ports s)) as [ps [n|er]] eqn:Hal.
  - destruct (negb (bind_ok e)).
    + unfold freePort, upd, emit. run_state.
      apply (inv_frame (outboundSetupFailed id)); [apply outboundSetupFailed_frame|].
      eapply inv_same; [exact I|]. unfold same_calls, field_update; simpl.
      split_and!; try done. by apply held_alloc_free.
    + unfold freePort, upd, emit. destruct (extmedia_ok e) eqn:He.
      * run_state. eapply (inv_new s); eauto; unfold field_update; done.
      * destruct Hok as [Hm|]; [|done]. unfold closeMediaSocket, hangup, updCall, upd, emit. run_state.
        apply (inv_frame (outboundSetupFailed id)); [apply outboundSetupFailed_frame|].
        apply (inv_new_failed s) with (c := mkCall (Session.SetState Session.New Session.StateStaged)
          id (newChan e) n (outbound s !! id) None false false None mcd false);
          [exact I|..]; destruct s as [ps0 pe ac tr ob ca os cn nx lp]; run_updates; simpl in *; try done.
        -- by eapply (held_alloc_free (mkSt ps0 pe ac tr ob ca os cn nx lp)).
        -- erewrite alter_at by apply lookup_insert_eq. apply insert_insert_eq.
        -- intros k p. rewrite !lookup_delete, !lookup_insert. by repeat case_decide.
  - unfold hangup, upd, emit. run_state.
    apply (inv_frame (outboundSetupFailed id)); [apply outboundSetupFailed_frame|].
    apply pp_alloc_err in Hal as ->. eapply inv_same; [exact I|].
    unfold same_calls, field_update; simpl; auto 10.
Qed.

Lemma inv_completeBridge e p s : inv s -> tracked s p -> inv (mstate (completeBridge e p) s).
Proof using HL.
  intros I T. unfold completeBridge. rewrite mstate_read_seq.
  destruct (calls s !! p) as [c|] eqn:E; [|done].
  destruct (negb _); [by apply inv_abort|].
  unfold emit. run_state. destruct (negb _); [run_state; by apply inv_abort|].
  run_state. destruct (negb _); [run_state; by apply inv_abort|].
  unfold updCall, upd. run_state.
  assert (Hs : sound c) by (destruct T as (c' & E' & ?); congruence).
  eapply (inv_update s); [exact I|..]; destruct s as [ps0 pe ac tr ob ca os cn nx lp]; run_updates; simpl in *; try done.
  - intros q. apply alter_kin. intros d Ed. assert (d = c) as -> by congruence.
    destruct c as [[] ? ? ? ? ? ? ? ? ? ?]. unfold kin; simpl. tauto.
  - apply (i_pend _ I).
  - intros k q. rewrite !lookup_insert. repeat case_decide; intros; simplify_eq; eauto.
    by eapply (i_act _ I).
  - apply (i_loop _ I).
Qed.

Lemma inv_onStasisStart e id arg s : mcd = false \/ extmedia_ok e = true ->
  inv s -> inv (mstate (onStasisStart mcd e id arg) s).
Proof using HL.
  intros Hok I. unfold onStasisStart. destruct arg.
  - rewrite mstate_read_seq. destruct (pending s !! id) as [p|] eqn:Ep; [|by apply inv_startCall].
    destruct (calls s !! p) as [c|] eqn:Ec; [|by apply inv_startCall].
    destruct (Z.eqb_spec (ExternalID c) id); [|by apply inv_startCall].
    unfold upd. run_state.
    eapply (inv_update s); [exact I|..]; destruct s as [ps0 pe ac tr ob ca os cn nx lp]; run_updates; simpl in *; try done.
    + intros q. apply all_kin.
    + intros k q. rewrite !lookup_delete. repeat case_decide; [done..|]. apply (i_pend _ I).
    + apply (i_act _ I).
    + intros q [= <-]. by eapply (i_pend _ I).
  - unfold onTransferLegAnswered. rewrite mstate_read_seq. by case_bool_decide.
  - unfold onOutboundAnswered. rewrite mstate_read_seq. destruct (outbound s !! id); [|done].
    unfold updOut, upd. run_state. apply inv_startCall; [done|]. eapply inv_same; [exact I|].
    unfold same_calls, field_update; simpl; auto 10.
Qed.

Lemma inv_onStasisEnd id s : inv s -> inv (mstate (onStasisEnd id) s).
Proof using HL.
  intros I. unfold onStasisEnd. rewrite mstate_read_seq. destruct (active s !! id) as [p|] eqn:Ea.
  - destruct (calls s !! p) as [c|] eqn:Ec; [|done]. unfold upd. run_state.
    apply inv_teardown.
    + eapply (inv_shrinks s _ c); [exact I|..]; unfold same_but_tables, field_update; simpl; [done|shrink..].
    + by apply (i_act s I) in Ea.
  - destruct (pending s !! id) as [p|] eqn:Ep; [|done]. apply inv_abort; [done|]. by eapply (i_pend s I).
Qed.

Lemma inv_updCall f p s : (forall c, calls s !! p = Some c -> kin c (f c)) -> inv s ->
  inv (s <| calls ::= alter f p |>).
Proof.
  intros Hf I. eapply (inv_update s); [exact I|..]; unfold field_update; simpl; try done.
  - intros q. by apply alter_kin.
  - apply (i_pend s I).
  - apply (i_act s I).
  - apply (i_loop s I).
Qed.

Ltac same I := eapply inv_same; [exact I|unfold same_calls, field_update; simpl; auto 10].
Ltac kin := intros ? _; unfold kin, field_update; simpl; tauto.

Lemma started_tracked p s : inv s -> started s p = true -> tracked s p.
Proof.
  intros I Hst. unfold started in Hst. destruct (calls s !! p) as [c|] eqn:E; [|done].
  apply bool_decide_eq_true in Hst. exists c. split; [done|]. eapply (i_bridge s I); eauto.
Qed.

Lemma inv_media e p d s : inv s -> tracked s p ->
  inv (mstate (mediaHandler p) s) /\ inv (mstate (startMedia p) s) /\
  inv (mstate (connectTransfer1 p d) s) /\ inv (mstate (connectTransfer2 e p d) s).
Proof.
  intros I T. split_and!.
  - unfold mediaHandler. rewrite mstate_read_seq. destruct (calls s !! p) as [c|]; [|done].
    unfold emit, updOut, upd. destruct (out c); run_state; [same I|done].
  - unfold startMedia. rewrite mstate_read_seq. destruct (calls s !! p) as [c|]; [|done].
    case_bool_decide; [done|]. unfold emit, updCall, upd. run_state. apply inv_updCall; [kin|done].
  - unfold connectTransfer1, hangup, emit. rewrite mstate_read_seq.
    destruct (calls s !! p) as [c|]; [|done]. destruct (bridge c); [|by run_state].
    case_bool_decide; by run_state.
  - unfold connectTransfer2. rewrite mstate_read_seq. destruct (calls s !! p) as [c|] eqn:Ec; [|done].
    unfold hangup, emit, updCall, upd. destruct (negb _ || bool_decide _) eqn:Et; run_state; [done|].
    apply inv_updCall; [kin|].
    eapply (inv_update s); [exact I|..]; unfold field_update; simpl; try done.
    + intros q. apply alter_kin. kin.
    + apply (i_pend s I).
    + intros k q. rewrite lookup_delete, lookup_insert. repeat case_decide; intros; simplify_eq;
        first [done|by eapply (i_act s I)].
    + apply (i_loop s I).
Qed.

Lemma inv_Dial e s : inv s -> inv (mstate (Dial e) s).
Proof.
  intros I. unfold Dial. rewrite mstate_read_seq. cbv zeta. unfold emit, updOut, upd.
  rewrite mstate_seq, mstate_mod, mstate_seq, mstate_emit. cbv beta.
  match goal with |- inv (mstate _ ?t) => assert (I' : inv t) end.
  { destruct I. split; unfold field_update; simpl; auto. intros p c Hp.
    assert (p < next s) by eauto. lia. }
  destruct (originate_ok e); run_state; same I'.
Qed.

Lemma elem_of_map_snd (m : gmap Z Z) p : p ∈ map snd (map_to_list m) <-> exists k, m !! k = Some p.
Proof.
  rewrite list_elem_of_In, in_map_iff. split.
  - intros ([k q] & <- & Hk). exists k. simpl. by apply elem_of_map_to_list, list_elem_of_In.
  - intros [k Hk]. exists (k, p). split; [done|]. by apply list_elem_of_In, elem_of_map_to_list.
Qed.

Lemma inv_teardownAll s : inv s -> inv (mstate teardownAll s).
Proof using HL.
  intros I. unfold teardownAll. rewrite mstate_seq.
  apply (inv_frame hangupRingingOutbound) in I; [|apply hangupRingingOutbound_frame].
  set (s1 := mstate hangupRingingOutbound s) in *. clearbody s1.
  rewrite mstate_read_seq. cbv zeta. unfold upd. rewrite mstate_seq, mstate_mod.
  apply inv_teardown_list.
  - eapply (inv_update s1); [exact I|..]; unfold field_update; simpl; try done.
    + intros q. apply all_kin.
    + apply (i_loop s1 I).
  - intros p. rewrite elem_of_elements, elem_of_list_to_set, elem_of_app, !elem_of_map_snd.
    unfold tracked, field_update; simpl. intros [[k Hk]|[k Hk]]; by (eapply (i_act s1 I) + eapply (i_pend s1 I)).
Qed.

Lemma inv_when b (m : act unit) s : inv s -> (b = true -> inv (mstate m s)) -> inv (mstate (mwhen b m) s).
Proof. intros I Hm. destruct b; [by apply Hm|done]. Qed.

Lemma inv_step e l s : mcd = false \/ extmedia_ok e = true -> inv s -> inv (mstate (step mcd e l) s).
Proof using HL.
  intros Hok I. unfold step. rewrite mstate_read_seq.
  destruct l; try (apply inv_when; [done|intros Hg]); unfold unit_act; run_state;
    try (pose proof (inv_media e p 0 s I (started_tracked p s I Hg)) as (?&?&_); by auto);
    try (pose proof (inv_media e p dest s I (started_tracked p s I Hg)) as (_&_&?&?); by auto).
  - by apply inv_onStasisStart.
  - destruct (loop s) as [|p] eqn:El; [done|]. unfold upd. run_state.
    pose proof (i_loop s I p El) as T. apply inv_completeBridge.
    + eapply (inv_update s); [exact I|..]; unfold field_update; simpl; try done.
      * intros q. apply all_kin.
      * apply (i_pend s I).
      * apply (i_act s I).
    + exact T.
  - by apply inv_onStasisEnd.
  - by apply inv_frame, I; apply onOutboundDestroyed_frame.
  - apply inv_teardown; [done|]. destruct (calls s !! p) as [c|] eqn:E; [|done].
    exists c. split; [done|]. eapply (i_bridge s I); eauto.
  - apply inv_teardown; [done|by apply started_tracked].
  - by apply inv_Dial.
  - apply inv_frame; [apply outboundTimedOut_frame|done].
  - unfold transferDial, upd, emit. run_state. same I.
  - unfold transferEnd, upd, hangup, emit. destruct w; run_state; same I.
  - by apply inv_teardownAll.
  - unfold watchTick. rewrite mstate_read_seq. apply inv_when; [done|]. intros _. by apply inv_teardownAll.
Qed.

Lemma inv_run l : forall s, mcd = false \/ Forall (fun x => extmedia_ok x.1 = true) l ->
  inv s -> inv (mstate (run mcd l) s).
Proof using HL.
  induction l as [|[e x] l IH]; intros s Hok I; simpl; run_state; [done|].
  apply IH; [|apply inv_step; [|done]]; destruct Hok as [|Hok]; auto; right; by inversion Hok.
Qed.

Lemma inv_init (p0 : P) : pp_held p0 = ∅ -> inv (init p0).
Proof. intros Hp. unfold init. split; simpl; try done. intros n. rewrite Hp.
  split; [by intros ?%elem_of_empty|by intros (p & c & E & _)]. Qed.

(** Call [p] is up and has media port [n]. *)
Definition holds_port (s : st) (p : ptr) (n : Z) : Prop :=
  exists c, calls s !! p = Some c /\ sockets c = true /\ once (sess c) = false /\ Port c = n.


End manager.

(** A call is answered, bridged and hung up on, over a pool of two ports. *)
Definition env_ok (ch : Z) : env := mkEnv true true true true true true true true ch 900.
Definition one_call : list (env * label) :=
  [(env_ok 100, LStasisStart 1 ArgNone); (env_ok 0, LStasisStart 100 ArgNone); (env_ok 0, LBridge)].

