(* ===== verification/AriFound.v ===== *)
(** [internal/ari]: a call that is up can always be found by the events that
    must end it. Channel ids are Asterisk's and [rid.New]'s: the runs of this
    file ([reach]) are those in which they are not used twice. *)

From S2P Require Import Prelude PortAlloc Session AriManager AriInv.
Import Manager.
Import Session (once, ctxDone).

Local Open Scope Z_scope.
Local Open Scope m_scope.

(** The channels of a call, and those whose end ends it: the agent's leg no
    longer does once the caller was transferred. *)
Definition owns (c : call) (k : chan) : Prop :=
  k = c_ID c \/ k = ExternalID c \/ transferChannel c = Some k.
Definition ends_on (c : call) (k : chan) : Prop :=
  k = c_ID c \/ (k = ExternalID c /\ transferChannel c = None) \/ transferChannel c = Some k.

Lemma ends_on_owns c k : ends_on c k -> owns c k.
Proof. unfold ends_on, owns. tauto. Qed.

Section manager.
Context {P : Type} `{HP : PortPool P}.
Variable mcd : bool.
Local Notation st := (@Manager.st P).
Implicit Types s : st.
Context {ok_pool : P -> Prop} `{HL : !PortPoolLaws P ok_pool}.

Definition waiting (s : st) (p : ptr) : Prop := (exists k, pending s !! k = Some p) \/ loop s = Bridging p.

Record found (s : st) : Prop := mkFound {
  f_ids : forall p q c d k, calls s !! p = Some c -> calls s !! q = Some d -> owns c k -> owns d k -> p = q;
  f_legs : forall p c, calls s !! p = Some c ->
    c_ID c <> ExternalID c /\ transferChannel c <> Some (ExternalID c);
  f_act : forall k p c, active s !! k = Some p -> calls s !! p = Some c -> owns c k;
  f_pend : forall k p c, pending s !! k = Some p -> calls s !! p = Some c -> k = c_ID c \/ k = ExternalID c;
  f_bridge : forall p c, calls s !! p = Some c -> waiting s p -> bridge c = None;
  f_transfer : forall p c, calls s !! p = Some c -> bridge c = None -> transferChannel c = None;
  f_loop : forall p k, loop s = Bridging p -> pending s !! k <> Some p;
  f_agent : forall p c, calls s !! p = Some c -> transferChannel c <> None -> active s !! ExternalID c = None;
  f_found : forall p c, calls s !! p = Some c -> sockets c = true ->
    loop s = Bridging p \/ forall k, ends_on c k -> active s !! k = Some p \/ pending s !! k = Some p;
}.

(** Same call, as far as its channels go; a call that is over may stay so. *)
Definition kin2 (c c' : call) : Prop :=
  c_ID c' = c_ID c /\ ExternalID c' = ExternalID c /\ transferChannel c' = transferChannel c /\
  bridge c' = bridge c /\ (sockets c' = true -> sockets c = true).

Lemma kin2_refl c : kin2 c c.
Proof. unfold kin2. tauto. Qed.

Lemma all_kin2 (m : gmap Z call) p : option_Forall2 kin2 (m !! p) (m !! p).
Proof. destruct (m !! p); constructor. apply kin2_refl. Qed.

Lemma alter_kin2 f (m : gmap Z call) p q : (forall c, kin2 c (f c)) ->
  option_Forall2 kin2 (m !! q) (alter f p m !! q).
Proof.
  intros Hk. rewrite lookup_alter. case_decide as E; [|apply all_kin2]. subst.
  destruct (m !! q) eqn:E; constructor. by apply Hk.
Qed.

Lemma kin2_owns c c' k : kin2 c c' -> owns c' k <-> owns c k.
Proof. unfold kin2, owns. by intros (->&->&->&_). Qed.

Lemma kin2_ends_on c c' k : kin2 c c' -> ends_on c' k <-> ends_on c k.
Proof. unfold kin2, ends_on. by intros (->&->&->&_). Qed.

(** Calls stay as they are; tables lose entries, and those lost are of calls
    that are no longer up or being bridged. *)
Lemma found_update s s' : inv s -> found s ->
  (forall p, option_Forall2 kin2 (calls s !! p) (calls s' !! p)) ->
  (forall k p, active s' !! k = Some p -> active s !! k = Some p) ->
  (forall k p, pending s' !! k = Some p -> pending s !! k = Some p) ->
  (forall p, loop s' = Bridging p -> loop s = Bridging p) ->
  (forall p c c' k, calls s !! p = Some c -> calls s' !! p = Some c' -> sockets c' = true -> owns c k ->
     (loop s = Bridging p -> loop s' = Bridging p) /\
     (active s !! k = Some p -> active s' !! k = Some p) /\
     (pending s !! k = Some p -> pending s' !! k = Some p)) ->
  found s'.
Proof.
  intros I F Hc Ha Hp Hl Hk.
  assert (Hb : forall p c', calls s' !! p = Some c' -> exists c, calls s !! p = Some c /\ kin2 c c').
  { intros p c' E. specialize (Hc p). rewrite E in Hc. inversion Hc; subst. eauto. }
  assert (Hw : forall p, waiting s' p -> waiting s p) by (intros p [[k ?]|?]; [left|right]; eauto).
  split.
  - intros p q c d k E1 E2 H1 H2. destruct (Hb _ _ E1) as (c0 & ? & K1), (Hb _ _ E2) as (d0 & ? & K2).
    rewrite (kin2_owns _ _ _ K1) in H1. rewrite (kin2_owns _ _ _ K2) in H2. by eapply (f_ids s F).
  - intros p c E. destruct (Hb _ _ E) as (c0 & ? & (->&->&->&_)). by eapply (f_legs s F).
  - intros k p c Hk1 E. destruct (Hb _ _ E) as (c0 & ? & K). rewrite (kin2_owns _ _ _ K). eapply (f_act s F); eauto.
  - intros k p c Hk1 E. destruct (Hb _ _ E) as (c0 & ? & (->&->&_)). eapply (f_pend s F); eauto.
  - intros p c E W. destruct (Hb _ _ E) as (c0 & ? & (_&_&_&->&_)). eapply (f_bridge s F); eauto.
  - intros p c E. destruct (Hb _ _ E) as (c0 & ? & (_&_&->&->&_)). by eapply (f_transfer s F).
  - intros p k Hl1 Hp1. eapply (f_loop s F); eauto.
  - intros p c E. destruct (Hb _ _ E) as (c0 & ? & (_&->&->&_)). intros Ht.
    destruct (active s' !! ExternalID c0) eqn:Ea; [|done]. apply Ha in Ea.
    erewrite (f_agent s F) in Ea by eauto. done.
  - intros p c E Hs. destruct (Hb _ _ E) as (c0 & E0 & K). assert (Hs0 : sockets c0 = true) by (by apply K).
    destruct (f_found s F p c0 E0 Hs0) as [?|Hf].
    + left. by apply (Hk p c0 c (c_ID c0)); [..|left|].
    + right. intros k Hk1. rewrite (kin2_ends_on _ _ _ K) in Hk1.
      destruct (Hk p c0 c k E0 E Hs (ends_on_owns _ _ Hk1)) as (_&?&?).
      destruct (Hf k Hk1); auto.
Qed.

Lemma found_same s s' : inv s -> found s -> same_calls s s' -> found s'.
Proof.
  intros I F (_&Hp&Ha&Hc&_&Hl). eapply (found_update s); rewrite ?Hp, ?Ha, ?Hc, ?Hl; auto.
  apply all_kin2.
Qed.

Lemma found_frame {A} (m : act A) s : does calls_frame m -> inv s -> found s -> found (mstate m s).
Proof. intros Hm I F. eapply found_same, frame_same; eauto. Qed.


Lemma shrinks_other m m' c k p : shrinks m m' c -> ~ owns c k -> m !! k = Some p -> m' !! k = Some p.
Proof. intros Hm Ho Hk. destruct (Hm k) as [->|[_ ?]]; [done|]. by destruct Ho. Qed.

(** Tables losing entries of [p] only, when [p] is not up afterwards. *)
Lemma found_drop s s' p c : inv s -> found s -> calls s !! p = Some c ->
  (forall q, option_Forall2 kin2 (calls s !! q) (calls s' !! q)) ->
  (forall c', calls s' !! p = Some c' -> sockets c' = false) ->
  shrinks (active s) (active s') c -> shrinks (pending s) (pending s') c ->
  loop s' = loop s \/ loop s = Bridging p /\ loop s' = Idle -> found s'.
Proof.
  intros I F E Hc Hs Ha Hp Hl. eapply (found_update s); [done..| | | |].
  - intros k q. by apply shrinks_sub with (c := c).
  - intros k q. by apply shrinks_sub with (c := c).
  - by destruct Hl as [->|[_ ->]].
  - intros q d d' k Ed Ed' Hd Hk.
    assert (p <> q) by (intros <-; rewrite (Hs _ Ed') in Hd; done).
    assert (Hno : ~ owns c k) by (intros Ho; by assert (p = q) by (by eapply (f_ids s F))).
    split_and!; [|by eapply shrinks_other..]. destruct Hl as [->|[-> ->]]; [done|congruence].
Qed.

Lemma found_ends p c s s' : inv s -> found s -> calls s !! p = Some c -> sockets c = true ->
  ends p c s s' -> found s'.
Proof.
  intros I F E Hs ((c' & Hc & _ & H2 & H3 & H4 & H5 & H6) & _ & Ha & Hpe & _ & Hl).
  eapply (found_drop s s' p c); auto; rewrite ?Hc.
  - intros q. rewrite lookup_insert. case_decide; [subst q; rewrite E; constructor|apply all_kin2].
    unfold kin2. rewrite H2. done.
  - rewrite lookup_insert_eq. by intros ? [= <-].
Qed.

Lemma not_up s p c : inv s -> calls s !! p = Some c -> once (sess c) = true -> sockets c = false.
Proof. intros I E Ho. destruct (sockets c) eqn:Hs; [|done]. pose proof (i_once s I p c E Hs). congruence. Qed.

Lemma found_teardown p s : inv s -> found s -> tracked s p -> found (mstate (teardown p) s).
Proof.
  intros I F (c & E & Hs). destruct (once (sess c)) eqn:Ho; [by erewrite teardown_again|].
  destruct Hs as [Hs|]; [|congruence]. eapply found_ends; eauto using teardown_ends.
Qed.

(** Giving up while bridging: [s0] is [s] with the event loop back. *)
Lemma found_abort_bridging p s s0 : inv s -> found s -> tracked s p -> loop s = Bridging p ->
  s0 = s <| loop := Idle |> -> found (mstate (abort p) s0).
Proof.
  intros I F (c & E & Hs) Hlo Hs0. assert (E0 : calls s0 !! p = Some c) by (by rewrite Hs0).
  assert (H1 : active s0 = active s) by (by rewrite Hs0).
  assert (H2 : pending s0 = pending s) by (by rewrite Hs0).
  assert (H3 : calls s0 = calls s) by (by rewrite Hs0).
  assert (H4 : loop s0 = Idle) by (by rewrite Hs0).
  clear Hs0. destruct (once (sess c)) eqn:Ho.
  - destruct (abort_again p c s0 E0 Ho) as ((Hpo&Hc&Hn&Hl)&Ha&Hp).
    rewrite H1 in Ha. rewrite H2 in Hp. rewrite H4 in Hl. rewrite H3 in Hc.
    eapply (found_drop s _ p c); auto; rewrite ?Hc.
    + apply all_kin2.
    + intros c' E'. eapply (not_up s p); [done..|]. congruence.
  - destruct (abort_ends p c s0 E0 Ho) as ((c' & Hc & _ & K2 & K3 & K4 & K5 & K6) & _ & Ha & Hpe & _ & Hl).
    rewrite H1 in Ha. rewrite H2 in Hpe. rewrite H4 in Hl. rewrite H3 in Hc.
    eapply (found_drop s _ p c); auto; rewrite ?Hc.
    + intros q. rewrite lookup_insert. case_decide; [subst q; rewrite E; constructor|apply all_kin2].
      unfold kin2. by rewrite K2.
    + rewrite lookup_insert_eq. by intros ? [= <-].
Qed.

Lemma found_abort p s : inv s -> found s -> tracked s p -> found (mstate (abort p) s).
Proof.
  intros I F (c & E & Hs). destruct (once (sess c)) eqn:Ho.
  - destruct (abort_again p c s E Ho) as ((Hpo&Hc&Hn&Hl)&Ha&Hp). eapply (found_drop s _ p c); auto; rewrite ?Hc.
    + apply all_kin2.
    + intros c' E'. eapply (not_up s p); [done..|]. congruence.
  - destruct Hs as [Hs|]; [|congruence]. eapply found_ends; eauto using abort_ends.
Qed.

(** What a list of teardowns leaves: the same calls, those of the list over. *)
Definition all_over (l : list ptr) (s s' : st) : Prop :=
  (forall q, option_Forall2 kin2 (calls s !! q) (calls s' !! q)) /\
  (forall k q, active s' !! k = Some q -> active s !! k = Some q) /\
  (forall k q, pending s' !! k = Some q -> pending s !! k = Some q) /\
  loop s' = loop s /\
  (forall q c, q ∈ l -> calls s' !! q = Some c -> sockets c = false).

Lemma kin2_trans c1 c2 c3 : kin2 c1 c2 -> kin2 c2 c3 -> kin2 c1 c3.
Proof. unfold kin2. intros (->&->&->&->&?) (->&->&->&->&?). auto 10. Qed.

Lemma all_over_app l1 l2 s s1 s2 : all_over l1 s s1 -> all_over l2 s1 s2 -> all_over (l1 ++ l2) s s2.
Proof.
  intros (K1&A1&P1&L1&D1) (K2&A2&P2&L2&D2). split_and!; eauto; [|congruence|].
  - intros q. specialize (K1 q). specialize (K2 q).
    inversion K1 as [? ? K E1 E2|E1 E2]; inversion K2 as [? ? K' E3 E4|E3 E4]; try congruence; constructor.
    eapply kin2_trans; [done|]. congruence.
  - intros q c Hq E. apply elem_of_app in Hq as [Hq|Hq]; [|by eapply D2].
    specialize (K2 q). rewrite E in K2. inversion K2 as [c1 ? K E1 E2|]; subst.
    destruct K as (_&_&_&_&K). destruct (sockets c); [|done]. rewrite (D1 q c1) in K; auto. discriminate (K eq_refl).
Qed.

Lemma teardown_over p s : inv s -> tracked s p -> all_over [p] s (mstate (teardown p) s).
Proof.
  intros I (c & E & Hs). destruct (once (sess c)) eqn:Ho.
  - erewrite teardown_again by done. split_and!; auto; [apply all_kin2|].
    intros q d ->%list_elem_of_singleton Ed. eapply not_up; [done..|]. congruence.
  - destruct (teardown_ends p c s E Ho) as ((c' & Hc & _ & H2 & H3 & H4 & H5 & H6) & _ & Ha & Hpe & _ & Hl).
    split_and!; rewrite ?Hc; auto.
    + intros q. rewrite lookup_insert. case_decide; [subst q; rewrite E; constructor|apply all_kin2].
      unfold kin2. by rewrite H2.
    + intros k q. by apply shrinks_sub with (c := c).
    + intros k q. by apply shrinks_sub with (c := c).
    + intros q d ->%list_elem_of_singleton. rewrite lookup_insert_eq. by intros [= <-].
Qed.

Lemma teardown_list_over l : forall s, inv s -> (forall p, p ∈ l -> tracked s p) ->
  all_over l s (mstate (teardown_list l) s).
Proof using HL.
  induction l as [|p l IH]; intros s I Hl; simpl; run_state.
  - split_and!; auto; [apply all_kin2|]. by intros q c ?%not_elem_of_nil.
  - assert (tracked s p) by (apply Hl; left).
    eapply (all_over_app [p]); [by apply teardown_over|]. apply IH; [by apply inv_teardown|].
    intros q Hq. apply tracked_teardown; auto; apply Hl; by right.
Qed.

Lemma teardownAll_over s : inv s -> exists l s1, inv s1 /\
  (forall p, p ∈ l <-> exists k, active s !! k = Some p \/ pending s !! k = Some p) /\
  calls s1 = calls s /\ active s1 = ∅ /\ pending s1 = ∅ /\ loop s1 = loop s /\
  all_over l s1 (mstate teardownAll s).
Proof using HL.
  intros I. unfold teardownAll. rewrite mstate_seq.
  pose proof (frame_same _ s hangupRingingOutbound_frame) as (_&Hpe&Hac&Hca&_&Hlo).
  apply (inv_frame hangupRingingOutbound) in I; [|apply hangupRingingOutbound_frame].
  set (s1 := mstate hangupRingingOutbound s) in *. clearbody s1.
  rewrite mstate_read_seq. cbv zeta. unfold upd. rewrite mstate_seq, mstate_mod.
  set (s2 := s1 <| active := ∅ |> <| pending := ∅ |>).
  assert (I2 : inv s2).
  { eapply (inv_update s1); [exact I|..]; unfold s2, field_update; simpl; try done.
    - intros q. apply all_kin.
    - apply (i_loop s1 I). }
  match goal with |- context [teardown_list ?l] => set (l0 := l) end.
  assert (Hl : forall p, p ∈ l0 <-> exists k, active s1 !! k = Some p \/ pending s1 !! k = Some p).
  { intros p. unfold l0. rewrite elem_of_elements, elem_of_list_to_set, elem_of_app, !elem_of_map_snd. naive_solver. }
  exists l0, s2. split_and!; [done|by rewrite <- Hac, <- Hpe|exact Hca|done|done|exact Hlo|].
  apply teardown_list_over; [done|].
  intros p Hp. apply Hl in Hp as [k [Hk|Hk]]; [by eapply (i_act s1 I)|by eapply (i_pend s1 I)].
Qed.

Lemma found_teardownAll s : inv s -> found s -> found (mstate teardownAll s).
Proof using HL.
  intros I F. destruct (teardownAll_over s I) as (l & s1 & _ & Hl & Hc & Ha & Hp & Hlo & (K&A&Pe&L&D)).
  rewrite Hc in K. eapply (found_update s); auto.
  - intros k p Hk. apply A in Hk. by rewrite Ha in Hk.
  - intros k p Hk. apply Pe in Hk. by rewrite Hp in Hk.
  - intros p. by rewrite L, Hlo.
  - intros p c c' k E E' Hs Ho. rewrite L, Hlo. split; [done|].
    assert (Hno : p ∉ l) by (intros Hin; rewrite (D _ _ Hin E') in Hs; done).
    rewrite Hl in Hno. split; intros Hk; destruct Hno; eauto.
Qed.

(** *** New ids *)

Definition fresh (s : st) (k : chan) : Prop := forall p c, calls s !! p = Some c -> ~ owns c k.

(** A new call is entered under two fresh ids, as up or (not [up]) failed. *)
Lemma found_new s s' c (up : bool) : inv s -> found s ->
  fresh s (c_ID c) -> fresh s (ExternalID c) -> c_ID c <> ExternalID c ->
  bridge c = None -> transferChannel c = None -> sockets c = up ->
  calls s' = <[next s := c]> (calls s) -> active s' = active s -> loop s' = loop s ->
  (forall k, pending s' !! k =
    if decide (k = c_ID c \/ k = ExternalID c) then if up then Some (next s) else None else pending s !! k) ->
  found s'.
Proof.
  intros I F H1 H2 H3 Hb Ht Hs Hc Ha Hl Hp.
  assert (Hnew : forall q d, calls s !! q = Some d -> next s <> q).
  { intros q d E <-. apply (i_next s I) in E. lia. }
  assert (Ho : forall k, owns c k -> k = c_ID c \/ k = ExternalID c).
  { intros k [|[|]]; [auto..|congruence]. }
  assert (Hdis : forall q d k, calls s !! q = Some d -> owns c k -> owns d k -> False).
  { intros q d k E [->| ->]%Ho; [by apply (H1 q)|by apply (H2 q)]. }
  assert (Hcase : forall q d, calls s' !! q = Some d -> (q = next s /\ d = c) \/ (q <> next s /\ calls s !! q = Some d)).
  { intros q d. rewrite Hc, lookup_insert. case_decide; [intros [= <-]; auto|auto]. }
  assert (Hold : forall k q, pending s' !! k = Some q -> q <> next s -> pending s !! k = Some q).
  { intros k q. rewrite Hp. case_decide; [destruct up; congruence|done]. }
  assert (Hact : forall k, active s !! k <> Some (next s)).
  { intros k Hk. apply (i_act s I) in Hk as (d & E & _). by apply Hnew in E. }
  assert (Hlo : loop s <> Bridging (next s)).
  { intros Hk. apply (i_loop s I) in Hk as (d & E & _). by apply Hnew in E. }
  split; rewrite ?Ha, ?Hl.
  - intros p q d d' k [[-> ->]|[Hp1 E]]%Hcase [[-> ->]|[Hq1 E']]%Hcase O1 O2; [done|..].
    + by destruct (Hdis q d' k).
    + by destruct (Hdis p d k).
    + by eapply (f_ids s F).
  - intros p d [[-> ->]|[_ E]]%Hcase; [rewrite Ht; done|by eapply (f_legs s F)].
  - intros k p d Hk [[-> ->]|[_ E]]%Hcase; [by destruct (Hact k)|by eapply (f_act s F)].
  - intros k p d Hk [[-> ->]|[Hne E]]%Hcase.
    + rewrite Hp in Hk. case_decide; [done|]. apply (i_pend s I) in Hk as (d & E & _). by apply Hnew in E.
    + eapply (f_pend s F); eauto.
  - intros p d [[-> ->]|[Hne E]]%Hcase W; [done|]. eapply (f_bridge s F); [done|].
    destruct W as [[k Hk]|]; [left; eauto|right; congruence].
  - intros p d [[-> ->]|[_ E]]%Hcase; [done|by eapply (f_transfer s F)].
  - intros p k Hk Hk'. eapply (f_loop s F); [exact Hk|]. apply Hold; [done|congruence].
  - intros p d [[-> ->]|[_ E]]%Hcase; [done|by eapply (f_agent s F)].
  - intros p d [[-> ->]|[Hne E]]%Hcase Hd.
    + right. intros k Hk. right. rewrite Hp, decide_True by (by apply Ho, ends_on_owns).
      subst up. by rewrite Hd.
    + destruct (f_found s F p d E Hd) as [?|Hf]; [by left|right]. intros k Hk.
      destruct (Hf k Hk) as [?|Hk2]; [by left|right]. rewrite Hp, decide_False; [done|].
      intros [->| ->]; apply ends_on_owns in Hk; [by apply (H1 p d)|by apply (H2 p d)].
Qed.

Definition newcall_fresh (s : st) (e : env) (id : chan) : Prop :=
  fresh s id /\ fresh s (newChan e) /\ id <> newChan e.

Lemma found_startCall e id s : newcall_fresh s e id ->
  inv s -> found s -> found (mstate (startCall mcd e id) s).
Proof using HL.
  intros (H1 & H2 & H3) I F. unfold startCall. rewrite mstate_read_seq, mstate_seq.
  match goal with |- context [mstate ?a s] => assert (mstate a s = s) as -> by (by case_bool_decide) end.
  destruct (_ && _); [by apply (found_frame (hangup id)), F; [apply hangup_frame|]|].
  destruct (pp_alloc (ports s)) as [ps [n|er]] eqn:Hal; unfold freePort, upd, emit.
  - destruct (negb (bind_ok e)).
    + run_state. 
      match goal with |- found (mstate _ ?t) => assert (same_calls s t) as Hsc end.
      { unfold same_calls, field_update; simpl. split_and!; try done. by apply held_alloc_free. }
      apply (found_frame (outboundSetupFailed id)); [apply outboundSetupFailed_frame|by eapply inv_same|by eapply found_same].
    + destruct (extmedia_ok e) eqn:He.
      * run_state. apply (found_new s) with (up := true) (c := mkCall (Session.SetState Session.New Session.StateStaged)
          id (newChan e) n (outbound s !! id) None false false None mcd true);
          [exact I|exact F|..]; unfold field_update; simpl; try done.
        intros k. rewrite !lookup_insert. repeat case_decide; naive_solver.
      * unfold closeMediaSocket, hangup, updCall, upd, emit. run_state.
        match goal with |- found (mstate ?m ?t) => pose proof (frame_same m t (outboundSetupFailed_frame id)) as (_&S2&S3&S4&_&S6);
          set (s2 := mstate m t) in * end.
        apply (found_new s) with (up := false) (c := mkCall (Session.SetState Session.New Session.StateStaged)
          id (newChan e) n (outbound s !! id) None false false None mcd false);
          [exact I|exact F|..]; rewrite ?S2, ?S3, ?S4, ?S6; destruct s as [ps0 pe ac tr ob ca os cn nx lp];
          run_updates; simpl in *; try done.
        -- erewrite alter_at by apply lookup_insert_eq. apply insert_insert_eq.
        -- intros k. rewrite !lookup_delete, !lookup_insert. repeat case_decide; naive_solver.
  - unfold hangup, upd, emit. run_state.
    match goal with |- found (mstate _ ?t) => assert (same_calls s t) as Hsc end.
    { apply pp_alloc_err in Hal as ->. unfold same_calls, field_update; simpl; auto 10. }
    apply (found_frame (outboundSetupFailed id)); [apply outboundSetupFailed_frame|by eapply inv_same|by eapply found_same].
Qed.

(** *** The steps *)

Lemma found_bridged s s' p c c' : inv s -> found s -> calls s !! p = Some c -> loop s = Bridging p ->
  calls s' = <[p := c']> (calls s) -> pending s' = pending s -> loop s' = Idle ->
  active s' = <[ExternalID c := p]> (<[c_ID c := p]> (active s)) ->
  c_ID c' = c_ID c -> ExternalID c' = ExternalID c -> transferChannel c' = transferChannel c ->
  bridge c' <> None -> found s'.
Proof.
  intros I F E Hlo Hc Hp Hl Ha K1 K2 K3 K4.
  assert (Hw : waiting s p) by (by right).
  assert (Ht : transferChannel c = None) by (eapply (f_transfer s F), (f_bridge s F); eauto).
  assert (Hcase : forall q d, calls s' !! q = Some d -> (q = p /\ d = c') \/ (q <> p /\ calls s !! q = Some d)).
  { intros q d. rewrite Hc, lookup_insert. case_decide; [intros [= <-]; auto|auto]. }
  assert (Ho : forall k, owns c' k <-> owns c k) by (intros k; unfold owns; by rewrite K1, K2, K3).
  assert (Hother : forall q d k, q <> p -> calls s !! q = Some d -> owns d k -> k <> c_ID c /\ k <> ExternalID c).
  { intros q d k Hne Eq Hk. split; intros ->; apply Hne; eapply (f_ids s F q p d c); eauto; unfold owns; auto. }
  split; rewrite ?Hl; try done.
  - intros q r d d' k [[-> ->]|[Hq E1]]%Hcase [[-> ->]|[Hr E2]]%Hcase; rewrite ?Ho; [done|..]; by eapply (f_ids s F).
  - intros q d [[-> ->]|[_ E1]]%Hcase; [rewrite K1, K2, K3; by eapply (f_legs s F)|by eapply (f_legs s F)].
  - intros k q d. rewrite Ha, !lookup_insert. intros Hk [[-> ->]|[Hne E1]]%Hcase.
    + rewrite Ho. unfold owns. repeat case_decide; auto. by eapply (f_act s F).
    + repeat case_decide; simplify_eq. by eapply (f_act s F).
  - intros k q d. rewrite Hp. intros Hk [[-> ->]|[Hne E1]]%Hcase; [|by eapply (f_pend s F)].
    exfalso. by eapply (f_loop s F).
  - intros q d [[-> ->]|[Hne E1]]%Hcase [[k Hk]|?]; try congruence; rewrite Hp in Hk.
    + exfalso. by eapply (f_loop s F).
    + eapply (f_bridge s F); [done|]. left. eauto.
  - intros q d [[-> ->]|[Hne E1]]%Hcase; [done|by eapply (f_transfer s F)].
  - intros q d [[-> ->]|[Hne E1]]%Hcase Hn; [congruence|].
    destruct (Hother q d (ExternalID d)) as [? ?]; [done..|by right; left|].
    rewrite Ha, !lookup_insert_ne by congruence. by eapply (f_agent s F).
  - intros q d [[-> ->]|[Hne E1]]%Hcase Hd.
    + right. intros k Hk. left. rewrite Ha, !lookup_insert.
      destruct Hk as [->|[[-> _]|]]; [rewrite K1|rewrite K2|congruence]; repeat case_decide; congruence.
    + destruct (f_found s F q d E1 Hd) as [?|Hf]; [congruence|right]. intros k Hk.
      destruct (Hother q d k) as [? ?]; [done..|by apply ends_on_owns|].
      rewrite Ha, Hp, !lookup_insert_ne by congruence. auto.
Qed.

Lemma found_bridge e p s : inv s -> found s -> loop s = Bridging p ->
  found (mstate (completeBridge e p) (s <| loop := Idle |>)).
Proof.
  intros I F Hlo. pose proof (i_loop s I p Hlo) as T. pose proof T as (c & E & Hs).
  remember (s <| loop := Idle |>) as s0 eqn:Hs0.
  pose proof (found_abort_bridging p s s0 I F T Hlo Hs0) as Hab.
  unfold completeBridge. rewrite mstate_read_seq.
  assert (calls s0 !! p = Some c) as -> by (by rewrite Hs0).
  destruct (negb _); [done|]. unfold emit. run_state. destruct (negb _); [by run_state|].
  run_state. destruct (negb _); [by run_state|]. unfold updCall, upd. run_state.
  apply (found_bridged s) with (p := p) (c := c) (c' := c <| bridge := Some (newBridge e) |>
    <| mediaCancelled := Session.ctxDone (sess c) |> <| sess := Session.SetState (sess c) Session.StateBridged |>);
    try done; clear Hab; subst s0; [|by unfold field_update..].
  unfold field_update; simpl. erewrite alter_at by exact E. by destruct c as [[]].
Qed.

Lemma teardown_shrinks p c s : calls s !! p = Some c ->
  shrinks (active s) (active (mstate (teardown p) s)) c /\
  shrinks (pending s) (pending (mstate (teardown p) s)) c.
Proof.
  intros E. destruct (once (sess c)) eqn:Ho.
  - erewrite teardown_again by done. split; apply shrinks_refl.
  - destruct (teardown_ends p c s E Ho) as (_&_&?&?&_). done.
Qed.

Lemma found_onStasisEnd id s : inv s -> found s -> found (mstate (onStasisEnd id) s).
Proof using HL.
  intros I F. unfold onStasisEnd. rewrite mstate_read_seq. destruct (active s !! id) as [p|] eqn:Ea.
  - destruct (calls s !! p) as [c|] eqn:Ec; [|done]. unfold upd. run_state.
    set (s1 := _ <| active ::= _ |>).
    assert (same_but_tables s s1 /\ shrinks (active s) (active s1) c /\ shrinks (pending s) (pending s1) c)
      as ((Hpo&Hc1&Hn&Hl)&Ha&Hp).
    { unfold s1, same_but_tables, field_update; simpl. split_and!; try done; shrink. }
    assert (I1 : inv s1) by (by eapply (inv_shrinks s s1 c)).
    assert (T1 : tracked s1 p) by (apply (i_act s I) in Ea; unfold tracked in *; by rewrite Hc1).
    destruct (teardown_over p s1 I1 T1) as (K&A&Pe&L&D).
    assert (shrinks (active s) (active (mstate (teardown p) s1)) c /\
      shrinks (pending s) (pending (mstate (teardown p) s1)) c) as (Ha'&Hp').
    { destruct (teardown_shrinks p c s1) as [H1 H2]; [congruence|].
      split; [by apply (shrinks_trans _ _ _ _ Ha)|by apply (shrinks_trans _ _ _ _ Hp)]. }
    rewrite Hc1 in K. eapply (found_drop s _ p c); auto; try (left; congruence).
    intros c'. apply D. by left.
  - destruct (pending s !! id) as [p|] eqn:Ep; [|done]. apply found_abort; [done..|]. by eapply (i_pend s I).
Qed.

Lemma found_onStasisStart e id arg s : loop s = Idle ->
  (arg <> ArgTransfer -> (exists p c, arg = ArgNone /\ pending s !! id = Some p /\ calls s !! p = Some c /\
      ExternalID c = id) \/ newcall_fresh s e id) ->
  inv s -> found s -> found (mstate (onStasisStart mcd e id arg) s).
Proof using HL.
  intros Hidle Hfr I F. unfold onStasisStart. destruct arg.
  - rewrite mstate_read_seq. destruct Hfr as [(p & c & _ & Hp & E & Hx)|Hfr]; [done|..].
    + rewrite Hp, E, (proj2 (Z.eqb_eq _ _) Hx). unfold upd. run_state.
      assert (Ht : bridge c = None) by (eapply (f_bridge s F); [done|left; eauto]).
      apply (f_transfer s F p c E) in Ht.
      split; unfold field_update; simpl.
      * apply (f_ids s F).
      * apply (f_legs s F).
      * apply (f_act s F).
      * intros k q d. rewrite !lookup_delete. repeat case_decide; [done..|]. apply (f_pend s F).
      * intros q d Eq [[k Hk]|Hk]; simpl in Hk.
        -- rewrite !lookup_delete in Hk. repeat case_decide; try done. eapply (f_bridge s F); [done|left; eauto].
        -- injection Hk as <-. eapply (f_bridge s F); [done|left; eauto].
      * apply (f_transfer s F).
      * intros q k [= <-]. rewrite !lookup_delete. repeat case_decide; try done.
        intros Hk. pose proof (f_pend s F k p c Hk E) as [|]; congruence.
      * apply (f_agent s F).
      * intros q d Eq Hd. destruct (decide (q = p)) as [->|Hne]; [by left|right].
        destruct (f_found s F q d Eq Hd) as [?|Hf]; [congruence|]. intros k Hk.
        destruct (Hf k Hk) as [?|Hk']; [by left|right]. apply ends_on_owns in Hk.
        rewrite !lookup_delete_ne; [done|..]; intros <-; apply Hne; eapply (f_ids s F q p d c); eauto; unfold owns; auto.
    + assert (Hnone : forall p c, pending s !! id = Some p -> calls s !! p = Some c -> ExternalID c <> id).
      { intros p c _ E <-. destruct Hfr as (Hf & _). apply (Hf p c E). right. by left. }
      destruct (pending s !! id) as [p|] eqn:Ep; [|by apply found_startCall].
      destruct (calls s !! p) as [c|] eqn:Ec; [|by apply found_startCall].
      rewrite (proj2 (Z.eqb_neq _ _) (Hnone p c eq_refl Ec)). by apply found_startCall.
  - unfold onTransferLegAnswered. rewrite mstate_read_seq. by case_bool_decide.
  - unfold onOutboundAnswered. rewrite mstate_read_seq. destruct (outbound s !! id); [|done].
    destruct Hfr as [(p & c & ? & _)|Hfr]; [done|done|].
    unfold updOut, upd. run_state.
    match goal with |- found (mstate _ ?t) => assert (same_calls s t) as Hsc end.
    { unfold same_calls, field_update; simpl; auto 10. }
    apply found_startCall; [|by eapply inv_same|by eapply found_same].
    destruct Hsc as (_&_&_&Hc&_). unfold newcall_fresh, fresh in *. by rewrite Hc.
Qed.

Lemma found_updCall f p s : (forall c, calls s !! p = Some c -> kin2 c (f c)) -> inv s -> found s ->
  found (s <| calls ::= alter f p |>).
Proof.
  intros Hf I F. apply (found_update s _ I F); unfold field_update; simpl; try done.
  intros q. rewrite lookup_alter. case_decide as E; [|apply all_kin2]. subst.
  destruct (calls s !! q) eqn:E; constructor. by apply Hf.
Qed.

Lemma found_transferred s s' p c c' d : inv s -> found s -> calls s !! p = Some c -> bridge c <> None ->
  transferChannel c = None -> fresh s d ->
  calls s' = <[p := c']> (calls s) -> pending s' = pending s -> loop s' = loop s ->
  active s' = delete (ExternalID c) (<[d := p]> (active s)) ->
  c_ID c' = c_ID c -> ExternalID c' = ExternalID c -> transferChannel c' = Some d ->
  bridge c' = bridge c -> sockets c' = sockets c -> found s'.
Proof.
  intros I F E Hb Htn Hd Hc Hp Hl Ha K1 K2 K3 K4 K5.
  assert (Hw : forall q, waiting s' q <-> waiting s q) by (intros q; unfold waiting; by rewrite Hp, Hl).
  assert (Hnw : ~ waiting s p) by (intros W; apply Hb; by eapply (f_bridge s F)).
  assert (Hcase : forall q x, calls s' !! q = Some x -> (q = p /\ x = c') \/ (q <> p /\ calls s !! q = Some x)).
  { intros q x. rewrite Hc, lookup_insert. case_decide; [intros [= <-]; auto|auto]. }
  assert (Ho : forall k, owns c' k -> owns c k \/ k = d).
  { intros k. unfold owns. rewrite K1, K2, K3. intros [?|[?|[= ->]]]; auto. }
  assert (Hext : forall q x k, q <> p -> calls s !! q = Some x -> owns x k -> k <> ExternalID c /\ k <> d).
  { intros q x k Hne Eq Hk. split; intros ->; [apply Hne|by apply (Hd q x)].
    eapply (f_ids s F q p x c); eauto; unfold owns; auto. }
  assert (d <> ExternalID c /\ d <> c_ID c) as [Hde Hdi] by (split; intros ->; apply (Hd p c E); unfold owns; auto).
  pose proof (f_legs s F p c E) as (Hleg&_).
  split; rewrite ?Hl.
  - intros q r x y k [[-> ->]|[Hq E1]]%Hcase [[-> ->]|[Hr E2]]%Hcase O1 O2; [done|..].
    + apply Ho in O1 as [O1| ->]; [by eapply (f_ids s F)|by destruct (Hd r y)].
    + apply Ho in O2 as [O2| ->]; [by eapply (f_ids s F)|by destruct (Hd q x)].
    + by eapply (f_ids s F).
  - intros q x [[-> ->]|[_ E1]]%Hcase; [rewrite K1, K2, K3; split; [done|]; naive_solver|by eapply (f_legs s F)].
  - intros k q x. rewrite Ha, lookup_delete, lookup_insert. intros Hk [[-> ->]|[Hne E1]]%Hcase.
    + repeat case_decide; simplify_eq; [right; right; by rewrite K3|].
      assert (owns c k) as [->|[->|Ht]] by (by eapply (f_act s F)); [by left|done|congruence].
    + repeat case_decide; simplify_eq. by eapply (f_act s F).
  - intros k q x. rewrite Hp. intros Hk [[-> ->]|[Hne E1]]%Hcase; [|by eapply (f_pend s F)].
    destruct Hnw. left; eauto.
  - intros q x [[-> ->]|[Hne E1]]%Hcase W; rewrite Hw in W; [done|by eapply (f_bridge s F)].
  - intros q x [[-> ->]|[Hne E1]]%Hcase; [congruence|by eapply (f_transfer s F)].
  - rewrite Hp. apply (f_loop s F).
  - intros q x [[-> ->]|[Hne E1]]%Hcase Hn; rewrite Ha; [rewrite K2; apply lookup_delete_eq|].
    destruct (Hext q x (ExternalID x)) as [? ?]; [done..|by right; left|].
    rewrite lookup_delete_ne, lookup_insert_ne by congruence. by eapply (f_agent s F).
  - intros q x [[-> ->]|[Hne E1]]%Hcase Hs.
    + right. intros k Hk. left. rewrite Ha, lookup_delete, lookup_insert.
      destruct Hk as [->|[[_ ?]|Hk]]; [rewrite K1|congruence|].
      * repeat case_decide; try congruence. rewrite K5 in Hs.
        destruct (f_found s F p c E Hs) as [?|Hf]; [destruct Hnw; by right|].
        destruct (Hf (c_ID c)) as [?|?]; [by left|done|]. destruct Hnw. left; eauto.
      * assert (k = d) as -> by congruence. repeat case_decide; congruence.
    + destruct (f_found s F q x E1 Hs) as [?|Hf]; [by left|right]. intros k Hk.
      destruct (Hext q x k) as [? ?]; [done..|by apply ends_on_owns|].
      rewrite Ha, Hp, lookup_delete_ne, lookup_insert_ne by congruence. auto.
Qed.

(** What keeps ids apart: a channel that starts a call, or is dialed for a
    transfer, was of no call before; an agent transfers its caller once. *)
Definition fresh_label (s : st) (e : env) (l : label) : Prop :=
  match l with
  | LStasisStart id arg => arg <> ArgTransfer ->
      (exists p c, arg = ArgNone /\ pending s !! id = Some p /\ calls s !! p = Some c /\ ExternalID c = id) \/
      newcall_fresh s e id
  | LConnect2 p d => fresh s d /\ forall c, calls s !! p = Some c -> transferChannel c = None
  | _ => True
  end.

Lemma found_media e p d s : inv s -> found s -> started s p = true ->
  found (mstate (mediaHandler p) s) /\ found (mstate (startMedia p) s) /\
  found (mstate (connectTransfer1 p d) s) /\
  (fresh_label s e (LConnect2 p d) -> found (mstate (connectTransfer2 e p d) s)).
Proof.
  intros I F Hst. split_and!.
  - unfold mediaHandler. rewrite mstate_read_seq. destruct (calls s !! p) as [c|]; [|done].
    unfold emit, updOut, upd. destruct (out c); run_state; [|done].
    eapply found_same; [done..|]. unfold same_calls, field_update; simpl; auto 10.
  - unfold startMedia. rewrite mstate_read_seq. destruct (calls s !! p) as [c|]; [|done].
    case_bool_decide; [done|]. unfold emit, updCall, upd. run_state. apply found_updCall; [|done..].
    intros ? _. unfold kin2, field_update; simpl; tauto.
  - unfold connectTransfer1, hangup, emit. rewrite mstate_read_seq.
    destruct (calls s !! p) as [c|]; [|done]. destruct (bridge c); [|by run_state].
    case_bool_decide; by run_state.
  - intros (Hd & Ht). unfold connectTransfer2. rewrite mstate_read_seq. destruct (calls s !! p) as [c|] eqn:Ec; [|done].
    unfold started in Hst. rewrite Ec in Hst. apply bool_decide_eq_true in Hst.
    unfold hangup, emit, updCall, upd. destruct (negb _ || bool_decide _) eqn:Et; run_state; [done|].
    apply (found_transferred s) with (p := p) (c := c) (d := d)
      (c' := c <| transferChannel := Some d |> <| mediaCancelled := true |>); auto; unfold field_update; simpl.
    erewrite (alter_at _ (calls s)) by exact Ec. erewrite alter_at by apply lookup_insert_eq. apply insert_insert_eq.
Qed.

Lemma found_Dial e s : inv s -> found s -> found (mstate (Dial e) s).
Proof.
  intros I F. unfold Dial. rewrite mstate_read_seq. cbv zeta. unfold emit, updOut, upd.
  assert (Hs : forall s', pending s' = pending s -> active s' = active s -> calls s' = calls s -> loop s' = loop s -> found s').
  { intros s' Hp Ha Hc Hl. eapply (found_update s); rewrite ?Hp, ?Ha, ?Hc, ?Hl; auto. apply all_kin2. }
  destruct (originate_ok e); run_state; apply Hs; unfold field_update; done.
Qed.

Lemma found_when b (m : act unit) s : found s -> (b = true -> found (mstate m s)) -> found (mstate (mwhen b m) s).
Proof. intros I Hm. destruct b; [by apply Hm|done]. Qed.

Lemma found_step e l s : fresh_label s e l -> inv s -> found s -> found (mstate (step mcd e l) s).
Proof using HL.
  intros Hfr I F. unfold step. rewrite mstate_read_seq.
  destruct l; try (apply found_when; [done|intros Hg]); unfold unit_act; run_state;
    try (pose proof (found_media e p 0 s I F Hg) as (?&?&_); by auto);
    try (pose proof (found_media e p dest s I F Hg) as (_&_&?&?); by auto).
  - apply found_onStasisStart; [by destruct (loop s)|done..].
  - destruct (loop s) as [|p] eqn:El; [done|]. unfold upd. run_state. by apply found_bridge.
  - by apply found_onStasisEnd.
  - apply found_frame; [apply onOutboundDestroyed_frame|done..].
  - apply found_teardown; [done..|]. destruct (calls s !! p) as [c|] eqn:E; [|done].
    exists c. split; [done|]. eapply (i_bridge s I); eauto.
  - apply found_teardown; [done..|by apply started_tracked].
  - by apply found_Dial.
  - apply found_frame; [apply outboundTimedOut_frame|done..].
  - eapply found_same; [done..|]. unfold transferDial, upd, emit, same_calls. run_state. unfold field_update; simpl; auto 10.
  - eapply found_same; [done..|]. unfold transferEnd, upd, hangup, emit, same_calls.
    destruct w; run_state; unfold field_update; simpl; auto 10.
  - by apply found_teardownAll.
  - unfold watchTick. rewrite mstate_read_seq. apply found_when; [done|]. intros _. by apply found_teardownAll.
Qed.

(** The states of runs in which ids are kept apart. *)
Inductive reach : st -> Prop :=
  | reach_init p0 : pp_held p0 = ∅ -> reach (init p0)
  | reach_step s e l : reach s -> mcd = false \/ extmedia_ok e = true -> fresh_label s e l ->
      reach (mstate (step mcd e l) s).

Lemma reach_found s : reach s -> inv s /\ found s.
Proof using HL.
  induction 1 as [p0 Hp|s e l _ [I F] Hok Hfr].
  - split; [by apply inv_init|]. split; simpl; done.
  - split; [by eapply inv_step|by apply found_step].
Qed.

Lemma teardown_out p c s : calls s !! p = Some c -> once (sess c) = false ->
  (forall j, owns c j -> EHangup j ∈ mout (teardown p) s) /\
  (forall b, bridge c = Some b -> EDeleteBridge b ∈ mout (teardown p) s).
Proof.
  clear HL ok_pool. intros Hc Ho. unfold teardown. rewrite mout_read_seq, Hc. unfold Session.Teardown. rewrite Ho.
  unfold closeMediaSocket, freePort, hangup, mwhen, updCall, updOut, emit, upd.
  rewrite !mout_seq, !mout_mod, !mout_emit.
  split.
  - intros j [->|[->|Hj]]; [set_solver..|]. rewrite Hj, mout_seq, mout_emit. set_solver.
  - intros b Hb. rewrite Hb, mout_emit. set_solver.
Qed.

Lemma abort_out p c s : calls s !! p = Some c -> once (sess c) = false ->
  EHangup (c_ID c) ∈ mout (abort p) s /\ EHangup (ExternalID c) ∈ mout (abort p) s.
Proof.
  clear HL ok_pool. intros Hc Ho. unfold abort. rewrite mout_read_seq, Hc. unfold Session.Teardown. rewrite Ho.
  unfold closeMediaSocket, freePort, hangup, mwhen, updCall, updOut, emit, upd.
  rewrite !mout_seq, !mout_mod, !mout_emit. split; set_solver.
Qed.

(** [p] is over in [s'], its port free. *)
Definition is_over (p : ptr) (c : call) (s' : st) : Prop :=
  (exists c', calls s' !! p = Some c' /\ sockets c' = false /\ once (sess c') = true) /\
  Port c ∉ pp_held (ports s').

Lemma ends_is_over p c s s' : inv s -> calls s !! p = Some c -> sockets c = true -> ends p c s s' -> is_over p c s'.
Proof using HL.
  intros I E Hs ((c' & Hc & H1 & H2 & _) & Hp & _). split.
  - exists c'. rewrite Hc, lookup_insert_eq, H1. unfold Session.Teardown. by rewrite (i_once s I p c E Hs).
  - rewrite Hp, pp_free_held. set_solver.
Qed.


(** When Asterisk's connection was lost (or at shutdown), with the event
    loop between events, tearing everything down leaves no call up and no
    media port in use. *)
Theorem teardownAll_leaves_nothing s :
  reach s -> loop s = Idle ->
  pp_held (ports (mstate teardownAll s)) = ∅ /\
  (forall p n, ~ holds_port (mstate teardownAll s) p n) /\
  active (mstate teardownAll s) = ∅ /\ pending (mstate teardownAll s) = ∅.
Proof using HL.
  intros [I F]%reach_found Hl.
  destruct (teardownAll_over s I) as (l & s1 & I1 & Hin & Hc & Ha & Hp & _ & (K&A&Pe&_&D)).
  pose proof (inv_teardownAll s I) as I'. set (s' := mstate teardownAll s) in *.
  assert (Hno : forall p c, calls s' !! p = Some c -> sockets c = true -> False).
  { intros p c E Hs. specialize (K p). rewrite E, Hc in K. inversion K as [c0 ? K1 E0|]; subst.
    destruct K1 as (_&_&_&_&Hu). destruct (f_found s F p c0) as [?|Hf]; [by symmetry|by apply Hu|congruence|].
    destruct (Hf (c_ID c0)) as [Hk|Hk]; [by left|..]; (rewrite (D p c) in Hs; [done|apply Hin; eauto|done]). }
  split_and!.
  - apply set_eq. intros n. rewrite (i_held s' I'). split; [|by intros ?%elem_of_empty].
    intros (p & c & E & Hs & _). by destruct (Hno p c).
  - intros p n (c & E & Hs & _). by eapply Hno.
  - apply map_eq. intros k. rewrite lookup_empty. destruct (active s' !! k) eqn:Ek; [|done].
    apply A in Ek. by rewrite Ha in Ek.
  - apply map_eq. intros k. rewrite lookup_empty. destruct (pending s' !! k) eqn:Ek; [|done].
    apply Pe in Ek. by rewrite Hp in Ek.
Qed.

End manager.

#[global] Instance owns_dec c k : Decision (owns c k).
Proof. unfold owns. apply _. Defined.
#[global] Instance fresh_dec {P} `{HP : PortPool P} s k : Decision (fresh (P := P) s k).
Proof. unfold fresh. change (Decision (map_Forall (fun _ c => ~ owns c k) (calls s))). apply _. Defined.

(** A caller's channel 1 gets its agent's leg 100 and a bridge. *)
Definition pool2 : PortAllocator.t := PortAllocator.NewPortAllocator 7000 2.
Definition bridged : @Manager.st PortAllocator.t :=
  mstate (step true (env_ok 0) LBridge)
    (mstate (step true (env_ok 0) (LStasisStart 100 ArgNone))
      (mstate (step true (env_ok 100) (LStasisStart 1 ArgNone)) (init pool2))).

Lemma bridged_reach : reach true bridged.
Proof.
  unfold bridged. apply reach_step; [apply reach_step; [apply reach_step; [apply reach_init|..]|..]|..];
    try (vm_compute; reflexivity); try (right; vm_compute; reflexivity).
  - intros _. right. unfold newcall_fresh.
    split_and!; [apply (bool_decide_unpack _); vm_compute; exact I..|done].
  - intros _. left. eexists 0, _. split_and!; vm_compute; reflexivity.
Qed.

Definition bridged_call : call :=
  mkCall (Session.mkCall Session.StateBridged false false) 1 100 7000 None (Some 900) false false None true true.


Lemma teardownAll_leaves_nothing_witness :
  pp_held (ports bridged) = {[7000]} /\ pp_held (ports (mstate teardownAll bridged)) = ∅.
Proof.
  split; [vm_compute; reflexivity|].
  refine (proj1 (teardownAll_leaves_nothing true bridged bridged_reach _)). vm_compute. reflexivity.
Defined.
