(* ===== verification/AriDial.v ===== *)
(** [internal/ari/outbound.go]: the [Done] of a dialed call, which tells the
    dialer how it ended, runs once; and runs of the manager that show where it
    does not do what its comments promise. *)

From S2P Require Import Prelude PortAlloc Session AriManager AriInv.
Import Manager.
Import Session (once, ctxDone).

Local Open Scope Z_scope.
Local Open Scope m_scope.

(** How often [Done] of [o] was started. *)
Definition is_done (o : ptr) (w : effect) : bool :=
  match w with EDone p _ => p =? o | _ => false end.
Definition dones (o : ptr) (w : list effect) : nat := length (List.filter (is_done o) w).

Lemma dones_app o w1 w2 : dones o (w1 ++ w2) = (dones o w1 + dones o w2)%nat.
Proof. unfold dones. by rewrite List.filter_app, length_app. Qed.

Section manager.
Context {P : Type} `{HP : PortPool P}.
Variable mcd : bool.
Local Notation st := (@Manager.st P).
Implicit Types s : st.

Definition used (s : st) (o : ptr) : nat :=
  match outs s !! o with Some oc => if o_done oc then 1 else 0 | None => 0 end.

Definition outs_old (s : st) : Prop := forall o oc, outs s !! o = Some oc -> o < next s.

(** What is started is recorded, and nothing else is. *)
Definition counts (s : st) (w : list effect) (s' : st) : Prop :=
  outs_old s -> outs_old s' /\ forall o, (used s o + dones o w = used s' o)%nat.

#[global] Instance counts_rel : StepRel counts.
Proof.
  split; unfold counts.
  - intros s Ho. split; [done|]. intros o. unfold dones. simpl. lia.
  - intros s1 w1 s2 w2 s3 H1 H2 Ho. destruct (H1 Ho) as [Ho2 D1]. destruct (H2 Ho2) as [Ho3 D2].
    split; [done|]. intros o. rewrite dones_app, <- D2, <- D1. lia.
Qed.

Lemma counts_same s w s' : outs s' = outs s -> next s <= next s' -> (forall o, dones o w = 0%nat) -> counts s w s'.
Proof.
  intros Ho Hn Hw Hold. split.
  - intros o oc. rewrite Ho. intros E. apply Hold in E. lia.
  - intros o. unfold used. rewrite Ho, Hw. lia.
Qed.

Lemma counts_updOut f p s : (forall oc, o_done (f oc) = o_done oc) -> counts s [] (s <| outs ::= alter f p |>).
Proof.
  intros Hf Hold. unfold field_update; simpl. split.
  - intros o oc. simpl. rewrite lookup_alter. case_decide; [|by apply Hold].
    subst. destruct (outs s !! o) eqn:E; [|done]. intros _. by eapply Hold.
  - intros o. unfold used, dones; simpl. rewrite lookup_alter. case_decide; [|lia]. subst.
    destruct (outs s !! o); simpl; [rewrite Hf; destruct (o_done _); lia|lia].
Qed.

Lemma finish_counts p o : does counts (finish p o).
Proof.
  intros s. unfold does_at, finish. rewrite mout_read_seq, mstate_read_seq.
  destruct (outs s !! p) as [oc|] eqn:E; [|apply step_nil].
  destruct (o_done oc) eqn:Ed; simpl negb; unfold mwhen; [apply step_nil|].
  unfold updOut, upd, emit. run_out. intros Hold. unfold field_update; simpl. split.
  - intros q x. simpl. rewrite lookup_alter. case_decide; [|by apply Hold]. subst. intros _. by eapply Hold.
  - intros q. unfold used, dones; simpl. rewrite lookup_alter. case_decide.
    + subst. rewrite E; simpl. rewrite Ed, Z.eqb_refl. done.
    + rewrite (proj2 (Z.eqb_neq p q)) by done. simpl. lia.
Qed.

Ltac counting := idtac; first
  [ apply counts_updOut; intros ?; reflexivity
  | apply counts_same; unfold field_update; simpl; [reflexivity|lia|reflexivity] ].
Ltac count := unfold closeMediaSocket, freePort, hangup, updCall, updOut, emit, upd; does_auto counting.
Local Hint Resolve finish_counts : does.

Lemma takeRinging_counts id : does counts (takeRinging id).
Proof. unfold takeRinging. count. Qed.
Local Hint Resolve takeRinging_counts : does.

Lemma outboundSetupFailed_counts id : does counts (outboundSetupFailed id).
Proof. unfold outboundSetupFailed. count. Qed.

Lemma finishOutbound_counts c : does counts (finishOutbound c).
Proof. unfold finishOutbound. count. Qed.
Local Hint Resolve outboundSetupFailed_counts finishOutbound_counts : does.

Lemma abort_counts p : does counts (abort p).
Proof. unfold abort. count. Qed.

Lemma teardown_counts p : does counts (teardown p).
Proof. unfold teardown. count. Qed.
Local Hint Resolve abort_counts teardown_counts : does.


Lemma hangupRinging_counts l : does counts (hangupRinging l).
Proof. induction l; simpl; count. Qed.
Local Hint Resolve hangupRinging_counts : does.

Lemma teardown_list_counts l : does counts (teardown_list l).
Proof. induction l; simpl; count. Qed.
Local Hint Resolve teardown_list_counts : does.

Lemma teardownAll_counts : does counts teardownAll.
Proof. unfold teardownAll, hangupRingingOutbound. count. Qed.

Lemma Dial_counts e : does counts (Dial e).
Proof.
  intros s. unfold Dial. apply does_at_read. cbv beta zeta. unfold upd, emit, updOut.
  assert (counts s [] (s <| next ::= Z.succ |> <| outs ::= <[next s:=mkOcall (newChan e) false false false false]> |>
                  <| outbound ::= <[newChan e:=next s]> |>)) as Hnew.
  { unfold field_update; simpl. intros Hold. split.
    - intros o oc. simpl. rewrite lookup_insert. case_decide; [lia|]. intros E. apply Hold in E. lia.
    - intros o. unfold used, dones; simpl. rewrite lookup_insert. case_decide; [|lia]. subst.
      destruct (outs s !! next s) eqn:E; [apply Hold in E; lia|done]. }
  apply does_at_mod_seq; [apply _|exact Hnew|cbv beta]. clear Hnew.
  apply does_at_emit_seq; [apply _|counting|cbv beta].
  destruct (originate_ok e); count.
Qed.

Lemma startCall_counts e id : does counts (startCall mcd e id).
Proof. unfold startCall. count. Qed.
Local Hint Resolve teardownAll_counts Dial_counts startCall_counts : does.

Lemma step_counts e l : does counts (step mcd e l).
Proof.
  destruct l; unfold step, onStasisStart, onTransferLegAnswered, onOutboundAnswered, completeBridge, onStasisEnd,
    onOutboundDestroyed, outboundTimedOut, mediaHandler, startMedia, transferDial, transferEnd, unit_act, watchTick,
    connectTransfer1, connectTransfer2; count.
Qed.
Local Hint Resolve step_counts : does.

Lemma run_counts l : does counts (run mcd l).
Proof. induction l as [|[]]; simpl; count. Qed.

(** ** A call that is over has reported *)

Definition done (s : st) (o : ptr) : Prop := exists oc, outs s !! o = Some oc /\ o_done oc = true.

Record reports (s : st) : Prop := mkReports {
  r_out : forall p c o, calls s !! p = Some c -> out c = Some o -> is_Some (outs s !! o);
  r_ring : forall k o, outbound s !! k = Some o -> is_Some (outs s !! o);
  r_over : forall p c o, calls s !! p = Some c -> out c = Some o -> sockets c = false -> done s o;
}.

Definition grows (s : st) (w : list effect) (s' : st) : Prop :=
  (forall o oc, outs s !! o = Some oc -> exists oc', outs s' !! o = Some oc' /\ (o_done oc = true -> o_done oc' = true)) /\
  (forall k o, outbound s' !! k = Some o -> outbound s !! k = Some o) /\
  (forall p c', calls s' !! p = Some c' -> exists c, calls s !! p = Some c /\ out c' = out c).

#[global] Instance grows_rel : StepRel grows.
Proof.
  split; unfold grows.
  - intros s. split_and!; eauto.
  - intros s1 w1 s2 w2 s3 (A1&B1&C1) (A2&B2&C2). split_and!.
    + intros o oc E. destruct (A1 _ _ E) as (oc1 & E1 & D1). destruct (A2 _ _ E1) as (oc2 & E2 & D2). eauto 8.
    + eauto.
    + intros p c E. destruct (C2 _ _ E) as (c2 & E2 & ->). destruct (C1 _ _ E2) as (c1 & E1 & ->). eauto.
Qed.

Lemma grows_done s w s' o : grows s w s' -> done s o -> done s' o.
Proof. intros (A&_) (oc & E & D). destruct (A _ _ E) as (oc' & E' & D'). exists oc'. auto. Qed.

Lemma grows_some s w s' o : grows s w s' -> is_Some (outs s !! o) -> is_Some (outs s' !! o).
Proof. intros (A&_) [oc E]. destruct (A _ _ E) as (oc' & E' & _). eauto. Qed.

Lemma grows_updOut f p s : (forall oc, o_done oc = true -> o_done (f oc) = true) ->
  grows s [] (s <| outs ::= alter f p |>).
Proof.
  intros Hf. unfold field_update. split_and!; simpl; eauto. intros o oc E. rewrite lookup_alter.
  case_decide; [subst; rewrite E; simpl; eauto|eauto].
Qed.

Lemma grows_updCall f p s : (forall c, out (f c) = out c) -> grows s [] (s <| calls ::= alter f p |>).
Proof.
  intros Hf. unfold field_update. split_and!; simpl; eauto. intros q c. rewrite lookup_alter.
  case_decide; [subst; destruct (calls s !! q) eqn:E; [intros [= <-]; eauto|done]|eauto].
Qed.

Lemma grows_same s w s' : outs s' = outs s -> calls s' = calls s ->
  (forall k o, outbound s' !! k = Some o -> outbound s !! k = Some o) -> grows s w s'.
Proof. intros Ho Hc Hb. unfold grows. rewrite Ho, Hc. split_and!; eauto. Qed.

Lemma lookup_delete_sub (m : gmap Z Z) i k o : delete i m !! k = Some o -> m !! k = Some o.
Proof. rewrite lookup_delete. by case_decide. Qed.

Ltac growing := idtac; first
  [ apply grows_updOut; intros ? ?; done
  | apply grows_updCall; intros ?; reflexivity
  | apply grows_same; unfold field_update; simpl; [reflexivity|reflexivity|by eauto using lookup_delete_sub] ].
Ltac grow := unfold closeMediaSocket, freePort, hangup, updCall, updOut, emit, upd; does_auto growing.

Lemma finish_grows p o : does grows (finish p o).
Proof. unfold finish. grow. Qed.
Local Hint Resolve finish_grows : does.

Lemma takeRinging_grows id : does grows (takeRinging id).
Proof. unfold takeRinging. grow. Qed.
Local Hint Resolve takeRinging_grows : does.

Lemma outboundSetupFailed_grows id : does grows (outboundSetupFailed id).
Proof. unfold outboundSetupFailed. grow. Qed.

Lemma finishOutbound_grows c : does grows (finishOutbound c).
Proof. unfold finishOutbound. grow. Qed.
Local Hint Resolve outboundSetupFailed_grows finishOutbound_grows : does.

Lemma teardown_grows p : does grows (teardown p).
Proof. unfold teardown. grow. Qed.

Lemma abort_grows p : does grows (abort p).
Proof. unfold abort. grow. Qed.
Local Hint Resolve teardown_grows abort_grows : does.

Lemma hangupRinging_grows l : does grows (hangupRinging l).
Proof. induction l; simpl; grow. Qed.
Local Hint Resolve hangupRinging_grows : does.

Lemma finish_done p o s : is_Some (outs s !! p) -> done (mstate (finish p o) s) p.
Proof.
  intros [oc E]. unfold finish. rewrite mstate_read_seq, E. destruct (o_done oc) eqn:D; simpl negb.
  - exists oc. by split.
  - unfold mwhen, updOut, upd, emit. run_state. unfold done, field_update; simpl.
    rewrite lookup_alter_eq, E. simpl. eauto.
Qed.

Lemma finishOutbound_done c o s : out c = Some o -> is_Some (outs s !! o) -> done (mstate (finishOutbound c) s) o.
Proof.
  intros Ho Hs. unfold finishOutbound. rewrite Ho, mstate_read_seq. unfold upd. run_state.
  destruct Hs as [oc E]. rewrite E. apply finish_done. unfold field_update; simpl. eauto.
Qed.

Ltac ending Hc Hs :=
  match type of Hc with calls ?s !! _ = Some ?c =>
    destruct s as [ps pe ac tr ob ca os cn nx lp]; destruct c as [[ss sd so] id ext po ou br me mc tc md so'] end;
  simpl in *; subst; unfold Session.Teardown; simpl once; cbv iota;
  unfold closeMediaSocket, freePort, hangup, mwhen, updCall, updOut, emit, upd;
  simpl transferChannel; simpl bridge.

Lemma teardown_done p c o s : calls s !! p = Some c -> once (sess c) = false -> out c = Some o ->
  is_Some (outs s !! o) -> done (mstate (teardown p) s) o.
Proof.
  intros Hc Ho Hout Hs. unfold teardown. rewrite mstate_read_seq, Hc. ending Hc Hs.
  destruct tc as [t|]; destruct br as [b|]; run_state; (apply finishOutbound_done; [reflexivity|run_updates; exact Hs]).
Qed.

Lemma abort_done p c o s : calls s !! p = Some c -> once (sess c) = false -> out c = Some o ->
  is_Some (outs s !! o) -> done (mstate (abort p) s) o.
Proof.
  intros Hc Ho Hout Hs. unfold abort. rewrite mstate_read_seq, Hc. ending Hc Hs.
  run_state; (apply finishOutbound_done; [reflexivity|run_updates; exact Hs]).
Qed.

Lemma reports_update s w s' : reports s -> grows s w s' ->
  (forall p c', calls s' !! p = Some c' -> sockets c' = false ->
     (exists c, calls s !! p = Some c /\ out c = out c' /\ sockets c = false) \/
     forall o, out c' = Some o -> done s' o) ->
  reports s'.
Proof.
  intros J G Hu. split.
  - intros p c' o E Ho. pose proof G as (A&B&C). destruct (C _ _ E) as (c & E' & Hoc).
    eapply grows_some; [exact G|]. eapply (r_out s J); [done|congruence].
  - intros k o E. eapply grows_some; [done|]. destruct G as (A&B&C). eapply (r_ring s J); eauto.
  - intros p c' o E Ho Hs. destruct (Hu p c' E Hs) as [(c & Ec & Hoc & Hsc)|Hd]; [|by apply Hd].
    eapply grows_done; [done|]. eapply (r_over s J); [done|congruence|done].
Qed.

Lemma ends_reports p c s w s' : reports s -> grows s w s' -> ends p c s s' -> calls s !! p = Some c ->
  (forall o, out c = Some o -> is_Some (outs s !! o) -> done s' o) -> reports s'.
Proof.
  intros J G ((c' & Hc & _ & H2 & _) & _) E Hd. eapply reports_update; [done..|].
  intros q x Ex Hx. destruct G as (A&B&C). destruct (C q x Ex) as (x0 & Ex0 & Hox).
  rewrite Hc, lookup_insert in Ex. case_decide as Hq; [|left; by exists x].
  subst q. right. intros o Ho. apply Hd; [congruence|]. eapply (r_out s J); [exact E|congruence].
Qed.

Lemma reports_same s s' : reports s -> calls s' = calls s -> (forall w, grows s w s') -> reports s'.
Proof.
  intros J Hc G. eapply (reports_update s []); [done|apply G|]. intros p c' E Hs. left. exists c'. by rewrite <- Hc.
Qed.

Lemma reports_teardown p s : reports s -> reports (mstate (teardown p) s).
Proof.
  intros J. destruct (calls s !! p) as [c|] eqn:E; [|by rewrite teardown_none].
  destruct (once (sess c)) eqn:Ho; [by erewrite teardown_again|].
  eapply (ends_reports p c s (mout (teardown p) s)); [done|exact (teardown_grows p s)|by apply teardown_ends|done|].
  intros o Hout Hs. by eapply teardown_done.
Qed.

Lemma reports_abort p s : reports s -> reports (mstate (abort p) s).
Proof.
  intros J. destruct (calls s !! p) as [c|] eqn:E; [|by rewrite abort_none].
  destruct (once (sess c)) eqn:Ho.
  - destruct (abort_again p c s E Ho) as ((_&Hc&_)&_).
    eapply (reports_update s (mout (abort p) s)); [done|exact (abort_grows p s)|]. rewrite Hc. intros q x Ex Hx. left. by exists x.
  - eapply (ends_reports p c s (mout (abort p) s)); [done|exact (abort_grows p s)|by apply abort_ends|done|].
    intros o Hout Hs. by eapply abort_done.
Qed.

Lemma reports_does {A} (m : act A) s : does grows m -> reports s ->
  (forall p c', calls (mstate m s) !! p = Some c' -> sockets c' = false ->
     exists c, calls s !! p = Some c /\ out c = out c' /\ sockets c = false) -> reports (mstate m s).
Proof.
  intros G J Hs. apply (reports_update s (mout m s)); [exact J|exact (G s)|]. intros p c' E Hc. left. eauto.
Qed.

Lemma reports_frame {A} (m : act A) s : does grows m -> does calls_frame m -> reports s -> reports (mstate m s).
Proof.
  intros G Hf J. apply reports_does; [done..|]. destruct (frame_of m s Hf) as (_&_&_&->&_).
  intros p c E Hc. eauto.
Qed.

Lemma reports_upd s f : grows s [] (f s) -> calls (f s) = calls s -> reports s -> reports (f s).
Proof.
  intros G Hc J. eapply (reports_update s []); [exact J|exact G|]. rewrite Hc. intros p c E Hs. left. eauto.
Qed.

Lemma reports_updCall f p s : (forall c, out (f c) = out c /\ sockets (f c) = sockets c) -> reports s ->
  reports (s <| calls ::= alter f p |>).
Proof.
  intros Hf J. eapply (reports_update s []); [exact J|apply (grows_updCall f p s); apply Hf|].
  unfold field_update; simpl. intros q c. rewrite lookup_alter. case_decide; [|eauto].
  subst. destruct (calls s !! q) as [d|] eqn:E; [|done]. simpl. intros [= <-]. destruct (Hf d) as [-> ->]. left; eauto.
Qed.

(** Failing to set a call up: its [Done] has run by the time it is given up. *)
Lemma setupFailed_done id o s : outbound s !! id = Some o -> is_Some (outs s !! o) ->
  done (mstate (outboundSetupFailed id) s) o.
Proof.
  intros Ho Hs. unfold outboundSetupFailed. rewrite mstate_read_seq, Ho. unfold upd. run_state.
  apply finish_done. unfold field_update; simpl. done.
Qed.

Lemma reports_new s s' c : reports s -> outs s' = outs s -> outbound s' = outbound s ->
  calls s' = <[next s := c]> (calls s) -> (forall o, out c = Some o -> is_Some (outs s !! o)) ->
  sockets c = true -> reports s'.
Proof.
  intros J Ho Hb Hc Hc1 Hc2. split; unfold done; rewrite ?Ho, ?Hb, ?Hc.
  - intros p d o. rewrite lookup_insert. case_decide; [intros [= <-]; auto|]. apply (r_out s J).
  - apply (r_ring s J).
  - intros p d o. rewrite lookup_insert. case_decide; [intros [= <-]; congruence|]. apply (r_over s J).
Qed.

Lemma reports_startCall e id s : reports s -> reports (mstate (startCall mcd e id) s).
Proof.
  intros J. unfold startCall. rewrite mstate_read_seq, mstate_seq.
  match goal with |- context [mstate ?a s] => assert (mstate a s = s) as -> by (by case_bool_decide) end.
  assert (Hf : forall s', outs s' = outs s -> outbound s' = outbound s -> calls s' = calls s ->
    reports (mstate (outboundSetupFailed id) s')).
  { intros s' H1 H2 H3. apply reports_frame; [apply outboundSetupFailed_grows|apply outboundSetupFailed_frame|].
    destruct J. split; unfold done; rewrite ?H1, ?H2, ?H3; auto. }
  destruct (_ && _); [done|].
  destruct (pp_alloc (ports s)) as [ps [n|er]] eqn:Hal; unfold freePort, hangup, upd, emit;
    [|run_state; apply Hf; reflexivity].
  destruct (negb (bind_ok e)); [run_state; apply Hf; reflexivity|].
  destruct (extmedia_ok e) eqn:He.
  - run_state. eapply (reports_new s); [exact J|unfold field_update; simpl; try reflexivity..].
    intros o. apply (r_ring s J).
  - unfold closeMediaSocket, updCall, upd, emit. run_state.
    match goal with |- reports (mstate ?m ?t) => set (s1 := t) end.
    assert (H1 : outs s1 = outs s) by done. assert (H2 : outbound s1 = outbound s) by done.
    assert (H3 : exists c, calls s1 = <[next s := c]> (calls s) /\ out c = outbound s !! id).
    { subst s1. destruct s as [ps0 pe ac tr ob ca os cn nx lp]. run_updates.
      erewrite alter_at by apply lookup_insert_eq. rewrite insert_insert_eq. eexists. split; [reflexivity|done]. }
    clearbody s1. destruct H3 as (c & H3 & H4).
    destruct (frame_of _ s1 (outboundSetupFailed_frame id)) as (_&_&_&Hca&_).
    pose proof (outboundSetupFailed_grows id s1) as G. unfold does_at in G.
    split.
    + intros p d o. rewrite Hca, H3, lookup_insert. intros E Hd. eapply grows_some; [exact G|]. rewrite H1.
      case_decide; [injection E as <-; rewrite H4 in Hd; by eapply (r_ring s J)|by eapply (r_out s J)].
    + intros k o E. eapply grows_some; [exact G|]. rewrite H1. destruct G as (_&B&_).
      apply B in E. rewrite H2 in E. by eapply (r_ring s J).
    + intros p d o. rewrite Hca, H3, lookup_insert. intros E Hd Hs. case_decide.
      * injection E as <-. rewrite H4 in Hd. apply setupFailed_done; [by rewrite H2|]. rewrite H1. by eapply (r_ring s J).
      * eapply grows_done; [exact G|]. unfold done. rewrite H1. by eapply (r_over s J).
Qed.

Lemma reports_tables s s' : outs s' = outs s -> outbound s' = outbound s -> calls s' = calls s ->
  reports s -> reports s'.
Proof. intros H1 H2 H3 []. split; unfold done; rewrite ?H1, ?H2, ?H3; auto. Qed.

Lemma reports_teardown_list l : forall s, reports s -> reports (mstate (teardown_list l) s).
Proof. induction l as [|p l IH]; intros s J; simpl; run_state; [done|]. by apply IH, reports_teardown. Qed.

Lemma reports_teardownAll s : reports s -> reports (mstate teardownAll s).
Proof.
  intros J. unfold teardownAll. rewrite mstate_seq, mstate_read_seq. cbv zeta. unfold upd. rewrite mstate_seq, mstate_mod.
  apply reports_teardown_list. eapply reports_tables; [| | |]; cycle 3.
  - apply (reports_frame hangupRingingOutbound); [|apply hangupRingingOutbound_frame|exact J].
    unfold hangupRingingOutbound. grow.
  - done.
  - done.
  - done.
Qed.

Lemma reports_updOut f p s : (forall oc, o_done oc = true -> o_done (f oc) = true) -> reports s ->
  reports (s <| outs ::= alter f p |>).
Proof. intros Hf J. apply (reports_upd s (fun s => s <| outs ::= alter f p |>)); [by apply grows_updOut|done|done]. Qed.

Ltac tables J := match type of J with reports ?s => apply (reports_tables s); [reflexivity..|exact J] end.

Ltac over_call s :=
  match goal with |- context [@field_update _ _ (@calls _) ?i ?f s] =>
    apply (reports_tables (@field_update _ _ (@calls _) i f s)); [reflexivity..|] end.

Lemma reports_completeBridge e p s : reports s -> reports (mstate (completeBridge e p) s).
Proof.
  intros J. unfold completeBridge. rewrite mstate_read_seq. destruct (calls s !! p) as [c|]; [|done].
  unfold updCall, upd, emit. destruct (negb _); [by apply reports_abort|]. run_state.
  destruct (negb _); [run_state; by apply reports_abort|]. run_state.
  destruct (negb _); [run_state; by apply reports_abort|]. run_state.
  over_call s. by apply reports_updCall.
Qed.

Lemma reports_Dial e s : outs_old s -> reports s -> reports (mstate (Dial e) s).
Proof.
  intros Hold J. unfold Dial. rewrite mstate_read_seq. cbv zeta. unfold emit, updOut, upd.
  rewrite mstate_seq, mstate_mod, mstate_seq, mstate_emit. cbv beta.
  match goal with |- reports (mstate _ ?t) => assert (J' : reports t) end.
  { assert (Hn : outs s !! next s = None).
    { destruct (outs s !! next s) eqn:E; [|done]. apply Hold in E. lia. }
    assert (Hk : forall o, is_Some (outs s !! o) -> next s <> o) by (intros o [? E] <-; congruence).
    unfold field_update; simpl. split; unfold done; simpl.
    - intros p c o E Hc. pose proof (r_out s J p c o E Hc). rewrite lookup_insert_ne by auto. done.
    - intros k o. rewrite !lookup_insert. repeat case_decide; intros; simplify_eq; eauto.
      by eapply (r_ring s J).
    - intros p c o E Hc Hs. pose proof (r_out s J p c o E Hc). rewrite lookup_insert_ne by auto. by eapply (r_over s J). }
  destruct (originate_ok e); run_state; [by apply reports_updOut|].
  match goal with |- reports (?t <| outbound ::= _ |>) => apply (reports_upd t (fun s => s <| outbound ::= delete (newChan e) |>)) end;
    [growing|done|done].
Qed.

Lemma reports_step e l s : outs_old s -> reports s -> reports (mstate (step mcd e l) s).
Proof.
  intros Hold J. unfold step. rewrite mstate_read_seq.
  assert (Hw : forall b (m : act unit), reports (mstate m s) -> reports (mstate (mwhen b m) s)) by (by intros []).
  destruct l; try apply Hw; unfold unit_act; run_state.
  - unfold onStasisStart. destruct arg.
    + rewrite mstate_read_seq. destruct (pending s !! id); [|by apply reports_startCall].
      destruct (calls s !! _) as [c|]; [|by apply reports_startCall].
      destruct (_ =? _); [|by apply reports_startCall]. unfold upd. run_state. tables J.
    + unfold onTransferLegAnswered. rewrite mstate_read_seq. by case_bool_decide.
    + unfold onOutboundAnswered. rewrite mstate_read_seq. destruct (outbound s !! id); [|done].
      unfold updOut, upd. run_state. apply reports_startCall. by apply reports_updOut.
  - destruct (loop s); [done|]. unfold upd. run_state. apply reports_completeBridge. tables J.
  - unfold onStasisEnd. rewrite mstate_read_seq. destruct (active s !! id).
    + destruct (calls s !! _) as [c|]; [|done]. unfold upd. run_state. apply reports_teardown. tables J.
    + destruct (pending s !! id); [by apply reports_abort|done].
  - apply reports_frame; [|apply onOutboundDestroyed_frame|done]. unfold onOutboundDestroyed. grow.
  - by apply reports_teardown.
  - unfold mediaHandler. rewrite mstate_read_seq. destruct (calls s !! p) as [c|]; [|done].
    unfold emit, updOut, upd. destruct (out c); run_state; [by apply reports_updOut|done].
  - unfold startMedia. rewrite mstate_read_seq. destruct (calls s !! p) as [c|]; [|done].
    case_bool_decide; [done|]. unfold emit, updCall, upd. run_state. by apply reports_updCall.
  - by apply reports_teardown.
  - by apply reports_Dial.
  - apply reports_frame; [|apply outboundTimedOut_frame|done]. unfold outboundTimedOut. grow.
  - unfold transferDial, upd, emit. run_state. tables J.
  - unfold transferEnd, upd, hangup, emit. destruct w; run_state; tables J.
  - unfold connectTransfer1, hangup, emit. rewrite mstate_read_seq.
    destruct (calls s !! p) as [c|]; [|done]. destruct (bridge c); [|by run_state]. case_bool_decide; by run_state.
  - unfold connectTransfer2, hangup, emit, updCall, upd. rewrite mstate_read_seq.
    destruct (calls s !! p) as [c|]; [|done]. destruct (_ || _); run_state; [done|].
    apply reports_updCall; [done|]. over_call s. by apply reports_updCall.
  - by apply reports_teardownAll.
  - unfold watchTick. rewrite mstate_read_seq. apply Hw. by apply reports_teardownAll.
Qed.

Lemma reports_run l : forall s, outs_old s -> reports s -> reports (mstate (run mcd l) s).
Proof.
  induction l as [|[e x] l IH]; intros s Hold J; simpl; run_state; [done|].
  apply IH; [|by apply reports_step]. by apply (step_counts e x s).
Qed.

End manager.

(** A call dialed on channel 1, answered, bridged with leg 100 and ended. *)
Definition dialed_call : list (env * label) :=
  [(env_ok 1, LDial); (env_ok 100, LStasisStart 1 ArgOutbound); (env_ok 0, LStasisStart 100 ArgNone);
   (env_ok 0, LBridge); (env_ok 0, LMediaHandler 1); (env_ok 0, LStasisEnd 1); (env_ok 0, LDestroyed 1 16)].

Definition pool2 : PortAllocator.t := PortAllocator.NewPortAllocator 7000 2.


(** ** Runs that break what the comments say *)

(** Asterisk refuses the externalMedia channel (handlers.go:411): the call's
    port is freed but its timer stays armed and its [teardownOnce] unused.
    When the timer fires, the port, by then another call's, is freed again, and
    [CallsActive] drops below the number of calls. *)
Definition refused : env := mkEnv true true false true true true true true 100 900.
Definition failed_then_timer : list (env * label) :=
  [(refused, LStasisStart 1 ArgNone); (env_ok 101, LStasisStart 2 ArgNone); (env_ok 0, LMaxDuration 0)].

Example port_freed_twice :
  let s := mstate (run true failed_then_timer) (init pool2) in
  holds_port s 1 7000 /\ pp_held (ports s) = ∅ /\ callsActive s = -1.
Proof. split_and!; [|vm_compute; reflexivity..]. eexists. split_and!; vm_compute; reflexivity. Qed.

(** The timer (or a reconnect) ends a call that was never bridged: [teardown]
    decrements [CallsActive], which only [completeBridge] increments. *)
Example gauge_below_zero :
  callsActive (mstate (run true [(env_ok 100, LStasisStart 1 ArgNone); (env_ok 0, LMaxDuration 0)]) (init pool2)) = -1.
Proof. vm_compute. reflexivity. Qed.

(** A teardown during [completeBridge]'s round trips (the call is in neither
    map then, but the timer has it): the call is entered in [active] after it
    was torn down, its state no longer says so, and its bridge is never
    deleted. *)
Definition bridged_after_teardown : list (env * label) :=
  [(env_ok 100, LStasisStart 1 ArgNone); (env_ok 0, LStasisStart 100 ArgNone);
   (env_ok 0, LMaxDuration 0); (env_ok 0, LBridge); (env_ok 0, LStasisEnd 1); (env_ok 0, LTeardownAll)].

Example bridge_never_deleted :
  let m := run true bridged_after_teardown in
  List.filter (fun w => match w with EAddChannel _ _ | EDeleteBridge _ => true | _ => false end) (mout m (init pool2))
  = [EAddChannel 900 1; EAddChannel 900 100].
Proof. vm_compute. reflexivity. Qed.
