(* ===== verification/Pcm.v ===== *)
(** [internal/media]: 16-bit PCM as bytes (byteorder.go), the call recording's
    mixer (mixrecorder.go) and WAV files (wav.go). *)

From Stdlib Require Import String.
From S2P Require Import Prelude Text.

Local Open Scope Z_scope.

Module Pcm.

Definition FrameSize : Z := 640.
Definition SampleRate : Z := 16000.

(** ** encoding/binary, on bytes 0..255 *)

Definition byte_ok (b : Z) : Prop := 0 <= b < 256.
Definition bytes_ok (l : bytes) : Prop := Forall byte_ok l.

Definition Uint16 (a b : Z) : Z := a + 256 * b.
Definition PutUint16 (v : Z) : bytes := [v mod 256; (v / 256) mod 256].
Definition PutUint32 (v : Z) : bytes :=
  [v mod 256; (v / 256) mod 256; (v / 65536) mod 256; (v / 16777216) mod 256].

Fixpoint le (l : bytes) : Z := match l with [] => 0 | b :: r => b + 256 * le r end.

Lemma le_PutUint16 v : le (PutUint16 v) = u16 v.
Proof. unfold PutUint16, le, u16. Z.div_mod_to_equations. lia. Qed.

Lemma le_PutUint32 v : le (PutUint32 v) = u32 v.
Proof. unfold PutUint32, le, u32. Z.div_mod_to_equations. lia. Qed.

Lemma PutUint16_ok v : bytes_ok (PutUint16 v).
Proof. unfold bytes_ok, PutUint16, byte_ok. repeat constructor; apply Z.mod_pos_bound; lia. Qed.

(** The samples of a buffer in either byte order; a trailing odd byte is none. *)
Fixpoint samples (l : bytes) : list Z :=
  match l with a :: b :: r => i16 (Uint16 a b) :: samples r | _ => [] end.
Fixpoint samples_be (l : bytes) : list Z :=
  match l with a :: b :: r => i16 (Uint16 b a) :: samples_be r | _ => [] end.

(** Induction two bytes at a time. *)
Lemma pair_ind (P : bytes -> Prop) :
  P [] -> (forall a, P [a]) -> (forall a b r, P r -> P (a :: b :: r)) -> forall l, P l.
Proof.
  intros H0 H1 H2. fix IH 1. intros [|a [|b r]]; [exact H0|exact (H1 a)|apply H2, IH].
Qed.

(** ** byteorder.go *)

Inductive Endianness := LittleEndian | BigEndian.

#[global] Instance Endianness_dec : EqDecision Endianness.
Proof. solve_decision. Defined.

Fixpoint swapPairs (pcm : bytes) : bytes :=
  match pcm with a :: b :: r => b :: a :: swapPairs r | _ => pcm end.

Definition NormalizeToLE (pcm : bytes) (from : Endianness) : bytes :=
  match from with LittleEndian => pcm | BigEndian => swapPairs pcm end.

Definition FromLE (pcm : bytes) (to : Endianness) : bytes :=
  match to with LittleEndian => pcm | BigEndian => swapPairs pcm end.

(** [strings.ToLower] of ASCII; no other letter lowers to one of "le", "be". *)
Definition lower (b : Z) : Z := if (65 <=? b) && (b <=? 90) then b + 32 else b.

Definition ParseEndianness (s : bytes) : result Endianness bytes :=
  let v := map lower (TrimSpace s) in
  if bool_decide (v = bs "le") || bool_decide (v = []) then Ok LittleEndian
  else if bool_decide (v = bs "be") then Ok BigEndian else Err s.

Example parse_endianness :
  ParseEndianness (bs " BE ") = Ok BigEndian /\ ParseEndianness [] = Ok LittleEndian /\
  ParseEndianness (bs "big") = Err (bs "big").
Proof. vm_compute. done. Qed.

Lemma swap_swap l : swapPairs (swapPairs l) = l.
Proof. induction l as [| |a b r IH] using pair_ind; simpl; [done..|]. by rewrite IH. Qed.

Lemma samples_swap l : samples (swapPairs l) = samples_be l.
Proof. induction l as [| |a b r IH] using pair_ind; simpl; [done..|]. by rewrite IH. Qed.

Lemma length_swap l : length (swapPairs l) = length l.
Proof. induction l as [| |a b r IH] using pair_ind; simpl; [done..|]. by rewrite IH. Qed.

(** Inbound audio reaches the handler as the samples the wire carried,
    whatever its byte order, and sending it back in that order restores the
    wire's very bytes (an odd trailing byte included). *)
Theorem byte_order_roundtrip (e : Endianness) (pcm : bytes) :
  samples (NormalizeToLE pcm e) = (match e with LittleEndian => samples pcm | BigEndian => samples_be pcm end) /\
  FromLE (NormalizeToLE pcm e) e = pcm /\ length (NormalizeToLE pcm e) = length pcm.
Proof. destruct e; simpl; [done|]. by rewrite samples_swap, swap_swap, length_swap. Qed.

(** ** mixrecorder.go *)

Definition MinInt16 : Z := -32768.
Definition MaxInt16 : Z := 32767.
Definition clip (s : Z) : Z := Z.max MinInt16 (Z.min MaxInt16 s).

Fixpoint mixInto (dst src : bytes) : bytes :=
  match dst, src with
  | a :: b :: d, x :: y :: s =>
      PutUint16 (u16 (clip (i16 (Uint16 a b) + i16 (Uint16 x y)))) ++ mixInto d s
  | _, _ => dst
  end.

Record MixRecorder := mkMix { pcm : bytes; max : Z; truncated : bool }.
#[global] Instance eta_MixRecorder : Eta MixRecorder := fun r => mkMix (pcm r) (max r) (truncated r).

Definition maxMixRecording : Z := Z.shiftl 100 20.
Definition NewMixRecorder : MixRecorder := mkMix [] maxMixRecording false.

(** [ProcessFrame], given the wrapped handler's output. *)
Definition record (r : MixRecorder) (frame : bytes) (out : list bytes) : MixRecorder :=
  if max r <? Z.of_nat (length (pcm r)) + Z.of_nat (length frame) then r <| truncated := true |>
  else r <| pcm := pcm r ++ fold_left mixInto out frame |>.

Lemma i16_put v : i16 (Uint16 ((u16 v) mod 256) ((u16 v) / 256 mod 256)) = i16 v.
Proof. unfold Uint16, i16, u16. Z.div_mod_to_equations. lia. Qed.

Lemma clip_range s : MinInt16 <= clip s <= MaxInt16.
Proof. unfold clip, MinInt16, MaxInt16. lia. Qed.

Lemma length_mixInto d s : length (mixInto d s) = length d.
Proof.
  revert s. induction d as [| |a b d IH] using pair_ind; intros [|x [|y s]]; simpl; try done. by rewrite IH.
Qed.

Lemma samples_mixInto d s k :
  samples (mixInto d s) !! k =
  match samples d !! k, samples s !! k with
  | Some u, Some v => Some (clip (u + v))
  | o, _ => o
  end.
Proof.
  revert s k. induction d as [| |a b d IH] using pair_ind; intros [|x [|y s]] k; simpl; try done;
    try (by destruct (_ !! k)).
  destruct k as [|k]; simpl; [|by rewrite IH].
  f_equal. rewrite i16_put. apply i16_small. pose proof (clip_range (i16 (Uint16 a b) + i16 (Uint16 x y))).
  unfold MinInt16, MaxInt16 in *. lia.
Qed.

Lemma length_fold_mix out frame : length (fold_left mixInto out frame) = length frame.
Proof. revert frame. induction out as [|o out IH]; intros frame; simpl; [done|]. by rewrite IH, length_mixInto. Qed.

(** Mixing never wraps around: each sample is the sum clipped to 16 bits,
    the samples past the shorter buffer stay; a tick appends exactly one
    frame's length to the recording whatever the agent sent, and the recording
    never outgrows its cap. *)
Theorem mixing_clips (r : MixRecorder) (frame src : bytes) (out : list bytes) (k : nat) :
  samples (mixInto frame src) !! k =
    (match samples frame !! k, samples src !! k with
     | Some u, Some v => Some (clip (u + v))
     | o, _ => o
     end) /\
  (let r' := record r frame out in
   (truncated r' = truncated r /\
    take (length (pcm r)) (pcm r') = pcm r /\
    length (pcm r') = (length (pcm r) + length frame)%nat /\ Z.of_nat (length (pcm r')) <= max r) \/
   (truncated r' = true /\ pcm r' = pcm r /\ max r < Z.of_nat (length (pcm r)) + Z.of_nat (length frame))).
Proof.
  split; [apply samples_mixInto|]. unfold record. destruct (Z.ltb_spec (max r) (Z.of_nat (length (pcm r)) + Z.of_nat (length frame))).
  - right. unfold field_update; simpl. done.
  - left. unfold field_update; simpl. rewrite length_app, length_fold_mix. split_and!; [done|by rewrite take_app_length|done|lia].
Qed.

(** ** wav.go *)

Definition wavBitsPerSample : Z := 16.
Definition wavNumChannels : Z := 1.
Definition wavHeaderSize : Z := 44.

Definition writeWavHeader (dataBytes : Z) : bytes :=
  let byteRate := SampleRate * wavNumChannels * wavBitsPerSample / 8 in
  let blockAlign := wavNumChannels * wavBitsPerSample / 8 in
  let riffSize := wavHeaderSize - 8 + dataBytes in
  bs "RIFF" ++ PutUint32 riffSize ++ bs "WAVE" ++ bs "fmt " ++ PutUint32 16 ++ PutUint16 1 ++
  PutUint16 wavNumChannels ++ PutUint32 SampleRate ++ PutUint32 byteRate ++ PutUint16 blockAlign ++
  PutUint16 wavBitsPerSample ++ bs "data" ++ PutUint32 dataBytes.

(** [MixRecorder.WAV]. *)
Definition WAV (r : MixRecorder) : option bytes :=
  match pcm r with [] => None | p => Some (writeWavHeader (Z.of_nat (length p)) ++ p) end.

(** [wavFile]: the open file's contents and the data bytes written; [None]
    once disabled. [ok] says how a call on the file ended. *)
Record wavFile := mkWav { f : option bytes; dataBytes : Z; on_disk : bytes }.
#[global] Instance eta_wavFile : Eta wavFile := fun w => mkWav (f w) (dataBytes w) (on_disk w).

Definition newWavFile (create_ok header_ok : bool) : wavFile :=
  if create_ok && header_ok then mkWav (Some (writeWavHeader 0)) 0 (writeWavHeader 0) else mkWav None 0 [].

Definition write (ok : bool) (w : wavFile) (p : bytes) : wavFile :=
  match f w with
  | None => w
  | Some c =>
      if ok then mkWav (Some (c ++ p)) (dataBytes w + Z.of_nat (length p)) (c ++ p)
      else mkWav None (dataBytes w) (on_disk w)
  end.

(** [close]: the header is written over the placeholder's bytes. *)
Definition close (seek_ok : bool) (w : wavFile) : wavFile :=
  match f w with
  | None => w
  | Some c =>
      if seek_ok then
        let c' := writeWavHeader (dataBytes w) ++ drop (Z.to_nat wavHeaderSize) c in mkWav None (dataBytes w) c'
      else mkWav None (dataBytes w) c
  end.

(** A reader of 16-bit PCM WAV files: channels, rate, data. *)
Definition parse_wav (l : bytes) : option (Z * Z * bytes) :=
  let at_ i n := take n (drop i l) in
  if bool_decide (at_ 0%nat 4%nat = bs "RIFF") && bool_decide (at_ 8%nat 8%nat = bs "WAVEfmt ") &&
     (le (at_ 16%nat 4%nat) =? 16) && (le (at_ 20%nat 2%nat) =? 1) && (le (at_ 34%nat 2%nat) =? 16) &&
     bool_decide (at_ 36%nat 4%nat = bs "data") &&
     (le (at_ 40%nat 4%nat) =? Z.of_nat (length (drop 44%nat l))) &&
     (le (at_ 4%nat 4%nat) =? Z.of_nat (length l) - 8)
  then Some (le (at_ 22%nat 2%nat), le (at_ 24%nat 4%nat), drop 44 l)
  else None.

Lemma length_header n : length (writeWavHeader n) = 44%nat.
Proof. reflexivity. Qed.

Lemma parse_header (data : bytes) : Z.of_nat (length data) + 36 < 4294967296 ->
  parse_wav (writeWavHeader (Z.of_nat (length data)) ++ data) = Some (1, 16000, data).
Proof.
  intros Hn. set (n := Z.of_nat (length data)) in *.
  assert (0 <= n) by lia.
  assert (H1 : le (PutUint32 n) = n) by (rewrite le_PutUint32; unfold u32; apply Z.mod_small; lia).
  assert (H2 : le (PutUint32 (wavHeaderSize - 8 + n)) = 36 + n).
  { rewrite le_PutUint32. unfold u32, wavHeaderSize. rewrite Z.mod_small; lia. }
  unfold parse_wav.
  change (drop 44 (writeWavHeader n ++ data)) with data.
  change (take 4 (drop 40 (writeWavHeader n ++ data))) with (PutUint32 n).
  change (take 4 (drop 4 (writeWavHeader n ++ data))) with (PutUint32 (wavHeaderSize - 8 + n)).
  rewrite H1, H2, length_app, length_header. fold n.
  rewrite (Z.eqb_refl n).
  replace (36 + n =? Z.of_nat (44 + length data) - 8) with true by (symmetry; apply Z.eqb_eq; lia).
  reflexivity.
Qed.

Definition write_all (w : wavFile) (l : list bytes) : wavFile := fold_left (write true) l w.

Lemma write_all_spec l w c : f w = Some c ->
  f (write_all w l) = Some (c ++ concat l) /\
  dataBytes (write_all w l) = dataBytes w + Z.of_nat (length (concat l)).
Proof.
  revert w c. induction l as [|p l IH]; intros w c Hc; simpl.
  - rewrite Hc, app_nil_r. split; [done|lia].
  - assert (f (write true w p) = Some (c ++ p)) as Hc' by (unfold write; by rewrite Hc).
    destruct (IH _ _ Hc') as [H1 H2]. unfold write_all in *. rewrite H1, H2, <- app_assoc. split; [done|].
    unfold write. rewrite Hc. simpl. rewrite length_app. lia.
Qed.

(** The recordings are WAV files a reader takes back exactly: mono, 16
    kHz, the data that was recorded; the streamed debug file is one once it is
    closed, its placeholder header replaced by the real size. (Below the
    format's 4 GB.) *)
Theorem recordings_readable (l : list bytes) (r : MixRecorder) :
  (Z.of_nat (length (concat l)) + 36 < 4294967296 ->
   parse_wav (on_disk (close true (write_all (newWavFile true true) l))) = Some (1, 16000, concat l)) /\
  (pcm r <> [] -> Z.of_nat (length (pcm r)) + 36 < 4294967296 ->
   exists w, WAV r = Some w /\ parse_wav w = Some (1, 16000, pcm r)).
Proof.
  split.
  - intros Hn. destruct (write_all_spec l (newWavFile true true) (writeWavHeader 0)) as [H1 H2]; [done|].
    unfold close. rewrite H1. cbv zeta. unfold on_disk. rewrite H2. simpl (dataBytes _).
    change (drop (Z.to_nat wavHeaderSize) (writeWavHeader 0 ++ concat l)) with (concat l).
    rewrite Z.add_0_l. by apply parse_header.
  - intros Hne Hn. unfold WAV. destruct (pcm r) as [|b p] eqn:E; [done|].
    exists (writeWavHeader (Z.of_nat (length (b :: p))) ++ b :: p). split; [done|]. by apply parse_header.
Qed.

Lemma recordings_readable_witness :
  parse_wav (on_disk (close true (write_all (newWavFile true true) [[1; 2]; [3; 4]]))) = Some (1, 16000, [1; 2; 3; 4]).
Proof. apply (proj1 (recordings_readable [[1; 2]; [3; 4]] NewMixRecorder)). vm_compute. reflexivity. Defined.

End Pcm.
