(* ===== verification/BargeIn.v ===== *)
(** [internal/ai/agent/bargein.go], [bargein_ten.go] and [media.RMS]: has the
    caller started talking over the agent? Both detectors vote over a ring of
    the last five verdicts; the neural one first re-frames the 20 ms frames
    into the 16 ms hops its model takes.

    The native model is a parameter: the [k]-th hop it is given and its samples
    make a verdict or an error. Floating point is IEEE binary64 ([SpecFloat]). *)

From Stdlib Require Import SpecFloat.
From S2P Require Import Prelude Text Pcm.

Local Open Scope Z_scope.

Module BargeIn.
Import Pcm.

(** ** float64 *)

Abbreviation float64 := spec_float.
Definition of_int (z : Z) : float64 := binary_normalize 53 1024 z 0 false.
Definition fadd : float64 -> float64 -> float64 := SFadd 53 1024.
Definition fmul : float64 -> float64 -> float64 := SFmul 53 1024.
Definition fdiv : float64 -> float64 -> float64 := SFdiv 53 1024.
Definition fsqrt : float64 -> float64 := SFsqrt 53 1024.
Definition fge (a b : float64) : bool := SFleb b a.

(** [media.RMS]. *)
Definition RMS (pcm : bytes) : float64 :=
  match samples pcm with
  | [] => of_int 0
  | l => fsqrt (fdiv (fold_left (fun s x => fadd s (fmul (of_int x) (of_int x))) l (of_int 0)) (of_int (Z.of_nat (length l))))
  end.

(** ** Votes *)

Definition bargeInHistoryFrames : nat := 5.
Definition bargeInVotesNeeded : nat := 3.

(** The ring of verdicts and where the next one goes. *)
Record ring := mkRing { history : list bool; idx : nat }.
#[global] Instance eta_ring : Eta ring := fun r => mkRing (history r) (idx r).

Definition empty : ring := mkRing (replicate bargeInHistoryFrames false) 0.
Definition push (speech : bool) (r : ring) : ring :=
  mkRing (<[idx r := speech]> (history r)) ((idx r + 1) mod length (history r)).
Definition votes (r : ring) : nat := length (List.filter id (history r)).
Definition voted (r : ring) : bool := (bargeInVotesNeeded <=? votes r)%nat.

(** ** [EnergyDetector] *)

Record EnergyDetector := mkEnergy { floor : float64; frames : ring }.
Definition NewEnergyDetector (rmsFloor : float64) : EnergyDetector := mkEnergy rmsFloor empty.

Definition Detect (pcm : bytes) (d : EnergyDetector) : EnergyDetector * bool :=
  let d := mkEnergy (floor d) (push (fge (RMS pcm) (floor d)) (frames d)) in (d, voted (frames d)).
Definition Reset (d : EnergyDetector) : EnergyDetector := mkEnergy (floor d) empty.

(** [NoopBargeInDetector]. *)
Definition Noop (pcm : bytes) : bool := false.

(** ** [TenVadDetector] *)

Definition tenVadHopSize : nat := 256.

(** What it does besides its verdict; [EHop] is a call of the model. *)
Inductive effect := EHop (hop : list Z) | EStarted | EEnded | EFailed (first : bool).

(** [hops] counts the calls of the model, which keeps its state over [Reset];
    times are in ns. *)
Record TenVadDetector := mkTen {
  carry : list Z; hopErrLogged : bool; speechActive : bool; lastSpeechAt : Z; window : ring; hops : nat;
}.
#[global] Instance eta_ten : Eta TenVadDetector := fun d =>
  mkTen (carry d) (hopErrLogged d) (speechActive d) (lastSpeechAt d) (window d) (hops d).

Definition NewTenVadDetector : TenVadDetector := mkTen [] false false 0 empty 0.

Definition act (A : Type) : Type := M TenVadDetector effect A.
Definition upd (f : TenVadDetector -> TenVadDetector) : act unit := mmod f.
Definition emit (e : effect) : act unit := memit e.

Local Open Scope m_scope.

Section model.
(** The model: whether the [k]-th hop is speech; [None] is an error. *)
Variable model : nat -> list Z -> option bool.

(** The body of [Detect]'s loop, at time [now]: one hop. *)
Definition hopStep (now : Z) : act bool :=
  let! d := mread in
  let hop := take tenVadHopSize (carry d) in
  let r := model (hops d) hop in
  emit (EHop hop) ;;
  mwhen (bool_decide (r = None)) (emit (EFailed (negb (hopErrLogged d))) ;; upd (fun d => d <| hopErrLogged := true |>)) ;;
  let speech := bool_decide (r = Some true) in
  upd (fun d => d <| window ::= push speech |> <| hops ::= S |>) ;;
  mwhen speech (upd (fun d => d <| lastSpeechAt := now |>)) ;;
  upd (fun d => d <| carry ::= drop tenVadHopSize |>) ;;
  let! d := mread in
  let result := voted (window d) in
  (if result && negb (speechActive d) then upd (fun d => d <| speechActive := true |>) ;; emit EStarted
   else if negb result && speechActive d then upd (fun d => d <| speechActive := false |>) ;; emit EEnded
   else mret tt) ;;
  mret result.

(** The loop; it runs at most once per sample carried. *)
Fixpoint hopLoop (fuel : nat) (now : Z) (result : bool) : act bool :=
  let! d := mread in
  if (tenVadHopSize <=? length (carry d))%nat then
    match fuel with
    | O => mret result
    | S n => let! result := hopStep now in hopLoop n now result
    end
  else mret result.

(** [TenVadDetector.Detect]. *)
Definition DetectTen (now : Z) (pcm : bytes) : act bool :=
  upd (fun d => d <| carry ::= fun c => c ++ samples pcm |>) ;;
  let! d := mread in hopLoop (length (carry d)) now false.

(** [TenVadDetector.Reset], [LastSpeechAt] (zero: never). *)
Definition ResetTen : act unit := upd (fun d => d <| carry := [] |> <| window := empty |> <| speechActive := false |>).
Definition LastSpeechAt (d : TenVadDetector) : option Z := if lastSpeechAt d =? 0 then None else Some (lastSpeechAt d).

(** A turn's frames, each at its time. *)
Fixpoint detects (ps : list (Z * bytes)) : act (list bool) :=
  match ps with
  | [] => mret []
  | (now, p) :: r => let! b := DetectTen now p in let! l := detects r in mret (b :: l)
  end.
End model.

(** ** The ring is the last five verdicts

    [vs] are the verdicts since the start, newest first. *)
Definition votes_of (vs : list bool) : nat := length (List.filter id (take bargeInHistoryFrames vs)).

Definition holds (r : ring) (vs : list bool) : Prop :=
  (idx r < 5)%nat /\ length (history r) = 5%nat /\
  forall j, (j < 5)%nat -> nth ((idx r + 4 - j) mod 5) (history r) false = nth j vs false.

Lemma holds_empty : holds empty [].
Proof. split; [simpl; lia|split; [done|]]. intros j Hj. do 5 (destruct j as [|j]; [done|]). lia. Qed.

(** The five places of a ring. *)
Lemma ring_cases (P : nat -> list bool -> Prop) :
  (forall i a b c d e, (i < 5)%nat -> P i [a; b; c; d; e]) ->
  forall i h, (i < 5)%nat -> length h = 5%nat -> P i h.
Proof.
  intros H i h Hi Hh. do 5 (destruct h as [|? h]; [discriminate|]). destruct h; [by apply H|discriminate].
Qed.

Lemma holds_push r vs v : holds r vs -> holds (push v r) (v :: vs).
Proof.
  intros (Hi & Hl & H). unfold holds, push. cbn [idx history]. rewrite length_insert, Hl.
  split; [apply Nat.mod_upper_bound; lia|split; [done|]]. intros j Hj.
  assert (Hj' : nth j (v :: vs) false = if (j =? 0)%nat then v else nth ((idx r + 4 - (j - 1)) mod 5) (history r) false).
  { destruct j; [done|]. rewrite H by lia. simpl. by rewrite Nat.sub_0_r. }
  rewrite Hj'. clear Hj' H. revert Hi Hl. generalize (idx r), (history r). apply (ring_cases (fun i h =>
    nth (((i + 1) mod 5 + 4 - j) mod 5) (<[i := v]> h) false = (if (j =? 0)%nat then v else nth ((i + 4 - (j - 1)) mod 5) h false))).
  intros i a b c d e Hi. do 5 (destruct i as [|i]; [do 5 (destruct j as [|j]; [done|]); lia|]). lia.
Qed.

Lemma votes_nth n (l : list bool) :
  length (List.filter id (take n l)) = length (List.filter id (map (fun j => nth j l false) (seq 0 n))).
Proof.
  revert l. induction n as [|n IH]; intros l; [by destruct l|].
  cbn [seq map]. rewrite <- seq_shift, map_map. destruct l as [|x l].
  - specialize (IH []). rewrite take_nil in IH. cbn [take nth List.filter id].
    etransitivity; [exact IH|]. do 2 f_equal. apply map_ext. by intros [|].
  - cbn [take nth List.filter id]. destruct x; simpl; by rewrite IH.
Qed.

Lemma holds_votes r vs : holds r vs -> votes r = votes_of vs.
Proof.
  intros (Hi & Hl & H). unfold votes, votes_of, bargeInHistoryFrames.
  rewrite votes_nth. erewrite map_ext_in; [|intros j Hj; symmetry; apply H; apply in_seq in Hj; lia].
  clear H. revert Hi Hl. generalize (idx r), (history r).
  apply (ring_cases (fun i h => length (List.filter id h) = length (List.filter id (map (fun j => nth ((i + 4 - j) mod 5) h false) (seq 0 5))))).
  intros i a b c d e Hi. do 5 (destruct i as [|i]; [by destruct a, b, c, d, e|]). lia.
Qed.

Lemma holds_voted r vs : holds r vs -> voted r = (bargeInVotesNeeded <=? votes_of vs)%nat.
Proof. intros H. unfold voted. by rewrite (holds_votes r vs). Qed.

(** ** [EnergyDetector] *)

Fixpoint detect_all (ps : list bytes) (d : EnergyDetector) : EnergyDetector :=
  match ps with [] => d | p :: r => detect_all r (Detect p d).1 end.

Definition loud (d : EnergyDetector) (p : bytes) : bool := fge (RMS p) (floor d).

Lemma detect_all_holds ps d vs :
  holds (frames d) vs ->
  floor (detect_all ps d) = floor d /\ holds (frames (detect_all ps d)) (rev (map (loud d) ps) ++ vs).
Proof.
  revert d vs. induction ps as [|p ps IH]; intros d vs H; [done|]. cbn [detect_all map rev].
  destruct (IH (Detect p d).1 (loud d p :: vs)) as [Hf Hh]; [by apply holds_push|].
  split; [done|]. by rewrite <- app_assoc.
Qed.

(** Whatever was heard before a [Reset], [Detect] reports speech exactly
    when three of the last five frames since, this one among them, are as loud
    as the floor: never on the first two, and never on fewer than three. *)
Theorem energy_votes (d : EnergyDetector) (ps : list bytes) (p : bytes) :
  (Detect p (detect_all ps (Reset d))).2 =
  (3 <=? votes_of (loud d p :: rev (map (loud d) ps)))%nat.
Proof.
  destruct (detect_all_holds ps (Reset d) [] holds_empty) as [Hf Hh]. rewrite app_nil_r in Hh.
  unfold Detect. cbn [snd frames]. rewrite Hf. by apply holds_voted, holds_push.
Qed.

(** ** [TenVadDetector] *)

(** The whole hops of a signal, and what is left of it. *)
Fixpoint hops_of (n : nat) (l : list Z) : list (list Z) :=
  match n with O => [] | S n => take 256 l :: hops_of n (drop 256 l) end.
Definition whole_hops (l : list Z) : nat := (length l / 256)%nat.
Definition hops_in (l : list Z) : list (list Z) := hops_of (whole_hops l) l.
Definition rest (l : list Z) : list Z := drop (256 * whole_hops l) l.

Lemma hops_of_app n m l : hops_of (n + m) l = hops_of n l ++ hops_of m (drop (256 * n) l).
Proof.
  revert l. induction n as [|n IH]; intros l; [by rewrite Nat.mul_0_r|].
  cbn [Nat.add hops_of app]. rewrite IH, drop_drop. f_equal. replace (256 * S n)%nat with (256 + 256 * n)%nat by lia. done.
Qed.

Lemma hops_of_prefix n a b : (256 * n <= length a)%nat -> hops_of n (a ++ b) = hops_of n a.
Proof.
  revert a. induction n as [|n IH]; intros a H; [done|]. cbn [hops_of].
  rewrite take_app_le, drop_app_le by lia. f_equal. apply IH. rewrite length_drop. lia.
Qed.

Lemma whole_hops_le l : (256 * whole_hops l <= length l)%nat.
Proof. apply Nat.Div0.mul_div_le. Qed.

Lemma length_rest l : length (rest l) = (length l mod 256)%nat.
Proof.
  unfold rest. rewrite length_drop. pose proof (Nat.div_mod_eq (length l) 256). unfold whole_hops. lia.
Qed.

Lemma whole_hops_app a b : whole_hops (a ++ b) = (whole_hops a + whole_hops (rest a ++ b))%nat.
Proof.
  unfold whole_hops. rewrite !length_app, length_rest.
  pose proof (Nat.div_mod_eq (length a) 256). pose proof (Nat.mod_upper_bound (length a) 256).
  replace (length a + length b)%nat with (length a mod 256 + length b + length a / 256 * 256)%nat by lia.
  rewrite Nat.div_add by lia. lia.
Qed.

Lemma drop_rest a b : drop (256 * whole_hops a) (a ++ b) = rest a ++ b.
Proof. by rewrite drop_app_le by apply whole_hops_le. Qed.

Lemma hops_in_app a b : hops_in (a ++ b) = hops_in a ++ hops_in (rest a ++ b).
Proof.
  unfold hops_in. rewrite whole_hops_app, hops_of_app, drop_rest. f_equal.
  apply hops_of_prefix, whole_hops_le.
Qed.

Lemma rest_app a b : rest (a ++ b) = rest (rest a ++ b).
Proof. unfold rest at 1. rewrite whole_hops_app, Nat.mul_add_distr_l, <- drop_drop, drop_rest. done. Qed.

Lemma concat_hops l : concat (hops_in l) ++ rest l = l.
Proof.
  unfold hops_in, rest. generalize (whole_hops l). intros n. revert l. induction n as [|n IH]; intros l; [done|].
  cbn [hops_of concat]. rewrite <- app_assoc.
  replace (256 * S n)%nat with (256 + 256 * n)%nat by lia. rewrite <- drop_drop, IH. apply take_drop.
Qed.

Section ten.
Variable model : nat -> list Z -> option bool.

(** The verdicts on hops, the first of them the [k]-th the model is given. *)
Fixpoint verdicts (k : nat) (hs : list (list Z)) : list bool :=
  match hs with [] => [] | h :: r => bool_decide (model k h = Some true) :: verdicts (S k) r end.

Lemma verdicts_app k a b : verdicts k (a ++ b) = verdicts k a ++ verdicts (k + length a) b.
Proof.
  revert k. induction a as [|h a IH]; intros k; [by rewrite Nat.add_0_r|].
  cbn [app verdicts length]. by rewrite IH, <- Nat.add_succ_comm.
Qed.

Definition hops_out (o : list effect) : list (list Z) := omap (fun e => match e with EHop h => Some h | _ => None end) o.

Lemma hops_out_app a b : hops_out (a ++ b) = hops_out a ++ hops_out b.
Proof. apply omap_app. Qed.

(** What a detector's fields are after verdicts [vs], newest first. *)
Record shows (d : TenVadDetector) (vs : list bool) : Prop := {
  s_window : holds (window d) vs;
  s_active : speechActive d = voted (window d);
}.

(** One hop. *)
Lemma hopStep_spec now d vs :
  shows d vs ->
  let r := hopStep model now d in
  let v := bool_decide (model (hops d) (take 256 (carry d)) = Some true) in
  let d' := r.1.2 in
  shows d' (v :: vs) /\ r.1.1 = voted (window d') /\ hops_out r.2 = [take 256 (carry d)] /\
  carry d' = drop 256 (carry d) /\ hops d' = S (hops d).
Proof.
  intros [Hw Ha]. unfold hopStep, emit, upd, tenVadHopSize. open_m.
  pose proof (holds_push _ _ (bool_decide (model (hops d) (take 256 (carry d)) = Some true)) Hw) as Hp.
  destruct (model (hops d) (take 256 (carry d))) as [[]|]; simpl in *;
    repeat (match goal with |- context [voted ?r && _] => destruct (voted r) eqn:? | |- context [speechActive d] => destruct (speechActive d) eqn:? end; simpl);
    split_and!; try done; split; simpl; congruence.
Qed.

Lemma hopLoop_spec n fuel now res d vs :
  shows d vs -> whole_hops (carry d) = n -> (n <= fuel)%nat ->
  let r := hopLoop model fuel now res d in
  let d' := r.1.2 in
  shows d' (rev (verdicts (hops d) (hops_in (carry d))) ++ vs) /\ hops_out r.2 = hops_in (carry d) /\
  carry d' = rest (carry d) /\ hops d' = (hops d + n)%nat /\
  r.1.1 = if (n =? 0)%nat then res else voted (window d').
Proof.
  revert fuel res d vs. induction n as [|n IH]; intros fuel res d vs Hs Hn Hf.
  - assert (Hl : (tenVadHopSize <=? length (carry d))%nat = false).
    { apply Nat.leb_gt. unfold whole_hops in Hn. apply Nat.div_small_iff in Hn; unfold tenVadHopSize; lia. }
    assert (hopLoop model fuel now res d = (res, d, [])) as ->.
    { destruct fuel; cbn [hopLoop]; rewrite mread_seq_at, Hl; done. }
    unfold hops_in, rest. rewrite Hn. simpl. rewrite Nat.add_0_r. by split_and!.
  - pose proof (whole_hops_le (carry d)) as Hle. rewrite Hn in Hle.
    assert (Hl : (tenVadHopSize <=? length (carry d))%nat = true) by (apply Nat.leb_le; unfold tenVadHopSize; lia).
    destruct fuel as [|fuel]; [lia|]. cbn [hopLoop]. rewrite mread_seq_at, Hl.
    pose proof (hopStep_spec now d vs Hs) as H. unfold mseq.
    destruct (hopStep model now d) as [[b d1] o1] eqn:E1. cbn [fst snd] in H. destruct H as (H1 & -> & H3 & H4 & H5).
    assert (Hn1 : whole_hops (carry d1) = n).
    { unfold whole_hops in *. rewrite H4, length_drop.
      replace (length (carry d)) with (length (carry d) - 256 + 1 * 256)%nat in Hn by lia. rewrite Nat.div_add in Hn by lia. lia. }
    specialize (IH fuel (voted (window d1)) d1 _ H1 Hn1 ltac:(lia)).
    destruct (hopLoop model fuel now (voted (window d1)) d1) as [[b2 d2] o2] eqn:E2. cbn [fst snd] in *.
    destruct IH as (J1 & J2 & J3 & J4 & J5).
    assert (Hh : hops_in (carry d) = take 256 (carry d) :: hops_in (carry d1)) by (unfold hops_in; by rewrite Hn, Hn1, H4).
    rewrite hops_out_app, H3, J2, Hh. cbn [verdicts rev]. rewrite <- app_assoc. cbn [app]. rewrite <- H5.
    split_and!; [done|done| |lia| ].
    + rewrite J3. unfold rest. rewrite Hn, Hn1, H4, drop_drop. f_equal. lia.
    + rewrite J5. cbn [Nat.eqb]. destruct (Nat.eqb_spec n 0) as [->|]; [|done].
      assert (Hd : d2 = d1); [|by rewrite Hd].
      assert (Hl1 : (tenVadHopSize <=? length (carry d1))%nat = false).
      { apply Nat.leb_gt. unfold whole_hops in Hn1. apply Nat.div_small_iff in Hn1; unfold tenVadHopSize; lia. }
      destruct fuel; cbn [hopLoop] in E2; rewrite mread_seq_at, Hl1 in E2; unfold mret in E2; congruence.
Qed.

(** A detector that was reset before hop [k] and has heard [all] since. *)
Record heard (k : nat) (all : list Z) (d : TenVadDetector) : Prop := {
  h_shows : shows d (rev (verdicts k (hops_in all)));
  h_carry : carry d = rest all;
  h_hops : hops d = (k + whole_hops all)%nat;
}.

Lemma length_hops n l : length (hops_of n l) = n.
Proof. revert l. induction n as [|n IH]; intros l; simpl; auto. Qed.

Lemma length_hops_in l : length (hops_in l) = whole_hops l.
Proof. apply length_hops. Qed.

Lemma DetectTen_spec k all now p d :
  heard k all d ->
  let r := DetectTen model now p d in
  heard k (all ++ samples p) r.1.2 /\ hops_out r.2 = hops_in (rest all ++ samples p) /\
  r.1.1 = negb (whole_hops (rest all ++ samples p) =? 0)%nat && voted (window r.1.2).
Proof.
  intros [Hs Hc Hh]. unfold DetectTen. unfold upd. rewrite mmod_seq_at, mread_seq_at.
  set (d1 := d <| carry ::= _ |>).
  assert (Hc1 : carry d1 = rest all ++ samples p) by (unfold d1, field_update; simpl; by rewrite Hc).
  pose proof (hopLoop_spec _ (length (carry d1)) now false d1 _ (Build_shows d1 _ (s_window _ _ Hs) (s_active _ _ Hs)) eq_refl) as H.
  destruct H as (J1 & J2 & J3 & J4 & J5).
  { unfold whole_hops. apply Nat.Div0.div_le_upper_bound. lia. }
  rewrite Hc1 in *. split_and!; [split|done|].
  - rewrite hops_in_app, verdicts_app, rev_app_distr, length_hops_in, <- Hh. exact J1.
  - by rewrite J3, <- rest_app.
  - rewrite J4. change (hops d1) with (hops d). rewrite Hh. rewrite (whole_hops_app all). symmetry. apply Nat.add_assoc.
  - rewrite J5. by destruct (whole_hops _ =? 0)%nat.
Qed.

Lemma detects_spec k ps all d :
  heard k all d ->
  let r := detects model ps d in
  heard k (all ++ concat (map (fun q => samples q.2) ps)) r.1.2 /\
  hops_in all ++ hops_out r.2 = hops_in (all ++ concat (map (fun q => samples q.2) ps)).
Proof.
  revert all d. induction ps as [|[now p] ps IH]; intros all d Hd; [simpl; by rewrite !app_nil_r|].
  cbn [detects map concat snd]. unfold mseq. pose proof (DetectTen_spec k all now p d Hd) as H.
  destruct (DetectTen model now p d) as [[b d1] o1]. cbn [fst snd] in H. destruct H as (H1 & H2 & _).
  specialize (IH _ _ H1). destruct (detects model ps d1) as [[l d2] o2]. cbn [fst snd mret] in *.
  rewrite app_nil_r, app_assoc. destruct IH as [J1 J2]. split; [done|].
  by rewrite <- J2, hops_out_app, H2, app_assoc, <- hops_in_app.
Qed.

Lemma heard_reset d : heard (hops d) [] (mstate ResetTen d).
Proof. split; [|done|by rewrite Nat.add_0_r]. split; [apply holds_empty|done]. Qed.

(** Whatever a detector heard before its [Reset], and however the caller's
    audio is cut into frames: the model is given the audio since as one
    signal, in whole hops of 256 samples, none lost, repeated or split
    otherwise; fewer than 256 samples are kept back; and a frame that completes a
    hop reports speech exactly when three of the last five verdicts since the reset,
    errors as silence, are speech. A frame that completes none reports silence. *)
Theorem hops_reframed (d : TenVadDetector) (ps : list (Z * bytes)) (now : Z) (p : bytes) :
  let before := concat (map (fun q => samples q.2) ps) in
  let all := before ++ samples p in
  let r1 := detects model ps (mstate ResetTen d) in
  let r := DetectTen model now p r1.1.2 in
  hops_out (r1.2 ++ r.2) = hops_in all /\ concat (hops_in all) ++ carry r.1.2 = all /\ (length (carry r.1.2) < 256)%nat /\
  r.1.1 = negb (whole_hops all =? whole_hops before)%nat && (3 <=? votes_of (rev (verdicts (hops d) (hops_in all))))%nat.
Proof.
  intros before all r1 r.
  destruct (detects_spec _ ps [] _ (heard_reset d)) as [H1 H2]. cbn [app] in H1, H2. fold before in H1, H2.
  destruct (DetectTen_spec _ _ now p _ H1) as (J1 & J2 & J3). fold r1 in H1, H2, J1, J2, J3. fold r in J1, J2, J3.
  split_and!.
  - rewrite hops_out_app, J2. change (hops_out r1.2) with (hops_in [] ++ hops_out r1.2). by rewrite H2, <- hops_in_app.
  - rewrite (h_carry _ _ _ J1). apply concat_hops.
  - rewrite (h_carry _ _ _ J1), length_rest. by apply Nat.mod_upper_bound.
  - rewrite J3. f_equal; [|apply holds_voted, J1]. unfold all. rewrite (whole_hops_app before).
    f_equal. destruct (Nat.eqb_spec (whole_hops (rest before ++ samples p)) 0);
      destruct (Nat.eqb_spec (whole_hops before + whole_hops (rest before ++ samples p)) (whole_hops before)); done || lia.
Qed.
End ten.

(** ** Examples *)

Definition tone (a : Z) (n : nat) : bytes := concat (replicate n (PutUint16 (u16 a))).

(** The RMS of a constant signal is its level. *)
Example rms_constant : RMS (tone (-500) 320) = of_int 500 /\ RMS [] = of_int 0 /\ RMS [7] = of_int 0.
Proof. by vm_compute. Qed.

Example third_loud_frame :
  let d := NewEnergyDetector (of_int 400) in
  map (fun ps => (Detect (tone 500 8) (detect_all ps d)).2)
    [[]; [tone 500 8]; [tone 500 8; tone 500 8]; [tone 500 8; tone 3 8; tone 3 8; tone 500 8]; [tone 500 8; tone 3 8; tone 3 8; tone 3 8; tone 500 8]] =
  [false; false; true; true; false].
Proof. by vm_compute. Qed.

(** Speech from the third hop on, by a model that fails on the fourth. *)
Example ten_run :
  let model k (_ : list Z) := if (k =? 3)%nat then None else Some (2 <=? k)%nat in
  let r := detects model (map (fun now => (now, tone 1 320)) [1; 2; 3; 4; 5]) NewTenVadDetector in
  (r.1.1, LastSpeechAt r.1.2, length (carry r.1.2), List.filter (fun e => match e with EHop _ => false | _ => true end) r.2) =
  ([false; false; false; false; true], Some 5, 64%nat, [EFailed true; EStarted]).
Proof. by vm_compute. Qed.
End BargeIn.
