(* ===== verification/Recordings.v ===== *)
(** [internal/dograh/recordings.go]: the organization's recorded audio: cutting
    the silence off a recording, and the cache of converted recordings that all
    calls share, in memory and on disk.

    A step of the cache is one critical section, or one choice of a [select].
    The download and its conversion by ffmpeg answer as they will; a restart
    loses the memory and keeps the disk. *)

From Stdlib Require Import String.
From S2P Require Import Prelude Text Workflow Pcm.

Local Open Scope Z_scope.

(** ** [trimSilence] *)

Definition speakingThreshold : Z := 20.
(** 10 ms of 16 kHz 16-bit mono. *)
Definition frameBytes : nat := 320.

Definition frame (pcm : bytes) (i : nat) : bytes := take frameBytes (drop (i * frameBytes) pcm).
Definition loud (f : bytes) : bool := existsb (fun v => (speakingThreshold <? v) || (v <? - speakingThreshold)) (Pcm.samples f).

Definition first_loud (pcm : bytes) (idxs : list nat) : option nat := List.find (fun i => loud (frame pcm i)) idxs.

Definition trimSilence (pcm : bytes) : bytes :=
  let frames := (length pcm / frameBytes)%nat in
  match first_loud pcm (seq 0 frames) with
  | None => pcm
  | Some first =>
      let last := default first (first_loud pcm (rev (seq (first + 1) (frames - (first + 1))))) in
      take ((last + 1) * frameBytes - first * frameBytes) (drop (first * frameBytes) pcm)
  end.

Lemma find_split {A} (p : A -> bool) l x : List.find p l = Some x -> exists a b, l = a ++ x :: b /\ p x = true /\ Forall (fun y => p y = false) a.
Proof.
  induction l as [|y l IH]; [done|]. simpl. destruct (p y) eqn:E.
  - intros [= ->]. by exists [], l.
  - intros H. destruct (IH H) as (a & b & -> & Hx & Ha). exists (y :: a), b. auto.
Qed.

Lemma seq_split a b i n m : seq n m = a ++ i :: b -> (n <= i < n + m)%nat /\ a = seq n (i - n) /\ b = seq (S i) (n + m - S i).
Proof.
  revert n m. induction a as [|x a IH]; intros n m; destruct m as [|m]; simpl; try done.
  - intros [= -> <-]. split; [lia|]. split; [by rewrite Nat.sub_diag|]. f_equal. lia.
  - intros [= -> H]. destruct (IH _ _ H) as (H1 & -> & ->). split; [lia|]. split; [|f_equal; lia].
    replace (i - x)%nat with (S (i - S x)) by lia. done.
Qed.

(** The frames [n] to [m] are quiet. *)
Definition quiet (pcm : bytes) (n m : nat) : Prop := forall i, (n <= i < m)%nat -> loud (frame pcm i) = false.

Lemma first_loud_spec pcm n m :
  match first_loud pcm (seq n m) with
  | Some i => (n <= i < n + m)%nat /\ loud (frame pcm i) = true /\ quiet pcm n i
  | None => quiet pcm n (n + m)
  end.
Proof.
  unfold first_loud. destruct (List.find _ _) as [i|] eqn:E.
  - apply find_split in E as (a & b & Hs & Hi & Ha). apply seq_split in Hs as (H1 & -> & _). split; [done|]. split; [done|].
    intros j Hj. rewrite Forall_forall in Ha. apply Ha, elem_of_seq. lia.
  - intros i Hi. apply (find_none _ _ E). apply in_seq. lia.
Qed.

Lemma last_loud_spec pcm n m :
  match first_loud pcm (rev (seq n m)) with
  | Some i => (n <= i < n + m)%nat /\ loud (frame pcm i) = true /\ quiet pcm (S i) (n + m)
  | None => quiet pcm n (n + m)
  end.
Proof.
  unfold first_loud. destruct (List.find _ _) as [i|] eqn:E.
  - apply find_split in E as (a & b & Hs & Hi & Ha). apply (f_equal (@rev nat)) in Hs. rewrite rev_involutive, rev_app_distr in Hs. simpl in Hs.
    rewrite <- app_assoc in Hs. apply seq_split in Hs as (H1 & _ & Hr). split; [done|]. split; [done|].
    intros j Hj. rewrite Forall_forall in Ha. apply Ha. rewrite list_elem_of_In, in_rev, Hr, in_seq. lia.
  - intros i Hi. apply (find_none _ _ E). rewrite <- in_rev. apply in_seq. lia.
Qed.

(** Whole frames, the outer ones loud, are left alone. *)
Lemma trimSilence_tight t k :
  length t = (S k * frameBytes)%nat -> loud (frame t 0) = true -> loud (frame t k) = true -> trimSilence t = t.
Proof.
  intros Hlen H0 Hk. unfold trimSilence. rewrite Hlen, Nat.div_mul by done. cbn [seq first_loud List.find]. unfold first_loud.
  cbn [List.find]. rewrite H0. replace (S k - (0 + 1))%nat with k by lia.
  assert (default 0%nat (List.find (fun i => loud (frame t i)) (rev (seq (0 + 1) k))) = k) as ->.
  { destruct k as [|k]; [done|]. rewrite seq_S, rev_app_distr. cbn [rev app List.find]. replace (0 + 1 + k)%nat with (S k) by lia. by rewrite Hk. }
  rewrite drop_0. apply take_ge. lia.
Qed.

Lemma frame_inside pcm n m i :
  (i < m)%nat -> frame (take (m * frameBytes) (drop (n * frameBytes) pcm)) i = frame pcm (n + i).
Proof.
  intros Hi. unfold frame. rewrite skipn_firstn_comm, drop_drop, take_take. f_equal; [nia|]. f_equal. lia.
Qed.

(** A recording with any sound in it is cut to whole frames from its first
    loud one to its last, what goes before and after them being quiet frames
    and, at the end, less than a frame; a silent one is left as it is. Cutting
    it again changes nothing. *)
Theorem trimSilence_spec (pcm : bytes) :
  let frames := (length pcm / frameBytes)%nat in
  match first_loud pcm (seq 0 frames) with
  | None => quiet pcm 0 frames /\ trimSilence pcm = pcm
  | Some _ => exists first last, (first <= last < frames)%nat /\
      loud (frame pcm first) = true /\ loud (frame pcm last) = true /\ quiet pcm 0 first /\ quiet pcm (S last) frames /\
      trimSilence (trimSilence pcm) = trimSilence pcm /\
      pcm = take (first * frameBytes) pcm ++ trimSilence pcm ++ drop (S last * frameBytes) pcm /\
      length (trimSilence pcm) = ((S last - first) * frameBytes)%nat
  end.
Proof.
  intros frames. pose proof (first_loud_spec pcm 0 frames) as H. unfold trimSilence. fold frames.
  destruct (first_loud pcm (seq 0 frames)) as [first|]; [|done]. destruct H as (H1 & H2 & H3).
  pose proof (last_loud_spec pcm (first + 1) (frames - (first + 1))) as Hl.
  set (last := default first (first_loud pcm (rev (seq (first + 1) (frames - (first + 1)))))).
  assert (Hlast : (first <= last < frames)%nat /\ loud (frame pcm last) = true /\ quiet pcm (S last) frames).
  { subst last. destruct (first_loud pcm (rev _)) as [i|]; simpl.
    - destruct Hl as (L1 & L2 & L3). split; [lia|]. split; [done|]. intros j Hj. apply L3. lia.
    - split; [lia|]. split; [done|]. intros j Hj. apply Hl. lia. }
  clearbody last. destruct Hlast as (L1 & L2 & L3). exists first, last. do 5 (split; [done|]).
  assert (Hlen : (S last * frameBytes <= length pcm)%nat).
  { unfold frames in L1. pose proof (Nat.Div0.mul_div_le (length pcm) frameBytes). nia. }
  replace ((last + 1) * frameBytes - first * frameBytes)%nat with ((S last - first) * frameBytes)%nat by nia.
  assert (Ht : length (take ((S last - first) * frameBytes) (drop (first * frameBytes) pcm)) = ((S last - first) * frameBytes)%nat).
  { rewrite length_take, length_drop. nia. }
  split; [|split; [|done]].
  - apply (trimSilence_tight _ (last - first)); rewrite ?frame_inside by lia.
    + rewrite Ht. f_equal. lia.
    + by rewrite Nat.add_0_r.
    + by replace (first + (last - first))%nat with last by lia.
  - rewrite <- (take_drop (first * frameBytes) pcm) at 1. f_equal.
    rewrite <- (take_drop ((S last - first) * frameBytes) (drop (first * frameBytes) pcm)) at 1. f_equal. rewrite drop_drop. f_equal. nia.
Qed.

(** ** The cache *)

Record recordingRow := mkRow { rr_ID : Z; RecordingID : bytes; Transcript : bytes; StorageKey : bytes; Backend : bytes }.

Inductive getError := NotMinio | StillLoading | LoadFailed.

(** A call of [get], and one of [load]: running, its result stored, its channel
    closed. A load is known by its number, which stands for its channel. *)
Inductive getter := GLooking (key : bytes) | GWaiting (key : bytes) (load : nat) | GReturned (key : bytes) (r : bytes + getError).
Inductive loadStage := LRunning | LStored | LClosed.
Record load := mkLoad { l_key : bytes; l_stage : loadStage; l_ok : bool }.

Record cache := mkCache {
  pcm : gmap bytes bytes; inflight : gmap bytes nat; loads : list load; getters : list getter; disk : gmap bytes bytes;
}.
#[global] Instance eta_cache : Eta cache := fun c => mkCache (pcm c) (inflight c) (loads c) (getters c) (disk c).

Section cache.
(** The cached file of a key: the head of its SHA-256 in hexadecimal. *)
Variable cached : bytes -> bytes.

(** [fetch]: what the download and its conversion give, and how much of the
    file gets written, if any of it. *)
Definition fetch (key : bytes) (converted : option bytes) (written : option nat) (d : gmap bytes bytes) : option bytes * gmap bytes bytes :=
  match d !! cached key with
  | Some (x :: r) => (Some (x :: r), d)
  | _ =>
      match converted with
      | None => (None, d)
      | Some raw =>
          let p := trimSilence raw in
          (Some p, match written with Some n => <[cached key := take n p]> d | None => d end)
      end
  end.

(** The first lock of [get]. *)
Definition look (g : nat) (key : bytes) (c : cache) : cache :=
  match pcm c !! key with
  | Some p => c <| getters ::= <[g := GReturned key (inl p)]> |>
  | None =>
      match inflight c !! key with
      | Some l => c <| getters ::= <[g := GWaiting key l]> |>
      | None =>
          let l := length (loads c) in
          c <| inflight ::= <[key := l]> |> <| loads ::= fun ls => ls ++ [mkLoad key LRunning false] |>
            <| getters ::= <[g := GWaiting key l]> |>
      end
  end.

(** The second, once the channel is closed. *)
Definition woken (g : nat) (key : bytes) (c : cache) : cache :=
  c <| getters ::= <[g := match pcm c !! key with Some _ => GLooking key | None => GReturned key (inr LoadFailed) end]> |>.

(** [load]'s critical section; then it closes the channel. *)
Definition store (i : nat) (key : bytes) (converted : option bytes) (written : option nat) (c : cache) : cache :=
  let '(p, d) := fetch key converted written (disk c) in
  c <| disk := d |> <| pcm ::= fun m => match p with Some p => <[key := p]> m | None => m end |> <| inflight ::= delete key |>
    <| loads ::= <[i := mkLoad key LStored (match p with Some _ => true | None => false end)]> |>.

Inductive label :=
  | CGet (r : recordingRow) | CLook (g : nat) | CWake (g : nat) | CGiveUp (g : nat)
  | CStore (i : nat) (converted : option bytes) (written : option nat) | CClose (i : nat) | CRestart.

Definition step (c : cache) (l : label) : option cache :=
  match l with
  | CGet r => Some (c <| getters ::= fun gs => gs ++ [if decide (Backend r = bs "minio") then GLooking (StorageKey r) else GReturned (StorageKey r) (inr NotMinio)] |>)
  | CLook g => match getters c !! g with Some (GLooking k) => Some (look g k c) | _ => None end
  | CWake g => match getters c !! g with
               | Some (GWaiting k i) => match loads c !! i with Some (mkLoad _ LClosed _) => Some (woken g k c) | _ => None end
               | _ => None
               end
  | CGiveUp g => match getters c !! g with Some (GWaiting k _) => Some (c <| getters ::= <[g := GReturned k (inr StillLoading)]> |>) | _ => None end
  | CStore i x w => match loads c !! i with Some (mkLoad k LRunning _) => Some (store i k x w c) | _ => None end
  | CClose i => match loads c !! i with Some (mkLoad k LStored ok) => Some (c <| loads ::= <[i := mkLoad k LClosed ok]> |>) | _ => None end
  | CRestart => Some (mkCache ∅ ∅ [] [] (disk c))
  end.

Fixpoint run (c : cache) (ls : list label) : option cache :=
  match ls with [] => Some c | l :: r => match step c l with Some c' => run c' r | None => None end end.

Definition cache0 (d : gmap bytes bytes) : cache := mkCache ∅ ∅ [] [] d.

End cache.

(** *** Invariant: the loads running are those in flight *)

Record wf (c : cache) : Prop := {
  w_inflight : forall k i, inflight c !! k = Some i <-> exists l, loads c !! i = Some l /\ l_key l = k /\ l_stage l = LRunning;
  w_pcm : forall k, is_Some (pcm c !! k) <-> exists i l, loads c !! i = Some l /\ l_key l = k /\ l_stage l <> LRunning /\ l_ok l = true;
  w_excl : forall k, is_Some (pcm c !! k) -> inflight c !! k = None;
  w_once : forall i j l m, loads c !! i = Some l -> loads c !! j = Some m -> l_key l = l_key m -> l_ok l = true -> l_ok m = true -> i = j;
  w_wait : forall g k i, getters c !! g = Some (GWaiting k i) -> exists l, loads c !! i = Some l /\ l_key l = k;
  w_ret : forall g k p, getters c !! g = Some (GReturned k (inl p)) -> pcm c !! k = Some p;
  w_ok : forall i l, loads c !! i = Some l -> l_stage l = LRunning -> l_ok l = false;
}.

Lemma wf_cache0 d : wf (cache0 d).
Proof.
  constructor; simpl; intros *; rewrite ?lookup_empty, ?lookup_nil; try done.
  - split; [done|]. by intros (l & H & _).
  - split; [by intros [? H]|]. by intros (i & l & H & _).
Qed.

(** What [wf] says is about the maps and the loads; of the calls it asks only
    what they wait for. *)
Lemma wf_getters c c' :
  wf c -> pcm c' = pcm c -> inflight c' = inflight c -> loads c' = loads c ->
  (forall g k i, getters c' !! g = Some (GWaiting k i) -> exists l, loads c !! i = Some l /\ l_key l = k) ->
  (forall g k p, getters c' !! g = Some (GReturned k (inl p)) -> pcm c !! k = Some p) -> wf c'.
Proof. intros W Hp Hi Hl Hg Hr. destruct W. constructor; rewrite ?Hp, ?Hi, ?Hl; done. Qed.

(** What a call may come to be. *)
Definition apt (c : cache) (x : getter) : Prop :=
  match x with
  | GLooking _ => True
  | GWaiting k i => exists l, loads c !! i = Some l /\ l_key l = k
  | GReturned k (inl p) => pcm c !! k = Some p
  | GReturned _ (inr _) => True
  end.

Lemma wf_getter_set g x c : wf c -> apt c x -> wf (c <| getters ::= <[g := x]> |>).
Proof.
  intros W Hx. apply (wf_getters c); [done..| |]; intros g' k i H; simpl in H; apply list_lookup_insert_Some in H as [(_ & -> & _)|[_ H]];
    first [done|by apply (w_wait _ W g')|by apply (w_ret _ W g')].
Qed.

Lemma wf_getter_new x c : wf c -> apt c x -> wf (c <| getters ::= fun gs => gs ++ [x] |>).
Proof.
  intros W Hx. apply (wf_getters c); [done..| |]; intros g' k i H; simpl in H; apply lookup_snoc_Some in H as [[_ H]|[_ ->]];
    first [done|by apply (w_wait _ W g')|by apply (w_ret _ W g')].
Qed.

(** A load begins for a key that is neither cached nor being loaded. *)
Lemma wf_begin key c :
  wf c -> pcm c !! key = None -> inflight c !! key = None ->
  wf (c <| inflight ::= <[key := length (loads c)]> |> <| loads ::= fun ls => ls ++ [mkLoad key LRunning false] |>).
Proof.
  intros W Hp Hi. constructor; simpl.
  - intros k i. rewrite lookup_insert_Some, (w_inflight _ W). setoid_rewrite lookup_snoc_Some. split.
    + intros [[<- <-]|[_ (l & H)]]; [exists (mkLoad key LRunning false); naive_solver|]. exists l. split; [|by destruct H]. left. split; [|by destruct H]. destruct H as [H _]. by apply lookup_lt_Some in H.
    + intros (l & [[? H]|[-> <-]] & Hk & Hs); [|by left]. right. split; [|by exists l].
      intros <-. assert (inflight c !! key = Some i) by (apply (w_inflight _ W); by exists l). congruence.
  - intros k. rewrite (w_pcm _ W). setoid_rewrite lookup_snoc_Some. split.
    + intros (i & l & H & Hr). exists i, l. split; [|done]. left. split; [|done]. by apply lookup_lt_Some in H.
    + intros (i & l & [[_ H]|[_ <-]] & Hr); [by exists i, l|]. by destruct Hr as (_ & Hs & _).
  - intros k Hk. rewrite lookup_insert_ne by (intros <-; rewrite Hp in Hk; by destruct Hk). by apply (w_excl _ W).
  - intros i j l m Hi' Hj'. apply lookup_snoc_Some in Hi', Hj'. destruct Hi' as [[_ Hi']|[-> <-]]; [|done]. destruct Hj' as [[_ Hj']|[-> <-]]; [|done]. by apply (w_once _ W).
  - intros g k i H. destruct (w_wait _ W _ _ _ H) as (l & Hl & Hk). exists l. split; [|done]. rewrite lookup_app_l; [done|]. by apply lookup_lt_Some in Hl.
  - apply (w_ret _ W).
  - intros i l H Hs. apply lookup_snoc_Some in H as [[_ H]|[_ <-]]; [by apply (w_ok _ W i)|done].
Qed.

(** It ends: its result, if any, is cached, and it leaves the loads in flight
    together. *)
Lemma wf_end i key ok0 (p : option bytes) d c :
  wf c -> loads c !! i = Some (mkLoad key LRunning ok0) ->
  wf (c <| disk := d |> <| pcm ::= fun m => match p with Some p => <[key := p]> m | None => m end |> <| inflight ::= delete key |>
    <| loads ::= <[i := mkLoad key LStored (match p with Some _ => true | None => false end)]> |>).
Proof.
  intros W Hi. pose proof (lookup_lt_Some _ _ _ Hi) as Hlt.
  assert (Hin : inflight c !! key = Some i) by (apply (w_inflight _ W); by exists (mkLoad key LRunning ok0)).
  assert (Hno : pcm c !! key = None).
  { destruct (pcm c !! key) as [b|] eqn:E; [|done]. assert (is_Some (pcm c !! key)) as H by (by exists b). apply (w_excl _ W) in H. congruence. }
  assert (Hold : forall j l, loads c !! j = Some l -> l_key l = key -> l_ok l = false).
  { intros j l Hj Hk. destruct (l_stage l) eqn:Es; [by apply (w_ok _ W j)|..]; destruct (l_ok l) eqn:Eo; try done;
      (assert (is_Some (pcm c !! key)) as [? ?]; [apply (w_pcm _ W); exists j, l; by rewrite Es|congruence]). }
  constructor; simpl.
  - intros k j. rewrite lookup_delete_Some, (w_inflight _ W). setoid_rewrite list_lookup_insert_Some. split.
    + intros (Hne & l & Hj & Hk & Hs). exists l. split; [|done]. right. split; [|done]. intros <-. rewrite Hi in Hj. naive_solver.
    + intros (l & [(<- & <- & _)|[Hne Hj]] & Hk & Hs); [done|]. split; [|by exists l]. intros ->.
      assert (inflight c !! k = Some j) by (apply (w_inflight _ W); by exists l). congruence.
  - intros k. setoid_rewrite list_lookup_insert_Some. destruct (decide (k = key)) as [->|Hne].
    + destruct p as [p|].
      * rewrite lookup_insert_eq. split; [|by eexists]. intros _. exists i. eexists. split; [by left|]. done.
      * rewrite Hno. split; [by intros [? ?]|]. intros (j & l & [(<- & <- & _)|[_ Hj]] & Hk & _ & Ho); [done|]. by rewrite (Hold _ _ Hj Hk) in Ho.
    + assert ((match p with Some p => <[key := p]> (pcm c) | None => pcm c end) !! k = pcm c !! k) as -> by (destruct p; [by rewrite lookup_insert_ne|done]).
      rewrite (w_pcm _ W). split.
      * intros (j & l & Hj & Hr). exists j, l. split; [|done]. right. split; [|done]. intros <-. rewrite Hi in Hj. naive_solver.
      * intros (j & l & [(<- & <- & _)|[_ Hj]] & Hk & Hr); [by simpl in Hk|]. by exists j, l.
  - intros k Hk. destruct (decide (k = key)) as [->|Hne]; [by rewrite lookup_delete_eq|]. rewrite lookup_delete_ne by done. apply (w_excl _ W).
    destruct p; [by rewrite lookup_insert_ne in Hk|done].
  - intros j j' l m Hj Hj' Hk Hol Hom. apply list_lookup_insert_Some in Hj as [(<- & <- & _)|[_ Hj]]; apply list_lookup_insert_Some in Hj' as [(<- & <- & _)|[_ Hj']]; try done.
    + by rewrite (Hold _ _ Hj') in Hom.
    + by rewrite (Hold _ _ Hj) in Hol.
    + by apply (w_once _ W _ _ l m).
  - intros g k j H. destruct (w_wait _ W _ _ _ H) as (l & Hl & Hk). destruct (decide (j = i)) as [->|Hne].
    + rewrite Hi in Hl. injection Hl as <-. eexists. rewrite list_lookup_insert_eq by done. by split.
    + exists l. by rewrite list_lookup_insert_ne.
  - intros g k q H. apply (w_ret _ W) in H. destruct p; [|done]. rewrite lookup_insert_ne; [done|]. intros ->. congruence.
  - intros j l Hj Hs. apply list_lookup_insert_Some in Hj as [(<- & <- & _)|[_ Hj]]; [done|]. by apply (w_ok _ W j).
Qed.

Lemma wf_close i key ok c : wf c -> loads c !! i = Some (mkLoad key LStored ok) -> wf (c <| loads ::= <[i := mkLoad key LClosed ok]> |>).
Proof.
  intros W Hi. pose proof (lookup_lt_Some _ _ _ Hi) as Hlt. set (f := fun l : load => (l_key l, match l_stage l with LRunning => true | _ => false end, l_ok l)).
  assert (Hf : forall j, f <$> <[i := mkLoad key LClosed ok]> (loads c) !! j = f <$> loads c !! j).
  { intros j. destruct (decide (j = i)) as [->|Hne]; [by rewrite list_lookup_insert_eq, Hi|by rewrite list_lookup_insert_ne]. }
  assert (Hto : forall j l, loads c !! j = Some l -> exists l', <[i := mkLoad key LClosed ok]> (loads c) !! j = Some l' /\ f l' = f l).
  { intros j l Hj. specialize (Hf j). rewrite Hj in Hf. apply fmap_Some in Hf as (l' & ? & ?). by exists l'. }
  assert (Hfrom : forall j l, <[i := mkLoad key LClosed ok]> (loads c) !! j = Some l -> exists l', loads c !! j = Some l' /\ f l' = f l).
  { intros j l Hj. specialize (Hf j). rewrite Hj in Hf. symmetry in Hf. apply fmap_Some in Hf as (l' & ? & ?). by exists l'. }
  assert (Hst : forall l l', f l = f l' -> l_key l = l_key l' /\ l_ok l = l_ok l' /\ (l_stage l = LRunning <-> l_stage l' = LRunning)).
  { intros [? [] ?] [? [] ?] [= -> ->]; naive_solver. }
  constructor; simpl.
  - intros k j. rewrite (w_inflight _ W). split; intros (l & Hj & Hk & Hs); [apply Hto in Hj as (l' & Hj & E)|apply Hfrom in Hj as (l' & Hj & E)];
      exists l'; apply Hst in E; naive_solver.
  - intros k. rewrite (w_pcm _ W). split; intros (j & l & Hj & Hk & Hs); [apply Hto in Hj as (l' & Hj & E)|apply Hfrom in Hj as (l' & Hj & E)];
      exists j, l'; apply Hst in E; naive_solver.
  - apply (w_excl _ W).
  - intros j j' l m Hj Hj' Hk Hl Hm. apply Hfrom in Hj as (l' & Hj & E), Hj' as (m' & Hj' & E'). apply Hst in E as (? & ? & _), E' as (? & ? & _).
    apply (w_once _ W _ _ l' m'); congruence.
  - intros g k j H. destruct (w_wait _ W _ _ _ H) as (l & Hl & Hk). apply Hto in Hl as (l' & Hl & E). exists l'. apply Hst in E. naive_solver.
  - apply (w_ret _ W).
  - intros j l Hj Hs. apply Hfrom in Hj as (l' & Hj & E). apply Hst in E as (? & E & ?). rewrite <- E. apply (w_ok _ W j); naive_solver.
Qed.

Section runs.
Variable cached : bytes -> bytes.

Lemma cache_wf_step c lab c' : wf c -> step cached c lab = Some c' -> wf c'.
Proof.
  intros W. destruct lab as [r|g|g|g|i x w|i|]; cbn [step].
  - intros [= <-]. apply wf_getter_new; [done|]. by destruct (decide _).
  - destruct (getters c !! g) as [[k|k i|k r]|]; try done. intros [= <-]. unfold look. destruct (pcm c !! k) as [p|] eqn:Ep; [by apply wf_getter_set|].
    destruct (inflight c !! k) as [i|] eqn:Ei.
    + apply wf_getter_set; [done|]. apply (w_inflight _ W) in Ei as (l & ? & ? & _). by exists l.
    + apply wf_getter_set; [by apply wf_begin|]. eexists. simpl. rewrite lookup_app_r, Nat.sub_diag by done. by split.
  - destruct (getters c !! g) as [[k|k i|k r]|]; try done. destruct (loads c !! i) as [[k' [] o]|]; try done. intros [= <-].
    apply wf_getter_set; [done|]. by destruct (pcm c !! k).
  - destruct (getters c !! g) as [[k|k i|k r]|]; try done. intros [= <-]. by apply wf_getter_set.
  - destruct (loads c !! i) as [[k [] o]|] eqn:Ei; try done. intros [= <-]. unfold store. destruct (fetch _ _ _ _ _) as [p d]. by apply (wf_end _ _ o).
  - destruct (loads c !! i) as [[k [] o]|] eqn:Ei; try done. intros [= <-]. by apply wf_close.
  - intros [= <-]. apply wf_cache0.
Qed.

Lemma cache_wf_run c ls c' : wf c -> run cached c ls = Some c' -> wf c'.
Proof.
  revert c. induction ls as [|l ls IH]; intros c W; cbn [run]; [by intros [= <-]|].
  destruct (step _ _ _) as [c1|] eqn:E; [|done]. apply IH. by apply (cache_wf_step _ _ _ W E).
Qed.

Lemma pcm_kept c lab c' k p : wf c -> lab <> CRestart -> step cached c lab = Some c' -> pcm c !! k = Some p -> pcm c' !! k = Some p.
Proof.
  intros W Hl Hs Hp. destruct lab as [r|g|g|g|i x w|i|]; cbn [step] in Hs; try done.
  - by injection Hs as <-.
  - destruct (getters c !! g) as [[k'|k' i|k' r]|]; try done. injection Hs as <-. unfold look. destruct (pcm c !! k'), (inflight c !! k'); done.
  - destruct (getters c !! g) as [[k'|k' i|k' r]|]; try done. destruct (loads c !! i) as [[k2 [] o]|]; try done. by injection Hs as <-.
  - destruct (getters c !! g) as [[k'|k' i|k' r]|]; try done. by injection Hs as <-.
  - destruct (loads c !! i) as [[k' [] o]|] eqn:Ei; try done. injection Hs as <-. unfold store. destruct (fetch _ _ _ _ _) as [[q|] d]; simpl; [|done].
    rewrite lookup_insert_ne; [done|]. intros ->. assert (inflight c !! k = Some i) by (apply (w_inflight _ W); by exists (mkLoad k LRunning o)).
    assert (inflight c !! k = None) by (apply (w_excl _ W); by exists p). congruence.
  - destruct (loads c !! i) as [[k' [] o]|]; try done. by injection Hs as <-.
Qed.

(** *** A waiting call is served *)

(** What a call for a key gets once the load it waits for is over. *)
Definition answer (c : cache) (k : bytes) : bytes + getError := match pcm c !! k with Some p => inl p | None => inr LoadFailed end.

Lemma wake_served c g k i o :
  getters c !! g = Some (GWaiting k i) -> loads c !! i = Some (mkLoad k LClosed o) ->
  exists ls c', run cached c ls = Some c' /\ (length ls <= 2)%nat /\ getters c' !! g = Some (GReturned k (answer c k)).
Proof.
  intros Hg Hi. pose proof (lookup_lt_Some _ _ _ Hg) as Hlt. unfold answer. destruct (pcm c !! k) as [p|] eqn:Ep.
  - exists [CWake g; CLook g]. eexists. cbn [run step]. rewrite Hg, Hi. unfold woken. rewrite Ep. simpl. rewrite list_lookup_insert_eq by done.
    split; [done|]. split; [lia|]. unfold look. simpl. rewrite Ep. simpl. rewrite list_lookup_insert_eq; [done|]. by rewrite length_insert.
  - exists [CWake g]. eexists. cbn [run step]. rewrite Hg, Hi. unfold woken. rewrite Ep. simpl. split; [done|]. split; [lia|].
    simpl. by rewrite list_lookup_insert_eq.
Qed.

Lemma close_served c g k i o :
  getters c !! g = Some (GWaiting k i) -> loads c !! i = Some (mkLoad k LStored o) ->
  exists ls c', run cached c ls = Some c' /\ (length ls <= 3)%nat /\ getters c' !! g = Some (GReturned k (answer c k)).
Proof.
  intros Hg Hi. destruct (wake_served (c <| loads ::= <[i := mkLoad k LClosed o]> |>) g k i o) as (ls & c' & Hr & Hl & Hc); [done| |].
  - simpl. rewrite list_lookup_insert_eq; [done|]. by apply lookup_lt_Some in Hi.
  - exists (CClose i :: ls), c'. cbn [run step length]. rewrite Hi. split; [done|]. split; [lia|done].
Qed.

Lemma store_served c g k i o x w :
  wf c -> getters c !! g = Some (GWaiting k i) -> loads c !! i = Some (mkLoad k LRunning o) ->
  exists ls c', run cached c ls = Some c' /\ (length ls <= 4)%nat /\
    getters c' !! g = Some (GReturned k (match (fetch cached k x w (disk c)).1 with Some p => inl p | None => inr LoadFailed end)).
Proof.
  intros W Hg Hi. destruct (close_served (store cached i k x w c) g k i (bool_decide (is_Some (fetch cached k x w (disk c)).1))) as (ls & c' & Hr & Hl & Hc).
  - unfold store. by destruct (fetch _ _ _ _ _).
  - unfold store. destruct (fetch _ _ _ _ _) as [[p|] d]; simpl; (rewrite list_lookup_insert_eq; [done|]); by apply lookup_lt_Some in Hi.
  - exists (CStore i x w :: ls), c'. cbn [run step length]. rewrite Hi. split; [done|]. split; [lia|]. rewrite Hc. unfold answer, store.
    assert (Hn : pcm c !! k = None).
    { destruct (pcm c !! k) as [b|] eqn:E; [|done]. assert (inflight c !! k = Some i) by (apply (w_inflight _ W); by exists (mkLoad k LRunning o)).
      assert (inflight c !! k = None) by (apply (w_excl _ W); by exists b). congruence. }
    destruct (fetch _ _ _ _ _) as [[p|] d]; simpl; [by rewrite lookup_insert_eq|by rewrite Hn].
Qed.

(** C29: in every run of the cache, however many calls ask: a recording has one
    load running at most, and one that succeeded since the start of the
    process; what is cached of it never changes, so every call it was returned
    to has the same audio; and a waiting call is at most four steps from being
    answered: by what the running load fetches, or by the cache once the load
    is over. *)
Theorem one_load (d : gmap bytes bytes) (ls : list label) (c : cache) :
  run cached (cache0 d) ls = Some c ->
  (forall i j l m, loads c !! i = Some l -> loads c !! j = Some m -> l_key l = l_key m ->
     (l_stage l = LRunning /\ l_stage m = LRunning) \/ (l_ok l = true /\ l_ok m = true) -> i = j) /\
  (forall lab c' k p, lab <> CRestart -> step cached c lab = Some c' -> pcm c !! k = Some p -> pcm c' !! k = Some p) /\
  (forall g h k p q, getters c !! g = Some (GReturned k (inl p)) -> getters c !! h = Some (GReturned k (inl q)) -> p = q) /\
  (forall g k i, getters c !! g = Some (GWaiting k i) -> exists l, loads c !! i = Some l /\ l_key l = k /\
     forall x w, exists ls' c', run cached c ls' = Some c' /\ (length ls' <= 4)%nat /\
       getters c' !! g = Some (GReturned k (match l_stage l with
         | LRunning => match (fetch cached k x w (disk c)).1 with Some p => inl p | None => inr LoadFailed end
         | _ => answer c k
         end))).
Proof.
  intros H. apply cache_wf_run in H as W; [|apply wf_cache0]. split; [|split; [|split]].
  - intros i j l m Hi Hj Hk [[Hl Hm]|[Hl Hm]]; [|by apply (w_once _ W _ _ l m)].
    assert (inflight c !! l_key l = Some i) by (apply (w_inflight _ W); by exists l).
    assert (inflight c !! l_key l = Some j) by (apply (w_inflight _ W); by exists m). congruence.
  - intros lab c' k p. by apply pcm_kept.
  - intros g h k p q Hg Hh. apply (w_ret _ W) in Hg, Hh. congruence.
  - intros g k i Hg. destruct (w_wait _ W _ _ _ Hg) as ([k' st o] & Hl & Hk). simpl in Hk. subst k'. exists (mkLoad k st o). do 2 (split; [done|]).
    intros x w. destruct st; simpl.
    + by apply (store_served _ _ _ i o).
    + destruct (close_served _ _ _ _ _ Hg Hl) as (ls' & c' & ? & ? & ?). exists ls', c'. split; [done|]. split; [lia|done].
    + destruct (wake_served _ _ _ _ _ Hg Hl) as (ls' & c' & ? & ? & ?). exists ls', c'. split; [done|]. split; [lia|done].
Qed.
End runs.

(** ** [loadClips] *)

Record clipSet := mkClipSet { byPK : gmap Z Clip; byID : gmap bytes Clip; HasAny : bool }.
#[global] Instance eta_clipSet : Eta clipSet := fun s => mkClipSet (byPK s) (byID s) (HasAny s).

Inductive clipWarning := RecordingsUnavailable | NoMinio | ClipUnavailable (r : recordingRow) (e : getError) | NotActive (pk : Z).

Section clips.
(** The organization's active recordings, if the query succeeds, and what
    [get] returns for each; a store without [UseStorage] has no cache. *)
Variable recordings : option (list recordingRow).
Variable get : option (recordingRow -> bytes + getError).

Definition addClip (wanted : recordingRow -> bool) (get : recordingRow -> bytes + getError) (st : clipSet * list clipWarning) (r : recordingRow) : clipSet * list clipWarning :=
  if negb (wanted r) then st else
  match get r with
  | inr e => (st.1, st.2 ++ [ClipUnavailable r e])
  | inl p => let clip := mkClip (RecordingID r) p (Transcript r) in
             (st.1 <| byPK ::= <[rr_ID r := clip]> |> <| byID ::= <[RecordingID r := clip]> |>, st.2)
  end.

(** [pks] in the order the map is walked. *)
Definition loadClips (hasOrg : bool) (pks : list Z) (allByID : bool) : clipSet * list clipWarning :=
  let set := mkClipSet ∅ ∅ false in
  if negb hasOrg || (bool_decide (pks = []) && negb allByID) then (set, []) else
  match recordings with
  | None => (set, [RecordingsUnavailable])
  | Some rows =>
      let set := set <| HasAny ::= fun _ => negb (bool_decide (rows = [])) |> in
      match get with
      | None => (set, if negb (bool_decide (pks = [])) || (allByID && HasAny set) then [NoMinio] else [])
      | Some get =>
          let '(set, warnings) := fold_left (addClip (fun r => bool_decide (rr_ID r ∈ pks) || allByID) get) rows (set, []) in
          (set, warnings ++ map NotActive (List.filter (fun pk => negb (bool_decide (pk ∈ map rr_ID rows))) pks))
      end
  end.

Definition clipOf (r : recordingRow) (p : bytes) : Clip := mkClip (RecordingID r) p (Transcript r).

(** A recording is loaded, or could not be. *)
Definition loaded (wanted : recordingRow -> bool) (f : recordingRow -> bytes + getError) (pk : Z) (clip : Clip) (r : recordingRow) : Prop :=
  rr_ID r = pk /\ wanted r = true /\ exists p, f r = inl p /\ clip = clipOf r p.
Definition failed (wanted : recordingRow -> bool) (f : recordingRow -> bytes + getError) (w : clipWarning) (r : recordingRow) : Prop :=
  wanted r = true /\ exists e, f r = inr e /\ w = ClipUnavailable r e.

Lemma Exists_snoc {A} (P : A -> Prop) l x : Exists P (l ++ [x]) <-> Exists P l \/ P x.
Proof. rewrite Exists_app, Exists_cons, Exists_nil. tauto. Qed.

Lemma addClip_fold wanted f rows :
  NoDup (map rr_ID rows) -> forall s0, byPK s0 = ∅ ->
  let '(s, ws) := fold_left (addClip wanted f) rows (s0, []) in
  HasAny s = HasAny s0 /\
  (forall pk clip, byPK s !! pk = Some clip <-> Exists (loaded wanted f pk clip) rows) /\
  (forall w, w ∈ ws <-> Exists (failed wanted f w) rows).
Proof.
  intros Hnd s0 H0. induction rows as [|r rows IH] using rev_ind.
  - simpl. split; [done|]. split; [intros pk clip; by rewrite H0, lookup_empty, Exists_nil|intros w; rewrite Exists_nil; set_solver].
  - rewrite map_app in Hnd. apply NoDup_app in Hnd as (Hnd & Hr & _). specialize (IH Hnd). rewrite fold_left_app. destruct (fold_left _ rows _) as [s ws].
    destruct IH as (Ha & IH & Iw). assert (Hfresh : forall clip, ~ Exists (loaded wanted f (rr_ID r) clip) rows).
    { intros clip (r' & Hin & Hid & _)%Exists_exists. apply (Hr (rr_ID r')); [|rewrite Hid; by left].
      apply list_elem_of_In, in_map. by apply list_elem_of_In. }
    cbn [fold_left]. unfold addClip.
    destruct (wanted r) eqn:Ew; [destruct (f r) as [p|e] eqn:Ef|]; simpl; (split; [done|]); split.
    + intros pk clip. rewrite Exists_snoc, lookup_insert_Some, IH. destruct (decide (rr_ID r = pk)) as [<-|Hne].
      * split; [|intros [H|(_ & _ & q & Hq & ->)]; [by destruct (Hfresh clip)|left; assert (q = p) as -> by congruence; done]]. intros [[_ <-]|[? _]]; [|done]. right. split; [done|]. split; [done|]. by exists p.
      * split; [intros [[? _]|[_ H]]; [done|by left]|intros [H|[? _]]; [by right|done]].
    + intros w. rewrite Exists_snoc, Iw. split; [by left|]. intros [H|(_ & e & ? & _)]; congruence.
    + intros pk clip. rewrite Exists_snoc, IH. split; [by left|]. intros [H|(_ & _ & p & ? & _)]; congruence.
    + intros w. rewrite Exists_snoc, elem_of_app, Iw, list_elem_of_singleton. f_equiv. split; [intros ->; split; [done|]; by exists e|]. intros (_ & e' & He & ->). by assert (e' = e) as -> by congruence.
    + intros pk clip. rewrite Exists_snoc, IH. split; [by left|]. intros [H|(_ & ? & _)]; congruence.
    + intros w. rewrite Exists_snoc, Iw. split; [by left|]. intros [H|(? & _)]; congruence.
Qed.

(** A workflow gets the clip of exactly the recordings it names, or of all
    of them, that are active and could be had; each of the others it asked for
    has its warning, and there is no other warning. *)
Theorem loadClips_settles rows f pks allByID :
  recordings = Some rows -> get = Some f -> NoDup (map rr_ID rows) -> (pks <> [] \/ allByID = true) ->
  let '(set, warnings) := loadClips true pks allByID in
  HasAny set = negb (bool_decide (rows = [])) /\
  (forall pk clip, byPK set !! pk = Some clip <->
     exists r p, r ∈ rows /\ rr_ID r = pk /\ (pk ∈ pks \/ allByID = true) /\ f r = inl p /\ clip = clipOf r p) /\
  (forall w, w ∈ warnings <->
     (exists r e, r ∈ rows /\ (rr_ID r ∈ pks \/ allByID = true) /\ f r = inr e /\ w = ClipUnavailable r e) \/
     (exists pk, pk ∈ pks /\ pk ∉ map rr_ID rows /\ w = NotActive pk)).
Proof.
  intros Hrows Hget Hnd Hask. unfold loadClips. rewrite Hrows, Hget.
  assert (bool_decide (pks = []) && negb allByID = false) as ->.
  { destruct Hask as [H| ->]; [by rewrite bool_decide_false|by rewrite andb_comm]. }
  cbn [negb orb]. set (wanted := fun r => bool_decide (rr_ID r ∈ pks) || allByID).
  pose proof (addClip_fold wanted f rows Hnd (mkClipSet ∅ ∅ (negb (bool_decide (rows = [])))) eq_refl) as H.
  change (_ <| HasAny ::= _ |>) with (mkClipSet ∅ ∅ (negb (bool_decide (rows = [])))). destruct (fold_left _ _ _) as [s ws]. destruct H as (Ha & Hs & Hw).
  assert (Hwant : forall r, wanted r = true <-> rr_ID r ∈ pks \/ allByID = true).
  { intros r. unfold wanted. rewrite orb_true_iff, bool_decide_eq_true. done. }
  split; [done|]. split.
  - intros pk clip. rewrite Hs, List.Exists_exists. setoid_rewrite <- list_elem_of_In. unfold loaded. setoid_rewrite Hwant. split.
    + intros (r & Hin & <- & Hq & p & Hf & ->). by exists r, p.
    + intros (r & p & Hin & <- & Hq & Hf & ->). exists r. split; [done|]. split; [done|]. split; [done|]. by exists p.
  - intros w. rewrite elem_of_app, Hw, List.Exists_exists, (list_elem_of_In (map _ _) w), in_map_iff. setoid_rewrite <- list_elem_of_In. unfold failed. setoid_rewrite Hwant. f_equiv.
    + split; [intros (r & Hin & Hq & e & Hf & ->); by exists r, e|]. intros (r & e & Hin & Hq & Hf & ->). exists r. split; [done|]. split; [done|]. by exists e.
    + setoid_rewrite list_elem_of_In at 1. setoid_rewrite filter_In. setoid_rewrite negb_true_iff. setoid_rewrite bool_decide_eq_false. setoid_rewrite <- list_elem_of_In.
      split; [intros (pk & <- & Hin & Hno); by exists pk|]. by intros (pk & Hin & Hno & ->); exists pk.
Qed.
End clips.

(** ** Examples *)

Definition kName (key : bytes) : bytes := key ++ bs ".pcm".
Definition tone : bytes := repeat 0 320 ++ repeat 1 640 ++ repeat 0 330.
Definition hello : recordingRow := mkRow 7 (bs "hello") (bs "Hello.") (bs "org/hello.wav") (bs "minio").

Example trim_ex : trimSilence tone = repeat 1 640.
Proof. vm_compute. reflexivity. Qed.

(** Two calls share a load; a third, after it, is answered at once. *)
Abbreviation shared := [CGet hello; CGet hello; CLook 0; CLook 1; CStore 0 (Some tone) (Some 640%nat); CClose 0; CWake 1; CWake 0; CLook 0; CLook 1; CGet hello; CLook 2].

Example shared_ex : (fun c => (length (loads c), getters c)) <$> run kName (cache0 ∅) shared
  = Some (1%nat, repeat (GReturned (StorageKey hello) (inl (repeat 1 640))) 3).
Proof. vm_compute. reflexivity. Qed.

(** [os.WriteFile] cut short, by a full disk or a restart, leaves a file that
    is read as the whole recording from then on. *)
Example torn_file :
  getters <$> run kName (cache0 ∅) [CGet hello; CLook 0; CStore 0 (Some tone) (Some 100%nat); CRestart; CGet hello; CLook 0; CStore 0 (Some tone) None; CClose 0; CWake 0; CLook 0]
  = Some [GReturned (StorageKey hello) (inl (repeat 1 100))].
Proof. vm_compute. reflexivity. Qed.

Example one_load_ex : exists c, run kName (cache0 ∅) shared = Some c /\ length (loads c) = 1%nat.
Proof. destruct (run kName (cache0 ∅) shared) as [c|] eqn:E; [|by vm_compute in E]. exists c. split; [done|]. vm_compute in E. by injection E as <-. Qed.

Lemma one_load_witness : exists c, run kName (cache0 ∅) shared = Some c /\
  (forall g h k p q, getters c !! g = Some (GReturned k (inl p)) -> getters c !! h = Some (GReturned k (inl q)) -> p = q).
Proof.
  destruct one_load_ex as (c & Hr & _). exists c. split; [exact Hr|].
  exact (proj1 (proj2 (proj2 (one_load kName ∅ shared c Hr)))).
Defined.

Definition getHello (r : recordingRow) : bytes + getError := if decide (rr_ID r = 7) then inl (repeat 1 640) else inr NotMinio.
Definition other : recordingRow := mkRow 8 (bs "bye") (bs "Bye.") (bs "org/bye.wav") (bs "s3").

Example hello_other_ids : NoDup (map rr_ID [hello; other]).
Proof. apply (bool_decide_unpack _). by vm_compute. Qed.

Lemma loadClips_settles_witness :
  let '(set, warnings) := loadClips (Some [hello; other]) (Some getHello) true [7; 9] true in
  HasAny set = true /\ (exists clip, byPK set !! 7 = Some clip) /\ NotActive 9 ∈ warnings /\ ClipUnavailable other NotMinio ∈ warnings.
Proof.
  pose proof (loadClips_settles (Some [hello; other]) (Some getHello) [hello; other] getHello [7; 9] true eq_refl eq_refl hello_other_ids (or_intror eq_refl)) as H.
  destruct (loadClips _ _ _ _ _) as [set warnings]. destruct H as (Ha & Hs & Hw). split; [exact Ha|]. split; [|split].
  - exists (clipOf hello (repeat 1 640)). apply Hs. exists hello, (repeat 1 640). repeat split; [by left|by right].
  - apply Hw. right. exists 9. repeat split; [right; left|]. intros H. apply list_elem_of_In in H. simpl in H. lia.
  - apply Hw. left. exists other, NotMinio. repeat split; [right; left|by right].
Defined.
