(* ===== verification/Pricing.v ===== *)
(** [internal/dograh/pricing.go] and the usage of [cost.go]: what a call used
    and what it costs. Prices and costs are [float64]s (binary64, rounding to
    nearest even); a constant expression of the source is exact and rounded
    once, a [map]'s entries are added up in any order. *)

From Stdlib Require Import String SpecFloat.
From S2P Require Import Prelude Text ClipRouter Workflow WorkflowLoad LlmClient CallLog BargeIn.

Local Open Scope Z_scope.
Import BargeIn.

(** ** Prices *)

Definition usageKeyLLM : bytes := bs "LLM|||".
Definition usageKeyQA : bytes := bs "QAAnalysis|||".
Definition usageKeyTTS : bytes := bs "SarvamTTSService|||".
Definition usageKeySTT : bytes := bs "SarvamSTTService|||".

(** A constant: the quotient of two exact numbers. *)
Definition const (n d : Z) : float64 := fdiv (of_int n) (of_int d).
Definition fsub : float64 -> float64 -> float64 := SFsub 53 1024.
Definition million : float64 := of_int 1000000.

Definition inrPerUSD : float64 := const 965 10.

Record tokenPrice := mkPrice { prompt : float64; completion : float64; cacheReadDiscount : float64 }.

(** [perM], its arguments in cents. *)
Definition perM (p c : Z) : tokenPrice := mkPrice (fdiv (const p 100) million) (fdiv (const c 100) million) (const 1 2).
Definition perK (p c d : Z) : tokenPrice := mkPrice (const p (d * 1000)) (const c (d * 1000)) (const 1 2).
Definition sarvamINR (input cached output : Z) : tokenPrice :=
  mkPrice (fdiv (fdiv (of_int input) inrPerUSD) million) (fdiv (fdiv (of_int output) inrPerUSD) million)
    (fsub (of_int 1) (fdiv (of_int cached) (of_int input))).

(** The tables, as association lists without repeated keys. *)
Abbreviation table P := (list (bytes * list (bytes * P))).
Definition row {P} (l : list (string * P)) : list (bytes * P) := map (fun x => (bs x.1, x.2)) l.

Definition llmPrices : table tokenPrice := row [
  ("openai", row [
    ("gpt-3.5-turbo", perK 15 20 10000); ("gpt-4", perK 3 6 100);
    ("gpt-4.1", perM 200 800); ("gpt-4.1-mini", perM 40 160); ("gpt-4.1-nano", perM 10 40); ("gpt-4.5-preview", perM 7500 15000);
    ("gpt-4o", perM 250 1000); ("gpt-4o-audio-preview", perM 250 1000); ("gpt-4o-realtime-preview", perM 500 2000);
    ("gpt-4o-mini", perM 15 60); ("gpt-4o-mini-audio-preview", perM 15 60); ("gpt-4o-mini-realtime-preview", perM 60 240);
    ("gpt-4o-search-preview", perM 250 1000); ("gpt-4o-mini-search-preview", perM 15 60);
    ("o1", perM 1500 6000); ("o1-pro", perM 15000 60000); ("o1-mini", perM 110 440); ("o3", perM 1000 4000); ("o3-mini", perM 110 440);
    ("o4-mini", perM 110 440); ("computer-use-preview", perM 300 1200); ("gpt-image-1", perM 500 0); ("codex-mini-latest", perM 150 600);
    ("gpt-4o-transcribe", perM 250 1000); ("gpt-4o-mini-transcribe", perM 125 500); ("gpt-4o-mini-tts", perM 60 0)]);
  ("google", row [
    ("gemini-3.5-flash", perM 150 900); ("gemini-3.1-pro", perM 200 1200); ("gemini-3.1-flash-lite", perM 25 150);
    ("gemini-2.5-flash", perM 30 250); ("gemini-2.5-flash-lite", perM 10 40); ("default", perM 25 150)]);
  ("groq", row [
    ("llama-3.3-70b-versatile", perM 59 79); ("llama-3.1-8b-instant", perM 5 8); ("openai/gpt-oss-120b", perM 15 60);
    ("openai/gpt-oss-20b", mkPrice (fdiv (const 75 1000) million) (fdiv (const 30 100) million) (const 1 2));
    ("deepseek-r1-distill-llama-70b", perM 59 79); ("default", perM 59 79)]);
  ("sarvam", row [
    ("sarvam-105b", sarvamINR 15 5 60); ("sarvam-105b-conversations", sarvamINR 15 5 60); ("gemma4", sarvamINR 35 10 90);
    ("glm5.3", sarvamINR 126 20 390); ("default", sarvamINR 15 5 60)]);
  ("azure", row [("gpt-4.1-mini", perM 44 880)])
]%string.

Definition ttsPrices : table float64 := row [
  ("openai", row [("gpt-4o-mini-tts", const 6 10000000); ("default", const 6 10000000)]);
  ("sarvam", row [("bulbul:v3", const 27 965000); ("bulbul:v4-flash", const 17 965000); ("bulbul:v2", const 150 9650000); ("default", const 27 965000)]);
  ("deepgram", row [("aura-2", const 3 100000); ("aura-1", const 15 1000000); ("default", const 3 100000)]);
  ("elevenlabs", row [("default", const 256 10000000)]);
  ("default", row [("default", const 3 100000)])
]%string.

Definition sttPrices : table float64 := row [
  ("deepgram", row [("nova-3-general", const 48 600000); ("nova-2", const 58 600000); ("default", const 48 600000)]);
  ("sarvam", row [("saaras:v3", const 300 3474000); ("saaras:v4", const 300 3474000); ("saarika:v2.5", const 300 3474000);
                  ("saaras:v2.5", const 300 3474000); ("default", const 300 3474000)]);
  ("openai", row [("gpt-4o-transcribe", const 15 60000); ("default", const 15 60000)]);
  ("default", row [("default", const 77 600000)])
]%string.

Inductive service := SLLM | STTS | SSTT.
Definition firstProvider (s : service) : bytes := bs (match s with SLLM | STTS => "openai" | SSTT => "deepgram" end).

Section infer.
Context `{U : Unicode}.

Definition inferProvider (model : bytes) (s : service) : bytes :=
  let m := ToLowerString model in
  let has (words : list string) := existsb (fun w => Contains m (bs w)) words in
  if bool_decide (m = []) then bs "unknown"
  else if has ["gemini"]%string then bs "google"
  else if has ["saaras"; "saarika"; "bulbul"; "sarvam"]%string then bs "sarvam"
  else if has ["groq"; "gpt-oss"; "llama"]%string then bs "groq"
  else if has ["gpt"; "whisper"; "openai"]%string then bs "openai"
  else if has ["eleven"]%string then bs "elevenlabs"
  else if has ["deepgram"; "nova"; "phonecall"; "general"]%string then bs "deepgram"
  else firstProvider s.

Definition assoc {A} (k : bytes) (l : list (bytes * A)) : option A := snd <$> List.find (fun x => bool_decide (x.1 = k)) l.

Definition try {P} (t : table P) (prov mod' : bytes) : option P := assoc prov t ≫= assoc mod'.

Definition lookupPrice {P} (t : table P) (provider model : bytes) : option P :=
  match try t provider model with
  | Some p => Some p
  | None =>
      match (match ClipRouter.Index model (bs "/") with Some i => try t provider (drop (i + 1) model) | None => None end) with
      | Some p => Some p
      | None =>
          match try t provider (bs "default") with
          | Some p => Some p
          | None => match try t (bs "default") model with Some p => Some p | None => try t (bs "default") (bs "default") end
          end
      end
  end.

(** [strings.Cut] at the first "|||". *)
Definition modelOf (key : bytes) : bytes :=
  match ClipRouter.Index key (bs "|||") with Some i => drop (i + 3) key | None => bs "unknown" end.

(** ** Usage *)

Record tokenUsage := mkTokens { t_Prompt : Z; t_Completion : Z; t_Total : Z; t_CacheRead : Z }.
Record usageInfo := mkUsageInfo { u_LLM : gmap bytes tokenUsage; u_TTS : gmap bytes Z; u_STT : gmap bytes float64; CallDurationSeconds : Z }.

Definition no_tokens : tokenUsage := mkTokens 0 0 0 0.
Definition add_tokens (t : tokenUsage) (v : Usage) : tokenUsage :=
  mkTokens (t_Prompt t + PromptTokens v) (t_Completion t + CompletionTokens v) (t_Total t + TotalTokens v) (t_CacheRead t + CachedTokens v).
Definition add_usage (usage : list (bytes * Usage)) (m : gmap bytes tokenUsage) : gmap bytes tokenUsage :=
  fold_left (fun m kv => <[kv.1 := add_tokens (default no_tokens (m !! kv.1)) kv.2]> m) usage m.

(** [Duration.Seconds]; [math.Round] and [math.Ceil] to an [int], for a value
    that fits one. *)
Definition Seconds (d : Z) : float64 := fadd (of_int (Z.quot d 1000000000)) (fdiv (of_int (Z.rem d 1000000000)) (of_int 1000000000)).
Definition Round (f : float64) : Z :=
  match f with
  | S754_finite s m e =>
      let n := if 0 <=? e then Z.pos m * 2 ^ e else (2 * Z.pos m + 2 ^ (- e)) / (2 * 2 ^ (- e)) in if s then - n else n
  | _ => 0
  end.
Definition Ceil (f : float64) : Z :=
  match f with
  | S754_finite s m e => let z := if s then Z.neg m else Z.pos m in if 0 <=? e then z * 2 ^ e else - ((- z) / 2 ^ (- e))
  | _ => 0
  end.

Definition buildUsageInfo {json} (sttModel ttsModel : bytes) (sum : CallSummary (json := json)) (extra : gmap bytes Usage) (duration : Z) : usageInfo :=
  let seconds := Round (Seconds duration) in
  let sttSeconds := if STTGated sum then Ceil (STTAudioSeconds sum) else seconds in
  mkUsageInfo (add_usage (map_to_list extra) (add_usage (map_to_list (LLMUsages sum)) ∅))
    (if 0 <? TTSCharsSent sum then {[usageKeyTTS ++ ttsModel := TTSCharsSent sum]} else ∅)
    {[usageKeySTT ++ sttModel := of_int sttSeconds]} seconds.

(** ** Costs *)

Record costBreakdown := mkCost { c_LLM : float64; c_TTS : float64; c_STT : float64; c_Total : float64 }.

(** [math.Max] with zero. *)
Definition fmax0 (f : float64) : float64 :=
  match f with S754_nan => f | S754_zero _ => S754_zero false | _ => if SFltb f (S754_zero false) then S754_zero false else f end.

Definition token_cost (t : tokenUsage) (p : tokenPrice) : float64 :=
  fmax0 (fsub (fadd (fmul (of_int (t_Prompt t)) (prompt p)) (fmul (of_int (t_Completion t)) (completion p)))
              (fmul (fmul (of_int (t_CacheRead t)) (prompt p)) (cacheReadDiscount p))).

(** The sum over one map, its entries as they come. *)
Definition sum_cost {A P} (t : table P) (s : service) (cost : A -> P -> float64) (entries : list (bytes * A)) : float64 :=
  fold_left (fun acc kv =>
    match lookupPrice t (inferProvider (modelOf kv.1) s) (modelOf kv.1) with
    | Some p => fadd acc (cost kv.2 p)
    | None => acc
    end) entries (of_int 0).

Definition calculateCost (llm : list (bytes * tokenUsage)) (tts : list (bytes * Z)) (stt : list (bytes * float64)) : costBreakdown :=
  let l := sum_cost llmPrices SLLM token_cost llm in
  let t := sum_cost ttsPrices STTS (fun n p => fmul (of_int n) p) tts in
  let s := sum_cost sttPrices SSTT (fun secs p => fmul secs p) stt in
  mkCost l t s (fadd (fadd l t) s).

(** [RecordCost]'s tokens: hundredths of a cent's worth, 1 cent a token. *)
Definition dograhTokens (c : costBreakdown) : float64 :=
  fdiv (of_int (Round (fmul (fmul (c_Total c) (of_int 100)) (of_int 100)))) (of_int 100).
End infer.

(** ** Lemmas *)

Lemma add_usage_lookup l m k :
  NoDup l.*1 ->
  add_usage l m !! k = match (list_to_map l : gmap bytes Usage) !! k with Some v => Some (add_tokens (default no_tokens (m !! k)) v) | None => m !! k end.
Proof.
  revert m. induction l as [|[k' v] l IH]; intros m; [done|cbn [fmap list_fmap fst]].
  intros [Hk Hl]%NoDup_cons. cbn [add_usage fold_left]. change (fold_left ?f l ?m') with (add_usage l m'). rewrite (IH _ Hl).
  cbn [fst snd]. destruct (decide (k' = k)) as [->|Hne].
  - rewrite (not_elem_of_list_to_map_1 _ _ Hk), list_to_map_cons, !lookup_insert_eq. done.
  - by rewrite list_to_map_cons, !lookup_insert_ne by done.
Qed.

(** What a run is billed for is what its call used and what its analysis
    used: per model, tokens add up and no key is lost or made up. *)
Theorem usage_adds_up {json} (sttModel ttsModel : bytes) (sum : CallSummary (json := json)) (extra : gmap bytes Usage) (duration : Z) (k : bytes) :
  let u := buildUsageInfo sttModel ttsModel sum extra duration in
  u_LLM u !! k =
    match LLMUsages sum !! k, extra !! k with
    | None, None => None
    | a, b => Some (add_tokens (add_tokens no_tokens (default no_usage a)) (default no_usage b))
    end.
Proof.
  intros u. unfold u, buildUsageInfo. cbn [u_LLM]. rewrite !add_usage_lookup, !list_to_map_to_list, lookup_empty by apply NoDup_fst_map_to_list.
  destruct (LLMUsages sum !! k) as [[]|], (extra !! k) as [[]|]; cbn; unfold add_tokens; cbn; rewrite ?Z.add_0_r; done.
Qed.

Lemma try_in {P} (t : table P) prov m p : try t prov m = Some p -> exists l, In (prov, l) t /\ In (m, p) l.
Proof.
  unfold try, assoc. intros (l & Hl & Hp)%bind_Some. apply fmap_Some in Hl as ([k l'] & [Hi Hb]%find_some & ->).
  apply fmap_Some in Hp as ([k' p'] & [Hi' Hb']%find_some & ->). simpl in *. case_bool_decide; [|done]. case_bool_decide; [|done]. subst. eauto.
Qed.

(** No call is priced at another provider's rates. *)
Lemma lookupPrice_own {P} (t : table P) provider model p :
  lookupPrice t provider model = Some p -> exists prov l m, In (prov, l) t /\ In (m, p) l /\ (prov = provider \/ prov = bs "default").
Proof.
  unfold lookupPrice. intros H.
  assert (Hx : exists prov m, try t prov m = Some p /\ (prov = provider \/ prov = bs "default")).
  { destruct (try t provider model) eqn:E1; [injection H as ->; eauto|].
    destruct (match ClipRouter.Index model (bs "/") with Some i => _ | None => _ end) eqn:E2.
    { injection H as ->. destruct (ClipRouter.Index model (bs "/")); [eauto|done]. }
    destruct (try t provider (bs "default")) eqn:E3; [injection H as ->; eauto|].
    destruct (try t (bs "default") model) eqn:E4; [injection H as ->; eauto|]. eauto. }
  destruct Hx as (prov & m & Ht & Hp). destruct (try_in _ _ _ _ Ht) as (l & H1 & H2). by exists prov, l, m.
Qed.

(** *** Examples *)

Example inferred : map (fun x => inferProvider (bs x.1) x.2)
  [("gemini/gemini-3.1-flash-lite", SLLM); ("sarvam/sarvam-105b-conversations", SLLM); ("bulbul:v3", STTS); ("saaras:v4", SSTT);
   ("openai/gpt-oss-120b", SLLM); ("gpt-4o", SLLM); ("", SLLM); ("mystery", SLLM); ("mystery", SSTT); ("gemma4", SLLM)]%string =
  map bs ["google"; "sarvam"; "sarvam"; "sarvam"; "groq"; "openai"; "unknown"; "openai"; "deepgram"; "openai"]%string.
Proof. by vm_compute. Qed.

(** The card's own name for a model of Sarvam's is not priced without the
    gateway's prefix. *)
Example bare_name_unpriced :
  lookupPrice llmPrices (inferProvider (bs "sarvam-v2/gemma4") SLLM) (bs "sarvam-v2/gemma4") = Some (sarvamINR 35 10 90) /\
  lookupPrice llmPrices (inferProvider (bs "gemma4") SLLM) (bs "gemma4") = None.
Proof. by vm_compute. Qed.

Example call_priced :
  let c := calculateCost [(bs "LLM|||sarvam/sarvam-105b-conversations", mkTokens 10000 1000 11000 4000); (bs "LLM|||unpriced/azure", mkTokens 5 5 10 0)]
             [(bs "SarvamTTSService|||bulbul:v3", 1000)] [(bs "SarvamSTTService|||saaras:v4", of_int 60)] in
  (Round (fmul (c_LLM c) (of_int 1000000000)), Round (fmul (c_TTS c) (of_int 1000000000)), Round (fmul (c_STT c) (of_int 1000000000))) = (1761658, 27979275, 5181347).
Proof. by vm_compute. Qed.
