(* ===== verification/Wire.v ===== *)
(** [internal/media]: the two framed media connections, Asterisk's AudioSocket
    (audiosocket.go, [audioSocketWire]) and FreeSWITCH's earshot WebSocket
    (earshot.go), and what the call pipeline relies on in both ([frameWire]). *)

From S2P Require Import Prelude Text Pcm.
Import Pcm.

Local Open Scope Z_scope.

(** How a read ended. *)
Inductive ioErr := EOF | UnexpectedEOF.
#[global] Instance ioErr_dec : EqDecision ioErr.
Proof. solve_decision. Defined.

(** [frameWire]: [wread]'s [Ok None] is "nothing that is audio"; [quiet] is
    [quietWire]; [wimage] is what one [WriteFrame] puts on the connection. *)
Class FrameWire (W : Type) := {
  wread : W -> result (option bytes) ioErr * W;
  quiet : bool;
  wimage : bytes -> bytes;
}.

(** The promise of [ReadFrame]: only whole frames. *)
Class FrameWireLaws (W : Type) `{FrameWire W} :=
  wread_size w p w' : wread w = (Ok (Some p), w') -> Z.of_nat (length p) = FrameSize.

Module AudioSocket.

Definition AudioSocketKindHangup : Z := 0.
Definition AudioSocketKindUUID : Z := 1.
Definition AudioSocketKindDTMF : Z := 3.
Definition AudioSocketKindSlin16 : Z := 18.
Definition AudioSocketKindError : Z := 255.
Definition audioSocketHeaderSize : nat := 3.
Definition audioSocketMaxPayload : Z := 65535.

Record AudioSocketFrame := mkFrame { Kind : Z; Payload : bytes }.

(** [io.ReadFull] of [n] bytes from what the peer sends before closing. *)
Definition ReadFull (s : bytes) (n : nat) : result (bytes * bytes) ioErr :=
  if (n <=? length s)%nat then Ok (take n s, drop n s)
  else match s with [] => Err EOF | _ => Err UnexpectedEOF end.

Definition ReadAudioSocketFrame (s : bytes) : result (AudioSocketFrame * bytes) ioErr :=
  match ReadFull s audioSocketHeaderSize with
  | Ok ([k; hi; lo], r) =>
      let length := 256 * hi + lo in
      if 0 <? length then
        match ReadFull r (Z.to_nat length) with
        | Ok (p, r') => Ok (mkFrame k p, r')
        | Err e => Err e
        end
      else Ok (mkFrame k [], r)
  | Ok _ => Err UnexpectedEOF
  | Err e => Err e
  end.

(** [WriteAudioSocketFrame]: the one buffer handed to [Write], or the size of
    a payload that does not fit. *)
Definition WriteAudioSocketFrame (f : AudioSocketFrame) : result bytes Z :=
  let n := Z.of_nat (length (Payload f)) in
  if audioSocketMaxPayload <? n then Err n
  else Ok ([Kind f; u16 n / 256; u16 n mod 256] ++ Payload f).

(** Every frame of a stream, and how it ends. *)
Fixpoint read_all (fuel : nat) (s : bytes) : list AudioSocketFrame * option ioErr :=
  match fuel with
  | O => ([], None)
  | S k =>
      match ReadAudioSocketFrame s with
      | Ok (f, r) => let '(l, e) := read_all k r in (f :: l, e)
      | Err e => ([], Some e)
      end
  end.

Fixpoint write_all (l : list AudioSocketFrame) : result bytes Z :=
  match l with
  | [] => Ok []
  | f :: r =>
      match WriteAudioSocketFrame f, write_all r with
      | Ok a, Ok b => Ok (a ++ b)
      | Err e, _ | _, Err e => Err e
      end
  end.

Lemma ReadFull_app a b : ReadFull (a ++ b) (length a) = Ok (a, b).
Proof.
  unfold ReadFull. rewrite length_app.
  replace (length a <=? length a + length b)%nat with true by (symmetry; apply Nat.leb_le; lia).
  by rewrite take_app_length, drop_app_length.
Qed.

Lemma ReadFull_short s n : (length s < n)%nat -> ReadFull s n = Err (if decide (s = []) then EOF else UnexpectedEOF).
Proof.
  intros Hn. unfold ReadFull. replace (n <=? length s)%nat with false by (symmetry; apply Nat.leb_gt; lia).
  by destruct s.
Qed.

Lemma write_inv f w : WriteAudioSocketFrame f = Ok w ->
  exists hi lo, w = [Kind f; hi; lo] ++ Payload f /\ 256 * hi + lo = Z.of_nat (length (Payload f)).
Proof.
  unfold WriteAudioSocketFrame, audioSocketMaxPayload. destruct (Z.ltb_spec 65535 (Z.of_nat (length (Payload f)))); [done|].
  intros [= <-]. eexists _, _. split; [done|]. unfold u16. rewrite (Z.mod_small (Z.of_nat _)) by lia.
  Z.div_mod_to_equations. lia.
Qed.

Lemma read_header k hi lo r :
  ReadFull (k :: hi :: lo :: r) audioSocketHeaderSize = Ok ([k; hi; lo], r).
Proof. reflexivity. Qed.

Lemma read_written f w r : WriteAudioSocketFrame f = Ok w -> ReadAudioSocketFrame (w ++ r) = Ok (f, r).
Proof.
  intros (hi & lo & -> & Hn)%write_inv. unfold ReadAudioSocketFrame. simpl app. rewrite read_header, Hn.
  destruct (Z.ltb_spec 0 (Z.of_nat (length (Payload f)))).
  - by rewrite Nat2Z.id, ReadFull_app; destruct f.
  - destruct f as [k p]. simpl in *. destruct p; [done|]. simpl in *. lia.
Qed.

(** A frame cut short is an error, never another frame. *)
Lemma read_cut f w p q : WriteAudioSocketFrame f = Ok w -> w = p ++ q -> q <> [] ->
  exists e, ReadAudioSocketFrame p = Err e.
Proof.
  intros (hi & lo & -> & Hn)%write_inv Hpq Hq. unfold ReadAudioSocketFrame.
  assert (Hl : (3 + length (Payload f) = length p + length q)%nat).
  { rewrite <- length_app, <- Hpq. reflexivity. }
  assert (0 < length q)%nat by (destruct q; simpl; [done|lia]).
  destruct p as [|a [|b [|c p]]]; simpl in Hpq; simplify_eq; try (eexists; reflexivity).
  rewrite read_header, Hn. simpl in Hl. destruct (Z.ltb_spec 0 (Z.of_nat (length (Payload f)))); [|lia].
  rewrite Nat2Z.id, ReadFull_short by lia. eauto.
Qed.

(** What [WriteAudioSocketFrame] writes [ReadAudioSocketFrame] reads back:
    over a connection that breaks off anywhere, the frames read are exactly
    the written ones that arrived whole, in order, with no misread one after
    them; a connection that breaks off between frames ends in a clean [EOF]. *)
Theorem frames_roundtrip (l : list AudioSocketFrame) (w p q : bytes) (fuel : nat) :
  write_all l = Ok w -> w = p ++ q -> (length l < fuel)%nat ->
  exists k e, read_all fuel p = (take k l, Some e) /\ (q = [] -> k = length l /\ e = EOF).
Proof.
  revert w p fuel. induction l as [|f l IH]; intros w p fuel Hw Hpq Hf; (destruct fuel as [|fuel]; [simpl in Hf; lia|]).
  - injection Hw as <-. destruct p; [|done]. exists 0%nat, EOF. by split.
  - simpl in Hw, Hf. destruct (WriteAudioSocketFrame f) as [a|] eqn:Ea; [|done].
    destruct (write_all l) as [b|] eqn:Eb; [|done]. injection Hw as Hw. subst w.
    destruct (decide (length a <= length p)%nat) as [Hle|Hlt].
    + assert (exists p', p = a ++ p' /\ b = p' ++ q) as (p' & -> & Hb).
      { exists (drop (length a) p).
        assert (a = take (length a) p).
        { rewrite <- (take_app_length a b), Hpq, take_app_le by done. by rewrite length_take, Nat.min_l. }
        assert (p = a ++ drop (length a) p) as Hp by (rewrite H at 1; symmetry; apply take_drop).
        split; [done|]. rewrite Hp in Hpq at 1. rewrite <- app_assoc in Hpq. by apply app_inv_head in Hpq. }
      simpl. rewrite (read_written _ _ p' Ea).
      destruct (IH b p' fuel eq_refl Hb) as (k & e & -> & Hk); [lia|].
      exists (S k), e. split; [done|]. intros Hq. destruct (Hk Hq) as [-> ->]. done.
    + assert (exists q', a = p ++ q' /\ q' <> []) as (q' & Ha & Hq').
      { exists (drop (length p) a). split.
        - rewrite <- (take_drop (length p) a) at 1. f_equal.
          rewrite <- (take_app_le a b) by lia. by rewrite Hpq, take_app_length.
        - intros H0%(f_equal length). rewrite length_drop in H0. simpl in H0. lia. }
      destruct (read_cut f a p q' Ea Ha Hq') as [e He]. simpl. rewrite He. exists 0%nat, e. split; [done|].
      intros ->. rewrite app_nil_r in Hpq. apply (f_equal length) in Hpq. rewrite length_app in Hpq. lia.
Qed.

Lemma frames_roundtrip_witness :
  exists w, write_all [mkFrame 1 [7; 8]; mkFrame 0 []] = Ok w /\
  exists k e, read_all 3 w = (take k [mkFrame 1 [7; 8]; mkFrame 0 []], Some e) /\ ([] = [] :> bytes -> k = 2%nat /\ e = EOF).
Proof.
  eexists. split; [vm_compute; reflexivity|].
  refine (frames_roundtrip [mkFrame 1 [7; 8]; mkFrame 0 []] _ _ [] 3 _ _ _).
  - vm_compute. reflexivity.
  - vm_compute. reflexivity.
  - simpl. lia.
Defined.

(** A payload over 65535 bytes is refused rather than written with a wrapped
    length. *)
Lemma oversized_refused f : 65535 < Z.of_nat (length (Payload f)) ->
  WriteAudioSocketFrame f = Err (Z.of_nat (length (Payload f))).
Proof.
  intros H. unfold WriteAudioSocketFrame, audioSocketMaxPayload.
  by replace (65535 <? Z.of_nat (length (Payload f))) with true by (symmetry; apply Z.ltb_lt; lia).
Qed.

(** [audioSocketWire] over what Asterisk sends. *)
Record audioSocketWire := mkWire { conn : bytes }.

Definition ReadFrame (w : audioSocketWire) : result (option bytes) ioErr * audioSocketWire :=
  match ReadAudioSocketFrame (conn w) with
  | Err e => (Err e, w)
  | Ok (f, r) =>
      if Kind f =? AudioSocketKindHangup then (Err EOF, mkWire r)
      else if Kind f =? AudioSocketKindSlin16 then
        if Z.of_nat (length (Payload f)) =? FrameSize then (Ok (Some (Payload f)), mkWire r)
        else (Ok None, mkWire r)
      else (Ok None, mkWire r)
  end.

Definition WriteFrame (pcm : bytes) : bytes :=
  match WriteAudioSocketFrame (mkFrame AudioSocketKindSlin16 pcm) with Ok b => b | Err _ => [] end.

#[global] Instance audioSocket_wire : FrameWire audioSocketWire := {
  wread := ReadFrame; quiet := false; wimage := WriteFrame;
}.

#[global] Instance audioSocket_laws : FrameWireLaws audioSocketWire.
Proof.
  intros w p w'. unfold wread, audioSocket_wire, ReadFrame. destruct (ReadAudioSocketFrame (conn w)) as [[f r]|e]; [|done].
  repeat case_match; intros; simplify_eq; bool_to_prop; done.
Qed.

End AudioSocket.

Module Earshot.

(** What FreeSWITCH sends: text, or a binary message in the pieces its reader
    hands out. *)
Inductive wsMsg := WText | WBin (pieces : list bytes).

(** [EarshotStats]. *)
Record stats := mkStats { Messages : Z; Bytes : Z; OddMessages : Z; TextMessages : Z; CloseCode : Z }.
#[global] Instance eta_stats : Eta stats := fun s =>
  mkStats (Messages s) (Bytes s) (OddMessages s) (TextMessages s) (CloseCode s).

(** [Earshot]: the messages to come and how the connection then ends (a close
    code, or another error); [r] and [n] are the message being read. *)
Record t := mk { ws : list wsMsg; ending : option Z; r : option (list bytes); n : Z; st : stats }.
#[global] Instance eta_t : Eta t := fun w => mk (ws w) (ending w) (r w) (n w) (st w).

Definition New (ws : list wsMsg) (ending : option Z) : t := mk ws ending None 0 (mkStats 0 0 0 0 0).

Definition endMessage (w : t) : t :=
  w <| st ::= fun s => s <| Messages ::= Z.succ |> <| Bytes := Bytes s + n w |>
                        <| OddMessages := OddMessages s + (if n w =? FrameSize then 0 else 1) |> |>
    <| r := None |>.

Definition readErr (w : t) : ioErr * t :=
  match ending w with
  | Some code => (EOF, w <| st ::= fun s => s <| CloseCode := code |> |>)
  | None => (UnexpectedEOF, w)
  end.

(** The loop of [ReadFrame], [out] being what is filled so far. *)
Fixpoint fill (fuel : nat) (out : bytes) (w : t) : result (option bytes) ioErr * t :=
  match fuel with
  | O => (Err UnexpectedEOF, w)
  | S k =>
      if Z.of_nat (length out) <? FrameSize then
        match r w with
        | None =>
            match ws w with
            | [] => let '(e, w') := readErr w in (Err e, w')
            | WText :: l => fill k out (w <| ws := l |> <| st ::= fun s => s <| TextMessages ::= Z.succ |> |>)
            | WBin ps :: l => fill k out (w <| ws := l |> <| r := Some ps |> <| n := 0 |>)
            end
        | Some [] => fill k out (endMessage w)
        | Some (p :: ps) =>
            let room := (Z.to_nat FrameSize - length out)%nat in
            let got := take room p in
            fill k (out ++ got)
              (w <| r := Some (match drop room p with [] => ps | rest => rest :: ps end) |>
                 <| n ::= Z.add (Z.of_nat (length got)) |>)
        end
      else (Ok (Some out), w)
  end.

(** The steps the loop can take before it needs more input. *)
Definition pieces_size (ps : list bytes) : nat := length ps + length (concat ps).
Fixpoint ws_size (l : list wsMsg) : nat :=
  match l with
  | [] => 0
  | WText :: l => 1 + ws_size l
  | WBin ps :: l => 2 + pieces_size ps + ws_size l
  end.
Definition size (w : t) : nat := ws_size (ws w) + match r w with Some ps => 1 + pieces_size ps | None => 0 end.

Definition ReadFrame (w : t) : result (option bytes) ioErr * t := fill (2 + size w) [] w.

(** The audio to come. *)
Fixpoint ws_audio (l : list wsMsg) : bytes :=
  match l with [] => [] | WText :: l => ws_audio l | WBin ps :: l => concat ps ++ ws_audio l end.
Definition audio (w : t) : bytes := match r w with Some ps => concat ps | None => [] end ++ ws_audio (ws w).

#[global] Instance earshot_wire : FrameWire t := { wread := ReadFrame; quiet := true; wimage pcm := pcm }.

Lemma fill_spec fuel : forall out w, (size w + 1 < fuel)%nat -> (length out <= Z.to_nat FrameSize)%nat ->
  let all := out ++ audio w in
  exists w', ending w' = ending w /\
  if decide (Z.to_nat FrameSize <= length all)%nat
  then fill fuel out w = (Ok (Some (take (Z.to_nat FrameSize) all)), w') /\ audio w' = drop (Z.to_nat FrameSize) all
  else fill fuel out w = (Err (if ending w then EOF else UnexpectedEOF), w').
Proof.
  induction fuel as [|k IH]; intros out w Hf Ho; [lia|]. cbv zeta. simpl fill.
  destruct (Z.ltb_spec (Z.of_nat (length out)) FrameSize) as [Hlt|Hge].
  - destruct (r w) as [[|p ps]|] eqn:Er.
    + destruct (IH out (endMessage w)) as (w' & He & Hw); [|done|].
      { unfold size, endMessage, field_update in *; simpl in *. rewrite Er in Hf. unfold pieces_size in Hf. simpl in Hf. lia. }
      exists w'. split; [done|]. assert (audio (endMessage w) = audio w) as <-; [|done].
      unfold audio, endMessage, field_update; simpl. by rewrite Er.
    + set (room := (Z.to_nat FrameSize - length out)%nat).
      set (w1 := w <| r := Some (match drop room p with [] => ps | rest => rest :: ps end) |>
                   <| n ::= Z.add (Z.of_nat (length (take room p))) |>).
      assert (Hroom : (0 < room)%nat) by (unfold room; lia).
      assert (Hcat : concat (match drop room p with [] => ps | rest => rest :: ps end) = drop room p ++ concat ps)
        by (by destruct (drop room p)).
      assert (Ha : (out ++ take room p) ++ audio w1 = out ++ audio w).
      { unfold audio, w1, field_update; simpl. rewrite Er, Hcat. simpl. rewrite <- !app_assoc.
        f_equal. by rewrite (app_assoc (take room p)), take_drop. }
      destruct (IH (out ++ take room p) w1) as (w' & He & Hw).
      { unfold size, w1, field_update in *; simpl in *. rewrite Er in Hf. unfold pieces_size in *.
        rewrite Hcat. simpl in Hf. rewrite !length_app in *. rewrite length_drop.
        destruct (drop room p) eqn:Ed; simpl; [lia|]. apply (f_equal length) in Ed. rewrite length_drop in Ed. simpl in Ed. lia. }
      { rewrite length_app, length_take. unfold room. lia. }
      exists w'. split; [done|]. by rewrite Ha in Hw.
    + destruct (ws w) as [|[|ps] l] eqn:Ew.
      * assert (audio w = []) as -> by (unfold audio; by rewrite Er, Ew). rewrite app_nil_r.
        unfold readErr. destruct (ending w) eqn:Ee; eexists; (split; [|rewrite decide_False by lia; reflexivity]).
        -- unfold field_update; simpl. done.
        -- done.
      * set (w1 := w <| ws := l |> <| st ::= _ |>).
        assert (audio w1 = audio w) as Ha by (unfold audio, w1, field_update; simpl; by rewrite Er, Ew).
        destruct (IH out w1) as (w' & He & Hw); [|done|].
        { unfold size, w1, field_update in *; simpl in *. rewrite Er, Ew in *. simpl in Hf. lia. }
        exists w'. split; [done|]. by rewrite Ha in Hw.
      * set (w1 := w <| ws := l |> <| r := Some ps |> <| n := 0 |>).
        assert (audio w1 = audio w) as Ha by (unfold audio, w1, field_update; simpl; by rewrite Er, Ew).
        destruct (IH out w1) as (w' & He & Hw); [|done|].
        { unfold size, w1, field_update in *; simpl in *. rewrite Er, Ew in *. simpl in Hf. lia. }
        exists w'. split; [done|]. by rewrite Ha in Hw.
  - exists w. split; [done|]. assert (length out = Z.to_nat FrameSize) as Hl by lia.
    rewrite length_app, decide_True by lia. rewrite <- Hl, take_app_length, drop_app_length. done.
Qed.

#[global] Instance earshot_laws : FrameWireLaws t.
Proof.
  intros w p w' Hr. unfold wread, earshot_wire, ReadFrame in Hr.
  destruct (fill_spec (2 + size w) [] w) as (w1 & _ & Hw); [lia|simpl; lia|]. simpl app in Hw.
  destruct (decide _) as [Hd|]; [|congruence]. destruct Hw as [Hw _]. rewrite Hw in Hr. injection Hr as <- _.
  rewrite length_take, Nat.min_l by done. done.
Qed.

(** Every frame of a connection, and how it ends. *)
Fixpoint read_all (fuel : nat) (w : t) : list bytes * option ioErr :=
  match fuel with
  | O => ([], None)
  | S k =>
      match ReadFrame w with
      | (Ok (Some p), w') => let '(l, e) := read_all k w' in (p :: l, e)
      | (Ok None, w') => read_all k w'
      | (Err e, _) => ([], Some e)
      end
  end.

(** However FreeSWITCH cuts the audio into messages and its reader into
    pieces, the frames read are the audio cut every 640 bytes; nothing is lost
    or repeated but an unfinished last frame, and the connection's end is
    reported as a hangup exactly when it was closed. *)
Theorem reframing (w : t) (fuel : nat) :
  (length (audio w) / 640 < fuel)%nat ->
  exists l, read_all fuel w = (l, Some (if ending w then EOF else UnexpectedEOF)) /\
    Forall (fun f => length f = 640%nat) l /\
    exists rest, audio w = concat l ++ rest /\ (length rest < 640)%nat.
Proof.
  revert w. induction fuel as [|k IH]; intros w Hf; [lia|]. simpl read_all. unfold ReadFrame.
  destruct (fill_spec (2 + size w) [] w) as (w1 & He & Hw); [lia|simpl; lia|]. simpl app in Hw.
  change (Z.to_nat FrameSize) with 640%nat in Hw. destruct (decide _) as [Hd|Hd].
  - destruct Hw as [-> Ha]. destruct (IH w1) as (l & -> & Hl & rest & Hr & Hlen).
    { rewrite Ha, length_drop. pose proof (Nat.div_add (length (audio w) - 640) 1 640 ltac:(done)) as H1.
      replace (length (audio w) - 640 + 1 * 640)%nat with (length (audio w)) in H1 by lia. lia. }
    exists (take 640 (audio w) :: l). rewrite He. split; [done|]. split.
    + constructor; [rewrite length_take; lia|done].
    + exists rest. split; [|done]. simpl. rewrite <- app_assoc, <- Hr, Ha. by rewrite take_drop.
  - rewrite Hw. exists []. split; [done|]. split; [constructor|]. exists (audio w). split; [done|lia].
Qed.

Lemma reframing_witness :
  exists l, read_all 2 (New [WBin [replicate 300 1; replicate 300 2]; WText; WBin [replicate 100 3]] (Some 1000)) = (l, Some EOF) /\
    Forall (fun f => length f = 640%nat) l.
Proof.
  destruct (reframing (New [WBin [replicate 300 1; replicate 300 2]; WText; WBin [replicate 100 3]] (Some 1000)) 2) as (l & H1 & H2 & _).
  - vm_compute. lia.
  - exists l. split; assumption.
Defined.

End Earshot.
