(* ===== verification/FramedCall.v ===== *)
(** [internal/media]: the handler contract (handler.go) and the media pipeline
    of a framed connection (audiosocket_call.go, watchdog.go), over any
    [FrameWire] and any [Handler]. *)

From S2P Require Import Prelude Text Pcm Wire.
Import Pcm.

Local Open Scope Z_scope.
Local Open Scope m_scope.

(** [Handler]: one frame in, frames out, with a state of its own. *)
Class Handler (H : Type) := ProcessFrame : H -> bytes -> list bytes * H.

#[global] Instance LoopbackHandler : Handler unit := fun h pcm => ([pcm], h).
#[global] Instance SilentHandler : Handler bool := fun h _ => ([], h).

Definition silence : bytes := replicate (Z.to_nat FrameSize) 0.
Definition queueCap : nat := 5.

(** ** watchdog.go *)

Module Watchdog.

(** Times in nanoseconds; [dead] is the closed [deadCh]. *)
Record t := mk { timeout : Z; deadTimeout : Z; lastPkt : Z; dead : bool }.
#[global] Instance eta_t : Eta t := fun w => mk (timeout w) (deadTimeout w) (lastPkt w) (dead w).

Definition NewWatchdog (timeout deadTimeout now : Z) : t := mk timeout deadTimeout now false.
Definition Touch (now : Z) (w : t) : t := w <| lastPkt := now |>.

(** One tick of [Run]: whether it warns, whether it closes [Dead]. *)
Definition tick (now : Z) (w : t) : (bool * bool) * t :=
  let since := now - lastPkt w in
  let kill := (0 <? deadTimeout w) && (deadTimeout w <=? since) in
  ((timeout w <=? since, kill && negb (dead w)), if kill then w <| dead := true |> else w).

Inductive op := OTouch (now : Z) | OTick (now : Z).
Definition step (w : t) (o : op) : bool * t :=
  match o with OTouch now => (false, Touch now w) | OTick now => ((tick now w).1.2, (tick now w).2) end.
Fixpoint run (w : t) (l : list op) : list bool * t :=
  match l with [] => ([], w) | o :: r => let '(b, w1) := step w o in let '(bs, w2) := run w1 r in (b :: bs, w2) end.

Lemma run_stays l : forall w, dead w = true -> dead (run w l).2 = true.
Proof.
  induction l as [|o l IH]; intros w Hw; simpl; [done|].
  destruct (step w o) as [b w1] eqn:E. specialize (IH w1). destruct (run w1 l). simpl in *. apply IH.
  destruct o; unfold step, Touch, tick in E; injection E as <- <-; [done|]. by destruct (_ && _).
Qed.

Lemma run_closes l : forall w, length (List.filter (fun b => b) (run w l).1) =
  if dead w then 0%nat else if dead (run w l).2 then 1%nat else 0%nat.
Proof.
  induction l as [|o l IH]; intros w; simpl; [by destruct (dead w)|].
  destruct (step w o) as [b w1] eqn:E. specialize (IH w1). pose proof (run_stays l w1) as Hs.
  destruct (run w1 l) as [bs w2] eqn:E2. simpl in *.
  destruct o as [now|now]; unfold step, Touch, tick in E; simpl in E; injection E as <- <-; [exact IH|].
  destruct (_ && _); simpl in *; [|exact IH].
  rewrite (Hs eq_refl). destruct (dead w); simpl; rewrite IH; done.
Qed.

(** [Dead]'s channel is closed at most once, and never when no dead-call
    threshold is configured; it closes at the first poll that finds the audio
    silent for that long. *)
Theorem dead_once (w : t) (l : list op) (now : Z) :
  dead w = false ->
  (length (List.filter (fun b => b) (run w l).1) <= 1)%nat /\
  (deadTimeout w <= 0 -> dead (run w l).2 = false) /\
  ((tick now w).1.2 = true <-> 0 < deadTimeout w /\ deadTimeout w <= now - lastPkt w).
Proof.
  intros Hw. split_and!.
  - rewrite run_closes, Hw. destruct (dead (run w l).2); lia.
  - revert w Hw. induction l as [|o l IH]; intros w Hw Hd; simpl; [done|].
    destruct (step w o) as [b w1] eqn:E. assert (dead w1 = false /\ deadTimeout w1 = deadTimeout w) as [H1 H2].
    { destruct o; unfold step, Touch, tick in E; injection E as <- <-; [done|].
      by replace (0 <? deadTimeout w) with false by (symmetry; apply Z.ltb_ge; lia). }
    specialize (IH w1 H1). rewrite H2 in IH. destruct (run w1 l). apply IH, Hd.
  - unfold tick; simpl. rewrite Hw, andb_true_r, andb_true_iff, Z.ltb_lt, Z.leb_le. done.
Qed.

Lemma dead_once_witness :
  dead (NewWatchdog 5 30 0) = false /\
  (tick 40 (NewWatchdog 5 30 0)).1.2 = true.
Proof.
  split; [reflexivity|]. apply (proj2 (proj2 (dead_once (NewWatchdog 5 30 0) [] 40 eq_refl))). vm_compute. done.
Defined.

End Watchdog.

(** ** audiosocket_call.go *)

Module FramedCall.

Section pipeline.
Context {W H : Type} `{HW : FrameWire W} `{HH : Handler H}.

Record t := mk {
  wire : W; readDone : option ioErr; inbound : list bytes; outbound : list bytes;
  dead : bool; hst : H;
}.
#[global] Instance eta_t : Eta t := fun c =>
  mk (wire c) (readDone c) (inbound c) (outbound c) (dead c) (hst c).

Definition newFramedCallMedia (w : W) (h : H) : t := mk w None [] [] false h.

(** The sink's and recorder's view of a call. *)
Inductive ev :=
  | PacketIn (p : bytes) | Queued (p : bytes) | InDropped (p : bytes)
  | Handled (p : bytes) (real : bool)
  | OutQueued (p : bytes) | QueueDropped (p : bytes)
  | WriteOut (p : bytes) (real : bool) | PacketOut (image : bytes) | SendError | SilenceSent
  | Close.

Definition act (A : Type) : Type := M t ev A.
Definition upd (f : t -> t) : act unit := mmod f.
Definition emit (e : ev) : act unit := memit e.

(** One turn of [readLoop]; a full inbound queue drops the frame. *)
Definition readLoop : act unit :=
  let! c := mread in
  match readDone c with
  | Some _ => mret tt
  | None =>
      match wread (wire c) with
      | (Err e, w) => upd (fun c => c <| wire := w |> <| readDone := Some e |>)
      | (Ok None, w) => upd (fun c => c <| wire := w |>)
      | (Ok (Some p), w) =>
          upd (fun c => c <| wire := w |>) ;;
          emit (PacketIn p) ;;
          if (length (inbound c) <? queueCap)%nat
          then upd (fun c => c <| inbound := inbound c ++ [p] |>) ;; emit (Queued p)
          else emit (InDropped p)
      end
  end.

(** The handler's frames, queued in order; a full queue drops. *)
Fixpoint queue_out (l : list bytes) : act unit :=
  match l with
  | [] => mret tt
  | p :: r =>
      let! c := mread in
      (if (length (outbound c) <? queueCap)%nat
       then upd (fun c => c <| outbound := outbound c ++ [p] |>) ;; emit (OutQueued p)
       else emit (QueueDropped p)) ;;
      queue_out r
  end.

(** One release tick. *)
Definition releaseLoop : act unit :=
  let! c := mread in
  (match inbound c with
   | p :: r => upd (fun c => c <| inbound := r |>) ;; emit (Handled p true)
   | [] => emit (Handled silence false)
   end) ;;
  let '(out, h) := ProcessFrame (hst c) (match inbound c with p :: _ => p | [] => silence end) in
  upd (fun c => c <| hst := h |>) ;;
  queue_out out.

(** One write tick; [ok]: whether the write went through. *)
Definition writeLoop (ok : bool) : act unit :=
  let! c := mread in
  if dead c then mret tt
  else
    let real := match outbound c with [] => false | _ => true end in
    let p := match outbound c with [] => silence | p :: _ => p end in
    upd (fun c => c <| outbound := tail (outbound c) |>) ;;
    emit (WriteOut p real) ;;
    if negb real && quiet (W := W) then mret tt
    else if ok then
      emit (PacketOut (wimage (W := W) p)) ;; mwhen (negb real) (emit SilenceSent)
    else
      emit SendError ;; upd (fun c => c <| dead := true |>) ;; emit Close.

Inductive op := ORead | ORelease | OWrite (ok : bool).
Definition step (o : op) : act unit :=
  match o with ORead => readLoop | ORelease => releaseLoop | OWrite ok => writeLoop ok end.
Fixpoint run (l : list op) : act unit :=
  match l with [] => mret tt | o :: r => step o ;; run r end.

(** *** The queues are FIFOs of at most [queueCap] frames *)

Definition queued_in (w : list ev) : list bytes := omap (fun e => match e with Queued p => Some p | _ => None end) w.
Definition handled (w : list ev) : list bytes := omap (fun e => match e with Handled p true => Some p | _ => None end) w.
Definition queued_out (w : list ev) : list bytes := omap (fun e => match e with OutQueued p => Some p | _ => None end) w.
Definition written (w : list ev) : list bytes := omap (fun e => match e with WriteOut p true => Some p | _ => None end) w.

Definition fifo (c : t) (w : list ev) (c' : t) : Prop :=
  inbound c ++ queued_in w = handled w ++ inbound c' /\
  outbound c ++ queued_out w = written w ++ outbound c' /\
  ((length (inbound c) <= queueCap)%nat -> (length (inbound c') <= queueCap)%nat) /\
  ((length (outbound c) <= queueCap)%nat -> (length (outbound c') <= queueCap)%nat).

#[global] Instance fifo_rel : StepRel fifo.
Proof.
  split; unfold fifo.
  - intros c. simpl. by rewrite !app_nil_r.
  - intros c1 w1 c2 w2 c3 (A1&B1&C1&D1) (A2&B2&C2&D2). unfold queued_in, handled, queued_out, written in *.
    rewrite !omap_app. split_and!; [| |auto..].
    + by rewrite app_assoc, A1, <- app_assoc, A2, app_assoc.
    + by rewrite app_assoc, B1, <- app_assoc, B2, app_assoc.
Qed.

Lemma fifo_same c w c' : inbound c' = inbound c -> outbound c' = outbound c ->
  queued_in w = [] -> handled w = [] -> queued_out w = [] -> written w = [] -> fifo c w c'.
Proof. intros H1 H2 H3 H4 H5 H6. unfold fifo. by rewrite H1, H2, H3, H4, H5, H6, !app_nil_r. Qed.

Ltac same := idtac; apply fifo_same; reflexivity.

Lemma readLoop_fifo : does fifo readLoop.
Proof.
  unfold readLoop, upd, emit. intros c. apply does_at_read. cbv beta.
  destruct (readDone c); [does_auto same|]. destruct (wread (wire c)) as [[[p|]|e] w]; [|does_auto same..].
  apply does_at_mod_seq; [apply _|same|cbv beta]. apply does_at_emit_seq; [apply _|same|cbv beta].
  destruct (Nat.ltb_spec (length (inbound c)) queueCap); [|does_auto same].
  unfold does_at. run_out. unfold fifo, field_update; simpl. rewrite !app_nil_r, length_app. simpl.
  split_and!; [done|done|lia|done].
Qed.
Local Hint Resolve readLoop_fifo : does.

Lemma queue_out_fifo l : does fifo (queue_out l).
Proof.
  induction l as [|p l IH]; simpl; [does_auto same|]. intros c. apply does_at_read. cbv beta. unfold upd, emit.
  apply does_at_seq; [apply _| |apply IH].
  destruct (Nat.ltb_spec (length (outbound c)) queueCap); [|does_auto same].
  unfold does_at. run_out. unfold fifo, field_update; simpl. rewrite !app_nil_r, length_app. simpl.
  split_and!; [done|done|done|lia].
Qed.
Local Hint Resolve queue_out_fifo : does.

Lemma releaseLoop_fifo : does fifo releaseLoop.
Proof.
  intros c. unfold releaseLoop. apply does_at_read. cbv beta. apply does_at_seq; [apply _| |].
  - unfold upd, emit. destruct (inbound c) as [|p r] eqn:E; [does_auto same|].
    unfold does_at. run_out. unfold fifo, field_update; simpl. rewrite !app_nil_r, E. simpl.
    split_and!; [done|done|lia|done].
  - set (c1 := mstate _ c). clearbody c1. destruct (ProcessFrame _ _) as [out h]. unfold upd.
    apply does_at_mod_seq; [apply _|same|cbv beta]. apply queue_out_fifo.
Qed.
Local Hint Resolve releaseLoop_fifo : does.

Lemma writeLoop_fifo ok : does fifo (writeLoop ok).
Proof.
  intros c. unfold writeLoop. apply does_at_read. cbv beta zeta. destruct (dead c); [does_auto same|].
  unfold upd, emit. set (rest := if _ && _ then _ else _).
  assert (does fifo rest) as Hr by (unfold rest, upd, emit; does_auto same). clearbody rest.
  assert (fifo c [WriteOut match outbound c with [] => silence | p :: _ => p end
     match outbound c with [] => false | _ => true end] (c <| outbound := tail (outbound c) |>)) as Hf.
  { unfold fifo, field_update; simpl. destruct (outbound c); simpl; rewrite ?app_nil_r; split_and!; simpl; auto; lia. }
  unfold does_at. rewrite mout_seq, mstate_seq, mout_mod, mstate_mod, mout_seq, mstate_seq, mout_emit, mstate_emit, app_nil_l.
  eapply (step_app (R := fifo)); [exact Hf|]. apply Hr.
Qed.
Local Hint Resolve writeLoop_fifo : does.

Lemma step_fifo o : does fifo (step o).
Proof. destruct o; simpl; auto with does. Qed.
Local Hint Resolve step_fifo : does.

Lemma run_fifo l : does fifo (run l).
Proof. induction l; simpl; does_auto same. Qed.

(** *** Nothing after a failed write *)

Definition mute (c : t) (w : list ev) (c' : t) : Prop :=
  (dead c = true -> dead c' = true /\ Forall (fun e => match e with PacketOut _ | WriteOut _ _ | Close => False | _ => True end) w) /\
  (dead c = false -> dead c' = false -> SendError ∉ w /\ Close ∉ w).

#[global] Instance mute_rel : StepRel mute.
Proof.
  split; unfold mute.
  - intros c. split; [by intros Hd|]. intros _ _. split; apply not_elem_of_nil.
  - intros c1 w1 c2 w2 c3 (A1&B1) (A2&B2). split.
    + intros Hd. destruct (A1 Hd) as [Hd2 F1]. destruct (A2 Hd2) as [Hd3 F2]. split; [done|]. by apply Forall_app_2.
    + intros Hd Hd3. destruct (dead c2) eqn:E2; [destruct (A2 eq_refl); congruence|].
      destruct (B1 Hd eq_refl), (B2 eq_refl Hd3). rewrite !not_elem_of_app. done.
Qed.

Ltac muted := idtac; unfold mute, field_update; simpl; split;
  [intros ?; split; [done|repeat constructor]|intros _ _; split; set_solver].
Ltac mutes := unfold upd, emit; does_auto muted.

Lemma queue_out_mute l : does mute (queue_out l).
Proof. induction l; simpl; mutes. Qed.
Local Hint Resolve queue_out_mute : does.

Lemma step_mute o : does mute (step o).
Proof.
  destruct o; simpl; [unfold readLoop; mutes|unfold releaseLoop; mutes|].
  intros c. unfold writeLoop. apply does_at_read. cbv beta zeta. destruct (dead c) eqn:Ed; [mutes|].
  unfold does_at, upd, emit, mute. rewrite Ed. split; [done|]. intros _.
  destruct (negb _ && _).
  - run_out. intros _. split; set_solver.
  - destruct ok; [|run_out; unfold field_update; simpl; done].
    destruct (outbound c); unfold mwhen; simpl negb; cbv iota; run_out; intros _; split; set_solver.
Qed.
Local Hint Resolve step_mute : does.

Lemma run_mute l : does mute (run l).
Proof. induction l; simpl; mutes. Qed.

(** *** The handler's contract: whole frames only *)

Definition whole (p : bytes) : Prop := Z.of_nat (length p) = FrameSize.

Definition whole_in (c : t) (w : list ev) (c' : t) : Prop :=
  Forall whole (inbound c) -> Forall whole (inbound c') /\
    Forall (fun e => match e with Handled p _ => whole p | _ => True end) w.

#[global] Instance whole_in_rel : StepRel whole_in.
Proof.
  split; unfold whole_in.
  - intros c Hc. by split.
  - intros c1 w1 c2 w2 c3 R1 R2 Hc. destruct (R1 Hc) as [Hc2 F1]. destruct (R2 Hc2) as [Hc3 F2].
    split; [done|]. by apply Forall_app_2.
Qed.

Ltac whole_same := idtac; unfold whole_in, field_update; simpl; intros ?; split; [done|repeat constructor].

Lemma queue_out_whole l : does whole_in (queue_out l).
Proof. induction l; simpl; unfold upd, emit; does_auto whole_same. Qed.
Local Hint Resolve queue_out_whole : does.

Lemma step_whole `{HL : !FrameWireLaws W} o : does whole_in (step o).
Proof.
  destruct o; simpl; intros c.
  - unfold readLoop. apply does_at_read. cbv beta. unfold upd, emit. destruct (readDone c); [does_auto whole_same|].
    destruct (wread (wire c)) as [[[p|]|e] w] eqn:Er; [|does_auto whole_same..].
    apply wread_size in Er. apply does_at_mod_seq; [apply _|whole_same|cbv beta].
    apply does_at_emit_seq; [apply _|whole_same|cbv beta]. destruct (_ <? _)%nat; [|does_auto whole_same].
    unfold does_at. run_out. unfold whole_in, field_update; simpl. intros Hc.
    split; [by apply Forall_app_2; repeat constructor|repeat constructor].
  - unfold releaseLoop. apply does_at_read. cbv beta. apply does_at_seq; [apply _| |].
    + unfold upd, emit. destruct (inbound c) as [|p r] eqn:E; [does_auto whole_same|].
      unfold does_at. run_out. unfold whole_in, field_update; simpl. rewrite E. intros [Hp Hr]%Forall_cons.
      split; [done|]. by repeat constructor.
    + set (c1 := mstate _ c). clearbody c1. destruct (ProcessFrame _ _). unfold upd. does_auto whole_same.
  - unfold writeLoop, upd, emit. does_auto whole_same.
Qed.
Local Hint Resolve step_whole : does.

Lemma run_whole `{HL : !FrameWireLaws W} l : does whole_in (run l).
Proof. induction l; simpl; does_auto whole_same. Qed.

(** The caller's frames reach the agent in the order they arrived and the
    agent's frames reach the line in the order it produced them, each at most
    once: whatever the timing, what was taken from either five-frame queue
    followed by what is still in it is what was put in. The agent only ever
    gets whole 640-byte frames. After the first failed
    write nothing more is written, and the connection is closed once. *)
Theorem pipeline_fifo `{HL : !FrameWireLaws W} (w0 : W) (h0 : H) (l : list op) :
  let m := run l in
  let c0 := newFramedCallMedia w0 h0 in
  queued_in (mout m c0) = handled (mout m c0) ++ inbound (mstate m c0) /\
  queued_out (mout m c0) = written (mout m c0) ++ outbound (mstate m c0) /\
  Forall (fun e => match e with Handled p _ => length p = 640%nat | _ => True end) (mout m c0) /\
  (length (inbound (mstate m c0)) <= 5)%nat /\ (length (outbound (mstate m c0)) <= 5)%nat /\
  (forall l', dead (mstate m c0) = true ->
     Forall (fun e => match e with PacketOut _ | WriteOut _ _ | Close => False | _ => True end)
       (mout (run l') (mstate m c0))).
Proof.
  cbv zeta. destruct (run_fifo l (newFramedCallMedia w0 h0)) as (A&B&C&D). simpl in A, B, C, D.
  split_and!; [exact A|exact B| |apply C; unfold queueCap; lia|apply D; unfold queueCap; lia|].
  - destruct (run_whole l (newFramedCallMedia w0 h0)) as [_ F]; [constructor|].
    eapply Forall_impl; [exact F|]. intros []; unfold whole, FrameSize; simpl; auto. lia.
  - intros l' Hd. by apply (run_mute l' _).
Qed.

End pipeline.

(** An AudioSocket connection with the loopback handler: one frame is echoed,
    then a write fails. *)
Definition frame1 : bytes := replicate 640 1.
Definition echo : list op := [ORead; ORelease; OWrite true; OWrite false].
Definition conn1 : AudioSocket.audioSocketWire := AudioSocket.mkWire (AudioSocket.WriteFrame frame1).

Lemma pipeline_fifo_witness :
  handled (mout (run echo) (newFramedCallMedia conn1 tt)) = [frame1] /\
  Forall (fun e => match e with PacketOut _ | WriteOut _ _ | Close => False | _ => True end)
    (mout (run (W := AudioSocket.audioSocketWire) [OWrite true]) (mstate (run echo) (newFramedCallMedia conn1 tt))).
Proof.
  split; [vm_compute; reflexivity|].
  apply (proj2 (proj2 (proj2 (proj2 (proj2 (pipeline_fifo conn1 tt echo)))))). vm_compute. reflexivity.
Defined.

End FramedCall.
