(* ===== verification/Rtp.v ===== *)
(** [internal/media]: RTP calls. rtp.go's sequence tracking, packet building and
    remote locking, and loopback.go's [CallMedia], which drives the jitter
    buffer, the handler and the sender. Parsing the packet header is pion's
    [Unmarshal], a parameter. *)

From S2P Require Import Prelude Text Pcm JitterBuffer FramedCall.
Import Pcm.

Local Open Scope Z_scope.
Local Open Scope m_scope.

Module Rtp.

Definition SamplesPerFrame : Z := SampleRate * 20 / 1000.
Definition DefaultPayloadType : Z := 118.
Definition rtcpPTLow : Z := 200.
Definition rtcpPTHigh : Z := 204.

Definition IsRTCP (buf : bytes) : bool :=
  match buf with _ :: pt :: _ => (rtcpPTLow <=? pt) && (pt <=? rtcpPTHigh) | _ => false end.

(** [rtp.Packet], as far as the program uses it. *)
Record Packet := mkPacket {
  Version : Z; Marker : bool; PayloadType : Z; SequenceNumber : Z; Timestamp : Z; SSRC : Z; Payload : bytes;
}.

(** ** [SeqTracker] *)

Record SeqTracker := mkSeq { have : bool; last : Z }.
Definition Observe (q : Z) (t : SeqTracker) : bool * SeqTracker :=
  if negb (have t) then (false, mkSeq true q)
  else (negb (q =? u16 (last t + 1)), mkSeq true q).

(** ** [Sender] *)

Record Sender := mkSender { ssrc : Z; seq : Z; ts : Z; pt : Z; first : bool }.
#[global] Instance eta_Sender : Eta Sender := fun s => mkSender (ssrc s) (seq s) (ts s) (pt s) (first s).

(** [NewSender], its three random draws given. *)
Definition NewSender (ssrc0 seq0 ts0 : Z) : Sender := mkSender ssrc0 (u16 seq0) ts0 DefaultPayloadType true.
Definition SetPayloadType (p : Z) (s : Sender) : Sender := s <| pt := p |>.
Definition Build (payload : bytes) (s : Sender) : Packet * Sender :=
  (mkPacket 2 (first s) (u8 (pt s)) (seq s) (ts s) (ssrc s) payload,
   s <| first := false |> <| seq := u16 (seq s + 1) |> <| ts := u32 (ts s + SamplesPerFrame) |>).

Section call.
Context {H : Type} `{HH : Handler H}.
(** pion's parser, the configured byte orders. *)
Variable Unmarshal : bytes -> option Packet.
Variables fromWire toWire : Endianness.
#[local] Set Default Proof Using "All".

Definition ParseRTP (buf : bytes) : option Packet :=
  match Unmarshal buf with
  | Some p => if Version p =? 2 then Some p else None
  | None => None
  end.

(** [CallMedia]; a remote address is a number. *)
Record t := mk {
  remote : option Z; jb : JB.t bytes; seqs : SeqTracker; sender : Sender;
  outbound : list bytes; hst : H;
}.
#[global] Instance eta_t : Eta t := fun c =>
  mk (remote c) (jb c) (seqs c) (sender c) (outbound c) (hst c).

Definition NewCallMedia (packets : Z) (s : Sender) (h : H) : t :=
  mk None (JB.NewJitterBuffer packets) (mkSeq false 0) s [] h.

Inductive ev :=
  | Jb (e : JB.ev bytes)
  | Malformed | PayloadSizeMismatch | Locked (addr : Z) | PacketIn (n : Z) | SeqGap
  | Handled (p : bytes) | QueueDropped (p : bytes)
  | WriteOut (p : bytes) | Built (p : Packet) | Sent (addr : Z) (p : Packet) | SendError | SilenceSent.

Definition act (A : Type) : Type := M t ev A.
Definition upd (f : t -> t) : act unit := mmod f.
Definition emit (e : ev) : act unit := memit e.

(** A call into the jitter buffer. *)
Definition onJb {A} (m : @JB.act bytes A) : act A :=
  fun c => (mval m (jb c), c <| jb := mstate m (jb c) |>, map Jb (mout m (jb c))).

(** [LockRemote]. *)
Definition LockRemote (addr : Z) : act unit :=
  let! c := mread in
  match remote c with
  | None => upd (fun c => c <| remote := Some addr |>) ;; emit (Locked addr)
  | Some _ => mret tt
  end.

(** The packet a datagram carries, when [readLoop] keeps it. *)
Definition keeps_packet (buf : bytes) : option Packet :=
  if IsRTCP buf then None
  else match ParseRTP buf with
       | Some p => if Z.of_nat (length (Payload p)) =? FrameSize then Some p else None
       | None => None
       end.

(** One datagram through [readLoop]. *)
Definition readLoop (buf : bytes) (addr : Z) : act unit :=
  if IsRTCP buf then mret tt
  else
    match ParseRTP buf with
    | None => emit Malformed
    | Some p =>
        if negb (Z.of_nat (length (Payload p)) =? FrameSize) then emit PayloadSizeMismatch
        else
          LockRemote addr ;;
          upd (fun c => c <| sender ::= SetPayloadType (PayloadType p) |>) ;;
          emit (PacketIn (Z.of_nat (length (Payload p)))) ;;
          let! c := mread in
          upd (fun c => c <| seqs := (Observe (SequenceNumber p) (seqs c)).2 |>) ;;
          mwhen (Observe (SequenceNumber p) (seqs c)).1 (emit SeqGap) ;;
          onJb (JB.Push (SequenceNumber p) (SSRC p) (Payload p))
    end.

Fixpoint queue_out (l : list bytes) : act unit :=
  match l with
  | [] => mret tt
  | p :: r =>
      let! c := mread in
      (if (length (outbound c) <? queueCap)%nat
       then upd (fun c => c <| outbound := outbound c ++ [p] |>)
       else emit (QueueDropped p)) ;;
      queue_out r
  end.

(** One release tick. *)
Definition releaseLoop : act unit :=
  let! raw := onJb JB.Release in
  let pcm := NormalizeToLE (default silence raw) fromWire in
  emit (Handled pcm) ;;
  let! c := mread in
  let '(out, h) := ProcessFrame (hst c) pcm in
  upd (fun c => c <| hst := h |>) ;;
  queue_out out.

(** What became of a packet handed to the socket. *)
Inductive wr := WMarshalError | WOk | WRefused | WError.

(** One write tick. *)
Definition writeLoop (w : wr) : act unit :=
  let! c := mread in
  let real := match outbound c with [] => false | _ => true end in
  let p := match outbound c with [] => silence | p :: _ => p end in
  upd (fun c => c <| outbound := tail (outbound c) |>) ;;
  emit (WriteOut p) ;;
  let '(pkt, s) := Build (FromLE p toWire) (sender c) in
  upd (fun c => c <| sender := s |>) ;;
  emit (Built pkt) ;;
  match w, remote c with
  | WMarshalError, _ | _, None => mret tt
  | WOk, Some a => emit (Sent a pkt) ;; mwhen (negb real) (emit SilenceSent)
  | WRefused, Some _ => mret tt
  | WError, Some _ => emit SendError
  end.

Inductive op := ODatagram (buf : bytes) (addr : Z) | ORelease | OWrite (w : wr).
Definition step (o : op) : act unit :=
  match o with ODatagram b a => readLoop b a | ORelease => releaseLoop | OWrite w => writeLoop w end.
Fixpoint run (l : list op) : act unit :=
  match l with [] => mret tt | o :: r => step o ;; run r end.

(** *** The outbound stream *)

Definition built (w : list ev) : list Packet := omap (fun e => match e with Built p => Some p | _ => None end) w.
Definition writes (l : list op) : nat := length (List.filter (fun o => match o with OWrite _ => true | _ => false end) l).

(** The [n]-th packet after sender state [s]. *)
Definition numbered (s : Sender) (n : nat) (p : Packet) : Prop :=
  SequenceNumber p = u16 (seq s + Z.of_nat n) /\ Timestamp p = u32 (ts s + 320 * Z.of_nat n) /\
  Marker p = (first s && (n =? 0)%nat) /\ SSRC p = ssrc s /\ Version p = 2.

(** Sender state reached after [n] packets, whatever the payload type. *)
Definition after (s : Sender) (n : nat) (s' : Sender) : Prop :=
  u16 (seq s') = u16 (seq s + Z.of_nat n) /\ u32 (ts s') = u32 (ts s + 320 * Z.of_nat n) /\
  first s' = (first s && (n =? 0)%nat) /\ ssrc s' = ssrc s.

(** The remote address stays, and all is sent to it. *)
Definition locked (c : t) (w : list ev) (c' : t) : Prop :=
  (forall a, remote c = Some a -> remote c' = Some a) /\
  (forall a p, Sent a p ∈ w -> remote c' = Some a) /\
  (forall a, Locked a ∈ w -> remote c = None /\ remote c' = Some a).

#[global] Instance locked_rel : StepRel locked.
Proof.
  split; unfold locked.
  - intros c. split_and!; [done|..]; by intros ? *; rewrite elem_of_nil.
  - intros c1 w1 c2 w2 c3 (A1&B1&C1) (A2&B2&C2). split_and!; [auto|..].
    + intros a p [Hp|Hp]%elem_of_app; eauto.
    + intros a [Hp|Hp]%elem_of_app; [destruct (C1 _ Hp); eauto|].
      destruct (C2 _ Hp) as [H2 H3]. split; [|done]. destruct (remote c1) eqn:E; [|done]. by rewrite (A1 _ eq_refl) in H2.
Qed.

Ltac lock_same := idtac; unfold locked, field_update; simpl; split_and!; [by auto|intros ? ?|intros ?];
  rewrite ?elem_of_cons, ?elem_of_nil; intros; intuition discriminate.
Ltac locks := unfold upd, emit; does_auto lock_same.

Lemma onJb_locked {A} (m : JB.act A) : does locked (onJb m).
Proof.
  intros c. unfold does_at, onJb, mout, mstate; simpl. unfold locked, field_update; simpl. split_and!; [done|..].
  - intros a p (e & He & _)%list_elem_of_In%in_map_iff. discriminate.
  - intros a (e & He & _)%list_elem_of_In%in_map_iff. discriminate.
Qed.
Local Hint Resolve onJb_locked : does.

Lemma queue_out_locked l : does locked (queue_out l).
Proof. induction l; simpl; locks. Qed.
Local Hint Resolve queue_out_locked : does.

Lemma LockRemote_locked a : does locked (LockRemote a).
Proof.
  intros c. unfold LockRemote. apply does_at_read. cbv beta. destruct (remote c) eqn:E; [locks|].
  unfold does_at, upd, emit. run_out. unfold locked, field_update; simpl. rewrite E. split_and!; [done|..].
  - intros b p. rewrite elem_of_cons, elem_of_nil. intros [|]; done.
  - intros b. rewrite elem_of_cons, elem_of_nil. intros [[= ->]|]; done.
Qed.
Local Hint Resolve LockRemote_locked : does.

Lemma step_locked o : does locked (step o).
Proof.
  destruct o; simpl; [unfold readLoop; locks|unfold releaseLoop; locks|].
  intros c. unfold writeLoop. apply does_at_read. cbv beta zeta. destruct (Build _ _) as [pkt s]. unfold upd, emit.
  destruct (remote c) as [a|] eqn:E; [|destruct w; locks].
  destruct w; try (by locks). unfold does_at. destruct (outbound c); unfold mwhen; simpl negb; cbv iota; run_out;
    unfold locked, field_update; simpl; rewrite E; (split_and!; [done|intros b p|intros b]);
    rewrite ?elem_of_cons, ?elem_of_nil; naive_solver.
Qed.
Local Hint Resolve step_locked : does.

Lemma run_locked l : does locked (run l).
Proof. induction l; simpl; locks. Qed.

(** *** The jitter buffer under a call *)

Definition buffer_op (o : op) : option (JB.op bytes) :=
  match o with
  | ODatagram b _ => match keeps_packet b with
                     | Some p => Some (JB.OpPush (SequenceNumber p) (SSRC p) (Payload p))
                     | None => None
                     end
  | ORelease => Some JB.OpRelease
  | OWrite _ => None
  end.

Definition handled (w : list ev) : list bytes := omap (fun e => match e with Handled p => Some p | _ => None end) w.

(** Away from the buffer and the handler. *)
Definition off (c : t) (w : list ev) (c' : t) : Prop := jb c' = jb c /\ handled w = [].

#[global] Instance off_rel : StepRel off.
Proof.
  split; unfold off; [done|]. intros c1 w1 c2 w2 c3 (->&H1) (->&H2). split; [done|].
  unfold handled in *. by rewrite omap_app, H1, H2.
Qed.

Ltac off_same := idtac; unfold off, field_update; simpl; done.
Ltac offs := unfold upd, emit; does_auto off_same.

Lemma queue_out_off l : does off (queue_out l).
Proof. induction l; simpl; offs. Qed.
Local Hint Resolve queue_out_off : does.

Lemma LockRemote_off a : does off (LockRemote a).
Proof. unfold LockRemote. offs. Qed.
Local Hint Resolve LockRemote_off : does.

Lemma writeLoop_off w : does off (writeLoop w).
Proof. unfold writeLoop. offs. Qed.

Lemma handled_app w1 w2 : handled (w1 ++ w2) = handled w1 ++ handled w2.
Proof. unfold handled. apply omap_app. Qed.

Lemma handled_jb l : handled (map Jb l) = [].
Proof. induction l; simpl; done. Qed.

Lemma onJb_state {A} (m : JB.act A) c : jb (mstate (onJb m) c) = mstate m (jb c).
Proof. done. Qed.

Lemma onJb_val {A} (m : JB.act A) c : mval (onJb m) c = mval m (jb c).
Proof. done. Qed.

Lemma onJb_handled {A} (m : JB.act A) c : handled (mout (onJb m) c) = [].
Proof. apply handled_jb. Qed.

Lemma readLoop_jb buf a c :
  jb (mstate (readLoop buf a) c) =
    (match keeps_packet buf with
     | Some p => mstate (JB.Push (SequenceNumber p) (SSRC p) (Payload p)) (jb c)
     | None => jb c
     end) /\ handled (mout (readLoop buf a) c) = [].
Proof.
  unfold readLoop, keeps_packet. destruct (IsRTCP buf); [done|]. destruct (ParseRTP buf) as [p|]; [|done].
  destruct (_ =? _); simpl negb; [|done].
  set (rest := (fun _ : unit => upd _ ;; _)).
  assert (Hr : forall c0, jb (mstate (rest tt) c0) = mstate (JB.Push (SequenceNumber p) (SSRC p) (Payload p)) (jb c0) /\
    handled (mout (rest tt) c0) = []).
  { intros c0. unfold rest, upd, emit. run_out. rewrite onJb_state, !handled_app, onJb_handled.
    unfold mwhen. destruct (_ : bool); split; reflexivity. }
  cbv iota. rewrite mstate_seq, mout_seq, handled_app. destruct (LockRemote_off a c) as [H1 H2].
  destruct (mval (LockRemote a) c). destruct (Hr (mstate (LockRemote a) c)) as [-> ->].
  rewrite H1, H2. done.
Qed.

Lemma releaseLoop_jb c :
  jb (mstate releaseLoop c) = mstate JB.Release (jb c) /\
  handled (mout releaseLoop c) = [NormalizeToLE (default silence (mval JB.Release (jb c))) fromWire].
Proof.
  unfold releaseLoop. rewrite mstate_seq, mout_seq, handled_app, onJb_handled, onJb_val, <- (onJb_state JB.Release).
  set (c1 := mstate _ c). clearbody c1. cbv beta zeta. unfold emit. rewrite mstate_seq, mout_seq, mout_emit, mstate_emit.
  match goal with |- context [mstate ?m c1] => assert (does off m) as Ho by offs; destruct (Ho c1) as [-> Hh] end.
  by rewrite handled_app, Hh.
Qed.

(** An RTP call's jitter buffer sees exactly the call's valid 640-byte
    packets, in arrival order, and one release a tick; the handler gets exactly
    what it released (silence in a gap), byte order undone. So what is proved
    of the buffer alone holds of it inside every call. *)
Theorem call_runs_buffer (l : list op) (c : t) :
  jb (mstate (run l) c) = mstate (JB.run (omap buffer_op l)) (jb c) /\
  handled (mout (run l) c) =
    map (fun o => NormalizeToLE (default silence o) fromWire) (mval (JB.run (omap buffer_op l)) (jb c)) /\
  Forall (fun o => match o with JB.OpPush _ _ p => length p = 640%nat | JB.OpRelease => True end) (omap buffer_op l).
Proof.
  revert c. induction l as [|o l IH]; intros c; [by simpl; split_and!; constructor|].
  simpl run. rewrite mstate_seq, mout_seq, handled_app.
  destruct (IH (mstate (step o) c)) as (H1 & H2 & H3). rewrite H1, H2. clear H1 H2 IH.
  destruct o as [b a| |w]; simpl step; simpl omap.
  - destruct (readLoop_jb b a c) as [-> ->]. simpl app.
    destruct (keeps_packet b) as [p|] eqn:Ek; [|done]. simpl.
    rewrite mstate_seq, mval_seq. split_and!; [done|done|]. constructor; [|done].
    unfold keeps_packet in Ek. destruct (IsRTCP b); [done|]. destruct (ParseRTP b); [|done].
    destruct (Z.eqb_spec (Z.of_nat (length (Payload p0))) FrameSize) as [E|]; [|done]. injection Ek as <-.
    unfold FrameSize in E. lia.
  - destruct (releaseLoop_jb c) as [-> ->]. simpl. rewrite !mstate_seq, !mval_seq, mstate_ret, mval_ret. simpl.
    split_and!; [done|done|by constructor].
  - destruct (writeLoop_off w c) as [-> ->]. done.
Qed.

(** *** Numbering of the outbound packets *)

Definition ranged (s : Sender) : Prop := 0 <= seq s < 65536 /\ 0 <= ts s < 4294967296.

Definition stream (c : t) (w : list ev) (c' : t) : Prop :=
  ranged (sender c) -> ranged (sender c') /\ after (sender c) (length (built w)) (sender c') /\
    forall i p, built w !! i = Some p -> numbered (sender c) i p.

Lemma after_numbered s n s' i p : ranged s' -> after s n s' -> numbered s' i p -> numbered s (n + i) p.
Proof.
  unfold after, numbered, ranged. intros [R1 R2] (A1&A2&A3&A4) (N1&N2&N3&N4&N5). split_and!; [..|congruence|done].
  - rewrite N1. revert A1. unfold u16. rewrite (Z.mod_small (seq s')) by lia. intros ->. rewrite Nat2Z.inj_add.
    Z.div_mod_to_equations. lia.
  - rewrite N2. revert A2. unfold u32. rewrite (Z.mod_small (ts s')) by lia. intros ->. rewrite Nat2Z.inj_add.
    Z.div_mod_to_equations. lia.
  - rewrite N3, A3. destruct (first s); simpl; [|done]. destruct n, i; done.
Qed.

Lemma after_trans s n s1 m s2 : ranged s1 -> after s n s1 -> after s1 m s2 -> after s (n + m) s2.
Proof.
  unfold after, ranged. intros [R1 R2] (A1&A2&A3&A4) (B1&B2&B3&B4). split_and!; [..|congruence].
  - rewrite B1. revert A1. unfold u16. rewrite (Z.mod_small (seq s1)) by lia. intros ->. rewrite Nat2Z.inj_add.
    Z.div_mod_to_equations. lia.
  - rewrite B2. revert A2. unfold u32. rewrite (Z.mod_small (ts s1)) by lia. intros ->. rewrite Nat2Z.inj_add.
    Z.div_mod_to_equations. lia.
  - rewrite B3, A3. destruct (first s); simpl; [|done]. destruct n, m; done.
Qed.

#[global] Instance stream_rel : StepRel stream.
Proof.
  split; unfold stream.
  - intros c R. split; [done|]. split; [|done]. unfold after. simpl. rewrite !Z.add_0_r, andb_true_r. done.
  - intros c1 w1 c2 w2 c3 H1 H2 R. destruct (H1 R) as (R2&A1&N1). destruct (H2 R2) as (R3&A2&N2).
    unfold built in *. rewrite omap_app, length_app. split; [done|]. split; [eapply after_trans; [exact R2|exact A1|exact A2]|].
    intros i p Hi. apply lookup_app_Some in Hi as [Hi|[Hle Hi]]; [by apply N1|].
    apply N2 in Hi. eapply after_numbered in Hi; [|exact R2|exact A1].
    by rewrite Nat.add_sub_assoc, Nat.add_comm, Nat.add_sub in Hi.
Qed.

Lemma stream_same c w c' : seq (sender c') = seq (sender c) -> ts (sender c') = ts (sender c) ->
  first (sender c') = first (sender c) -> ssrc (sender c') = ssrc (sender c) -> built w = [] -> stream c w c'.
Proof.
  intros H1 H2 H3 H4 Hb R. unfold ranged, after in *. rewrite Hb, H1, H2, H3, H4. simpl.
  rewrite !Z.add_0_r, andb_true_r. done.
Qed.

Ltac str_same := idtac; apply stream_same; unfold field_update; simpl; reflexivity.
Ltac strs := unfold upd, emit; does_auto str_same.

Lemma onJb_stream {A} (m : JB.act A) : does stream (onJb m).
Proof.
  intros c. apply stream_same; [done..|]. unfold onJb, mout; simpl. by induction (m (jb c)).2.
Qed.
Local Hint Resolve onJb_stream : does.

Lemma queue_out_stream l : does stream (queue_out l).
Proof. induction l; simpl; strs. Qed.
Local Hint Resolve queue_out_stream : does.

Lemma LockRemote_stream a : does stream (LockRemote a).
Proof. unfold LockRemote. strs. Qed.
Local Hint Resolve LockRemote_stream : does.

Lemma writeLoop_stream w : does stream (writeLoop w).
Proof.
  intros c. unfold writeLoop. apply does_at_read. cbv beta zeta. unfold Build. unfold upd, emit.
  set (rest := match w with WMarshalError => _ | _ => _ end).
  assert (does stream rest) as Hr.
  { unfold rest, upd, emit. strs. }
  clearbody rest. set (p := match outbound c with [] => silence | p :: _ => p end).
  apply does_at_mod_seq; [apply _|str_same|cbv beta].
  apply does_at_emit_seq; [apply _|str_same|cbv beta].
  unfold does_at. rewrite mout_seq, mstate_seq, mout_mod, mstate_mod, mout_seq, mstate_seq, mout_emit, mstate_emit, app_nil_l.
  eapply (step_app (R := stream)); [|apply Hr].
  intros [R1 R2]. unfold field_update; simpl. unfold ranged, u16, u32, SamplesPerFrame, SampleRate. split; [|split].
  - split; apply Z.mod_pos_bound; lia.
  - unfold after; simpl. rewrite andb_false_r. unfold u16, u32. split_and!; [..|done|done].
    + apply Z.mod_mod. lia.
    + change (16000 * 20 / 1000) with 320. rewrite Z.mod_mod by lia. done.
  - intros [|i] q; simpl; [|done]. intros [= <-]. unfold numbered; simpl.
    rewrite !Z.add_0_r, andb_true_r. unfold u16, u32. split_and!; try done; symmetry; apply Z.mod_small; [exact R1|exact R2].
Qed.
Local Hint Resolve writeLoop_stream : does.

Lemma step_stream o : does stream (step o).
Proof. destruct o; simpl; [unfold readLoop; strs|unfold releaseLoop; strs|auto with does]. Qed.
Local Hint Resolve step_stream : does.

Lemma run_stream l : does stream (run l).
Proof. induction l; simpl; strs. Qed.

(** One packet is built per write tick, none otherwise. *)
Definition no_built (c : t) (w : list ev) (c' : t) : Prop := built w = [].

#[global] Instance no_built_rel : StepRel no_built.
Proof. split; unfold no_built, built; [done|]. intros c1 w1 c2 w2 c3 H1 H2. by rewrite omap_app, H1, H2. Qed.

Ltac nb_same := idtac; unfold no_built; reflexivity.
Ltac nbs := unfold upd, emit; does_auto nb_same.

Lemma onJb_nb {A} (m : JB.act A) : does no_built (onJb m).
Proof. intros c. unfold does_at, no_built, onJb, mout; simpl. by induction (m (jb c)).2. Qed.
Local Hint Resolve onJb_nb : does.

Lemma queue_out_nb l : does no_built (queue_out l).
Proof. induction l; simpl; nbs. Qed.
Local Hint Resolve queue_out_nb : does.

Lemma LockRemote_nb a : does no_built (LockRemote a).
Proof. unfold LockRemote. nbs. Qed.
Local Hint Resolve LockRemote_nb : does.

Lemma readLoop_nb b a : does no_built (readLoop b a).
Proof. unfold readLoop. nbs. Qed.

Lemma releaseLoop_nb : does no_built releaseLoop.
Proof. unfold releaseLoop. nbs. Qed.

Lemma writeLoop_one w c : length (built (mout (writeLoop w) c)) = 1%nat.
Proof.
  unfold writeLoop. rewrite mout_read_seq. cbv zeta. unfold Build, upd, emit.
  rewrite !mout_seq, !mout_mod, !mout_emit. rewrite !app_nil_l. simpl app. simpl built.
  match goal with |- context [mout ?m ?s] => assert (does no_built m) as Hn by (unfold emit; nbs); pose proof (Hn s) as Hs end.
  unfold does_at, no_built in Hs. simpl. by rewrite Hs.
Qed.

Lemma run_writes l : forall c, length (built (mout (run l) c)) = writes l.
Proof.
  induction l as [|o l IH]; intros c; simpl; [done|]. rewrite mout_seq. unfold built at 1. rewrite omap_app.
  rewrite length_app. fold (built (mout (run l) (mstate (step o) c))). fold (built (mout (step o) c)). rewrite IH.
  destruct o; simpl.
  - pose proof (readLoop_nb buf addr c) as Hn. unfold does_at, no_built in Hn. by rewrite Hn.
  - pose proof (releaseLoop_nb c) as Hn. unfold does_at, no_built in Hn. by rewrite Hn.
  - by rewrite writeLoop_one.
Qed.

(** The stream Asterisk gets never starves and never breaks: every write
    tick builds exactly one packet, whatever the handler did; the packets'
    sequence numbers and timestamps run on by 1 and 320 from the random start,
    wrapping at 16 and 32 bits, only the very first carries the marker, and all
    go to the address of the first valid inbound packet. *)
Theorem rtp_stream (l : list op) (packets ssrc0 seq0 ts0 : Z) (h : H) :
  0 <= ts0 < 4294967296 ->
  let s0 := NewSender ssrc0 seq0 ts0 in
  let w := mout (run l) (NewCallMedia packets s0 h) in
  length (built w) = writes l /\
  (forall i p, built w !! i = Some p ->
     SequenceNumber p = u16 (seq0 + Z.of_nat i) /\ Timestamp p = u32 (ts0 + 320 * Z.of_nat i) /\
     Marker p = (i =? 0)%nat /\ SSRC p = ssrc0) /\
  (forall a b p, Sent a p ∈ w -> Locked b ∈ w -> a = b) /\
  (forall a p, Sent a p ∈ w -> remote (mstate (run l) (NewCallMedia packets s0 h)) = Some a).
Proof.
  intros Ht s0 w. split; [apply run_writes|]. split.
  - intros i p Hi. destruct (run_stream l (NewCallMedia packets s0 h)) as (_&_&N).
    { split; simpl; [apply u16_range|lia]. }
    destruct (N i p Hi) as (N1&N2&N3&N4&_). simpl in *. split_and!; [|done..].
    rewrite N1. unfold u16. by rewrite Zplus_mod_idemp_l.
  - destruct (run_locked l (NewCallMedia packets s0 h)) as (A&B&C). split.
    + intros a b p Ha Hb. apply B in Ha. destruct (C b Hb) as [_ Hc]. congruence.
    + intros a p. apply B.
Qed.

End call.

(** A parser that always finds one packet; a call of one datagram. *)
Definition one_packet : bytes -> option Packet := fun _ => Some (mkPacket 2 false 118 7 0 1 (replicate 640 0)).
Definition one_call : list op := [ODatagram [128; 118] 9; ORelease; OWrite WOk; OWrite WOk].

Lemma rtp_stream_witness :
  let w := mout (run (H := unit) one_packet LittleEndian LittleEndian one_call) (NewCallMedia 3 (NewSender 5 65535 100) tt) in
  0 <= 100 < 4294967296 /\ length (built w) = 2%nat /\
  (forall i p, built w !! i = Some p -> SequenceNumber p = u16 (65535 + Z.of_nat i)).
Proof.
  split; [lia|].
  destruct (rtp_stream (H := unit) one_packet LittleEndian LittleEndian one_call 3 5 65535 100 tt) as (A & B & _).
  - lia.
  - split; [exact A|]. intros i p Hi. destruct (B i p Hi) as [N _]. exact N.
Defined.

End Rtp.
