(* ===== verification/Esl.v ===== *)
(** [internal/esl/esl.go]: FreeSWITCH's event socket: reading messages, the one
    command in flight and its reply, and the queue that carries events to their
    consumer in order.

    The connection is a transition system: the reader, the event pump, the
    holder of the command lock and the deadline of its context each take steps
    ([step]) over the client's channels. [textproto.ReadMIMEHeader] is a
    parameter; a header is its list of (canonical) names and values. *)

From Stdlib Require Import String.
From S2P Require Import Prelude Text.

Local Open Scope Z_scope.

Abbreviation Header := (list (bytes * bytes)).

Record Message := mkMessage { Header_ : Header; Body : bytes }.

(** [MIMEHeader.Get]. *)
Definition get (h : Header) (name : bytes) : bytes :=
  default [] (snd <$> List.find (fun kv => bool_decide (kv.1 = name)) h).

(** [url.PathUnescape]; [None] on a malformed escape. *)
Definition unhex (c : Z) : option Z :=
  if between 48 c 57 then Some (c - 48)
  else if between 97 c 102 then Some (c - 87)
  else if between 65 c 70 then Some (c - 55)
  else None.

Fixpoint PathUnescape (s : bytes) : option bytes :=
  match s with
  | [] => Some []
  | 37 :: r =>
      match r with
      | a :: b :: t =>
          match unhex a, unhex b, PathUnescape t with
          | Some x, Some y, Some t => Some (16 * x + y :: t)
          | _, _, _ => None
          end
      | _ => None
      end
  | c :: r => match PathUnescape r with Some t => Some (c :: t) | None => None end
  end.

(** [Message.Get], [Message.Name]. *)
Definition Get (m : Message) (name : bytes) : bytes :=
  let v := get (Header_ m) name in default v (PathUnescape v).

Definition MessageName (m : Message) : bytes :=
  let n := Get m (bs "Event-Name") in
  if bool_decide (n = bs "CUSTOM") then Get m (bs "Event-Subclass") else n.

Definition ContentType (m : Message) : bytes := get (Header_ m) (bs "Content-Type").

Section reading.
(** The header at the front of the bytes and what follows it. *)
Variable ReadMIMEHeader : bytes -> option (Header * bytes).

(** [readMessage]. *)
Definition readMessage (s : bytes) : option (Message * bytes) :=
  match ReadMIMEHeader s with
  | None => None
  | Some (h, rest) =>
      let cl := get h (bs "Content-Length") in
      if bool_decide (cl = []) then Some (mkMessage h [], rest)
      else
        match Atoi cl with
        | None => None
        | Some n =>
            if (n <? 0) || (Z.of_nat (length rest) <? n) then None
            else Some (mkMessage h (take (Z.to_nat n) rest), drop (Z.to_nat n) rest)
        end
  end.

(** ** The client *)

Inductive error := ErrClosed | ReadError | Unexpected | BadEvent | Disconnected | WriteError | NoReply | BadLine | Refused.

(** [pumpEvents]: about to take the queue, delivering what it took, waiting for
    [qReady], gone. *)
Inductive pumping := PTake | PDeliver (l : list Message) | PWait | PEnd.

(** [readLoop]: reading, about to signal [qReady], gone. *)
Inductive reading := RRead | RSignal | REnd.

(** [Client]; [sending] is the command of the holder of [cmdMu] that waits for
    its reply, with its number. *)
Record t := mkClient {
  replies : option Message;
  queue : list Message; qReady : bool;
  done : option error;
  reader : reading; pump : pumping;
  sending : option (nat * bytes);
}.

#[global] Instance eta_t : Eta t := fun c =>
  mkClient (replies c) (queue c) (qReady c) (done c) (reader c) (pump c) (sending c).

Definition New : t := mkClient None [] false None RRead PTake None.

(** The connection with FreeSWITCH at its other end: the commands written and
    not yet answered, how many were written, and what FreeSWITCH sent that is
    not yet read. *)
Record world := mkWorld { cl : t; unanswered : list (nat * bytes); written : nat; wire : list Message }.

#[global] Instance eta_world : Eta world := fun w => mkWorld (cl w) (unanswered w) (written w) (wire w).

Inductive effect :=
  | EWrite (line : bytes)
  | ECloseConn
  | EReturn (n : nat) (cmd : bytes) (r : result Message error)
  | EReject (e : error)
  | EDeliver (ev : Message)
  | ESent (m : Message).   (* by FreeSWITCH *)

Definition act (A : Type) : Type := M world effect A.
Definition upd (f : t -> t) : act unit := mmod (fun w => w <| cl ::= f |>).
Definition emit (e : effect) : act unit := memit e.

Local Open Scope m_scope.

(** [fail]: once. *)
Definition fail (e : error) : act unit :=
  let! w := mread in
  match done (cl w) with
  | Some _ => mret tt
  | None => upd (fun c => c <| done := Some e |>) ;; emit ECloseConn
  end.

(** [checkLine]. *)
Definition checkLine (s : bytes) : bool := negb (existsb (fun b => (b =? 13) || (b =? 10)) s).

(** [readLoop]: one message read. *)
Definition is_reply (m : Message) : bool :=
  bool_decide (ContentType m = bs "command/reply") || bool_decide (ContentType m = bs "api/response").

Definition readStop (e : error) : act unit := fail e ;; upd (fun c => c <| reader := REnd |>).

Definition readOne (m : Message) : act unit :=
  let! w := mread in
  if is_reply m then
    match replies (cl w) with
    | None => upd (fun c => c <| replies := Some m |>)
    | Some _ => readStop Unexpected
    end
  else if bool_decide (ContentType m = bs "text/event-plain") then
    match readMessage (Body m) with
    | None => readStop BadEvent
    | Some (ev, _) => upd (fun c => c <| queue ::= fun q => q ++ [ev] |> <| reader := RSignal |>)
    end
  else if bool_decide (ContentType m = bs "text/disconnect-notice") then readStop Disconnected
  else mret tt.

(** [Send], up to its [select]. *)
Definition sendWrite (cmd : bytes) (ok : bool) : act unit :=
  let! w := mread in
  if negb (checkLine cmd) then emit (EReject BadLine)
  else
    match done (cl w) with
    | Some e => emit (EReject e)
    | None =>
        emit (EWrite (cmd ++ [10; 10])) ;;
        if ok then
          mmod (fun w => w <| unanswered ::= fun l => l ++ [(written w, cmd)] |> <| written ::= S |>
                           <| cl ::= fun c => c <| sending := Some (written w, cmd) |> |>)
        else fail WriteError ;; emit (EReject WriteError)
    end.

(** How its [select] ends. *)
Inductive ending := GotReply | SawDone | Expired.

Definition sendEnd (n : nat) (cmd : bytes) (by_ : ending) : act unit :=
  let! w := mread in
  match by_ with
  | GotReply =>
      match replies (cl w) with
      | Some m => upd (fun c => c <| replies := None |> <| sending := None |>) ;; emit (EReturn n cmd (Ok m))
      | None => mret tt
      end
  | SawDone =>
      match done (cl w) with
      | Some e => upd (fun c => c <| sending := None |>) ;; emit (EReturn n cmd (Err e))
      | None => mret tt
      end
  | Expired => fail NoReply ;; upd (fun c => c <| sending := None |>) ;; emit (EReturn n cmd (Err NoReply))
  end.

(** [pumpEvents]: one step; [stop] is the choice of a [select] whose [done] is
    ready too. *)
Definition pumpStep (stop : bool) : act unit :=
  let! w := mread in
  let c := cl w in
  let over := match done c with Some _ => stop | None => false end in
  match pump c with
  | PTake => upd (fun c => c <| pump := PDeliver (queue c) |> <| queue := [] |>)
  | PDeliver [] => upd (fun c => c <| pump := PWait |>)
  | PDeliver (ev :: r) =>
      if over then upd (fun c => c <| pump := PEnd |>)
      else upd (fun c => c <| pump := PDeliver r |>) ;; emit (EDeliver ev)
  | PWait =>
      if over then upd (fun c => c <| pump := PEnd |>)
      else mwhen (qReady c) (upd (fun c => c <| qReady := false |> <| pump := PTake |>))
  | PEnd => mret tt
  end.

(** [Close]. *)
Definition Close : act unit := fail ErrClosed.

(** ** The commands *)

(** [verb]. *)
Fixpoint before_space (s : bytes) : bytes :=
  match s with [] => [] | 32 :: _ => [] | c :: r => c :: before_space r end.
Definition verb (cmd : bytes) : bytes := before_space (TrimPrefix (TrimPrefix cmd (bs "api ")) (bs "bgapi ")).

(** The lines of [API], [BgAPI] and [Subscribe], and what they make of the
    reply to theirs. *)
Definition apiLine (cmd : bytes) : bytes := bs "api " ++ cmd.
Definition bgapiLine (cmd : bytes) : bytes := bs "bgapi " ++ cmd.
Definition subscribeLine (events : list bytes) : bytes := bs "event plain " ++ Join events [32].

Definition API (r : result Message error) : result bytes error :=
  match r with
  | Err e => Err e
  | Ok m => let out := TrimSpace (Body m) in if HasPrefix out [45] then Err Refused else Ok out
  end.

Definition command (r : result Message error) : result Message error :=
  match r with
  | Err e => Err e
  | Ok m => if HasPrefix (Get m (bs "Reply-Text")) (bs "+OK") then Ok m else Err Refused
  end.

Definition BgAPI (r : result Message error) : result bytes error :=
  match command r with Ok m => Ok (Get m (bs "Job-UUID")) | Err e => Err e end.

Definition Subscribe (r : result Message error) : option error :=
  match command r with Ok _ => None | Err e => Some e end.

(** [auth]: what it writes, if anything, and whether it succeeds; the two
    messages it reads, and whether its write succeeds, come from outside. *)
Definition auth (first : option Message) (password : bytes) (ok : bool) (second : option Message) : option bytes * option error :=
  match first with
  | None => (None, Some ReadError)
  | Some m =>
      if negb (bool_decide (ContentType m = bs "auth/request")) then (None, Some Unexpected)
      else if negb (checkLine password) then (None, Some BadLine)
      else
        (Some (bs "auth " ++ password ++ [10; 10]),
         if negb ok then Some WriteError
         else match second with
              | None => Some ReadError
              | Some m => if HasPrefix (Get m (bs "Reply-Text")) (bs "+OK") then None else Some Refused
              end)
  end.

(** ** The steps of the connection

    FreeSWITCH answers commands in the order it got them, the [n]-th with
    [answer n]; of itself it sends anything but replies. *)

Inductive label :=
  | LSend (cmd : bytes) (ok : bool)
  | LSendEnd (by_ : ending)
  | LServe
  | LPush (m : Message)
  | LRead
  | LReadError
  | LSignal
  | LPump (stop : bool)
  | LClose.

Variable answer : nat -> bytes -> Message.

Definition step (l : label) : act unit :=
  let! w := mread in
  let c := cl w in
  match l with
  | LSend cmd ok => mwhen (bool_decide (sending c = None)) (sendWrite cmd ok)
  | LSendEnd by_ => match sending c with Some (n, cmd) => sendEnd n cmd by_ | None => mret tt end
  | LServe =>
      match unanswered w with
      | (n, cmd) :: r => mmod (fun w => w <| unanswered := r |> <| wire ::= fun l => l ++ [answer n cmd] |>) ;; emit (ESent (answer n cmd))
      | [] => mret tt
      end
  | LPush m => mwhen (negb (is_reply m)) (mmod (fun w => w <| wire ::= fun l => l ++ [m] |>) ;; emit (ESent m))
  | LRead =>
      match reader c, wire w with
      | RRead, m :: r => mmod (fun w => w <| wire := r |>) ;; readOne m
      | _, _ => mret tt
      end
  | LReadError => match reader c with RRead => readStop ReadError | _ => mret tt end
  | LSignal =>
      match reader c with
      | RSignal => upd (fun c => c <| qReady := true |> <| reader := RRead |>)
      | _ => mret tt
      end
  | LPump stop => pumpStep stop
  | LClose => Close
  end.

Fixpoint run (ls : list label) : act unit :=
  match ls with [] => mret tt | l :: r => step l ;; run r end.

Definition world0 : world := mkWorld New [] 0 [].
End reading.
