(* ===== verification/EslSpec.v ===== *)
(** [internal/esl/esl.go]: what any run of the event socket keeps: a command gets
    its own reply, events keep their order and none is left waiting, and no
    argument can start a second command. *)

From Stdlib Require Import String.
From S2P Require Import Prelude Text Esl.

Local Open Scope Z_scope.
Local Open Scope m_scope.

(** ** Each command gets its own reply *)

Section spec.
Variable ReadMIMEHeader : bytes -> option (Header * bytes).
Variable answer : nat -> bytes -> Message.
Local Abbreviation step := (step ReadMIMEHeader answer).
Local Abbreviation run := (run ReadMIMEHeader answer).
#[local] Set Default Proof Using "All".

(** The replies that are on their way: kept, sent, or still to be made. *)
Definition coming (w : world) : list Message :=
  option_list (replies (cl w)) ++ filter (fun m => is_reply m = true) (wire w) ++
  filter (fun m => is_reply m = true) (map (fun nc => answer nc.1 nc.2) (unanswered w)).

(** At most the reply of the command in flight is; none when the connection is
    up and no command is in flight. *)
Definition in_step (w : world) : Prop :=
  done (cl w) <> Some Unexpected /\
  match sending (cl w) with
  | Some (n, cmd) => coming w = [] \/ coming w = [answer n cmd]
  | None => (length (coming w) <= 1)%nat /\ (done (cl w) = None -> coming w = [])
  end.

(** The replies returned are the answers to the commands they are returned for. *)
Definition own (o : list effect) : Prop :=
  Forall (fun e => match e with EReturn n cmd (Ok m) => m = answer n cmd | _ => True end) o.

Definition kept (w : world) (o : list effect) (w' : world) : Prop := in_step w -> in_step w' /\ own o.

#[global] Instance kept_rel : StepRel kept.
Proof.
  split; [intros s H; split; [done|constructor]|].
  intros s1 w1 s2 w2 s3 H1 H2 H. destruct (H1 H) as [Hi Ho]. destruct (H2 Hi) as [Hi2 Ho2]. split; [done|]. by apply Forall_app.
Qed.

Lemma fail_kept e : e <> Unexpected -> does kept (fail e).
Proof.
  intros He w. unfold fail, upd, emit. apply does_at_read. destruct (done (cl w)) eqn:Hd; [apply does_at_ret; apply _|].
  intros [H1 H2]. unfold mout, mstate, mseq, mmod, memit. cbn. split; [|repeat constructor].
  split; [cbn; congruence|]. cbn. destruct (sending (cl w)) as [[n cmd]|]; [exact H2|]. split; [apply H2|done].
Qed.


Ltac crunch := unfold does_at, mout, mstate, upd, emit, mseq, mread, mmod, memit, mret, mwhen, field_update; cbn.

Lemma upd_kept (f : t -> t) :
  (forall c, replies (f c) = replies c /\ sending (f c) = sending c /\ done (f c) = done c) -> does kept (upd f).
Proof.
  intros Hf w. crunch. intros [H1 H2]. destruct (Hf (cl w)) as (E1 & E2 & E3).
  split; [|constructor]. unfold in_step, coming in *. cbn. by rewrite E1, E2, E3.
Qed.

Lemma readStop_kept e : e <> Unexpected -> does kept (readStop e).
Proof. intros He w. apply does_at_call; [apply _|by apply fail_kept|]. intros _ w'. by apply does_of, upd_kept. Qed.

(** Taking a message off the wire and reading it. *)
Lemma read_kept m r w :
  wire w = m :: r -> kept w (mout (mmod (fun w => w <| wire := r |>) ;; readOne ReadMIMEHeader m)%m w)
    (mstate (mmod (fun w => w <| wire := r |>) ;; readOne ReadMIMEHeader m)%m w).
Proof.
  intros Hw. rewrite mout_seq, mstate_seq, mout_mod, mstate_mod. set (w1 := w <| wire := r |>). cbn [app].
  destruct (is_reply m) eqn:Hm.
  - unfold readOne. rewrite mout_read_seq, mstate_read_seq, Hm. unfold kept, in_step, coming. cbn [wire cl w1].
    rewrite Hw, filter_cons_True by done. destruct (replies (cl w)) as [m'|] eqn:Hr.
    + intros [Hd Hc]. exfalso. destruct (sending (cl w)) as [[n cmd]|]; [by destruct Hc|].
      destruct Hc as [Hl _]. cbn in Hl. lia.
    + crunch. rewrite Hr. cbn. intros [Hd Hc]. split; [|constructor]. split; [exact Hd|exact Hc].
  - assert (H1 : kept w [] w1).
    { intros [Hd Hc]. split; [|constructor]. unfold in_step, coming in *. subst w1. cbn.
      rewrite Hw, filter_cons_False in Hc by (by rewrite Hm). done. }
    change (mout (readOne ReadMIMEHeader m) w1) with ([] ++ mout (readOne ReadMIMEHeader m) w1).
    eapply step_app; [exact H1|]. unfold readOne. rewrite mout_read_seq, mstate_read_seq, Hm.
    repeat case_match; try (by apply readStop_kept); try (by apply upd_kept). apply does_at_ret. apply _.
Qed.

Lemma send_kept cmd ok w : sending (cl w) = None -> does_at kept (sendWrite cmd ok) w.
Proof.
  intros Hs. unfold sendWrite, emit. apply does_at_read.
  assert (Hq : forall e w, (forall n cmd m, e <> EReturn n cmd (Ok m)) -> kept w [e] w).
  { intros e w' He Hi. split; [done|]. constructor; [|constructor]. destruct e as [| |n c [m|]| | |]; try done. by destruct (He n c m). }
  destruct (checkLine cmd); cbn [negb]; [|apply does_at_emit, Hq; done].
  destruct (done (cl w)) eqn:Hd; [apply does_at_emit, Hq; done|].
  apply does_at_emit_seq; [apply _|by apply Hq|]. destruct ok.
  - unfold does_at, kept, in_step, coming. rewrite mout_mod, mstate_mod. cbn. rewrite Hs, Hd.
    intros [_ [_ Hc]]. specialize (Hc eq_refl). apply app_eq_nil in Hc as [H1 Hc]. apply app_eq_nil in Hc as [H2 H3].
    split; [|constructor]. split; [done|]. rewrite H1, H2, map_app, filter_app, H3. cbn [app map].
    destruct (decide (is_reply (answer (written w) cmd) = true)) as [Hr|Hr];
      [rewrite filter_cons_True by exact Hr|rewrite filter_cons_False by exact Hr]; auto.
  - apply does_at_call; [apply _|by apply fail_kept|]. intros _ w'. apply does_at_emit, Hq. done.
Qed.

Lemma sendEnd_kept n cmd by_ w : sending (cl w) = Some (n, cmd) -> does_at kept (sendEnd n cmd by_) w.
Proof.
  intros Hs. unfold sendEnd, emit, upd. apply does_at_read. destruct by_.
  - destruct (replies (cl w)) as [m|] eqn:Hr; [|apply does_at_ret; apply _].
    unfold does_at. rewrite mout_seq, mstate_seq, mout_mod, mstate_mod, mout_emit, mstate_emit. cbn [app].
    unfold kept, in_step, coming. cbn. rewrite Hs, Hr. intros [Hd [Hc|Hc]]; [done|]. cbn in Hc. injection Hc as Hm Hc.
    rewrite Hc. split; [auto|]. by repeat constructor.
  - destruct (done (cl w)) as [e|] eqn:Hd; [|apply does_at_ret; apply _].
    unfold does_at. rewrite mout_seq, mstate_seq, mout_mod, mstate_mod, mout_emit, mstate_emit. cbn [app].
    unfold kept, in_step, coming. cbn. rewrite Hs, Hd. intros [He Hc]. split; [|by repeat constructor].
    split; [done|]. split; [destruct Hc as [-> | ->]; cbn; lia|done].
  - unfold does_at. rewrite mout_seq, mstate_seq.
    assert (Hf : exists e, mstate (fail NoReply) w = w <| cl ::= fun c => c <| done := Some e |> |> /\ (done (cl w) = Some e \/ e = NoReply) /\
                 own (mout (fail NoReply) w)).
    { unfold fail, upd, emit. rewrite mstate_read_seq, mout_read_seq. destruct (done (cl w)) as [e|] eqn:Hd.
      - exists e. split; [|split; [by left|constructor]]. destruct w as [[]]. cbn in *. by subst.
      - exists NoReply. split; [done|]. split; [by right|]. by repeat constructor. }
    destruct Hf as (e & -> & He & Ho). rewrite mout_seq, mstate_seq, mout_mod, mstate_mod, mout_emit, mstate_emit.
    unfold kept, in_step, coming. cbn. rewrite Hs. intros [Hd Hc]. split; [|apply Forall_app; split; [done|by repeat constructor]].
    split; [intros [= ->]; naive_solver|]. split; [destruct Hc as [-> | ->]; cbn; lia|done].
Qed.

Lemma pump_kept stop : does kept (pumpStep stop).
Proof.
  intros w. unfold pumpStep, emit. apply does_at_read.
  destruct (pump (cl w)) as [|[|ev l]| |]; try (by apply does_of, upd_kept).
  - destruct (match done (cl w) with Some _ => stop | None => false end); [by apply does_of, upd_kept|].
    apply does_at_call; [apply _|by apply upd_kept|]. intros _ w'. apply does_at_emit. intros Hi. split; [done|by repeat constructor].
  - destruct (match done (cl w) with Some _ => stop | None => false end); [by apply does_of, upd_kept|].
    apply does_at_when; [apply _|]. intros _. by apply does_of, upd_kept.
  - apply does_at_ret. apply _.
Qed.

Lemma step_kept l : does kept (step l).
Proof.
  intros w. unfold Esl.step. apply does_at_read. destruct l.
  - apply does_at_when; [apply _|]. intros Hs%bool_decide_eq_true. by apply send_kept.
  - destruct (sending (cl w)) as [[n cmd]|] eqn:Hs; [by apply sendEnd_kept|apply does_at_ret; apply _].
  - destruct (unanswered w) as [|[n cmd] r] eqn:Hu; [apply does_at_ret; apply _|].
    unfold does_at, emit. rewrite mout_seq, mstate_seq, mout_mod, mstate_mod, mout_emit, mstate_emit.
    intros Hi. split; [|by repeat constructor]. unfold in_step, coming in *. cbn. rewrite Hu in Hi. cbn [map fst snd] in Hi.
    rewrite filter_app, <- app_assoc.
    assert (Hc : forall l, filter (fun m => is_reply m = true) (answer n cmd :: l) =
                  filter (fun m => is_reply m = true) [answer n cmd] ++ filter (fun m => is_reply m = true) l)
      by (intros l; apply (filter_app _ [_])).
    rewrite Hc in Hi. exact Hi.
  - apply does_at_when; [apply _|]. intros Hm%negb_true_iff.
    unfold does_at, emit. rewrite mout_seq, mstate_seq, mout_mod, mstate_mod, mout_emit, mstate_emit.
    intros Hi. split; [|by repeat constructor]. unfold in_step, coming in *. cbn.
    rewrite filter_app, filter_cons_False, filter_nil, app_nil_r by (by rewrite Hm). exact Hi.
  - destruct (reader (cl w)), (wire w) as [|m r] eqn:Hw; try (apply does_at_ret; apply _). by apply read_kept.
  - destruct (reader (cl w)); try (apply does_at_ret; apply _). by apply readStop_kept.
  - destruct (reader (cl w)); try (apply does_at_ret; apply _). by apply upd_kept.
  - by apply pump_kept.
  - by apply fail_kept.
Qed.

Lemma run_kept ls : does kept (run ls).
Proof.
  induction ls as [|l ls IH]; intros w; cbn [Esl.run]; [apply does_at_ret; apply _|].
  apply does_at_call; [apply _|apply step_kept|]. intros _ w'. apply IH.
Qed.

(** C33: over any run, whoever cancels, closes or fails and whenever, a command
    that gets a reply gets FreeSWITCH's reply to that very command: a late reply
    is never taken as the next command's. FreeSWITCH answering each command once
    is never mistaken for it being out of step. *)
Theorem own_reply ls n cmd m :
  (In (EReturn n cmd (Ok m)) (mout (run ls) world0) -> m = answer n cmd) /\
  done (cl (mstate (run ls) world0)) <> Some Unexpected.
Proof.
  destruct (run_kept ls world0) as [[Hd _] Ho].
  { split; [done|]. by split; [cbn; lia|]. }
  split; [|exact Hd]. intros Hin. unfold own in Ho. rewrite List.Forall_forall in Ho. exact (Ho _ Hin).
Qed.

(** ** Events keep their order *)

Definition event_of (m : Message) : option Message :=
  if is_reply m then None
  else if bool_decide (ContentType m = bs "text/event-plain") then fst <$> readMessage ReadMIMEHeader (Body m)
  else None.
Definition events (l : list Message) : list Message := omap event_of l.

(** What FreeSWITCH sent, and the events the consumer got. *)
Definition sent (o : list effect) : list Message := omap (fun e => match e with ESent m => Some m | _ => None end) o.
Definition delivered (o : list effect) : list Message := omap (fun e => match e with EDeliver m => Some m | _ => None end) o.

Definition taken (p : pumping) : list Message := match p with PDeliver l => l | _ => [] end.

(** The events on their way. *)
Definition pending (w : world) : list Message := taken (pump (cl w)) ++ queue (cl w) ++ events (wire w).

Definition flows (w : world) (o : list effect) (w' : world) : Prop :=
  (pump (cl w) = PEnd -> pump (cl w') = PEnd /\ delivered o = []) /\
  (pump (cl w') <> PEnd -> pending w ++ events (sent o) = delivered o ++ pending w') /\
  (pump (cl w) <> PEnd -> exists rest, pending w ++ events (sent o) = delivered o ++ rest).

Lemma flows_eq w o w' :
  (pump (cl w) = PEnd -> pump (cl w') = PEnd) -> delivered o = [] ->
  pending w ++ events (sent o) = pending w' -> flows w o w'.
Proof. intros Hp Hd He. unfold flows. rewrite Hd. split_and!; [auto|by intros _|intros _; by exists (pending w')]. Qed.

Lemma pump_end p : p = PEnd \/ p <> PEnd.
Proof. destruct p; (by left) || (by right). Qed.

#[global] Instance flows_rel : StepRel flows.
Proof.
  split.
  - intros w. apply flows_eq; [done|done|]. cbn. by rewrite app_nil_r.
  - intros w1 o1 w2 o2 w3 (A1 & B1 & C1) (A2 & B2 & C2).
    assert (Hs : sent (o1 ++ o2) = sent o1 ++ sent o2) by apply omap_app.
    assert (Hd : delivered (o1 ++ o2) = delivered o1 ++ delivered o2) by apply omap_app.
    unfold flows, events in *. rewrite Hs, Hd, omap_app. split_and!.
    + intros H1. destruct (A1 H1) as [H2 E1], (A2 H2) as [H3 E2]. by rewrite E1, E2.
    + intros H3. assert (H2 : pump (cl w2) <> PEnd) by (intros H2; by apply H3, A2).
      rewrite app_assoc, (B1 H2), <- !app_assoc. f_equal. exact (B2 H3).
    + intros H1. destruct (pump_end (pump (cl w2))) as [H2|H2].
      * destruct (C1 H1) as [rest E1], (A2 H2) as [_ ->]. exists (rest ++ omap event_of (sent o2)).
        by rewrite app_assoc, E1, app_nil_r, <- app_assoc.
      * destruct (C2 H2) as [rest E2]. exists rest. by rewrite app_assoc, (B1 H2), <- !app_assoc, E2.
Qed.

Lemma upd_flows (f : t -> t) :
  (forall c, pump (f c) = pump c /\ queue (f c) = queue c) -> does flows (upd f).
Proof.
  intros Hf w. apply does_at_mod. destruct (Hf (cl w)) as [E1 E2].
  apply flows_eq; [cbn; by rewrite E1|done|]. unfold pending. cbn. by rewrite E1, E2, app_nil_r.
Qed.

Lemma emit_flows e : (forall m, e <> ESent m) -> (forall m, e <> EDeliver m) -> does flows (emit e).
Proof.
  intros H1 H2 w. apply does_at_emit. apply flows_eq; [done| |]; destruct e; try done; cbn; try (by rewrite app_nil_r).
  - by destruct (H2 ev).
  - by destruct (H1 m).
Qed.

Lemma fail_flows e : does flows (fail e).
Proof.
  intros w. unfold fail. apply does_at_read. destruct (done (cl w)); [apply does_at_ret; apply _|].
  apply does_at_call; [apply _|by apply upd_flows|]. intros _ w'. by apply does_of, emit_flows.
Qed.

Lemma readStop_flows e : does flows (readStop e).
Proof. intros w. apply does_at_call; [apply _|apply fail_flows|]. intros _ w'. by apply does_of, upd_flows. Qed.

Lemma send_flows cmd ok : does flows (sendWrite cmd ok).
Proof.
  intros w. unfold sendWrite. apply does_at_read.
  destruct (negb (checkLine cmd)); [by apply does_of, emit_flows|].
  destruct (done (cl w)); [by apply does_of, emit_flows|].
  apply does_at_call; [apply _|by apply emit_flows|]. intros _ w'. destruct ok.
  - apply does_at_mod. apply flows_eq; [done|done|]. unfold pending. cbn. by rewrite app_nil_r.
  - apply does_at_call; [apply _|apply fail_flows|]. intros _ w2. by apply does_of, emit_flows.
Qed.

Lemma sendEnd_flows n cmd by_ : does flows (sendEnd n cmd by_).
Proof.
  intros w. unfold sendEnd. apply does_at_read. destruct by_.
  - destruct (replies (cl w)); [|apply does_at_ret; apply _].
    apply does_at_call; [apply _|by apply upd_flows|]. intros _ w'. by apply does_of, emit_flows.
  - destruct (done (cl w)); [|apply does_at_ret; apply _].
    apply does_at_call; [apply _|by apply upd_flows|]. intros _ w'. by apply does_of, emit_flows.
  - apply does_at_call; [apply _|apply fail_flows|]. intros _ w'.
    apply does_at_call; [apply _|by apply upd_flows|]. intros _ w2. by apply does_of, emit_flows.
Qed.

Lemma pump_flows stop : does flows (pumpStep stop).
Proof.
  intros w. unfold pumpStep, upd, emit. apply does_at_read.
  destruct (pump (cl w)) as [|[|ev l]| |] eqn:Hp.
  - apply does_at_mod, flows_eq; [by rewrite Hp|done|]. unfold pending. cbn. by rewrite Hp, app_nil_r.
  - apply does_at_mod, flows_eq; [by rewrite Hp|done|]. unfold pending. cbn. by rewrite Hp, app_nil_r.
  - destruct (match done (cl w) with Some _ => stop | None => false end).
    + apply does_at_mod. unfold flows. rewrite Hp. cbn. split_and!; [done|done|]. intros _. eexists. reflexivity.
    + unfold does_at. rewrite mout_seq, mstate_seq, mout_mod, mstate_mod, mout_emit, mstate_emit. unfold flows, pending. rewrite Hp. cbn.
      split_and!; [done|intros _; by rewrite app_nil_r|]. intros _. eexists. reflexivity.
  - destruct (match done (cl w) with Some _ => stop | None => false end).
    + apply does_at_mod. unfold flows. rewrite Hp. cbn. split_and!; [done|done|]. intros _. eexists. reflexivity.
    + apply does_at_when; [apply _|]. intros _. apply does_at_mod, flows_eq; [by rewrite Hp|done|].
      unfold pending. cbn. by rewrite Hp, app_nil_r.
  - apply does_at_ret. apply _.
Qed.

Lemma read_flows m r w :
  wire w = m :: r -> does_at flows (mmod (fun w => w <| wire := r |>) ;; readOne ReadMIMEHeader m)%m w.
Proof.
  intros Hw. unfold does_at. rewrite mout_seq, mstate_seq, mout_mod, mstate_mod. set (w1 := w <| wire := r |>).
  assert (Hp : pending w = taken (pump (cl w)) ++ queue (cl w) ++ option_list (event_of m) ++ events r).
  { unfold pending. rewrite Hw. cbn. by destruct (event_of m). }
  assert (H1 : event_of m = None -> flows w [] w1).
  { intros He. apply flows_eq; [done|done|]. rewrite Hp, He. cbn. by rewrite app_nil_r. }
  unfold readOne, upd. rewrite mout_read_seq, mstate_read_seq. unfold event_of in Hp, H1.
  destruct (is_reply m); [eapply step_app; [by apply H1|]; destruct (replies (cl w1)); [apply readStop_flows|by apply upd_flows]|].
  destruct (bool_decide (ContentType m = bs "text/event-plain")).
  - destruct (readMessage ReadMIMEHeader (Body m)) as [[ev rest]|]; [|eapply step_app; [by apply H1|]; apply readStop_flows].
    rewrite mout_mod, mstate_mod. apply flows_eq; [done|done|]. rewrite Hp. unfold pending. cbn.
    by rewrite app_nil_r, <- app_assoc.
  - eapply step_app; [by apply H1|]. destruct (bool_decide _); [apply readStop_flows|apply does_at_ret; apply _].
Qed.

Lemma sent_flows m w :
  does_at flows (mmod (fun w => w <| wire ::= fun l => l ++ [m] |>) ;; emit (ESent m))%m w.
Proof.
  unfold does_at, emit. rewrite mout_seq, mstate_seq, mout_mod, mstate_mod, mout_emit, mstate_emit.
  apply flows_eq; [done|done|]. unfold pending, events. cbn. rewrite omap_app. cbn.
  destruct (event_of m); rewrite <- ?app_assoc; done.
Qed.

Lemma step_flows l : does flows (step l).
Proof.
  intros w. unfold Esl.step. apply does_at_read. destruct l.
  - apply does_at_when; [apply _|]. intros _. apply send_flows.
  - destruct (sending (cl w)) as [[n cmd]|]; [apply sendEnd_flows|apply does_at_ret; apply _].
  - destruct (unanswered w) as [|[n cmd] r] eqn:Hu; [apply does_at_ret; apply _|].
    unfold does_at, emit. rewrite mout_seq, mstate_seq, mout_mod, mstate_mod, mout_emit, mstate_emit.
    apply flows_eq; [done|done|]. unfold pending, events. cbn. rewrite omap_app. cbn.
    destruct (event_of (answer n cmd)); rewrite <- ?app_assoc; done.
  - apply does_at_when; [apply _|]. intros _. apply sent_flows.
  - destruct (reader (cl w)), (wire w) as [|m r] eqn:Hw; try (apply does_at_ret; apply _). by apply read_flows.
  - destruct (reader (cl w)); try (apply does_at_ret; apply _). apply readStop_flows.
  - destruct (reader (cl w)); try (apply does_at_ret; apply _). by apply upd_flows.
  - apply pump_flows.
  - apply fail_flows.
Qed.

Lemma run_flows ls : does flows (run ls).
Proof.
  induction ls as [|l ls IH]; intros w; cbn [Esl.run]; [apply does_at_ret; apply _|].
  apply does_at_call; [apply _|apply step_flows|]. intros _ w'. apply IH.
Qed.

(** *** No event is left waiting

    The pump sleeps on [qReady]; events are queued before it is signalled. *)
Definition awake (w : world) : Prop :=
  queue (cl w) = [] \/ qReady (cl w) = true \/ reader (cl w) = RSignal \/ pump (cl w) = PTake \/ pump (cl w) = PEnd.

Definition wakes (w : world) (_ : list effect) (w' : world) : Prop :=
  (done (cl w) = None -> pump (cl w) <> PEnd) /\ awake w -> (done (cl w') = None -> pump (cl w') <> PEnd) /\ awake w'.

#[global] Instance wakes_rel : StepRel wakes.
Proof. split; unfold wakes; auto. Qed.

Lemma upd_wakes (f : t -> t) :
  (forall c, pump (f c) = pump c /\ queue (f c) = queue c /\ qReady (f c) = qReady c /\
             (reader (f c) = reader c \/ reader c <> RSignal) /\ (done (f c) = None -> done c = None)) -> does wakes (upd f).
Proof.
  intros Hf w. apply does_at_mod. destruct (Hf (cl w)) as (E1 & E2 & E3 & E4 & E5). unfold wakes, awake. cbn.
  rewrite E1, E2, E3. destruct E4 as [-> |]; naive_solver.
Qed.

Lemma emit_wakes e : does wakes (emit e).
Proof. intros w. apply does_at_emit. exact (fun H => H). Qed.

Lemma fail_wakes e : does wakes (fail e).
Proof.
  intros w. unfold fail. apply does_at_read. destruct (done (cl w)); [apply does_at_ret; apply _|].
  apply does_at_call; [apply _| |intros _; apply emit_wakes]. apply upd_wakes. cbn. intuition congruence.
Qed.

Lemma fail_reader e w : reader (cl (mstate (fail e) w)) = reader (cl w).
Proof. unfold fail. rewrite mstate_read_seq. by destruct (done (cl w)). Qed.

Lemma readStop_wakes e w : reader (cl w) = RRead -> does_at wakes (readStop e) w.
Proof.
  intros Hr. unfold readStop. apply does_at_seq; [apply _|apply fail_wakes|]. unfold upd. apply does_at_mod.
  unfold wakes, awake. cbn. pose proof (fail_reader e w) as Hf. rewrite Hr in Hf. rewrite Hf. intuition congruence.
Qed.

Lemma step_wakes l : does wakes (step l).
Proof.
  intros w. unfold Esl.step. apply does_at_read. destruct l.
  - apply does_at_when; [apply _|]. intros _. unfold sendWrite. apply does_at_read.
    destruct (negb (checkLine cmd)); [by apply does_of, emit_wakes|]. destruct (done (cl w)) eqn:Hd; [by apply does_of, emit_wakes|].
    apply does_at_call; [apply _|apply emit_wakes|]. intros _ w'. destruct ok; [apply does_at_mod; exact (fun H => H)|].
    apply does_at_call; [apply _|apply fail_wakes|]. intros _. apply emit_wakes.
  - destruct (sending (cl w)) as [[n cmd]|]; [|apply does_at_ret; apply _]. unfold sendEnd. apply does_at_read.
    destruct by_; [destruct (replies (cl w))|destruct (done (cl w))|]; try (apply does_at_ret; apply _).
    1,2: apply does_at_call; [apply _|apply upd_wakes; cbn; intuition congruence|intros _; apply emit_wakes].
    apply does_at_call; [apply _|apply fail_wakes|intros _ w'].
    apply does_at_call; [apply _|apply upd_wakes; cbn; intuition congruence|intros _; apply emit_wakes].
  - destruct (unanswered w) as [|[n cmd] r]; [apply does_at_ret; apply _|].
    apply does_at_call; [apply _|intros w'; apply does_at_mod; exact (fun H => H)|intros _; apply emit_wakes].
  - apply does_at_when; [apply _|]. intros _.
    apply does_at_call; [apply _|intros w'; apply does_at_mod; exact (fun H => H)|intros _; apply emit_wakes].
  - destruct (reader (cl w)) eqn:Hr, (wire w) as [|m r]; try (apply does_at_ret; apply _).
    apply does_at_mod_seq; [apply _|exact (fun H => H)|]. unfold readOne, upd. apply does_at_read. cbn [cl].
    set (w1 := w <| wire := r |>). assert (Hr1 : reader (cl w1) = RRead) by done.
    repeat case_match; try (by apply readStop_wakes); try (apply does_at_ret; apply _).
    + apply does_at_mod. exact (fun H => H).
    + apply does_at_mod. unfold wakes, awake. cbn. tauto.
  - destruct (reader (cl w)) eqn:Hr; try (apply does_at_ret; apply _). by apply readStop_wakes.
  - destruct (reader (cl w)) eqn:Hr; try (apply does_at_ret; apply _). apply does_at_mod. unfold wakes, awake. cbn. tauto.
  - unfold pumpStep, upd. apply does_at_read. destruct (pump (cl w)) as [|[|ev q]| |] eqn:Hp; try (apply does_at_ret; apply _).
    + apply does_at_mod. unfold wakes, awake. cbn. rewrite Hp. intuition congruence.
    + apply does_at_mod. unfold wakes, awake. cbn. rewrite Hp. intuition congruence.
    + destruct (done (cl w)) as [e|] eqn:Hd; [destruct stop|].
      1: apply does_at_mod; unfold wakes, awake; cbn; rewrite Hd; intuition congruence.
      1,2: apply does_at_mod_seq; [apply _| |apply emit_wakes]; unfold wakes, awake; cbn; rewrite Hp; intuition congruence.
    + destruct (done (cl w)) as [e|] eqn:Hd; [destruct stop|].
      1: apply does_at_mod; unfold wakes, awake; cbn; rewrite Hd; intuition congruence.
      1,2: apply does_at_when; [apply _|]; intros Hq; apply does_at_mod; unfold wakes, awake; cbn; rewrite Hp; intuition congruence.
  - apply fail_wakes.
Qed.

Lemma run_wakes ls : does wakes (run ls).
Proof.
  induction ls as [|l ls IH]; intros w; cbn [Esl.run]; [apply does_at_ret; apply _|].
  apply does_at_call; [apply _|apply step_wakes|]. intros _ w'. apply IH.
Qed.

Lemma esl_run_app l1 l2 w :
  mstate (run (l1 ++ l2)) w = mstate (run l2) (mstate (run l1) w) /\
  mout (run (l1 ++ l2)) w = mout (run l1) w ++ mout (run l2) (mstate (run l1) w).
Proof.
  revert w. induction l1 as [|l l1 IH]; intros w; [done|]. cbn [app Esl.run].
  rewrite !mstate_seq, !mout_seq. destruct (IH (mstate (step l) w)) as [-> ->]. by rewrite app_assoc.
Qed.

(** The pump alone, the connection up. *)
Definition pumps (k : nat) : list label := replicate k (LPump false).

Lemma pump_queue l w :
  pump (cl w) = PDeliver l ->
  delivered (mout (run (pumps (S (length l)))) w) = l /\
  mstate (run (pumps (S (length l)))) w = w <| cl ::= fun c => c <| pump := PWait |> |>.
Proof.
  revert w. induction l as [|ev l IH]; intros w Hp.
  - cbn [length pumps replicate Esl.run]. rewrite mstate_seq, mout_seq.
    assert (Hs : mstate (step (LPump false)) w = w <| cl ::= fun c => c <| pump := PWait |> |> /\ mout (step (LPump false)) w = []).
    { unfold Esl.step, pumpStep, upd. rewrite mstate_read_seq, mout_read_seq, mstate_read_seq, mout_read_seq, Hp. done. }
    by destruct Hs as [-> ->].
  - change (pumps (S (length (ev :: l)))) with (LPump false :: pumps (S (length l))). cbn [Esl.run].
    rewrite mstate_seq, mout_seq.
    assert (Hs : mstate (step (LPump false)) w = w <| cl ::= fun c => c <| pump := PDeliver l |> |> /\
                 mout (step (LPump false)) w = [EDeliver ev]).
    { unfold Esl.step, pumpStep, upd, emit. rewrite mstate_read_seq, mout_read_seq, mstate_read_seq, mout_read_seq, Hp.
      destruct (done (cl w)); rewrite mstate_seq, mout_seq; done. }
    destruct Hs as [-> ->]. destruct (IH (w <| cl ::= fun c => c <| pump := PDeliver l |> |>)) as [Ho ->]; [reflexivity|].
    split; [|done]. unfold delivered in *. rewrite omap_app, Ho. done.
Qed.

Lemma pump_take w :
  pump (cl w) = PTake ->
  exists k, delivered (mout (run (pumps k)) w) = queue (cl w).
Proof.
  intros Hp. exists (S (S (length (queue (cl w))))).
  change (pumps (S ?k)) with (LPump false :: pumps k). cbn [Esl.run]. rewrite mout_seq.
  assert (Hs : mstate (step (LPump false)) w = w <| cl ::= fun c => c <| pump := PDeliver (queue c) |> <| queue := [] |> |> /\
               mout (step (LPump false)) w = []).
  { unfold Esl.step, pumpStep, upd. rewrite mstate_read_seq, mout_read_seq, mstate_read_seq, mout_read_seq, Hp. done. }
  destruct Hs as [-> ->]. by apply pump_queue.
Qed.

Lemma pump_drains w :
  done (cl w) = None -> pump (cl w) <> PEnd -> awake w -> reader (cl w) = RRead ->
  exists k, delivered (mout (run (pumps k)) w) = taken (pump (cl w)) ++ queue (cl w).
Proof.
  intros Hd Hend Ha Hr.
  assert (Hwait : forall w, done (cl w) = None -> pump (cl w) = PWait -> queue (cl w) = [] \/ qReady (cl w) = true ->
                  exists k, delivered (mout (run (pumps k)) w) = queue (cl w)).
  { intros v Hv Hp [Hq|Hq]; [exists 0%nat; by rewrite Hq|].
    assert (Hs : mstate (step (LPump false)) v = v <| cl ::= fun c => c <| qReady := false |> <| pump := PTake |> |> /\
                 mout (step (LPump false)) v = []).
    { unfold Esl.step, pumpStep, upd. rewrite mstate_read_seq, mout_read_seq, mstate_read_seq, mout_read_seq, Hp, Hv, Hq. done. }
    destruct Hs as [Es Eo]. destruct (pump_take (mstate (step (LPump false)) v)) as [k Hk]; [by rewrite Es|].
    exists (S k). change (pumps (S k)) with (LPump false :: pumps k). cbn [Esl.run]. rewrite mout_seq, Eo, Es in *. exact Hk. }
  destruct (pump (cl w)) as [|l| |] eqn:Hp; [by apply pump_take| | |done].
  - destruct (pump_queue l w Hp) as [Ho Es].
    destruct (Hwait (w <| cl ::= fun c => c <| pump := PWait |> |>)) as [k Hk]; [exact Hd|reflexivity| |].
    { unfold awake in Ha. rewrite Hr, Hp in Ha. cbn. naive_solver. }
    exists (S (length l) + k)%nat. assert (Hk' : pumps (S (length l) + k) = pumps (S (length l)) ++ pumps k) by apply replicate_add.
    rewrite Hk'. destruct (esl_run_app (pumps (S (length l))) (pumps k) w) as [_ ->].
    unfold delivered in *. by rewrite omap_app, Ho, Es, Hk.
  - apply Hwait; [done|done|]. unfold awake in Ha. rewrite Hr, Hp in Ha. naive_solver.
Qed.

(** Over any run, what the consumer has got is a prefix of the events
    FreeSWITCH sent, in its order, none twice; and while the connection is up
    none is left behind: once what was sent is read, the pump's own steps
    deliver all of it. *)
Theorem events_in_order ls :
  let w := mstate (run ls) world0 in
  let o := mout (run ls) world0 in
  (exists rest, events (sent o) = delivered o ++ rest) /\
  (done (cl w) = None -> reader (cl w) = RRead -> wire w = [] ->
   exists k, delivered (mout (run (ls ++ pumps k)) world0) = events (sent o)).
Proof.
  intros w o. destruct (run_flows ls world0) as (_ & Hall & Hpre). 
  change (pending world0) with ([] : list Message) in Hall, Hpre. cbn [app] in Hall, Hpre.
  split; [by apply Hpre|]. intros Hd Hr Hw.
  destruct (run_wakes ls world0) as [Hend Ha]; [by split; [|left]|].
  destruct (pump_drains w Hd (Hend Hd) Ha Hr) as [k Hk]. exists k.
  destruct (esl_run_app ls (pumps k) world0) as [_ ->]. fold w o in Hall |- *. unfold delivered in *. rewrite omap_app, Hk.
  rewrite (Hall (Hend Hd)). unfold pending. rewrite Hw. cbn. by rewrite app_nil_r.
Qed.
End spec.

(** ** Commands cannot be forged

    FreeSWITCH ends a command at a blank line. *)
Fixpoint commands (cur s : bytes) : list bytes :=
  match s with
  | 10 :: 10 :: r => cur :: commands [] r
  | c :: r => commands (cur ++ [c]) r
  | [] => match cur with [] => [] | _ => [cur] end
  end.

Lemma commands_line cur cmd s :
  checkLine cmd = true -> commands cur (cmd ++ [10; 10] ++ s) = (cur ++ cmd) :: commands [] s.
Proof.
  unfold checkLine. rewrite negb_true_iff. revert cur. induction cmd as [|c cmd IH]; intros cur H.
  { by rewrite app_nil_r. }
  cbn [existsb] in H. apply orb_false_iff in H as [Hc H]. apply orb_false_iff in Hc as [_ Hc%Z.eqb_neq].
  transitivity (commands (cur ++ [c]) (cmd ++ [10; 10] ++ s)); [|by rewrite IH, <- app_assoc].
  cbn [app commands]. destruct c as [|p|p]; try done.
  repeat (destruct p as [p|p|]; try done; try lia).
Qed.

(** The bytes written. *)
Definition written_bytes (o : list effect) : bytes :=
  o ≫= fun e => match e with EWrite line => line | _ => [] end.

(** The commands whose write was begun: [ok] says whether it succeeded. *)
Section forge.
Variable ReadMIMEHeader : bytes -> option (Header * bytes).
Variable answer : nat -> bytes -> Message.

Definition written_lines (o : list effect) : list bytes :=
  omap (fun e => match e with EWrite line => Some (take (length line - 2) line) | _ => None end) o.

Definition clean (o : list effect) : Prop :=
  Forall (fun e => match e with EWrite line => exists cmd, checkLine cmd = true /\ line = cmd ++ [10; 10] | _ => True end) o.

Definition cleans (_ : world) (o : list effect) (_ : world) : Prop := clean o.
#[local] Instance cleans_rel : StepRel cleans.
Proof. split; [constructor|]. intros ????? H1 H2. by apply Forall_app. Qed.

Lemma emit_cleans e : (forall l, e <> EWrite l) -> does cleans (emit e).
Proof. intros He w. apply does_at_emit. constructor; [destruct e; try done; by destruct (He line)|constructor]. Qed.
Lemma upd_cleans f : does cleans (upd f).
Proof. intros w. apply does_at_mod. constructor. Qed.
Lemma mod_cleans f : does (A := unit) cleans (mmod f).
Proof. intros w. apply does_at_mod. constructor. Qed.
#[local] Hint Resolve upd_cleans mod_cleans : does.
#[local] Hint Extern 1 (does cleans (emit _)) => (apply emit_cleans; discriminate) : does.

Lemma fail_cleans e : does cleans (fail e).
Proof. unfold fail. does_auto ltac:(idtac; constructor). Qed.
#[local] Hint Resolve fail_cleans : does.

Lemma send_cleans cmd ok : does cleans (sendWrite cmd ok).
Proof.
  intros w. unfold sendWrite. apply does_at_read. destruct (checkLine cmd) eqn:Hc; cbn [negb]; [|by apply does_of, emit_cleans].
  destruct (done (cl w)); [by apply does_of, emit_cleans|]. unfold emit.
  apply does_at_emit_seq; [apply _|constructor; [by exists cmd|constructor]|].
  destruct ok; [apply mod_cleans|]. apply does_at_call; [apply _|apply fail_cleans|]. intros _. by apply emit_cleans.
Qed.
#[local] Hint Resolve send_cleans : does.

Lemma run_cleans ls : does cleans (run ReadMIMEHeader answer ls).
Proof.
  induction ls as [|l ls IH]; intros w; cbn [run]; [apply does_at_ret; apply _|].
  apply does_at_call; [apply _| |intros _ w'; apply IH].
  unfold step, sendEnd, readOne, readStop, pumpStep, Close. does_auto ltac:(idtac; constructor).
Qed.

(** Whatever the arguments of the commands hold, FreeSWITCH reads from the
    connection exactly the commands sent, one each: none with a line break is
    written, so no argument can start a second command. *)
Theorem commands_not_forged ls :
  let o := mout (run ReadMIMEHeader answer ls) world0 in
  commands [] (written_bytes o) = written_lines o /\ Forall (fun cmd => checkLine cmd = true) (written_lines o).
Proof.
  intros o. pose proof (run_cleans ls world0 : clean o) as H. clearbody o.
  induction H as [|e o He _ [IH1 IH2]]; [by split|]. destruct e; try (by split).
  destruct He as (cmd & Hc & ->).
  change (written_bytes (EWrite (cmd ++ [10; 10]) :: o)) with ((cmd ++ [10; 10]) ++ written_bytes o).
  change (written_lines (EWrite (cmd ++ [10; 10]) :: o))
    with (take (length (cmd ++ [10; 10]) - 2) (cmd ++ [10; 10]) :: written_lines o).
  rewrite length_app, Nat.add_sub, take_app_length, <- app_assoc, commands_line, IH1 by done. by split; [|constructor].
Qed.
End forge.

(** ** Runs *)

(** Headers as the tests' FreeSWITCH sends them: the bytes are the content type. *)
Definition plain_header (s : bytes) : option (Header * bytes) := Some ([(bs "Event-Name", s)], []).
Definition reply_n (n : nat) (_ : bytes) : Message := mkMessage [(bs "Content-Type", bs "api/response")] [Z.of_nat n].
Definition event_msg (name : bytes) : Message := mkMessage [(bs "Content-Type", bs "text/event-plain")] name.

(** Two commands with events in between, the first's context expiring: its late
    reply reaches nobody. *)
Example late_reply :
  omap (fun e => match e with EReturn n _ r => Some (n, r) | _ => None end)
    (mout (run plain_header reply_n
      [LSend (bs "api status") true; LPush (event_msg (bs "A")); LSendEnd Expired; LServe; LRead; LSignal; LRead;
       LSend (bs "api version") true]) world0) = [(0%nat, Err NoReply)].
Proof. reflexivity. Qed.

Example events_run :
  delivered (mout (run plain_header reply_n
    [LPush (event_msg (bs "A")); LRead; LPump false; LSignal; LPush (event_msg (bs "B")); LRead; LSignal;
     LSend (bs "api status") true; LServe; LRead; LSendEnd GotReply; LPump false; LPump false; LPump false;
     LPump false; LPump false]) world0)
  = [mkMessage [(bs "Event-Name", bs "A")] []; mkMessage [(bs "Event-Name", bs "B")] []].
Proof. reflexivity. Qed.

(** A reply nobody asked for is not noticed: it is kept, and is returned for the
    next command before FreeSWITCH has read it. *)
Example unasked_reply :
  omap (fun e => match e with EReturn n _ r => Some (n, r) | _ => None end)
    (mout (readOne plain_header (reply_n 7 []) ;; run plain_header reply_n [LSend (bs "api status") true; LSendEnd GotReply])%m
       world0) = [(0%nat, Ok (reply_n 7 []))].
Proof. reflexivity. Qed.
