(* ===== verification/FreeSwitch.v ===== *)
(** [internal/freeswitch/manager.go]: the FreeSWITCH calls of the process: how
    one is accepted, what ends it, and that its channel is not left up.

    A call's goroutines, the event socket's loop, its timers and [Run]'s shutdown
    take steps over one [Manager]. The media pipeline (file FramedCall) runs
    until the call's context ends; what it reports (read done, dead) is a step.
    Parsing [X-Earshot-Meta] and what [logStatus] makes of its answer (a log line)
    are left out. *)

From Stdlib Require Import String.
From S2P Require Import Prelude Text Esl.

Local Open Scope Z_scope.

Definition second : Z := 1000000000.
Definition eslMaxBackoff : Z := 30 * second.

(** ** Patterns *)

Definition hex (c : Z) : bool := match unhex c with Some _ => true | None => false end.

(** [channelUUID]: groups of 8, 4, 4, 4 and 12 hex digits. *)
Fixpoint uuid_groups (gs : list nat) (s : bytes) : bool :=
  match gs with
  | [] => false
  | [n] => (length s =? n)%nat && forallb hex s
  | n :: r =>
      (length (take n s) =? n)%nat && forallb hex (take n s) &&
      match drop n s with 45 :: t => uuid_groups r t | _ => false end
  end.
Definition channelUUID (s : bytes) : bool := uuid_groups [8; 4; 4; 4; 12]%nat s.

(** [phoneNumberRE], [phoneNumber]. *)
Definition phone_char (c : Z) : bool := between 48 c 57 || (c =? 42) || (c =? 35).
Definition phoneNumberRE (s : bytes) : bool :=
  let d := match s with 43 :: r => r | _ => s end in
  (1 <=? length d)%nat && (length d <=? 32)%nat && forallb phone_char d.
Definition phoneNumber (n : bytes) : bytes := if phoneNumberRE n then n else [].

(** ** The manager *)

(** Why a call ended: its context's cause; [Released] is [cancel(nil)]. *)
Inductive cause := Hangup | WSClosed | MediaDead | MaxDuration | Shutdown | Released.

(** Registered, its media running, its media over and its channel seen to, gone
    from the table. *)
Inductive stage := Registered | Running | Over | Gone.

#[global] Instance cause_dec : EqDecision cause.
Proof. solve_decision. Defined.
#[global] Instance stage_dec : EqDecision stage.
Proof. solve_decision. Defined.

Record call := mkCall { c_id : bytes; c_cause : option cause; c_stage : stage; c_readDone : bool }.

#[global] Instance eta_call : Eta call := fun c => mkCall (c_id c) (c_cause c) (c_stage c) (c_readDone c).

Record Config := mkConfig { EarshotAuthToken : bytes; MaxCallDuration : Z }.

(** [Manager]; call objects by their number; [CallsActive] is the gauge. *)
Record Manager := mkManager {
  esl : bool; calls : gmap bytes nat; closing : bool; wg : Z;
  objects : gmap nat call; next : nat; CallsActive : Z;
}.

#[global] Instance eta_Manager : Eta Manager := fun m =>
  mkManager (esl m) (calls m) (closing m) (wg m) (objects m) (next m) (CallsActive m).

Definition New : Manager := mkManager false ∅ false 0 ∅ 0 0.

Inductive effect :=
  | EHttp (code : Z)
  | ERegistered (p : nat) (id : bytes)
  | ECommand (cmd : bytes)
  | ELost (cmd : bytes)
  | EReported (id : bytes)
  | EEnded (p : nat) (id : bytes) (why : cause).

Definition act (A : Type) : Type := M Manager effect A.
Definition upd (f : Manager -> Manager) : act unit := mmod f.
Definition emit (e : effect) : act unit := memit e.

Local Open Scope m_scope.

(** [Connected]. *)
Definition Connected (m : Manager) : bool := esl m.

(** [api]: lost without a connection. *)
Definition api (cmd : bytes) : act unit :=
  let! m := mread in emit (if esl m then ECommand cmd else ELost cmd).

Definition killLine (id : bytes) : bytes := bs "uuid_kill " ++ id ++ bs " NORMAL_CLEARING".
Definition statusLine (id : bytes) : bytes := bs "earshot " ++ id ++ bs " status".   (* logStatus's question *)
Definition hangup (id : bytes) : act unit := api (killLine id).

(** [cancel]: the first cause stays. *)
Definition cancel_call (why : cause) (c : call) : call :=
  match c_cause c with None => c <| c_cause := Some why |> | Some _ => c end.
Definition cancel (p : nat) (why : cause) : act unit :=
  upd (fun m => m <| objects ::= alter (cancel_call why) p |>).

Definition set_stage (p : nat) (s : stage) : act unit :=
  upd (fun m => m <| objects ::= alter (fun c => c <| c_stage := s |>) p |>).

(** [register]. *)
Definition register (id : bytes) : act (option nat) :=
  let! m := mread in
  if closing m then mret None
  else
    match calls m !! id with
    | Some _ => mret None
    | None =>
        upd (fun m => m <| calls ::= <[id := next m]> |> <| objects ::= <[next m := mkCall id None Registered false]> |>
                        <| next ::= S |> <| wg ::= Z.succ |>) ;;
        emit (ERegistered (next m) id) ;;
        mret (Some (next m))
    end.

(** [unregister]. *)
Definition unregister (p : nat) (id : bytes) : act unit :=
  cancel p Released ;;
  upd (fun m => m <| calls ::= delete id |> <| wg ::= Z.pred |>) ;;
  set_stage p Gone.

(** A request for [ServeHTTP]: what its handler looks at. *)
Record request := mkRequest { Path : bytes; Authorization : bytes; XChannelUUID : bytes }.

(** [ServeHTTP], up to the upgrade. *)
Definition ServeHTTP (cfg : Config) (r : request) : act unit :=
  if negb (bool_decide (Path r = bs "/call")) then emit (EHttp 404)
  else if negb (bool_decide (EarshotAuthToken cfg = [])) && negb (bool_decide (Authorization r = EarshotAuthToken cfg)) then
    emit (EHttp 401)
  else if negb (channelUUID (XChannelUUID r)) then emit (EHttp 400)
  else
    let! p := register (XChannelUUID r) in
    match p with None => emit (EHttp 409) | Some _ => mret tt end.

(** Its rest: [runCall] up to [asm.Run], or [unregister] when the upgrade fails. *)
Definition upgraded (p : nat) (id : bytes) (ok : bool) : act unit :=
  if ok then upd (fun m => m <| CallsActive ::= Z.succ |>) ;; set_stage p Running
  else unregister p id.

(** [runCall] after [asm.Run]. *)
Definition runEnds (p : nat) (id : bytes) (why : cause) : act unit :=
  mwhen (negb (bool_decide (why = Hangup))) (hangup id) ;;
  emit (EEnded p id why) ;;
  set_stage p Over.

(** Its deferred calls. *)
Definition runReturns (p : nat) (id : bytes) : act unit :=
  upd (fun m => m <| CallsActive ::= Z.pred |>) ;; unregister p id.

(** [onEvent]; [go m.hangup(id)] is a step of its own goroutine, taken at once. *)
Definition onEvent (name id : bytes) : act unit :=
  let! m := mread in
  if bool_decide (name = bs "CHANNEL_HANGUP") then
    match calls m !! id with Some p => emit (EReported id) ;; cancel p Hangup | None => mret tt end
  else if bool_decide (name = bs "earshot::error") then
    match calls m !! id with
    | Some _ => mret tt
    | None => mwhen (channelUUID id) (hangup id)
    end
  else mret tt.

(** [Run], once its context ends. *)
Fixpoint cancelAll (l : list nat) (why : cause) : act unit :=
  match l with [] => mret tt | p :: r => cancel p why ;; cancelAll r why end.
Definition shutdown : act unit :=
  upd (fun m => m <| closing := true |>) ;;
  let! m := mread in cancelAll (map snd (map_to_list (calls m))) Shutdown.

(** [eslLoop]: the wait before the next attempt and the back-off after one that
    fails; one that succeeds starts it again at a second. *)
Definition eslAttempt (backoff : Z) (ok : bool) : option Z * Z :=
  if ok then (None, second) else (Some backoff, Z.min (backoff * 2) eslMaxBackoff).

Fixpoint eslWaits (backoff : Z) (attempts : list bool) : list (option Z) :=
  match attempts with
  | [] => []
  | ok :: r => let '(w, b) := eslAttempt backoff ok in w :: eslWaits b r
  end.

(** ** Steps *)

Inductive label :=
  | LConnect (r : request)
  | LUpgrade (p : nat) (ok : bool)
  | LEvent (name id : bytes)
  | LReadDone (p : nat) | LGrace (p : nat) | LDead (p : nat) | LTimer (p : nat)
  | LAgentHangup (p : nat) | LStatus (p : nat)
  | LRunEnds (p : nat) | LRunReturns (p : nat)
  | LSocket (up : bool)
  | LShutdown.

Definition with_call (p : nat) (ok : call -> bool) (k : call -> act unit) : act unit :=
  let! m := mread in
  match objects m !! p with Some c => mwhen (ok c) (k c) | None => mret tt end.

Definition at_stage (s : stage) (c : call) : bool := bool_decide (c_stage c = s).
Definition cancelled (c : call) : bool := negb (bool_decide (c_cause c = None)).

Definition step (cfg : Config) (l : label) : act unit :=
  match l with
  | LConnect r => ServeHTTP cfg r
  | LUpgrade p ok => with_call p (at_stage Registered) (fun c => upgraded p (c_id c) ok)
  | LEvent name id => let! m := mread in mwhen (esl m) (onEvent name id)
  | LReadDone p => with_call p (at_stage Running) (fun _ => upd (fun m => m <| objects ::= alter (fun c => c <| c_readDone := true |>) p |>))
  | LGrace p => with_call p (fun c => at_stage Running c && c_readDone c) (fun _ => cancel p WSClosed)
  | LDead p => with_call p (at_stage Running) (fun _ => cancel p MediaDead)
  | LTimer p => with_call p (fun c => (0 <? MaxCallDuration cfg) && negb (at_stage Gone c)) (fun _ => cancel p MaxDuration)
  | LAgentHangup p => with_call p (at_stage Running) (fun c => hangup (c_id c))
  | LStatus p => with_call p (fun c => at_stage Running c && negb (cancelled c)) (fun c => api (statusLine (c_id c)))
  | LRunEnds p =>
      with_call p (at_stage Running) (fun c => match c_cause c with Some why => runEnds p (c_id c) why | None => mret tt end)
  | LRunReturns p => with_call p (at_stage Over) (fun c => runReturns p (c_id c))
  | LSocket up => upd (fun m => m <| esl := up |>)
  | LShutdown => shutdown
  end.

Fixpoint run (cfg : Config) (ls : list label) : act unit :=
  match ls with [] => mret tt | l :: r => step cfg l ;; run cfg r end.
