(* ===== verification/FreeSwitchInv.v ===== *)
(** [internal/freeswitch/manager.go]: what every run of the manager keeps: one
    live call per channel, the counters, no channel left up without its kill
    command or its hang-up event, well-formed commands, and a shutdown that can
    always drain. *)

From Stdlib Require Import String.
From S2P Require Import Prelude Text Esl FreeSwitch.

Local Open Scope Z_scope.
Local Open Scope m_scope.

(** A live call is one of the table. *)
Definition live (c : call) : Prop := c_stage c <> Gone.
(** The calls the gauge counts. *)
Definition counted (c : call) : Prop := c_stage c = Running \/ c_stage c = Over.
#[global] Instance counted_dec c : Decision (counted c).
Proof. unfold counted. apply _. Defined.

Definition active (o : gmap nat call) : gmap nat call := filter (fun pc => counted pc.2) o.

Record inv (m : Manager) : Prop := {
  inv_table : forall id p, calls m !! id = Some p <-> exists c, objects m !! p = Some c /\ c_id c = id /\ live c;
  inv_next : forall p c, objects m !! p = Some c -> (p < next m)%nat;
  inv_ids : forall p c, objects m !! p = Some c -> channelUUID (c_id c) = true;
  inv_wg : wg m = Z.of_nat (size (calls m));
  inv_gauge : CallsActive m = Z.of_nat (size (active (objects m)));
  inv_closing : closing m = true -> forall p c, objects m !! p = Some c -> live c -> c_cause c <> None;
}.

(** What has been done: a hang-up cause was reported, an ended call's channel was
    reported gone or a kill command was issued for it just before, and commands
    name a channel by a well-formed id. *)
Definition reported (m : Manager) (o : list effect) : Prop :=
  forall p c, objects m !! p = Some c -> c_cause c = Some Hangup -> EReported (c_id c) ∈ o.

Definition kill (id : bytes) (e : effect) : Prop := e = ECommand (killLine id) \/ e = ELost (killLine id).

Definition released (o : list effect) : Prop :=
  forall o1 p id why o2, o = o1 ++ EEnded p id why :: o2 ->
    (why = Hangup /\ EReported id ∈ o1) \/ (exists o0 e, o1 = o0 ++ [e] /\ kill id e).

Definition named (e : effect) : Prop :=
  match e with
  | ECommand cmd | ELost cmd => exists id, channelUUID id = true /\ (cmd = killLine id \/ cmd = statusLine id)
  | _ => True
  end.

(** How often a call was reported ended. *)
Definition is_end (p : nat) (e : effect) : bool := match e with EEnded q _ _ => (p =? q)%nat | _ => false end.
Definition ended (p : nat) (o : list effect) : nat := length (List.filter (is_end p) o).

Definition ends_ok (s : stage) (n : nat) : Prop :=
  match s with Registered | Running => n = 0%nat | Over => n = 1%nat | Gone => (n <= 1)%nat end.

Definition counts (m : Manager) (o : list effect) : Prop :=
  (forall p c, objects m !! p = Some c -> ends_ok (c_stage c) (ended p o)) /\
  (forall p, objects m !! p = None -> ended p o = 0%nat).

Record traced (m : Manager) (o : list effect) : Prop := {
  t_inv : inv m; t_reported : reported m o; t_released : released o; t_named : Forall named o; t_counts : counts m o;
}.

Definition steps (m : Manager) (w : list effect) (m' : Manager) : Prop := forall o, traced m o -> traced m' (o ++ w).

#[global] Instance steps_rel : StepRel steps.
Proof.
  split; [intros m o; by rewrite app_nil_r|]. intros m1 w1 m2 w2 m3 H1 H2 o H. rewrite app_assoc. by apply H2, H1.
Qed.

(** *** Effects *)

Definition quiet (e : effect) : Prop := match e with EEnded _ _ _ => False | _ => True end.

Lemma released_quiet o e : quiet e -> released o -> released (o ++ [e]).
Proof.
  intros He Ho o1 p id why o2 H. destruct o2 as [|x o2 _] using rev_ind.
  - apply app_inj_tail in H as [_ ->]. done.
  - rewrite app_comm_cons, app_assoc in H. apply app_inj_tail in H as [-> _]. by eapply Ho.
Qed.

Lemma released_end o p id why :
  (why = Hangup /\ EReported id ∈ o) \/ (exists o0 e, o = o0 ++ [e] /\ kill id e) ->
  released o -> released (o ++ [EEnded p id why]).
Proof.
  intros Hc Ho o1 q id' why' o2 H. destruct o2 as [|x o2 _] using rev_ind.
  - apply app_inj_tail in H as [-> [= -> -> ->]]. exact Hc.
  - rewrite app_comm_cons, app_assoc in H. apply app_inj_tail in H as [-> _]. by eapply Ho.
Qed.

Lemma ended_app p o1 o2 : ended p (o1 ++ o2) = (ended p o1 + ended p o2)%nat.
Proof. unfold ended. by rewrite List.filter_app, length_app. Qed.

Lemma ended_quiet p e : quiet e -> ended p [e] = 0%nat.
Proof. by destruct e. Qed.

Lemma emit_steps e : quiet e -> named e -> does steps (emit e).
Proof.
  intros He Hn m. apply does_at_emit. intros o [Hi Hr Hl Ha [Hc1 Hc2]]. split; [done| | | |].
  - intros p c Hp Hcause. specialize (Hr p c Hp Hcause). set_solver.
  - by apply released_quiet.
  - apply Forall_app. by split; [|constructor].
  - split; [intros p c Hp|intros p Hp]; rewrite ended_app, (ended_quiet p e He), Nat.add_0_r; auto.
Qed.

Lemma api_steps cmd :
  (exists id, channelUUID id = true /\ (cmd = killLine id \/ cmd = statusLine id)) -> does steps (api cmd).
Proof. intros Hc m. unfold api. apply does_at_read. destruct (esl m); by apply does_of, emit_steps. Qed.

Lemma hangup_steps id : channelUUID id = true -> does steps (hangup id).
Proof. intros H. apply api_steps. exists id. auto. Qed.

(** *** Calls *)

Definition count (c : call) : nat := if decide (counted c) then 1 else 0.

Lemma active_insert p c o : size (active (<[p:=c]> o)) = (size (active (delete p o)) + count c)%nat.
Proof.
  rewrite <- insert_delete_eq. unfold active, count. rewrite map_filter_insert. cbn [snd].
  assert (Hn : filter (fun pc : nat * call => counted pc.2) (delete p o) !! p = None)
    by (apply map_lookup_filter_None; left; apply lookup_delete_eq).
  destruct (decide (counted c)); [rewrite map_size_insert_None by exact Hn; lia|].
  rewrite delete_id by apply lookup_delete_eq. lia.
Qed.

Lemma active_set p c c' o :
  o !! p = Some c -> (size (active (<[p:=c']> o)) + count c = size (active o) + count c')%nat.
Proof.
  intros Hp. rewrite <- (insert_id o p c Hp) at 2. rewrite !active_insert. lia.
Qed.

(** One call changes from [c] to [c'], the table and the counters with it; how
    often it was reported ended is judged after the change. *)
Lemma traced_set p c c' m m' o :
  inv m -> reported m o -> released o -> Forall named o ->
  (forall q x, q <> p -> objects m !! q = Some x -> ends_ok (c_stage x) (ended q o)) ->
  (forall q, objects m !! q = None -> ended q o = 0%nat) ->
  objects m !! p = Some c -> c_id c' = c_id c -> (live c' -> live c) ->
  objects m' = <[p:=c']> (objects m) -> next m' = next m -> closing m' = closing m ->
  (if decide (live c /\ c_stage c' = Gone) then calls m' = delete (c_id c) (calls m) /\ wg m' = wg m - 1
   else calls m' = calls m /\ wg m' = wg m) ->
  CallsActive m' = CallsActive m - Z.of_nat (count c) + Z.of_nat (count c') ->
  (c_cause c' = Some Hangup -> EReported (c_id c) ∈ o) ->
  (c_cause c <> None -> c_cause c' <> None) ->
  ends_ok (c_stage c') (ended p o) ->
  traced m' o.
Proof.
  intros [It In Ii Iw Ig Ic] Hr Hl Ha Hc1 Hc2 Hp Hid Hlive Ho Hn Hclo Htab Hga Hcause Hkeep Hends.
  split; [split| | | |]; try done.
  - intros id q. rewrite Ho. destruct (decide (q = p)) as [->|Hq].
    + rewrite lookup_insert_eq. destruct (decide (live c /\ c_stage c' = Gone)) as [[Hg Hg']|Hg]; destruct Htab as [-> _].
      * split.
        -- rewrite lookup_delete_Some, It. intros (Hne & x & Hx & <- & _). congruence.
        -- intros (x & [= <-] & _ & Hx). done.
      * rewrite It. split.
        -- intros (x & Hx & <- & Hxl). assert (x = c) as -> by congruence. exists c'. split_and!; [done..|].
           intros Hg'. by apply Hg.
        -- intros (x & [= <-] & <- & Hx). exists c. split_and!; [done..|]. auto.
    + rewrite lookup_insert_ne by done. rewrite <- It.
      destruct (decide (live c /\ c_stage c' = Gone)) as [[Hg _]|Hg]; destruct Htab as [-> _]; [|done].
      rewrite lookup_delete_Some. split; [tauto|]. intros H. split; [|done]. intros <-.
      assert (calls m !! c_id c = Some p) by (apply It; by exists c). congruence.
  - intros q x. rewrite Ho, Hn. intros [[<- _]|[_ Hx]]%lookup_insert_Some; by eapply In.
  - intros q x. rewrite Ho. intros [[<- <-]|[_ Hx]]%lookup_insert_Some; [rewrite Hid|]; by eapply Ii.
  - destruct (decide (live c /\ c_stage c' = Gone)) as [[Hg _]|]; destruct Htab as [-> ->]; [|done].
    assert (calls m !! c_id c = Some p) by (apply It; by exists c).
    rewrite map_size_delete_Some, Iw by done.
    assert (size (calls m) <> 0%nat) by (rewrite map_size_ne_0_lookup; eauto). lia.
  - rewrite Hga, Ig, Ho. pose proof (active_set p c c' _ Hp). lia.
  - rewrite Hclo. intros H q x. rewrite Ho. intros [[<- <-]|[_ Hx]]%lookup_insert_Some Hxl; [|by eapply Ic].
    apply Hkeep. eapply Ic; eauto.
  - intros q x. rewrite Ho. intros [[<- <-]|[_ Hx]]%lookup_insert_Some Hxc; [rewrite Hid; auto|by eapply Hr].
  - split; [|intros q; rewrite Ho; intros [Hq _]%lookup_insert_None; by apply Hc2].
    intros q x. rewrite Ho. intros [[<- <-]|[Hne Hx]]%lookup_insert_Some; [done|by apply Hc1].
Qed.

Lemma alter_some {A} (f : A -> A) p (o : gmap nat A) c : o !! p = Some c -> alter f p o = <[p := f c]> o.
Proof.
  intros H. apply map_eq. intros q. destruct (decide (p = q)) as [<-|Hq].
  - by rewrite lookup_alter_eq, lookup_insert_eq, H.
  - by rewrite lookup_alter_ne, lookup_insert_ne.
Qed.

Lemma alter_none {A} (f : A -> A) p (o : gmap nat A) : o !! p = None -> alter f p o = o.
Proof.
  intros H. apply map_eq. intros q. destruct (decide (p = q)) as [<-|Hq].
  - by rewrite lookup_alter_eq, H.
  - by rewrite lookup_alter_ne.
Qed.

Lemma count_stage c c' : c_stage c' = c_stage c -> count c' = count c.
Proof. intros H. unfold count. apply decide_ext. unfold counted. by rewrite H. Qed.

Lemma count_in c : c_stage c = Running \/ c_stage c = Over -> count c = 1%nat.
Proof. intros H. unfold count. by rewrite decide_True. Qed.
Lemma count_out c : c_stage c = Registered \/ c_stage c = Gone -> count c = 0%nat.
Proof. intros H. unfold count. rewrite decide_False; [done|]. unfold counted. intros [E|E]; rewrite E in H; by destruct H. Qed.

(** A change of a call that keeps its id and stage. *)
Lemma touch_traced f p m o :
  (forall c, c_id (f c) = c_id c /\ c_stage (f c) = c_stage c /\ (c_cause c <> None -> c_cause (f c) <> None)) ->
  (forall c, objects m !! p = Some c -> c_cause (f c) = Some Hangup -> EReported (c_id c) ∈ o) ->
  traced m o -> traced (m <| objects ::= alter f p |>) o.
Proof.
  intros Hf Hh [Hi Hr Hl Ha [Hc1 Hc2]]. destruct (objects m !! p) as [c|] eqn:Hp.
  - destruct (Hf c) as (H1 & H2 & H3). apply (traced_set p c (f c) m); simpl; auto.
    + unfold live. by rewrite H2.
    + by apply alter_some.
    + rewrite decide_False; [done|]. unfold live. rewrite H2. tauto.
    + rewrite (count_stage c (f c)) by done. lia.
    + rewrite H2. auto.
  - replace (m <| objects ::= alter f p |>) with m; [done|].
    destruct m; unfold field_update; simpl in *. by rewrite alter_none.
Qed.

Lemma cancel_call_ok why c :
  c_id (cancel_call why c) = c_id c /\ c_stage (cancel_call why c) = c_stage c /\
  (c_cause c <> None -> c_cause (cancel_call why c) <> None).
Proof. unfold cancel_call. destruct (c_cause c) eqn:E; simpl; split_and!; congruence. Qed.

Lemma cancel_call_cause why c x : c_cause (cancel_call why c) = Some x -> c_cause c = Some x \/ why = x.
Proof. unfold cancel_call. destruct (c_cause c) eqn:E; simpl; rewrite ?E; intros [= ->]; auto. Qed.

Lemma cancel_steps p why : why <> Hangup -> does steps (cancel p why).
Proof.
  intros Hw m. apply does_at_mod. intros o H. rewrite app_nil_r. apply touch_traced; [apply cancel_call_ok| |done].
  intros c Hc Hh. apply cancel_call_cause in Hh as [Hh|Hh]; [|done]. by eapply t_reported.
Qed.

Lemma readDone_steps p : does steps (upd (fun m => m <| objects ::= alter (fun c => c <| c_readDone := true |>) p |>)).
Proof.
  intros m. apply does_at_mod. intros o H. rewrite app_nil_r. apply touch_traced; [done| |done].
  intros c Hc. simpl. intros Hh. by eapply t_reported.
Qed.

(** *** The manager's operations *)

Lemma register_traced id m o :
  channelUUID id = true -> traced m o ->
  traced (mstate (register id) m) (o ++ mout (register id) m).
Proof.
  intros Hid T. unfold register. rewrite mstate_read_seq, mout_read_seq.
  destruct (closing m) eqn:Hclo; [by rewrite app_nil_r|].
  destruct (calls m !! id) eqn:Hcalls; [by rewrite app_nil_r|].
  run_state. run_out.
  destruct (emit_steps (ERegistered (next m) id) I I m o T) as [[It In Ii Iw Ig Ic] Hr Hl Ha [Hc1 Hc2]].
  set (o' := o ++ _) in *. clearbody o'. change (mstate (emit _) m) with m in *.
  unfold upd, mmod, emit, memit, mstate. simpl.
  assert (Hfree : objects m !! next m = None).
  { destruct (objects m !! next m) eqn:E; [|done]. apply In in E. lia. }
  split; [split| | | |]; unfold field_update; simpl; try done.
  - intros i p. rewrite lookup_insert_Some, It. split.
    + intros [[<- <-]|[Hi (c & Hp & Hc & Hl')]].
      * rewrite lookup_insert_eq. eexists. split_and!; [done..|]. discriminate.
      * exists c. rewrite lookup_insert_ne; [done|]. intros <-. congruence.
    + intros (c & [[<- <-]|[Hp Hc]]%lookup_insert_Some & Hi & Hl'); [by left|]. right. split; [|by eauto].
      intros <-. assert (calls m !! id = Some p) by (apply It; eauto). congruence.
  - intros p c [[<- _]|[_ Hx]]%lookup_insert_Some; [lia|]. apply In in Hx. lia.
  - intros p c [[_ <-]|[_ Hx]]%lookup_insert_Some; [done|]. by eapply Ii.
  - rewrite map_size_insert_None, Iw by done. lia.
  - rewrite active_insert, delete_id, Ig, count_out by auto. lia.
  - congruence.
  - intros p c. simpl. intros [[_ <-]|[_ Hx]]%lookup_insert_Some; [discriminate|]. by eapply Hr.
  - split; [|intros p; simpl; intros [Hp _]%lookup_insert_None; by apply Hc2].
    intros p c. simpl. intros [[<- <-]|[_ Hx]]%lookup_insert_Some; [by apply Hc2|by apply Hc1].
Qed.

(** A call moves on to stage [s], perhaps cancelled with it. *)
Lemma upgraded_traced p c ok m o :
  objects m !! p = Some c -> c_stage c = Registered -> traced m o ->
  traced (mstate (upgraded p (c_id c) ok) m) (o ++ mout (upgraded p (c_id c) ok) m).
Proof.
  intros Hp Hs [Hi Hr Hl Ha [Hc1 Hc2]].
  assert (Hn : count c = 0%nat) by (apply count_out; auto).
  assert (He : ended p o = 0%nat) by (specialize (Hc1 p c Hp); by rewrite Hs in Hc1).
  destruct ok; unfold upgraded, unregister, cancel, set_stage; run_state; run_out; rewrite app_nil_r;
    unfold upd, mmod, mstate; simpl.
  - apply (traced_set p c (c <| c_stage := Running |>) m); simpl; auto.
    + unfold live. by rewrite Hs.
    + by apply alter_some.
    + rewrite decide_False; [done|]. by intros [_ ?].
    + rewrite Hn, count_in by auto. lia.
    + intros Hh. by eapply Hr.
  - destruct (cancel_call_ok Released c) as (H1 & H2 & H3).
    apply (traced_set p c ((cancel_call Released c) <| c_stage := Gone |>) m); simpl; auto.
    + unfold live. by rewrite Hs.
    + rewrite (alter_some _ _ _ _ Hp). erewrite alter_some by apply lookup_insert_eq. by rewrite insert_insert_eq.
    + rewrite decide_True; [by split; [|lia]|]. split; [|done]. unfold live. by rewrite Hs.
    + rewrite Hn, count_out by auto. lia.
    + intros [Hh|Hh]%cancel_call_cause; [|done]. by eapply Hr.
    + lia.
Qed.

Lemma runReturns_traced p c m o :
  objects m !! p = Some c -> c_stage c = Over -> traced m o ->
  traced (mstate (runReturns p (c_id c)) m) (o ++ mout (runReturns p (c_id c)) m).
Proof.
  intros Hp Hs [Hi Hr Hl Ha [Hc1 Hc2]].
  assert (Hn : count c = 1%nat) by (apply count_in; auto).
  assert (He : ended p o = 1%nat) by (specialize (Hc1 p c Hp); by rewrite Hs in Hc1).
  unfold runReturns, unregister, cancel, set_stage; run_state; run_out; rewrite app_nil_r;
    unfold upd, mmod, mstate; simpl.
  destruct (cancel_call_ok Released c) as (H1 & H2 & H3).
  apply (traced_set p c ((cancel_call Released c) <| c_stage := Gone |>) m); simpl; auto.
  - unfold live. by rewrite Hs.
  - rewrite (alter_some _ _ _ _ Hp). erewrite alter_some by apply lookup_insert_eq. by rewrite insert_insert_eq.
  - rewrite decide_True; [by split; [|lia]|]. split; [|done]. unfold live. by rewrite Hs.
  - rewrite Hn, count_out by auto. lia.
  - intros [Hh|Hh]%cancel_call_cause; [|done]. by eapply Hr.
  - lia.
Qed.

(** The end of a call, its channel seen to. *)
Lemma end_traced p c why m o :
  objects m !! p = Some c -> c_stage c = Running ->
  (why = Hangup /\ EReported (c_id c) ∈ o) \/ (exists o0 e, o = o0 ++ [e] /\ kill (c_id c) e) ->
  traced m o ->
  traced (m <| objects ::= alter (fun c => c <| c_stage := Over |>) p |>) (o ++ [EEnded p (c_id c) why]).
Proof.
  intros Hp Hs Hc [Hi Hr Hl Ha [Hc1 Hc2]].
  assert (He : ended p o = 0%nat) by (specialize (Hc1 p c Hp); by rewrite Hs in Hc1).
  assert (Hone : forall q, ended q [EEnded p (c_id c) why] = if (q =? p)%nat then 1%nat else 0%nat)
    by (intros q; unfold ended; simpl; by destruct (q =? p)%nat).
  apply (traced_set p c (c <| c_stage := Over |>) m); simpl; auto.
  - intros q x Hq Hcq. specialize (Hr q x Hq Hcq). set_solver.
  - by apply released_end.
  - apply Forall_app. by split; [|repeat constructor].
  - intros q x Hq Hx. rewrite ended_app, Hone. destruct (Nat.eqb_spec q p); [done|]. rewrite Nat.add_0_r. eauto.
  - intros q Hq. rewrite ended_app, Hone. destruct (Nat.eqb_spec q p); [congruence|]. rewrite Nat.add_0_r. eauto.
  - unfold live. by rewrite Hs.
  - by apply alter_some.
  - rewrite decide_False; [done|]. by intros [_ ?].
  - rewrite !count_in by auto. lia.
  - intros Hh. apply elem_of_app. left. by eapply Hr.
  - rewrite ended_app, Hone, He, Nat.eqb_refl. done.
Qed.

Lemma runEnds_traced p c why m o :
  objects m !! p = Some c -> c_stage c = Running -> c_cause c = Some why -> traced m o ->
  traced (mstate (runEnds p (c_id c) why) m) (o ++ mout (runEnds p (c_id c) why) m).
Proof.
  intros Hp Hs Hw T. unfold runEnds, mwhen.
  case_bool_decide as Hh; simpl; run_state; run_out.
  - change (traced (m <| objects ::= alter (fun c => c <| c_stage := Over |>) p |>) (o ++ [EEnded p (c_id c) why])).
    apply end_traced; [done..| |done]. left. split; [done|]. eapply t_reported; [done..|]. by rewrite Hw, Hh.
  - assert (Hk : exists e, mstate (hangup (c_id c)) m = m /\ mout (hangup (c_id c)) m = [e] /\ kill (c_id c) e).
    { unfold hangup, api, kill. rewrite mstate_read_seq, mout_read_seq. destruct (esl m); eauto 6. }
    destruct Hk as (e & Hst & Ho & Hk). pose proof (hangup_steps (c_id c)) as Hg.
    specialize (Hg (inv_ids _ (t_inv _ _ T) p c Hp) m o T). rewrite Hst, Ho in *.
    change ([e] ++ _) with ([e] ++ [EEnded p (c_id c) why]). rewrite app_assoc.
    apply end_traced; [done..| |done]. right. eauto.
Qed.

(** *** Every step *)

Lemma with_call_traced p ok k m o :
  (forall c, objects m !! p = Some c -> ok c = true -> traced (mstate (k c) m) (o ++ mout (k c) m)) ->
  traced m o -> traced (mstate (with_call p ok k) m) (o ++ mout (with_call p ok k) m).
Proof.
  intros Hk T. unfold with_call. rewrite mstate_read_seq, mout_read_seq.
  destruct (objects m !! p) as [c|] eqn:Hp; [|by rewrite app_nil_r].
  unfold mwhen. destruct (ok c) eqn:Hok; [by apply Hk|by rewrite app_nil_r].
Qed.

Lemma ServeHTTP_traced cfg r m o :
  traced m o -> traced (mstate (ServeHTTP cfg r) m) (o ++ mout (ServeHTTP cfg r) m).
Proof.
  intros T. unfold ServeHTTP.
  assert (He : forall z, traced m (o ++ mout (emit (EHttp z)) m)) by (intros z; by apply (emit_steps (EHttp z) I I)).
  destruct (negb (bool_decide (Path r = _))); [apply He|].
  destruct (_ && _); [apply He|].
  destruct (channelUUID (XChannelUUID r)) eqn:Hid; cbn [negb]; [|apply He].
  rewrite mstate_seq, mout_seq, app_assoc. pose proof (register_traced _ _ _ Hid T) as Hr.
  destruct (mval (register (XChannelUUID r)) m); [by rewrite app_nil_r|by apply (emit_steps (EHttp 409) I I)].
Qed.

Lemma onEvent_traced name id m o :
  traced m o -> traced (mstate (onEvent name id) m) (o ++ mout (onEvent name id) m).
Proof.
  intros T. unfold onEvent. rewrite mstate_read_seq, mout_read_seq.
  assert (Hnil : traced m (o ++ [])) by by rewrite app_nil_r.
  case_bool_decide.
  - destruct (calls m !! id) as [p|] eqn:Hc; [|done].
    rewrite mstate_seq, mout_seq, app_assoc. pose proof (emit_steps (EReported id) I I m o T) as Hr.
    unfold cancel, upd. rewrite mstate_mod, mout_mod, app_nil_r. apply touch_traced; [apply cancel_call_ok| |done].
    intros c Hp Hh. apply (proj1 (inv_table _ (t_inv _ _ T) _ _)) in Hc as (x & Hx & <- & _).
    change (objects m !! p = Some c) in Hp. assert (x = c) as -> by congruence. set_solver.
  - case_bool_decide; [|done]. destruct (calls m !! id); [done|].
    unfold mwhen. destruct (channelUUID id) eqn:Hid; [|done]. by apply hangup_steps.
Qed.

(** What [cancelAll] does to the calls. *)
Definition cancel_each (l : list nat) (why : cause) (o : gmap nat call) : gmap nat call :=
  foldl (fun o p => alter (cancel_call why) p o) o l.

Lemma cancelAll_at l why m :
  mstate (cancelAll l why) m = m <| objects ::= cancel_each l why |> /\ mout (cancelAll l why) m = [].
Proof.
  revert m. induction l as [|p l IH]; intros m; simpl; [by destruct m|].
  rewrite mstate_seq, mout_seq. unfold cancel, upd. rewrite mstate_mod, mout_mod.
  destruct (IH (m <| objects ::= alter (cancel_call why) p |>)) as [-> ->]. by destruct m.
Qed.

Lemma cancel_each_keeps l why o p c :
  o !! p = Some c -> c_cause c <> None ->
  exists c', cancel_each l why o !! p = Some c' /\ c_cause c' <> None.
Proof.
  revert o c. induction l as [|q l IH]; intros o c Hp Hc; simpl; [eauto|].
  destruct (decide (q = p)) as [->|Hq].
  - apply (IH _ (cancel_call why c)); [by rewrite lookup_alter_eq, Hp|by apply cancel_call_ok].
  - apply (IH _ c); [by rewrite lookup_alter_ne|done].
Qed.

Lemma cancel_each_all l why o p c : p ∈ l -> cancel_each l why o !! p = Some c -> c_cause c <> None.
Proof.
  revert o. induction l as [|q l IH]; intros o Hp Hc; [by apply not_elem_of_nil in Hp|].
  apply elem_of_cons in Hp as [->|Hp]; [|by eapply IH]. simpl in Hc.
  destruct (o !! q) as [x|] eqn:Hx.
  - destruct (cancel_each_keeps l why (alter (cancel_call why) q o) q (cancel_call why x)) as (y & Hy & Hn).
    + by rewrite lookup_alter_eq, Hx.
    + unfold cancel_call. destruct (c_cause x) eqn:E; simpl; congruence.
    + congruence.
  - destruct (decide (q ∈ l)) as [Hin|Hout]; [by eapply IH|].
    rewrite (alter_none _ _ _ Hx) in Hc. exfalso. clear IH. revert o Hx Hc. 
    induction l as [|r l IH]; intros o Hx Hc; simpl in Hc; [congruence|].
    apply not_elem_of_cons in Hout as [Hr Hout]. apply (IH Hout (alter (cancel_call why) r o)); [|done].
    by rewrite lookup_alter_ne by congruence.
Qed.

Lemma cancel_each_traced l why m o :
  why <> Hangup -> traced m o -> traced (m <| objects ::= cancel_each l why |>) o.
Proof.
  intros Hw. revert m. induction l as [|p l IH]; intros m T; [by destruct m|].
  replace (m <| objects ::= cancel_each (p :: l) why |>)
    with (m <| objects ::= alter (cancel_call why) p |> <| objects ::= cancel_each l why |>) by by destruct m.
  apply IH, touch_traced; [apply cancel_call_ok| |done].
  intros c Hc [Hh|Hh]%cancel_call_cause; [|done]. by eapply t_reported.
Qed.

Lemma shutdown_at m :
  mstate shutdown m = m <| objects ::= cancel_each (map snd (map_to_list (calls m))) Shutdown |> <| closing := true |> /\
  mout shutdown m = [].
Proof.
  unfold shutdown. run_state. run_out. unfold upd. rewrite !mstate_mod, mout_mod.
  set (m1 := _ <| closing := true |>).
  change (mval mread m1) with m1. change (mstate mread m1) with m1. change (mout mread m1) with ([] : list effect).
  cbn [app]. destruct (cancelAll_at (map snd (map_to_list (calls m1))) Shutdown m1) as [-> ->].
  by destruct m.
Qed.

Lemma shutdown_traced m o : traced m o -> traced (mstate shutdown m) (o ++ mout shutdown m).
Proof.
  intros T. destruct (shutdown_at m) as [-> ->]. rewrite app_nil_r.
  set (l := map snd _).
  destruct (cancel_each_traced l Shutdown m o) as [[It In Ii Iw Ig Ic] Hr Hl Ha Hc]; [done..|].
  split; [split| | | |]; try done.
  intros _ p c Hp Hlive. apply (cancel_each_all l Shutdown (objects m) p); [|done].
  unfold l. apply list_elem_of_fmap. exists (c_id c, p). split; [done|].
  apply elem_of_map_to_list. apply (It (c_id c) p). eauto.
Qed.

Lemma socket_traced up m o : traced m o -> traced (m <| esl := up |>) o.
Proof. intros [[It In Ii Iw Ig Ic] Hr Hl Ha Hc]. by split; [split|..]. Qed.

Lemma step_traced cfg l m o : traced m o -> traced (mstate (step cfg l) m) (o ++ mout (step cfg l) m).
Proof.
  intros T. destruct l; simpl.
  - by apply ServeHTTP_traced.
  - apply with_call_traced; [|done]. intros c Hc Hs. apply bool_decide_eq_true in Hs. by apply upgraded_traced.
  - rewrite mstate_read_seq, mout_read_seq. unfold mwhen.
    destruct (esl m); [by apply onEvent_traced|by rewrite app_nil_r].
  - apply with_call_traced; [|done]. intros. by apply readDone_steps.
  - apply with_call_traced; [|done]. intros. by apply cancel_steps.
  - apply with_call_traced; [|done]. intros. by apply cancel_steps.
  - apply with_call_traced; [|done]. intros. by apply cancel_steps.
  - apply with_call_traced; [|done]. intros c Hc _. apply hangup_steps; [|done]. eapply inv_ids; [apply T|done].
  - apply with_call_traced; [|done]. intros c Hc _. apply api_steps; [|done].
    exists (c_id c). split; [|by right]. eapply inv_ids; [apply T|done].
  - apply with_call_traced; [|done]. intros c Hc Hs. apply bool_decide_eq_true in Hs.
    destruct (c_cause c) eqn:Hw; [by apply runEnds_traced|by rewrite app_nil_r].
  - apply with_call_traced; [|done]. intros c Hc Hs. apply bool_decide_eq_true in Hs. by apply runReturns_traced.
  - rewrite app_nil_r. by apply socket_traced.
  - by apply shutdown_traced.
Qed.

Lemma run_traced cfg ls m o : traced m o -> traced (mstate (run cfg ls) m) (o ++ mout (run cfg ls) m).
Proof.
  revert m o. induction ls as [|l ls IH]; intros m o T; simpl; [by rewrite app_nil_r|].
  rewrite mstate_seq, mout_seq, app_assoc. by apply IH, step_traced.
Qed.

Lemma New_traced : traced New [].
Proof.
  split; [split| | | |]; simpl; try done.
  - intros id p. split; [done|]. by intros (c & Hc & _).
  - by intros o1 p id why o2 H%app_cons_not_nil.
Qed.

Lemma reached_traced cfg ls : traced (mstate (run cfg ls) New) (mout (run cfg ls) New).
Proof. apply (run_traced cfg ls New []), New_traced. Qed.

(** *** Draining *)

(** The steps of the calls in the table, each to its end; [ok] says which
    upgrades of its connection succeed. *)
Definition finish (ok : nat -> bool) (p : nat) : list label := [LUpgrade p (ok p); LRunEnds p; LRunReturns p].
Definition drain (ok : nat -> bool) (l : list nat) : list label := concat (map (finish ok) l).

(** A step that takes a cancelled call [p] from [s] to [s'] and leaves the others. *)
Definition moves (cfg : Config) (l : label) (p : nat) (s s' : stage) : Prop :=
  forall m c, objects m !! p = Some c -> c_stage c = s -> c_cause c <> None ->
  let m' := mstate (step cfg l) m in
  closing m' = closing m /\
  exists c', objects m' = <[p:=c']> (objects m) /\ c_stage c' = s' /\ c_cause c' <> None.

Lemma with_call_state p ok k m c :
  objects m !! p = Some c -> mstate (with_call p ok k) m = if ok c then mstate (k c) m else m.
Proof. intros Hp. unfold with_call. rewrite mstate_read_seq, Hp. unfold mwhen. by destruct (ok c). Qed.

Lemma stay cfg l p s :
  (l = LUpgrade p true \/ l = LUpgrade p false) /\ s <> Registered \/ l = LRunEnds p /\ s <> Running \/ l = LRunReturns p /\ s <> Over ->
  moves cfg l p s s.
Proof.
  intros Hl m c Hp Hs Hc. assert (mstate (step cfg l) m = m) as ->.
  { destruct Hl as [[[-> | ->] Hne]|[[-> Hne]|[-> Hne]]]; cbn [step]; rewrite (with_call_state _ _ _ _ _ Hp);
      unfold at_stage; rewrite bool_decide_eq_false_2; congruence. }
  split; [done|]. exists c. by rewrite insert_id.
Qed.

Lemma hangup_state id m : mstate (hangup id) m = m.
Proof. unfold hangup, api. rewrite mstate_read_seq. by destruct (esl m). Qed.

Lemma moves_upgrade cfg p ok : moves cfg (LUpgrade p ok) p Registered (if ok then Running else Gone).
Proof.
  intros m c Hp Hs Hc. cbn [step]. rewrite (with_call_state _ _ _ _ _ Hp).
  unfold at_stage. rewrite bool_decide_eq_true_2 by done.
  destruct ok; unfold upgraded, unregister, cancel, set_stage; run_state; unfold upd, mmod, mstate, field_update; simpl.
  - split; [done|]. exists (c <| c_stage := Running |>). split; [by apply alter_some|done].
  - split; [done|]. exists ((cancel_call Released c) <| c_stage := Gone |>).
    rewrite (alter_some _ _ _ _ Hp). erewrite alter_some by apply lookup_insert_eq. rewrite insert_insert_eq.
    split_and!; [done..|]. by apply cancel_call_ok.
Qed.

Lemma moves_end cfg p : moves cfg (LRunEnds p) p Running Over.
Proof.
  intros m c Hp Hs Hc. cbn [step]. rewrite (with_call_state _ _ _ _ _ Hp).
  unfold at_stage. rewrite bool_decide_eq_true_2 by done.
  destruct (c_cause c) as [why|] eqn:Hw; [|done]. unfold runEnds, mwhen, set_stage.
  assert (Ho : forall b : bool, mstate (if b then hangup (c_id c) else mret tt) m = m)
    by (intros []; [apply hangup_state|done]).
  run_state. rewrite Ho. unfold upd, emit, mmod, memit, mstate, field_update; simpl.
  split; [done|]. exists (c <| c_stage := Over |>). split; [by apply alter_some|]. by rewrite <- Hw in Hc.
Qed.

Lemma moves_return cfg p : moves cfg (LRunReturns p) p Over Gone.
Proof.
  intros m c Hp Hs Hc. cbn [step]. rewrite (with_call_state _ _ _ _ _ Hp).
  unfold at_stage. rewrite bool_decide_eq_true_2 by done.
  unfold runReturns, unregister, cancel, set_stage; run_state; unfold upd, mmod, mstate, field_update; simpl.
  split; [done|]. exists ((cancel_call Released c) <| c_stage := Gone |>).
  rewrite (alter_some _ _ _ _ Hp). erewrite alter_some by apply lookup_insert_eq. rewrite insert_insert_eq.
  split_and!; [done..|]. by apply cancel_call_ok.
Qed.

(** Several of them. *)
Definition moves_all (cfg : Config) (ls : list label) (p : nat) (s s' : stage) : Prop :=
  forall m c, objects m !! p = Some c -> c_stage c = s -> c_cause c <> None ->
  let m' := mstate (run cfg ls) m in
  closing m' = closing m /\
  exists c', objects m' = <[p:=c']> (objects m) /\ c_stage c' = s' /\ c_cause c' <> None.

Lemma moves_cons cfg l ls p s1 s2 s3 : moves cfg l p s1 s2 -> moves_all cfg ls p s2 s3 -> moves_all cfg (l :: ls) p s1 s3.
Proof.
  intros H1 H2 m c Hp Hs Hc. cbn [run]. rewrite mstate_seq.
  destruct (H1 m c Hp Hs Hc) as (E1 & c1 & Ho1 & Hs1 & Hc1).
  destruct (H2 (mstate (step cfg l) m) c1) as (E2 & c2 & Ho2 & Hs2 & Hc2); [by rewrite Ho1, lookup_insert_eq|done..|].
  split; [congruence|]. exists c2. by rewrite Ho2, Ho1, insert_insert_eq.
Qed.

Lemma moves_nil cfg p s : moves_all cfg [] p s s.
Proof. intros m c Hp Hs Hc. split; [done|]. exists c. by rewrite insert_id. Qed.

Lemma finish_moves cfg ok p s : moves_all cfg (finish ok p) p s Gone.
Proof.
  unfold finish. destruct s.
  - eapply moves_cons; [apply moves_upgrade|]. destruct (ok p).
    + eapply moves_cons; [apply moves_end|]. eapply moves_cons; [apply moves_return|apply moves_nil].
    + eapply moves_cons; [apply stay; auto|]. eapply moves_cons; [apply stay; auto|apply moves_nil].
  - eapply moves_cons; [apply stay; destruct (ok p); auto|]. eapply moves_cons; [apply moves_end|].
    eapply moves_cons; [apply moves_return|apply moves_nil].
  - eapply moves_cons; [apply stay; destruct (ok p); auto|]. eapply moves_cons; [apply stay; auto|].
    eapply moves_cons; [apply moves_return|apply moves_nil].
  - eapply moves_cons; [apply stay; destruct (ok p); auto|]. eapply moves_cons; [apply stay; auto|].
    eapply moves_cons; [apply stay; auto|apply moves_nil].
Qed.

Lemma runs_app cfg l1 l2 m : mstate (run cfg (l1 ++ l2)) m = mstate (run cfg l2) (mstate (run cfg l1) m).
Proof. revert m. induction l1 as [|l l1 IH]; intros m; [done|]. cbn [app run]. rewrite !mstate_seq. apply IH. Qed.

(** Every cancelled call of [l] is gone after [drain]; the others are as they were. *)
Lemma drain_gone cfg ok l m :
  (forall p, p ∈ l -> exists c, objects m !! p = Some c /\ c_cause c <> None) ->
  let m' := mstate (run cfg (drain ok l)) m in
  closing m' = closing m /\ (forall p, p ∉ l -> objects m' !! p = objects m !! p) /\
  (forall p c, p ∈ l -> objects m' !! p = Some c -> c_stage c = Gone).
Proof.
  revert m. induction l as [|p l IH]; intros m Hl m'.
  { split_and!; [done..|]. by intros p c ?%not_elem_of_nil. }
  unfold m', drain. cbn [map concat]. rewrite runs_app. fold (drain ok l).
  destruct (Hl p) as (c & Hp & Hc); [by left|].
  destruct (finish_moves cfg ok p (c_stage c) m c Hp) as (E & c' & Ho & Hs' & Hc'); [done..|].
  set (m1 := mstate (run cfg (finish ok p)) m) in *.
  destruct (IH m1) as (E2 & Hk & Hg).
  { intros q Hq. rewrite Ho. destruct (decide (p = q)) as [<-|Hne]; [rewrite lookup_insert_eq; eauto|].
    rewrite lookup_insert_ne by done. apply Hl. by right. }
  split_and!; [congruence| |].
  - intros q [Hq Hq']%not_elem_of_cons. rewrite Hk, Ho by done. by apply lookup_insert_ne.
  - intros q x Hq Hx. destruct (decide (q ∈ l)) as [Hin|Hout]; [by eapply Hg|].
    apply elem_of_cons in Hq as [->|]; [|done]. rewrite Hk, Ho, lookup_insert_eq in Hx by done. congruence.
Qed.

Lemma register_closed id m : closing m = true -> register id m = (None, m, []).
Proof. intros H. unfold register. rewrite mread_seq_at, H. done. Qed.

(** *** Commands *)

Lemma hex_line c : hex c = true -> checkLine [c] = true.
Proof.
  unfold hex, unhex, between, checkLine. simpl. intros H.
  repeat (destruct (_ && _) eqn:E in H; [bool_to_prop; destruct (Z.eqb_spec c 13), (Z.eqb_spec c 10); done || lia|clear E]). done.
Qed.

Lemma checkLine_app a b : checkLine (a ++ b) = checkLine a && checkLine b.
Proof. unfold checkLine. by rewrite existsb_app, negb_orb. Qed.

Lemma hexes_line s : forallb hex s = true -> checkLine s = true.
Proof.
  induction s as [|c s IH]; [done|]. simpl. intros [H1 H2]%andb_true_iff.
  change (c :: s) with ([c] ++ s). by rewrite checkLine_app, hex_line, IH.
Qed.

Lemma uuid_line gs s : uuid_groups gs s = true -> checkLine s = true.
Proof.
  revert s. induction gs as [|n gs IH]; intros s; [done|]. cbn [uuid_groups]. destruct gs as [|n' gs].
  - intros [_ H]%andb_true_iff. by apply hexes_line.
  - intros [[_ H]%andb_true_iff Hr]%andb_true_iff. rewrite <- (take_drop n s), checkLine_app, (hexes_line _ H). cbn [andb].
    destruct (drop n s) as [|[|c|c] t]; try done.
    do 6 (destruct c as [c|c|]; try done). change (45 :: t) with ([45] ++ t). rewrite checkLine_app. by apply IH.
Qed.

Lemma named_line id cmd : channelUUID id = true -> cmd = killLine id \/ cmd = statusLine id -> checkLine (apiLine cmd) = true.
Proof.
  intros H%uuid_line. unfold apiLine. intros [-> | ->]; unfold killLine, statusLine; by rewrite !checkLine_app, H.
Qed.

(** Whatever connects, hangs up, times out or shuts down, and in whatever
    order: the table holds exactly the calls that have not returned, each under its own
    channel's id, so no channel has two calls; the wait group counts the
    table, the gauge the calls that run or are ending; and once the manager
    closes every call still there has a cause to end. *)
Theorem one_call_per_channel cfg ls :
  let m := mstate (run cfg ls) New in
  (forall id p, calls m !! id = Some p <-> exists c, objects m !! p = Some c /\ c_id c = id /\ live c) /\
  (forall p q c d, objects m !! p = Some c -> objects m !! q = Some d -> live c -> live d -> c_id c = c_id d -> p = q) /\
  wg m = Z.of_nat (size (calls m)) /\ CallsActive m = Z.of_nat (size (active (objects m))) /\
  (closing m = true -> forall p c, objects m !! p = Some c -> live c -> c_cause c <> None).
Proof.
  intros m. destruct (t_inv _ _ (reached_traced cfg ls)) as [It In Ii Iw Ig Ic].
  split_and!; try done. intros p q c d Hp Hq Hc Hd He.
  assert (calls m !! c_id c = Some p) by (apply It; eauto).
  assert (calls m !! c_id c = Some q) by (apply It; eauto). congruence.
Qed.


(** C23: the shutdown can always drain: once the manager closes, wherever its
    calls are, their own goroutines' next steps alone end every one, whether
    or not their upgrades succeed: the table is empty, the wait group and the
    gauge are zero, and a request that was let in before gets 409. *)
Theorem shutdown_drains cfg ls ok r :
  closing (mstate (run cfg ls) New) = true ->
  let m := mstate (run cfg ls) New in
  let m' := mstate (run cfg (drain ok (map snd (map_to_list (calls m))))) m in
  calls m' = ∅ /\ wg m' = 0 /\ CallsActive m' = 0 /\
  mout (ServeHTTP cfg r) m' ∈ [[EHttp 404]; [EHttp 401]; [EHttp 400]; [EHttp 409]] /\
  mstate (ServeHTTP cfg r) m' = m'.
Proof.
  intros Hclo m m'. pose proof (reached_traced cfg ls : traced m _) as T.
  set (l := map snd (map_to_list (calls m))).
  assert (Hin : forall p, p ∈ l <-> exists c, objects m !! p = Some c /\ live c).
  { intros p. unfold l. rewrite list_elem_of_fmap. split.
    - intros ([id q] & -> & Hq%elem_of_map_to_list). apply (inv_table _ (t_inv _ _ T)) in Hq as (c & Hc & _ & Hl). eauto.
    - intros (c & Hc & Hl). exists (c_id c, p). split; [done|]. apply elem_of_map_to_list, (inv_table _ (t_inv _ _ T)). eauto. }
  destruct (drain_gone cfg ok l m) as (Hc' & Hkeep & Hgone).
  { intros p (c & Hc & Hl)%Hin. exists c. split; [done|]. by eapply (inv_closing _ (t_inv _ _ T)). }
  fold m' in Hc', Hkeep, Hgone. unfold m in Hc' at 2. rewrite Hclo in Hc'.
  pose proof (run_traced cfg (drain ok l) m _ T : traced m' _) as T'.
  destruct (t_inv _ _ T') as [It In Ii Iw Ig Ic].
  assert (Hall : forall p c, objects m' !! p = Some c -> c_stage c = Gone).
  { intros p c Hp. destruct (decide (p ∈ l)) as [Hl|Hl]; [by eapply Hgone|].
    rewrite Hkeep in Hp by done. destruct (decide (c_stage c = Gone)); [done|]. destruct Hl. apply Hin. by exists c. }
  assert (Hempty : calls m' = ∅).
  { apply map_empty. intros id. destruct (calls m' !! id) as [p|] eqn:E; [|done].
    apply It in E as (c & Hp & _ & Hl). by destruct Hl; eapply Hall. }
  split_and!; [done|by rewrite Iw, Hempty, map_size_empty| | |].
  - rewrite Ig. replace (active (objects m')) with (∅ : gmap nat call); [by rewrite map_size_empty|].
    symmetry. apply map_empty. intros p. apply map_lookup_filter_None. right. intros c Hc [H|H]; 
      apply Hall in Hc; simpl in *; congruence.
  - unfold ServeHTTP. destruct (negb (bool_decide (Path r = _))); [set_solver|]. destruct (_ && _); [set_solver|].
    destruct (negb (channelUUID _)); [set_solver|]. rewrite mout_seq. unfold mval, mstate, mout. rewrite (register_closed _ m' Hc'). set_solver.
  - unfold ServeHTTP. destruct (negb (bool_decide (Path r = _))); [done|]. destruct (_ && _); [done|].
    destruct (negb (channelUUID _)); [done|]. rewrite mstate_seq. unfold mval, mstate at 1 2. by rewrite (register_closed _ m' Hc').
Qed.

Definition req (path auth : bytes) : request := mkRequest path auth (bs "0b6aa3c1-55d2-4f0e-9c1a-7e2f8d90ab12").
Definition open_cfg : Config := mkConfig [] (60 * second).

Theorem shutdown_drains_witness :
  let ls := [LConnect (req (bs "/call") []); LUpgrade 0 true; LShutdown] in
  closing (mstate (run open_cfg ls) New) = true /\
  let m := mstate (run open_cfg ls) New in
  let m' := mstate (run open_cfg (drain (fun _ => true) (map snd (map_to_list (calls m))))) m in
  calls m' = ∅ /\ wg m' = 0 /\ CallsActive m' = 0 /\
  mout (ServeHTTP open_cfg (req (bs "/call") [])) m' ∈ [[EHttp 404]; [EHttp 401]; [EHttp 400]; [EHttp 409]] /\
  mstate (ServeHTTP open_cfg (req (bs "/call") [])) m' = m'.
Proof. intros ls. split; [by vm_compute|]. apply shutdown_drains. by vm_compute. Defined.

(** *** Reconnecting

    The wait before attempt [k] of a run of failures that starts at [b]. *)
Definition wait_at (k : nat) : Z := Z.min (2 ^ Z.of_nat k * second) eslMaxBackoff.

Lemma eslWaits_from k n r :
  eslWaits (wait_at k) (replicate n false ++ r) = map (fun i => Some (wait_at (k + i))) (seq 0 n) ++ eslWaits (wait_at (k + n)) r.
Proof.
  revert k. induction n as [|n IH]; intros k; [by rewrite Nat.add_0_r|].
  assert (Hk : Z.min (wait_at k * 2) eslMaxBackoff = wait_at (S k)).
  { unfold wait_at, eslMaxBackoff, second. rewrite Nat2Z.inj_succ, Z.pow_succ_r by apply Nat2Z.is_nonneg.
    generalize (2 ^ Z.of_nat k). intros x. lia. }
  cbn [replicate app eslWaits eslAttempt seq map]. rewrite Nat.add_0_r, Hk, IH. f_equal.
  replace (S k + n)%nat with (k + S n)%nat by lia. f_equal.
  rewrite <- seq_shift, map_map. apply map_ext. intros i. do 2 f_equal. lia.
Qed.

(** The event socket's reconnects: a run of [n] failures waits 1, 2, 4, ...
    seconds, at most 30, and a connection that succeeds starts again at one. *)
Lemma esl_reconnects n r :
  eslWaits second (replicate n false ++ true :: r) = map (fun k => Some (wait_at k)) (seq 0 n) ++ None :: eslWaits second r.
Proof. exact (eslWaits_from 0 n (true :: r)). Qed.

(** *** Runs *)

(** A call with its socket up, hung up by the caller: one report, no kill. *)
Example hung_up_by_caller :
  mout (run open_cfg [LSocket true; LConnect (req (bs "/call") []); LConnect (req (bs "/call") []); LUpgrade 0 true;
                      LEvent (bs "CHANNEL_HANGUP") (XChannelUUID (req [] [])); LReadDone 0; LGrace 0; LRunEnds 0; LRunReturns 0]) New =
  [ERegistered 0 (XChannelUUID (req [] [])); EHttp 409; EReported (XChannelUUID (req [] [])); EEnded 0 (XChannelUUID (req [] [])) Hangup].
Proof. by vm_compute. Qed.

(** An agent's hang-up while the event socket is down is lost and not
    repeated when it comes back: the call runs on, uncancelled. *)
Example lost_hangup :
  let r := run open_cfg [LConnect (req (bs "/call") []); LUpgrade 0 true; LAgentHangup 0; LSocket true] New in
  r.2 = [ERegistered 0 (XChannelUUID (req [] [])); ELost (killLine (XChannelUUID (req [] [])))] /\
  (fun c => (c_stage c, c_cause c)) <$> objects r.1.2 !! 0%nat = Some (Running, None).
Proof. by vm_compute. Qed.
