(* ===== verification/Limiter.v ===== *)
(** [internal/campaign/limiter.go]: the counting of outbound calls in Redis:
    the four Lua scripts on sorted sets, and the operations that run them.

    Times are nanoseconds; the rounding of [float64] seconds (under a
    microsecond) is left out, and Redis's clock is the caller's. A command may
    fail before or after Redis ran it ([answer]). *)

From S2P Require Import Prelude Text.

Local Open Scope Z_scope.

Module Limiter.

Definition second : Z := 1000000000.
Definition staleSlotAfter : Z := 20 * 60 * second.

(** [rateKey], [concurrentKey], [capacityKey], [breakerKeys]. *)
Inductive key := RateKey (org : Z) | ConcurrentKey (org : Z) | CapacityKey | FailKey (campaign : Z) | SuccKey (campaign : Z).
#[global] Instance key_dec : EqDecision key.
Proof. solve_decision. Defined.
#[global] Instance key_countable : Countable key.
Proof.
  refine (inj_countable' (fun k => match k with
    | RateKey o => (0, o) | ConcurrentKey o => (1, o) | CapacityKey => (2, 0) | FailKey c => (3, c) | SuccKey c => (4, c) end)
    (fun p => match p with
    | (0, o) => RateKey o | (1, o) => ConcurrentKey o | (2, _) => CapacityKey | (3, c) => FailKey c | (_, c) => SuccKey c end) _).
  by intros [].
Defined.

(** A member is a time's text or a slot id. *)
Definition member : Type := Z + bytes.
(** A sorted set: its members with their scores. *)
Abbreviation zset := (gmap member Z).

(** A key holds a set until its expiry. *)
Record zkey := mkZ { members : zset; expires : Z }.
Definition redis : Type := gmap key zkey.

(** A key's set at a time: gone once expired. *)
Definition at_ (r : redis) (k : key) (now : Z) : zset :=
  match r !! k with Some z => if expires z <=? now then ∅ else members z | None => ∅ end.

(** [ZREMRANGEBYSCORE key 0 max]. *)
Definition trim (max : Z) (z : zset) : zset := filter (fun ms => ~ (0 <= ms.2 <= max)) z.

Definition zcard (z : zset) : Z := Z.of_nat (size z).

(** Write a set back: an empty one is no key; the expiry stays. *)
Definition expiry (r : redis) (k : key) (now : Z) : Z :=
  match r !! k with Some z => if expires z <=? now then now else expires z | None => now end.
Definition put (k : key) (z : zset) (d : Z) (r : redis) : redis :=
  if bool_decide (z = ∅) then delete k r else <[k := mkZ z d]> r.

(** [ZREM]. *)
Definition ZRem (k : key) (m : member) (now : Z) (r : redis) : redis :=
  put k (delete m (at_ r k now)) (expiry r k now) r.

(** ** The scripts *)

Definition rateScript (k : key) (now window_start max_requests : Z) (r : redis) : redis * bool :=
  let z := trim window_start (at_ r k now) in
  if zcard z <? max_requests then (put k (<[inl now := now]> z) (now + 2 * second) r, true)
  else (put k z (expiry r k now) r, false).

Definition slotScript (k : key) (now max_concurrent stale_cutoff : Z) (slot_id : bytes) (r : redis) : redis * bool :=
  let z := trim stale_cutoff (at_ r k now) in
  if zcard z <? max_concurrent then (put k (<[inr slot_id := now]> z) (now + 3600 * second) r, true)
  else (put k z (expiry r k now) r, false).

(** The threshold is [num / den]; Lua's [0 / 0 >= x] is false. *)
Record BreakerConfig := mkBreaker { Enabled : bool; num : Z; den : Z; Window : Z; MinCalls : Z }.

Definition tripped (cfg : BreakerConfig) (failures successes : Z) : bool :=
  let total := failures + successes in
  (MinCalls cfg <=? total) && negb (total =? 0) && (num cfg * total <=? failures * den cfg).

Definition breakerScript (c : Z) (now window_start : Z) (is_failure : bool) (cfg : BreakerConfig) (ttl : Z) (r : redis)
  : redis * (bool * Z * Z) :=
  let f := trim window_start (at_ r (FailKey c) now) in
  let s := trim window_start (at_ r (SuccKey c) now) in
  let f' := if is_failure then <[inl now := now]> f else f in
  let s' := if is_failure then s else <[inl now := now]> s in
  (put (FailKey c) f' (now + ttl) (put (SuccKey c) s' (now + ttl) r),
   (tripped cfg (zcard f') (zcard s'), zcard f', zcard s')).

Definition breakerCheckScript (c : Z) (now window_start : Z) (cfg : BreakerConfig) (r : redis) : redis * (bool * Z * Z) :=
  let f := trim window_start (at_ r (FailKey c) now) in
  let s := trim window_start (at_ r (SuccKey c) now) in
  (put (FailKey c) f (expiry r (FailKey c) now) (put (SuccKey c) s (expiry r (SuccKey c) now) r),
   (tripped cfg (zcard f) (zcard s), zcard f, zcard s)).

(** ** The operations *)

(** What becomes of a command: answered; run, its reply lost; never run. *)
Inductive answer := Answered | ReplyLost | NotSent.

Definition run {A} (a : answer) (f : redis -> redis * A) (r : redis) : redis * option A :=
  match a with
  | Answered => let '(r', x) := f r in (r', Some x)
  | ReplyLost => ((f r).1, None)
  | NotSent => (r, None)
  end.
Definition run_ (a : answer) (f : redis -> redis) (r : redis) : redis :=
  match a with NotSent => r | _ => f r end.

(** [Limiter]; [cmdable] says whether its client runs plain commands. *)
Record t := mk { maxCalls : Z; cmdable : bool }.
Record Slot := mkSlot { ID : bytes; Org : Z }.

(** [AcquireToken]: [None] is an error. *)
Definition AcquireToken (now org perSecond : Z) (a : answer) (r : redis) : redis * option bool :=
  run a (rateScript (RateKey org) now (now - second) perSecond) r.

(** The least score, if any. *)
Definition oldest (z : zset) : option Z :=
  map_fold (fun _ s acc => Some (match acc with Some x => Z.min x s | None => s end)) None z.

(** [NextTokenWait], the client being able to ask. *)
Definition NextTokenWait (l : t) (now org : Z) (r : redis) : Z :=
  if negb (cmdable l) then second
  else match oldest (at_ r (RateKey org) now) with
       | None => 0
       | Some s => Z.max 0 (s + second - now)
       end.

Definition dropCapacity (l : t) (now : Z) (id : bytes) (a : answer) (r : redis) : redis :=
  if cmdable l && (0 <? maxCalls l) then run_ a (ZRem CapacityKey (inr id) now) r else r.

(** [AcquireSlot] once under Vaani's own cap. *)
Definition orgSlot (l : t) (now org limit : Z) (id : bytes) (a2 a3 : answer) (r : redis) : redis * option (option Slot) :=
  let '(r2, x) := run a2 (slotScript (ConcurrentKey org) now limit (now - staleSlotAfter) id) r in
  match x with
  | Some true => (r2, Some (Some (mkSlot id org)))
  | Some false => (dropCapacity l now id a3 r2, Some None)
  | None => (dropCapacity l now id a3 r2, None)
  end.

(** [AcquireSlot]: [None] is an error, [Some None] a refusal. *)
Definition AcquireSlot (l : t) (now org limit : Z) (id : bytes) (a1 a2 a3 : answer) (r : redis) : redis * option (option Slot) :=
  if 0 <? maxCalls l then
    let '(r1, x) := run a1 (slotScript CapacityKey now (maxCalls l) (now - staleSlotAfter) id) r in
    match x with Some true => orgSlot l now org limit id a2 a3 r1 | Some false => (r1, Some None) | None => (r1, None) end
  else orgSlot l now org limit id a2 a3 r.

(** [ReleaseSlot]; the flag says whether it succeeded. *)
Definition ReleaseSlot (l : t) (now : Z) (s : Slot) (a1 a2 : answer) (r : redis) : redis * bool :=
  if negb (cmdable l) then (r, false)
  else
    let r1 := dropCapacity l now (ID s) a1 r in
    (run_ a2 (ZRem (ConcurrentKey (Org s)) (inr (ID s)) now) r1, match a2 with Answered => true | _ => false end).

Definition ActiveSlots (l : t) (now org : Z) (r : redis) : option Z :=
  if cmdable l then Some (zcard (at_ r (ConcurrentKey org) now)) else None.

(** [RecordOutcome] and [BreakerOpen]: tripped and the counts; [None] an error. *)
Definition RecordOutcome (now c : Z) (failure : bool) (cfg : BreakerConfig) (a : answer) (r : redis) : redis * option (bool * Z * Z) :=
  if negb (Enabled cfg) then (r, Some (false, 0, 0))
  else run a (breakerScript c now (now - Window cfg) failure cfg ((Z.quot (Window cfg) second + 60) * second)) r.

Definition BreakerOpen (now c : Z) (cfg : BreakerConfig) (a : answer) (r : redis) : redis * option (bool * Z * Z) :=
  if negb (Enabled cfg) then (r, Some (false, 0, 0))
  else run a (breakerCheckScript c now (now - Window cfg) cfg) r.

Definition ResetBreaker (l : t) (c : Z) (a : answer) (r : redis) : redis * bool :=
  if negb (cmdable l) then (r, false)
  else (run_ a (fun r => delete (FailKey c) (delete (SuccKey c) r)) r, match a with Answered => true | _ => false end).

(** ** Sorted sets *)

Lemma lookup_put k z d r : put k z d r !! k = if bool_decide (z = ∅) then None else Some (mkZ z d).
Proof. unfold put. case_bool_decide; [apply lookup_delete_eq|apply lookup_insert_eq]. Qed.

Lemma lookup_put_ne k k' z d r : k <> k' -> put k z d r !! k' = r !! k'.
Proof. intros H. unfold put. case_bool_decide; [by apply lookup_delete_ne|by apply lookup_insert_ne]. Qed.

Lemma at_put k z d r now : z = ∅ \/ now < d -> at_ (put k z d r) k now = z.
Proof.
  intros H. unfold at_. rewrite lookup_put. case_bool_decide as Hz; [done|]. simpl.
  destruct (Z.leb_spec d now); [|done]. destruct H; [done|lia].
Qed.

Lemma sub_empty (z : zset) : z ⊆ ∅ -> z = ∅.
Proof. intros H. apply (anti_symm (⊆)); [done|apply map_empty_subseteq]. Qed.

(** What is left of a set can be written back with its own expiry. *)
Lemma expiry_live r k now z : z ⊆ at_ r k now -> z = ∅ \/ now < expiry r k now.
Proof.
  unfold at_, expiry. destruct (r !! k) as [zk|]; [|intros H; left; by apply sub_empty].
  destruct (Z.leb_spec (expires zk) now); intros H0; [left; by apply sub_empty|by right].
Qed.

Lemma at_empty k now : at_ ∅ k now = ∅.
Proof. done. Qed.

Lemma lookup_trim max z m s : trim max z !! m = Some s <-> z !! m = Some s /\ ~ (0 <= s <= max).
Proof. unfold trim. by rewrite map_lookup_filter_Some. Qed.

Lemma size_trim max z : (size (trim max z) <= size z)%nat.
Proof. apply map_size_filter. Qed.

Lemma size_sub (a b : zset) : a ⊆ b -> (size a <= size b)%nat.
Proof. intros H. rewrite <- !size_dom. by apply subseteq_size, subseteq_dom. Qed.

Lemma zcard_sub (a b : zset) : a ⊆ b -> zcard a <= zcard b.
Proof. intros H%size_sub. unfold zcard. lia. Qed.

Lemma trim_sub max z : trim max z ⊆ z.
Proof. apply map_filter_subseteq. Qed.

(** ** Counted sets *)

Section counted.
(** One key whose members older than [A] are trimmed, its limit, the expiry
    its additions set, and the members held on it with the times they were
    granted. *)
Variable K : key.
Variables A T : Z.
Hypothesis HA : 0 < A <= T.
Variable L : Z.

Record held_inv (now : Z) (r : redis) (held : gmap member Z) : Prop := {
  hi_size : zcard (at_ r K now) <= L;
  hi_held m t0 : held !! m = Some t0 -> now - A < t0 -> exists s, at_ r K now !! m = Some s /\ t0 <= s;
  hi_past m s : at_ r K now !! m = Some s -> s <= now;
  hi_live z m s : r !! K = Some z -> members z !! m = Some s -> s + T <= expires z;
}.

Lemma at_later r now now' : now <= now' -> at_ r K now' = at_ r K now \/ at_ r K now' = ∅.
Proof.
  intros H. unfold at_. destruct (r !! K) as [z|]; [|by left].
  destruct (Z.leb_spec (expires z) now), (Z.leb_spec (expires z) now'); auto; lia.
Qed.

Lemma held_time now now' r held : held_inv now r held -> now <= now' -> held_inv now' r held.
Proof using HA.
  intros [Hn Hh Hp Hl] Hle. split; [| | |done].
  - destruct (at_later r now now' Hle) as [->| ->]; [done|]. eapply Z.le_trans; [|exact Hn]. apply zcard_sub, map_empty_subseteq.
  - intros m t0 Hid Ht. destruct (Hh m t0 Hid) as (s & Hs & Hts); [lia|]. exists s. split; [|done].
    unfold at_ in *. destruct (r !! K) as [z|] eqn:Ez; [|done].
    destruct (Z.leb_spec (expires z) now); [done|]. destruct (Z.leb_spec (expires z) now'); [|done].
    specialize (Hl z _ _ eq_refl Hs). lia.
  - intros m s Hs. destruct (at_later r now now' Hle) as [E|E]; rewrite E in Hs; [apply Hp in Hs; lia|done].
Qed.

Lemma held_frame now r r' held : r' !! K = r !! K -> held_inv now r held -> held_inv now r' held.
Proof. intros E [Hn Hh Hp Hl]. split; unfold at_ in *; rewrite E; eauto. Qed.

Lemma held_fewer now r held m : held_inv now r held -> held_inv now r (delete m held).
Proof. intros [Hn Hh Hp Hl]. split; try done. intros i t0 [_ Hi]%lookup_delete_Some. by apply Hh. Qed.

Lemma held_put now z d r held : z = ∅ \/ now < d -> zcard z <= L ->
  (forall m t0, held !! m = Some t0 -> now - A < t0 -> exists s, z !! m = Some s /\ t0 <= s) ->
  (forall m s, z !! m = Some s -> s <= now /\ s + T <= d) -> held_inv now (put K z d r) held.
Proof.
  intros Hd Hn Hh Hs. split.
  - by rewrite at_put.
  - by rewrite at_put.
  - intros m s. rewrite at_put by done. apply Hs.
  - intros zk m s. rewrite lookup_put. case_bool_decide; [done|]. intros [= <-]. apply Hs.
Qed.

(** Members that stay keep the key's expiry. *)
Lemma kept now r held z m s : held_inv now r held -> z ⊆ at_ r K now -> z !! m = Some s ->
  s <= now /\ s + T <= expiry r K now.
Proof.
  intros [Hn Hh Hp Hl] Hz Hm. pose proof (lookup_weaken _ _ _ _ Hm Hz) as Ha. split; [by eapply Hp|].
  unfold at_, expiry in *. destruct (r !! K) as [zk|]; [|done]. destruct (Z.leb_spec (expires zk) now); [done|].
  by eapply Hl.
Qed.

Lemma trim_held now r held m t0 : held_inv now r held -> held !! m = Some t0 -> now - A < t0 ->
  exists s, trim (now - A) (at_ r K now) !! m = Some s /\ t0 <= s.
Proof.
  intros I Hid Ht. destruct (hi_held _ _ _ I m t0 Hid Ht) as (s & Hs & Hts). exists s. split; [|done].
  apply lookup_trim. split; [done|lia].
Qed.

(** Trimming, and adding one member while there is room. *)
Lemma held_trim now r held : held_inv now r held -> held_inv now (put K (trim (now - A) (at_ r K now)) (expiry r K now) r) held.
Proof.
  intros I. apply held_put.
  - apply expiry_live, trim_sub.
  - eapply Z.le_trans; [apply zcard_sub, trim_sub|apply I].
  - intros m t0. by apply trim_held.
  - intros m s Hm. by apply (kept _ _ _ _ _ _ I (trim_sub _ _) Hm).
Qed.

Lemma held_add now r held m : held_inv now r held -> zcard (trim (now - A) (at_ r K now)) < L ->
  held_inv now (put K (<[m := now]> (trim (now - A) (at_ r K now))) (now + T) r) held /\
  held_inv now (put K (<[m := now]> (trim (now - A) (at_ r K now))) (now + T) r) (<[m := now]> held).
Proof using HA.
  intros I Hlt. set (z := trim _ _) in *.
  assert (forall held', (forall i t0, held' !! i = Some t0 -> held !! i = Some t0 \/ i = m /\ t0 = now) ->
    held_inv now (put K (<[m := now]> z) (now + T) r) held') as Hi.
  { intros held' Hh. apply held_put.
    - right. lia.
    - unfold zcard in *. rewrite map_size_insert. case_match; simpl; lia.
    - intros i t0 Hi Ht. destruct (decide (i = m)) as [->|Hne].
      + exists now. rewrite lookup_insert_eq. split; [done|]. destruct (Hh _ _ Hi) as [Ho|[_ ->]]; [|lia].
        destruct (hi_held _ _ _ I _ _ Ho Ht) as (s & Hs & Hts). apply (hi_past _ _ _ I) in Hs. lia.
      + rewrite lookup_insert_ne by congruence. destruct (Hh _ _ Hi) as [Ho|[-> _]]; [|done].
        by apply (trim_held _ _ _ _ _ I).
    - intros i s. destruct (decide (i = m)) as [->|Hne].
      + rewrite lookup_insert_eq. intros [= <-]. lia.
      + rewrite lookup_insert_ne by done. intros Hm. apply lookup_trim in Hm as [Hm _]. apply (hi_past _ _ _ I) in Hm. lia. }
  split; apply Hi; [auto|]. intros i t0 [[-> <-]|[_ H]]%lookup_insert_Some; auto.
Qed.

Lemma held_zrem now r held m : held_inv now r held -> held_inv now (ZRem K m now r) (delete m held).
Proof.
  intros I. unfold ZRem. assert (Hz : delete m (at_ r K now) ⊆ at_ r K now) by apply delete_subseteq.
  apply held_put.
  - by apply expiry_live.
  - eapply Z.le_trans; [by apply zcard_sub|apply I].
  - intros i t0 [Hne Hi]%lookup_delete_Some Ht. rewrite lookup_delete_ne by congruence. by apply (hi_held _ _ _ I).
  - intros i s Hm. by apply (kept _ _ _ _ _ _ I Hz Hm).
Qed.

(** The members younger than [A]. *)
Definition younger (now : Z) (h : gmap member Z) : gmap member Z := filter (fun it => now - A < it.2) h.

Lemma held_bound now r held : held_inv now r held -> Z.of_nat (size (younger now held)) <= L.
Proof.
  intros I. assert (size (younger now held) <= size (at_ r K now))%nat as H; [|pose proof (hi_size _ _ _ I); unfold zcard in *; lia].
  rewrite <- !size_dom. apply subseteq_size. intros m [t0 Hm]%elem_of_dom.
  apply map_lookup_filter_Some in Hm as [Hm Ht].
  destruct (hi_held _ _ _ I m t0 Hm Ht) as (x & Hx & _). apply elem_of_dom. eauto.
Qed.

Lemma held_init : 0 <= L -> held_inv 0 ∅ ∅.
Proof. intros H. by split. Qed.
End counted.

(** A granted slot is counted; a refusal only trims. *)
Definition slots_inv (K : key) : Z -> Z -> redis -> gmap member Z -> Prop := held_inv K staleSlotAfter (3600 * second).
Lemma slot_times : 0 < staleSlotAfter <= 3600 * second.
Proof. by unfold staleSlotAfter, second. Qed.

Lemma slots_script K L now limit id r held r' b : slots_inv K L now r held -> limit <= L ->
  slotScript K now limit (now - staleSlotAfter) id r = (r', b) ->
  slots_inv K L now r' held /\ (b = true -> slots_inv K L now r' (<[inr id := now]> held)).
Proof.
  intros I HL. unfold slotScript.
  destruct (Z.ltb_spec (zcard (trim (now - staleSlotAfter) (at_ r K now))) limit) as [Hlt|Hge]; intros [= <- <-].
  - destruct (held_add _ _ _ slot_times _ _ _ _ (inr id) I) as [H1 H2]; [lia|]. auto.
  - split; [|done]. by apply held_trim.
Qed.

(** ** Both engines on one Redis *)

Section engines.
Variable l : t.
(** An organization and its limit. *)
Variable org0 : Z.
Variable limit0 : Z.

(** The slots granted for it by either engine, and Vaani's own, not given back. *)
Record sys := mkSys { clk : Z; red : redis; orgHeld : gmap member Z; capHeld : gmap member Z }.

Definition take_if (b : bool) (id : bytes) (now : Z) (h : gmap member Z) : gmap member Z := if b then <[inr id := now]> h else h.
Definition granted {A} (x : option (option A)) : bool := match x with Some (Some _) => true | _ => false end.

(** One command of some process; slot ids are not used twice at once. *)
Inductive step : sys -> sys -> Prop :=
  | step_tick s now : clk s <= now -> step s (mkSys now (red s) (orgHeld s) (capHeld s))
  | step_acquire s org limit id a1 a2 a3 r' x :
      (org = org0 -> limit <= limit0) -> orgHeld s !! inr id = None -> capHeld s !! inr id = None ->
      AcquireSlot l (clk s) org limit id a1 a2 a3 (red s) = (r', x) ->
      step s (mkSys (clk s) r' (take_if (granted x && (org =? org0)) id (clk s) (orgHeld s)) (take_if (granted x) id (clk s) (capHeld s)))
  | step_release s sl a1 a2 :
      step s (mkSys (clk s) (ReleaseSlot l (clk s) sl a1 a2 (red s)).1
        (if Org sl =? org0 then delete (inr (ID sl)) (orgHeld s) else orgHeld s) (delete (inr (ID sl)) (capHeld s)))
  | step_peer s org limit id r' b :   (* Dograh runs the same script *)
      (org = org0 -> limit <= limit0) ->
      slotScript (ConcurrentKey org) (clk s) limit (clk s - staleSlotAfter) id (red s) = (r', b) ->
      step s (mkSys (clk s) r' (take_if (b && (org =? org0)) id (clk s) (orgHeld s)) (capHeld s))
  | step_peer_release s org id :
      step s (mkSys (clk s) (ZRem (ConcurrentKey org) (inr id) (clk s) (red s))
        (if org =? org0 then delete (inr id) (orgHeld s) else orgHeld s) (capHeld s))
  | step_token s org n a : step s (mkSys (clk s) (AcquireToken (clk s) org n a (red s)).1 (orgHeld s) (capHeld s))
  | step_outcome s c f cfg a : step s (mkSys (clk s) (RecordOutcome (clk s) c f cfg a (red s)).1 (orgHeld s) (capHeld s))
  | step_open s c cfg a : step s (mkSys (clk s) (BreakerOpen (clk s) c cfg a (red s)).1 (orgHeld s) (capHeld s))
  | step_reset s c a : step s (mkSys (clk s) (ResetBreaker l c a (red s)).1 (orgHeld s) (capHeld s)).

(** *** Commands leave the other keys alone *)

Definition touches (ks : list key) (r r' : redis) : Prop := forall k, k ∉ ks -> r' !! k = r !! k.

Lemma touches_run {A} ks a (f : redis -> redis * A) r : touches ks r (f r).1 -> touches ks r (run a f r).1.
Proof. destruct a; simpl; [by destruct (f r)|done|done]. Qed.
Lemma touches_run_ ks a (f : redis -> redis) r : touches ks r (f r) -> touches ks r (run_ a f r).
Proof. by destruct a. Qed.
Lemma touches_put k z d r : touches [k] r (put k z d r).
Proof. intros k' Hk. apply lookup_put_ne. set_solver. Qed.
Lemma touches_trans ks1 ks2 r1 r2 r3 : touches ks1 r1 r2 -> touches ks2 r2 r3 -> touches (ks1 ++ ks2) r1 r3.
Proof. intros H1 H2 k Hk. rewrite H2, H1; [done|set_solver..]. Qed.

Lemma touches_slot k now n c id r : touches [k] r (slotScript k now n c id r).1.
Proof. unfold slotScript. destruct (_ <? _); apply touches_put. Qed.
Lemma touches_rate k now w n r : touches [k] r (rateScript k now w n r).1.
Proof. unfold rateScript. destruct (_ <? _); apply touches_put. Qed.
Lemma touches_breaker c now w f cfg ttl r : touches [SuccKey c; FailKey c] r (breakerScript c now w f cfg ttl r).1.
Proof. apply (touches_trans [SuccKey c] [FailKey c] _ _ _ (touches_put _ _ _ _) (touches_put _ _ _ _)). Qed.
Lemma touches_check c now w cfg r : touches [SuccKey c; FailKey c] r (breakerCheckScript c now w cfg r).1.
Proof. apply (touches_trans [SuccKey c] [FailKey c] _ _ _ (touches_put _ _ _ _) (touches_put _ _ _ _)). Qed.
Lemma touches_drop now id a r : touches [CapacityKey] r (dropCapacity l now id a r).
Proof. unfold dropCapacity. destruct (_ && _); [|done]. apply touches_run_, touches_put. Qed.

(** A command that is not about a key keeps its slots. *)
Lemma slots_untouched K L now ks r r' held : touches ks r r' -> K ∉ ks -> slots_inv K L now r held -> slots_inv K L now r' held.
Proof. intros H Hk. apply held_frame, H, Hk. Qed.

Lemma slots_drop L now r held id a : slots_inv CapacityKey L now r held -> held !! inr id = None ->
  slots_inv CapacityKey L now (dropCapacity l now id a r) held.
Proof.
  intros I Hid. unfold dropCapacity. destruct (_ && _); [|done]. destruct a; simpl; try done;
    apply (held_zrem _ _ _ _ _ _ _ (inr id)) in I; by rewrite delete_id in I.
Qed.

Lemma slots_run K L now limit id r held a r' x : slots_inv K L now r held -> limit <= L ->
  run a (slotScript K now limit (now - staleSlotAfter) id) r = (r', x) ->
  slots_inv K L now r' held /\ (x = Some true -> slots_inv K L now r' (<[inr id := now]> held)).
Proof.
  intros I HL. destruct (slotScript K now limit (now - staleSlotAfter) id r) as [r1 b] eqn:E.
  destruct (slots_script _ _ _ _ _ _ _ _ _ I HL E) as [H1 H2].
  unfold run. rewrite E. destruct a; intros [= <- <-]; (split; [done|]); try done. intros [= ->]. auto.
Qed.

(** The two counts, kept by every step. *)
Definition counted (s : sys) : Prop :=
  slots_inv (ConcurrentKey org0) limit0 (clk s) (red s) (orgHeld s) /\
  (0 < maxCalls l -> slots_inv CapacityKey (maxCalls l) (clk s) (red s) (capHeld s)).

Lemma counted_acquire s org limit id a1 a2 a3 r' x : counted s -> (org = org0 -> limit <= limit0) ->
  orgHeld s !! inr id = None -> capHeld s !! inr id = None -> AcquireSlot l (clk s) org limit id a1 a2 a3 (red s) = (r', x) ->
  counted (mkSys (clk s) r' (take_if (granted x && (org =? org0)) id (clk s) (orgHeld s)) (take_if (granted x) id (clk s) (capHeld s))).
Proof.
  intros [Io Ic] HL Ho Hc. unfold AcquireSlot.
  (* the organization's part, from a state where the capacity is settled *)
  assert (forall r, slots_inv (ConcurrentKey org0) limit0 (clk s) r (orgHeld s) ->
    (0 < maxCalls l -> slots_inv CapacityKey (maxCalls l) (clk s) r (capHeld s) /\
                       slots_inv CapacityKey (maxCalls l) (clk s) r (<[inr id := clk s]> (capHeld s))) ->
    orgSlot l (clk s) org limit id a2 a3 r = (r', x) ->
    counted (mkSys (clk s) r' (take_if (granted x && (org =? org0)) id (clk s) (orgHeld s)) (take_if (granted x) id (clk s) (capHeld s)))) as Horg.
  { intros r Jo Jc E. unfold orgSlot in E.
    destruct (run a2 _ r) as [r2 y] eqn:Er.
    assert (Ht : touches [ConcurrentKey org] r r2).
    { pose proof (touches_run [ConcurrentKey org] a2 _ r (touches_slot _ (clk s) limit (clk s - staleSlotAfter) id r)) as H.
      by rewrite Er in H. }
    assert (Jo' : slots_inv (ConcurrentKey org0) limit0 (clk s) r2 (orgHeld s) /\
      (y = Some true -> org = org0 -> slots_inv (ConcurrentKey org0) limit0 (clk s) r2 (<[inr id := clk s]> (orgHeld s)))).
    { destruct (decide (org = org0)) as [->|Hne].
      - destruct (slots_run _ _ _ _ _ _ _ _ _ _ Jo (HL eq_refl) Er). auto.
      - split; [|done]. eapply slots_untouched; [exact Ht|set_solver|done]. }
    assert (Jc' : 0 < maxCalls l -> slots_inv CapacityKey (maxCalls l) (clk s) r2 (capHeld s) /\
      slots_inv CapacityKey (maxCalls l) (clk s) r2 (<[inr id := clk s]> (capHeld s))).
    { intros Hm. destruct (Jc Hm). split; (eapply slots_untouched; [exact Ht|set_solver|done]). }
    destruct Jo' as [Jo1 Jo2]. destruct y as [[]|]; injection E as <- <-; unfold counted, take_if; simpl.
    - split; [|intros Hm; apply Jc', Hm]. destruct (Z.eqb_spec org org0); auto.
    - split; [eapply slots_untouched; [apply touches_drop|set_solver|done]|]. intros Hm. apply slots_drop; [by apply Jc'|done].
    - split; [eapply slots_untouched; [apply touches_drop|set_solver|done]|]. intros Hm. apply slots_drop; [by apply Jc'|done]. }
  destruct (Z.ltb_spec 0 (maxCalls l)) as [Hm|Hm]; [|intros E; apply (Horg _ Io); [lia|exact E]].
  destruct (run a1 _ (red s)) as [r1 y] eqn:Er.
  destruct (slots_run _ _ _ _ _ _ _ _ _ _ (Ic Hm) (Z.le_refl _) Er) as [J1 J2].
  assert (Jo : slots_inv (ConcurrentKey org0) limit0 (clk s) r1 (orgHeld s)).
  { pose proof (touches_run [CapacityKey] a1 _ (red s) (touches_slot _ (clk s) (maxCalls l) (clk s - staleSlotAfter) id (red s))) as H.
    rewrite Er in H. eapply slots_untouched; [exact H|set_solver|done]. }
  destruct y as [[]|].
  - intros E. apply (Horg r1); auto.
  - intros [= <- <-]. by split.
  - intros [= <- <-]. by split.
Qed.

Lemma counted_release s sl a1 a2 : counted s ->
  counted (mkSys (clk s) (ReleaseSlot l (clk s) sl a1 a2 (red s)).1
    (if Org sl =? org0 then delete (inr (ID sl)) (orgHeld s) else orgHeld s) (delete (inr (ID sl)) (capHeld s))).
Proof.
  intros [Io Ic]. unfold counted, ReleaseSlot; simpl.
  assert (Hf : forall r, slots_inv (ConcurrentKey org0) limit0 (clk s) r (orgHeld s) ->
    slots_inv (ConcurrentKey org0) limit0 (clk s) r (if Org sl =? org0 then delete (inr (ID sl)) (orgHeld s) else orgHeld s)).
  { intros r J. destruct (_ =? _); [by apply held_fewer|done]. }
  destruct (cmdable l) eqn:Ecm; simpl; [|split; [by apply Hf|intros Hm; by apply held_fewer, Ic]].
  set (r1 := dropCapacity l (clk s) (ID sl) a1 (red s)).
  assert (J1 : slots_inv (ConcurrentKey org0) limit0 (clk s) r1 (orgHeld s)).
  { eapply slots_untouched; [apply touches_drop|set_solver|done]. }
  assert (Ht : touches [ConcurrentKey (Org sl)] r1 (run_ a2 (ZRem (ConcurrentKey (Org sl)) (inr (ID sl)) (clk s)) r1)).
  { apply touches_run_, touches_put. }
  split.
  - destruct (Z.eqb_spec (Org sl) org0) as [E|E].
    + rewrite E. destruct a2; simpl; [by apply held_zrem..|by apply held_fewer].
    + eapply slots_untouched; [exact Ht|set_solver|done].
  - intros Hm. eapply slots_untouched; [exact Ht|set_solver|]. unfold r1, dropCapacity. rewrite Ecm.
    destruct (Z.ltb_spec 0 (maxCalls l)); [|lia]. destruct a1; simpl; [by apply held_zrem, Ic..|by apply held_fewer, Ic].
Qed.

Lemma counted_frame s ks r' : counted s -> touches ks (red s) r' -> ConcurrentKey org0 ∉ ks -> CapacityKey ∉ ks ->
  counted (mkSys (clk s) r' (orgHeld s) (capHeld s)).
Proof. intros [Io Ic] Ht H1 H2. split; simpl; [|intros Hm]; eapply slots_untouched; try done. by apply Ic. Qed.

Lemma counted_step s s' : step s s' -> counted s -> counted s'.
Proof.
  intros St C. destruct St as [s now Hn|s org limit id a1 a2 a3 r' x HL Ho Hc E|s sl a1 a2|s org limit id r' b HL E|s org id|s org n a|
    s c f cfg a|s c cfg a|s c a].
  - destruct C as [Io Ic]. split; simpl; [|intros Hm]; (eapply held_time; [apply slot_times|first [exact Io|exact (Ic Hm)]|exact Hn]).
  - by apply (counted_acquire s org limit id a1 a2 a3).
  - by apply counted_release.
  - pose proof (touches_slot (ConcurrentKey org) (clk s) limit (clk s - staleSlotAfter) id (red s)) as Ht. rewrite E in Ht.
    destruct C as [Io Ic]. split; simpl; [|intros Hm; eapply slots_untouched; [exact Ht|set_solver|by apply Ic]].
    destruct (Z.eqb_spec org org0) as [->|Hne].
    + destruct (slots_script _ _ _ _ _ _ _ _ _ Io (HL eq_refl) E) as [H1 H2]. destruct b; simpl; auto.
    + rewrite andb_false_r. simpl. eapply slots_untouched; [exact Ht|set_solver|done].
  - destruct C as [Io Ic]. split; simpl.
    + destruct (Z.eqb_spec org org0) as [->|Hne]; [by apply held_zrem|].
      eapply slots_untouched; [apply touches_put|set_solver|done].
    + intros Hm. eapply slots_untouched; [apply touches_put|set_solver|by apply Ic].
  - eapply counted_frame; [done|apply touches_run, touches_rate|set_solver..].
  - unfold RecordOutcome. destruct (negb _); [by destruct s|].
    eapply counted_frame; [done|apply touches_run, touches_breaker|set_solver..].
  - unfold BreakerOpen. destruct (negb _); [by destruct s|].
    eapply counted_frame; [done|apply touches_run, touches_check|set_solver..].
  - unfold ResetBreaker. destruct (negb _); [by destruct s|]. apply (counted_frame s [SuccKey c; FailKey c]); [done| |set_solver..].
    apply touches_run_. intros k Hk. etransitivity; apply lookup_delete_ne; set_solver.
Qed.

(** The slots younger than [staleSlotAfter]. *)
Definition live_slots : Z -> gmap member Z -> gmap member Z := younger staleSlotAfter.

Definition init : sys := mkSys 0 ∅ ∅ ∅.

(** C8: the concurrent-call limits hold across both engines: whatever Vaani's
    and Dograh's processes run on the shared Redis, in any order, with replies
    lost, commands failing and slots released twice, the organization's calls
    whose slot was granted in the last twenty minutes and not given back never
    exceed its limit, nor Vaani's own its cap. *)
Theorem slots_capped s : 0 <= limit0 -> star step init s ->
  Z.of_nat (size (live_slots (clk s) (orgHeld s))) <= limit0 /\
  (0 < maxCalls l -> Z.of_nat (size (live_slots (clk s) (capHeld s))) <= maxCalls l).
Proof.
  intros HL Hs. assert (counted s) as [Io Ic].
  { apply (star_invariant _ counted (fun a b Ha Hb => counted_step a b Hb Ha) _ _ Hs).
    split; [|intros Hm]; apply held_init; lia. }
  split; [by eapply held_bound|]. intros Hm. by eapply held_bound, Ic.
Qed.
End engines.

(** ** The rate window *)

Section rate.
Variables (org N : Z).
Hypothesis HN : 0 <= N.

(** Runs of the organization's call starts: the times of those that were
    allowed (latest first), Redis and the clock. No two are asked for at the
    same instant. *)
Inductive rate_run : list Z -> redis -> Z -> Prop :=
  | rate_init : rate_run [] ∅ 0
  | rate_token gs r clk now n a r' x : rate_run gs r clk -> clk < now -> n <= N ->
      AcquireToken now org n a r = (r', x) ->
      rate_run (match x with Some true => now :: gs | _ => gs end) r' now
  | rate_other gs r clk r' : rate_run gs r clk -> r' !! RateKey org = r !! RateKey org -> rate_run gs r' clk.

Definition granted_map (gs : list Z) : gmap member Z := list_to_map (map (fun g => (inl g, g)) gs).

Definition rate_inv (now : Z) (r : redis) (gs : list Z) : Prop :=
  held_inv (RateKey org) second (2 * second) N now r (granted_map gs) /\ NoDup gs /\ Forall (fun g => g <= now) gs.

Lemma rate_times : 0 < second <= 2 * second.
Proof. done. Qed.

Lemma rate_script now n r gs r' b : held_inv (RateKey org) second (2 * second) N now r gs -> n <= N ->
  rateScript (RateKey org) now (now - second) n r = (r', b) ->
  held_inv (RateKey org) second (2 * second) N now r' gs /\
  (b = true -> held_inv (RateKey org) second (2 * second) N now r' (<[inl now := now]> gs)).
Proof using HN.
  intros I HL. unfold rateScript.
  destruct (Z.ltb_spec (zcard (trim (now - second) (at_ r (RateKey org) now))) n) as [Hlt|Hge]; intros [= <- <-].
  - destruct (held_add _ _ _ rate_times _ _ _ _ (inl now) I) as [H1 H2]; [lia|]. auto.
  - split; [|done]. by apply held_trim.
Qed.

Lemma rate_run_inv gs r clk : rate_run gs r clk -> rate_inv clk r gs.
Proof using HN.
  induction 1 as [|gs r clk now n a r' x _ (I & Hd & Hp) Hlt Hn E|gs r clk r' _ (I & Hd & Hp) E].
  - split; [by apply held_init|]. by repeat constructor.
  - apply (held_time _ _ _ rate_times _ _ now) in I; [|lia].
    assert (Hp' : Forall (fun g => g <= now) gs) by (eapply Forall_impl; [exact Hp|simpl; lia]).
    unfold AcquireToken, run in E. destruct (rateScript (RateKey org) now (now - second) n r) as [r1 b] eqn:Es.
    destruct (rate_script _ _ _ _ _ _ I Hn Es) as [J1 J2].
    destruct a; injection E as <- <-; [destruct b|..]; try done.
    split; [by apply J2|]. split; [|by constructor]. constructor; [|done].
    intros Hin. rewrite Forall_forall in Hp. apply Hp in Hin. lia.
  - split; [by eapply held_frame|done].
Qed.

Definition in_window (t : Z) (gs : list Z) : list Z := filter (fun g => t - second < g <= t) gs.

Lemma window_bound gs r now : rate_inv now r gs -> Z.of_nat (length (in_window now gs)) <= N.
Proof.
  intros (I & Hd & _). etransitivity; [|eapply held_bound, I]. apply Nat2Z.inj_le.
  rewrite <- (length_fmap (inl : Z -> member)), <- size_dom. unfold size at 1, set_size. simpl.
  apply submseteq_length, NoDup_submseteq; [apply NoDup_fmap_2; [apply _|by apply NoDup_filter]|].
  intros m (g & -> & [Hw Hg]%list_elem_of_filter)%list_elem_of_fmap. apply elem_of_elements, elem_of_dom. exists g.
  apply map_lookup_filter_Some. split; [|simpl; lia]. apply elem_of_list_to_map_1.
  - rewrite <- list_fmap_compose. apply NoDup_fmap_2; [intros ? ? [= ->]; done|done].
  - apply list_elem_of_fmap. by exists g.
Qed.

(** The dial rate is a true sliding window: whichever processes ask, in
    every window of one second at most the organization's rate of call starts
    is allowed. *)
Theorem rate_capped gs r clk : rate_run gs r clk -> forall t, Z.of_nat (length (in_window t gs)) <= N.
Proof using HN.
  intros R t. pose proof R as R0. revert R0. induction R as [|gs r clk now n a r' x R IH Hlt Hn E|gs r clk r' R IH E]; intros R0.
  - simpl. lia.
  - specialize (IH R). destruct x as [[]|]; try done.
    destruct (Z.le_gt_cases now t) as [Ht|Ht].
    + etransitivity; [|exact (window_bound _ _ _ (rate_run_inv _ _ _ R0))]. apply Nat2Z.inj_le, sublist_length.
      pose proof (rate_run_inv _ _ _ R0) as (_ & _ & Hp). clear -Ht Hp. unfold in_window.
      induction Hp as [|g l Hg _ IHl]; [constructor|]. rewrite !filter_cons.
      destruct (decide (t - second < g <= t)), (decide (now - second < g <= now)); try lia; [by constructor|by constructor|done].
    + unfold in_window. rewrite filter_cons. destruct (decide _); [lia|done].
  - by apply IH.
Qed.
End rate.

(** ** Witnesses *)

Definition one_cap : t := mk 5 true.
Definition slot_a : bytes := [97].
Definition slot_b : bytes := [98].

(** One organization allowed one call: a slot, and a refused second one. *)
Definition r1 : redis := (AcquireSlot one_cap 0 7 1 slot_a Answered Answered Answered ∅).1.
Definition r2 : redis := (AcquireSlot one_cap 0 7 1 slot_b Answered Answered Answered r1).1.

Example second_refused : (AcquireSlot one_cap 0 7 1 slot_a Answered Answered Answered ∅).2 = Some (Some (mkSlot slot_a 7)) /\
  (AcquireSlot one_cap 0 7 1 slot_b Answered Answered Answered r1).2 = Some None.
Proof. split; vm_compute; reflexivity. Qed.

Definition after_two : sys := mkSys 0 r2 (<[inr slot_a := 0]> ∅) (<[inr slot_a := 0]> ∅).

Definition after_one : sys := mkSys 0 r1 (<[inr slot_a := 0]> ∅) (<[inr slot_a := 0]> ∅).

Lemma two_steps : star (step one_cap 7 1) init after_two.
Proof.
  assert (step one_cap 7 1 init after_one) as S1.
  { refine (step_acquire one_cap 7 1 init 7 1 slot_a Answered Answered Answered r1 (Some (Some (mkSlot slot_a 7))) _ _ _ _);
      [done|reflexivity|reflexivity|vm_compute; reflexivity]. }
  assert (step one_cap 7 1 after_one after_two) as S2.
  { refine (step_acquire one_cap 7 1 after_one 7 1 slot_b Answered Answered Answered r2 (Some None) _ _ _ _);
      [done|vm_compute; reflexivity|vm_compute; reflexivity|vm_compute; reflexivity]. }
  exact (star_step _ _ _ _ S1 (star_step _ _ _ _ S2 (star_refl _ _))).
Defined.

Lemma slots_capped_witness : star (step one_cap 7 1) init after_two /\ size (orgHeld after_two) = 1%nat /\
  Z.of_nat (size (live_slots (clk after_two) (orgHeld after_two))) <= 1.
Proof.
  split; [exact two_steps|]. split; [reflexivity|].
  apply (slots_capped one_cap 7 1 after_two); [lia|exact two_steps].
Defined.

(** One call a second: allowed, refused half a second later. *)
Definition t1 : redis := (AcquireToken second 7 1 Answered ∅).1.
Definition t2 : redis := (AcquireToken (second + 500000000) 7 1 Answered t1).1.

Lemma rate_capped_witness : rate_run 7 1 [second] t2 (second + 500000000) /\
  (AcquireToken (second + 500000000) 7 1 Answered t1).2 = Some false /\
  Z.of_nat (length (in_window (second + 500000000) [second])) <= 1.
Proof.
  assert (rate_run 7 1 [second] t2 (second + 500000000)) as R.
  { apply (rate_token 7 1 [second] t1 second (second + 500000000) 1 Answered t2 (Some false)); [|lia|lia|vm_compute; reflexivity].
    apply (rate_token 7 1 [] ∅ 0 second 1 Answered t1 (Some true)); [constructor|unfold second; lia|lia|vm_compute; reflexivity]. }
  split; [exact R|]. split; [vm_compute; reflexivity|].
  apply (rate_capped 7 1 ltac:(lia) [second] t2 (second + 500000000) R).
Defined.

(** At one instant (of the clock's resolution) the starts count once. *)
Example same_instant : exists r,
  run_ Answered (fun r => (AcquireToken second 7 1 Answered r).1) ∅ = r /\
  (AcquireToken second 7 2 Answered r).2 = Some true /\
  (AcquireToken second 7 2 Answered (AcquireToken second 7 2 Answered r).1).2 = Some true.
Proof. eexists. split; [reflexivity|]. split; vm_compute; reflexivity. Qed.
End Limiter.
