(* ===== verification/Campaign.v ===== *)
(** [internal/campaign/runner.go] and the tables it works on
    ([internal/dograh/campaign.go], the runs of outbound.go): dialing the
    contacts of running campaigns.

    The database, Redis (file Limiter), the telephone side and the clock answer
    at instants; a remote call may fail before or after it took effect
    ([Limiter.answer]). Log lines and metrics are left out. A step is one pass
    of [dialOne], one [finished], one [sweep], one restart. *)

From Stdlib Require Import String.
From S2P Require Import Prelude Text Limiter.

Local Open Scope Z_scope.
Local Open Scope m_scope.

Module Campaign.
Import Limiter.

(** ** Settings *)

(** [RetryConfig]; delays in nanoseconds. *)
Record RetryConfig := mkRetry {
  r_Enabled : bool; MaxRetries : Z; Delay : Z; OnBusy : bool; OnNoAnswer : bool; OnVoicemail : bool;
}.

Definition Eligible (r : RetryConfig) (reason : bytes) : bool :=
  if negb (r_Enabled r) then false
  else if bool_decide (reason = bs "busy") then OnBusy r
  else if bool_decide (reason = bs "no_answer") then OnNoAnswer r
  else if bool_decide (reason = bs "voicemail") then OnVoicemail r
  else false.

Definition Retries (r : RetryConfig) (reason : bytes) (attempts : Z) : bool :=
  Eligible r reason && (attempts <? MaxRetries r).

(** Go's order on strings. *)
Fixpoint str_lt (a b : bytes) : bool :=
  match a, b with
  | _, [] => false
  | [], _ :: _ => true
  | x :: a', y :: b' => (x <? y) || ((x =? y) && str_lt a' b')
  end.
Definition str_le (a b : bytes) : bool := negb (str_lt b a).

Record ScheduleSlot := mkSched { Day : Z; Start : bytes; End_ : bytes }.
(** [Location]: the time zone's weekday (0 is Sunday) and "15:04" text of an
    instant; [None] for an unknown one. *)
Record Schedule := mkSchedule { s_Enabled : bool; Location : option (Z -> Z * bytes); Slots : list ScheduleSlot }.

Definition Allows (s : Schedule) (now : Z) : bool :=
  if negb (s_Enabled s) || bool_decide (length (Slots s) = 0%nat) then true
  else match Location s with
       | None => true
       | Some local =>
           let day := (fst (local now) + 6) mod 7 in
           let hm := snd (local now) in
           existsb (fun slot => (Day slot =? day) && str_le (Start slot) hm && str_lt hm (End_ slot)) (Slots s)
       end.

Record Campaign := mkCampaign {
  ID : Z; OrganizationID : Z; WorkflowID : Z; RatePerSecond : Z; MaxConcurrency : Z;
  Retry : RetryConfig; c_Schedule : Schedule; Breaker : BreakerConfig;
}.

(** ** The tables *)

Inductive rowState := RunQueued | RunProcessing | RunProcessed | RunFailed.
#[global] Instance rowState_dec : EqDecision rowState.
Proof. solve_decision. Defined.

(** The contact's "phone_number": a text, a number (its decimal text) or
    something else. *)
Inductive phone := PString (s : bytes) | PNumber (s : bytes) | POther.
Definition phoneOf (p : option phone) : bytes :=
  match p with Some (PString s) => s | Some (PNumber s) => s | _ => [] end.

(** A row of queued_runs. *)
Record row := mkRow {
  q_campaign : Z; q_source : bytes; q_phone : option phone; q_retry : Z;
  q_due : option Z; q_state : rowState;
}.
(** A row of campaigns. *)
Inductive campState := Running | Paused | Completed.
#[global] Instance campState_dec : EqDecision campState.
Proof. solve_decision. Defined.
Record camp := mkCamp { p_state : campState; processed_rows : Z; failed_rows : Z; p_vaani : bool; p_org : Z }.
(** An outbound row of workflow_runs. *)
Inductive wstate := WInitialized | WRunning | WCompleted.
#[global] Instance wstate_dec : EqDecision wstate.
Proof. solve_decision. Defined.
Record wrun := mkRun { w_campaign : Z; w_queued : Z; w_state : wstate; w_created : Z }.

Record db := mkDB { rows : gmap Z row; nextRow : Z; camps : gmap Z camp; runs : gmap Z wrun; nextRun : Z }.
#[global] Instance eta_db : Eta db := fun d => mkDB (rows d) (nextRow d) (camps d) (runs d) (nextRun d).

Definition with_state (s : rowState) (q : row) : row :=
  mkRow (q_campaign q) (q_source q) (q_phone q) (q_retry q) (q_due q) s.

(** [CampaignRunning]. *)
Definition CampaignRunning (c : Z) (d : db) : bool :=
  match camps d !! c with Some p => bool_decide (p_state p = Running) | None => false end.

(** [SetCampaignState]: moves only from the state it expects. *)
Definition SetCampaignState (c : Z) (from to : campState) (d : db) : db * bool :=
  match camps d !! c with
  | Some p => if decide (p_state p = from)
              then (d <| camps := <[c := mkCamp to (processed_rows p) (failed_rows p) (p_vaani p) (p_org p)]> (camps d) |>, true)
              else (d, false)
  | None => (d, false)
  end.
Definition CompleteCampaign (c : Z) : db -> db * bool := SetCampaignState c Running Completed.

(** [ClaimRuns]'s ORDER BY: the due retries first, the earliest first. *)
Definition due_before (a b : Z * row) : bool :=
  match q_due a.2, q_due b.2 with
  | Some x, Some y => (x <? y) || ((x =? y) && (a.1 <? b.1))
  | Some _, None => true
  | None, Some _ => false
  | None, None => a.1 <? b.1
  end.
Definition is_due (c now : Z) (q : row) : bool :=
  (q_campaign q =? c) && bool_decide (q_state q = RunQueued) &&
  match q_due q with None => true | Some t => t <=? now end.
Definition first_due (c now : Z) (d : db) : option (Z * row) :=
  fold_left (fun best iq =>
    if is_due c now iq.2 then
      match best with Some b => if due_before iq b then Some iq else best | None => Some iq end
    else best) (map_to_list (rows d)) None.
(** [ClaimRuns] with limit 1. *)
Definition ClaimRun (c now : Z) (d : db) : db * option (Z * row) :=
  match first_due c now d with
  | Some (i, q) => (d <| rows := <[i := with_state RunProcessing q]> (rows d) |>, Some (i, q))
  | None => (d, None)
  end.

Definition bump (c : Z) (f : camp -> camp) (d : db) : db :=
  match camps d !! c with Some p => d <| camps := <[c := f p]> (camps d) |> | None => d end.
Definition add_processed (p : camp) : camp := mkCamp (p_state p) (processed_rows p + 1) (failed_rows p) (p_vaani p) (p_org p).
Definition add_failed (p : camp) : camp := mkCamp (p_state p) (processed_rows p) (failed_rows p + 1) (p_vaani p) (p_org p).

(** [SetRunState]: one transaction, the counters included. *)
Definition SetRunState (i : Z) (s : rowState) (d : db) : db :=
  match rows d !! i with
  | None => d
  | Some q =>
      let d1 := d <| rows := <[i := with_state s q]> (rows d) |> in
      match s with
      | RunProcessed => bump (q_campaign q) add_processed d1
      | RunFailed => bump (q_campaign q) add_failed d1
      | _ => d1
      end
  end.
Definition AddFailedRow (c : Z) : db -> db := bump c add_failed.

(** Decimal text of a number. *)
Fixpoint digits (fuel : nat) (n : Z) (acc : bytes) : bytes :=
  match fuel with
  | O => acc
  | S k => if n <? 10 then (48 + n) :: acc else digits k (n / 10) ((48 + n mod 10) :: acc)
  end.
Definition decimal (n : Z) : bytes := if n <? 0 then 45 :: digits 20 (- n) [] else digits 20 n [].

(** [ScheduleRetry]; the conflict is on (campaign, source, attempt). *)
Definition same_retry (c : Z) (source : bytes) (n : Z) (q : row) : bool :=
  (q_campaign q =? c) && bool_decide (q_source q = source) && (q_retry q =? n).
Definition ScheduleRetry (q : row) (delay now : Z) (d : db) : db :=
  let n := q_retry q + 1 in
  let source := q_source q ++ bs "_retry_" ++ decimal n in
  if existsb (fun iq => same_retry (q_campaign q) source n iq.2) (map_to_list (rows d)) then d
  else d <| rows := <[nextRow d := mkRow (q_campaign q) source (q_phone q) n (Some (now + delay)) RunQueued]> (rows d) |>
         <| nextRow ::= Z.succ |>.

(** [OpenWork]: queued and processing contacts. *)
Definition count_rows (c : Z) (s : rowState) (d : db) : Z :=
  Z.of_nat (length (List.filter (fun iq => (q_campaign iq.2 =? c) && bool_decide (q_state iq.2 = s)) (map_to_list (rows d)))).
Definition OpenWork (c : Z) (d : db) : Z * Z := (count_rows c RunQueued d, count_rows c RunProcessing d).

Definition CreateOutboundRun (c q now : Z) (d : db) : db * Z :=
  (d <| runs := <[nextRun d := mkRun c q WInitialized now]> (runs d) |> <| nextRun ::= Z.succ |>, nextRun d).

(** [completeRun], the state only ([MarkNotConnected], [MarkInterrupted]). *)
Definition completeRun (run : Z) (d : db) : db :=
  match runs d !! run with
  | Some w => d <| runs := <[run := mkRun (w_campaign w) (w_queued w) WCompleted (w_created w)]> (runs d) |>
  | None => d
  end.

Definition is_vaani (c : Z) (d : db) : bool := match camps d !! c with Some p => p_vaani p | None => false end.
Definition has_run (i : Z) (d : db) : bool := existsb (fun w => w_queued w.2 =? i) (map_to_list (runs d)).

(** [RecoverContacts]. *)
Definition RecoverContacts (d : db) : db :=
  d <| rows := map_imap (fun i q =>
         Some (if bool_decide (q_state q = RunProcessing) && is_vaani (q_campaign q) d
               then with_state (if has_run i d then RunProcessed else RunQueued) q else q)) (rows d) |>.

(** [StaleRuns]. *)
Definition StaleRuns (before : Z) (includeRunning : bool) (live : gset Z) (d : db) : list (Z * wrun) :=
  List.filter (fun w => negb (bool_decide (w.1 ∈ live)) && is_vaani (w_campaign w.2) d &&
    ((bool_decide (w_state w.2 = WInitialized) && (w_created w.2 <? before)) ||
     (includeRunning && bool_decide (w_state w.2 = WRunning)))) (map_to_list (runs d)).
End Campaign.
