(* ===== verification/Runner.v ===== *)
(** [internal/campaign/runner.go]: [Runner], over the tables of [Campaign] and
    the Redis of [Limiter]. *)

From Stdlib Require Import String.
From S2P Require Import Prelude Text Limiter Campaign.

Local Open Scope Z_scope.
Local Open Scope m_scope.

Module Runner.
Import Limiter Campaign.

(** A call placed and not yet over: what its [Done] closes over. *)
Record call := mkCall { k_camp : Campaign; k_row : Z; k_q : row; k_run : Z; k_slot : Slot }.

(** Everything that is shared: the tables, Redis, [Runner]'s maps, the calls
    the telephone side will report on, and the instant. *)
Record world := mkWorld {
  tables : db; red : redis; inflight : gmap Z Z; liveRuns : gset Z; placed : list call; tick : nat;
}.
#[global] Instance eta_world : Eta world := fun w =>
  mkWorld (tables w) (red w) (inflight w) (liveRuns w) (placed w) (tick w).

(** What is worth watching from outside. *)
Inductive reff :=
  | RAcquired (s : Slot) | RReleased (s : Slot)
  | RDial (row : Z) (endpoint : bytes) (ok : bool)
  | RPaused (c : Z) | RCompleted (c : Z) | RRetry (row : Z) | RWake.

(** [dograh.DialSettings], the part [place] reads. *)
Record DialSettings := mkDial { isARI : bool; Endpoint : bytes -> bytes }.

(** The outside, by instant. *)
Record outside := mkOutside {
  clock : nat -> Z;
  ans : nat -> answer;
  wallet : nat -> bool;
  orgConcurrency : nat -> option Z;   (* CONCURRENT_CALL_LIMIT, if set *)
  orgRate : nat -> option Z;          (* DIAL_RATE_LIMIT_PER_SECOND, if set *)
  settings : nat -> DialSettings;
  slotID : nat -> bytes;
  dials : nat -> bool;
}.

Record RunnerConfig := mkConfig { DefaultOrgLimit : Z; RingTimeout : Z }.

(** [ari.Outcome]: connected, or a status. *)
Inductive Status := StatusBusy | StatusNoAnswer | StatusRejected | StatusFailed.
Definition StatusForCause (cause : Z) : Status :=
  if cause =? 17 then StatusBusy else if cause =? 19 then StatusNoAnswer
  else if cause =? 21 then StatusRejected else StatusFailed.
Inductive Outcome := Connected | NotConnected (s : Status).

Definition retryReason (s : Status) : bytes :=
  match s with StatusBusy => bs "busy" | StatusNoAnswer => bs "no_answer" | _ => [] end.

Inductive dialStep := stepDialed | stepWait (wait : Z) | stepStop.

Definition ract (A : Type) : Type := M world reff A.
Definition rupd (f : world -> world) : ract unit := mmod f.
Definition remit (e : reff) : ract unit := memit e.

Section runner.
Variable cfg : RunnerConfig.
Variable lim : Limiter.t.
Variable o : outside.

Definition ask {A} (f : nat -> A) : ract A :=
  let! w := mread in rupd (fun w => w <| tick ::= S |>) ;; mret (f (tick w)).

(** A statement on the tables: what it returns, or an error. *)
Definition sql {A} (f : db -> db * A) : ract (option A) :=
  let! a := ask (ans o) in
  let! w := mread in
  match a with
  | NotSent => mret None
  | ReplyLost => rupd (fun w => w <| tables := (f (tables w)).1 |>) ;; mret None
  | Answered => rupd (fun w => w <| tables := (f (tables w)).1 |>) ;; mret (Some (f (tables w)).2)
  end.
Definition exec (f : db -> db) : ract (option unit) := sql (fun d => (f d, tt)).
Definition query {A} (f : db -> A) : ract (option A) := sql (fun d => (d, f d)).

(** A limiter operation. *)
Definition lua {A} (f : redis -> redis * A) : ract A :=
  let! w := mread in rupd (fun w => w <| red := (f (red w)).1 |>) ;; mret (f (red w)).2.

Definition pause (c : Campaign) : ract unit :=
  let! moved := sql (SetCampaignState (ID c) Running Paused) in
  mwhen (default false moved) (remit (RPaused (ID c))).

Definition orgLimit (c : Campaign) : ract (option Z) :=
  let! v := ask (orgConcurrency o) in
  let! r := query (fun _ => v) in
  match r with
  | None => mret None
  | Some v =>
      let limit := default (DefaultOrgLimit cfg) v in
      mret (Some (if (0 <? MaxConcurrency c) && (MaxConcurrency c <? limit) then MaxConcurrency c else limit))
  end.

Definition dialRate (c : Campaign) : ract (option Z) :=
  let! v := ask (orgRate o) in
  let! r := query (fun _ => v) in
  match r with
  | None => mret None
  | Some None => mret (Some (RatePerSecond c))
  | Some (Some rate) => mret (Some (Z.max rate 1))
  end.

Definition release (s : Slot) : ract unit :=
  let! now := ask (clock o) in
  let! a1 := ask (ans o) in
  let! a2 := ask (ans o) in
  let! ok := lua (ReleaseSlot lim now s a1 a2) in
  remit (RReleased s).

Definition setRunState (i : Z) (s : rowState) : ract unit := let! r := exec (SetRunState i s) in mret tt.
Definition markNotConnected (run : Z) : ract unit := let! r := exec (completeRun run) in mret tt.

(** [inflight[id] += n], gone at zero. *)
Definition add_to (c n : Z) (m : gmap Z Z) : gmap Z Z :=
  let v := default 0 (m !! c) + n in if v <=? 0 then delete c m else <[c := v]> m.
Definition addInflight (c n : Z) : ract unit := rupd (fun w => w <| inflight := add_to c n (inflight w) |>).
Definition track (run : Z) (live : bool) : ract unit :=
  rupd (fun w => w <| liveRuns := if live then {[run]} ∪ liveRuns w else liveRuns w ∖ {[run]} |>).

Definition recordOutcome (c : Campaign) (failure : bool) : ract unit :=
  let! now := ask (clock o) in
  let! a := ask (ans o) in
  let! r := lua (RecordOutcome now (ID c) failure (Breaker c) a) in
  match r with Some (true, _, _) => pause c | _ => mret tt end.

(** [InFlight] and [maybeComplete]. *)
Definition InFlight (c : Z) (w : world) : Z := default 0 (inflight w !! c).
Definition maybeComplete (c : Campaign) : ract unit :=
  let! w := mread in
  if 0 <? InFlight (ID c) w then mret tt
  else
    let! work := query (OpenWork (ID c)) in
    match work with
    | Some (queued, processing) =>
        if (0 <? queued) || (0 <? processing) then mret tt
        else
          let! w := mread in
          if 0 <? InFlight (ID c) w then mret tt
          else
            let! done := sql (CompleteCampaign (ID c)) in
            mwhen (default false done) (remit (RCompleted (ID c)))
    | None => mret tt
    end.

(** Nothing was placed: the contact goes back. *)
Definition giveBack (i : Z) (slot : Slot) : ract dialStep :=
  release slot ;; setRunState i RunQueued ;; mret stepStop.

(** [place]. *)
Definition place (c : Campaign) (i : Z) (q : row) (slot : Slot) : ract dialStep :=
  let number := phoneOf (q_phone q) in
  if bool_decide (number = []) then release slot ;; setRunState i RunFailed ;; mret stepDialed
  else
    let! ds := ask (settings o) in
    let! ds := query (fun _ => ds) in
    match ds with
    | None => giveBack i slot
    | Some ds =>
        if negb (isARI ds) then pause c ;; giveBack i slot
        else
          let! now := ask (clock o) in
          let! run := sql (CreateOutboundRun (ID c) i now) in
          match run with
          | None => giveBack i slot
          | Some run =>
              addInflight (ID c) 1 ;; track run true ;;
              let! ok := ask (dials o) in
              remit (RDial i (Endpoint ds number) ok) ;;
              if negb ok then
                addInflight (ID c) (-1) ;; track run false ;; release slot ;;
                recordOutcome c true ;; markNotConnected run ;; setRunState i RunFailed ;;
                mret stepDialed
              else
                rupd (fun w => w <| placed ::= cons (mkCall c i q run slot) |>) ;;
                setRunState i RunProcessed ;;
                mret stepDialed
          end
    end.

(** [dialOne], from the slot on. *)
Definition claimAndPlace (c : Campaign) (slot : Slot) : ract dialStep :=
  let! now := ask (clock o) in
  let! runs := sql (ClaimRun (ID c) now) in
  match runs with
  | Some (Some (i, q)) => place c i q slot
  | Some None => release slot ;; maybeComplete c ;; mret stepStop
  | None => release slot ;; mret stepStop
  end.

(** [dialOne], once the campaign may dial: rate, slot, contact. *)
Definition takeSlotAndDial (c : Campaign) (limit rate : Z) : ract dialStep :=
  let! now := ask (clock o) in
  let! a := ask (ans o) in
  let! token := lua (AcquireToken now (OrganizationID c) rate a) in
  match token with
  | None => mret stepStop
  | Some false =>
      let! now := ask (clock o) in
      let! w := mread in
      mret (stepWait (NextTokenWait lim now (OrganizationID c) (red w)))
  | Some true =>
      let! now := ask (clock o) in
      let! id := ask (slotID o) in
      let! a1 := ask (ans o) in
      let! a2 := ask (ans o) in
      let! a3 := ask (ans o) in
      let! slot := lua (AcquireSlot lim now (OrganizationID c) limit id a1 a2 a3) in
      match slot with
      | Some (Some slot) => remit (RAcquired slot) ;; claimAndPlace c slot
      | _ => mret stepStop
      end
  end.

(** [dialOne]. *)
Definition dialOne (c : Campaign) : ract dialStep :=
  let! running := query (CampaignRunning (ID c)) in
  if negb (default false running) then mret stepStop
  else
    let! now := ask (clock o) in
    if negb (Allows (c_Schedule c) now) then mret stepStop
    else
      let! now := ask (clock o) in
      let! a := ask (ans o) in
      let! open := lua (BreakerOpen now (ID c) (Breaker c) a) in
      match open with
      | Some (true, _, _) => pause c ;; mret stepStop
      | _ =>
          let! blocked := ask (wallet o) in
          if blocked : bool then pause c ;; mret stepStop
          else
            let! limit := orgLimit c in
            match limit with
            | None => mret stepStop
            | Some limit =>
                let! rate := dialRate c in
                match rate with
                | None => mret stepStop
                | Some rate => takeSlotAndDial c limit rate
                end
            end
      end.

(** The retry [finished] decides on. *)
Definition retryContact (k : call) (s : Status) : ract unit :=
  let reason := retryReason s in
  if bool_decide (reason <> []) && Eligible (Retry (k_camp k)) reason then
    if MaxRetries (Retry (k_camp k)) <=? q_retry (k_q k) then
      let! r := exec (AddFailedRow (ID (k_camp k))) in mret tt
    else
      let! now := ask (clock o) in
      let! r := exec (ScheduleRetry (k_q k) (Delay (Retry (k_camp k))) now) in
      mwhen (bool_decide (r <> None)) (remit (RRetry (k_row k)))
  else mret tt.

(** [finished], for the call at position [n] of those placed. *)
Definition finished (n : nat) (out : Outcome) : ract unit :=
  let! w := mread in
  match placed w !! n with
  | None => mret tt
  | Some k =>
      rupd (fun w => w <| placed ::= fun l => take n l ++ drop (S n) l |>) ;;
      release (k_slot k) ;;
      match out with
      | Connected => recordOutcome (k_camp k) false
      | NotConnected s =>
          recordOutcome (k_camp k) (match s with StatusFailed | StatusRejected => true | _ => false end) ;;
          retryContact k s ;;
          markNotConnected (k_run k)
      end ;;
      track (k_run k) false ;; addInflight (ID (k_camp k)) (-1) ;; remit RWake
  end.

Fixpoint completeAll (l : list Z) : ract unit :=
  match l with
  | [] => mret tt
  | i :: r => (let! x := exec (completeRun i) in mret tt) ;; completeAll r
  end.

(** [sweep]. *)
Definition minute : Z := 60 * second.
Definition sweep (startup : bool) : ract unit :=
  let! w := mread in
  let! now := ask (clock o) in
  let! stale := query (StaleRuns (now - (RingTimeout cfg + minute)) startup (liveRuns w)) in
  completeAll (map fst (default [] stale)).

(** A new process after a crash: nothing of the old one's memory is left, the
    calls it had placed will report to nobody; then [recover]. *)
Definition restart : ract unit :=
  rupd (fun w => w <| inflight := ∅ |> <| liveRuns := ∅ |> <| placed := [] |>) ;;
  let! r := exec RecoverContacts in
  sweep true.

End runner.
End Runner.
