(* ===== verification/RunnerInv.v ===== *)
(** [internal/campaign/runner.go]: what any run of the dialer keeps, whatever
    fails and wherever it crashes: every slot is given back or belongs to a
    call in progress, the counters are those calls, and no contact is dialed
    twice. *)

From Stdlib Require Import String.
From S2P Require Import Prelude Text Limiter Campaign Runner.

Local Open Scope Z_scope.
Local Open Scope m_scope.

Module RunnerInv.
Import Limiter Campaign Runner.

Definition acquired (e : list reff) : list Slot := omap (fun x => match x with RAcquired s => Some s | _ => None end) e.
Definition released (e : list reff) : list Slot := omap (fun x => match x with RReleased s => Some s | _ => None end) e.
Definition dialed (e : list reff) : list Z := omap (fun x => match x with RDial i _ _ => Some i | _ => None end) e.

Lemma acquired_app a b : acquired (a ++ b) = acquired a ++ acquired b.
Proof. apply omap_app. Qed.
Lemma released_app a b : released (a ++ b) = released a ++ released b.
Proof. apply omap_app. Qed.
Lemma dialed_app a b : dialed (a ++ b) = dialed a ++ dialed b.
Proof. apply omap_app. Qed.

(** Sequences hand out keys beyond those in use. *)
Definition wf (d : db) : Prop :=
  (forall i q, rows d !! i = Some q -> i < nextRow d) /\ (forall j x, runs d !! j = Some x -> j < nextRun d).

(** The runs of before are still there, for the same contacts. *)
Definition keeps_runs (d d' : db) : Prop :=
  forall j x, runs d !! j = Some x -> exists x', runs d' !! j = Some x' /\ w_queued x' = w_queued x.

(** ** What leaves the contacts and the calls alone *)

Record quiet_db (d d' : db) : Prop := {
  qd_rows : rows d' = rows d; qd_next : nextRow d' = nextRow d; qd_seq : nextRun d <= nextRun d'; qd_runs : wf d -> keeps_runs d d'; qd_wf : wf d -> wf d';
}.

Definition calm (rs : list Slot) (w : world) (e : list reff) (w' : world) : Prop :=
  placed w' = placed w /\ inflight w' = inflight w /\ liveRuns w' = liveRuns w /\
  acquired e = [] /\ released e = rs /\ dialed e = [] /\ quiet_db (tables w) (tables w').

Lemma quiet_refl d : quiet_db d d.
Proof. split; auto; [lia|]. intros _ j x Hx. eauto. Qed.

Lemma quiet_trans a b c : quiet_db a b -> quiet_db b c -> quiet_db a c.
Proof.
  intros [R1 N1 S1 K1 W1] [R2 N2 S2 K2 W2]. split; [congruence..|lia| |auto]. intros W j x Hx.
  destruct (K1 W j x Hx) as (x1 & H1 & E1). destruct (K2 (W1 W) j x1 H1) as (x2 & H2 & E2). exists x2. by rewrite E2.
Qed.

Lemma calm_seq r1 r2 w1 e1 w2 e2 w3 : calm r1 w1 e1 w2 -> calm r2 w2 e2 w3 -> calm (r1 ++ r2) w1 (e1 ++ e2) w3.
Proof.
  intros (P1 & I1 & L1 & A1 & R1 & D1 & Q1) (P2 & I2 & L2 & A2 & R2 & D2 & Q2). unfold calm.
  rewrite acquired_app, released_app, dialed_app, P2, I2, L2, A1, A2, R1, R2, D1, D2.
  do 6 (split; [done|]). by eapply quiet_trans.
Qed.

#[export] Instance calm_rel : StepRel (calm []).
Proof.
  split; [intros s; do 6 (split; [done|]); apply quiet_refl|]. intros s1 w1 s2 w2 s3 H1 H2. exact (calm_seq [] [] _ _ _ _ _ H1 H2).
Qed.

(** Statements that are calm. *)
Lemma quiet_camps d f : quiet_db d (mkDB (rows d) (nextRow d) f (runs d) (nextRun d)).
Proof. split; [done|done|simpl; lia| |done]. intros _ j x Hx. eauto. Qed.

Lemma quiet_state c from to d : quiet_db d (SetCampaignState c from to d).1.
Proof.
  unfold SetCampaignState. destruct (camps d !! c) as [p|]; [|apply quiet_refl].
  destruct (decide _); [apply quiet_camps|apply quiet_refl].
Qed.

Lemma quiet_bump c f d : quiet_db d (bump c f d).
Proof. unfold bump. destruct (camps d !! c); [apply quiet_camps|apply quiet_refl]. Qed.

Lemma quiet_complete i d : quiet_db d (completeRun i d).
Proof.
  unfold completeRun. destruct (runs d !! i) as [x|] eqn:Ex; [|apply quiet_refl].
  split; [done|done|simpl; lia| |].
  - intros _ j y Hy. simpl. destruct (decide (j = i)) as [->|Hne].
    + rewrite lookup_insert_eq. eexists. split; [done|]. simpl. congruence.
    + rewrite lookup_insert_ne by done. eauto.
  - intros [H1 H2]. split; [done|]. simpl. intros j y [[<- _]|[_ Hy]]%lookup_insert_Some; eauto.
Qed.

Lemma quiet_create c i now d : quiet_db d (CreateOutboundRun c i now d).1.
Proof.
  split; [done|done|simpl; lia| |].
  - intros [_ W] j x Hx. simpl. rewrite lookup_insert_ne; [eauto|]. apply W in Hx. lia.
  - intros [H1 H2]. split; [done|]. simpl. intros j x [[<- _]|[_ Hx]]%lookup_insert_Some; [lia|]. apply H2 in Hx. lia.
Qed.

Section runner.
Variable cfg : RunnerConfig.
Variable lim : Limiter.t.
Variable o : outside.

Ltac calm_tac := idtac; unfold calm; simpl; do 6 (split; [reflexivity|]); auto using quiet_refl.
Ltac calm_auto := unfold rupd, remit in *; does_auto calm_tac.

Lemma calm_ask {A} (f : nat -> A) : does (calm []) (ask f).
Proof. unfold ask. calm_auto. Qed.
#[local] Hint Resolve calm_ask : does.

Lemma calm_sql {A} (f : db -> db * A) : (forall d, quiet_db d (f d).1) -> does (calm []) (sql o f).
Proof. intros H. unfold sql. unfold rupd. does_auto ltac:(idtac; unfold calm; simpl; do 6 (split; [reflexivity|]); apply H). Qed.
Lemma calm_query {A} (f : db -> A) : does (calm []) (query o f).
Proof. apply calm_sql. intros d. apply quiet_refl. Qed.
Lemma calm_exec f : (forall d, quiet_db d (f d)) -> does (calm []) (exec o f).
Proof. intros H. by apply calm_sql. Qed.
Lemma calm_lua {A} (f : redis -> redis * A) : does (calm []) (lua f).
Proof. unfold lua. calm_auto. Qed.
Lemma calm_move c from to : does (calm []) (sql o (SetCampaignState c from to)).
Proof. apply calm_sql. intros d. apply quiet_state. Qed.
Lemma calm_done c : does (calm []) (sql o (CompleteCampaign c)).
Proof. apply calm_move. Qed.
Lemma calm_create c i now : does (calm []) (sql o (CreateOutboundRun c i now)).
Proof. apply calm_sql. intros d. apply quiet_create. Qed.
Lemma calm_finish i : does (calm []) (exec o (completeRun i)).
Proof. apply calm_exec, quiet_complete. Qed.
#[local] Hint Resolve calm_query calm_lua calm_move calm_done calm_finish : does.

Lemma calm_pause c : does (calm []) (pause o c).
Proof. unfold pause. calm_auto. Qed.
#[local] Hint Resolve calm_pause : does.
Lemma calm_orgLimit c : does (calm []) (orgLimit cfg o c).
Proof. unfold orgLimit. calm_auto. Qed.
Lemma calm_dialRate c : does (calm []) (dialRate o c).
Proof. unfold dialRate. calm_auto. Qed.
Lemma calm_markNotConnected i : does (calm []) (markNotConnected o i).
Proof. unfold markNotConnected. calm_auto. Qed.
Lemma calm_recordOutcome c f : does (calm []) (recordOutcome o c f).
Proof. unfold recordOutcome. calm_auto. Qed.
Lemma calm_maybeComplete c : does (calm []) (maybeComplete o c).
Proof. unfold maybeComplete. calm_auto. Qed.
Lemma calm_completeAll l : does (calm []) (completeAll o l).
Proof. induction l as [|i l IH]; simpl; calm_auto. Qed.
#[local] Hint Resolve calm_orgLimit calm_dialRate calm_markNotConnected calm_recordOutcome calm_maybeComplete calm_completeAll : does.
Lemma calm_sweep b : does (calm []) (sweep cfg o b).
Proof. unfold sweep. calm_auto. Qed.

(** Giving a slot back. *)
Lemma release_calm s w : does_at (calm [s]) (release lim o s) w.
Proof.
  unfold does_at, release, ask, lua, rupd, remit, mout, mstate, mseq, mread, mmod, memit, mret, field_update. simpl.
  unfold calm. simpl. do 6 (split; [reflexivity|]). apply quiet_refl.
Qed.

Lemma calm_run rs {A} (m : ract A) w a w' e : does_at (calm rs) m w -> m w = (a, w', e) -> calm rs w e w'.
Proof using. unfold does_at, mout, mstate. intros H E. by rewrite E in H. Qed.

(** *** One contact *)

(** The contact's row: as it was, or in state [s]. *)
Definition row_set (i : Z) (s : rowState) (d d' : db) : Prop :=
  exists d1, quiet_db d d1 /\ (d' = d1 \/ d' = SetRunState i s d1).

Lemma setRunState_run i s w a w' e : setRunState o i s w = (a, w', e) ->
  placed w' = placed w /\ inflight w' = inflight w /\ liveRuns w' = liveRuns w /\ e = [] /\ row_set i s (tables w) (tables w').
Proof.
  unfold setRunState, exec, sql, ask, rupd, mseq, mread, mmod, mret, field_update. simpl.
  destruct (ans o (tick w)); simpl; intros [= <- <- <-]; simpl; do 4 (split; [reflexivity|]);
    exists (tables w); (split; [apply quiet_refl|]); auto.
Qed.

(** How [place] ends for contact [i]: nothing dialed and the slot given back;
    a dial that failed at once; or a call in progress. *)
Inductive place_ran (c : Campaign) (i : Z) (q : row) (slot : Slot) (w : world) : list reff -> world -> Prop :=
  | ran_undialed e w' s : placed w' = placed w -> inflight w' = inflight w -> liveRuns w' = liveRuns w ->
      acquired e = [] -> released e = [slot] -> dialed e = [] ->
      (s = RunFailed \/ s = RunQueued) -> row_set i s (tables w) (tables w') -> place_ran c i q slot w e w'
  | ran_dialed e w' run ok d1 s :
      acquired e = [] -> dialed e = [i] -> quiet_db (tables w) d1 -> nextRun (tables w) <= run < nextRun d1 ->
      (wf (tables w) -> exists x, runs d1 !! run = Some x /\ w_queued x = i) ->
      (if ok : bool then released e = [] /\ placed w' = mkCall c i q run slot :: placed w /\
         inflight w' = add_to (ID c) 1 (inflight w) /\ liveRuns w' = {[run]} ∪ liveRuns w
       else released e = [slot] /\ placed w' = placed w /\
         inflight w' = add_to (ID c) (-1) (add_to (ID c) 1 (inflight w)) /\ liveRuns w' = ({[run]} ∪ liveRuns w) ∖ {[run]}) ->
      (s = RunFailed \/ s = RunProcessed) -> row_set i s d1 (tables w') -> place_ran c i q slot w e w'.

Lemma quiet_row_set i s a b c : quiet_db a b -> row_set i s b c -> row_set i s a c.
Proof. intros H (d1 & Q & E). exists d1. split; [by eapply quiet_trans|done]. Qed.

(** Nothing dialed: the slot is given back and the contact's row set. *)
Lemma undialed c i q slot w e1 w1 s {A} (x : A) a w' e2 : calm [] w e1 w1 -> s = RunFailed \/ s = RunQueued ->
  mseq (release lim o slot) (fun _ => mseq (setRunState o i s) (fun _ => mret x)) w1 = (a, w', e2) ->
  place_ran c i q slot w (e1 ++ e2) w'.
Proof.
  intros C Hs E. apply mseq_inv in E as (? & w2 & e3 & e4 & E1 & E & ->).
  apply mseq_inv in E as (? & w3 & e5 & e6 & E2 & E & ->). injection E as <- <- <-.
  apply (calm_run [slot]) in E1; [|apply release_calm].
  destruct (calm_seq _ _ _ _ _ _ _ C E1) as (P & I & L & A1 & R & D & Q).
  apply setRunState_run in E2 as (P2 & I2 & L2 & -> & H). rewrite app_nil_r.
  eapply ran_undialed; [congruence..|exact A1|exact R|exact D|exact Hs|by eapply quiet_row_set].
Qed.

Lemma sql_create c i now w r w' e : sql o (CreateOutboundRun c i now) w = (r, w', e) ->
  calm [] w e w' /\ match r with
    | Some run => run = nextRun (tables w) /\ tables w' = (CreateOutboundRun c i now (tables w)).1
    | None => True end.
Proof.
  intros E. split; [eapply calm_run; [apply calm_create|exact E]|].
  unfold sql, ask, rupd, mseq, mread, mmod, mret, field_update in E. simpl in E.
  destruct (ans o (tick w)); simpl in E; by injection E as <- <- <-.
Qed.

Lemma place_is_ran c i q slot w a w' e : place lim o c i q slot w = (a, w', e) -> place_ran c i q slot w e w'.
Proof.
  unfold place. case_bool_decide as Hn.
  { intros E. apply (undialed c i q slot w [] w _ _ _ _ _ (step_nil w) (or_introl eq_refl) E). }
  intros E. apply mseq_inv in E as (ds & w1 & e1 & e1' & E1 & E & ->).
  apply (calm_run []) in E1; [|apply calm_ask]. 
  apply mseq_inv in E as (ds' & w2 & e2 & e2' & E2 & E & ->).
  apply (calm_run []) in E2; [|apply calm_query]. rewrite app_assoc. pose proof (calm_seq _ _ _ _ _ _ _ E1 E2) as C.
  clear E1 E2. set (e0 := e1 ++ e2) in *. clearbody e0. destruct ds' as [ds'|]; [|by eapply undialed; [exact C|right|exact E]].
  destruct (negb (isARI ds')).
  { apply mseq_inv in E as (? & w3 & e3 & e3' & E3 & E & ->). apply (calm_run []) in E3; [|apply calm_pause].
    rewrite app_assoc. eapply undialed; [exact (calm_seq _ _ _ _ _ _ _ C E3)|by right|exact E]. }
  apply mseq_inv in E as (now & w3 & e3 & e3' & E3 & E & ->). apply (calm_run []) in E3; [|apply calm_ask].
  apply mseq_inv in E as (run & w4 & e4 & e4' & E4 & E & ->).
  pose proof (calm_seq _ _ _ _ _ _ _ C E3) as C3. apply sql_create in E4 as [E4 Hrun].
  pose proof (calm_seq _ _ _ _ _ _ _ C3 E4) as C4. rewrite !app_assoc. clear C E3.
  destruct run as [run|]; [|by eapply undialed; [exact C4|right|exact E]]. destruct Hrun as [-> Ht].
  assert (Hb : nextRun (tables w) <= nextRun (tables w3) < nextRun (tables w4)).
  { rewrite Ht. simpl. destruct C3 as (_ & _ & _ & _ & _ & _ & Q3). pose proof (qd_seq _ _ Q3). lia. }
  set (e9 := ((e0 ++ e3) ++ e4)) in *. clearbody e9. clear e0 e3 e4 C3 E4.
  destruct C4 as (P & I & L & A & R & D & Q).
  assert (Hx : wf (tables w) -> exists x, runs (tables w4) !! nextRun (tables w3) = Some x /\ w_queued x = i).
  { intros _. rewrite Ht. simpl. rewrite lookup_insert_eq. eauto. }
  set (run := nextRun (tables w3)) in *. clearbody run.
  unfold addInflight, track, ask, rupd, remit in E.
  repeat (apply mseq_inv in E as (? & ? & ? & ? & E1 & E & ->); injection E1 as <- <- <-).
  destruct (dials o _); simpl in E.
  - apply mseq_inv in E as (? & ? & ? & ? & E1 & E & ->). injection E1 as <- <- <-.
    apply mseq_inv in E as (? & w6 & e5 & e6 & E1 & E & ->). injection E as <- <- <-.
    apply setRunState_run in E1 as (P2 & I2 & L2 & -> & H).
    eapply (ran_dialed _ _ _ _ _ _ _ run true (tables w4) RunProcessed); try eassumption; [..|by right].
    + rewrite acquired_app, A. done.
    + rewrite dialed_app, D. done.
    + rewrite released_app, R. rewrite P2, I2, L2. simpl. rewrite P, I, L. done.
  - do 2 (apply mseq_inv in E as (? & ? & ? & ? & E1 & E & ->); injection E1 as <- <- <-).
    apply mseq_inv in E as (? & w6 & e5 & e5' & E1 & E & ->). apply (calm_run [slot]) in E1; [|apply release_calm].
    apply mseq_inv in E as (? & w7 & e6 & e6' & E2 & E & ->). apply (calm_run []) in E2; [|apply calm_recordOutcome].
    apply mseq_inv in E as (? & w8 & e7 & e7' & E3 & E & ->). apply (calm_run []) in E3; [|apply calm_markNotConnected].
    destruct (calm_seq _ _ _ _ _ _ _ (calm_seq _ _ _ _ _ _ _ E1 E2) E3) as (P3 & I3 & L3 & A3 & R3 & D3 & Q3).
    apply mseq_inv in E as (? & w9 & e8 & e8' & E4 & E & ->). injection E as <- <- <-.
    apply setRunState_run in E4 as (P2 & I2 & L2 & -> & H). rewrite !app_nil_r in *. simpl in *.
    eapply (ran_dialed _ _ _ _ _ _ _ run false (tables w4) RunFailed); try eassumption; [..|by left|by eapply quiet_row_set].
    + rewrite acquired_app, A, app_assoc. exact A3.
    + rewrite dialed_app, D. simpl. rewrite app_assoc. by rewrite D3.
    + rewrite released_app, R. simpl. rewrite app_assoc, R3, P2, I2, L2, P3, I3, L3, P, I, L. done.
Qed.

(** *** A pass of [dialOne] *)

Lemma first_due_queued c now d i q : first_due c now d = Some (i, q) -> rows d !! i = Some q /\ q_state q = RunQueued.
Proof using.
  unfold first_due. intros H.
  assert (forall l best, fold_left (fun best iq => if is_due c now iq.2 then
      match best with Some b => if due_before iq b then Some iq else best | None => Some iq end else best) l best = Some (i, q) ->
    best = Some (i, q) \/ (i, q) ∈ l /\ is_due c now q = true) as Hf.
  { induction l as [|iq l IH]; intros best E; [by left|]. simpl in E. apply IH in E as [E|[E Hd]]; [|right; split; [by right|done]].
    destruct (is_due c now iq.2) eqn:Hd; [|by left]. destruct best as [b|].
    - destruct (due_before iq b); [|by left]. injection E as ->. right. split; [by left|done].
    - injection E as ->. right. split; [by left|done]. }
  apply Hf in H as [|[Hin Hd]]; [done|]. apply elem_of_map_to_list in Hin. split; [done|].
  unfold is_due in Hd. rewrite !andb_true_iff, bool_decide_eq_true in Hd. naive_solver.
Qed.

(** The tables, up to quiet statements, after at most one claim. *)
Definition maybe_claim (c : Z) (d d' : db) : Prop :=
  exists d1 d2, quiet_db d d1 /\ (d2 = d1 \/ exists now, d2 = (ClaimRun c now d1).1) /\ quiet_db d2 d'.

Inductive dial_ran (c : Campaign) (w : world) : list reff -> world -> Prop :=
  | dr_idle e w' : calm [] w e w' -> dial_ran c w e w'
  | dr_back slot e w' : placed w' = placed w -> inflight w' = inflight w -> liveRuns w' = liveRuns w ->
      acquired e = [slot] -> released e = [slot] -> dialed e = [] -> maybe_claim (ID c) (tables w) (tables w') ->
      dial_ran c w e w'
  | dr_place slot i q now d1 w1 e1 e2 w' : placed w1 = placed w -> inflight w1 = inflight w -> liveRuns w1 = liveRuns w ->
      acquired e1 = [slot] -> released e1 = [] -> dialed e1 = [] -> quiet_db (tables w) d1 ->
      first_due (ID c) now d1 = Some (i, q) -> tables w1 = (ClaimRun (ID c) now d1).1 ->
      place_ran c i q slot w1 e2 w' -> dial_ran c w (e1 ++ e2) w'.

Lemma claimAndPlace_ran c slot w0 e0 w a w' e : calm [] w0 e0 w -> claimAndPlace lim o c slot w = (a, w', e) ->
  dial_ran c w0 (e0 ++ RAcquired slot :: e) w'.
Proof.
  intros C E. unfold claimAndPlace in E. apply mseq_inv in E as (now & w1 & e1 & e1' & E1 & E & ->).
  apply (calm_run []) in E1; [|apply calm_ask]. pose proof (calm_seq _ _ _ _ _ _ _ C E1) as (P & I & L & A & R & D & Q).
  rewrite acquired_app in A. rewrite released_app in R. rewrite dialed_app in D.
  apply app_eq_nil in A as [A0 A1]. apply app_eq_nil in R as [R0 R1]. apply app_eq_nil in D as [D0 D1].
  apply mseq_inv in E as (r & w2 & e2 & e2' & E2 & E & ->).
  assert (e2 = [] /\ placed w2 = placed w1 /\ inflight w2 = inflight w1 /\ liveRuns w2 = liveRuns w1 /\
    (tables w2 = tables w1 /\ r = None \/ tables w2 = (ClaimRun (ID c) now (tables w1)).1 /\
      (r = None \/ r = Some (ClaimRun (ID c) now (tables w1)).2))) as (-> & P2 & I2 & L2 & T2).
  { unfold sql, ask, rupd, mseq, mread, mmod, mret, field_update in E2. simpl in E2.
    destruct (ans o (tick w1)); simpl in E2; injection E2 as <- <- <-; simpl; auto 10. }
  destruct r as [[[i q]|]|].
  - destruct T2 as [[_ T2]|[T2 [T2'|T2']]]; [done|done|]. injection T2' as T2'.
    replace (e0 ++ RAcquired slot :: e1 ++ [] ++ e2') with ((e0 ++ RAcquired slot :: e1) ++ e2') by (rewrite <- app_assoc; done).
    apply (dr_place c w0 slot i q now (tables w1) w2); [congruence..| | | |exact Q| |exact T2|by eapply place_is_ran].
    + rewrite acquired_app, A0. simpl. by rewrite A1.
    + rewrite released_app, R0. simpl. by rewrite R1.
    + rewrite dialed_app, D0. simpl. by rewrite D1.
    + unfold ClaimRun in T2'. destruct (first_due _ _ _) as [[i' q']|]; simpl in T2'; congruence.
  - apply mseq_inv in E as (? & w3 & e3 & e3' & E3 & E & ->). apply (calm_run [slot]) in E3; [|apply release_calm].
    apply mseq_inv in E as (? & w4 & e4 & e4' & E4 & E & ->). apply (calm_run []) in E4; [|apply calm_maybeComplete].
    injection E as <- <- <-. pose proof (calm_seq _ _ _ _ _ _ _ E3 E4) as (P5 & I5 & L5 & A5 & R5 & D5 & Q5).
    simpl in R5. rewrite !app_nil_r. simpl. rewrite acquired_app in A5. rewrite released_app in R5. rewrite dialed_app in D5.
    apply (dr_back c w0 slot); [congruence..| | | |].
    + rewrite acquired_app, A0. simpl. by rewrite !acquired_app, A1, A5.
    + rewrite released_app, R0. simpl. by rewrite !released_app, R1, R5.
    + rewrite dialed_app, D0. simpl. by rewrite !dialed_app, D1, D5.
    + exists (tables w1), (tables w2). split; [exact Q|]. split; [|exact Q5]. destruct T2 as [[T2 _]|[T2 _]]; eauto.
  - apply mseq_inv in E as (? & w3 & e3 & e3' & E3 & E & ->). apply (calm_run [slot]) in E3; [|apply release_calm].
    injection E as <- <- <-. destruct E3 as (P5 & I5 & L5 & A5 & R5 & D5 & Q5). rewrite app_nil_r. simpl.
    apply (dr_back c w0 slot); [congruence..| | | |].
    + rewrite acquired_app, A0. simpl. by rewrite acquired_app, A1, A5.
    + rewrite released_app, R0. simpl. by rewrite released_app, R1, R5.
    + rewrite dialed_app, D0. simpl. by rewrite dialed_app, D1, D5.
    + exists (tables w1), (tables w2). split; [exact Q|]. split; [|exact Q5]. destruct T2 as [[T2 _]|[T2 _]]; eauto.
Qed.

(** Pass a calm statement of a run [E], [C] saying all was calm so far. *)
Ltac calm_next E C :=
  let E1 := fresh "E" in let C' := fresh "C" in
  apply mseq_inv in E as (? & ? & ? & ? & E1 & E & ->); apply (calm_run []) in E1; [|apply does_of; solve [auto with does]];
  pose proof (calm_seq _ _ _ _ _ _ _ C E1) as C'; clear C E1; rename C' into C; cbn [app] in C; rewrite app_assoc.
Ltac calm_end E C := apply dr_idle; injection E as <- <- <-; rewrite app_nil_r; exact C.

Lemma takeSlotAndDial_ran c limit rate w0 e0 w a w' e : calm [] w0 e0 w ->
  takeSlotAndDial lim o c limit rate w = (a, w', e) -> dial_ran c w0 (e0 ++ e) w'.
Proof.
  intros C E. unfold takeSlotAndDial in E. do 3 calm_next E C.
  match type of E with (match ?t with _ => _ end) _ = _ => destruct t as [[]|] end; [|..|by calm_end E C].
  - do 6 calm_next E C.
    match type of E with (match ?t with _ => _ end) _ = _ => destruct t as [[slot|]|] end; [|calm_end E C..].
    apply mseq_inv in E as (? & ? & ? & ? & E1 & E & ->). injection E1 as <- <- <-.
    by eapply claimAndPlace_ran.
  - calm_next E C. apply mseq_inv in E as (? & ? & ? & ? & E1 & E & ->). injection E1 as <- <- <-. simpl.
    calm_end E C.
Qed.

Lemma dialOne_ran c w a w' e : dialOne cfg lim o c w = (a, w', e) -> dial_ran c w e w'.
Proof.
  intros E. assert (C : calm [] w [] w) by apply step_nil. change e with ([] ++ e). unfold dialOne in E.
  calm_next E C. destruct (negb _); [calm_end E C|].
  calm_next E C. destruct (negb _); [calm_end E C|].
  do 3 calm_next E C.
  match type of E with (match ?t with _ => _ end) _ = _ => destruct t as [[[[] ?] ?]|] end.
  { calm_next E C. calm_end E C. }
  all: calm_next E C.
  all: match type of E with (if ?b then _ else _) _ = _ => destruct b end; [calm_next E C; calm_end E C|].
  all: calm_next E C; match type of E with (match ?t with _ => _ end) _ = _ => destruct t end; [|calm_end E C].
  all: calm_next E C; match type of E with (match ?t with _ => _ end) _ = _ => destruct t end; [|calm_end E C].
  all: by eapply takeSlotAndDial_ran.
Qed.

(** *** The end of a call *)

(** Calm, but for one row added as a retry of [q]. *)
Definition retried (q : row) (rs : list Slot) (w : world) (e : list reff) (w' : world) : Prop :=
  placed w' = placed w /\ inflight w' = inflight w /\ liveRuns w' = liveRuns w /\
  acquired e = [] /\ released e = rs /\ dialed e = [] /\
  exists d1 d2, quiet_db (tables w) d1 /\ (d2 = d1 \/ exists delay now, d2 = ScheduleRetry q delay now d1) /\ quiet_db d2 (tables w').

Lemma calm_retried q rs w e w' : calm rs w e w' -> retried q rs w e w'.
Proof.
  intros (P & I & L & A & R & D & Q). do 6 (split; [done|]). exists (tables w'), (tables w').
  split; [done|]. split; [by left|apply quiet_refl].
Qed.
Lemma retried_after q r1 r2 w e1 w1 e2 w2 : calm r1 w e1 w1 -> retried q r2 w1 e2 w2 -> retried q (r1 ++ r2) w (e1 ++ e2) w2.
Proof.
  intros (P & I & L & A & R & D & Q) (P1 & I1 & L1 & A1 & R1 & D1 & d1 & d2 & Q1 & H & Q2). unfold retried.
  rewrite acquired_app, released_app, dialed_app, A, A1, R, R1, D, D1, P1, I1, L1. do 6 (split; [done|]).
  exists d1, d2. split; [by eapply quiet_trans|done].
Qed.
Lemma retried_then q r1 r2 w e1 w1 e2 w2 : retried q r1 w e1 w1 -> calm r2 w1 e2 w2 -> retried q (r1 ++ r2) w (e1 ++ e2) w2.
Proof.
  intros (P & I & L & A & R & D & d1 & d2 & Q1 & H & Q2) (P1 & I1 & L1 & A1 & R1 & D1 & Q). unfold retried.
  rewrite acquired_app, released_app, dialed_app, A, A1, R, R1, D, D1, P1, I1, L1. do 6 (split; [done|]).
  exists d1, d2. split; [done|]. split; [done|by eapply quiet_trans].
Qed.

Lemma calm_addFailed c : does (calm []) (exec o (AddFailedRow c)).
Proof. apply calm_exec. intros d. apply quiet_bump. Qed.
#[local] Hint Resolve calm_addFailed : does.

Lemma schedule_run q delay now w r w' e : exec o (ScheduleRetry q delay now) w = (r, w', e) -> retried q [] w e w'.
Proof.
  unfold exec, sql, ask, rupd, mseq, mread, mmod, mret, field_update. simpl.
  destruct (ans o (tick w)); simpl; intros [= <- <- <-]; simpl; do 6 (split; [reflexivity|]);
    eexists (tables w), _; (split; [apply quiet_refl|]); (split; [|apply quiet_refl]); eauto.
Qed.

Lemma retryContact_run k s w a w' e : retryContact o k s w = (a, w', e) -> retried (k_q k) [] w e w'.
Proof.
  unfold retryContact. destruct (_ && _); [|intros E; injection E as <- <- <-; apply calm_retried, step_nil].
  destruct (_ <=? _).
  - intros E. apply calm_retried. apply (calm_run []) in E; [done|]. calm_auto.
  - intros E. apply mseq_inv in E as (now & w1 & e1 & e1' & E1 & E & ->). apply (calm_run []) in E1; [|apply calm_ask].
    apply mseq_inv in E as (r & w2 & e2 & e2' & E2 & E & ->). apply schedule_run in E2.
    apply (retried_after _ [] []) with w1; [done|]. apply (retried_then _ [] []) with w2; [done|].
    apply (calm_run []) in E; [done|]. calm_auto.
Qed.

(** [finished]: the call is taken off, its slot given back, its contact perhaps
    queued again as a new row. *)
Lemma finished_ran n out w a w' e : finished lim o n out w = (a, w', e) ->
  match placed w !! n with
  | None => w' = w /\ e = []
  | Some k => exists w1 w2,
      w1 = (w <| placed := take n (placed w) ++ drop (S n) (placed w) |>) /\ retried (k_q k) [k_slot k] w1 e w2 /\
      w' = (w2 <| liveRuns := liveRuns w2 ∖ {[k_run k]} |> <| inflight := add_to (ID (k_camp k)) (-1) (inflight w2) |>)
  end.
Proof.
  intros E. unfold finished in E. apply mseq_inv in E as (? & ? & ? & ? & E1 & E & ->). injection E1 as <- <- <-.
  destruct (placed w !! n) as [k|]; [|by injection E as <- <- <-].
  apply mseq_inv in E as (? & ? & ? & ? & E1 & E & ->). injection E1 as <- <- <-.
  match type of E with _ ?x = _ => set (w1 := x) in E end. exists w1.
  apply mseq_inv in E as (? & w2 & e2 & e2' & E2 & E & ->). apply (calm_run [k_slot k]) in E2; [|apply release_calm].
  apply mseq_inv in E as (? & w3 & e3 & e3' & E3 & E & ->).
  assert (retried (k_q k) [] w2 e3 w3) as H3.
  { destruct out as [|s].
    - apply calm_retried. apply (calm_run []) in E3; [done|]. apply does_of, calm_recordOutcome.
    - apply mseq_inv in E3 as (? & w4 & e4 & e4' & E4 & E3 & ->). apply (calm_run []) in E4; [|apply calm_recordOutcome].
      apply mseq_inv in E3 as (? & w5 & e5 & e5' & E5 & E3 & ->). apply retryContact_run in E5.
      apply (calm_run []) in E3; [|apply calm_markNotConnected].
      apply (retried_after _ [] []) with w4; [done|]. by apply (retried_then _ [] []) with w5. }
  pose proof (retried_after _ _ _ _ _ _ _ _ E2 H3) as H. exists w3. split; [done|].
  unfold track, addInflight, rupd, remit in E.
  do 2 (apply mseq_inv in E as (? & ? & ? & ? & E1 & E & ->); injection E1 as <- <- <-). injection E as <- <- <-.
  split; [|done]. simpl. rewrite app_assoc. destruct H as (P & I & L & A & R & D & Q). unfold retried.
  rewrite acquired_app, released_app, dialed_app, A, R, D. done.
Qed.
End runner.

(** ** Any run of the dialer *)

(** What Dograh and its users do to the tables meanwhile: contacts and
    campaigns may be added, campaigns changed, runs moved on; contacts are not
    taken back. *)
Record others (d d' : db) : Prop := {
  ot_rows i q : rows d !! i = Some q -> rows d' !! i = Some q;
  ot_new i q : rows d' !! i = Some q -> rows d !! i = Some q \/ nextRow d <= i;
  ot_next : nextRow d <= nextRow d'; ot_seq : nextRun d <= nextRun d';
  ot_runs : keeps_runs d d'; ot_wf : wf d -> wf d';
}.

Section system.
Variable cfg : RunnerConfig.
Variable lim : Limiter.t.

(** A step of the process, of the telephone side's reports, or of others; with
    [crash], the process may also die and be restarted. A process that dies
    inside a step is one whose remaining calls are not sent. *)
Inductive rstep (crash : bool) : world -> list reff -> world -> Prop :=
  | r_dial o c w a w' e : dialOne cfg lim o c w = (a, w', e) -> rstep crash w e w'
  | r_finished o n out w a w' e : finished lim o n out w = (a, w', e) -> rstep crash w e w'
  | r_sweep o w a w' e : sweep cfg o false w = (a, w', e) -> rstep crash w e w'
  | r_restart o w a w' e : crash = true -> restart cfg o w = (a, w', e) -> rstep crash w e w'
  | r_others w d' r' : others (tables w) d' -> rstep crash w [] (w <| tables := d' |> <| red := r' |>).

Inductive runs_to (crash : bool) : world -> list reff -> world -> Prop :=
  | runs_nil w : runs_to crash w [] w
  | runs_cons w e w1 es w' : rstep crash w e w1 -> runs_to crash w1 es w' -> runs_to crash w (e ++ es) w'.

(** *** No contact is dialed twice *)

(** [D]: the contacts dialed so far. None is queued, and each has its run. *)
Definition safe (D : list Z) (d : db) : Prop :=
  wf d /\ forall i, i ∈ D -> (exists q, rows d !! i = Some q /\ q_state q <> RunQueued) /\
    exists j x, runs d !! j = Some x /\ w_queued x = i.

Lemma safe_quiet D d d' : safe D d -> quiet_db d d' -> safe D d'.
Proof.
  intros [W H] [R N S K W']. split; [auto|]. intros i Hi. destruct (H i Hi) as [Hq (j & x & Hj & Hx)]. rewrite R. split; [done|].
  destruct (K W j x Hj) as (x' & Hx' & E). exists j, x'. by rewrite E.
Qed.

Lemma safe_rows D d f : safe D d -> (forall i q, f !! i = Some q -> is_Some (rows d !! i)) ->
  (forall i, i ∈ D -> exists q, f !! i = Some q /\ q_state q <> RunQueued) -> safe D (d <| rows := f |>).
Proof.
  intros [[W1 W2] H] Hf Hs. split.
  - split; [|done]. simpl. intros i q Hi. destruct (Hf i q Hi) as [q' Hq]. eauto.
  - intros i Hi. split; [by apply Hs|]. by apply (H i Hi).
Qed.

Lemma safe_insert D d i q : safe D d -> is_Some (rows d !! i) -> q_state q <> RunQueued \/ i ∉ D ->
  safe D (d <| rows := <[i := q]> (rows d) |>).
Proof.
  intros S Hi Hq. apply safe_rows; [done| |].
  - intros j q' [[<- _]|[_ Hj]]%lookup_insert_Some; [done|by eexists].
  - intros j Hj. destruct (decide (j = i)) as [->|Hne].
    + rewrite lookup_insert_eq. destruct Hq as [Hq|Hq]; [eauto|done].
    + rewrite lookup_insert_ne by done. by apply (proj2 S).
Qed.

Lemma safe_setRun D d i s : safe D d -> s <> RunQueued \/ i ∉ D -> safe D (SetRunState i s d).
Proof.
  intros S Hs. unfold SetRunState. destruct (rows d !! i) as [q|] eqn:E; [|done].
  assert (safe D (d <| rows := <[i := with_state s q]> (rows d) |>)) as H by (apply safe_insert; [done|by eexists|done]).
  destruct s; [done|done|..]; (eapply safe_quiet; [exact H|apply quiet_bump]).
Qed.

Lemma safe_row_set D d d' i s : safe D d -> row_set i s d d' -> s <> RunQueued \/ i ∉ D -> safe D d'.
Proof.
  intros S (d1 & Q & H) Hs. apply (safe_quiet _ _ _ S) in Q. destruct H as [->| ->]; [done|by apply safe_setRun].
Qed.

Lemma safe_claim D d c now : safe D d -> safe D (ClaimRun c now d).1.
Proof.
  intros S. unfold ClaimRun. destruct (first_due c now d) as [[i q]|] eqn:E; [|done].
  apply first_due_queued in E as [E _]. apply safe_insert; [done|by eexists|by left].
Qed.

Lemma safe_retry D d q delay now : safe D d -> safe D (ScheduleRetry q delay now d).
Proof.
  intros [[W1 W2] H]. unfold ScheduleRetry. destruct (existsb _ _); [done|]. split.
  - split; [|done]. simpl. intros i x [[<- _]|[_ Hi]]%lookup_insert_Some; [lia|]. apply W1 in Hi. lia.
  - intros i Hi. destruct (H i Hi) as [(x & Hx & Hs) Hr]. split; [|done]. exists x. split; [|done]. simpl.
    rewrite lookup_insert_ne; [done|]. apply W1 in Hx. lia.
Qed.

Lemma safe_recover D d : safe D d -> safe D (RecoverContacts d).
Proof.
  intros S. unfold RecoverContacts. apply safe_rows; [done| |].
  - intros i q. rewrite map_lookup_imap. destruct (rows d !! i); [by eexists|done].
  - intros i Hi. destruct (proj2 S i Hi) as [(q & Hq & Hs) (j & x & Hj & Hx)].
    rewrite map_lookup_imap, Hq. simpl. eexists. split; [done|].
    assert (has_run i d = true) as ->.
    { apply existsb_exists. exists (j, x). split; [|simpl; by apply Z.eqb_eq]. by apply list_elem_of_In, elem_of_map_to_list. }
    destruct (_ && _); [done|done].
Qed.

Lemma safe_others D d d' : safe D d -> others d d' -> safe D d'.
Proof.
  intros [W H] [R Nw N S K W']. split; [auto|]. intros i Hi. destruct (H i Hi) as [(q & Hq & Hs) (j & x & Hj & Hx)].
  split; [eauto|]. destruct (K j x Hj) as (x' & Hx' & E). exists j, x'. by rewrite E.
Qed.

Lemma safe_place D c i q slot w e w' : safe D (tables w) -> i ∉ D -> (exists q0, rows (tables w) !! i = Some q0 /\ q_state q0 <> RunQueued) ->
  place_ran c i q slot w e w' -> safe (dialed e ++ D) (tables w') /\ (dialed e = [] \/ dialed e = [i]).
Proof.
  intros S Hi (q0 & Hq0 & Hn) P. inversion P as [? ? s ? ? ? ? ? Dl Hs H|? ? run ok d1 s ? Dl Q Hrun Hx ? Hs H]; subst; rewrite Dl.
  - split; [|by left]. eapply safe_row_set; [exact S|exact H|by right].
  - split; [|by right]. destruct (Hx (proj1 S)) as (x & Hx1 & Hx2).
    eapply safe_row_set; [|exact H|left; by destruct Hs as [->| ->]].
    pose proof (safe_quiet _ _ _ S Q) as [Wd Hd]. split; [done|]. intros j [->|Hj]%elem_of_cons; [|by apply Hd].
    rewrite (qd_rows _ _ Q). split; [eauto|]. by exists run, x.
Qed.

Lemma safe_dial D o c w a w' e : safe D (tables w) -> NoDup D -> dialOne cfg lim o c w = (a, w', e) ->
  safe (dialed e ++ D) (tables w') /\ NoDup (dialed e ++ D).
Proof.
  intros S ND E. apply dialOne_ran in E. destruct E as [e w' C|slot e w' P I L A R Dl (d1 & d2 & Q1 & H & Q2)|
    slot i q now d1 w1 e1 e2 w' P I L A R Dl Q F T Pl].
  - destruct C as (_ & _ & _ & _ & _ & -> & Q). split; [by eapply safe_quiet|done].
  - rewrite Dl. split; [|done]. apply (safe_quiet _ _ _ S) in Q1. eapply safe_quiet; [|exact Q2].
    destruct H as [->|[now ->]]; [done|by apply safe_claim].
  - apply (safe_quiet _ _ _ S) in Q. pose proof (first_due_queued _ _ _ _ _ F) as [Hr Hq].
    assert (i ∉ D) as Hi.
    { intros Hi. destruct (proj2 Q i Hi) as [(q' & Hq' & Hn) _]. congruence. }
    rewrite dialed_app, Dl. simpl. destruct (safe_place D c i q slot w1 e2 w') as [Hs He]; [|done| |done|].
    + rewrite T. by apply safe_claim.
    + rewrite T. unfold ClaimRun. rewrite F. simpl. rewrite lookup_insert_eq. eauto.
    + split; [done|]. destruct He as [->| ->]; [done|]. by constructor.
Qed.

Lemma restart_run o w a w' e : restart cfg o w = (a, w', e) ->
  dialed e = [] /\ exists d1, (d1 = tables w \/ d1 = RecoverContacts (tables w)) /\ quiet_db d1 (tables w').
Proof.
  intros E. unfold restart in E. apply mseq_inv in E as (? & ? & ? & ? & E1 & E & ->). injection E1 as <- <- <-.
  apply mseq_inv in E as (r & w2 & e2 & e2' & E2 & E & ->). apply (calm_run []) in E; [|apply calm_sweep].
  destruct E as (_ & _ & _ & _ & _ & Dl & Q).
  unfold exec, sql, ask, rupd, mseq, mread, mmod, mret, field_update in E2. simpl in E2.
  destruct (ans o (tick w)); simpl in E2; injection E2 as <- <- <-; simpl; (split; [exact Dl|]);
    eexists; (split; [|exact Q]); simpl; auto.
Qed.

Lemma retried_safe D q rs w e w' : safe D (tables w) -> retried q rs w e w' -> safe D (tables w') /\ dialed e = [].
Proof.
  intros S (_ & _ & _ & _ & _ & Dl & d1 & d2 & Q1 & H & Q2). split; [|done]. eapply safe_quiet; [|exact Q2].
  apply (safe_quiet _ _ _ S) in Q1. destruct H as [->|(delay & now & ->)]; [done|by apply safe_retry].
Qed.

Lemma safe_step D w e w' crash : rstep crash w e w' -> safe D (tables w) -> NoDup D ->
  safe (dialed e ++ D) (tables w') /\ NoDup (dialed e ++ D).
Proof.
  intros St S ND. destruct St as [o c w a w' e E|o n out w a w' e E|o w a w' e E|o w a w' e _ E|w d' r' H].
  - by eapply safe_dial.
  - apply finished_ran in E. destruct (placed w !! n) as [k|]; [|by destruct E as [-> ->]].
    destruct E as (w1 & w2 & -> & R & ->). apply (retried_safe D) in R as [Hs ->]; done.
  - apply (calm_run []) in E; [|apply calm_sweep]. destruct E as (_ & _ & _ & _ & _ & -> & Q).
    split; [by eapply safe_quiet|done].
  - apply restart_run in E as [-> (d1 & H & Q)]. split; [|done]. eapply safe_quiet; [|exact Q].
    destruct H as [->| ->]; [done|by apply safe_recover].
  - split; [by eapply safe_others|done].
Qed.

(** C7: no contact row is dialed twice, over any run of the dialer: whatever
    statements fail or lose their answer, however often the process dies at
    any point and recovers, and whatever Dograh does to the tables meanwhile.
    (A retry is a row of its own.) *)
Theorem never_redialed crash w e w' : runs_to crash w e w' -> wf (tables w) -> NoDup (dialed e).
Proof.
  intros R W. assert (forall D, safe D (tables w) -> NoDup D -> NoDup (dialed e ++ D)) as H.
  { clear W. induction R as [w|w e w1 es w' St R IH]; intros D S ND; [done|].
    destruct (safe_step D _ _ _ _ St S ND) as [S1 N1]. rewrite dialed_app, <- app_assoc.
    rewrite (Permutation_app_swap_app (dialed e)). by apply IH. }
  rewrite <- (app_nil_r (dialed e)). apply H; [|constructor]. split; [done|]. intros i Hi. by apply elem_of_nil in Hi.
Qed.

(** *** Slots and counters *)

Definition count (c : Z) (l : list call) : Z := Z.of_nat (length (filter (fun k => ID (k_camp k) = c) l)).

(** [inflight] and [liveRuns] are exactly the calls in progress. *)
Record mirrored (w : world) : Prop := {
  mi_inflight c : inflight w !! c = if decide (count c (placed w) = 0) then None else Some (count c (placed w));
  mi_live : liveRuns w = list_to_set (map k_run (placed w));
  mi_runs : NoDup (map k_run (placed w));
  mi_fresh : Forall (fun k => k_run k < nextRun (tables w)) (placed w);
}.

Definition balanced (w : world) (e : list reff) (w' : world) : Prop :=
  map k_slot (placed w') ++ released e ≡ₚ map k_slot (placed w) ++ acquired e.

Lemma count_cons c k l : count c (k :: l) = count c l + Z.b2z (ID (k_camp k) =? c).
Proof. unfold count. rewrite filter_cons. destruct (Z.eqb_spec (ID (k_camp k)) c); destruct (decide _); simpl; lia. Qed.

Lemma count_nonneg c l : 0 <= count c l.
Proof. unfold count. lia. Qed.

Definition of_count (l : list call) (m : gmap Z Z) : Prop :=
  forall c, m !! c = if decide (count c l = 0) then None else Some (count c l).

Lemma of_count_value l m c : of_count l m -> default 0 (m !! c) = count c l.
Proof. intros H. rewrite H. destruct (decide _); simpl; lia. Qed.

Lemma of_count_add l l' m c n : of_count l m -> (forall x, count x l' = count x l + (if decide (x = c) then n else 0)) ->
  of_count l' (add_to c n m).
Proof.
  intros H Hl x. unfold add_to. rewrite (of_count_value l m c H). specialize (Hl x). pose proof (count_nonneg x l').
  destruct (decide (x = c)) as [->|Hne].
  - destruct (Z.leb_spec (count c l + n) 0).
    + rewrite lookup_delete_eq. rewrite decide_True; [done|lia].
    + rewrite lookup_insert_eq. rewrite decide_False by lia. f_equal. lia.
  - assert (count x l' = count x l) as -> by lia.
    destruct (_ <=? 0); [rewrite lookup_delete_ne by done|rewrite lookup_insert_ne by done]; apply H.
Qed.

Lemma mirrored_calm rs w e w' : mirrored w -> calm rs w e w' -> mirrored w' /\ placed w' = placed w.
Proof.
  intros [H1 H2 H3 H4] (P & I & L & _ & _ & _ & Q). split; [|done]. split; rewrite ?P, ?I, ?L; try done.
  eapply Forall_impl; [exact H4|]. intros k Hk. pose proof (qd_seq _ _ Q). simpl in *. lia.
Qed.

Lemma seq_setRun i s d : nextRun (SetRunState i s d) = nextRun d.
Proof. unfold SetRunState, bump. destruct (rows d !! i) as [q|]; [|done]. destruct s; simpl; repeat case_match; done. Qed.
Lemma seq_row_set i s d d' : row_set i s d d' -> nextRun d <= nextRun d'.
Proof. intros (d1 & Q & [->| ->]); pose proof (qd_seq _ _ Q); rewrite ?seq_setRun; lia. Qed.
Lemma seq_claim c now d : nextRun (ClaimRun c now d).1 = nextRun d.
Proof. unfold ClaimRun. by destruct (first_due c now d) as [[]|]. Qed.
Lemma seq_retry q delay now d : nextRun (ScheduleRetry q delay now d) = nextRun d.
Proof. unfold ScheduleRetry. by destruct (existsb _ _). Qed.

(** Nothing in the calls changed. *)
Lemma mirrored_same w w' : mirrored w -> placed w' = placed w -> inflight w' = inflight w -> liveRuns w' = liveRuns w ->
  nextRun (tables w) <= nextRun (tables w') -> mirrored w'.
Proof.
  intros [H1 H2 H3 H4] P I L N. split; rewrite ?P, ?I, ?L; try done.
  eapply Forall_impl; [exact H4|]. intros k Hk. simpl in *. lia.
Qed.

Lemma count_other c i q run slot l x : count x (mkCall c i q run slot :: l) = count x l + (if decide (x = ID c) then 1 else 0).
Proof. rewrite count_cons. simpl. destruct (decide (x = ID c)), (Z.eqb_spec (ID c) x); simpl; congruence || lia. Qed.

Lemma mirrored_place c i q slot w e w' : mirrored w -> place_ran c i q slot w e w' ->
  mirrored w' /\ map k_slot (placed w') ++ released e ≡ₚ map k_slot (placed w) ++ [slot] /\ acquired e = [].
Proof.
  intros M P. inversion P as [? ? s Pl I L A R Dl Hs H|? ? run ok d1 s A Dl Q Hrun Hx Hok Hs H]; subst.
  - split; [|by rewrite Pl, R]. eapply mirrored_same; try done. by eapply seq_row_set.
  - apply seq_row_set in H. destruct M as [M1 M2 M3 M4].
    assert (Hfresh : run ∉ map k_run (placed w)).
    { intros Hin. apply list_elem_of_fmap in Hin as (k & -> & Hk). rewrite Forall_forall in M4. apply M4 in Hk. lia. }
    pose proof (of_count_add _ (mkCall c i q run slot :: placed w) _ (ID c) 1 M1 (count_other c i q run slot (placed w))) as Hadd.
    destruct ok; destruct Hok as (R & Pl & I & L).
    + split; [|by rewrite Pl, R, app_nil_r, (Permutation_app_comm _ [slot])]. split.
      * intros x. rewrite I, Pl. apply Hadd.
      * by rewrite L, Pl, M2.
      * rewrite Pl. simpl. by constructor.
      * rewrite Pl. constructor; [simpl; lia|]. eapply Forall_impl; [exact M4|]. intros k Hk. simpl in *. lia.
    + split; [|by rewrite Pl, R]. split; rewrite ?Pl; try done.
      * intros x. rewrite I. refine (of_count_add _ (placed w) _ (ID c) (-1) Hadd _ x).
        intros y. rewrite (count_other c i q run slot (placed w) y). destruct (decide _); lia.
      * rewrite L, M2. apply leibniz_equiv. intros x. rewrite elem_of_difference, elem_of_union, elem_of_singleton, elem_of_list_to_set.
        split; [intros [[->|Hx'] Hne]; done|]. intros Hx'. split; [by right|]. by intros ->.
      * eapply Forall_impl; [exact M4|]. intros k Hk. simpl in *. lia.
Qed.

Lemma mirrored_finished n w e w' k w1 w2 : mirrored w -> placed w !! n = Some k ->
  w1 = (w <| placed := take n (placed w) ++ drop (S n) (placed w) |>) -> retried (k_q k) [k_slot k] w1 e w2 ->
  w' = (w2 <| liveRuns := liveRuns w2 ∖ {[k_run k]} |> <| inflight := add_to (ID (k_camp k)) (-1) (inflight w2) |>) ->
  mirrored w' /\ balanced w e w'.
Proof.
  intros [M1 M2 M3 M4] Hk -> (P & I & L & A & R & Dl & d1 & d2 & Q1 & H & Q2) ->. simpl in P, I, L.
  assert (Hp : placed w ≡ₚ k :: (take n (placed w) ++ drop (S n) (placed w))).
  { rewrite <- (take_drop_middle _ _ _ Hk) at 1. symmetry. apply Permutation_middle. }
  assert (Hc : forall x, count x (take n (placed w) ++ drop (S n) (placed w)) = count x (placed w) + (if decide (x = ID (k_camp k)) then -1 else 0)).
  { intros x. assert (count x (placed w) = count x (k :: (take n (placed w) ++ drop (S n) (placed w)))) as ->.
    { unfold count. f_equal. apply Permutation_length. by rewrite Hp at 1. }
    rewrite count_cons. destruct (decide _) as [->|Hne]; [rewrite Z.eqb_refl; simpl; lia|].
    destruct (Z.eqb_spec (ID (k_camp k)) x); [congruence|simpl; lia]. }
  assert (Hr : NoDup (k_run k :: map k_run (take n (placed w) ++ drop (S n) (placed w)))).
  { rewrite Hp in M3 at 1. exact M3. }
  apply NoDup_cons in Hr as [Hr1 Hr2]. split; [split|].
  - intros x. simpl. rewrite P, I. exact (of_count_add _ _ _ (ID (k_camp k)) (-1) M1 Hc x).
  - simpl. rewrite L, P, M2. apply leibniz_equiv. intros x. rewrite elem_of_difference, elem_of_singleton, !elem_of_list_to_set.
    rewrite Hp at 1. simpl. rewrite elem_of_cons. split; [intros [[->|Hx] Hne]; done|]. intros Hx. split; [by right|]. by intros ->.
  - simpl. by rewrite P.
  - simpl. rewrite P. rewrite Hp in M4. apply Forall_cons in M4 as [_ M4]. eapply Forall_impl; [exact M4|].
    intros k' Hk'. simpl in *. pose proof (qd_seq _ _ Q1). pose proof (qd_seq _ _ Q2). simpl in *.
    destruct H as [->|(dl & now & ->)]; rewrite ?seq_retry in *; lia.
  - unfold balanced. simpl. rewrite P, A, R, app_nil_r.
    pose proof (Permutation_map k_slot Hp) as Hs. rewrite Hs. simpl. by rewrite (Permutation_app_comm _ [k_slot k]).
Qed.

Lemma mirrored_step w e w' : rstep false w e w' -> mirrored w -> mirrored w' /\ balanced w e w'.
Proof.
  intros St M. destruct St as [o c w a w' e E|o n out w a w' e E|o w a w' e E|o w a w' e Hc E|w d' r' H].
  - apply dialOne_ran in E. destruct E as [e w' C|slot e w' P I L A R Dl (d1 & d2 & Q1 & H & Q2)|
      slot i q now d1 w1 e1 e2 w' P I L A R Dl Q F T Pl].
    + pose proof C as (_ & _ & _ & A & R & _ & _). apply (mirrored_calm _ _ _ _ M) in C as [M' P].
      split; [done|]. unfold balanced. by rewrite A, R, P.
    + split; [|unfold balanced; by rewrite A, R, P]. eapply mirrored_same; try done.
      pose proof (qd_seq _ _ Q1). pose proof (qd_seq _ _ Q2). destruct H as [->|[now ->]]; rewrite ?seq_claim in *; lia.
    + assert (mirrored w1) as M1.
      { eapply mirrored_same; try done. rewrite T, seq_claim. apply (qd_seq _ _ Q). }
      apply (mirrored_place _ _ _ _ _ _ _ M1) in Pl as (M' & B & A2). split; [done|]. unfold balanced.
      rewrite released_app, acquired_app, R, A, A2. simpl. by rewrite B, P.
  - apply finished_ran in E. destruct (placed w !! n) as [k|] eqn:Ek; [|destruct E as [-> ->]; split; [exact M|unfold balanced; done]].
    destruct E as (w1 & w2 & H1 & R & H2). by eapply mirrored_finished.
  - apply (calm_run []) in E; [|apply calm_sweep]. pose proof E as (_ & _ & _ & A & R & _ & _).
    apply (mirrored_calm _ _ _ _ M) in E as [M' P]. split; [done|]. unfold balanced. by rewrite A, R, P.
  - done.
  - split; [|unfold balanced; simpl; done]. eapply mirrored_same; try done. simpl. apply H.
Qed.

(** C9: while the process lives, every slot it was granted has either been
    given back, once, or belongs to exactly one call in progress; and its
    counters are those calls: [inflight] per campaign, [liveRuns] the runs no
    sweep may touch. No error, wherever it strikes, breaks this. *)
Theorem calls_accounted w e w' : runs_to false w e w' -> mirrored w -> mirrored w' /\ balanced w e w'.
Proof.
  induction 1 as [w|w e w1 es w' St R IH]; intros M; [split; [exact M|unfold balanced; done]|].
  destruct (mirrored_step _ _ _ St M) as [M1 B1]. destruct (IH M1) as [M2 B2]. split; [done|].
  unfold balanced in *. rewrite released_app, acquired_app.
  rewrite (Permutation_app_comm (released e)), app_assoc, B2, <- app_assoc, (Permutation_app_comm (acquired es)), app_assoc, B1.
  by rewrite <- app_assoc.
Qed.
End system.

(** ** What becomes of a contact whose call ended *)

(** The campaigns' counts of failed contacts. *)
Definition failed_of (c : Z) (d : db) : option Z := failed_rows <$> camps d !! c.
Definition same_failed (w : world) (e : list reff) (w' : world) : Prop :=
  forall c, failed_of c (tables w') = failed_of c (tables w).
#[export] Instance same_failed_rel : StepRel same_failed.
Proof. split; unfold same_failed; [done|]. intros s1 w1 s2 w2 s3 H1 H2 c. by rewrite H2. Qed.

Section policy.
Variable lim : Limiter.t.
Variable o : outside.

Ltac same_auto := unfold rupd, remit in *; does_auto ltac:(idtac; unfold same_failed; simpl; auto).

Lemma same_ask {A} (f : nat -> A) : does same_failed (ask f).
Proof. unfold ask. same_auto. Qed.
Lemma same_lua {A} (f : redis -> redis * A) : does same_failed (lua f).
Proof. unfold lua. same_auto. Qed.
#[local] Hint Resolve same_ask same_lua : does.
Lemma same_sql {A} (f : db -> db * A) : (forall d c, failed_of c (f d).1 = failed_of c d) -> does same_failed (sql o f).
Proof. intros H. unfold sql, rupd. does_auto ltac:(idtac; unfold same_failed; simpl; auto). Qed.
Lemma same_move c from to : does same_failed (sql o (SetCampaignState c from to)).
Proof.
  apply same_sql. intros d x. unfold SetCampaignState, failed_of. destruct (camps d !! c) as [p|] eqn:E; [|done].
  destruct (decide _); [|done]. simpl. destruct (decide (x = c)) as [->|Hne].
  - by rewrite lookup_insert_eq, E.
  - by rewrite lookup_insert_ne.
Qed.
Lemma same_finish i : does same_failed (exec o (completeRun i)).
Proof. apply same_sql. intros d x. unfold completeRun, failed_of. simpl. by destruct (runs d !! i). Qed.
#[local] Hint Resolve same_move same_finish : does.
Lemma same_release s : does same_failed (release lim o s).
Proof. unfold release. same_auto. Qed.
Lemma same_recordOutcome c f : does same_failed (recordOutcome o c f).
Proof. unfold recordOutcome, pause. same_auto. Qed.
Lemma same_markNotConnected i : does same_failed (markNotConnected o i).
Proof. unfold markNotConnected. same_auto. Qed.

Lemma same_run {A} (m : ract A) w a w' e : does same_failed m -> m w = (a, w', e) -> same_failed w e w'.
Proof. intros H E. specialize (H w). unfold does_at, mout, mstate in H. by rewrite E in H. Qed.

(** The decision on a call that did not connect. *)
Definition exhausted (k : call) (s : Status) : bool :=
  Eligible (Retry (k_camp k)) (retryReason s) && (MaxRetries (Retry (k_camp k)) <=? q_retry (k_q k)).

Hypothesis answered : forall i, ans o i = Answered.

Lemma retry_rows q delay now d d' : rows d' = rows d -> nextRow d' = nextRow d ->
  rows (ScheduleRetry q delay now d') = rows (ScheduleRetry q delay now d).
Proof. intros R N. unfold ScheduleRetry. rewrite R, N. destruct (existsb _ _); simpl; done. Qed.

Lemma retryContact_decides k s w a w' e : retryContact o k s w = (a, w', e) -> exists i,
  rows (tables w') = (if Retries (Retry (k_camp k)) (retryReason s) (q_retry (k_q k))
    then rows (ScheduleRetry (k_q k) (Delay (Retry (k_camp k))) (clock o i) (tables w)) else rows (tables w)) /\
  forall c, failed_of c (tables w') =
    (if exhausted k s && (c =? ID (k_camp k)) then Z.succ <$> failed_of c (tables w) else failed_of c (tables w)).
Proof using answered.
  unfold retryContact, Retries, exhausted.
  assert (Eligible (Retry (k_camp k)) [] = false) as Hn.
  { unfold Eligible. destruct (negb _); [done|]. by rewrite !bool_decide_eq_false_2. }
  destruct (bool_decide (retryReason s <> [])) eqn:Er; simpl.
  2:{ apply bool_decide_eq_false in Er. destruct (decide (retryReason s = [])) as [->|]; [|done]. rewrite Hn. simpl.
      intros E. injection E as <- <- <-. by exists 0%nat. }
  clear Hn. destruct (Eligible (Retry (k_camp k)) (retryReason s)); simpl; [|intros E; injection E as <- <- <-; by exists 0%nat].
  unfold exec, sql, ask, rupd, remit, mseq, mread, mmod, memit, mret, mwhen, field_update. simpl.
  rewrite Z.leb_antisym. destruct (q_retry (k_q k) <? MaxRetries (Retry (k_camp k))) eqn:Em; simpl; rewrite answered; simpl.
  - intros E. injection E as <- <- <-. eexists. split; [done|]. intros c. simpl. unfold ScheduleRetry. by destruct (existsb _ _).
  - intros E. injection E as <- <- <-. exists 0%nat. simpl. unfold AddFailedRow, bump, failed_of.
    destruct (camps (tables w) !! ID (k_camp k)) as [p|] eqn:Ep; simpl.
    + split; [done|]. intros c. destruct (Z.eqb_spec c (ID (k_camp k))) as [->|Hne].
      * rewrite lookup_insert_eq, Ep. done.
      * by rewrite lookup_insert_ne.
    + split; [done|]. intros c. destruct (Z.eqb_spec c (ID (k_camp k))) as [->|]; [by rewrite Ep|done].
Qed.

(** C24: when the tables answer, a call's end decides its contact as the
    campaign's settings say: a connected, failed or rejected call queues
    nothing; a busy or unanswered one whose kind is retried is queued again,
    due after the delay and with its attempt counted, while attempts are left,
    and counts as failed, once, when they are not. *)
Theorem retry_policy n k out w a w' e : placed w !! n = Some k -> finished lim o n out w = (a, w', e) ->
  match out with
  | Connected => rows (tables w') = rows (tables w) /\ forall c, failed_of c (tables w') = failed_of c (tables w)
  | NotConnected s => exists i,
      rows (tables w') = (if Retries (Retry (k_camp k)) (retryReason s) (q_retry (k_q k))
        then rows (ScheduleRetry (k_q k) (Delay (Retry (k_camp k))) (clock o i) (tables w)) else rows (tables w)) /\
      forall c, failed_of c (tables w') =
        (if exhausted k s && (c =? ID (k_camp k)) then Z.succ <$> failed_of c (tables w) else failed_of c (tables w))
  end.
Proof using answered.
  intros Hk E. unfold finished in E. apply mseq_inv in E as (? & ? & ? & ? & E1 & E & ->). injection E1 as <- <- <-.
  rewrite Hk in E. apply mseq_inv in E as (? & ? & ? & ? & E1 & E & ->). injection E1 as <- <- <-.
  apply mseq_inv in E as (? & w2 & e2 & e2' & E2 & E & ->).
  pose proof (same_run _ _ _ _ _ (same_release _) E2) as F2. apply (calm_run [k_slot k]) in E2; [|apply release_calm].
  destruct E2 as (_ & _ & _ & _ & _ & _ & Q2).
  apply mseq_inv in E as (? & w3 & e3 & e3' & E3 & E & ->).
  unfold track, addInflight, rupd, remit in E.
  do 2 (apply mseq_inv in E as (? & ? & ? & ? & E1 & E & ->); injection E1 as <- <- <-). injection E as <- <- <-. simpl.
  destruct out as [|s].
  - pose proof (same_run _ _ _ _ _ (same_recordOutcome _ _) E3) as F3.
    apply (calm_run []) in E3; [|apply calm_recordOutcome]. destruct E3 as (_ & _ & _ & _ & _ & _ & Q3).
    split; [by rewrite (qd_rows _ _ Q3), (qd_rows _ _ Q2)|]. intros c. by rewrite F3, F2.
  - apply mseq_inv in E3 as (? & w4 & e4 & e4' & E4 & E3 & ->).
    pose proof (same_run _ _ _ _ _ (same_recordOutcome _ _) E4) as F4.
    apply (calm_run []) in E4; [|apply calm_recordOutcome]. destruct E4 as (_ & _ & _ & _ & _ & _ & Q4).
    apply mseq_inv in E3 as (? & w5 & e5 & e5' & E5 & E3 & ->).
    pose proof (same_run _ _ _ _ _ (same_markNotConnected _) E3) as F6.
    apply (calm_run []) in E3; [|apply calm_markNotConnected]. destruct E3 as (_ & _ & _ & _ & _ & _ & Q6).
    destruct (retryContact_decides _ _ _ _ _ _ E5) as (i & HR & HF). exists i.
    assert (rows (tables w4) = rows (tables w)) as R4 by (by rewrite (qd_rows _ _ Q4), (qd_rows _ _ Q2)).
    split.
    + rewrite (qd_rows _ _ Q6), HR. destruct (Retries _ _ _); [|done]. apply retry_rows; [done|].
      by rewrite (qd_next _ _ Q4), (qd_next _ _ Q2).
    + intros c. rewrite F6, HF. assert (failed_of c (tables w4) = failed_of c (tables w)) as -> by (rewrite F4, F2; done). done.
Qed.
End policy.

(** ** Witnesses: one contact, dialed, busy, queued again *)

Definition cfg1 : RunnerConfig := mkConfig 2 (30 * second).
Definition lim1 : Limiter.t := Limiter.mk 0 true.
Definition camp1 : Campaign := mkCampaign 1 7 3 1 0 (mkRetry true 1 (120 * second) true true true)
  (mkSchedule false None []) (mkBreaker true 1 2 (120 * second) 5).
Definition outside1 : outside := mkOutside (fun _ => 100 * second) (fun _ => Answered) (fun _ => false) (fun _ => None)
  (fun _ => None) (fun _ => mkDial true (fun x => x)) (fun _ => [97]) (fun _ => true).
Definition row1 : row := mkRow 1 [115] (Some (PString [57; 56])) 0 None RunQueued.
Definition world0 : world := mkWorld (mkDB {[1 := row1]} 2 {[1 := mkCamp Running 0 0 true 7]} ∅ 1) ∅ ∅ ∅ [] 0.
Definition dialed1 := dialOne cfg1 lim1 outside1 camp1 world0.
Definition world1 : world := dialed1.1.2.
Definition over1 := finished lim1 outside1 0 (NotConnected StatusBusy) world1.
Definition world2 : world := over1.1.2.

Example busy_queued_again : map k_row (placed world1) = [1] /\ placed world2 = [] /\
  (q_state <$> rows (tables world2) !! 1) = Some RunProcessed /\
  (rows (tables world2) !! 2) = Some (mkRow 1 ([115] ++ bs "_retry_1") (Some (PString [57; 56])) 1 (Some (220 * second)) RunQueued).
Proof. vm_compute. done. Qed.

Lemma run_both crash : runs_to cfg1 lim1 crash world0 (dialed1.2 ++ over1.2 ++ []) world2.
Proof.
  eapply runs_cons.
  { apply (r_dial cfg1 lim1 crash outside1 camp1 world0 dialed1.1.1 world1 dialed1.2). exact (triple_parts dialed1). }
  eapply runs_cons; [|apply runs_nil].
  apply (r_finished cfg1 lim1 crash outside1 0 (NotConnected StatusBusy) world1 over1.1.1 world2 over1.2). exact (triple_parts over1).
Defined.

Lemma wf_world0 : wf (tables world0).
Proof. split; simpl; [|done]. intros i q [<- _]%lookup_singleton_Some. done. Defined.

Lemma never_redialed_witness : dialed (dialed1.2 ++ over1.2 ++ []) = [1] /\ NoDup (dialed (dialed1.2 ++ over1.2 ++ [])).
Proof.
  split; [vm_compute; reflexivity|]. apply (never_redialed cfg1 lim1 true world0 _ world2 (run_both true) wf_world0).
Defined.

Lemma mirrored_world0 : mirrored world0.
Proof. split; [done|done|constructor|constructor]. Defined.

Lemma calls_accounted_witness : acquired (dialed1.2 ++ over1.2 ++ []) = [mkSlot [97] 7] /\
  mirrored world2 /\ balanced world0 (dialed1.2 ++ over1.2 ++ []) world2.
Proof.
  split; [vm_compute; reflexivity|]. apply (calls_accounted cfg1 lim1 world0 _ world2 (run_both false) mirrored_world0).
Defined.

Lemma retry_policy_witness : exists k, placed world1 !! 0%nat = Some k /\
  exists i, rows (tables world2) = rows (ScheduleRetry (k_q k) (120 * second) (clock outside1 i) (tables world1)).
Proof.
  assert (exists k, placed world1 !! 0%nat = Some k /\ q_retry (k_q k) = 0 /\ Retry (k_camp k) = Retry camp1) as (k & Hk & Hq & Hr).
  { eexists. split; [vm_compute; reflexivity|]. split; vm_compute; reflexivity. }
  exists k. split; [exact Hk|].
  assert (finished lim1 outside1 0 (NotConnected StatusBusy) world1 = (over1.1.1, world2, over1.2)) as E.
  { exact (triple_parts over1). }
  destruct (retry_policy lim1 outside1 (fun _ => eq_refl) 0 k (NotConnected StatusBusy) world1 _ _ _ Hk E) as (i & H & _).
  exists i. rewrite H, Hq, Hr. reflexivity.
Defined.
End RunnerInv.
