(* ===== verification/RunnerLoop.v ===== *)
(** The campaign runner's loop (internal/campaign/runner.go: [Run], [scan],
    [drain], [wake]): which goroutine dials which campaign, what wakes a scan,
    and how it all stops. What dialing one contact does is [Runner]'s; here it
    comes to a result. A step is what runs under the runner's lock or between two
    waits of one goroutine; [None] is a step that cannot be taken. *)

From stdpp Require Import gmap.
From S2P Require Import Prelude.

Local Open Scope Z_scope.

Definition millisecond : Z := 1000000.
Definition second : Z := 1000000000.

(** What one attempt to dial came to, with the rate window's wait. *)
Inductive result := stepDialed | stepWait (wait : Z) | stepStop.

(** Where a drain goroutine is: at its loop's head, dialing, waiting, or leaving
    (still marked in the map, or no longer). *)
Inductive place := Head | Dialing | Waiting (d : Z) | Leaving | Unmarked.
Record drain := mkDrain { campaign : Z; at_ : place }.

(** Where [Run] is. *)
Inductive phase := Recovering | Scanning | Starting (left : list Z) | Selecting | Sweeping | Joining | Returned.

(** The loop: the process's context, [draining], the goroutines the wait group
    counts, the token of [wakeCh] and those of the two tickers. *)
Record t := mk { cancelled : bool; ph : phase; draining : gset Z; drains : list drain; wakeCh : bool; ticker : bool; sweepTicker : bool }.
#[global] Instance eta_t : Eta t := fun s => mk (cancelled s) (ph s) (draining s) (drains s) (wakeCh s) (ticker s) (sweepTicker s).
Local Open Scope record_scope.

Definition Run0 : t := mk false Recovering ∅ [] false false false.

(** [wake]: a token unless there is one. *)
Definition wake (s : t) : t := s <| wakeCh := true |>.

(** One campaign of [scan]: busy, or marked and given a goroutine. *)
Definition scan_one (c : Z) (s : t) : t :=
  let busy := bool_decide (c ∈ draining s) in
  let s := s <| draining ::= fun d => {[c]} ∪ d |> in
  if busy then s else s <| drains ::= fun l => l ++ [mkDrain c Head] |>.

(** The wait of a full rate window: between 10 ms and a second. *)
Definition clamp (w : Z) : Z := Z.min (Z.max w (10 * millisecond)) second.

(** What can be selected in [Run]. *)
Inductive case := CDone | CTick | CWake | CSweep.

Inductive label :=
  | Recovered | Read (campaigns : list Z) | ScanOne | Select (c : case) | Swept | Joined
  | Tick | SweepTick | Wake | Cancel
  | AtHead (i : nat) | DialOne (i : nat) (r : result) | Waited (i : nat) | Unmark (i : nat) | Gone (i : nat).

Definition select (c : case) (s : t) : option t :=
  match c with
  | CDone => if cancelled s then Some (s <| ph := Joining |>) else None
  | CTick => if ticker s then Some (s <| ticker := false |> <| ph := Scanning |>) else None
  | CWake => if wakeCh s then Some (s <| wakeCh := false |> <| ph := Scanning |>) else None
  | CSweep => if sweepTicker s then Some (s <| sweepTicker := false |> <| ph := Sweeping |>) else None
  end.

Definition move (i : nat) (p : place) (s : t) : t := s <| drains ::= alter (fun d => mkDrain (campaign d) p) i |>.

(** A step of goroutine [i]'s [drain], and of its deferred calls. *)
Definition drain_step (l : label) (d : drain) (s : t) : option t :=
  match l, at_ d with
  | AtHead i, Head => Some (move i (if cancelled s then Leaving else Dialing) s)
  | DialOne i r, Dialing => Some (move i (match r with stepDialed => Head | stepWait w => Waiting (clamp w) | stepStop => Leaving end) s)
  | Waited i, Waiting _ => Some (move i Head s)
  | Unmark i, Leaving => Some (move i Unmarked (s <| draining ::= fun x => x ∖ {[campaign d]} |>))
  | Gone i, Unmarked => Some (s <| drains ::= delete i |>)
  | _, _ => None
  end.

Definition step (s : t) (l : label) : option t :=
  match l, ph s with
  | Recovered, Recovering => Some (s <| ph := Scanning |>)
  | Read cs, Scanning => Some (s <| ph := Starting cs |>)
  | ScanOne, Starting (c :: r) => Some (scan_one c (s <| ph := Starting r |>))
  | ScanOne, Starting [] => Some (s <| ph := Selecting |>)
  | Select c, Selecting => select c s
  | Swept, Sweeping => Some (s <| ph := Scanning |>)
  | Joined, Joining => if bool_decide (length (drains s) = 0%nat) then Some (s <| ph := Returned |>) else None
  | Tick, _ => Some (s <| ticker := true |>)
  | SweepTick, _ => Some (s <| sweepTicker := true |>)
  | Wake, _ => Some (wake s)
  | Cancel, _ => Some (s <| cancelled := true |>)
  | (AtHead i | DialOne i _ | Waited i | Unmark i | Gone i), _ => d ← drains s !! i; drain_step l d s
  | _, _ => None
  end.
Definition run (ls : list label) (s : t) : option t := fold_left (fun r l => s ← r; step s l) ls (Some s).

(** A day of one campaign: scanned, dialed twice, out of work, scanned again. *)
Example run_ex :
  (fun s => (ph s, drains s, draining s)) <$>
    run [Recovered; Read [7]; ScanOne; ScanOne; AtHead 0; DialOne 0 stepDialed; AtHead 0; DialOne 0 (stepWait 3); Waited 0; AtHead 0; DialOne 0 stepStop;
         Unmark 0; Wake; Select CWake; Read [7]; ScanOne; ScanOne; Gone 0; Cancel; Select CDone; AtHead 0; Unmark 0; Gone 0; Joined] Run0 =
  Some (Returned, [], ∅).
Proof. vm_compute. done. Qed.

(** A wake lost: the drain has found no free slot and is leaving when a call's
    end frees one; the scan it wakes finds the campaign still marked. Nothing is
    left to dial it before the next tick. *)
Example wake_lost :
  (fun s => (ph s, drains s, wakeCh s)) <$>
    run [Recovered; Read [7]; ScanOne; ScanOne; AtHead 0; DialOne 0 stepStop; Wake; Select CWake; Read [7]; ScanOne; ScanOne; Unmark 0; Gone 0] Run0 =
  Some (Selecting, [], false).
Proof. vm_compute. done. Qed.

(** ** One goroutine per campaign *)

Definition active (d : drain) : bool := match at_ d with Unmarked => false | _ => true end.
Definition dialing (s : t) : list Z := map campaign (List.filter active (drains s)).

(** The campaigns marked are those of the goroutines that have not unmarked
    theirs, one each. *)
Record marked (s : t) : Prop := {
  m_once : NoDup (dialing s);
  m_set : forall c, c ∈ draining s <-> c ∈ dialing s;
  m_returned : ph s = Returned -> drains s = [];
}.

Lemma dialing_move s i d p :
  drains s !! i = Some d -> active d = true -> active (mkDrain (campaign d) p) = true -> dialing (move i p s) = dialing s.
Proof.
  destruct s as [x y z ds w tk sw]. unfold dialing, move. cbn. intros Hi Ha Hp. revert i Hi. induction ds as [|e ds IH]; intros i Hi; [done|].
  destruct i as [|i]; cbn in *; [injection Hi as ->; by rewrite Ha, Hp|]. specialize (IH i Hi). destruct (active e); cbn; [by rewrite IH|done].
Qed.

Lemma dialing_unmark s i d :
  drains s !! i = Some d -> active d = true ->
  exists l1 l2, dialing s = l1 ++ campaign d :: l2 /\ dialing (move i Unmarked s) = l1 ++ l2.
Proof.
  destruct s as [x y z ds w tk sw]. unfold dialing, move. cbn. intros Hi Ha. revert i Hi. induction ds as [|e ds IH]; intros i Hi; [done|].
  destruct i as [|i]; cbn in *; [injection Hi as ->; rewrite Ha; by exists [], (map campaign (List.filter active ds))|].
  destruct (IH i Hi) as (l1 & l2 & E1 & E2). destruct (active e); cbn; [|eauto]. exists (campaign e :: l1), l2. cbn. by rewrite E1, E2.
Qed.

Lemma dialing_gone s i d : drains s !! i = Some d -> active d = false -> dialing (s <| drains ::= delete i |>) = dialing s.
Proof.
  destruct s as [x y z ds w tk sw]. unfold dialing. cbn. intros Hi Ha. revert i Hi. induction ds as [|e ds IH]; intros i Hi; [done|].
  destruct i as [|i]; cbn in *; [injection Hi as ->; by rewrite Ha|]. specialize (IH i Hi). destruct (active e); cbn; [f_equal|]; exact IH.
Qed.

Lemma mark_same s s' :
  marked s -> dialing s' = dialing s -> draining s' = draining s -> (ph s' = Returned -> drains s' = []) -> marked s'.
Proof. intros M Ed Em Hr. split; [rewrite Ed; apply M|intros c; rewrite Ed, Em; apply M|exact Hr]. Qed.

Lemma scan_marked c s : marked s -> ph s <> Returned -> marked (scan_one c s).
Proof.
  intros M Hp. destruct s as [x y z ds w tk sw]. unfold scan_one. cbn in *. destruct (m_set _ M c) as [H1 H2]. cbn in *. case_bool_decide as Hc.
  - split; unfold dialing in *; cbn in *; [apply M| |done]. intros c'. rewrite elem_of_union, elem_of_singleton, <- (m_set _ M c'). cbn. naive_solver.
  - split; unfold dialing in *; cbn in *; [| |done].
    + rewrite List.filter_app, map_app. cbn. apply NoDup_app. split; [apply M|]. split; [|apply NoDup_singleton].
      intros c' Hc' ->%list_elem_of_singleton. by apply Hc, H2.
    + intros c'. rewrite List.filter_app, map_app, elem_of_union, elem_of_app, elem_of_singleton. cbn. rewrite list_elem_of_singleton.
      rewrite (m_set _ M c'). unfold dialing. cbn. naive_solver.
Qed.

Lemma move_shape i p s : draining (move i p s) = draining s /\ ph (move i p s) = ph s /\ length (drains (move i p s)) = length (drains s).
Proof. destruct s. unfold move. cbn. by rewrite length_alter. Qed.

Lemma drain_marked l d i s s' :
  marked s -> drains s !! i = Some d -> (l = AtHead i \/ (exists r, l = DialOne i r) \/ l = Waited i \/ l = Unmark i \/ l = Gone i) ->
  drain_step l d s = Some s' -> marked s'.
Proof.
  intros M Hi Hl H. assert (ph s <> Returned) as Hp by (intros Hp; rewrite (m_returned _ M Hp) in Hi; done).
  assert (forall p, active d = true -> active (mkDrain (campaign d) p) = true -> marked (move i p s)) as Hmove.
  { intros p Ha Hb. destruct (move_shape i p s) as (E1 & E2 & _). apply (mark_same s); [done|by apply (dialing_move s i d)|done|by rewrite E2]. }
  destruct d as [c a]. unfold drain_step in H. cbn in H. destruct Hl as [->|[[r ->]|[->|[->| ->]]]], a; try done; injection H as <-.
  - apply Hmove; [done|]. by destruct (cancelled s).
  - apply Hmove; [done|]. by destruct r.
  - by apply Hmove.
  - destruct (dialing_unmark s i _ Hi eq_refl) as (l1 & l2 & E1 & E2). set (s1 := s <| draining ::= fun x => x ∖ {[c]} |>).
    assert (dialing (move i Unmarked s1) = l1 ++ l2) as E3 by (rewrite <- E2; by destruct s).
    pose proof (m_once _ M) as Hn. rewrite E1 in Hn. cbn in Hn. rewrite <- Permutation_middle in Hn. apply NoDup_cons in Hn as [Hc Hn].
    split; [by rewrite E3| |by destruct s].
    intros c'. rewrite E3. assert (draining (move i Unmarked s1) = draining s ∖ {[c]}) as -> by (by destruct s).
    rewrite elem_of_difference, elem_of_singleton, (m_set _ M c'), E1. cbn. rewrite !elem_of_app, elem_of_cons. rewrite elem_of_app in Hc. split; [naive_solver|].
    intros Hin. split; [tauto|]. intros ->. done.
  - apply (mark_same s); [done|by apply (dialing_gone s i (mkDrain c Unmarked))|by destruct s|by destruct s].
Qed.

Lemma step_marked s l s' : marked s -> step s l = Some s' -> marked s'.
Proof.
  intros M H. assert (forall s1, dialing s1 = dialing s -> draining s1 = draining s -> (ph s1 = Returned -> drains s1 = []) -> marked s1) as Hsame by (intros; by apply (mark_same s)).
  unfold step in H. destruct l as [|cs| |c| | | | | | |i|i r|i|i|i].
  1-6: destruct (ph s) as [| |left| | | |] eqn:Ep; try done.
  - injection H as <-. apply Hsame; by destruct s.
  - injection H as <-. apply Hsame; by destruct s.
  - destruct left as [|c r]; injection H as <-; [apply Hsame; by destruct s|]. apply scan_marked; [apply Hsame; by destruct s|by destruct s].
  - unfold select in H. destruct c; case_match; try done; injection H as <-; apply Hsame; by destruct s.
  - injection H as <-. apply Hsame; by destruct s.
  - case_bool_decide as Hd; [|done]. injection H as <-. apply Hsame; try (by destruct s). intros _. apply nil_length_inv in Hd. by destruct s.
  - injection H as <-. apply Hsame; try (by destruct s). destruct s; apply M.
  - injection H as <-. apply Hsame; try (by destruct s). destruct s; apply M.
  - injection H as <-. apply Hsame; try (by destruct s). destruct s; apply M.
  - injection H as <-. apply Hsame; try (by destruct s). destruct s; apply M.
  - destruct (drains s !! i) as [d|] eqn:Ed; [|done]. cbn in H. apply (drain_marked (AtHead i) d i s s'); auto.
  - destruct (drains s !! i) as [d|] eqn:Ed; [|done]. cbn in H. apply (drain_marked (DialOne i r) d i s s'); eauto 10.
  - destruct (drains s !! i) as [d|] eqn:Ed; [|done]. cbn in H. apply (drain_marked (Waited i) d i s s'); eauto 10.
  - destruct (drains s !! i) as [d|] eqn:Ed; [|done]. cbn in H. apply (drain_marked (Unmark i) d i s s'); eauto 10.
  - destruct (drains s !! i) as [d|] eqn:Ed; [|done]. cbn in H. apply (drain_marked (Gone i) d i s s'); eauto 10.
Qed.

Lemma run_marked ls s s' : marked s -> run ls s = Some s' -> marked s'.
Proof.
  unfold run. revert s. induction ls as [|l ls IH]; intros s M H; [by injection H as <-|]. cbn [fold_left mbind option_bind] in H.
  destruct (step s l) as [s1|] eqn:E; [|exfalso; clear -H; induction ls; [done|by apply IHls]]. by apply (IH s1 (step_marked s l s1 M E)).
Qed.

(** ** How it stops *)

Lemma loop_run_app ls1 ls2 s s1 : run ls1 s = Some s1 -> run (ls1 ++ ls2) s = run ls2 s1.
Proof. unfold run. rewrite fold_left_app. by intros ->. Qed.

(** The steps that end a goroutine of a cancelled process. *)
Definition ending (p : place) : list label :=
  match p with
  | Head => [AtHead 0; Unmark 0; Gone 0]
  | Dialing => [DialOne 0 stepStop; Unmark 0; Gone 0]
  | Waiting _ => [Waited 0; AtHead 0; Unmark 0; Gone 0]
  | Leaving => [Unmark 0; Gone 0]
  | Unmarked => [Gone 0]
  end.

Lemma ending_ends s d ds :
  cancelled s = true -> drains s = d :: ds ->
  exists s', run (ending (at_ d)) s = Some s' /\ drains s' = ds /\ ph s' = ph s /\ cancelled s' = true.
Proof.
  destruct s as [x y z l w tk sw]. cbn. intros -> ->. destruct d as [c []]; cbn; unfold run; cbn; eexists; split_and!; reflexivity.
Qed.

Lemma drains_end s : cancelled s = true -> exists ls s', run ls s = Some s' /\ drains s' = [] /\ ph s' = ph s /\ cancelled s' = true.
Proof.
  remember (drains s) as ds eqn:E. revert s E. induction ds as [|d ds IH]; intros s E Hc; [exists [], s; by rewrite <- E|].
  destruct (ending_ends s d ds Hc (eq_sym E)) as (s1 & R1 & D1 & P1 & C1). destruct (IH s1 (eq_sym D1) C1) as (ls & s2 & R2 & D2 & P2 & C2).
  exists (ending (at_ d) ++ ls), s2. rewrite (loop_run_app _ _ _ _ R1). split_and!; congruence.
Qed.

Lemma starting_selects left s :
  cancelled s = true -> ph s = Starting left -> exists ls s', run ls s = Some s' /\ ph s' = Selecting /\ cancelled s' = true.
Proof.
  revert s. induction left as [|c r IH]; intros s Hc Hp.
  - exists [ScanOne], (s <| ph := Selecting |>). unfold run. cbn. rewrite Hp. by destruct s.
  - destruct (IH (scan_one c (s <| ph := Starting r |>))) as (ls & s' & R & P & C); [unfold scan_one; destruct s; cbn in *; by case_bool_decide..|].
    exists (ScanOne :: ls), s'. split; [|done]. unfold run. cbn. rewrite Hp. exact R.
Qed.

Lemma selecting_returns s : cancelled s = true -> ph s = Selecting -> exists ls s', run ls s = Some s' /\ ph s' = Returned.
Proof.
  intros Hc Hp. destruct (drains_end (s <| ph := Joining |>)) as (ls & s1 & R & D & P & C); [by destruct s|].
  exists (Select CDone :: ls ++ [Joined]), (s1 <| ph := Returned |>). split; [|by destruct s1].
  change (Select CDone :: ls ++ [Joined]) with ([Select CDone] ++ ls ++ [Joined]). rewrite (loop_run_app [Select CDone] _ s (s <| ph := Joining |>)).
  2: { unfold run. cbn. by rewrite Hp, Hc. }
  rewrite (loop_run_app _ _ _ _ R). unfold run. cbn. rewrite P, D. by destruct s.
Qed.

Lemma then_selects pre s s1 :
  run pre s = Some s1 -> cancelled s1 = true -> ph s1 = Selecting -> exists ls s', run ls s = Some s' /\ ph s' = Returned.
Proof. intros R C P. destruct (selecting_returns s1 C P) as (ls & s' & R' & P'). exists (pre ++ ls), s'. by rewrite (loop_run_app _ _ _ _ R). Qed.

Lemma cancelled_returns s : cancelled s = true -> ph s <> Returned -> exists ls s', run ls s = Some s' /\ ph s' = Returned.
Proof.
  intros Hc Hp. destruct (ph s) as [| |left| | | |] eqn:E; [..|done].
  - apply (then_selects [Recovered; Read []; ScanOne] s (s <| ph := Selecting |>)); [unfold run; cbn; rewrite E; by destruct s|by destruct s..].
  - apply (then_selects [Read []; ScanOne] s (s <| ph := Selecting |>)); [unfold run; cbn; rewrite E; by destruct s|by destruct s..].
  - destruct (starting_selects left s Hc E) as (ls & s1 & R & P & C). by apply (then_selects ls s s1).
  - by apply selecting_returns.
  - apply (then_selects [Swept; Read []; ScanOne] s (s <| ph := Selecting |>)); [unfold run; cbn; rewrite E; by destruct s|by destruct s..].
  - destruct (drains_end s Hc) as (ls & s1 & R & D & P & C). exists (ls ++ [Joined]), (s1 <| ph := Returned |>).
    rewrite (loop_run_app _ _ _ _ R). unfold run. cbn. rewrite P, E, D. by destruct s1.
Qed.

(** C25: A campaign is dialed by one goroutine at a time, and is marked exactly
    while one is; [Run] returns only when all have ended, and starts none after.
    Once the process is told to stop, it is always a number of steps of its own
    from returning, whatever was being done. *)
Theorem one_drain (ls : list label) (s : t) :
  run ls Run0 = Some s ->
  NoDup (dialing s) /\ (forall c, c ∈ draining s <-> c ∈ dialing s) /\
  (ph s = Returned -> drains s = [] /\ forall l s', step s l = Some s' -> ph s' = Returned) /\
  (cancelled s = true -> ph s <> Returned -> exists ls' s', run ls' s = Some s' /\ ph s' = Returned).
Proof.
  intros H. assert (marked s) as M.
  { apply (run_marked ls Run0); [|done]. split; [constructor|intros c; cbn; by rewrite elem_of_empty, elem_of_nil|done]. }
  split_and!; [apply M|apply M| |].
  - intros Hp. split; [by apply M|]. intros l s' Hs. pose proof (m_returned _ M Hp) as Hd. unfold step in Hs.
    destruct l; rewrite ?Hp in Hs; try done; rewrite ?Hd in Hs; try done; injection Hs as <-; by destruct s.
  - apply cancelled_returns.
Qed.

Example one_drain_witness :
  exists s, run [Recovered; Read [7; 7]; ScanOne; ScanOne] Run0 = Some s /\ NoDup (dialing s).
Proof.
  eexists. split; [vm_compute; reflexivity|].
  refine (proj1 (one_drain [Recovered; Read [7; 7]; ScanOne; ScanOne] _ _)). vm_compute. reflexivity.
Defined.
