(* ===== verification/RunRecord.v ===== *)
(** [internal/dograh/run.go] with [RecordCost] of [cost.go], and the recording
    of a call by [recordRun] of [internal/callagent/callagent.go]: what a call
    leaves in Dograh's tables and its object storage.

    A statement or an upload is answered at an instant: done and answered, done
    with its answer lost, or not done ([Limiter.answer]). An extracted variable
    is its raw JSON. *)

From Stdlib Require Import String SpecFloat.
From S2P Require Import Prelude Text Json LlmTurn LlmClient CallLog BargeIn Pricing Limiter Campaign.

Local Open Scope Z_scope.
Local Open Scope m_scope.

(** ** Times as text *)

Definition pad (n : nat) (z : Z) : bytes := let d := Campaign.decimal z in replicate (n - length d) 48 ++ d.

(** The date of a day, counted from 1970-01-01. *)
Definition civil (days : Z) : Z * Z * Z :=
  let z := days + 719468 in
  let era := z / 146097 in
  let doe := z mod 146097 in
  let yoe := (doe - doe / 1460 + doe / 36524 - doe / 146096) / 365 in
  let doy := doe - (365 * yoe + yoe / 4 - yoe / 100) in
  let mp := (5 * doy + 2) / 153 in
  let m := if mp <? 10 then mp + 3 else mp - 9 in
  (yoe + era * 400 + (if m <=? 2 then 1 else 0), m, doy - (153 * mp + 2) / 5 + 1).

(** [payloadTimeFormat] of a time in ms, in UTC. *)
Definition isoformat (t : Z) : bytes :=
  let '(y, m, d) := civil (t / 86400000) in
  let s := t / 1000 mod 86400 in
  pad 4 y ++ bs "-" ++ pad 2 m ++ bs "-" ++ pad 2 d ++ bs "T" ++ pad 2 (s / 3600) ++ bs ":" ++ pad 2 (s / 60 mod 60) ++ bs ":" ++ pad 2 (s mod 60)
  ++ bs "." ++ pad 3 (t mod 1000) ++ bs "+00:00".

(** [transcriptText]. *)
Definition transcript_line (e : LogEvent) : bytes :=
  let line ts who text := bs "[" ++ isoformat ts ++ bs "] " ++ who ++ bs ": " ++ text ++ [10] in
  match ev_Payload e with
  | PTranscription text ts => line ts (bs "User") text
  | PBotText text ts => line ts (bs "Agent") text
  | _ => []
  end.
Definition transcriptText (events : list LogEvent) : bytes := flat_map transcript_line events.

(** ** What a call gathered *)

Abbreviation summary := (CallSummary (json := bytes)).

(** A value that is a string. *)
Definition as_string (raw : bytes) : option bytes := if HasPrefix raw [34] then Some (unquote raw) else None.

Definition EndReasonUserHangup : bytes := bs "user_hangup".

Definition extracted_disposition (sum : summary) : option bytes :=
  match (ExtractedVars sum ≫= (.!! bs "call_disposition")) ≫= as_string with
  | Some d => if bool_decide (d = []) then None else Some d
  | None => None
  end.

Definition callDisposition (sum : summary) : bytes :=
  match extracted_disposition sum with
  | Some d => d
  | None => if bool_decide (EndReason sum = []) then EndReasonUserHangup else EndReason sum
  end.

Inductive tag := TText (s : bytes) | TValue (raw : bytes).
Definition tag_text (t : tag) : option bytes := match t with TText s => Some s | TValue raw => as_string raw end.
Definition containsTag (tags : list tag) (s : bytes) : bool := existsb (fun t => bool_decide (tag_text t = Some s)) tags.

Inductive gvalue := GText (s : bytes) | GNodes (l : list bytes) | GValue (raw : bytes) | GVars (m : gmap bytes bytes) | GTags (l : list tag).

Definition call_tags (sum : summary) : list tag :=
  fold_left (fun tags k =>
      if HasPrefix k (bs "tag_") && negb (containsTag tags k)
      then tags ++ [TValue (default (bs "null") (ExtractedVars sum ≫= (.!! k)))] else tags)
    (ExtractedKeys sum) (TText (callDisposition sum) :: if UserSpoke sum then [TText (bs "user_speech")] else []).

(** [gatheredContext], the disposition mapped to [mapped]. *)
Definition gatheredContext (sum : summary) (mapped : bytes) : gmap bytes gvalue :=
  let g := {[bs "nodes_visited" := GNodes (NodesVisited sum)]} in
  let g := match ExtractedVars sum with
           | Some vars => <[bs "extracted_variables" := GVars vars]> ((GValue <$> vars) ∪ g)
           | None => g
           end in
  let g := match extracted_disposition sum with Some d => <[bs "extracted_call_disposition" := GText d]> g | None => g end in
  <[bs "call_tags" := GTags (call_tags sum)]>
    (<[bs "mapped_call_disposition" := GText mapped]> (<[bs "call_disposition" := GText (callDisposition sum)]> g)).

(** ** The tables and the storage *)

Inductive run_state := RInitialized | RRunning | RCompleted.
#[global] Instance run_state_dec : EqDecision run_state.
Proof. solve_decision. Defined.

Record run := mkRun {
  r_state : run_state; r_completed : bool; r_gathered : gmap bytes gvalue; r_logs : list LogEvent;
  r_usage : option usageInfo; r_duration : option Z; r_cost : option costBreakdown; r_charge : option spec_float;
  r_recording : option bytes; r_transcript : option bytes;
}.
#[global] Instance eta_run : Eta run := fun r =>
  mkRun (r_state r) (r_completed r) (r_gathered r) (r_logs r) (r_usage r) (r_duration r) (r_cost r) (r_charge r) (r_recording r) (r_transcript r).

Inductive failure := FRunning | FCreate | FComplete | FCode | FPut (key : bytes) | FAttach | FCost.
#[global] Instance failure_dec : EqDecision failure.
Proof. solve_decision. Defined.

(** [charges]: the usage added to the organization's cycle. *)
Record world := mkWorld {
  runs : gmap Z run; nextRun : Z; codes : list bytes; objects : gmap bytes bytes; charges : list (spec_float * Z * option spec_float);
  tick : nat;
}.
#[global] Instance eta_world : Eta world := fun w =>
  mkWorld (runs w) (nextRun w) (codes w) (objects w) (charges w) (tick w).

(** ** The statements *)

(** The second when there is no first. *)
Definition or_else_ {A} (x y : option A) : option A := match x with Some _ => x | None => y end.



(** What a call's recording goes through, in order. *)
Inductive effect := EDone | EExtracted | ESummary | EFinished (errs : list failure) | EQA | EFailed (e : failure).

Section record.
Context `{U : Unicode}.
(** What becomes of the statements and uploads, in order. *)
Variable answers : nat -> Limiter.answer.
(** Whether the process is stopping when a statement is about to be made. *)
Variable stopping : nat -> bool.
(** The organization's DISPOSITION_CODE_MAPPING, if the run has one; whether an
    organization is charged, and its price per second. *)
Variable mapping : option (bytes -> option bytes).
Variable org : bool.
Variable pricePerSec : option spec_float.
(** [Storage], if there is one, and the models in use. *)
Variable storage : bool.
Variables sttModel ttsModel : bytes.

Abbreviation M := (M world effect).

Definition upd (f : world -> world) : M unit := mmod f.
Definition checked (e : failure) (ok : bool) : list failure := if ok then [] else [e].

Definition ask (f : world -> world) : M bool :=
  let! w := mread in
  let a := answers (tick w) in
  upd (fun w => (match a with Limiter.NotSent => w | _ => f w end) <| tick := S (tick w) |>) ;;
  mret (match a with Limiter.Answered => true | _ => false end).

Definition with_run (id : Z) (f : run -> run) (w : world) : world :=
  match runs w !! id with Some r => w <| runs ::= <[id := f r]> |> | None => w end.

(** [startRun]: the inserted row's id, if the answer came. *)
Definition new_run (callID : bytes) : run :=
  mkRun RRunning false {[bs "call_id" := GText callID]} [] None None None None None None.
Definition startRun (callID : bytes) : M (option Z) :=
  let! w := mread in
  let id := nextRun w in
  let! ok := ask (fun w => w <| runs ::= <[id := new_run callID]> |> <| nextRun := id + 1 |>) in
  mret (if ok : bool then Some id else None).

(** [StartRun]; half a second passes between its attempts. *)
Definition StartRun (callID : bytes) : M (option Z) :=
  let! id := startRun callID in
  let! w := mread in
  match id with
  | Some _ => mret id
  | None => if stopping (tick w) then mret None else startRun callID
  end.

Definition MarkRunRunning (id : Z) : M bool := ask (with_run id (fun r => r <| r_state := RRunning |>)).

(** [mapDisposition]. *)
Definition mapDisposition (v : bytes) : M bytes :=
  match mapping with
  | None => mret v
  | Some f =>
      if bool_decide (v = []) then mret v
      else let! ok := ask (fun w => w) in mret (if ok : bool then default v (f v) else v)
  end.

(** [FinishRun]'s steps. *)
Definition completed_run (sum : summary) (mapped : bytes) (u : usageInfo) (r : run) : run :=
  r <| r_usage := Some u |> <| r_duration := Some (CallDurationSeconds u) |>
    <| r_gathered := gatheredContext sum mapped ∪ r_gathered r |> <| r_logs := Events sum |>
    <| r_completed := true |> <| r_state := RCompleted |>.

Definition completeRow (id : Z) (sum : summary) (mapped : bytes) (duration : Z) : M (list failure) :=
  let! ok := ask (with_run id (completed_run sum mapped (buildUsageInfo sttModel ttsModel sum ∅ duration))) in
  mret (checked FComplete ok).

Definition addCode (mapped : bytes) : M (list failure) :=
  if bool_decide (mapped = []) then mret []
  else let! ok := ask (fun w => if bool_decide (mapped ∈ codes w) then w else w <| codes ::= fun l => l ++ [mapped] |>) in
       mret (checked FCode ok).

Definition put (key body : bytes) : M (option bytes * list failure) :=
  if bool_decide (body = []) then mret (None, [])
  else let! ok := ask (fun w => w <| objects ::= <[key := body]> |>) in
       mret (if ok : bool then Some key else None, checked (FPut key) ok).

Definition recordingKey (id : Z) : bytes := bs "recordings/" ++ Campaign.decimal id ++ bs ".wav".
Definition transcriptKey (id : Z) : bytes := bs "transcripts/" ++ Campaign.decimal id ++ bs ".txt".

Definition attached (rec txt : option bytes) (r : run) : run :=
  r <| r_recording := or_else_ rec (r_recording r) |> <| r_transcript := or_else_ txt (r_transcript r) |>.

Definition attach (id : Z) (rec txt : option bytes) : M (list failure) :=
  match rec, txt with
  | None, None => mret []
  | _, _ => let! ok := ask (with_run id (attached rec txt)) in mret (checked FAttach ok)
  end.

Definition uploads (id : Z) (recording text : bytes) : M (list failure) :=
  let! rec := put (recordingKey id) recording in
  let! txt := put (transcriptKey id) text in
  let! e := attach id rec.1 txt.1 in
  mret (rec.2 ++ txt.2 ++ e).

(** [FinishRun]. *)
Definition FinishRun (id : Z) (sum : summary) (duration : Z) (recording : bytes) : M (list failure) :=
  let! mapped := mapDisposition (callDisposition sum) in
  let! e1 := completeRow id sum mapped duration in
  let! e2 := addCode mapped in
  let! e3 := (if storage then uploads id recording (transcriptText (Events sum)) else mret []) in
  mret (e1 ++ e2 ++ e3).

(** [RecordCost]; the maps' entries in some order. *)
Definition cost_of (u : usageInfo) : costBreakdown :=
  calculateCost (map_to_list (u_LLM u)) (map_to_list (u_TTS u)) (map_to_list (u_STT u)).

Definition charge_of (seconds : Z) : option spec_float :=
  match pricePerSec with
  | Some p => if SFeqb p (S754_zero false) then None else Some (BargeIn.fmul (BargeIn.of_int seconds) p)
  | None => None
  end.

Definition RecordCost (id : Z) (sum : summary) (qaUsage : gmap bytes Usage) (duration : Z) : M (list failure) :=
  let u := buildUsageInfo sttModel ttsModel sum qaUsage duration in
  let c := cost_of u in
  let charge := charge_of (CallDurationSeconds u) in
  let! found := ask (fun w => w) in
  if negb found then mret [FCost]
  else
    let! ok := ask (with_run id (fun r => r <| r_usage := Some u |> <| r_cost := Some c |> <| r_duration := Some (CallDurationSeconds u) |>
                                       <| r_charge := or_else_ charge (r_charge r) |>)) in
    if negb ok then mret [FCost]
    else if negb org then mret []
    else
      let! ok := ask (fun w => w <| charges ::= fun l => l ++ [(dograhTokens c, CallDurationSeconds u, charge)] |>) in
      mret (checked FCost ok).

(** ** [recordRun] *)

(** The log a call ends with: the extractions still to come when the agent has
    left it, and the audio sent to the STT. *)
Definition final_log (log : CallLog.t (json := bytes)) (late : list ((bytes -> bytes) * list bytes)) (seconds : spec_float) (gated : bool) : CallLog.t (json := bytes) :=
  STTAudio seconds gated (fold_left (fun l x => Extracted x.1 x.2 l) late log).

(** [given] is the run the dialer made, or zero; [qa] is what the analysis
    used. *)
Definition recordRun (given : Z) (callID : bytes) (log : CallLog.t (json := bytes)) (late : list ((bytes -> bytes) * list bytes))
    (seconds : spec_float) (gated : bool) (duration : Z) (recording : bytes) (qa : gmap bytes Usage) : M Z :=
  let! id :=
    (if given =? 0 then
       let! r := StartRun callID in
       match r with Some id => mret id | None => memit (EFailed FCreate) ;; mret 0 end
     else
       let! ok := MarkRunRunning given in
       mwhen (negb ok) (memit (EFailed FRunning)) ;; mret given) in
  memit EDone ;; memit EExtracted ;;
  let sum := Summary (final_log log late seconds gated) in
  memit ESummary ;;
  if id =? 0 then mret 0
  else
    let! e := FinishRun id sum duration recording in
    memit (EFinished e) ;;
    if negb (bool_decide (e = [])) then mret id
    else
      let! w := mread in
      let stop := stopping (tick w) in
      mwhen (negb stop) (memit EQA) ;;
      let! e := RecordCost id sum (if stop then ∅ else qa) duration in
      mwhen (negb (bool_decide (e = []))) (memit (EFailed FCost)) ;;
      mret id.

(** ** What a call leaves behind *)

Lemma ask_inv f s b s' o :
  ask f s = (b, s', o) ->
  o = [] /\ exists a, s' = (match a with Limiter.NotSent => s | _ => f s end) <| tick := S (tick s) |> /\ b = (match a with Limiter.Answered => true | _ => false end).
Proof. unfold ask, upd. intros H. minv. split; [done|]. by exists (answers (tick s)). Qed.

(** A statement on one run. *)
Lemma with_run_at id f w r : runs w !! id = Some r -> with_run id f w = w <| runs ::= <[id := f r]> |>.
Proof. unfold with_run. by intros ->. Qed.

(** What is left alone by the work on run [id]. *)
Record apart (id : Z) (w w' : world) : Prop := {
  ap_next : nextRun w' = nextRun w;
  ap_runs : forall j, j <> id -> runs w' !! j = runs w !! j;
}.

Lemma apart_trans id a b c : apart id a b -> apart id b c -> apart id a c.
Proof. intros [H1 H2] [H3 H4]. split; [congruence|]. intros j Hj. by rewrite H4, H2. Qed.

Lemma ask_run id f s b s' o r :
  ask (with_run id f) s = (b, s', o) -> runs s !! id = Some r ->
  o = [] /\ apart id s s' /\ objects s' = objects s /\ charges s' = charges s /\
  exists r', runs s' !! id = Some r' /\ (r' = r \/ r' = f r) /\ (b = true -> r' = f r).
Proof.
  intros H Hr. apply ask_inv in H as (-> & a & -> & ->). split; [done|].
  assert (Hf : apart id s ((with_run id f s) <| tick := S (tick s) |>) /\ runs ((with_run id f s) <| tick := S (tick s) |>) !! id = Some (f r) /\
    objects (with_run id f s) = objects s /\ charges (with_run id f s) = charges s).
  { rewrite (with_run_at _ _ _ r Hr). split; [split; [done|]; intros j Hj; simpl; by rewrite lookup_insert_ne|].
    simpl. by rewrite lookup_insert_eq. }
  destruct Hf as (H1 & H2 & H3 & H4). destruct a; (split; [first [done|by split]|split; [done|split; [done|]]]); eexists; eauto.
  split_and!; [done|auto|done].
Qed.

Lemma mapDisposition_inv v s m s' o :
  mapDisposition v s = (m, s', o) ->
  o = [] /\ runs s' = runs s /\ nextRun s' = nextRun s /\ objects s' = objects s /\ charges s' = charges s /\
  (m = v \/ exists f, mapping = Some f /\ f v = Some m).
Proof.
  unfold mapDisposition. destruct mapping as [f|]; [|intros H; minv; by auto 10]. case_bool_decide; [intros H'; minv; by auto 10|].
  intros H'. minv. apply ask_inv in H'0 as (-> & a & -> & ->). destruct a; simpl; split_and!; auto.
  destruct (f v) as [x|] eqn:E; simpl; eauto.
Qed.

Lemma addCode_inv m s e s' o :
  addCode m s = (e, s', o) ->
  o = [] /\ runs s' = runs s /\ nextRun s' = nextRun s /\ objects s' = objects s /\ charges s' = charges s /\ FComplete ∉ e.
Proof.
  unfold addCode. case_bool_decide; intros H'; minv; [split_and!; auto; set_solver|]. apply ask_inv in H'0 as (-> & a & -> & ->).
  destruct a, (decide (m ∈ codes s)); rewrite ?bool_decide_eq_true_2, ?bool_decide_eq_false_2 by done; simpl; split_and!; auto; set_solver.
Qed.

Lemma put_inv key body s k e s' o :
  put key body s = ((k, e), s', o) ->
  o = [] /\ runs s' = runs s /\ nextRun s' = nextRun s /\ charges s' = charges s /\ (forall j, j <> key -> objects s' !! j = objects s !! j) /\
  FComplete ∉ e /\ (forall x, k = Some x -> x = key /\ body <> [] /\ objects s' !! key = Some body) /\ (e = [] -> body <> [] -> k = Some key).
Proof.
  unfold put. case_bool_decide; intros H'; minv; [split_and!; auto; set_solver|]. apply ask_inv in H'0 as (-> & a & -> & ->).
  destruct a; simpl; split_and!; auto; try done; try set_solver; try (intros; by rewrite lookup_insert_ne); try (intros x [= <-]; by rewrite lookup_insert_eq).
Qed.

(** The files a run refers to are in the storage. *)
Definition files_kept (id : Z) (recording text : bytes) (w : world) (r : run) : Prop :=
  (forall k, r_recording r = Some k -> k = recordingKey id /\ recording <> [] /\ objects w !! k = Some recording) /\
  (forall k, r_transcript r = Some k -> k = transcriptKey id /\ text <> [] /\ objects w !! k = Some text).

(** The run with its files: the rest of it is as it was. *)
Definition same_but_files (r r' : run) : Prop := exists a b, r' = r <| r_recording := a |> <| r_transcript := b |>.

Lemma attach_inv id rec txt s e s' o r :
  attach id rec txt s = (e, s', o) -> runs s !! id = Some r ->
  o = [] /\ apart id s s' /\ objects s' = objects s /\ charges s' = charges s /\ FComplete ∉ e /\
  exists r', runs s' !! id = Some r' /\ (r' = r \/ r' = attached rec txt r) /\ (e = [] -> r' = attached rec txt r).
Proof.
  intros H Hr. unfold attach in H.
  assert (Hask : (let! ok := ask (with_run id (attached rec txt)) in mret (checked FAttach ok)) s = (e, s', o) ->
    o = [] /\ apart id s s' /\ objects s' = objects s /\ charges s' = charges s /\ FComplete ∉ e /\
    exists r', runs s' !! id = Some r' /\ (r' = r \/ r' = attached rec txt r) /\ (e = [] -> r' = attached rec txt r)).
  { clear H. intros H. minv. destruct (ask_run _ _ _ _ _ _ _ H0 Hr) as (-> & Hap & Ho & Hc & r' & Hr' & Hor & Hb).
    split_and!; auto; [destruct x; set_solver|]. exists r'. split_and!; auto. destruct x; [auto|done]. }
  destruct rec, txt; try (by apply Hask). minv. split_and!; auto; [by split|set_solver|].
  exists r. split_and!; auto. intros _. by destruct r.
Qed.

Lemma uploads_inv id recording text s e s' o r :
  uploads id recording text s = (e, s', o) -> runs s !! id = Some r -> r_recording r = None -> r_transcript r = None ->
  o = [] /\ apart id s s' /\ charges s' = charges s /\ FComplete ∉ e /\
  exists r', runs s' !! id = Some r' /\ same_but_files r r' /\ files_kept id recording text s' r' /\
    (e = [] -> (recording <> [] -> is_Some (r_recording r')) /\ (text <> [] -> is_Some (r_transcript r'))).
Proof.
  intros H Hr Hn1 Hn2. unfold uploads in H. minv. destruct x as [rec e1], x3 as [txt e2]. cbn [fst snd] in *.
  apply put_inv in H0 as (-> & R1 & N1 & C1 & O1 & F1 & K1 & G1). apply put_inv in H2 as (-> & R2 & N2 & C2 & O2 & F2 & K2 & G2).
  destruct (attach_inv _ _ _ _ _ _ _ r H4) as (-> & A3 & O3 & C3 & F3 & r' & Hr' & Hor & He); [congruence|].
  split; [done|]. split.
  { destruct A3 as [N3 R3]. split; [congruence|]. intros j Hj. rewrite R3 by done. congruence. }
  split; [congruence|]. split; [set_solver|]. exists r'. split; [done|].
  assert (Hf : same_but_files r r') by (destruct Hor as [->| ->]; [exists (r_recording r), (r_transcript r); by destruct r|by eexists _, _]).
  split; [done|]. split.
  - destruct Hor as [->| ->]; [split; intros k; congruence|]. split; intros k; simpl; rewrite ?Hn1, ?Hn2, O3.
    + destruct rec as [k'|]; simpl; [|done]. intros [= <-]. destruct (K1 k' eq_refl) as (-> & Hne & Hk). split_and!; auto. by rewrite O2.
    + destruct txt as [k'|]; simpl; [|done]. intros [= <-]. destruct (K2 k' eq_refl) as (-> & Hne & Hk). auto.
  - intros [-> [-> ->]%app_nil]%app_nil. rewrite He by done. split; intros Hne; simpl; [by rewrite (G1 eq_refl Hne)|by rewrite (G2 eq_refl Hne)].
Qed.

(** *** [FinishRun] *)

Lemma FinishRun_inv id sum duration recording s e s' o r :
  FinishRun id sum duration recording s = (e, s', o) -> runs s !! id = Some r -> r_recording r = None -> r_transcript r = None ->
  o = [] /\ apart id s s' /\ charges s' = charges s /\
  exists r' mapped, runs s' !! id = Some r' /\
    (mapped = callDisposition sum \/ exists f, mapping = Some f /\ f (callDisposition sum) = Some mapped) /\
    (FComplete ∉ e -> same_but_files (completed_run sum mapped (buildUsageInfo sttModel ttsModel sum ∅ duration) r) r') /\
    files_kept id recording (transcriptText (Events sum)) s' r' /\
    (e = [] -> storage = true -> (recording <> [] -> is_Some (r_recording r')) /\ (transcriptText (Events sum) <> [] -> is_Some (r_transcript r'))).
Proof.
  intros H Hr Hn1 Hn2. unfold FinishRun in H. minv.
  apply mapDisposition_inv in H0 as (-> & R1 & N1 & O1 & C1 & Hm). rewrite <- R1 in Hr.
  unfold completeRow in H2. minv. destruct (ask_run _ _ _ _ _ _ _ H0 Hr) as (-> & A2 & O2 & C2 & r2 & Hr2 & Hor & Hb).
  apply addCode_inv in H4 as (-> & R3 & N3 & O3 & C3 & F3). rewrite <- R3 in Hr2.
  assert (Hfiles : r_recording r2 = None /\ r_transcript r2 = None) by (destruct Hor as [->| ->]; done). destruct Hfiles as [Hf1 Hf2].
  assert (A3 : apart id s x8).
  { destruct A2 as [N2 R2]. split; [congruence|]. intros j Hj. rewrite R3, R2 by done. congruence. }
  assert (Hdone : forall r', FComplete ∉ checked FComplete x1 ++ x7 ++ x11 -> same_but_files r2 r' ->
    same_but_files (completed_run sum x (buildUsageInfo sttModel ttsModel sum ∅ duration) r) r').
  { intros r' Hnot Hs. rewrite <- Hb; [done|]. destruct x1; [done|]. set_solver. }
  destruct storage.
  - destruct (uploads_inv _ _ _ _ _ _ _ _ H6 Hr2 Hf1 Hf2) as (-> & A4 & C4 & F4 & r' & Hr' & Hs & Hk & He).
    split; [done|]. split; [by eapply apart_trans|]. split; [congruence|]. exists r', x. split_and!; auto.
    intros [_ [_ ->]%app_nil]%app_nil. auto.
  - minv. split; [done|]. split; [done|]. split; [congruence|]. exists r2, x.
    assert (same_but_files r2 r2) by (exists (r_recording r2), (r_transcript r2); by destruct r2).
    split_and!; auto; [|done]. split; intros k; congruence.
Qed.

(** *** Pricing and the whole *)

Definition same_but_cost (r r' : run) : Prop := exists a b c d, r' = r <| r_usage := a |> <| r_cost := b |> <| r_duration := c |> <| r_charge := d |>.

Lemma same_but_cost_refl r : same_but_cost r r.
Proof. exists (r_usage r), (r_cost r), (r_duration r), (r_charge r). by destruct r. Qed.

Lemma RecordCost_inv id sum qa duration s e s' o r :
  RecordCost id sum qa duration s = (e, s', o) -> runs s !! id = Some r ->
  o = [] /\ apart id s s' /\ objects s' = objects s /\ (charges s' = charges s \/ exists x, charges s' = charges s ++ [x]) /\
  exists r', runs s' !! id = Some r' /\ same_but_cost r r'.
Proof.
  intros H Hr. unfold RecordCost in H. minv. apply ask_inv in H0 as (-> & a & -> & ->).
  set (s1 := (match a with Limiter.NotSent => s | _ => s end) <| tick := S (tick s) |>) in *.
  assert (H1 : apart id s s1 /\ objects s1 = objects s /\ charges s1 = charges s /\ runs s1 = runs s) by (destruct a; by split_and!).
  clearbody s1. destruct H1 as (A1 & O1 & C1 & R1). rewrite <- R1 in Hr.
  pose proof (same_but_cost_refl r) as Hsame. destruct (match a with Limiter.Answered => true | _ => false end); simpl in H; minv.
  2: { split_and!; auto. by exists r. }
  destruct (ask_run _ _ _ _ _ _ _ H0 Hr) as (-> & A2 & O2 & C2 & r2 & Hr2 & Hor & _).
  assert (Hs : same_but_cost r r2) by (destruct Hor as [->| ->]; [done|by eexists _, _, _, _]).
  destruct x as []; simpl in H; minv; [|split_and!; [done|by eapply apart_trans|congruence|left; congruence|by exists r2]].
  destruct org; simpl in H; minv; [|split_and!; [done|by eapply apart_trans|congruence|left; congruence|by exists r2]].
  apply ask_inv in H1 as (-> & b & -> & ->). split; [done|].
  split; [eapply apart_trans; [done|eapply apart_trans; [done|by destruct b]]|].
  split; [destruct b; simpl; congruence|]. split; [|by exists r2; destruct b].
  destruct b; simpl; rewrite ?C2, ?C1; eauto.
Qed.

(** What is there before [n] stays. *)
Record grown (s s' : world) : Prop := {
  gr_charges : charges s' = charges s;
  gr_objects : objects s' = objects s;
  gr_next : nextRun s <= nextRun s';
  gr_runs : forall j, j < nextRun s -> runs s' !! j = runs s !! j;
}.

Lemma grown_trans a b c : grown a b -> grown b c -> grown a c.
Proof. intros [] []. split; try congruence; [lia|]. intros j Hj. rewrite gr_runs1 by lia. auto. Qed.

Lemma startRun_inv callID s x s' o :
  startRun callID s = (x, s', o) ->
  o = [] /\ grown s s' /\ (forall id, x = Some id -> nextRun s <= id /\ runs s' !! id = Some (new_run callID)).
Proof.
  unfold startRun. intros H. minv. apply ask_inv in H1 as (-> & a & -> & ->). split; [done|]. split.
  - destruct a; split; simpl; try done; try lia; intros j Hj; by rewrite lookup_insert_ne by lia.
  - intros id. destruct a; simpl; try done. intros [= <-]. by rewrite lookup_insert_eq.
Qed.

Lemma StartRun_inv callID s x s' o :
  StartRun callID s = (x, s', o) ->
  o = [] /\ grown s s' /\ (forall id, x = Some id -> nextRun s <= id /\ runs s' !! id = Some (new_run callID)).
Proof.
  unfold StartRun. intros H. apply mseq_inv in H as (x0 & s1 & w1 & w2 & H0 & H & ->). rewrite mread_seq_at in H.
  apply startRun_inv in H0 as (-> & G1 & K1). destruct x0 as [id|]; [minv; by split_and!|].
  destruct (stopping _); [minv; by split_and!|]. apply startRun_inv in H as (-> & G2 & K2). split; [done|].
  split; [by eapply grown_trans|]. intros id Hid. destruct (K2 id Hid) as [Hle Hr]. split; [|done]. pose proof (gr_next _ _ G1). lia.
Qed.

Lemma record_start given callID w i0 w1 o1 :
  0 < nextRun w -> (forall j, is_Some (runs w !! j) -> j < nextRun w) ->
  (given <> 0 -> exists r, runs w !! given = Some r /\ r_recording r = None /\ r_transcript r = None) ->
  (if given =? 0
   then let! r := StartRun callID in match r with Some id => mret id | None => memit (EFailed FCreate) ;; mret 0 end
   else let! ok := MarkRunRunning given in mwhen (negb ok) (memit (EFailed FRunning)) ;; mret given) w = (i0, w1, o1) ->
  (forall j, j < nextRun w -> j <> i0 -> runs w1 !! j = runs w !! j) /\ charges w1 = charges w /\ objects w1 = objects w /\
  (i0 = 0 -> given = 0) /\ (i0 <> 0 -> exists r, runs w1 !! i0 = Some r /\ r_recording r = None /\ r_transcript r = None).
Proof.
  intros Hnext Hrows Hgiven H. destruct (Z.eqb_spec given 0) as [->|Hne].
  - minv. apply StartRun_inv in H0 as (-> & [G1 G2 G3 G4] & K). destruct x as [id|]; minv; split_and!; auto; try done.
    intros _. destruct (K id eq_refl) as [_ ->]. by eexists.
  - destruct (Hgiven Hne) as (r0 & Hr0 & Hn1 & Hn2). unfold MarkRunRunning in H.
    minv; destruct (ask_run _ _ _ _ _ _ _ H0 Hr0) as (-> & [A1 A2] & O & C & r' & Hr' & Hor & _);
      (split_and!; auto; intros _; exists r'; split; [done|]; by destruct Hor as [->| ->]).
Qed.

Lemma price_inv id sum qa duration s i s' o r :
  (let! w := mread in
   mwhen (negb (stopping (tick w))) (memit EQA) ;;
   let! e := RecordCost id sum (if stopping (tick w) then ∅ else qa) duration in
   mwhen (negb (bool_decide (e = []))) (memit (EFailed FCost)) ;;
   mret id) s = (i, s', o) -> runs s !! id = Some r ->
  i = id /\ apart id s s' /\ objects s' = objects s /\ (charges s' = charges s \/ exists x, charges s' = charges s ++ [x]) /\
  exists r', runs s' !! id = Some r' /\ same_but_cost r r'.
Proof.
  intros H Hr. rewrite mread_seq_at in H. apply mseq_inv in H as (u & s1 & w1 & w2 & H0 & H & ->).
  assert (s1 = s) as -> by (destruct (negb (stopping (tick s))); by minv).
  apply mseq_inv in H as (e & s2 & w3 & w4 & H1 & H & ->).
  destruct (RecordCost_inv _ _ _ _ _ _ _ _ _ H1 Hr) as (-> & A & O & C & K).
  assert (i = id /\ s' = s2) as [-> ->] by (destruct (negb (bool_decide (e = []))); by minv). by split_and!.
Qed.

Lemma files_kept_cost id recording text w w' r r' :
  files_kept id recording text w r -> objects w' = objects w -> same_but_cost r r' -> files_kept id recording text w' r'.
Proof. intros [H1 H2] E (a & b & c & d & ->). split; simpl; rewrite E; auto. Qed.

(** C34: whatever fails of writing it, a call's record is whole as far as it
    goes: the run it is about, the dialer's or a new one, is completed with the
    conversation and what was gathered, extractions still running included,
    unless just that statement failed; a file it names is in the storage; no
    other run is touched and nothing is charged twice. But one failed upload
    is enough for the call not to be analysed or priced. *)
Theorem call_recorded (given : Z) (callID : bytes) (log : CallLog.t) (late : list ((bytes -> bytes) * list bytes))
    (seconds : spec_float) (gated : bool) (duration : Z) (recording : bytes) (qa : gmap bytes Usage) (w w' : world) (i : Z) (o : list effect)
  (Hnext : 0 < nextRun w) (Hrows : forall j, is_Some (runs w !! j) -> j < nextRun w)
  (Hgiven : given <> 0 -> exists r, runs w !! given = Some r /\ r_recording r = None /\ r_transcript r = None)
  (H : recordRun given callID log late seconds gated duration recording qa w = (i, w', o)) :
  let sum := Summary (final_log log late seconds gated) in
  (forall j, j < nextRun w -> j <> i -> runs w' !! j = runs w !! j) /\
  (length (charges w') <= length (charges w) + 1)%nat /\
  (i = 0 -> given = 0 /\ charges w' = charges w /\ objects w' = objects w) /\
  (i <> 0 -> exists pre e post r mapped,
     (mapped = callDisposition sum \/ exists f, mapping = Some f /\ f (callDisposition sum) = Some mapped) /\
     o = pre ++ [EDone; EExtracted; ESummary; EFinished e] ++ post /\ runs w' !! i = Some r /\
     (FComplete ∉ e -> r_state r = RCompleted /\ r_completed r = true /\ r_logs r = Events sum /\
        gatheredContext sum mapped ⊆ r_gathered r) /\
     files_kept i recording (transcriptText (Events sum)) w' r /\
     (e <> [] -> post = [] /\ charges w' = charges w)).
Proof.
  intros sum. unfold recordRun in H. fold sum in H. apply mseq_inv in H as (i0 & w1 & o1 & o2 & H1 & H & ->).
  destruct (record_start _ _ _ _ _ _ Hnext Hrows Hgiven H1) as (R1 & C1 & O1 & Z1 & K1). clear H1.
  apply mseq_inv in H as (? & ? & ? & ? & Ha & H & ->). injection Ha as <- <- <-.
  apply mseq_inv in H as (? & ? & ? & ? & Ha & H & ->). injection Ha as <- <- <-.
  apply mseq_inv in H as (? & ? & ? & o3 & Ha & H & ->). injection Ha as <- <- <-.
  destruct (Z.eqb_spec i0 0) as [->|Hne].
  { injection H as <- <- <-. split_and!; auto; [rewrite C1; lia|done]. }
  destruct (K1 Hne) as (r0 & Hr0 & Hn1 & Hn2). apply mseq_inv in H as (e & w2 & o4 & o5 & Hf & H & ->).
  destruct (FinishRun_inv _ _ _ _ _ _ _ _ _ Hf Hr0 Hn1 Hn2) as (-> & A2 & C2 & r2 & mapped & Hr2 & Hm & Hdone & Hk & _).
  apply mseq_inv in H as (? & ? & ? & o6 & Ha & H & ->). injection Ha as <- <- <-.
  assert (Hfin : FComplete ∉ e -> r_state r2 = RCompleted /\ r_completed r2 = true /\ r_logs r2 = Events sum /\ r_gathered r2 = gatheredContext sum mapped ∪ r_gathered r0).
  { intros Hnot. by destruct (Hdone Hnot) as (a & b & ->). }
  case_bool_decide as He; cbn [negb] in H.
  - destruct (price_inv _ _ _ _ _ _ _ _ _ H Hr2) as (-> & A3 & O3 & C3 & r3 & Hr3 & Hs). split_and!.
    + intros j Hj Hji. rewrite (ap_runs _ _ _ A3), (ap_runs _ _ _ A2) by done. auto.
    + destruct C3 as [->|[x ->]]; rewrite ?length_app, C2, C1; simpl; lia.
    + done.
    + intros _. exists o1, e, o6, r3, mapped. split_and!; [done|by rewrite <- ?app_assoc|done| | |by intros].
      * intros Hnot. destruct (Hfin Hnot) as (F1 & F2 & F3 & F4). destruct Hs as (a & b & c & d & ->). split_and!; [done..|]. simpl. rewrite F4. apply map_union_subseteq_l.
      * by eapply files_kept_cost.
  - injection H as <- <- <-. split_and!.
    + intros j Hj Hji. rewrite (ap_runs _ _ _ A2) by done. auto.
    + rewrite C2, C1. lia.
    + done.
    + intros _. exists o1, e, [], r2, mapped. split_and!; [done|by rewrite <- ?app_assoc|done| |done|].
      * intros Hnot. destruct (Hfin Hnot) as (F1 & F2 & F3 & F4). split_and!; [done..|]. rewrite F4. apply map_union_subseteq_l.
      * intros _. split; [done|congruence].
Qed.
End record.

(** What the gathered context says of a call whatever was extracted from it:
    an extracted variable never hides the outcome, and is itself there. *)
Definition reserved : list bytes :=
  map bs ["nodes_visited"; "extracted_variables"; "extracted_call_disposition"; "call_disposition"; "mapped_call_disposition"; "call_tags"]%string.

Theorem gathered_context (sum : summary) (mapped : bytes) :
  let g := gatheredContext sum mapped in
  g !! bs "call_disposition" = Some (GText (callDisposition sum)) /\
  g !! bs "mapped_call_disposition" = Some (GText mapped) /\
  g !! bs "call_tags" = Some (GTags (call_tags sum)) /\
  (forall vars k v, ExtractedVars sum = Some vars -> vars !! k = Some v -> k ∉ reserved -> g !! k = Some (GValue v)).
Proof.
  intros g. unfold g, gatheredContext. split_and!.
  - by rewrite !lookup_insert_ne, lookup_insert_eq by done.
  - by rewrite lookup_insert_ne, lookup_insert_eq by done.
  - by rewrite lookup_insert_eq.
  - intros vars k v -> Hk Hr. unfold reserved in Hr. cbn [map] in Hr. rewrite !not_elem_of_cons in Hr. destruct Hr as (H1 & H2 & H3 & H4 & H5 & H6 & _).
    rewrite !lookup_insert_ne by done. destruct (extracted_disposition sum); rewrite ?lookup_insert_ne by done;
      (apply lookup_union_Some_l; by rewrite lookup_fmap, Hk).
Qed.

(** ** Examples and witness *)

Example isoformat_ex : map isoformat [0; 1735689600123; 1709210096007] = map bs ["1970-01-01T00:00:00.000+00:00"; "2025-01-01T00:00:00.123+00:00"; "2024-02-29T12:34:56.007+00:00"]%string.
Proof. by vm_compute. Qed.

Definition ex_log : CallLog.t (json := bytes) :=
  CallLog.life [(1735689600123000000, CUserSaid (bs "yes") 1735689600000000000); (1735689601000000000, CAgentSaid (bs "bye") 1735689600500000000); (1735689602000000000, CEnding (bs "user_qualified"))].
Definition ex_late : list ((bytes -> bytes) * list bytes) := [(fun k => qs "'AAP'", [bs "tag_party"; bs "party"])].

Definition ex_answers (bad : list nat) (n : nat) : Limiter.answer := if bool_decide (n ∈ bad) then Limiter.NotSent else Limiter.Answered.
Definition ex_world : world := mkWorld {[7 := mkRun RInitialized false ∅ [] None None None None None None]} 8 [] ∅ [] 0.
Abbreviation ex_record bad := (recordRun (ex_answers bad) (fun _ => false) None true None true (bs "saaras:v4") (bs "bulbul:v3") 7 (bs "c1") ex_log ex_late (S754_zero false) false 9000000000 [1; 2] ∅ ex_world).

(** The run is completed though its recording is not uploaded; then it is not
    priced either. *)
Definition ex_digest (bad : list nat) :=
  let '(i, w, o) := ex_record bad in
  (o, (fun r => (r_state r, r_recording r, r_transcript r, r_gathered r !! bs "call_tags")) <$> runs w !! 7, length (charges w)).

Example recorded_all : ex_digest [] =
  ([EDone; EExtracted; ESummary; EFinished []; EQA],
   Some (RCompleted, Some (bs "recordings/7.wav"), Some (bs "transcripts/7.txt"),
         Some (GTags [TText (bs "user_qualified"); TText (bs "user_speech"); TValue (qs "'AAP'")])), 1%nat).
Proof. by vm_compute. Qed.

Example upload_failure_unpriced : ex_digest [3%nat] =
  ([EDone; EExtracted; ESummary; EFinished [FPut (bs "recordings/7.wav")]],
   Some (RCompleted, None, Some (bs "transcripts/7.txt"),
         Some (GTags [TText (bs "user_qualified"); TText (bs "user_speech"); TValue (qs "'AAP'")])), 0%nat).
Proof. by vm_compute. Qed.

(** An answer lost to the first INSERT leaves a run that no one completes. *)
Example lost_insert :
  let '(i, w, _) := recordRun (fun n => match n with O => Limiter.ReplyLost | _ => Limiter.Answered end) (fun _ => false) None true None true (bs "s") (bs "t")
                      0 (bs "c1") ex_log [] (S754_zero false) false 9000000000 [] ∅ (mkWorld ∅ 1 [] ∅ [] 0) in
  (i, r_state <$> runs w !! 1, r_state <$> runs w !! 2) = (2, Some RRunning, Some RCompleted).
Proof. by vm_compute. Qed.

Example transcript_ex : transcriptText (Events (Summary ex_log)) = bs "[2025-01-01T00:00:00.000+00:00] User: yes
[2025-01-01T00:00:00.500+00:00] Agent: bye
".
Proof. by vm_compute. Qed.

Example ex_out_id : (ex_record [3%nat]).1.1 = 7.
Proof. by vm_compute. Qed.

Lemma ex_world_ok :
  (forall j, is_Some (runs ex_world !! j) -> j < nextRun ex_world) /\
  (7 <> 0 -> exists r, runs ex_world !! 7 = Some r /\ r_recording r = None /\ r_transcript r = None).
Proof.
  split; [|intros _; by eexists]. intros j [r Hr]. simpl in *. destruct (decide (j = 7)) as [->|Hne]; [done|]. by rewrite lookup_singleton_ne in Hr.
Qed.

Lemma call_recorded_witness :
  exists r, runs (ex_record [3%nat]).1.2 !! 7 = Some r /\ files_kept 7 [1; 2] (transcriptText (Events (Summary (final_log ex_log ex_late (S754_zero false) false)))) (ex_record [3%nat]).1.2 r.
Proof.
  destruct (call_recorded (ex_answers [3%nat]) (fun _ => false) None true None true (bs "saaras:v4") (bs "bulbul:v3") 7 (bs "c1") ex_log ex_late (S754_zero false) false
      9000000000 [1; 2] ∅ ex_world _ _ _ eq_refl (proj1 ex_world_ok) (proj2 ex_world_ok) (triple_parts _)) as (_ & _ & _ & K).
  rewrite ex_out_id in K. destruct (K ltac:(discriminate)) as (pre & e & post & r & mapped & _ & _ & Hr & _ & Hk & _). exists r. split; [exact Hr|exact Hk].
Defined.
