(* ===== verification/Outbound.v ===== *)
(** The settings of campaigns and of dialing: [internal/dograh/campaign.go]'s
    parsing, its wallet rule, [internal/dograh/outbound.go], and the test call
    of [internal/campaign/testcall.go].

    JSON columns come decoded; a Go [int] is 64 bits wide. *)

From Stdlib Require Import String SpecFloat.
From S2P Require Import Prelude Text ClipRouter Esl Limiter Campaign Runner BargeIn RunRecord.

Local Open Scope Z_scope.

(** ** Campaign settings *)

Definition seconds64 (n : Z) : Z := i64 (n * 1000000000).

Record retryJSON := mkRetryJSON {
  j_Enabled : option bool; j_MaxRetries : option Z; j_Delay : option Z; j_OnBusy : option bool; j_OnNoAnswer : option bool; j_OnVoicemail : option bool;
}.
Record scheduleJSON := mkScheduleJSON { j_On : bool; Timezone : bytes; j_Slots : list Campaign.ScheduleSlot }.
Record breakerJSON := mkBreakerJSON { j_BreakerOn : option bool; j_Threshold : option spec_float; j_Window : option Z; j_MinCalls : option Z }.
Record metaJSON := mkMetaJSON { j_MaxConcurrency : option Z; j_Schedule : option scheduleJSON; j_Breaker : option breakerJSON }.
Definition no_retry : retryJSON := mkRetryJSON None None None None None None.
Definition no_meta : metaJSON := mkMetaJSON None None None.

(** A finite [float64] as a fraction. *)
Definition fraction (f : spec_float) : Z * Z :=
  match f with
  | S754_finite s m e => let z := if s then Z.neg m else Z.pos m in if 0 <=? e then (z * 2 ^ e, 1) else (z, 2 ^ (- e))
  | _ => (0, 1)
  end.

Section settings.
Variable decodeRetry : bytes -> option retryJSON.
Variable decodeMeta : bytes -> option metaJSON.
(** [time.LoadLocation]. *)
Variable LoadLocation : bytes -> option (Z -> Z * bytes).

Definition parseRetry (r : retryJSON) : Campaign.RetryConfig :=
  Campaign.mkRetry (default true (j_Enabled r)) (default 1 (j_MaxRetries r)) (seconds64 (default 120 (j_Delay r)))
    (default true (j_OnBusy r)) (default true (j_OnNoAnswer r)) (default true (j_OnVoicemail r)).

(** The threshold is one half unless given. *)
Definition parseBreaker (b : option breakerJSON) : Limiter.BreakerConfig :=
  match b with
  | None => Limiter.mkBreaker true 1 2 (seconds64 120) 5
  | Some b =>
      let '(n, d) := match j_Threshold b with Some f => fraction f | None => (1, 2) end in
      Limiter.mkBreaker (default true (j_BreakerOn b)) n d (seconds64 (default 120 (j_Window b))) (default 5 (j_MinCalls b))
  end.

Definition parseSchedule (s : option scheduleJSON) : Campaign.Schedule :=
  match s with
  | None => Campaign.mkSchedule false None []
  | Some s => Campaign.mkSchedule (j_On s) (LoadLocation (if bool_decide (Timezone s = []) then bs "UTC" else Timezone s)) (j_Slots s)
  end.

(** A campaign's row, its two JSON columns as text. *)
Record campaignRow := mkCampaignRow { cr_ID : Z; cr_Org : Z; cr_Workflow : Z; cr_Rate : Z; retry_config : bytes; orchestrator_metadata : bytes }.

Inductive settingsError := BadRetry | BadMetadata.

(** [parseCampaign]. *)
Definition parseCampaign (c : campaignRow) : Campaign.Campaign + settingsError :=
  match (if bool_decide (retry_config c = []) then Some no_retry else decodeRetry (retry_config c)) with
  | None => inr BadRetry
  | Some r =>
      match (if bool_decide (orchestrator_metadata c = []) then Some no_meta else decodeMeta (orchestrator_metadata c)) with
      | None => inr BadMetadata
      | Some m =>
          inl (Campaign.mkCampaign (cr_ID c) (cr_Org c) (cr_Workflow c) (Z.max (cr_Rate c) 1) (default 0 (j_MaxConcurrency m))
                 (parseRetry r) (parseSchedule (j_Schedule m)) (parseBreaker (j_Breaker m)))
      end
  end.

(** [VaaniCampaigns], of the rows the query gives. *)
Definition VaaniCampaigns (rows : list campaignRow) : list Campaign.Campaign * list (Z * settingsError) :=
  (omap (fun c => match parseCampaign c with inl x => Some x | inr _ => None end) rows,
   omap (fun c => match parseCampaign c with inl _ => None | inr e => Some (cr_ID c, e) end) rows).
End settings.

(** [walletBlocks]. *)
Definition walletBlocks (mode : option bytes) (rate balance credit : option spec_float) : bool :=
  match mode, rate with
  | Some m, Some r =>
      if bool_decide (m = []) || SFeqb r (S754_zero false) then false
      else
        let bal := default (S754_zero false) balance in
        if bool_decide (m = bs "prepaid") then SFltb bal r
        else match credit with None => false | Some c => SFleb bal (SFopp c) end
  | _, _ => false
  end.

(** [WalletBlocks]: no row, or a failed query, never blocks. *)
Definition WalletBlocks (row : option (option bytes * option spec_float * option spec_float * option spec_float)) : bool :=
  match row with Some (mode, rate, balance, credit) => walletBlocks mode rate balance credit | None => false end.

Section org.
(** The [value] of an object, if it has a number there. *)
Variable decodeValue : bytes -> option (option Z).
(** A key's row of an organization: none, or the query failed. *)
Variable configuration : bytes -> result (option bytes) unit.

(** [orgConfigInt]. *)
Definition orgConfigInt (key : string) : result (option Z) unit :=
  match configuration (bs key) with
  | Err e => Err e
  | Ok None => Ok None
  | Ok (Some raw) => Ok (default None (decodeValue raw))
  end.
Definition OrgConcurrencyLimit : result (option Z) unit := orgConfigInt "CONCURRENT_CALL_LIMIT".
Definition OrgDialRate : result (option Z) unit := orgConfigInt "DIAL_RATE_LIMIT_PER_SECOND".
End org.

(** ** Dialing *)

Record DialSettings := mkDialSettings {
  d_Provider : bytes; Technology : bytes; Trunk : bytes; StripPrefix : bytes; FromNumbers : list bytes; WorkflowCLI : gmap Z bytes;
}.

Definition HasTech (number : bytes) : bool := HasPrefix number (bs "SIP/") || HasPrefix number (bs "PJSIP/").

(** [Endpoint]. *)
Definition Endpoint (d : DialSettings) (number : bytes) : bytes :=
  if HasTech number then number
  else
    let number := if bool_decide (StripPrefix d = []) then number else TrimPrefix number (StripPrefix d) in
    let tech := if bool_decide (Technology d = []) then bs "PJSIP" else Technology d in
    tech ++ bs "/" ++ number ++ (if bool_decide (Trunk d = []) then [] else bs "@" ++ Trunk d).

(** [CallerID]. *)
Definition CallerID (d : DialSettings) (workflow : Z) : bytes :=
  let cli := default [] (WorkflowCLI d !! workflow) in
  if bool_decide (cli = []) then match FromNumbers d with n :: _ => n | [] => [] end else cli.

Section dialing.
Context `{U : Unicode}.
Variable ToUpper : bytes -> bytes.

(** The organization's telephony configuration: its texts, [from_numbers] as a
    list (and whether it is one) or as one text, [number_workflow_map] in the
    order it is walked. *)
Inductive mapped := MNumber (f : spec_float) | MText (s : bytes) | MOther.
Record telephonyRow := mkTelephony {
  t_provider : bytes; t_technology : bytes; t_trunk : bytes; t_strip : bytes;
  t_from : list bytes * bool; t_one : option bytes; t_map : list (bytes * mapped);
}.

Definition workflow_of (w : mapped) : option Z := match w with MNumber f => Some (DographTools.truncated f) | MText s => Atoi s | MOther => None end.

(** [DialSettings]. *)
Definition readDialSettings (r : telephonyRow) : DialSettings :=
  let tech := ToUpper (TrimSpace (t_technology r)) in
  mkDialSettings (t_provider r) (if bool_decide (tech = []) then bs "PJSIP" else tech) (TrimSpace (t_trunk r)) (TrimSpace (t_strip r))
    (if (t_from r).2 then (t_from r).1 else match t_one r with Some (c :: n) => [c :: n] | _ => (t_from r).1 end)
    (fold_left (fun m pw => match workflow_of pw.2 with Some n => <[n := pw.1]> m | None => m end) (t_map r) ∅).

(** *** A call that never connected *)

Definition status_text (s : Runner.Status) : bytes :=
  bs (match s with Runner.StatusBusy => "busy" | Runner.StatusNoAnswer => "no-answer" | Runner.StatusRejected => "rejected" | Runner.StatusFailed => "failed" end).

(** [notConnectedDisposition]; the last case puts "_" for "-". *)
Definition notConnectedDisposition (s : bytes) : bytes :=
  if bool_decide (s = bs "no-answer") then bs "NO_ANSWER"
  else if bool_decide (s = bs "busy") then bs "BUSY"
  else if bool_decide (s = bs "failed") || bool_decide (s = bs "error") then bs "FAILED"
  else if bool_decide (s = bs "canceled") then bs "CANCELED"
  else if bool_decide (s = bs "rejected") then bs "REJECTED"
  else ToUpper (map (fun c => if c =? 45 then 95 else c) s).

(** [completeRun]'s statement: the tags go after those there are. *)
Definition not_connected (tags : list bytes) (disposition mapped : bytes) (r : run) : run :=
  let old := match r_gathered r !! bs "call_tags" with Some (GTags l) => l | _ => [] end in
  r <| r_completed := true |> <| r_state := RCompleted |>
    <| r_gathered ::= fun g => <[bs "call_tags" := GTags (old ++ map TText tags)]>
         (<[bs "mapped_call_disposition" := GText mapped]> (<[bs "call_disposition" := GText disposition]> g)) |>.
End dialing.

(** [MarkNotConnected] and [MarkInterrupted], of a run with an organization. *)
Section complete.
Variable answers : nat -> Limiter.answer.
Variable mapping : option (bytes -> option bytes).

Local Open Scope m_scope.

Definition completeRun (id : Z) (tags : list bytes) (disposition : bytes) : M world effect (list failure) :=
  let! mapped := mapDisposition answers mapping disposition in
  let! ok := ask answers (with_run id (not_connected tags disposition mapped)) in
  mret (checked FComplete ok).

Definition MarkNotConnected (ToUpper ToLower : bytes -> bytes) (id : Z) (status : bytes) : M world effect (list failure) :=
  completeRun id [bs "not_connected"; bs "telephony_" ++ ToLower status] (notConnectedDisposition ToUpper status).
Definition MarkInterrupted (id : Z) : M world effect (list failure) := completeRun id [bs "interrupted"] (bs "INTERRUPTED").

(** Completing the run of a call that never connected touches no other run
    and no file. Answered, it leaves the run completed, with its disposition,
    the organization's name for it, and the new tags after the old; failing, it
    did the same or nothing. *)
Theorem completeRun_marks (id : Z) (tags : list bytes) (disposition : bytes) (w w' : world) (r : run) (e : list failure) (o : list effect) :
  completeRun id tags disposition w = (e, w', o) -> runs w !! id = Some r ->
  (forall j, j <> id -> runs w' !! j = runs w !! j) /\ objects w' = objects w /\ charges w' = charges w /\
  exists mapped r', runs w' !! id = Some r' /\
    (mapped = disposition \/ exists f, mapping = Some f /\ f disposition = Some mapped) /\
    (r' = r \/ r' = not_connected tags disposition mapped r) /\ (e = [] -> r' = not_connected tags disposition mapped r).
Proof.
  unfold completeRun. intros H Hr. minv. apply mapDisposition_inv in H0 as (-> & Hruns & _ & Ho & Hc & Hm).
  rewrite <- Hruns in Hr. eapply ask_run in H2 as (-> & [_ Ha] & Ho' & Hc' & r' & Hr' & Hor & Hok); [|exact Hr].
  split; [intros j Hj; rewrite <- Hruns; by apply Ha|]. split; [congruence|]. split; [congruence|].
  eexists _, r'. split; [exact Hr'|]. split; [exact Hm|]. split; [exact Hor|]. unfold checked. destruct x3; [by intros _; apply Hok|done].
Qed.
End complete.

(** ** The test call *)

Record TestCall := mkTestCall { tc_Number : bytes; OrgID : Z; tc_WorkflowID : Z }.

(** [ParseTestCall]. *)
Definition ParseTestCall (spec : bytes) : option TestCall :=
  match Split 44 spec with
  | [n; o; w] =>
      let number := TrimSpace n in
      match Atoi (TrimSpace o), Atoi (TrimSpace w) with
      | Some org, Some wf => if bool_decide (number = []) || (org <=? 0) || (wf <=? 0) then None else Some (mkTestCall number org wf)
      | _, _ => None
      end
  | _ => None
  end.

(** The context a run outside any campaign starts with, and its name. *)
Inductive contextValue := XText (s : bytes) | XNumber (n : Z).
Definition initialContext (campaign queued : Z) (source called caller : bytes) (variables : gmap bytes contextValue) : gmap bytes contextValue :=
  let m := if 0 <? campaign then <[bs "campaign_id" := XNumber campaign]> variables else variables in
  <[bs "called_number" := XText called]> (<[bs "caller_number" := XText caller]> (<[bs "source_uuid" := XText source]> (<[bs "provider" := XText (bs "ari")]> m))).
Definition runName (campaign queued : Z) (called : bytes) : bytes :=
  if 0 <? campaign then bs "WR-CAMPAIGN-" ++ Campaign.decimal campaign ++ bs "-" ++ Campaign.decimal queued else bs "ARI Outbound " ++ called.

Record DialRequest := mkDialRequest { dr_Endpoint : bytes; dr_CallerID : bytes; Called : bytes; RingTimeout : Z; dr_WorkflowID : Z; dr_RunID : Z }.

Inductive testEffect :=
  | TCreate (name : bytes) (context : gmap bytes contextValue)
  | TDial (r : DialRequest)
  | TNotConnected (run : Z) (s : Runner.Status).
Inductive testError := TSettings | TProvider (p : bytes) | TCreateFailed | TDialFailed.

(** [RunTestCall]: what the lookups and the dialing answer are arguments. *)
Definition RunTestCall (settings : option DialSettings) (created : option Z) (dialed : bool) (tc : TestCall) (ring : Z) : list testEffect * option testError :=
  match settings with
  | None => ([], Some TSettings)
  | Some d =>
      if negb (bool_decide (d_Provider d = bs "ari")) then ([], Some (TProvider (d_Provider d)))
      else
        let caller := CallerID d (tc_WorkflowID tc) in
        let create := TCreate (runName 0 0 (tc_Number tc)) (initialContext 0 0 [] (tc_Number tc) caller ∅) in
        match created with
        | None => ([create], Some TCreateFailed)
        | Some run =>
            let dial := TDial (mkDialRequest (Endpoint d (tc_Number tc)) caller (tc_Number tc) ring (tc_WorkflowID tc) run) in
            if dialed then ([create; dial], None) else ([create; dial; TNotConnected run Runner.StatusFailed], Some TDialFailed)
        end
  end.
(** The request's [Done]. *)
Definition testDone (run : Z) (out : Runner.Outcome) : list testEffect :=
  match out with Runner.Connected => [] | Runner.NotConnected s => [TNotConnected run s] end.

(** *** Reading back what was written *)

Definition is_digit (c : Z) : Prop := 48 <= c <= 57.

Lemma decimal_digits k n acc :
  0 <= n < 10 ^ Z.of_nat k -> (0 < k)%nat ->
  exists ds, Campaign.digits k n acc = ds ++ acc /\ ds <> [] /\ Forall is_digit ds /\ forall a, digits a ds = Some (a * 10 ^ Z.of_nat (length ds) + n).
Proof.
  revert n acc. induction k as [|k IH]; intros n acc Hn Hk; [lia|]. cbn [Campaign.digits]. destruct (Z.ltb_spec n 10) as [H|H].
  - exists [48 + n]. split; [done|]. split; [done|]. split; [repeat constructor; lia|]. intros a. unfold digits, between.
    rewrite !(proj2 (Z.leb_le _ _)) by lia. cbn [andb length]. f_equal. lia.
  - rewrite Nat2Z.inj_succ, Z.pow_succ_r in Hn by lia. assert (k <> O) by (intros ->; simpl in Hn; lia).
    destruct (IH (n / 10) ((48 + n mod 10) :: acc)) as (ds & E & Hne & Hf & Hd).
    { split; [apply Z.div_pos; lia|]. apply Z.div_lt_upper_bound; lia. }
    { lia. }
    exists (ds ++ [48 + n mod 10]). rewrite E, <- app_assoc. split; [done|]. split; [by destruct ds|]. pose proof (Z.mod_pos_bound n 10).
    split; [apply Forall_app; split; [done|repeat constructor; lia]|]. intros a.
    assert (Happ : forall a xs ys, digits a (xs ++ ys) = match digits a xs with Some b => digits b ys | None => None end).
    { clear. intros a xs. revert a. induction xs as [|x xs IHx]; intros a ys; [done|]. cbn. destruct (between _ _ _); [apply IHx|done]. }
    rewrite Happ, Hd. unfold digits, between. rewrite !(proj2 (Z.leb_le _ _)) by lia. cbn [andb]. f_equal.
    rewrite length_app, Nat2Z.inj_add. cbn [length]. rewrite Z.pow_add_r by lia. rewrite (Z.div_mod n 10) at 3 by lia. lia.
Qed.

Lemma decimal_read n : 0 < n < 2 ^ 63 ->
  Atoi (Campaign.decimal n) = Some n /\ Forall is_digit (Campaign.decimal n) /\ Campaign.decimal n <> [].
Proof.
  intros Hn. unfold Campaign.decimal. rewrite (proj2 (Z.ltb_ge _ _)) by lia.
  destruct (decimal_digits 20 n []) as (ds & -> & Hne & Hf & Hd); [split; [lia|]; apply Z.lt_trans with (2 ^ 63); [lia|done]|lia|].
  rewrite app_nil_r. split; [|done]. unfold Atoi. destruct ds as [|c ds]; [done|]. specialize (Hd 0). rewrite Z.mul_0_l, Z.add_0_l in Hd.
  apply Forall_cons in Hf as [Hc _]. unfold is_digit in Hc.
  assert (match digits 0 (c :: ds) with Some z => if z <? 2 ^ 63 then Some z else None | None => None end = Some n) as E.
  { rewrite Hd. by rewrite (proj2 (Z.ltb_lt _ _)) by lia. }
  assert (c <> 45 /\ c <> 43) as [H1 H2] by lia. clear Hd Hc Hne. destruct c as [|p|p]; try done.
  do 6 (destruct p as [p|p|]; try done).
Qed.

Lemma digits_trim ds : Forall is_digit ds -> TrimSpace ds = ds.
Proof.
  intros H. destruct ds as [|c ds]; [done|]. assert (Hs : forall b, is_digit b -> solid b).
  { intros b Hb. unfold is_digit in Hb. split; [lia|]. assert (b = 48 \/ b = 49 \/ b = 50 \/ b = 51 \/ b = 52 \/ b = 53 \/ b = 54 \/ b = 55 \/ b = 56 \/ b = 57) as Hc by lia.
    by repeat destruct Hc as [->|Hc]; subst. }
  destruct (exists_last (l := c :: ds)) as (i & b & E); [done|]. apply (TrimSpace_ends c ds i b); [| |done].
  - apply Hs. by apply Forall_cons in H as [? _].
  - rewrite E in H. apply Forall_app in H as [_ H]. apply Hs. by apply Forall_cons in H as [? _].
Qed.

Lemma digits_no_comma ds : Forall is_digit ds -> 44 ∉ ds.
Proof. intros H Hin. rewrite Forall_forall in H. apply H in Hin. unfold is_digit in Hin. lia. Qed.

(** A test call's text is read back as it was written, spaces around its
    number aside, and nothing is read without a number, an organization and a
    workflow. *)
Theorem ParseTestCall_roundtrip (n : bytes) (org wf : Z) :
  44 ∉ n -> TrimSpace n <> [] -> 0 < org < 2 ^ 63 -> 0 < wf < 2 ^ 63 ->
  ParseTestCall (n ++ bs "," ++ Campaign.decimal org ++ bs "," ++ Campaign.decimal wf) = Some (mkTestCall (TrimSpace n) org wf) /\
  forall spec tc, ParseTestCall spec = Some tc -> tc_Number tc <> [] /\ 0 < OrgID tc /\ 0 < tc_WorkflowID tc.
Proof.
  intros Hn Ht Ho Hw. destruct (decimal_read org Ho) as (Ro & Do & No), (decimal_read wf Hw) as (Rw & Dw & Nw). split.
  - unfold ParseTestCall. change (bs ",") with [44]. cbn [app]. rewrite (Split_field 44) by done.
    rewrite (Split_field 44) by (by apply digits_no_comma). rewrite (Split_last 44) by (by apply digits_no_comma). cbn [app].
    rewrite !digits_trim by done. rewrite Ro, Rw, bool_decide_false by done. rewrite !(proj2 (Z.leb_gt _ _)) by lia. done.
  - intros spec tc. unfold ParseTestCall. destruct (Split 44 spec) as [|a [|b [|c [|]]]]; try done.
    destruct (Atoi (TrimSpace b)) as [x|]; [|done]. destruct (Atoi (TrimSpace c)) as [y|]; [|done].
    destruct (bool_decide (TrimSpace a = [])) eqn:E1; [done|]. destruct (Z.leb_spec x 0); [done|]. destruct (Z.leb_spec y 0); [done|].
    intros [= <-]. apply bool_decide_eq_false in E1. done.
Qed.

(** The run of a test call is created first, dialed at most once and to the
    number asked for, and is completed as failed exactly when nothing was
    dialed; its end completes it unless it connected. Nothing happens without
    settings of an ARI organization. *)
Theorem test_call_settles settings created dialed tc ring :
  match RunTestCall settings created dialed tc ring with
  | ([], e) => e <> None /\ (forall d, settings = Some d -> d_Provider d <> bs "ari")
  | (TCreate _ _ :: rest, e) => exists d, settings = Some d /\ d_Provider d = bs "ari" /\
      match created with
      | None => rest = [] /\ e = Some TCreateFailed
      | Some run => exists r, dr_RunID r = run /\ Called r = tc_Number tc /\ dr_Endpoint r = Endpoint d (tc_Number tc) /\
          (dialed = true /\ rest = [TDial r] /\ e = None \/ dialed = false /\ rest = [TDial r; TNotConnected run Runner.StatusFailed] /\ e = Some TDialFailed)
      end
  | _ => False
  end.
Proof.
  unfold RunTestCall. destruct settings as [d|]; [|done]. case_bool_decide as Hp; cbn [negb].
  - destruct created as [run|]; [|by exists d]. destruct dialed; exists d; (split; [done|]); (split; [done|]);
      exists (mkDialRequest (Endpoint d (tc_Number tc)) (CallerID d (tc_WorkflowID tc)) (tc_Number tc) ring (tc_WorkflowID tc) run); auto 10.
  - split; [done|]. by intros d' [= <-].
Qed.

(** ** The dial string *)

(** A number is dialed as it is when it names a technology; else the
    organization's prefix is taken off once, and technology and trunk are put
    around the rest, which is never empty of a technology; a dial string of
    SIP or PJSIP is left alone when it comes again. *)
Theorem Endpoint_dials (d : DialSettings) (number : bytes) :
  (HasTech number = true -> Endpoint d number = number) /\
  (HasTech number = false -> exists rest tech,
     (number = rest /\ (StripPrefix d = [] \/ HasPrefix number (StripPrefix d) = false) \/ number = StripPrefix d ++ rest) /\
     tech <> [] /\ tech = (if bool_decide (Technology d = []) then bs "PJSIP" else Technology d) /\
     Endpoint d number = tech ++ bs "/" ++ rest ++ (if bool_decide (Trunk d = []) then [] else bs "@" ++ Trunk d)) /\
  (Technology d ∈ [[]; bs "SIP"; bs "PJSIP"] -> Endpoint d (Endpoint d number) = Endpoint d number).
Proof.
  assert (Hrest : HasTech number = false -> exists rest tech,
     (number = rest /\ (StripPrefix d = [] \/ HasPrefix number (StripPrefix d) = false) \/ number = StripPrefix d ++ rest) /\
     tech <> [] /\ tech = (if bool_decide (Technology d = []) then bs "PJSIP" else Technology d) /\
     Endpoint d number = tech ++ bs "/" ++ rest ++ (if bool_decide (Trunk d = []) then [] else bs "@" ++ Trunk d)).
  { intros H. unfold Endpoint. rewrite H.
    exists (if bool_decide (StripPrefix d = []) then number else TrimPrefix number (StripPrefix d)), (if bool_decide (Technology d = []) then bs "PJSIP" else Technology d).
    split; [|split; [by case_bool_decide|done]]. case_bool_decide as E; [by left; auto|].
    unfold TrimPrefix. destruct (HasPrefix number (StripPrefix d)) eqn:Ep; [right|left; auto].
    apply HasPrefix_inv in Ep as (q & ->). by rewrite drop_app_length. }
  split; [intros H; unfold Endpoint; by rewrite H|]. split; [done|]. intros Ht. destruct (HasTech number) eqn:E.
  - assert (Endpoint d number = number) as -> by (unfold Endpoint; by rewrite E). unfold Endpoint. by rewrite E.
  - destruct (Hrest eq_refl) as (rest & tech & _ & _ & Htech & ->). unfold Endpoint at 1.
    assert (HasTech (tech ++ bs "/" ++ rest ++ (if bool_decide (Trunk d = []) then [] else bs "@" ++ Trunk d)) = true) as ->; [|done].
    assert (tech = bs "SIP" \/ tech = bs "PJSIP") as [-> | ->].
    { rewrite Htech. rewrite !elem_of_cons in Ht. destruct Ht as [->|[->|[->|Ht%elem_of_nil]]]; [by right|by left|by right|done]. }
    + unfold HasTech. change (bs "SIP" ++ bs "/" ++ ?x) with (bs "SIP/" ++ x). by rewrite (HasPrefix_self (bs "SIP/")).
    + unfold HasTech. change (bs "PJSIP" ++ bs "/" ++ ?x) with (bs "PJSIP/" ++ x). by rewrite (HasPrefix_self (bs "PJSIP/")), orb_true_r.
Qed.

(** ** Examples *)

Example endpoint_ex : Endpoint (mkDialSettings (bs "ari") (bs "PJSIP") (bs "trunk") (bs "+") [] ∅) (bs "+919800000000") = bs "PJSIP/919800000000@trunk".
Proof. vm_compute. reflexivity. Qed.

(** Settings that were never saved: two attempts, two minutes apart. *)
Example default_settings :
  (fun c => match c with inl c => Some (Campaign.Retry c, Limiter.MinCalls (Campaign.Breaker c)) | inr _ => None end)
    (parseCampaign (fun _ => None) (fun _ => None) (fun _ => None) (mkCampaignRow 1 2 3 0 [] []))
  = Some (Campaign.mkRetry true 1 120000000000 true true true, 5).
Proof. vm_compute. reflexivity. Qed.

(** A retry delay past 292 years comes out negative: the retry is due at once. *)
Example delay_wraps : Campaign.Delay (parseRetry (mkRetryJSON None None (Some 9223372037) None None None)) = - 9223372036709551616.
Proof. vm_compute. reflexivity. Qed.

Example test_call_ex : ParseTestCall (bs " +9198 , 1, 19") = Some (mkTestCall (bs "+9198") 1 19).
Proof. vm_compute. reflexivity. Qed.

Lemma ParseTestCall_roundtrip_witness : 44 ∉ bs "+9198" /\ ParseTestCall (bs "+9198" ++ bs "," ++ Campaign.decimal 1 ++ bs "," ++ Campaign.decimal 19) = Some (mkTestCall (TrimSpace (bs "+9198")) 1 19).
Proof.
  assert (44 ∉ bs "+9198") as H by (apply (bool_decide_unpack _); by vm_compute). split; [exact H|].
  exact (proj1 (ParseTestCall_roundtrip (bs "+9198") 1 19 H ltac:(by vm_compute) ltac:(lia) ltac:(lia))).
Defined.

Abbreviation ex_run := (mkRun RInitialized false {[bs "call_tags" := GTags [TText (bs "a")]]} [] None None None None None None).
Abbreviation ex_world := (mkWorld {[7 := ex_run]} 8 [] ∅ [] 0).

Example ex_run_at : runs ex_world !! 7 = Some ex_run.
Proof. vm_compute. reflexivity. Qed.

Example interrupted_ex : (fun r => (r_completed r, r_gathered r !! bs "call_tags")) <$> runs (mstate (MarkInterrupted (fun _ => Limiter.Answered) None 7) ex_world) !! 7
  = Some (true, Some (GTags [TText (bs "a"); TText (bs "interrupted")])).
Proof. vm_compute. reflexivity. Qed.

Lemma completeRun_marks_witness :
  runs ex_world !! 7 = Some ex_run /\
  objects (mstate (MarkInterrupted (fun _ => Limiter.Answered) None 7) ex_world) = objects ex_world.
Proof.
  split; [exact ex_run_at|].
  exact (proj1 (proj2 (completeRun_marks (fun _ => Limiter.Answered) None 7 [bs "interrupted"] (bs "INTERRUPTED") _ _ _ _ _ (m_parts _ ex_world) ex_run_at))).
Defined.
