(* ===== verification/HttpTool.v ===== *)
(** The request of an http_api tool (internal/dograh/httptool.go, [httpTool.run]):
    the model's arguments become a JSON body or query parameters, the answer or
    the failure becomes the tool's result. The JSON coder, [url.Parse], the query
    string's coder and the HTTP exchange are parameters; a map's iteration is an
    order that is given, any permutation of its members. *)

From stdpp Require Import gmap strings.
From S2P Require Import Prelude Text Json Campaign DographTools.

Local Open Scope Z_scope.

(** A decoded argument; a number keeps its text ([UseNumber]). *)
Inductive arg := ANull | AText (s : bytes) | ABool (b : bool) | ANumber (text : bytes) | AList (l : list arg) | AObject (m : list (bytes * arg)).

Abbreviation Values := (gmap bytes (list bytes)).

Record URL := mkURL { u_base : bytes; RawQuery : bytes }.

Record request := mkRequest { rq_method : bytes; rq_url : URL; rq_body : option bytes; rq_headers : gmap bytes bytes; rq_timeout : Z }.

(** How an exchange went: a status with the body (what was read of it, or the
    error of reading), or no answer. An error has its text and whether it is a
    deadline's. *)
Record failure := mkFailure { f_text : bytes; deadline : bool }.
Inductive exchange := Answered (status : Z) (body : result bytes failure) | Unanswered (f : failure).

(** The result told to the model: an error's text, or the status code with the
    data, JSON as it came or the raw text. *)
Inductive data := DJson (text : bytes) | DRaw (text : bytes).
Inductive toolResult := ToolError (msg : bytes) | Success (code : Z) (d : data).

Definition maxHTTPToolResponse : Z := 2 ^ 20.

(** [textproto.CanonicalMIMEHeaderKey]: a name of token characters with the first
    letter and those after a hyphen upper case, the rest lower; any other name
    as it is. *)
Definition tchar (c : Z) : bool :=
  between 48 c 57 || between 65 c 90 || between 97 c 122 || existsb (Z.eqb c) (bs "!#$%&'*+-.^_`|~").
Fixpoint canonical_from (up : bool) (s : bytes) : bytes :=
  match s with
  | [] => []
  | c :: r => (if up && between 97 c 122 then c - 32 else if negb up && between 65 c 90 then c + 32 else c) :: canonical_from (c =? 45) r
  end.
Definition canonical (s : bytes) : bytes := if forallb tchar s then canonical_from true s else s.

Section tool.
(** [Decoder.Decode] into a map: its members, nil for null, or an error. *)
Variable decodeArgs : bytes -> result (option (list (bytes * arg))) bytes.
Variable Marshal : arg -> bytes.
Variable parseURL : bytes -> result URL bytes.
Variable parseQuery : bytes -> Values.
Variable Encode : Values -> bytes.
(** [http.NewRequest]'s refusal of a method or an URL. *)
Variable refuses : bytes -> URL -> option bytes.
(** [FormatFloat(d.Seconds(), 'f', -1, 64)]. *)
Variable seconds_text : Z -> bytes.

(** [queryValue]. *)
Definition queryValue (v : arg) : bytes :=
  match v with
  | ANull => []
  | AText s => s
  | ABool b => if b then bs "true" else bs "false"
  | ANumber t => t
  | _ => Marshal v
  end.

(** [Values.Add], [addQuery]. *)
Definition Add (q : Values) (k : bytes) (v : bytes) : Values := <[k := default [] (q !! k) ++ [v]]> q.
Definition addQuery (q : Values) (k : bytes) (v : arg) : Values :=
  match v with
  | AList l => fold_left (fun q item => Add q k (queryValue item)) l q
  | _ => Add q k (queryValue v)
  end.
Definition addArgs (q : Values) (args : list (bytes * arg)) : Values := fold_left (fun q kv => addQuery q kv.1 kv.2) args q.

(** [pySeconds]. *)
Definition pySeconds (d : Z) : bytes := let s := seconds_text d in if existsb (Z.eqb 46) s then s else s ++ bs ".0".

Definition posts (m : bytes) : bool := bool_decide (m = bs "POST") || bool_decide (m = bs "PUT") || bool_decide (m = bs "PATCH").
Definition queries (m : bytes) : bool := bool_decide (m = bs "GET") || bool_decide (m = bs "DELETE").

(** The request, or the error before there is one; [order] is that in which the
    map of arguments is walked, [headers] the tool's in that of theirs. *)
Definition buildRequest (t : httpTool) (u : URL) (args : option (list (bytes * arg))) (order : list (bytes * arg) -> list (bytes * arg)) (headers : list (bytes * bytes)) : result request bytes :=
  let body := if posts (h_method t) then Some (Marshal (AObject (default [] args))) else None in
  let u := if queries (h_method t) then
             match args with Some (a :: l) => mkURL (u_base u) (Encode (addArgs (parseQuery (RawQuery u)) (order (a :: l)))) | _ => u end
           else u in
  match refuses (h_method t) u with
  | Some e => Err e
  | None =>
      let h0 := if bool_decide (is_Some body) then <[bs "Content-Type" := bs "application/json"]> ∅ else (∅ : gmap bytes bytes) in
      Ok (mkRequest (h_method t) u body (fold_left (fun h kv => <[canonical kv.1 := kv.2]> h) headers h0) (h_timeout t))
  end.

(** [run], up to the request: [None] when there is none. *)
Definition prepare (t : httpTool) (rawArgs : bytes) (order : list (bytes * arg) -> list (bytes * arg)) (headers : list (bytes * bytes)) : result request toolResult :=
  let failed e := Err (ToolError (bs "Tool execution failed: " ++ e)) in
  match (if bool_decide (TrimSpace rawArgs = []) then Ok None else decodeArgs rawArgs) with
  | Err e => failed (bs "bad arguments: " ++ e)
  | Ok args =>
      match parseURL (h_url t) with
      | Err e => failed e
      | Ok u => match buildRequest t u args order headers with Err e => failed e | Ok r => Ok r end
      end
  end.

(** [run], from the exchange on; [cancelled] is the call's own context. *)
Definition settle (t : httpTool) (x : exchange) (cancelled : bool) : toolResult :=
  let lost f :=
    if deadline f && negb cancelled then ToolError (bs "Request timed out after " ++ pySeconds (h_timeout t) ++ bs " seconds")
    else ToolError (bs "Request failed: " ++ f_text f) in
  match x with
  | Unanswered f => lost f
  | Answered _ (Err f) => lost f
  | Answered status (Ok body) =>
      let body := take (Z.to_nat maxHTTPToolResponse) body in
      Success status (if Valid body then DJson body else DRaw body)
  end.

Definition runTool (t : httpTool) (rawArgs : bytes) (order : list (bytes * arg) -> list (bytes * arg)) (headers : list (bytes * bytes))
    (net : request -> exchange * bool) : option request * toolResult :=
  match prepare t rawArgs order headers with
  | Err r => (None, r)
  | Ok rq => let '(x, cancelled) := net rq in (Some rq, settle t x cancelled)
  end.
End tool.

(** ** Concrete runs *)

Definition plain_marshal (v : arg) : bytes := match v with AObject _ => bs "{}" | _ => bs "?" end.
Definition run_ex (t : httpTool) (args : list (bytes * arg)) (headers : list (bytes * bytes)) :=
  runTool (fun _ => Ok (Some args)) plain_marshal (fun u => Ok (mkURL u [])) (fun _ => ∅)
    (fun q => flat_map (fun kv => kv.1 ++ bs "=" ++ concat kv.2 ++ bs "&") (map_to_list q)) (fun _ _ => None) (fun d => Campaign.decimal (d / 1000000000))
    t (bs "{}") (fun l => l) headers.

Example post_ex :
  run_ex (mkHTTP (bs "POST") (bs "http://h/") [(bs "x-key", bs "1")] 5000000000) [] [(bs "x-key", bs "1")] (fun _ => (Answered 200 (Ok (bs "[1]")), false)) =
  (Some (mkRequest (bs "POST") (mkURL (bs "http://h/") []) (Some (bs "{}"))
           (<[bs "X-Key" := bs "1"]> (<[bs "Content-Type" := bs "application/json"]> ∅)) 5000000000), Success 200 (DJson (bs "[1]"))).
Proof. vm_compute. done. Qed.

Example timeout_ex :
  (run_ex (mkHTTP (bs "GET") (bs "http://h/") [] 5000000000) [] [] (fun _ => (Unanswered (mkFailure (bs "context deadline exceeded") true), false))).2 =
  ToolError (bs "Request timed out after 5.0 seconds").
Proof. vm_compute. done. Qed.

(** Two names of one header: which value is sent depends on the walk. *)
Example header_race :
  let t := mkHTTP (bs "POST") (bs "http://h/") [] 0 in
  let a := (bs "authorization", bs "old") in
  let b := (bs "Authorization", bs "Bearer new") in
  ((fun r => rq_headers r !! bs "Authorization") <$> (run_ex t [] [a; b] (fun _ => (Answered 200 (Ok []), false))).1,
   (fun r => rq_headers r !! bs "Authorization") <$> (run_ex t [] [b; a] (fun _ => (Answered 200 (Ok []), false))).1) =
  (Some (Some (bs "Bearer new")), Some (Some (bs "old"))).
Proof. vm_compute. done. Qed.

(** ** Walks of a map *)

(** A fold over members whose keys are distinct does not depend on their order
    when steps with distinct keys commute. *)
Lemma fold_perm {A B K} (key : A -> K) (f : B -> A -> B) l l' b :
  (forall b x y, key x <> key y -> f (f b x) y = f (f b y) x) ->
  l ≡ₚ l' -> NoDup (map key l) -> fold_left f l b = fold_left f l' b.
Proof.
  intros Hf Hp. revert b. induction Hp as [|x l l' _ IH|x y l|l1 l2 l3 H12 IH1 _ IH2]; intros b Hn; [done| | |].
  - cbn in *. apply IH. by apply NoDup_cons in Hn as [_ ?].
  - cbn in *. apply NoDup_cons in Hn as [Hn _]. rewrite Hf; [done|]. intros E. apply Hn. rewrite E. left.
  - rewrite IH1 by done. apply IH2. by rewrite <- H12.
Qed.

Section requests.
Variable decodeArgs : bytes -> result (option (list (bytes * arg))) bytes.
Variable Marshal : arg -> bytes.
Variable parseURL : bytes -> result URL bytes.
Variable parseQuery : bytes -> Values.
Variable Encode : Values -> bytes.
Variable refuses : bytes -> URL -> option bytes.
Variable seconds_text : Z -> bytes.

(** The values of one argument, and what adding them does. *)
Definition values_of (v : arg) : list bytes := match v with AList l => map (queryValue Marshal) l | _ => [queryValue Marshal v] end.
Definition append (q : Values) (k : bytes) (vs : list bytes) : Values :=
  match vs with [] => q | _ => <[k := default [] (q !! k) ++ vs]> q end.

Lemma append_app q k a b : append (append q k a) k b = append q k (a ++ b).
Proof.
  destruct a as [|x a]; [done|]. destruct b as [|y b]; [by rewrite app_nil_r|]. cbn [append app]. rewrite lookup_insert_eq, insert_insert_eq. cbn.
  by rewrite <- app_assoc.
Qed.

Lemma addQuery_append q k v : addQuery Marshal q k v = append q k (values_of v).
Proof.
  destruct v as [| | | |l|]; try done. unfold addQuery, values_of. revert q. induction l as [|x l IH]; intros q; [done|]. cbn [fold_left map].
  rewrite IH. change (Add q k (queryValue Marshal x)) with (append q k [queryValue Marshal x]). by rewrite append_app.
Qed.

Lemma append_comm q k k' a b : k <> k' -> append (append q k a) k' b = append (append q k' b) k a.
Proof.
  intros Hk. destruct a as [|x a]; [done|]. destruct b as [|y b]; [done|]. cbn [append]. rewrite !lookup_insert_ne by done. by apply insert_insert_ne.
Qed.

Lemma addArgs_append q args : addArgs Marshal q args = fold_left (fun q kv => append q kv.1 (values_of kv.2)) args q.
Proof. revert q. induction args as [|a l IH]; intros q; [done|]. cbn [addArgs fold_left]. rewrite <- addQuery_append. apply IH. Qed.

Lemma addArgs_perm q args args' : args ≡ₚ args' -> NoDup (map fst args) -> addArgs Marshal q args = addArgs Marshal q args'.
Proof. apply fold_perm. intros b x y Hk. rewrite !addQuery_append. by apply append_comm. Qed.

Lemma headers_perm (h : gmap bytes bytes) l l' :
  l ≡ₚ l' -> NoDup (map (fun kv => canonical kv.1) l) ->
  fold_left (fun h kv => <[canonical kv.1 := kv.2]> h) l h = fold_left (fun h (kv : bytes * bytes) => <[canonical kv.1 := kv.2]> h) l' h.
Proof. apply (fold_perm (fun kv : bytes * bytes => canonical kv.1)). intros b x y Hk. by apply insert_insert_ne. Qed.

Lemma headers_sent (h : gmap bytes bytes) l k v :
  NoDup (map (fun kv => canonical kv.1) l) -> (k, v) ∈ l ->
  fold_left (fun h (kv : bytes * bytes) => <[canonical kv.1 := kv.2]> h) l h !! canonical k = Some v.
Proof.
  intros Hn Hin. apply list_elem_of_split in Hin as (l1 & l2 & ->). rewrite headers_perm with (l' := l1 ++ l2 ++ [(k, v)]).
  - rewrite app_assoc, fold_left_app. cbn. apply lookup_insert_eq.
  - apply Permutation_app_head. by apply Permutation_cons_append.
  - exact Hn.
Qed.

Abbreviation prepared t raw order headers := (prepare decodeArgs Marshal parseURL parseQuery Encode refuses t raw order headers).
Abbreviation runs t raw order headers net := (runTool decodeArgs Marshal parseURL parseQuery Encode refuses seconds_text t raw order headers net).

#[local] Set Default Proof Using "All".
Hypothesis keys_once : forall s l, decodeArgs s = Ok (Some l) -> NoDup (map fst l).

Lemma prepare_same t raw order headers :
  (forall l, order l ≡ₚ l) -> headers ≡ₚ h_headers t -> NoDup (map (fun kv => canonical kv.1) (h_headers t)) ->
  prepared t raw order headers = prepared t raw (fun l => l) (h_headers t).
Proof.
  intros Ho Hh Hn. assert (NoDup (map (fun kv => canonical kv.1) headers)) as Hn' by by rewrite Hh.
  unfold prepare. destruct (bool_decide (TrimSpace raw = [])); [|destruct (decodeArgs raw) as [[l|]|] eqn:E]; try done;
    (destruct (parseURL (h_url t)); [|done]); unfold buildRequest; rewrite (headers_perm _ headers (h_headers t)) by done; try done.
  destruct l as [|a l]; [done|]. rewrite (addArgs_perm _ (order (a :: l)) (a :: l)); [done|by apply Ho|]. rewrite (Ho (a :: l)). exact (keys_once _ _ E).
Qed.

(** What a request is made of. *)
Definition requested (t : httpTool) (raw : bytes) (rq : request) : Prop :=
  rq_method rq = h_method t /\ rq_timeout rq = h_timeout t /\ (is_Some (rq_body rq) <-> posts (h_method t) = true) /\
  (forall k v, (k, v) ∈ h_headers t -> rq_headers rq !! canonical k = Some v) /\
  (forall u l, parseURL (h_url t) = Ok u -> decodeArgs raw = Ok (Some l) -> queries (h_method t) = true -> l <> [] -> TrimSpace raw <> [] ->
     rq_url rq = mkURL (u_base u) (Encode (fold_left (fun q kv => append q kv.1 (values_of kv.2)) l (parseQuery (RawQuery u))))).

Lemma prepare_requested t raw :
  NoDup (map (fun kv => canonical kv.1) (h_headers t)) ->
  match prepared t raw (fun l => l) (h_headers t) with
  | Err r => exists e, r = ToolError (bs "Tool execution failed: " ++ e)
  | Ok rq => requested t raw rq
  end.
Proof.
  intros Hn. unfold prepare. destruct (if bool_decide (TrimSpace raw = []) then _ else _) as [args|e] eqn:Ea; [|by eexists].
  destruct (parseURL (h_url t)) as [u|e] eqn:Eu; [|by eexists]. unfold buildRequest. destruct (refuses _ _); [by eexists|].
  unfold requested. cbn [rq_method rq_timeout rq_body rq_headers rq_url]. split_and!; [done|done| | |].
  - destruct (posts (h_method t)); split; try done; by intros [?].
  - intros k v Hin. by apply headers_sent.
  - intros u' l Hu' Hl Hq Hne Hraw. rewrite Eu in Hu'. injection Hu' as <-. rewrite bool_decide_false, Hl in Ea by done. injection Ea as <-. rewrite Hq.
    destruct l as [|a l]; [done|]. by rewrite addArgs_append.
Qed.

End requests.

