(* ===== verification/Services.v ===== *)
(** [internal/dograh/services.go]: the models a call uses, from the account's
    configuration and the workflow's overrides.

    The stored JSON comes decoded: [encoding/json] is a parameter, a section is
    a map of values, or [nil]. A Go panic is an outcome of its own. *)

From Stdlib Require Import String SpecFloat.
From S2P Require Import Prelude Text Template.

Local Open Scope Z_scope.

Record LLMConfig := mkLLMConfig { llm_Provider : bytes; llm_BaseURL : bytes; llm_APIKey : bytes; llm_Model : bytes }.
Record STTConfig := mkSTTConfig { stt_APIKey : bytes; stt_Model : bytes; stt_Language : bytes }.
Record TTSConfig := mkTTSConfig { tts_APIKey : bytes; tts_Model : bytes; tts_Voice : bytes; tts_Language : bytes }.
Record services := mkServices { s_LLM : LLMConfig; s_STT : STTConfig; s_TTS : TTSConfig }.

Abbreviation value := (Template.value (float64 := spec_float)).

(** A section's object. *)
Abbreviation section := (gmap bytes value).

Inductive serviceError :=
  | NoConfiguration | UnreadableUser | UnreadableWorkflow | Realtime | UnreadableOverride (name : bytes) | NotConfigured (name : bytes)
  | LLMProvider (p : bytes) | NoLLMModel | STTProvider (p : bytes) | TTSProvider (p : bytes) | NoSarvamKey.

Inductive outcome (A : Type) := Panicked | Failed (e : serviceError) | Resolved (a : A).
Arguments Panicked {A}. Arguments Failed {A} e. Arguments Resolved {A} a.
Definition obind {A B} (o : outcome A) (k : A -> outcome B) : outcome B :=
  match o with Panicked => Panicked | Failed e => Failed e | Resolved a => k a end.
Notation "'let?' x := o 'in' k" := (obind o (fun x => k)) (at level 10, x name, o at level 100, k at level 200).

Lemma obind_resolved {A B} (o : outcome A) (k : A -> outcome B) b : obind o k = Resolved b -> exists a, o = Resolved a /\ k a = Resolved b.
Proof. destruct o; [done..|]. intros H. by exists a. Qed.

(** ** Sections *)

Definition llmBaseURLs (p : bytes) : option bytes :=
  if bool_decide (p = bs "openai") then Some (bs "https://api.openai.com/v1")
  else if bool_decide (p = bs "groq") then Some (bs "https://api.groq.com/openai/v1")
  else if bool_decide (p = bs "google") then Some (bs "https://generativelanguage.googleapis.com/v1beta/openai")
  else None.
Definition llmDefaultBaseURLs (p : bytes) : bytes :=
  if bool_decide (p = bs "bifrost") then bs "http://192.168.26.130:8080/v1"
  else if bool_decide (p = bs "openrouter") then bs "https://openrouter.ai/api/v1"
  else if bool_decide (p = bs "sarvam") then bs "https://api.sarvam.ai/v1"
  else if bool_decide (p = bs "speaches") then bs "http://localhost:11434/v1"
  else [].

Definition str (s : section) (key : bytes) : bytes := match s !! key with Some (VString v) => v | _ => [] end.
Definition strOr (s : section) (key def : bytes) : bytes := if bool_decide (str s key = []) then def else str s key.

(** A missing field is [nil]. *)
Definition field (s : option section) (key : bytes) : value := default VNull (s ≫= (.!! key)).

(** [==] of two [any]s: maps, and slices, cannot be compared with each other. *)
Definition any_eq (a b : value) : option bool :=
  match a, b with
  | VNull, VNull => Some true
  | VString x, VString y => Some (bool_decide (x = y))
  | VBool x, VBool y => Some (Bool.eqb x y)
  | VNumber x, VNumber y => Some (SFeqb x y)
  | VObject _, VObject _ | VArray _, VArray _ => None
  | _, _ => Some false
  end.

(** Whether the override is for another provider. *)
Definition otherProvider (base over : option section) : outcome bool :=
  let p := field over (bs "provider") in
  match p with
  | VNull => Resolved false
  | _ => match any_eq p (field base (bs "provider")) with Some b => Resolved (negb b) | None => Panicked end
  end.

Section resolve.
(** [rand.IntN], for the key of each service. *)
Variable IntN : bytes -> nat -> nat.
(** [json.Unmarshal] into a map of raw values, a whole configuration's
    overrides, a [bool] that a failure leaves as it was, and a section, with
    what is left of it in an error. *)
Variable decodeUser : bytes -> option (gmap bytes bytes).
Variable decodeOverrides : bytes -> option (gmap bytes bytes).
Variable decodeBool : bytes -> option bool.
Variable decodeSection : bytes -> option section * bool.

Definition apiKey (name : bytes) (s : section) : bytes :=
  match s !! bs "api_key" with
  | Some (VString v) => v
  | Some (VArray l) => match l !! IntN name (length l) with Some (VString k) => k | _ => [] end
  | _ => []
  end.

(** [effective]'s last steps. *)
Definition merged (name : bytes) (base over : option section) : outcome section :=
  let? base :=
    (match over with
     | None => Resolved base
     | Some o =>
         match base with
         | None => Resolved over
         | Some b => let? other := otherProvider base over in Resolved (if other : bool then over else Some (o ∪ b))
         end
     end) in
  match base with None => Failed (NotConfigured name) | Some b => Resolved b end.

Definition effective (user overrides : gmap bytes bytes) (name : bytes) : outcome section :=
  let base := user !! name ≫= fun raw => (decodeSection raw).1 in
  match overrides !! name with
  | None => merged name base None
  | Some raw =>
      let '(over, failed) := decodeSection raw in
      if failed : bool then Failed (UnreadableOverride name) else merged name base over
  end.

Definition resolveLLM (sec : section) : outcome LLMConfig :=
  let p := str sec (bs "provider") in
  let url := match llmBaseURLs p with
             | Some u => u
             | None => if bool_decide (str sec (bs "base_url") = []) then llmDefaultBaseURLs p else str sec (bs "base_url")
             end in
  if bool_decide (url = []) then Failed (LLMProvider p)
  else if bool_decide (str sec (bs "model") = []) then Failed NoLLMModel
  else Resolved (mkLLMConfig p url (apiKey (bs "llm") sec) (str sec (bs "model"))).

Definition isRealtime (user overrides : gmap bytes bytes) : bool :=
  let r := default false (user !! bs "is_realtime" ≫= decodeBool) in
  default r (overrides !! bs "is_realtime" ≫= decodeBool).

Definition is_sarvam (sec : section) : bool := bool_decide (str sec (bs "provider") = bs "sarvam").

(** The warning is that of Sarvam's segmented mode. *)
Definition resolveServices (userConfigJSON workflowConfigJSON : bytes) : outcome (services * bool) :=
  if bool_decide (userConfigJSON = []) then Failed NoConfiguration else
  match decodeUser userConfigJSON with
  | None => Failed UnreadableUser
  | Some user =>
      match (if bool_decide (workflowConfigJSON = []) then Some ∅ else decodeOverrides workflowConfigJSON) with
      | None => Failed UnreadableWorkflow
      | Some overrides =>
          if isRealtime user overrides then Failed Realtime else
          let? llmSec := effective user overrides (bs "llm") in
          let? llm := resolveLLM llmSec in
          let? sttSec := effective user overrides (bs "stt") in
          if negb (is_sarvam sttSec) then Failed (STTProvider (str sttSec (bs "provider"))) else
          let stt := mkSTTConfig (apiKey (bs "stt") sttSec) (strOr sttSec (bs "model") (bs "saaras:v3")) (strOr sttSec (bs "language") (bs "hi-IN")) in
          let segmented := match sttSec !! bs "segmented" with Some (VBool b) => b | _ => false end in
          let? ttsSec := effective user overrides (bs "tts") in
          if negb (is_sarvam ttsSec) then Failed (TTSProvider (str ttsSec (bs "provider"))) else
          let tts := mkTTSConfig (apiKey (bs "tts") ttsSec) (strOr ttsSec (bs "model") (bs "bulbul:v2"))
                       (strOr ttsSec (bs "voice") (bs "suhani")) (strOr ttsSec (bs "language") (bs "hi-IN")) in
          if bool_decide (stt_APIKey stt = []) || bool_decide (tts_APIKey tts = []) then Failed NoSarvamKey
          else Resolved (mkServices llm stt tts, segmented)
      end
  end.

(** ** A resolved call can run *)

Definition provider : bytes := bs "provider".

Lemma field_some s k : field (Some s) k = default VNull (s !! k).
Proof. done. Qed.

Lemma any_eq_str (a b : value) (f : value -> bytes) :
  (forall v, f v = match v with VString s => s | _ => [] end) -> any_eq a b = Some true -> f a = f b.
Proof. intros Hf. rewrite !Hf. destruct a, b; simpl; try done; intros [= H]; try done. by apply bool_decide_eq_true in H. Qed.

Lemma str_field s k : str s k = match field (Some s) k with VString v => v | _ => [] end.
Proof. unfold str. rewrite field_some. by destruct (s !! k) as [[]|]. Qed.

(** What comes of an account's section and an override of it: a field is the
    override's, or the account's beside the account's own provider, unless the
    override blanks the provider. *)
Definition provenance (base over : option section) (sec : section) : Prop :=
  match over with
  | None => base = Some sec
  | Some o => forall k v, sec !! k = Some v ->
      o !! k = Some v \/
      (exists b, base = Some b /\ b !! k = Some v /\ o !! k = None /\ (str sec provider = str b provider \/ o !! provider = Some VNull))
  end.

Lemma merged_provenance name base over sec : merged name base over = Resolved sec -> provenance base over sec.
Proof.
  unfold merged, provenance. destruct over as [o|]; [|by destruct base; intros [= ->]].
  destruct base as [b|]; [|intros [= <-]; by left]. intros H. apply obind_resolved in H as (m & H & Hm).
  apply obind_resolved in H as (other & Ho & Hb). injection Hb as <-. destruct other; injection Hm as <-; [by left|].
  intros k v. rewrite lookup_union_Some_raw. intros [H|[Hk H]]; [by left|]. right. exists b. do 3 (split; [done|]).
  unfold otherProvider in Ho. rewrite !field_some in Ho. change (bs "provider") with provider in Ho.
  destruct (o !! provider) as [p|] eqn:Ep.
  - assert (p = VNull \/ any_eq p (default VNull (b !! provider)) = Some true) as [->|Hq].
    { change (default VNull (Some p)) with p in Ho. destruct (any_eq p (default VNull (b !! provider))) as [[]|]; [by right|destruct p; first [by left|simpl in Ho; discriminate Ho]..]. }
    { by right. }
    left. unfold str. rewrite (lookup_union_Some_l _ _ _ p) by done.
    apply (any_eq_str _ _ (fun v => match v with VString s => s | _ => [] end)) in Hq; [|done]. rewrite Hq. by destruct (b !! provider) as [[]|].
  - left. unfold str. by rewrite lookup_union_r.
Qed.

Definition key_of (s : services) (name : bytes) : bytes :=
  if bool_decide (name = bs "llm") then llm_APIKey (s_LLM s) else if bool_decide (name = bs "stt") then stt_APIKey (s_STT s) else tts_APIKey (s_TTS s).

Lemma strOr_nonempty s k d : d <> [] -> strOr s k d <> [].
Proof. intros Hd. unfold strOr. by case_bool_decide. Qed.

Lemma resolveLLM_inv sec c :
  resolveLLM sec = Resolved c -> llm_BaseURL c <> [] /\ llm_Model c <> [] /\ llm_APIKey c = apiKey (bs "llm") sec /\ llm_Provider c = str sec provider.
Proof. unfold resolveLLM. set (url := match llmBaseURLs _ with Some _ => _ | None => _ end). clearbody url. do 2 (case_bool_decide; [done|]). by intros [= <-]. Qed.

(** A call whose models resolve can run: an endpoint, a model and both
    Sarvam keys are there. Each of its three keys is read from a section whose
    fields are the override's, or the account's beside the account's own
    provider: no key is sent to a provider it was not configured with, unless
    the override sets the provider to null. *)
Theorem resolved_models_run (u w : bytes) (s : services) (segmented : bool) :
  resolveServices u w = Resolved (s, segmented) ->
  (llm_BaseURL (s_LLM s) <> [] /\ llm_Model (s_LLM s) <> []) /\
  (stt_APIKey (s_STT s) <> [] /\ stt_Model (s_STT s) <> [] /\ stt_Language (s_STT s) <> []) /\
  (tts_APIKey (s_TTS s) <> [] /\ tts_Model (s_TTS s) <> [] /\ tts_Voice (s_TTS s) <> [] /\ tts_Language (s_TTS s) <> []) /\
  exists user overrides, decodeUser u = Some user /\ (if bool_decide (w = []) then overrides = ∅ else decodeOverrides w = Some overrides) /\
    isRealtime user overrides = false /\
    forall name, name ∈ [bs "llm"; bs "stt"; bs "tts"] -> exists sec,
      key_of s name = apiKey name sec /\
      str sec provider = (if bool_decide (name = bs "llm") then llm_Provider (s_LLM s) else bs "sarvam") /\
      provenance (user !! name ≫= fun raw => (decodeSection raw).1) (overrides !! name ≫= fun raw => (decodeSection raw).1) sec.
Proof.
  unfold resolveServices. destruct (bool_decide (u = [])); [done|]. destruct (decodeUser u) as [user|]; [|done].
  destruct (if bool_decide (w = []) then _ else _) as [overrides|] eqn:Eo; [|done]. destruct (isRealtime user overrides) eqn:Er; [done|].
  assert (Heff : forall name sec, effective user overrides name = Resolved sec ->
    provenance (user !! name ≫= fun raw => (decodeSection raw).1) (overrides !! name ≫= fun raw => (decodeSection raw).1) sec).
  { intros name sec. unfold effective. destruct (overrides !! name) as [raw|]; simpl; [|apply merged_provenance].
    destruct (decodeSection raw) as [over []]; [done|]. apply merged_provenance. }
  intros H. apply obind_resolved in H as (lsec & El & H). apply obind_resolved in H as (llm & Hllm & H).
  apply obind_resolved in H as (ssec & Es & H). destruct (is_sarvam ssec) eqn:Ess; [|done]. cbn [negb] in H.
  apply obind_resolved in H as (tsec & Et & H). destruct (is_sarvam tsec) eqn:Ets; [|done]. cbn [negb] in H. cbn [stt_APIKey tts_APIKey] in H.
  destruct (bool_decide (apiKey (bs "stt") ssec = [])) eqn:Hs; [done|]. destruct (bool_decide (apiKey (bs "tts") tsec = [])) eqn:Ht; [done|].
  injection H as <- <-. apply resolveLLM_inv in Hllm as (H1 & H2 & H3 & H4). apply bool_decide_eq_false in Hs, Ht. apply bool_decide_eq_true in Ess, Ets.
  split; [done|]. split; [|split]; [cbn; split_and!; try done; by apply strOr_nonempty..|].
  exists user, overrides. split; [done|]. split; [destruct (bool_decide (w = [])); congruence|]. split; [done|].
  intros name Hn. rewrite !elem_of_cons in Hn. destruct Hn as [-> |[-> |[-> |Hn%elem_of_nil]]]; [exists lsec|exists ssec|exists tsec|done]; (split; [done|]); (split; [done|]); by apply Heff.
Qed.
End resolve.

(** ** Examples *)

(** Decoders for the examples: an account and its workflow's overrides by name. *)
Definition ex_account : gmap bytes bytes := {[bs "llm" := bs "L"; bs "stt" := bs "S"; bs "tts" := bs "S"]}.
Definition ex_overrides : gmap bytes bytes := {[bs "llm" := bs "G"]}.
Definition ex_section (raw : bytes) : option section * bool :=
  if bool_decide (raw = bs "L") then
    (Some {[provider := VString (bs "openai"); bs "api_key" := VString (bs "sk-1"); bs "model" := VString (bs "gpt-4o")]}, false)
  else if bool_decide (raw = bs "S") then
    (Some {[provider := VString (bs "sarvam"); bs "api_key" := VArray [VString (bs "a"); VString (bs "b")]]}, false)
  else if bool_decide (raw = bs "G") then (Some {[provider := VString (bs "groq"); bs "model" := VString (bs "llama")]}, false)
  else if bool_decide (raw = bs "P") then (Some {[provider := VArray []]}, false)
  else (None, true).
Definition ex_second : bytes -> nat -> nat := fun _ n => (n - 1)%nat.

Abbreviation ex_resolve w := (resolveServices ex_second (fun _ => Some ex_account) (fun _ => Some ex_overrides) (fun _ => None) ex_section (bs "{}") w).

(** Without the override OpenAI with its key; with it Groq without one. *)
Example resolve_account : (fun r => s_LLM r.1) <$> (match ex_resolve [] with Resolved r => Some r | _ => None end)
  = Some (mkLLMConfig (bs "openai") (bs "https://api.openai.com/v1") (bs "sk-1") (bs "gpt-4o")).
Proof. vm_compute. reflexivity. Qed.
Example resolve_override : (fun r => (s_LLM r.1, stt_APIKey (s_STT r.1))) <$> (match ex_resolve (bs "{}") with Resolved r => Some r | _ => None end)
  = Some (mkLLMConfig (bs "groq") (bs "https://api.groq.com/openai/v1") [] (bs "llama"), bs "b").
Proof. vm_compute. reflexivity. Qed.

(** Two providers that are lists cannot be compared: Go panics. *)
Example providers_not_comparable :
  merged (bs "llm") (ex_section (bs "P")).1 (ex_section (bs "P")).1 = Panicked.
Proof. vm_compute. reflexivity. Qed.

Example ex_resolved : ex_resolve (bs "{}") = Resolved
  (mkServices (mkLLMConfig (bs "groq") (bs "https://api.groq.com/openai/v1") [] (bs "llama"))
     (mkSTTConfig (bs "b") (bs "saaras:v3") (bs "hi-IN")) (mkTTSConfig (bs "b") (bs "bulbul:v2") (bs "suhani") (bs "hi-IN")), false).
Proof. vm_compute. reflexivity. Qed.

Lemma resolved_models_run_witness :
  exists sec, apiKey ex_second (bs "llm") sec = [] /\
    provenance (ex_section (bs "L")).1 (ex_section (bs "G")).1 sec.
Proof.
  destruct (resolved_models_run ex_second (fun _ => Some ex_account) (fun _ => Some ex_overrides) (fun _ => None) ex_section _ _ _ _ ex_resolved)
    as (_ & _ & _ & user & overrides & Hu & Ho & _ & H).
  injection Hu as <-. injection Ho as <-. destruct (H (bs "llm") (list_elem_of_here _ _)) as (sec & Hk & _ & Hp). exists sec. split; [symmetry; exact Hk|exact Hp].
Defined.
