(* ===== verification/Qa.v ===== *)
(** [internal/dograh/qa.go], [qa_conversation.go] and [qa_llm.go]: the review of
    a finished call by an LLM, node by node.

    What a request to the LLM comes to (a reply or an error, with the tokens
    used) is an oracle, as is the sampling; the entries of a map come in some
    order. JSON is written and read by parameters; numbers are binary64. *)

From Stdlib Require Import String SpecFloat Sorting.Sorted.
From stdpp Require Import sorting.
From S2P Require Import Prelude Text LlmClient CallLog BargeIn Pricing Campaign Json Extract RunRecord Services Workflow Template DographTools WorkflowLoad.

Local Open Scope Z_scope.
Local Open Scope m_scope.
Import BargeIn.

(** ** Numbers *)

(** [math.Round], as a [float64]: a zero keeps its sign. *)
Definition round_float (f : float64) : float64 :=
  match f with S754_finite s _ _ => let n := Round f in if n =? 0 then S754_zero s else BargeIn.of_int n | _ => f end.
Definition hundred : float64 := BargeIn.of_int 100.
Definition round2 (f : float64) : float64 := fdiv (round_float (fmul f hundred)) hundred.

(** "%.kf": the exact value, a tie to even. *)
Definition half_even (n d : Z) : Z :=
  let q := n / d in
  match 2 * (n mod d) ?= d with Lt => q | Gt => q + 1 | Eq => if Z.even q then q else q + 1 end.
Definition fixed_digits (k : nat) (n : Z) : bytes :=
  let p := 10 ^ Z.of_nat k in Campaign.decimal (n / p) ++ (match k with O => [] | _ => 46 :: RunRecord.pad k (n mod p) end).
Definition fixed (k : nat) (f : float64) : bytes :=
  let sign s := if s : bool then [45] else [] in
  match f with
  | S754_finite s m e =>
      let n := Z.pos m * 10 ^ Z.of_nat k in
      sign s ++ fixed_digits k (if 0 <=? e then n * 2 ^ e else half_even n (2 ^ (- e)))
  | S754_zero s => sign s ++ fixed_digits k 0
  | S754_infinity s => (if s then bs "-Inf" else bs "+Inf")
  | S754_nan => bs "NaN"
  end.

Example fixed_ex : (fixed 1 (Seconds 12340000000), fixed 1 (fdiv (BargeIn.of_int 25) hundred), fixed 0 (Seconds 15000000000), fixed 1 (S754_finite true 1 (-10)))
  = (bs "12.3", bs "0.2", bs "15", bs "-0.0").
Proof. vm_compute. reflexivity. Qed.

(** ** A workflow's QA setup *)

(** The QA fields of a stored node. *)
Record qaFields := mkQAFields {
  QAEnabled : option bool; QASystemPrompt : bytes; QAMinCallDuration : option float64; QAVoicemailCalls : bool;
  QASampleRate : option float64; QAUseWorkflowLLM : option bool; QAProvider : bytes; QAModel : bytes; QAAPIKey : bytes; QAEndpoint : bytes;
}.
(** [workflowJSON] with them. *)
Record qaJSON := mkQAJSON { stored : list (storedNode * qaFields); stored_edges : list storedEdge; StoredSummaries : gmap bytes bytes }.
Definition graph (wf : qaJSON) : workflowJSON := mkWorkflow (map fst (stored wf)) (stored_edges wf).

Record QANode := mkQANode {
  qa_ID : bytes; qa_Name : bytes; Enabled : bool; SystemPrompt : bytes; MinCallDuration : Z; VoicemailCalls : bool;
  SampleRate : Z; UseWorkflowLLM : bool; qa_Provider : bytes; qa_Model : bytes; qa_APIKey : bytes; Endpoint : bytes;
}.
Definition or_name (name def : bytes) : bytes := if bool_decide (name = []) then def else name.

Definition parseQANode (n : storedNode * qaFields) : QANode :=
  let '(s, f) := n in
  mkQANode (n_ID s) (or_name (d_Name (n_Data s)) (bs "QA Analysis")) (default true (QAEnabled f)) (QASystemPrompt f)
    (Duration (default (BargeIn.of_int 15) (QAMinCallDuration f)) second) (QAVoicemailCalls f)
    (truncated (default hundred (QASampleRate f))) (default true (QAUseWorkflowLLM f)) (QAProvider f) (QAModel f) (QAAPIKey f) (QAEndpoint f).
Definition parseQANodes (wf : qaJSON) : list QANode :=
  map parseQANode (List.filter (fun n => bool_decide (n_Type n.1 = bs "qa")) (stored wf)).

(** [buildNodeScripts]. *)
Record qaNodeScript := mkScript { script_Name : bytes; Info : bytes }.
Definition described (name desc : bytes) : bytes := bs "- " ++ name ++ (if bool_decide (desc = []) then [] else bs ": " ++ desc).
(** The last row of a uuid counts. *)
Definition rowOf (tools : list ToolRow) (u : bytes) : option ToolRow := List.find (fun r => bool_decide (row_UUID r = u)) (rev tools).
Definition available (wf : qaJSON) (tools : list ToolRow) (n : storedNode) : list bytes :=
  omap (fun u => (fun r => described (row_Name r) (row_Description r)) <$> rowOf tools u) (d_ToolUUIDs (n_Data n)) ++
  map (fun e => described (e_Label e) (e_Condition e)) (List.filter (fun e => bool_decide (e_Source e = n_ID n)) (stored_edges wf)).
Definition nodeScript (wf : qaJSON) (tools : list ToolRow) (n : storedNode) : qaNodeScript :=
  let d := n_Data n in
  let name := or_name (d_Name d) (bs "Unnamed") in
  let avail := available wf tools n in
  mkScript name (bs "Node name: " ++ name ++
    (if bool_decide (d_Prompt d = []) then [] else 10 :: bs "Agent prompt:" ++ 10 :: d_Prompt d) ++
    (if bool_decide (avail = []) then [] else 10 :: bs "Available tools:" ++ 10 :: Join avail [10])).
Definition buildNodeScripts (wf : qaJSON) (tools : list ToolRow) : gmap bytes qaNodeScript :=
  fold_left (fun m n => if bool_decide (n_Type n.1 = bs "agentNode") || bool_decide (n_Type n.1 = bs "startCall")
                        then <[n_ID n.1 := nodeScript wf tools n.1]> m else m) (stored wf) ∅.

Record QAConfig := mkQAConfig { qa_Nodes : list QANode; NodeSummaries : gmap bytes bytes; NodeScripts : gmap bytes qaNodeScript; WorkflowLLM : LLMConfig }.
Definition no_llm : LLMConfig := mkLLMConfig [] [] [] [].

(** [buildQAConfig]. *)
Definition buildQAConfig (wf : qaJSON) (tools : list ToolRow) (workflowLLM : LLMConfig) : QAConfig :=
  match parseQANodes wf with
  | [] => mkQAConfig [] ∅ ∅ no_llm
  | nodes => mkQAConfig nodes (StoredSummaries wf) (buildNodeScripts wf tools) workflowLLM
  end.

(** [shouldSkipQA]: the reason not to, [roll] being the sampling's. *)
Definition shouldSkipQA (roll : Z) (n : QANode) (duration : Z) (disposition : bytes) : bytes :=
  if duration <? MinCallDuration n then
    bs "call duration (" ++ fixed 1 (Seconds duration) ++ bs "s) below minimum (" ++ fixed 0 (Seconds (MinCallDuration n)) ++ bs "s)"
  else if negb (VoicemailCalls n) && bool_decide (disposition = bs "voicemail_detected") then bs "voicemail call and QA voicemail calls is disabled"
  else if (SampleRate n <? 100) && (SampleRate n <? roll) then
    bs "excluded by sampling (" ++ Campaign.decimal (SampleRate n) ++ bs "% sample rate, rolled " ++ Campaign.decimal roll ++ bs ")"
  else [].

(** [qaProviderBaseURL]. *)
Definition qaProviderBaseURL (p : bytes) : option bytes :=
  if bool_decide (p = bs "openai") then Some (bs "https://api.openai.com/v1")
  else if bool_decide (p = bs "openrouter") then Some (bs "https://openrouter.ai/api/v1")
  else if bool_decide (p = bs "anthropic") then Some (bs "https://api.anthropic.com/v1")
  else None.

(** [resolveQALLM]. *)
Definition resolveQALLM (n : QANode) (workflowLLM : LLMConfig) : option LLMConfig :=
  if UseWorkflowLLM n then
    let model := if bool_decide (qa_Model n = []) || bool_decide (qa_Model n = bs "default") then llm_Model workflowLLM else qa_Model n in
    let cfg := mkLLMConfig (llm_Provider workflowLLM) (llm_BaseURL workflowLLM) (llm_APIKey workflowLLM) model in
    if bool_decide (llm_BaseURL cfg = []) || bool_decide (llm_APIKey cfg = []) then None else Some cfg
  else
    match qaProviderBaseURL (qa_Provider n) with
    | None => None
    | Some url =>
        if bool_decide (qa_APIKey n = []) || bool_decide (qa_Model n = []) then None
        else Some (mkLLMConfig (qa_Provider n) url (qa_APIKey n) (qa_Model n))
    end.

(** ** The conversation *)

Inductive speaker := Assistant | User | ToolCall.
#[global] Instance speaker_dec : EqDecision speaker.
Proof. solve_decision. Defined.
Definition speaker_text (s : speaker) : bytes := bs (match s with Assistant => "assistant" | User => "user" | ToolCall => "tool_call" end).

Record transcriptEntry := mkEntry { TimeFromStart : float64; Speaker : speaker; entry_Text : bytes }.

(** The line of an event; every user transcript of a call's log is final. *)
Definition spoken (e : LogEvent) : option (speaker * bytes) :=
  match ev_Payload e with
  | PBotText text _ => Some (Assistant, text)
  | PTranscription text _ => Some (User, text)
  | PCallStart name _ => Some (ToolCall, or_name name (bs "unknown"))
  | _ => None
  end.

(** [start] is the first event's own time, in µs. *)
Definition entry_of (start : Z) (e : LogEvent) : option transcriptEntry :=
  (fun st => mkEntry (fdiv (round_float (fmul (Seconds (EventTime e * 1000000 - start * 1000)) hundred)) hundred) st.1 st.2) <$> spoken e.
Definition buildConversation (events : list LogEvent) : list transcriptEntry :=
  match events with [] => [] | first :: _ => omap (entry_of (ev_Timestamp first)) events end.

Definition transcriptLine (e : transcriptEntry) : bytes :=
  bs "[" ++ fixed 1 (TimeFromStart e) ++ bs "s] " ++
  (match Speaker e with ToolCall => bs "[tool_call]" | s => speaker_text s end) ++ bs ": " ++ entry_Text e.
Definition formatTranscript (l : list transcriptEntry) : bytes := Join (map transcriptLine l) [10].

(** [splitEventsByNode]. *)
Record nodeSplit := mkSplit { NodeID : bytes; NodeName : bytes; SplitEvents : list LogEvent }.

Fixpoint add_split (id name : bytes) (e : LogEvent) (l : list nodeSplit) : list nodeSplit :=
  match l with
  | [] => [mkSplit id name [e]]
  | s :: r => if bool_decide (NodeID s = id) then mkSplit (NodeID s) (NodeName s) (SplitEvents s ++ [e]) :: r else s :: add_split id name e r
  end.

Fixpoint split_events (l : list nodeSplit) (es : list LogEvent) : option (list nodeSplit) :=
  match es with
  | [] => Some l
  | e :: r =>
      match ev_Node e with
      | Some (id, name) => if bool_decide (id = []) then None else split_events (add_split id name e l) r
      | None => None
      end
  end.

Definition hasConversation (es : list LogEvent) : bool :=
  existsb (fun e => match ev_Payload e with PBotText _ _ | PTranscription _ _ => true | _ => false end) es.

Definition splitEventsByNode (es : list LogEvent) : option (list nodeSplit) :=
  List.filter (fun s => hasConversation (SplitEvents s)) <$> split_events [] es.

(** *** Splitting is grouping by node *)

Definition node_of (e : LogEvent) : bytes := match ev_Node e with Some (id, _) => id | None => [] end.
Definition events_of (id : bytes) (es : list LogEvent) : list LogEvent := List.filter (fun e => bool_decide (node_of e = id)) es.
(** The nodes in the order they are first met. *)
Definition met (es : list LogEvent) : list bytes := fold_left add_new (map node_of es) [].

Lemma add_split_ids id name e l : map NodeID (add_split id name e l) = add_new (map NodeID l) id.
Proof.
  unfold add_new. induction l as [|s r IH]; [done|]. cbn [add_split map]. destruct (decide (NodeID s = id)) as [H|H].
  - rewrite !bool_decide_true; [done|apply elem_of_cons; by left|done].
  - rewrite bool_decide_false by done. cbn [map]. rewrite IH. destruct (decide (id ∈ map NodeID r)) as [H'|H'].
    + rewrite !bool_decide_true; [done|apply elem_of_cons; by right|done].
    + rewrite !bool_decide_false; [done| |done]. intros [?|?]%elem_of_cons; [congruence|done].
Qed.

Lemma events_of_snoc id e es : events_of id (es ++ [e]) = events_of id es ++ (if bool_decide (node_of e = id) then [e] else []).
Proof. unfold events_of. rewrite List.filter_app. simpl. by destruct (bool_decide _). Qed.

Lemma add_split_events id name e l es :
  node_of e = id -> NoDup (map NodeID l) -> Forall (fun s => SplitEvents s = events_of (NodeID s) es) l ->
  (id ∉ map NodeID l -> events_of id es = []) ->
  Forall (fun s => SplitEvents s = events_of (NodeID s) (es ++ [e])) (add_split id name e l).
Proof.
  intros He Hnd Hl. assert (Hkeep : forall s, SplitEvents s = events_of (NodeID s) es -> NodeID s <> id -> SplitEvents s = events_of (NodeID s) (es ++ [e])).
  { intros s Hs Hne. rewrite events_of_snoc, bool_decide_false, app_nil_r by congruence. done. }
  induction l as [|s r IH]; intros Hn; cbn [add_split].
  - constructor; [|done]. cbn. rewrite events_of_snoc, Hn, bool_decide_true by (done || apply not_elem_of_nil). done.
  - apply Forall_cons in Hl as [Hs Hl]. cbn [map] in Hnd. apply NoDup_cons in Hnd as [Hns Hnd]. case_bool_decide as H.
    + constructor; [cbn; by rewrite Hs, events_of_snoc, bool_decide_true by congruence|]. apply Forall_forall. intros s' Hs'.
      rewrite Forall_forall in Hl. apply Hkeep; [by apply Hl|]. intros E. apply Hns. rewrite H, <- E. apply list_elem_of_In, in_map. by apply list_elem_of_In.
    + constructor; [by apply Hkeep|]. apply IH; [done..|]. intros Hr. apply Hn. cbn [map]. by intros [?|?]%elem_of_cons.
Qed.

(** The groups of the events so far. *)
Record grouped (es : list LogEvent) (l : list nodeSplit) : Prop := {
  g_met : map NodeID l = met es;
  g_ids : NoDup (map NodeID l);
  g_events : Forall (fun s => SplitEvents s = events_of (NodeID s) es) l;
  g_named : Forall (fun e => node_of e <> []) es;
  g_all : forall e, e ∈ es -> node_of e ∈ map NodeID l;
}.

Lemma add_new_elem l u x : x ∈ add_new l u <-> x ∈ l \/ x = u.
Proof. unfold add_new. case_bool_decide; [|by rewrite elem_of_app, list_elem_of_singleton]. split; [by left|]. by intros [?| ->]. Qed.

Lemma add_new_nodup l u : NoDup l -> NoDup (add_new l u).
Proof.
  intros H. unfold add_new. case_bool_decide; [done|]. apply NoDup_app. split; [done|]. split; [|apply NoDup_singleton].
  intros x Hx ->%list_elem_of_singleton. done.
Qed.

Lemma met_snoc es e : met (es ++ [e]) = add_new (met es) (node_of e).
Proof. unfold met. by rewrite map_app, fold_left_app. Qed.

Lemma events_of_none id es : (forall e, e ∈ es -> node_of e <> id) -> events_of id es = [].
Proof.
  intros H. induction es as [|e es IH]; [done|]. unfold events_of. cbn [List.filter]. rewrite bool_decide_false by (apply H; by left).
  apply IH. intros e' He'. apply H. by right.
Qed.

Lemma grouped_snoc es l e id name :
  grouped es l -> ev_Node e = Some (id, name) -> id <> [] -> grouped (es ++ [e]) (add_split id name e l).
Proof.
  intros [Hm Hnd He Hn Ha] E Hid. assert (Hq : node_of e = id) by (unfold node_of; by rewrite E). constructor.
  - by rewrite add_split_ids, met_snoc, Hm, Hq.
  - rewrite add_split_ids. by apply add_new_nodup.
  - apply add_split_events; [done..|]. intros Hno. apply events_of_none. intros e' He' <-. apply Hno. by apply Ha.
  - apply Forall_app. split; [done|]. constructor; [congruence|done].
  - intros e' [H|H%list_elem_of_singleton]%elem_of_app; rewrite add_split_ids, add_new_elem; [left; by apply Ha|right; congruence].
Qed.

Lemma split_events_grouped es0 l es :
  grouped es0 l ->
  match split_events l es with
  | Some l' => grouped (es0 ++ es) l'
  | None => exists e, e ∈ es /\ node_of e = []
  end.
Proof.
  revert es0 l. induction es as [|e es IH]; intros es0 l G; cbn [split_events]; [by rewrite app_nil_r|].
  assert (Hbad : node_of e = [] -> exists e', e' ∈ e :: es /\ node_of e' = []) by (intros H; exists e; split; [left|done]).
  unfold node_of in Hbad. destruct (ev_Node e) as [[id name]|] eqn:E; [|by apply Hbad].
  case_bool_decide as Hid; [by apply Hbad|]. specialize (IH (es0 ++ [e]) _ (grouped_snoc _ _ _ _ name G E Hid)).
  rewrite <- app_assoc in IH. destruct (split_events _ _); [done|]. destruct IH as (e' & ? & ?). exists e'. split; [by right|done].
Qed.

(** A call whose every event has its node is reviewed node by node: each
    node that has anything said gets exactly its events, in order, the nodes in
    the order they were first met, so nothing said goes unreviewed or is
    reviewed twice; one event without a node makes it one review of the call. *)
Theorem split_by_node (es : list LogEvent) :
  match splitEventsByNode es with
  | None => exists e, e ∈ es /\ node_of e = []
  | Some splits =>
      Forall (fun e => node_of e <> []) es /\
      map NodeID splits = List.filter (fun id => hasConversation (events_of id es)) (met es) /\
      NoDup (map NodeID splits) /\
      Forall (fun s => SplitEvents s = events_of (NodeID s) es) splits /\
      (forall e, e ∈ es -> hasConversation [e] = true -> exists s, s ∈ splits /\ NodeID s = node_of e /\ e ∈ SplitEvents s)
  end.
Proof.
  unfold splitEventsByNode. pose proof (split_events_grouped [] [] es) as H. destruct (split_events [] es) as [l|]; simpl; [|apply H; constructor; first [done|constructor|set_solver]].
  destruct H as [Hm Hnd He Hn Ha]; [constructor; first [done|constructor|set_solver]|]. simpl in *.
  assert (Hf : map NodeID (List.filter (fun s => hasConversation (SplitEvents s)) l) = List.filter (fun id => hasConversation (events_of id es)) (map NodeID l)).
  { clear - He. induction He as [|s l Hs _ IH]; [done|]. simpl. rewrite Hs. destruct (hasConversation _); simpl; by rewrite IH. }
  split; [done|]. split; [by rewrite Hf, Hm|]. split; [|split].
  - rewrite Hf. apply NoDup_ListNoDup, List.NoDup_filter. by apply NoDup_ListNoDup.
  - apply Forall_forall. intros s Hs. rewrite Forall_forall in He. apply He. apply list_elem_of_In, filter_In in Hs as [Hs _]. by apply list_elem_of_In.
  - intros e Hin Hc. pose proof (Ha e Hin) as Hs. apply list_elem_of_In, in_map_iff in Hs. apply list_elem_of_In in Hin. destruct Hs as (s & Hid & Hs). rewrite Forall_forall in He.
    assert (Hse : e ∈ SplitEvents s).
    { rewrite (He s) by by apply list_elem_of_In. unfold events_of. apply list_elem_of_In, filter_In. split; [done|]. by apply bool_decide_eq_true. }
    exists s. split; [|done]. apply list_elem_of_In, filter_In. split; [done|]. unfold hasConversation. apply existsb_exists. exists e.
    split; [by apply list_elem_of_In|]. cbn in Hc. by rewrite orb_false_r in Hc.
Qed.

(** [computeMetrics]. *)
Record qaMetrics := mkMetrics {
  CallDuration : option float64; NumTurns : Z; AvgLatency : option float64; AvgTTFB : option float64; MaxLatency : option float64;
}.
Definition avgRounded (vals : list float64) : option float64 :=
  match vals with
  | [] => None
  | _ => Some (round2 (fdiv (fold_left fadd vals (BargeIn.of_int 0)) (BargeIn.of_int (Z.of_nat (length vals)))))
  end.
Definition maxRounded (vals : list float64) : option float64 :=
  match vals with [] => None | v :: r => Some (round2 (fold_left (fun m v => if SFltb m v then v else m) r v)) end.
Definition computeMetrics (es : list LogEvent) (duration : option float64) : qaMetrics :=
  let latencies := omap (fun e => match ev_Payload e with PLatency d => Some (Seconds d) | _ => None end) es in
  let ttfbs := omap (fun e => match ev_Payload e with PTTFB _ d => Some (Seconds d) | _ => None end) es in
  let turns := omap (fun e => match ev_Payload e with PBotText _ _ | PTranscription _ _ => Some (ev_Turn e) | _ => None end) es in
  mkMetrics duration (Z.of_nat (length (remove_dups turns))) (avgRounded latencies) (avgRounded ttfbs) (maxRounded latencies).

(** ** The review *)

Record qaTag := mkTag { t_Tag : bytes; t_Reason : bytes }.
Record qaNodeResult := mkNodeResult {
  nr_Name : bytes; RawResponse : bytes; nr_Error : bytes; Tags : list qaTag; nr_Summary : bytes; Score : option float64; OverallSentiment : bytes;
}.
Record qaRunResult := mkRunResult { NodeResults : gmap bytes qaNodeResult; run_Model : bytes; run_Error : bytes; Skipped : bool; run_Reason : bytes }.

(** What is saved under a key of the run's annotations. *)
Inductive annotation := ARun (r : qaRunResult) | ATags (l : list bytes).

(** A request: the client's configuration and the two messages. *)
Record query := mkQuery { q_LLM : LLMConfig; q_System : bytes; q_User : bytes }.

Inductive effect :=
  | EAsk (q : query)
  | ESaveSummaries (definition : Z) (m : gmap bytes bytes)
  | EAnnotate (run : Z) (results : gmap bytes annotation).

Record qstate := mkQState { asked : nat; usage : gmap bytes Usage }.
#[global] Instance eta_qstate : Eta qstate := fun s => mkQState (asked s) (usage s).

(** [sort.Strings]. *)
Fixpoint bytes_leb (a b : bytes) : bool :=
  match a, b with
  | [], _ => true
  | _ :: _, [] => false
  | x :: a', y :: b' => (x <? y) || ((x =? y) && bytes_leb a' b')
  end.
Definition bytes_le (a b : bytes) : Prop := bytes_leb a b = true.
#[global] Instance bytes_le_dec : RelDecision bytes_le := fun a b => decide (bytes_leb a b = true).
Definition sortStrings (l : list bytes) : list bytes := merge_sort bytes_le l.

Definition nodeSummarySystemPrompt : bytes := bs "You are analyzing a voice AI agent script. This is only a part of a larger script. Produce a concise summary (2-4 sentences) describing this script purpose, what the agent should accomplish, and key behaviors. We will be using this summary to do a QA on the conversation that the agent would do with someone so try to capture the nuances of the script as much as possible.".
Definition conversationSummarySystemPrompt : bytes := bs "You are summarizing a portion of a voice AI conversation. Produce a concise summary (3-5 sentences) covering key topics, information exchanged, and current state. We would be using this summary in doing a QA of the conversation that the voice AI agent did with someone so try to capture the nuances of the conversation as much as possible.".

Section review.
(** The n-th request's outcome: the reply, or an error; and what it used. *)
Variable reply : nat -> (bytes + bytes) * list Usage.
(** Whether [qaOverallTimeout] is over when so many requests were made. *)
Variable late : nat -> bool.
Variable roll : nat -> Z.
(** A template rendered with string variables; a struct of metrics as JSON; a
    reply's JSON as a struct. *)
Variable render : bytes -> list (bytes * bytes) -> bytes.
Variable mustJSON : qaMetrics -> bytes.
Variable Unmarshal : bytes -> list qaTag * bytes * option float64 * bytes.

Abbreviation M := (M qstate effect).

(** [newQAClient]'s [OnUsage]. *)
Definition count_usage (cfg : LLMConfig) (us : list Usage) (m : gmap bytes Usage) : gmap bytes Usage :=
  let k := usageKeyQA ++ llm_Model cfg in
  fold_left (fun m u => <[k := Usage_Add (default no_usage (m !! k)) u]> m) us m.

Definition runOneShot (cfg : LLMConfig) (system user : bytes) : M (bytes + bytes) :=
  let! s := mread in
  let '(r, us) := reply (asked s) in
  memit (EAsk (mkQuery cfg system user)) ;;
  mmod (fun s => s <| asked ::= S |> <| usage ::= count_usage cfg us |>) ;;
  mret r.

Definition parseQAReply (nodeName r : bytes) : qaNodeResult :=
  let '(tags, summary, score, sentiment) := Unmarshal (ParseLLMJSON r) in
  mkNodeResult nodeName r [] tags summary score sentiment.

Definition summarizeConversation (cfg : LLMConfig) (transcript : bytes) : M bytes :=
  let! r := runOneShot cfg conversationSummarySystemPrompt (bs "## Conversation" ++ 10 :: transcript) in
  mret (match r with inl text => text | inr _ => [] end).

(** One node's review. *)
Definition reviewVars (summary prev transcript : bytes) (metrics : qaMetrics) : list (bytes * bytes) :=
  [(bs "node_summary", summary); (bs "previous_conversation_summary", prev); (bs "transcript", transcript); (bs "metrics", mustJSON metrics)].
Definition ask_review (cfg : LLMConfig) (n : QANode) (summary prev transcript : bytes) (metrics : qaMetrics) : M (bytes + bytes) :=
  runOneShot cfg (render (SystemPrompt n) (reviewVars summary prev transcript metrics)) (bs "## Transcript" ++ 10 :: transcript).

Fixpoint reviewSplits (cfg : LLMConfig) (n : QANode) (summaries : gmap bytes bytes) (first : bool) (prior : list transcriptEntry)
    (results : gmap bytes qaNodeResult) (splits : list nodeSplit) : M (gmap bytes qaNodeResult) :=
  match splits with
  | [] => mret results
  | sp :: rest =>
      let convo := buildConversation (SplitEvents sp) in
      let transcript := formatTranscript convo in
      if bool_decide (transcript = []) then reviewSplits cfg n summaries false prior results rest
      else
        let! prev := (if negb first && negb (match prior with [] => true | _ => false end) then summarizeConversation cfg (formatTranscript prior) else mret []) in
        let! r := ask_review cfg n (default [] (summaries !! NodeID sp)) prev transcript (computeMetrics (SplitEvents sp) None) in
        let res := match r with inl text => parseQAReply (NodeName sp) text | inr e => mkNodeResult (NodeName sp) [] e [] [] None [] end in
        reviewSplits cfg n summaries false (prior ++ convo) (<[NodeID sp := res]> results) rest
  end.

Definition runWholeCallQA (cfg : LLMConfig) (n : QANode) (events : list LogEvent) (duration : Z) : M (qaRunResult + bytes) :=
  let transcript := formatTranscript (buildConversation events) in
  if bool_decide (transcript = []) then mret (inr (bs "empty transcript"))
  else
    let! r := ask_review cfg n [] [] transcript (computeMetrics events (Some (Seconds duration))) in
    mret (match r with
          | inl text => inl (mkRunResult {[bs "whole_call" := parseQAReply (bs "whole_call") text]} (llm_Model cfg) [] false [])
          | inr e => inr e
          end).

(** [runQANode]. *)
Definition runQANode (n : QANode) (qa : QAConfig) (events : list LogEvent) (duration : Z) (summaries : gmap bytes bytes) : M (qaRunResult + bytes) :=
  if bool_decide (SystemPrompt n = []) then mret (inr (bs "no system prompt defined for QA node"))
  else
    match resolveQALLM n (WorkflowLLM qa) with
    | None => mret (inr (if negb (UseWorkflowLLM n) && bool_decide (qa_Provider n = bs "azure") then bs "azure QA LLM provider isn't supported yet"
                         else bs "no LLM API key configured for QA analysis"))
    | Some cfg =>
        match splitEventsByNode events with
        | None => runWholeCallQA cfg n events duration
        | Some splits =>
            let! r := reviewSplits cfg n summaries true [] ∅ splits in
            mret (inl (mkRunResult r (llm_Model cfg) [] false []))
        end
    end.

(** [ensureNodeSummaries]. *)
Fixpoint summarizeNodes (cfg : LLMConfig) (out : gmap bytes bytes) (changed : bool) (scripts : list (bytes * qaNodeScript)) : M (gmap bytes bytes * bool) :=
  match scripts with
  | [] => mret (out, changed)
  | (id, script) :: rest =>
      match out !! id with
      | Some _ => summarizeNodes cfg out changed rest
      | None =>
          let! r := runOneShot cfg nodeSummarySystemPrompt (Info script) in
          summarizeNodes cfg (<[id := match r with inl text => text | inr _ => [] end]> out) true rest
      end
  end.
Definition ensureNodeSummaries (definition : Z) (qa : QAConfig) (cfg : LLMConfig) : M (gmap bytes bytes) :=
  let! r := summarizeNodes cfg (NodeSummaries qa) false (map_to_list (NodeScripts qa)) in
  let! s := mread in
  mwhen (r.2 && negb (late (asked s))) (memit (ESaveSummaries definition r.1)) ;;
  mret r.1.

Definition ensureNodeSummariesIfNeeded (definition : Z) (qa : QAConfig) : M (gmap bytes bytes) :=
  if forallb (fun kv => bool_decide (is_Some (NodeSummaries qa !! kv.1))) (map_to_list (NodeScripts qa)) then mret (NodeSummaries qa)
  else
    match omap (fun n => resolveQALLM n (WorkflowLLM qa)) (qa_Nodes qa) with
    | [] => mret (NodeSummaries qa)
    | cfg :: _ => ensureNodeSummaries definition qa cfg
    end.

(** [RunQA]. *)
Definition add_tag (tags : list bytes) (t : qaTag) : list bytes :=
  if negb (bool_decide (t_Tag t = [])) && negb (bool_decide (t_Tag t ∈ tags)) then tags ++ [t_Tag t] else tags.
Definition result_tags (r : qaRunResult) : list qaTag := flat_map (fun kv => Tags kv.2) (map_to_list (NodeResults r)).
Definition annotationKey (n : QANode) : bytes := bs "qa_" ++ qa_ID n.

Fixpoint reviewNodes (qa : QAConfig) (events : list LogEvent) (duration : Z) (disposition : bytes) (summaries : gmap bytes bytes)
    (i : nat) (results : gmap bytes annotation) (tags : list bytes) (nodes : list QANode) : M (gmap bytes annotation * list bytes) :=
  match nodes with
  | [] => mret (results, tags)
  | n :: rest =>
      if negb (Enabled n) then reviewNodes qa events duration disposition summaries (S i) results tags rest
      else
        let reason := shouldSkipQA (roll i) n duration disposition in
        if negb (bool_decide (reason = [])) then
          reviewNodes qa events duration disposition summaries (S i) (<[annotationKey n := ARun (mkRunResult ∅ [] [] true reason)]> results) tags rest
        else
          let! r := runQANode n qa events duration summaries in
          match r with
          | inr e => reviewNodes qa events duration disposition summaries (S i) (<[annotationKey n := ARun (mkRunResult ∅ [] e false [])]> results) tags rest
          | inl res => reviewNodes qa events duration disposition summaries (S i) (<[annotationKey n := ARun res]> results)
                         (fold_left add_tag (result_tags res) tags) rest
          end
  end.

(** What is saved of the results and the tags. *)
Definition annotations (r : gmap bytes annotation * list bytes) : gmap bytes annotation :=
  if bool_decide (r.2 = []) then r.1 else <[bs "tags" := ATags (sortStrings r.2)]> r.1.

Definition RunQA (definition run : Z) (qa : QAConfig) (sum : summary) (duration : Z) : M (gmap bytes Usage) :=
  if match qa_Nodes qa with [] => true | _ => false end then mret ∅
  else
    let! summaries := ensureNodeSummariesIfNeeded definition qa in
    let! r := reviewNodes qa (Events sum) duration (callDisposition sum) summaries 0 ∅ [] (qa_Nodes qa) in
    let! s := mread in
    if bool_decide (dom r.1 = ∅) then mret (usage s)
    else
      mwhen (negb (late (asked s))) (memit (EAnnotate run (annotations r))) ;;
      mret (usage s).

(** ** What a review leaves *)

#[local] Set Default Proof Using "All".

(** Requests, with what they used, counted from the n-th. *)
Definition asks (o : list effect) : list query := omap (fun e => match e with EAsk q => Some q | _ => None end) o.
Fixpoint used (n : nat) (qs : list query) (m : gmap bytes Usage) : gmap bytes Usage :=
  match qs with [] => m | q :: r => used (S n) r (count_usage (q_LLM q) (reply n).2 m) end.

Definition annotates (e : effect) : Prop := match e with EAnnotate _ _ => True | _ => False end.

(** What a part does: requests to LLMs allowed by [P], all of them counted, and
    no annotation. *)
Definition asking (P : LLMConfig -> Prop) (s : qstate) (o : list effect) (s' : qstate) : Prop :=
  Forall (fun e => ~ annotates e) o /\ Forall (fun q => P (q_LLM q)) (asks o) /\
  asked s' = (asked s + length (asks o))%nat /\ usage s' = used (asked s) (asks o) (usage s).

Lemma asks_app a b : asks (a ++ b) = asks a ++ asks b.
Proof. apply omap_app. Qed.

Lemma used_app n a b m : used n (a ++ b) m = used (n + length a) b (used n a m).
Proof. revert n m. induction a as [|q a IH]; intros n m; simpl; [by rewrite Nat.add_0_r|]. rewrite IH. f_equal. lia. Qed.

#[local] Instance asking_step P : StepRel (asking P).
Proof.
  split.
  - intros s. split; [done|]. split; [constructor|]. split; [simpl; lia|done].
  - intros s1 w1 s2 w2 s3 (A1 & A2 & A3 & A4) (B1 & B2 & B3 & B4). unfold asking. rewrite asks_app, length_app, used_app, B3, B4, A3, A4.
    split; [by apply Forall_app|]. split; [by apply Forall_app|]. split; [lia|done].
Qed.

Lemma runOneShot_does P cfg system user : P cfg -> does (asking P) (runOneShot cfg system user).
Proof.
  intros HP s. unfold does_at, runOneShot. rewrite mout_read_seq, mstate_read_seq. destruct (reply (asked s)) as [r us] eqn:E. run_out.
  split; [repeat constructor; auto|]. split; [by repeat constructor|]. simpl. rewrite E. split; [lia|done].
Qed.

Lemma runOneShot_at P cfg system user s : P cfg -> does_at (asking P) (runOneShot cfg system user) s.
Proof. intros H. by apply runOneShot_does. Qed.

Lemma summarizeConversation_does P cfg t : P cfg -> does (asking P) (summarizeConversation cfg t).
Proof. intros H s. unfold summarizeConversation. apply does_at_call; [apply _|by apply runOneShot_does|]. intros a s'. apply does_at_ret; apply _. Qed.

Lemma reviewSplits_does P cfg n summaries splits : P cfg -> forall first prior results, does (asking P) (reviewSplits cfg n summaries first prior results splits).
Proof.
  intros HP. induction splits as [|sp r IH]; intros first prior results s; cbn [reviewSplits]; [apply does_at_ret; apply _|].
  case_bool_decide; [apply IH|]. apply does_at_call; [apply _| |].
  - destruct (_ && _); [by apply summarizeConversation_does|]. intros s'. apply does_at_ret; apply _.
  - intros a s'. apply does_at_call; [apply _|by apply runOneShot_does|]. intros b s2. apply IH.
Qed.

Lemma runQANode_does P n qa events duration summaries :
  (forall cfg, resolveQALLM n (WorkflowLLM qa) = Some cfg -> P cfg) -> does (asking P) (runQANode n qa events duration summaries).
Proof.
  intros HP s. unfold runQANode. case_bool_decide; [apply does_at_ret; apply _|]. destruct (resolveQALLM _ _) as [cfg|] eqn:E; [|apply does_at_ret; apply _].
  specialize (HP _ eq_refl). destruct (splitEventsByNode events) as [splits|].
  - apply does_at_call; [apply _|by apply reviewSplits_does|]. intros a s'. apply does_at_ret; apply _.
  - unfold runWholeCallQA. case_bool_decide; [apply does_at_ret; apply _|]. apply does_at_call; [apply _|by apply runOneShot_does|].
    intros a s'. apply does_at_ret; apply _.
Qed.

Lemma summarizeNodes_does P cfg scripts : P cfg -> forall out changed, does (asking P) (summarizeNodes cfg out changed scripts).
Proof.
  intros HP. induction scripts as [|[id sc] r IH]; intros out changed s; cbn [summarizeNodes]; [apply does_at_ret; apply _|].
  destruct (out !! id); [apply IH|]. apply does_at_call; [apply _|by apply runOneShot_does|]. intros a s'. apply IH.
Qed.

(** The LLMs of a workflow's QA nodes. *)
Definition ofQA (qa : QAConfig) (cfg : LLMConfig) : Prop := exists n, n ∈ qa_Nodes qa /\ resolveQALLM n (WorkflowLLM qa) = Some cfg.

Lemma ensure_does definition qa : does (asking (ofQA qa)) (ensureNodeSummariesIfNeeded definition qa).
Proof.
  intros s. unfold ensureNodeSummariesIfNeeded. destruct (forallb _ _); [apply does_at_ret; apply _|].
  destruct (omap _ _) as [|cfg r] eqn:E; [apply does_at_ret; apply _|]. assert (HP : ofQA qa cfg).
  { assert (cfg ∈ omap (fun n => resolveQALLM n (WorkflowLLM qa)) (qa_Nodes qa)) as H by (rewrite E; left). by apply list_elem_of_omap in H. }
  unfold ensureNodeSummaries. apply does_at_call; [apply _|by apply summarizeNodes_does|]. intros a s1. apply does_at_read.
  apply does_at_call; [apply _| |intros ? ?; apply does_at_ret; apply _]. intros s2. apply does_at_when; [apply _|]. intros _. apply does_at_emit.
  split; [repeat constructor; auto|]. split; [constructor|]. split; [simpl; lia|done].
Qed.

(** *** The results *)

(** The review of the i-th node: skipped for its reason, failed, or done. *)
Definition review_of (qa : QAConfig) (duration : Z) (disposition : bytes) (i : nat) (n : QANode) (res : qaRunResult) : Prop :=
  let reason := shouldSkipQA (roll i) n duration disposition in
  (reason <> [] /\ res = mkRunResult ∅ [] [] true reason) \/
  (reason = [] /\
   ((exists e, res = mkRunResult ∅ [] e false []) \/
    (SystemPrompt n <> [] /\ exists cfg m, resolveQALLM n (WorkflowLLM qa) = Some cfg /\ res = mkRunResult m (llm_Model cfg) [] false []))).

Lemma runQANode_inv n qa events duration summaries s r s' o :
  runQANode n qa events duration summaries s = (r, s', o) ->
  match r with
  | inl res => SystemPrompt n <> [] /\ exists cfg m, resolveQALLM n (WorkflowLLM qa) = Some cfg /\ res = mkRunResult m (llm_Model cfg) [] false []
  | inr _ => True
  end.
Proof.
  unfold runQANode. case_bool_decide as Hp; [by intros [= <- <- <-]|]. destruct (resolveQALLM _ _) as [cfg|]; [|by intros [= <- <- <-]].
  destruct (splitEventsByNode events).
  - intros H. minv. split; [done|]. by eexists cfg, _.
  - unfold runWholeCallQA. case_bool_decide; [by intros [= <- <- <-]|]. intros H'. minv. destruct x; [|done]. split; [done|]. by eexists cfg, _.
Qed.

Lemma add_tags_spec ts tags :
  (forall t, t ∈ fold_left add_tag ts tags <-> t ∈ tags \/ (t <> [] /\ t ∈ map t_Tag ts)) /\ (NoDup tags -> NoDup (fold_left add_tag ts tags)).
Proof.
  revert tags. induction ts as [|x ts IH]; intros tags; simpl; [split; [set_solver|done]|]. destruct (IH (add_tag tags x)) as [H1 H2].
  assert (Hx : forall t, t ∈ add_tag tags x <-> t ∈ tags \/ (t <> [] /\ t = t_Tag x)).
  { intros t. unfold add_tag. destruct (decide (t_Tag x = [])) as [E|E]; [rewrite bool_decide_true by done; simpl; naive_solver congruence|].
    rewrite bool_decide_false by done. simpl. case_bool_decide; simpl; [naive_solver|]. rewrite elem_of_app, list_elem_of_singleton. naive_solver. }
  split.
  - intros t. rewrite H1, Hx, elem_of_cons. tauto.
  - intros Hnd. apply H2. unfold add_tag. destruct (_ && _) eqn:E; [|done]. apply andb_true_iff in E as [_ E%negb_true_iff%bool_decide_eq_false].
    apply NoDup_app. split; [done|]. split; [|apply NoDup_singleton]. by intros y Hy ->%list_elem_of_singleton.
Qed.

Lemma annotationKey_inj a b : annotationKey a = annotationKey b -> qa_ID a = qa_ID b.
Proof. unfold annotationKey. by intros H%app_inv_head. Qed.

Lemma annotationKey_tags n : annotationKey n <> bs "tags".
Proof. by unfold annotationKey. Qed.

(** What the reviews of [nodes] add to the results and the tags. *)
Record reviewed (qa : QAConfig) (duration : Z) (disposition : bytes) (i : nat) (nodes : list QANode)
    (results : gmap bytes annotation) (tags : list bytes) (r : gmap bytes annotation * list bytes) : Prop := {
  rv_done : forall j n, nodes !! j = Some n -> Enabled n = true ->
    exists res, r.1 !! annotationKey n = Some (ARun res) /\ review_of qa duration disposition (i + j) n res;
  rv_kept : forall k, (forall n, n ∈ nodes -> Enabled n = true -> k <> annotationKey n) -> r.1 !! k = results !! k;
  rv_tags : forall t, t ∈ r.2 <-> t ∈ tags \/
    (t <> [] /\ exists n res, n ∈ nodes /\ Enabled n = true /\ r.1 !! annotationKey n = Some (ARun res) /\ t ∈ map t_Tag (result_tags res));
  rv_nodup : NoDup tags -> NoDup r.2;
}.

Lemma reviewed_off qa duration disposition i n nodes results tags r :
  Enabled n = false -> reviewed qa duration disposition (S i) nodes results tags r -> reviewed qa duration disposition i (n :: nodes) results tags r.
Proof.
  intros He [H1 H2 H3 H4]. constructor.
  - intros [|j] m; simpl; [intros [= <-]; congruence|]. intros Hj Hm. rewrite <- Nat.add_succ_comm. by apply H1.
  - intros k Hk. apply H2. intros m Hm. apply Hk. by right.
  - intros t. rewrite H3. f_equiv. f_equiv. split; intros (m & res & Hm & E & ?); exists m, res; (split; [|done]).
    + by right.
    + apply elem_of_cons in Hm as [->|Hm]; [congruence|done].
  - done.
Qed.

Lemma reviewed_on qa duration disposition i n nodes results tags r res :
  Enabled n = true -> qa_ID n ∉ map qa_ID nodes -> review_of qa duration disposition i n res ->
  reviewed qa duration disposition (S i) nodes (<[annotationKey n := ARun res]> results) (fold_left add_tag (result_tags res) tags) r ->
  reviewed qa duration disposition i (n :: nodes) results tags r.
Proof.
  intros He Hn Hres [H1 H2 H3 H4]. destruct (add_tags_spec (result_tags res) tags) as [T1 T2].
  assert (Hkey : r.1 !! annotationKey n = Some (ARun res)).
  { rewrite H2; [by rewrite lookup_insert_eq|]. intros m Hm _ E%annotationKey_inj. apply Hn. rewrite E. apply list_elem_of_In, in_map. by apply list_elem_of_In. }
  constructor.
  - intros [|j] m; simpl; [|intros Hj Hm; rewrite <- Nat.add_succ_comm; by apply H1]. intros [= <-] _. exists res. by rewrite Nat.add_0_r.
  - intros k Hk. rewrite H2 by (intros m Hm; apply Hk; by right). rewrite lookup_insert_ne; [done|]. intros <-. by apply (Hk n); [left|..].
  - intros t. rewrite H3, T1. split.
    + intros [[?|[Ht Hin]]|(Ht & m & res' & Hm & ?)]; [by left|right|right]; (split; [done|]); [exists n, res|exists m, res']; (split; [|done]); [left|by right].
    + intros [?|(Ht & m & res' & Hm & E & Hk & Hin)]; [left; by left|]. apply elem_of_cons in Hm as [->|Hm].
      * left. right. split; [done|]. rewrite Hkey in Hk. by injection Hk as ->.
      * right. split; [done|]. by exists m, res'.
  - auto.
Qed.

Lemma reviewNodes_spec qa events duration disposition summaries nodes :
  NoDup (map qa_ID nodes) -> (forall n, n ∈ nodes -> n ∈ qa_Nodes qa) -> forall i results tags s r s' o,
  reviewNodes qa events duration disposition summaries i results tags nodes s = (r, s', o) ->
  asking (ofQA qa) s o s' /\ reviewed qa duration disposition i nodes results tags r.
Proof.
  intros Hnd Hin. induction nodes as [|n nodes IH]; intros i results tags s r s' o; cbn [reviewNodes].
  - intros H. minv. split; [apply asking_step|]. constructor; [by intros ??; rewrite lookup_nil|done| |done]. intros t. set_solver.
  - cbn [map] in Hnd. apply NoDup_cons in Hnd as [Hn Hnd]. specialize (IH Hnd (fun m Hm => Hin m (list_elem_of_further _ _ _ Hm))).
    destruct (Enabled n) eqn:He; cbn [negb]; [|intros H; apply IH in H as [H1 H2]; split; [done|by apply reviewed_off]].
    case_bool_decide as Hr; cbn [negb].
    + intros H. apply mseq_inv in H as (x & s1 & o1 & o2 & H1 & H & ->). pose proof (runQANode_does (ofQA qa) n qa events duration summaries) as Hd.
      specialize (Hd (fun cfg Hc => ex_intro _ n (conj (Hin n (list_elem_of_here _ _)) Hc)) s). unfold does_at in Hd.
      unfold mout, mstate in Hd. rewrite H1 in Hd. simpl in Hd. apply runQANode_inv in H1. destruct x as [res|e].
      * apply IH in H as [H2 H3]. split; [by apply (asking_step _).(step_app) with s1|]. apply (reviewed_on _ _ _ _ _ _ _ _ _ res); [done..| |done]. right. split; [done|]. by right.
      * apply IH in H as [H2 H3]. split; [by apply (asking_step _).(step_app) with s1|].
        apply (reviewed_on _ _ _ _ _ _ _ _ _ (mkRunResult ∅ [] e false [])); [done..| |done]. right. split; [done|]. left. by exists e.
    + intros H. apply IH in H as [H1 H2]. split; [done|].
      apply (reviewed_on _ _ _ _ _ _ _ _ _ (mkRunResult ∅ [] [] true (shouldSkipQA (roll i) n duration disposition))); [done..| |done]. by left.
Qed.

#[local] Instance bytes_le_total : Total bytes_le.
Proof.
  unfold bytes_le. intros a. induction a as [|x a IH]; intros [|y b]; simpl; [by left|by left|by right|].
  destruct (Z.lt_trichotomy x y) as [H|[->|H]].
  - left. by rewrite (proj2 (Z.ltb_lt _ _) H).
  - rewrite Z.eqb_refl, Z.ltb_irrefl. simpl. apply IH.
  - right. by rewrite (proj2 (Z.ltb_lt _ _) H).
Qed.

Lemma annotations_node r n : annotations r !! annotationKey n = r.1 !! annotationKey n.
Proof. unfold annotations. case_bool_decide; [done|]. rewrite lookup_insert_ne; [done|]. intros E. by apply (annotationKey_tags n). Qed.

Lemma annotations_spec qa duration disposition nodes r :
  reviewed qa duration disposition 0 nodes ∅ [] r ->
  (forall k, is_Some (annotations r !! k) -> k = bs "tags" \/ exists n, n ∈ nodes /\ Enabled n = true /\ k = annotationKey n) /\
  (forall t, (exists l, annotations r !! bs "tags" = Some (ATags l) /\ t ∈ l) <-> t ∈ r.2) /\
  (forall a, annotations r !! bs "tags" = Some a -> exists l, a = ATags l /\ NoDup l /\ Sorted bytes_le l).
Proof.
  intros [_ H2 _ H4]. assert (Hnone : r.1 !! bs "tags" = None).
  { rewrite H2; [done|]. intros n _ _ E. by apply (annotationKey_tags n). }
  assert (Hkeys : forall k, is_Some (r.1 !! k) -> exists n, n ∈ nodes /\ Enabled n = true /\ k = annotationKey n).
  { intros k Hk. destruct (Exists_dec (fun n => Enabled n = true /\ k = annotationKey n) nodes) as [H|H].
    - apply List.Exists_exists in H as (n & Hn & ? & ?). exists n. by apply list_elem_of_In in Hn.
    - exfalso. rewrite H2 in Hk; [rewrite lookup_empty in Hk; by destruct Hk|]. intros n Hn He ->. apply H, List.Exists_exists. exists n. by apply list_elem_of_In in Hn. }
  unfold annotations. case_bool_decide as E.
  - split; [intros k Hk; right; by apply Hkeys|]. rewrite Hnone, E. split; [|done]. intros t. split; [by intros (l & ? & _)|by intros ?%elem_of_nil].
  - split; [|split].
    + intros k. destruct (decide (k = bs "tags")) as [->|Hne]; [by left|]. rewrite lookup_insert_ne by congruence. intros Hk. right. by apply Hkeys.
    + intros t. rewrite lookup_insert_eq. split.
      * intros (l & [= <-] & Ht). unfold sortStrings in Ht. by rewrite (merge_sort_Permutation bytes_le) in Ht.
      * intros Ht. eexists. split; [done|]. unfold sortStrings. by rewrite (merge_sort_Permutation bytes_le).
    + intros a. rewrite lookup_insert_eq. intros [= <-]. eexists. split; [done|]. split; [|apply Sorted_merge_sort; apply _].
      unfold sortStrings. rewrite (merge_sort_Permutation bytes_le). apply H4. constructor.
Qed.

(** When QA has run over a call, it wrote once at most, and last: for each
    enabled QA node, and no other, that it was skipped and why, that it failed,
    or its review; and the tags raised, each once, sorted. It wrote nothing
    only if no node is enabled or its five minutes were over. What it reports
    to be charged is what its requests used, all of them to the LLM of one of
    the workflow's QA nodes. *)
Theorem RunQA_saves (definition run : Z) (qa : QAConfig) (sum : summary) (duration : Z) (u : gmap bytes Usage) (s' : qstate) (o : list effect) :
  NoDup (map qa_ID (qa_Nodes qa)) -> RunQA definition run qa sum duration (mkQState 0 ∅) = (u, s', o) ->
  u = used 0 (asks o) ∅ /\ Forall (fun q => ofQA qa (q_LLM q)) (asks o) /\
  exists before after, o = before ++ after /\ Forall (fun e => ~ annotates e) before /\
  ((after = [] /\ ((forall n, n ∈ qa_Nodes qa -> Enabled n = false) \/ late (length (asks o)) = true)) \/
   exists results, after = [EAnnotate run results] /\
     (forall j n, qa_Nodes qa !! j = Some n -> Enabled n = true ->
        exists res, results !! annotationKey n = Some (ARun res) /\ review_of qa duration (callDisposition sum) j n res) /\
     (forall k, is_Some (results !! k) -> k = bs "tags" \/ exists n, n ∈ qa_Nodes qa /\ Enabled n = true /\ k = annotationKey n) /\
     (forall t, (exists l, results !! bs "tags" = Some (ATags l) /\ t ∈ l) <->
        t <> [] /\ exists n res, n ∈ qa_Nodes qa /\ Enabled n = true /\ results !! annotationKey n = Some (ARun res) /\ t ∈ map t_Tag (result_tags res)) /\
     (forall a, results !! bs "tags" = Some a -> exists l, a = ATags l /\ NoDup l /\ Sorted bytes_le l)).
Proof.
  intros Hnd H. unfold RunQA in H. destruct (qa_Nodes qa) as [|n0 ns] eqn:Eq.
  - minv. split; [done|]. split; [constructor|]. exists [], []. do 2 (split; [constructor|]). left. split; [done|]. left. by intros n ?%elem_of_nil.
  - rewrite <- Eq in *. clear Eq n0 ns. apply mseq_inv in H as (summaries & s1 & o1 & o2 & H1 & H & ->).
    pose proof (ensure_does definition qa (mkQState 0 ∅)) as Hd. unfold does_at, mout, mstate in Hd. rewrite H1 in Hd. simpl in Hd.
    apply mseq_inv in H as (r & s2 & o3 & o4 & H2 & H & ->). apply reviewNodes_spec in H2 as [Hd2 Hr]; [|done|done].
    pose proof (step_app (StepRel := asking_step _) _ _ _ _ _ Hd Hd2) as (A1 & A2 & A3 & A4). simpl in A3, A4.
    rewrite mread_seq_at in H. destruct (annotations_spec _ _ _ _ _ Hr) as (R1 & R2 & R3). destruct Hr as [D1 D2 D3 _].
    assert (Hfin : o4 = [] \/ exists results, o4 = [EAnnotate run results]) by (case_bool_decide; [|destruct (late (asked s2)); unfold mwhen in H; cbn [negb] in H]; minv; eauto).
    assert (Hasks : asks (o1 ++ o3 ++ o4) = asks (o1 ++ o3)) by (rewrite app_assoc, asks_app; destruct Hfin as [->|[? ->]]; by rewrite app_nil_r).
    rewrite Hasks. assert (Hu : u = usage s2) by (case_bool_decide; minv; done). split; [by rewrite Hu|]. split; [done|].
    exists (o1 ++ o3), o4. split; [by rewrite app_assoc|]. split; [done|]. case_bool_decide as Hno.
    + left. minv. split; [done|]. left. intros n Hn. destruct (Enabled n) eqn:He; [|done]. apply list_elem_of_lookup in Hn as [j Hj].
      destruct (D1 j n Hj He) as (res & Hres & _). apply (f_equal (fun x => annotationKey n ∈ x)) in Hno.
      exfalso. assert (annotationKey n ∈ dom r.1) as Hd' by (by apply elem_of_dom; eexists). rewrite Hno in Hd'. set_solver.
    + destruct (late (asked s2)) eqn:El; cbn [negb] in H; unfold mwhen in H; minv; [left; split; [done|]; right; by rewrite A3 in El|]. right. eexists. split; [done|].
      setoid_rewrite annotations_node. split; [done|]. split; [done|]. split; [|done]. intros t. rewrite R2, D3. split; [intros [?%elem_of_nil|?]; done|by right].
Qed.
End review.

(** ** Examples *)

Definition ex_llm : LLMConfig := mkLLMConfig (bs "sarvam") (bs "https://api.sarvam.ai/v1") (bs "key") (bs "sarvam-105b").
Definition ex_node (id : bytes) (on : bool) (minimum : Z) : QANode :=
  mkQANode id (bs "QA Analysis") on (bs "Review it.") (minimum * 1000000000) false 100 true [] [] [] [].
Definition ex_qa (nodes : list QANode) : QAConfig := mkQAConfig nodes ∅ {[bs "start" := mkScript (bs "Start") (bs "Node name: Start")]} ex_llm.
Definition ex_said (node : bytes) (text : bytes) (ms : Z) : LogEvent := mkEvent (PBotText text ms) (ms * 1000) 1 (Some (node, node)).
Definition ex_sum : summary := Summary (json := bytes) (CallLog.New <| events := [ex_said (bs "start") (bs "Hello.") 1000; ex_said (bs "close") (bs "Bye.") 61250] |>).
Definition ex_reply (n : nat) : (bytes + bytes) * list Usage := (inl (bs "{}"), [mkUsage 10 5 15 0]).
Definition ex_unmarshal (raw : bytes) : list qaTag * bytes * option float64 * bytes := ([mkTag (bs "LOOP") []; mkTag (bs "HEARING") []; mkTag (bs "LOOP") []], [], None, []).

Abbreviation ex_run late nodes := (RunQA ex_reply late (fun _ => 1) (fun s _ => s) (fun _ => bs "{}") ex_unmarshal 3 7 (ex_qa nodes) ex_sum 61000000000).
Abbreviation ex_saved := (ex_run (fun _ => false) [ex_node (bs "a") true 15; ex_node (bs "b") true 90; ex_node (bs "c") false 0]).

(** Two nodes reviewed by one QA node (with a summary of what went before), one
    skipped, one off: four requests, and the stored summary. *)
Example ex_saved_out : (length (asks (mout ex_saved (mkQState 0 ∅))), usage (mstate ex_saved (mkQState 0 ∅)) !! (usageKeyQA ++ bs "sarvam-105b"),
  (fun e => match e with EAnnotate r m => Some (r, m !! bs "tags", (fun a => match a with ARun x => run_Reason x | _ => [] end) <$> m !! bs "qa_b", m !! bs "qa_c") | _ => None end)
    <$> last (mout ex_saved (mkQState 0 ∅)))
  = (4%nat, Some (mkUsage 40 20 60 0),
     Some (Some (7, Some (ATags [bs "HEARING"; bs "LOOP"]), Some (bs "call duration (61.0s) below minimum (90s)"), None))).
Proof. vm_compute. reflexivity. Qed.

(** A QA node that is off still has its LLM asked for the missing summaries. *)
Example disabled_node_asks : mout (ex_run (fun _ => false) [ex_node (bs "c") false 0]) (mkQState 0 ∅) =
  [EAsk (mkQuery ex_llm nodeSummarySystemPrompt (bs "Node name: Start")); ESaveSummaries 3 {[bs "start" := bs "{}"]}].
Proof. vm_compute. reflexivity. Qed.

(** When the five minutes end before the last node, the reviews made are lost. *)
Example late_reviews_lost : (fun o => (length (asks o), existsb (fun e => match e with EAnnotate _ _ => true | _ => false end) o))
  (mout (ex_run (fun n => (4 <=? Z.of_nat n)) [ex_node (bs "a") true 15]) (mkQState 0 ∅)) = (4%nat, false).
Proof. vm_compute. reflexivity. Qed.

(** Each node's transcript counts from the node's own first event. *)
Example times_restart : (fun splits => map (fun s => formatTranscript (buildConversation (SplitEvents s))) splits) <$> splitEventsByNode (Events ex_sum)
  = Some [bs "[0.0s] assistant: Hello."; bs "[0.0s] assistant: Bye."].
Proof. vm_compute. reflexivity. Qed.

Example ex_ids : NoDup (map qa_ID [ex_node (bs "a") true 15; ex_node (bs "b") true 90; ex_node (bs "c") false 0]).
Proof. apply (bool_decide_unpack _). by vm_compute. Qed.

Lemma RunQA_saves_witness :
  NoDup (map qa_ID [ex_node (bs "a") true 15; ex_node (bs "b") true 90; ex_node (bs "c") false 0]) /\
  mval ex_saved (mkQState 0 ∅) = used ex_reply 0 (asks (mout ex_saved (mkQState 0 ∅))) ∅.
Proof.
  split; [exact ex_ids|].
  exact (proj1 (RunQA_saves ex_reply (fun _ => false) (fun _ => 1) (fun s _ => s) (fun _ => bs "{}") ex_unmarshal 3 7
    (ex_qa [ex_node (bs "a") true 15; ex_node (bs "b") true 90; ex_node (bs "c") false 0]) ex_sum 61000000000 _ _ _ ex_ids (m_parts ex_saved (mkQState 0 ∅)))).
Defined.
