(* ===== verification/Store.v ===== *)
(** [internal/dograh/store.go]: what a call gets of its workflow, put together
    of the stored definition, its variables, tools, recordings, models, limits
    and QA setup.

    The three queries, JSON decoding and the clock are parameters. *)

From Stdlib Require Import String SpecFloat.
From S2P Require Import Prelude Text LlmClient CallLog Pricing Recordings RunRecord Services Qa Workflow Template DographTools WorkflowLoad.

Local Open Scope Z_scope.

(** ** Call limits *)

Definition defaultIdleTimeout : Z := 10 * second.
Definition defaultMaxDuration : Z := 300 * second.

Definition limit_seconds (f : spec_float) : Z := if SFleb f (DographTools.of_int 0) then 0 else Duration f second.

Section limits.
(** The two settings; [None] for a text that cannot be read. *)
Variable decodeLimits : bytes -> option (option spec_float * option spec_float).

(** [callLimits]: idle, maximum, whether it warns. *)
Definition callLimits (configJSON : bytes) : Z * Z * bool :=
  match (if bool_decide (configJSON = []) then Some (None, None) else decodeLimits configJSON) with
  | None => (defaultIdleTimeout, defaultMaxDuration, true)
  | Some (idle, max) => (default defaultIdleTimeout (limit_seconds <$> idle), default defaultMaxDuration (limit_seconds <$> max), false)
  end.
End limits.

(** ** [Workflow] *)

(** The query's row. *)
Record definitionRow := mkDefinition {
  w_defID : Z; w_defJSON : bytes; w_defVars : bytes; w_wfVars : bytes; w_defConfig : bytes; w_orgID : option Z; w_userConfig : bytes;
}.

Record loaded := mkLoaded {
  l_nodes : list node; l_start : nat; DefinitionID : Z; OrgID : option Z; l_Services : services; IdleTimeout : Z; MaxDuration : Z; l_QA : QAConfig;
}.

Inductive storeWarning := SClip (w : clipWarning) | SNote (n : note) | SSegmented | SLimits.
Inductive storeError := SNotFound | SQuery | SParse | STools | SBuild (e : buildError) | SModels (e : serviceError) | SPanic.

Definition toClips (s : Recordings.clipSet) : DographTools.clipSet :=
  mkClips (map_to_list (Recordings.byPK s)) (map_to_list (Recordings.byID s)) (Recordings.HasAny s).

Section workflow.
Context `{U : Unicode}.
Variable decodeCredential : bytes -> option (list (bytes * bytes)).
Variable decodeConfig : bytes -> option toolConfig.
Variable ToUpper : bytes -> bytes.
Variable decodeUser : bytes -> option (gmap bytes bytes).
Variable decodeOverrides : bytes -> option (gmap bytes bytes).
Variable decodeBool : bytes -> option bool.
Variable decodeSection : bytes -> option (gmap bytes Services.value) * bool.
Variable decodeLimits : bytes -> option (option spec_float * option spec_float).
Variable parseWorkflow : bytes -> option qaJSON.
(** What a text of variables holds, if it is an object. *)
Variable decodeVars : bytes -> option (list (bytes * Services.value)).
Variable IntN : bytes -> nat -> nat.
(** [renderTemplate] at the time of the call. *)
Variable render : list (bytes * Services.value) -> bytes -> bytes.

(** The database: the definition (or no row), the active tools of an
    organization among some, its active recordings; and the recordings' cache. *)
Variable definition : option (option definitionRow).
Variable toolRows : list bytes -> option Z -> option (list ToolRow).
Variable recordings : option (list recordingRow).
Variable get : option (recordingRow -> bytes + getError).

(** [templateVars]. *)
Definition templateVars (s : bytes) : list (bytes * Services.value) := default [] (decodeVars s).

(** The call's variables over the definition's, else over the workflow's. *)
Definition callVariables (row : definitionRow) (callVars : list (bytes * Services.value)) : list (bytes * Services.value) :=
  let vars := match templateVars (w_defVars row) with [] => templateVars (w_wfVars row) | vars => vars end in
  fold_left (fun m kv => put kv.1 kv.2 m) callVars vars.

(** [tools]: no query for no tools. *)
Definition tools (uuids : list bytes) (org : option Z) : option (list ToolRow) :=
  match uuids with [] => Some [] | _ => toolRows uuids org end.

(** [Workflow]; [pks] are walked in the order they were found. *)
Definition loadWorkflow (callVars : list (bytes * Services.value)) : (loaded * list storeWarning) + storeError :=
  match definition with
  | None => inr SQuery
  | Some None => inr SNotFound
  | Some (Some row) =>
      match parseWorkflow (w_defJSON row) with
      | None => inr SParse
      | Some wf =>
          let g := graph wf in
          let vars := callVariables row callVars in
          match tools (toolUUIDs g) (w_orgID row) with
          | None => inr STools
          | Some rows =>
              let '(pks, byID) := recordingNeeds decodeConfig g rows in
              let '(clips, w1) := loadClips recordings get (bool_decide (is_Some (w_orgID row))) (remove_dups pks) byID in
              match buildWorkflow decodeCredential decodeConfig ToUpper (render vars) g rows (toClips clips) with
              | Err e => inr (SBuild e)
              | Ok (nodes, start, notes) =>
                  match resolveServices IntN decodeUser decodeOverrides decodeBool decodeSection (w_userConfig row) (w_defConfig row) with
                  | Panicked => inr SPanic
                  | Failed e => inr (SModels e)
                  | Resolved (svc, segmented) =>
                      let '(idle, max, warn) := callLimits decodeLimits (w_defConfig row) in
                      inl (mkLoaded nodes start (w_defID row) (w_orgID row) svc idle max (buildQAConfig wf rows (s_LLM svc)),
                           map SClip w1 ++ map SNote notes ++ (if segmented then [SSegmented] else []) ++ (if warn then [SLimits] else []))
                  end
              end
          end
      end
  end.

(** *** Recordings never stop a call *)

(** A build's outcome as far as the recordings cannot change it: the error, or
    how many nodes there are and where the start is. *)
Definition outline {A} (r : result (list node * nat * A) buildError) : (nat * nat) + buildError :=
  match r with Ok (ns, s, _) => inl (length ns, s) | Err e => inr e end.

Definition shape (b : building) : nat * list (bytes * nat) * option nat := (length (list_ b), byNodeID b, start b).
Definition shape_of (r : result building buildError) : (nat * list (bytes * nat) * option nat) + buildError :=
  match r with Ok b => inl (shape b) | Err e => inr e end.

Lemma addNode_shape rd global rows ts ts' clips clips' b b' n :
  shape b = shape b' -> shape_of (addNode rd global rows ts clips b n) = shape_of (addNode rd global rows ts' clips' b' n).
Proof.
  unfold addNode. intros H. case_bool_decide; [simpl; by rewrite H|]. injection H as Hl Hi Hs. rewrite <- Hs.
  destruct (d_IsStart (n_Data n)).
  - destruct (start b); [done|]. destruct (greet rd clips _ _), (greet rd clips' _ _). unfold shape_of, shape. cbn [list_ byNodeID start].
    by rewrite !length_app, Hl, Hi.
  - unfold shape_of, shape. cbn [list_ byNodeID start]. by rewrite !length_app, Hl, Hi, Hs.
Qed.

Lemma addNodes_shape rd global rows ts ts' clips clips' ns b b' :
  shape b = shape b' -> shape_of (addNodes rd global rows ts clips b ns) = shape_of (addNodes rd global rows ts' clips' b' ns).
Proof.
  revert b b'. induction ns as [|n ns IH]; intros b b' H; cbn [addNodes]; [simpl; by rewrite H|].
  pose proof (addNode_shape rd global rows ts ts' clips clips' b b' n H) as Hn.
  destruct (addNode rd global rows ts clips b n), (addNode rd global rows ts' clips' b' n); simpl in Hn; try congruence.
  apply IH. congruence.
Qed.

Definition length_of {A} (r : result (list node * A) buildError) : nat + buildError := match r with Ok (ns, _) => inl (length ns) | Err e => inr e end.

Lemma addEdges_length rd clips clips' ids es ns ns' ws ws' :
  length ns = length ns' -> length_of (addEdges rd clips ids ns ws es) = length_of (addEdges rd clips' ids ns' ws' es).
Proof.
  revert ns ns' ws ws'. induction es as [|e es IH]; intros ns ns' ws ws' H; cbn [addEdges]; [simpl; by rewrite H|].
  unfold addEdge. destruct (node_at ids (e_Source e)) as [i|]; [|done]. destruct (node_at ids (e_Target e)) as [j|]; [|done].
  destruct (ns !! i) as [x|] eqn:Ei, (ns' !! i) as [y|] eqn:Ei'; try done.
  - destruct (buildEdge rd clips e j), (buildEdge rd clips' e j). apply IH. by rewrite !length_insert.
  - apply lookup_lt_Some in Ei. apply lookup_ge_None in Ei'. lia.
  - apply lookup_lt_Some in Ei'. apply lookup_ge_None in Ei. lia.
Qed.

Lemma buildWorkflow_outline rd wf rows clips clips' :
  outline (buildWorkflow decodeCredential decodeConfig ToUpper rd wf rows clips) = outline (buildWorkflow decodeCredential decodeConfig ToUpper rd wf rows clips').
Proof.
  unfold buildWorkflow. destruct (buildTools _ _ _ rows clips) as [ts w], (buildTools _ _ _ rows clips') as [ts' w'].
  pose proof (addNodes_shape rd (globalPrompt rd wf) rows ts ts' clips clips' (Nodes wf) (mkBuilding [] [] None w) (mkBuilding [] [] None w') eq_refl) as H.
  destruct (addNodes rd _ rows ts clips _ _) as [b|e], (addNodes rd _ rows ts' clips' _ _) as [b'|e']; simpl in H; try congruence.
  injection H as Hl Hi Hs. rewrite <- Hs, <- Hi. destruct (start b) as [s|]; [|done].
  pose proof (addEdges_length rd clips clips' (byNodeID b) (StoredEdges wf) _ _ (notes b) (notes b') Hl) as He.
  destruct (addEdges rd clips _ _ _ _) as [[ns w1]|e], (addEdges rd clips' _ _ _ _) as [[ns' w1']|e']; simpl in He |- *; congruence.
Qed.
End workflow.

(** A call starts whether or not its recordings can be listed, found or
    loaded: the same call, as far as its error, its definition, models, limits,
    QA and the size of its graph go. *)
Theorem recordings_optional `{U : Unicode} decodeCredential decodeConfig ToUpper decodeUser decodeOverrides decodeBool decodeSection decodeLimits
    parseWorkflow decodeVars IntN render definition toolRows callVars recordings get recordings' get' :
  let load := loadWorkflow decodeCredential decodeConfig ToUpper decodeUser decodeOverrides decodeBool decodeSection decodeLimits
                parseWorkflow decodeVars IntN render definition toolRows in
  match load recordings get callVars, load recordings' get' callVars with
  | inl (a, _), inl (b, _) =>
      length (l_nodes a) = length (l_nodes b) /\ l_start a = l_start b /\ DefinitionID a = DefinitionID b /\ OrgID a = OrgID b /\
      l_Services a = l_Services b /\ IdleTimeout a = IdleTimeout b /\ MaxDuration a = MaxDuration b /\ l_QA a = l_QA b
  | inr e, inr e' => e = e'
  | _, _ => False
  end.
Proof.
  intros load. unfold load, loadWorkflow. destruct definition as [[row|]|]; [|done..]. destruct (parseWorkflow _) as [wf|]; [|done].
  destruct (tools _ _ _) as [rows|]; [|done]. destruct (recordingNeeds _ _ _) as [pks byID].
  destruct (loadClips recordings get _ _ _) as [c1 w1], (loadClips recordings' get' _ _ _) as [c2 w2].
  pose proof (buildWorkflow_outline decodeCredential decodeConfig ToUpper (render (callVariables decodeVars row callVars)) (graph wf) rows (toClips c1) (toClips c2)) as H.
  destruct (buildWorkflow _ _ _ _ _ _ (toClips c1)) as [[[ns s] nt]|e], (buildWorkflow _ _ _ _ _ _ (toClips c2)) as [[[ns' s'] nt']|e']; simpl in H; try congruence.
  injection H as Hl Hs. destruct (resolveServices _ _ _ _ _ _ _) as [|e|[svc seg]]; [done..|]. destruct (callLimits _ _) as [[idle max] warn]. done.
Qed.

(** ** Examples *)

(** Ten seconds and five minutes unless set; a limit that is not positive is none. *)
Example limits_ex :
  (callLimits (fun _ => None) [], callLimits (fun _ => None) (bs "x"),
   callLimits (fun _ => Some (Some (DographTools.of_int 0), Some (DographTools.of_int 600))) (bs "{}"))
  = ((10000000000, 300000000000, false), (10000000000, 300000000000, true), (0, 600000000000, false)).
Proof. vm_compute. reflexivity. Qed.
