(* ===== verification/CallAgent.v ===== *)
(** [internal/callagent/callagent.go]: putting a call's agent together: what the
    call is given as its media handler, dialing a provider with retries, the
    barge-in detector and the figures of the call's summary. [recordRun] is in
    file RunRecord. *)

From Stdlib Require Import String SpecFloat Sorting.Sorted.
From stdpp Require Import sorting.
From S2P Require Import Prelude Text BargeIn Pricing.

Local Open Scope Z_scope.
Import BargeIn.

(** ** Dialing with retries *)

Definition connectRetryAttempts : nat := 3.
Definition connectRetryBaseDelay : Z := 500000000.

Inductive dialed (T E : Type) := Connected (v : T) | Failed (e : E) | CtxDone.
Arguments Connected {T E}. Arguments Failed {T E}. Arguments CtxDone {T E}.

Inductive dial_step := Dial | Wait (ns : Z).

Section dial.
Context {T E : Type}.
(** The outcome of each attempt, from 1, and whether the context is done
    while waiting after it. *)
Variable dial : nat -> T + E.
Variable cancelled : nat -> bool.

(** [more] attempts behind this one. *)
Fixpoint dial_loop (more : nat) (attempt : nat) (delay : Z) : dialed T E * list dial_step :=
  match dial attempt with
  | inl v => (Connected v, [Dial])
  | inr e =>
      match more with
      | O => (Failed e, [Dial])
      | S more =>
          if cancelled attempt then (CtxDone, [Dial; Wait delay])
          else let '(r, tr) := dial_loop more (S attempt) (delay * 2) in (r, Dial :: Wait delay :: tr)
      end
  end.
Definition dialWithRetry : dialed T E * list dial_step := dial_loop (connectRetryAttempts - 1) 1 connectRetryBaseDelay.
End dial.

(** ** The call's handler *)

Record config := mkConfig {
  TestSilentHandler : bool; AppMode : bytes; VadMode : bytes; BargeInEnabled : bool; DograhWorkflowID : Z;
}.

Definition workflowID (c : config) (own : Z) : Z := if 0 <? own then own else DograhWorkflowID c.

Inductive detector := DTen | DEnergy | DNoop.

(** [native]: the native model loads. *)
Definition newBargeInDetector (c : config) (native : bool) : detector :=
  if bool_decide (VadMode c = bs "ten") && native then DTen
  else if BargeInEnabled c then DEnergy else DNoop.

(** What a call is given: silence, its own sound back, or an agent, whose
    conversation is recorded. *)
Inductive handler := HSilent | HLoopback | HAgent (d : detector) (observeOnly : bool).
Inductive setup := SHangup | SSpanStart | SSpanEnd | SAgent | SSpanEndLater | SRecord.

(** [newAgentHandler]. *)
Definition newAgentHandler {T E} (c : config) (loaded native : bool) (stt : dialed T E) : handler * list setup :=
  if negb loaded then (HSilent, [SHangup])
  else match stt with
       | Connected _ => (HAgent (newBargeInDetector c native) (negb (BargeInEnabled c)), [SSpanStart; SAgent; SSpanEndLater; SRecord])
       | _ => (HLoopback, [SSpanStart; SSpanEnd])
       end.

(** [Handler]; [own] is the campaign's workflow. *)
Definition Handler {T E} (c : config) (loads : Z -> bool) (native : bool) (own : Z) (stt : dialed T E) : handler * list setup :=
  if TestSilentHandler c then (HSilent, [])
  else if negb (bool_decide (AppMode c = bs "agent")) then (HLoopback, [])
  else newAgentHandler c (loads (workflowID c own)) native stt.

(** ** The summary's percentiles *)

(** The index of [rank], in binary64. *)
Definition rank_index (p : float64) (n : Z) : Z := Z.max 0 (Z.min (Ceil (fmul p (of_int n)) - 1) (n - 1)).

Definition percentiles (v : list Z) : option (Z * Z) :=
  match v with
  | [] => None
  | _ =>
      let s := merge_sort Z.le v in
      let rank p := default 0 (s !! Z.to_nat (rank_index p (Z.of_nat (length s)))) in
      Some (rank (const 50 100), rank (const 95 100))
  end.

(** [logLLMRequest]'s level. *)
Inductive level := Debug | Info | Warn.
Inductive requestErr := NoErr | Canceled | OtherErr.
Definition slowLLMRequest : Z := 3000000000.
Definition llmRequestLevel (e : requestErr) (total : Z) : level :=
  match e with OtherErr => Warn | NoErr => if slowLLMRequest <=? total then Info else Debug | Canceled => Debug end.

(** ** Lemmas *)

Definition dials (tr : list dial_step) : nat := length (List.filter (fun s => match s with Dial => true | _ => false end) tr).
Definition waited (tr : list dial_step) : list Z := omap (fun s => match s with Wait d => Some d | _ => None end) tr.

(** A provider is dialed at most three times, half a second and then a
    second apart; the first success is the result, and without one the last
    failure, unless the call ended while waiting. *)
Theorem dialWithRetry_bounded {T E} (dial : nat -> T + E) (cancelled : nat -> bool) :
  let '(r, tr) := dialWithRetry dial cancelled in
  (1 <= dials tr <= 3)%nat /\ waited tr `prefix_of` [500000000; 1000000000] /\
  (forall k, (1 <= k < dials tr)%nat -> exists e, dial k = inr e) /\
  match r with
  | Connected v => dial (dials tr) = inl v
  | Failed e => dials tr = 3%nat /\ dial 3%nat = inr e
  | CtxDone => cancelled (dials tr) = true /\ exists e, dial (dials tr) = inr e
  end.
Proof.
  unfold dialWithRetry, connectRetryAttempts, connectRetryBaseDelay, dials. simpl.
  assert (P : forall k, (1 <= k < 1)%nat -> exists e, dial k = inr e) by lia.
  destruct (dial 1%nat) eqn:E1; [simpl; split_and!; try lia; auto; by eexists|]. destruct (cancelled 1%nat) eqn:C1.
  { simpl. split_and!; try lia; eauto; by eexists. }
  assert (P1 : forall k, (1 <= k < 2)%nat -> exists e, dial k = inr e) by (intros k Hk; replace k with 1%nat by lia; eauto).
  destruct (dial 2%nat) eqn:E2; [simpl; split_and!; try lia; auto; by eexists|]. destruct (cancelled 2%nat) eqn:C2.
  { simpl. split_and!; try lia; eauto; by exists []. }
  assert (P2 : forall k, (1 <= k < 3)%nat -> exists e, dial k = inr e).
  { intros k Hk. destruct (decide (k = 2%nat)) as [->|]; [eauto|]. apply P1. lia. }
  destruct (dial 3%nat) eqn:E3; simpl; split_and!; try lia; auto; by exists [].
Qed.

Lemma ranks_ok : forallb (fun n => (rank_index (const 50 100) n =? (50 * n + 99) / 100 - 1) && (rank_index (const 95 100) n =? (95 * n + 99) / 100 - 1)) (seqZ 1 1000) = true.
Proof. by vm_compute. Qed.

Lemma sorted_split (s t : list Z) x : StronglySorted Z.le (s ++ x :: t) -> Forall (fun y => y <= x) s /\ Forall (fun y => x <= y) t.
Proof.
  induction s as [|a s IH]; simpl; intros H; apply StronglySorted_inv in H as [H Ha].
  - by split.
  - destruct (IH H) as [H1 H2]. split; [|done]. constructor; [|done]. rewrite Forall_forall in Ha. apply Ha. apply elem_of_app. right. by left.
Qed.

Lemma filter_whole (P : Z -> Prop) `{forall x, Decision (P x)} l : Forall P l -> filter P l = l.
Proof. induction 1 as [|x l Hx _ IH]; [done|]. by rewrite filter_cons, decide_True, IH. Qed.

Lemma filter_none (P : Z -> Prop) `{forall x, Decision (P x)} l : Forall (fun x => ~ P x) l -> filter P l = [].
Proof. induction 1 as [|x l Hx _ IH]; [done|]. by rewrite filter_cons, decide_False, IH. Qed.

(** How many of [v] are at most, and below, [x]. *)
Definition at_most (x : Z) (v : list Z) : Z := Z.of_nat (length (filter (fun y => y <= x) v)).
Definition below (x : Z) (v : list Z) : Z := Z.of_nat (length (filter (fun y => y < x) v)).

Lemma sorted_count s i x :
  StronglySorted Z.le s -> s !! i = Some x -> Z.of_nat i < at_most x s /\ below x s <= Z.of_nat i.
Proof.
  intros Hs Hi. pose proof (lookup_lt_Some _ _ _ Hi) as Hlt. unfold at_most, below. rewrite <- (take_drop_middle s i x Hi) in Hs |- *.
  apply sorted_split in Hs as [H1 H2]. rewrite !filter_app, !length_app, !filter_cons. rewrite decide_True, decide_False by lia.
  rewrite (filter_whole (fun y => y <= x) (take i s)) by done.
  rewrite (filter_none (fun y => y < x) (drop (S i) s)) by (eapply Forall_impl; [done|]; simpl; lia).
  pose proof (length_filter (fun y => y < x) (take i s)) as Hl. rewrite length_take in *. simpl. lia.
Qed.

(** The nearest rank of a fraction of a hundred. *)
Definition nearest_rank (q x : Z) (v : list Z) : Prop :=
  x ∈ v /\ q * Z.of_nat (length v) <= 100 * at_most x v /\ 100 * below x v < q * Z.of_nat (length v).

Lemma rank_nearest q v i x :
  0 < q <= 100 -> i = (q * Z.of_nat (length v) + 99) / 100 - 1 -> v <> [] ->
  merge_sort Z.le v !! Z.to_nat i = Some x -> nearest_rank q x v.
Proof.
  intros Hq Hi Hv Hx. assert (Hlen : 0 < Z.of_nat (length v)) by (destruct v; [done|simpl; lia]).
  destruct (sorted_count _ _ _ (StronglySorted_merge_sort Z.le v) Hx) as [H1 H2].
  pose proof (merge_sort_Permutation Z.le v) as Hp. unfold nearest_rank, at_most, below in *. rewrite Hp in H1, H2.
  assert (0 <= i) by (subst i; Z.div_mod_to_equations; nia). rewrite Z2Nat.id in H1, H2 by done.
  split; [rewrite <- Hp; by eapply list_elem_of_lookup_2|]. subst i. Z.div_mod_to_equations. nia.
Qed.

(** The reply latencies a call's summary gives are the nearest-rank median
    and 95th percentile of those measured, for any call of up to a thousand
    replies: rounding never moves the rank. *)
Theorem percentiles_nearest (v : list Z) (Hv : (1 <= length v <= 1000)%nat) :
  exists p50 p95, percentiles v = Some (p50, p95) /\ nearest_rank 50 p50 v /\ nearest_rank 95 p95 v.
Proof.
  pose proof ranks_ok as R. rewrite forallb_forall in R. specialize (R (Z.of_nat (length v)) ltac:(apply list_elem_of_In, elem_of_seqZ; lia)).
  apply andb_true_iff in R as [R1%Z.eqb_eq R2%Z.eqb_eq]. assert (Hne : v <> []) by (by destruct v; [simpl in Hv; lia|]).
  assert (Hx : forall q i, 0 < q <= 100 -> i = (q * Z.of_nat (length v) + 99) / 100 - 1 -> nearest_rank q (default 0 (merge_sort Z.le v !! Z.to_nat i)) v).
  { intros q i Hq Hi. assert (Hb : (Z.to_nat i < length (merge_sort Z.le v))%nat).
    { rewrite (Permutation_length (merge_sort_Permutation Z.le v)). subst i. apply Nat2Z.inj_lt. rewrite Z2Nat.id; Z.div_mod_to_equations; nia. }
    destruct (lookup_lt_is_Some_2 _ _ Hb) as [x E]. rewrite E. by eapply rank_nearest. }
  assert (Hp : percentiles v = let s := merge_sort Z.le v in
      let rank p := default 0 (s !! Z.to_nat (rank_index p (Z.of_nat (length s)))) in Some (rank (const 50 100), rank (const 95 100))) by (by destruct v).
  assert (Hlen : length (merge_sort Z.le v) = length v) by (apply Permutation_length, merge_sort_Permutation).
  rewrite Hp. cbv zeta. rewrite Hlen, R1, R2. eexists _, _. split; [done|]. split; by apply Hx.
Qed.

Example percentiles_ex : percentiles [5; 1; 4; 2; 3] = Some (3, 5) /\ percentiles (seqZ 1 20) = Some (10, 19) /\ percentiles [] = None.
Proof. by vm_compute. Qed.

Lemma percentiles_nearest_witness : exists p50 p95, percentiles [900; 700; 1200] = Some (p50, p95) /\ nearest_rank 50 p50 [900; 700; 1200].
Proof.
  destruct (percentiles_nearest [900; 700; 1200] ltac:(simpl; lia)) as (p50 & p95 & H1 & H2 & _). exists p50, p95. by split.
Defined.

(** A call with no workflow is hung up, in silence; only a call whose agent
    talks is recorded, and its trace always ends. *)
Lemma newAgentHandler_cases {T E} (c : config) (loaded native : bool) (stt : dialed T E) :
  let '(h, s) := newAgentHandler c loaded native stt in
  (SHangup ∈ s <-> loaded = false) /\ (SRecord ∈ s <-> exists d o, h = HAgent d o) /\
  (SSpanStart ∈ s -> SSpanEnd ∈ s \/ SSpanEndLater ∈ s) /\ (h = HLoopback -> loaded = true).
Proof.
  unfold newAgentHandler. destruct loaded; [destruct stt|]; simpl; split_and!; try done; rewrite ?elem_of_cons, ?elem_of_nil; naive_solver.
Qed.
