(* ===== verification/Config.v ===== *)
(** The configuration (internal/config/config.go): the .env file, the typed
    reads of the environment, [Load] with every check it makes in its order, and
    the MinIO endpoint's normal form. [strconv.ParseFloat] is a parameter; the
    warnings are plain log lines. *)

From Stdlib Require Import SpecFloat.
From stdpp Require Import gmap strings.
From S2P Require Import Prelude Text DographTools Pcm PortAlloc.

Local Open Scope Z_scope.

(** ** The environment *)

Abbreviation environ := (gmap bytes bytes).

(** [os.Setenv]: it refuses an empty name, a name with "=" and a NUL byte, and
    [applyDotenv] ignores that. *)
Definition settable (key value : bytes) : bool :=
  negb (bool_decide (key = [])) && negb (existsb (fun b => (b =? 61) || (b =? 0)) key) && negb (existsb (Z.eqb 0) value).
Definition Setenv (key value : bytes) (env : environ) : environ := if settable key value then <[key := value]> env else env.

(** [unquote]. *)
Definition unquote (v : bytes) : bytes :=
  match v with
  | q :: r =>
      match last r with
      | Some q' => if ((q =? 34) || (q =? 39)) && (q' =? q) then removelast r else v
      | None => v
      end
  | [] => v
  end.

(** The setting of one line of the file, none for a blank line, a comment or a
    line with no "=". *)
Definition setting (line : bytes) : option (bytes * bytes) :=
  let line := TrimPrefix (TrimSpace line) (bs "export ") in
  if bool_decide (line = []) || HasPrefix line (bs "#") then None
  else '(key, value) ← Cut 61 line; Some (TrimSpace key, unquote (TrimSpace value)).

Definition applyLine (env : environ) (line : bytes) : environ :=
  match setting line with
  | Some (key, value) => if bool_decide (is_Some (env !! key)) then env else Setenv key value env
  | None => env
  end.

(** [applyDotenv]. *)
Definition applyDotenv (data : bytes) (env : environ) : environ := fold_left applyLine (Split 10 data) env.

(** [filepath.Dir] of an absolute path without redundant parts, as the working
    directory's is: what is before the last slash, the root its own parent. *)
Fixpoint before_slash (s : bytes) : bytes :=
  match s with [] => [] | c :: r => if c =? 47 then r else before_slash r end.
Definition Dir (path : bytes) : bytes :=
  match before_slash (rev path) with [] => bs "/" | r => rev r end.
Definition dotenv_in (dir : bytes) : bytes := if bool_decide (dir = bs "/") then bs "/.env" else dir ++ bs "/.env".

Section environment.
Variable ReadFile : bytes -> option bytes.

(** [loadDotenv]: the nearest .env of the working directory and its parents.
    A parent is shorter than its directory, so the path's length is enough fuel
    ([search_ends]). *)
Fixpoint search (fuel : nat) (dir : bytes) : option bytes :=
  match ReadFile (dotenv_in dir) with
  | Some data => Some data
  | None =>
      match fuel with
      | O => None
      | S n => if bool_decide (Dir dir = dir) then None else search n (Dir dir)
      end
  end.
Definition loadDotenv (wd : option bytes) (env : environ) : environ :=
  match wd with
  | Some dir => match search (length dir) dir with Some data => applyDotenv data env | None => env end
  | None => env
  end.
End environment.

(** ** The MinIO endpoint *)

Definition same_fold (a b : bytes) : bool := bool_decide (map Pcm.lower a = map Pcm.lower b).

(** [strings.EqualFold(v[:len(p)], p)] for a scheme; no other letter folds to
    one of its letters in one byte. *)
Definition has_scheme (v p : bytes) : bool := same_fold (take (length p) v) p.
Definition schemes : list bytes := [bs "http://"; bs "https://"; bs "http:"; bs "https:"].

Definition last_colon (s : bytes) : option (bytes * bytes) :=
  '(b, a) ← Cut 58 (rev s); Some (rev a, rev b).

Inductive splitError := MissingPort | TooManyColons | MissingBracket | UnexpectedBracket.

(** [net.SplitHostPort]. *)
Definition SplitHostPort (s : bytes) : result (bytes * bytes) splitError :=
  match last_colon s with
  | None => Err MissingPort
  | Some (before, port) =>
      if HasPrefix s (bs "[") then
        match Cut 93 s with
        | None => Err MissingBracket
        | Some (host, rest) =>
            match rest with
            | [] => Err MissingPort
            | c :: _ =>
                if bool_decide (length host + 1 = length before)%nat then
                  if existsb (Z.eqb 91) (drop 1 s) || existsb (Z.eqb 93) rest then Err UnexpectedBracket
                  else Ok (drop 1 host, port)
                else if c =? 58 then Err TooManyColons else Err MissingPort
            end
        end
      else if existsb (Z.eqb 58) before then Err TooManyColons
      else if existsb (Z.eqb 91) s || existsb (Z.eqb 93) s then Err UnexpectedBracket
      else Ok (before, port)
  end.

Definition strip_scheme (v : bytes) : bytes * bool :=
  match List.find (has_scheme v) schemes with Some p => (drop (length p) v, true) | None => (v, false) end.
Definition strip_path (v : bytes) (changed : bool) : bytes * bool :=
  match Cut 47 v with Some (host, _) => (host, true) | None => (v, changed) end.

(** [normalizeMinioEndpoint]: the endpoint and whether anything was stripped. *)
Definition normalizeMinioEndpoint (raw : bytes) : option (bytes * bool) :=
  let '(v, changed) := strip_scheme (TrimSpace raw) in
  let '(v, changed) := strip_path v changed in
  let v := TrimSpace v in
  if bool_decide (v = []) || existsb (fun b => (b =? 32) || (b =? 9)) v then None
  else match SplitHostPort v with
       | Ok _ | Err MissingPort => Some (v, changed)
       | Err _ => None
       end.

(** ** Load *)

Record Config := mkConfig {
  AriURL : bytes; AriUser : bytes; AriPass : bytes; AriApp : bytes;
  MediaIP : bytes; MediaPortBase : Z; MediaPortCount : Z; MetricsAddr : bytes;
  AudioL16Endianness : bytes; JitterBufferPackets : Z; RecordDir : bytes; AppMode : bytes; TestSilentHandler : bool;
  MediaEncapsulation : bytes; DebugAudio : bool; MaxCallDuration : Z;
  LLMRetries : Z; LLMRetryMaxWait : Z; LLMMaxFailedTurns : Z; LLMFallbackText : bytes;
  MediaDeadTimeout : Z; OutboundRingTimeout : Z; OutboundTestCall : bytes;
  CampaignsEnabled : bool; RedisURL : bytes; OutboundMaxCalls : Z; OutboundDefaultOrgLimit : Z; CampaignPoll : Z;
  DograhDBURL : bytes; DograhWorkflowID : Z; DograhDBMaxConns : Z;
  MinioEndpoint : bytes; MinioAccessKey : bytes; MinioSecretKey : bytes; MinioBucket : bytes; MinioSecure : bool;
  BargeInEnabled : bool; BargeInRMSFloor : spec_float; BargeInGuard : Z; BargeInMinSpeech : Z;
  STTFlushAfter : Z; STTSpeechOnly : bool; STTPreroll : Z; STTHangover : Z; STTGateRMSFloor : spec_float;
  PostCutSilence : Z; BargeInAckFilter : bool; AckEndMargin : Z; VadMode : bytes; TenVadThreshold : spec_float;
  Telephony : bytes; EslAddr : bytes; EslPassword : bytes; EarshotListenAddr : bytes; EarshotAuthToken : bytes;
}.

(** What [Load] refuses: a variable that is no number, or one of its checks. *)
Inductive refusal :=
  | BadNumber (key : string) (value : bytes)
  | BadDBMaxConns | BadPortCount | BadPortBase | BadPortRange | BadJitterBuffer | BadMaxDuration | BadRetries | BadFailedTurns
  | BadMediaDead | BadRingTimeout | BadCampaignBounds | CampaignsNeed | BadEndianness (value : bytes) | BadAppMode
  | NoEslPassword | BadTelephony | BadToken | BadEncapsulation | BadRMSFloor | BadVadMode | BadThreshold
  | BadGuard | BadMinSpeech | BadFlushAfter | BadGateTimes | BadGateFloor | GateNeedsTen | HangoverTooShort
  | BadPostCut | BadAckMargin | NoDograhDB | NoWorkflow | BadMinio | NoMinioKeys.

#[local] Notation "'let?' x := m 'in' k" := (match m with Ok x => k | Err e => Err e end)
  (at level 200, x pattern, m at level 100, k at level 200, only parsing).
#[local] Notation "'refuse' b 'as' e ; k" := (if b : bool then Err e else k) (at level 200, b at level 100, e at level 100, k at level 200, only parsing).

Section load.
Variable ParseFloat : bytes -> option spec_float.
Variable env : environ.

(** [os.Getenv], [getEnv], [getEnvInt], [getEnvFloat]. *)
Definition Getenv (key : string) : bytes := default [] (env !! bs key).
Definition getEnv (key def : string) : bytes := match env !! bs key with Some (c :: r) => c :: r | _ => bs def end.
Definition number {A} (parse : bytes -> option A) (key : string) (def : A) : result A refusal :=
  match env !! bs key with
  | Some (c :: r) => match parse (c :: r) with Some n => Ok n | None => Err (BadNumber key (c :: r)) end
  | _ => Ok def
  end.
Definition getEnvInt : string -> Z -> result Z refusal := number Atoi.
Definition getEnvFloat : string -> spec_float -> result spec_float refusal := number ParseFloat.

Definition on (key def : string) : bool := bool_decide (getEnv key def = bs "1").

(** [time.Duration(n) * unit]. *)
Definition duration (n unit : Z) : Z := i64 (n * unit).

(** The steps of [Load], in its order: the media ports, the database pool and
    the jitter buffer; *)
Definition load_media : result (Z * Z * Z * Z * Z) refusal :=
  let? base := getEnvInt "MEDIA_PORT_BASE" 20000 in
  let? count := getEnvInt "MEDIA_PORT_COUNT" 256 in
  let? workflow := getEnvInt "DOGRAH_WORKFLOW_ID" 0 in
  let? conns := getEnvInt "DOGRAH_DB_MAX_CONNS" 50 in
  refuse conns <? 1 as BadDBMaxConns;
  refuse count <=? 0 as BadPortCount;
  refuse base <? 1024 as BadPortBase;
  refuse 65535 <? i64 (base + count) as BadPortRange;
  let? jitter := getEnvInt "JITTER_BUFFER_PACKETS" 3 in
  refuse (jitter <? 1) || (10 <? jitter) as BadJitterBuffer;
  Ok (base, count, workflow, conns, jitter).

(** the call's length and the model's failures; *)
Definition load_calls : result (Z * Z * Z * Z * Z * Z) refusal :=
  let? maxCallSeconds := getEnvInt "MAX_CALL_DURATION_SECONDS" 0 in
  refuse maxCallSeconds <? 0 as BadMaxDuration;
  let? retries := getEnvInt "LLM_RETRIES" 2 in
  let? retryWaitMs := getEnvInt "LLM_RETRY_MAX_WAIT_MS" 2000 in
  refuse (retries <? 0) || (retryWaitMs <? 0) as BadRetries;
  let? failedTurns := getEnvInt "LLM_MAX_FAILED_TURNS" 3 in
  refuse failedTurns <? 0 as BadFailedTurns;
  let? mediaDeadSeconds := getEnvInt "MEDIA_DEAD_TIMEOUT_SECONDS" 30 in
  refuse mediaDeadSeconds <? 0 as BadMediaDead;
  let? ringSeconds := getEnvInt "OUTBOUND_RING_TIMEOUT_SECONDS" 30 in
  refuse (ringSeconds <? 5) || (300 <? ringSeconds) as BadRingTimeout;
  Ok (duration maxCallSeconds second, retries, duration retryWaitMs millisecond, failedTurns, duration mediaDeadSeconds second, duration ringSeconds second).

(** the campaigns; *)
Definition load_campaigns (redis db : bytes) : result (bool * Z * Z * Z) refusal :=
  let enabled := on "CAMPAIGNS_ENABLED" "0" in
  let? maxCalls := getEnvInt "OUTBOUND_MAX_CALLS" 20 in
  let? orgLimit := getEnvInt "OUTBOUND_DEFAULT_ORG_CONCURRENCY" 2 in
  let? pollSeconds := getEnvInt "CAMPAIGN_POLL_SECONDS" 5 in
  refuse (maxCalls <? 0) || (orgLimit <? 1) || (pollSeconds <? 1) as BadCampaignBounds;
  refuse enabled && (bool_decide (redis = []) || bool_decide (db = [])) as CampaignsNeed;
  Ok (enabled, maxCalls, orgLimit, duration pollSeconds second).

(** the switch and the wire; *)
Definition equals (s : bytes) (v : string) : bool := bool_decide (s = bs v).
Definition check_switch (endianness mode telephony password token encapsulation : bytes) : result unit refusal :=
  let? _ := match Pcm.ParseEndianness endianness with Ok _ => Ok tt | Err v => Err (BadEndianness v) end in
  refuse negb (equals mode "loopback") && negb (equals mode "agent") as BadAppMode;
  let? _ := if equals telephony "asterisk" then Ok tt
            else if equals telephony "freeswitch" then (refuse bool_decide (password = []) as NoEslPassword; Ok tt)
            else Err BadTelephony in
  refuse existsb (fun b => (b =? 32) || (b =? 9) || (b =? 13) || (b =? 10)) token as BadToken;
  refuse negb (equals encapsulation "rtp") && negb (equals encapsulation "audiosocket") as BadEncapsulation;
  Ok tt.

(** barge-in and the speech recogniser's gate; *)
Definition zero_float : spec_float := S754_zero false.
Definition outside_unit (f : spec_float) : bool := SFltb f zero_float || SFltb (of_int 1) f.

Definition load_bargein (vad : bytes) : result (spec_float * spec_float * Z * Z * Z) refusal :=
  let? floor := getEnvFloat "BARGE_IN_RMS_FLOOR" (of_int 500) in
  refuse SFltb floor zero_float as BadRMSFloor;
  refuse negb (equals vad "energy") && negb (equals vad "ten") as BadVadMode;
  let? threshold := getEnvFloat "TEN_VAD_THRESHOLD" (S754_finite false 6305039478318694 (-53)) in
  refuse outside_unit threshold as BadThreshold;
  let? guardMS := getEnvInt "BARGE_IN_GUARD_MS" 300 in
  refuse guardMS <? 0 as BadGuard;
  let? minSpeechMS := getEnvInt "BARGE_IN_MIN_SPEECH_MS" 200 in
  refuse minSpeechMS <? 0 as BadMinSpeech;
  let? flushMS := getEnvInt "STT_FLUSH_AFTER_MS" 400 in
  refuse flushMS <? 0 as BadFlushAfter;
  Ok (floor, threshold, duration guardMS millisecond, duration minSpeechMS millisecond, duration flushMS millisecond).

Definition load_gate (vad : bytes) (flushAfter : Z) : result (bool * Z * Z * spec_float) refusal :=
  let speechOnly := on "STT_SPEECH_ONLY" "0" in
  let? prerollMS := getEnvInt "STT_PREROLL_MS" 1000 in
  let? hangoverMS := getEnvInt "STT_HANGOVER_MS" 700 in
  refuse (prerollMS <? 0) || (hangoverMS <? 0) as BadGateTimes;
  let hangover := duration hangoverMS millisecond in
  let? floor := getEnvFloat "STT_GATE_RMS_FLOOR" (of_int 400) in
  refuse SFltb floor zero_float as BadGateFloor;
  refuse speechOnly && negb (equals vad "ten") as GateNeedsTen;
  refuse speechOnly && (0 <? flushAfter) && (hangover <=? flushAfter) as HangoverTooShort;
  Ok (speechOnly, duration prerollMS millisecond, hangover, floor).

(** the silences after a cut, the agent's database and the upload's endpoint. *)
Definition load_silences : result (Z * Z) refusal :=
  let? postCutMS := getEnvInt "POST_CUT_SILENCE_MS" 300 in
  refuse postCutMS <? 0 as BadPostCut;
  let? ackMS := getEnvInt "ACK_END_MARGIN_MS" 300 in
  refuse ackMS <? 0 as BadAckMargin;
  Ok (duration postCutMS millisecond, duration ackMS millisecond).

Definition check_agent (mode db : bytes) (workflow : Z) : result unit refusal :=
  refuse equals mode "agent" && bool_decide (db = []) as NoDograhDB;
  refuse equals mode "agent" && (workflow <=? 0) as NoWorkflow;
  Ok tt.

Definition load_minio (raw key secret : bytes) : result bytes refusal :=
  let? endpoint := if bool_decide (raw = []) then Ok [] else match normalizeMinioEndpoint raw with Some (e, _) => Ok e | None => Err BadMinio end in
  refuse bool_decide (endpoint <> []) && (bool_decide (key = []) || bool_decide (secret = [])) as NoMinioKeys;
  Ok endpoint.

(** [Load], after the .env file. *)
Definition Load : result Config refusal :=
  let db := getEnv "DOGRAH_DB_URL" "" in
  let mode := getEnv "APP_MODE" "loopback" in
  let vad := getEnv "VAD_MODE" "energy" in
  let telephony := getEnv "TELEPHONY" "asterisk" in
  let password := getEnv "ESL_PASSWORD" "" in
  let token := getEnv "EARSHOT_AUTH_TOKEN" "" in
  let encapsulation := getEnv "MEDIA_ENCAPSULATION" "rtp" in
  let endianness := getEnv "AUDIO_L16_ENDIANNESS" "le" in
  let key := getEnv "MINIO_ACCESS_KEY" "" in
  let secret := getEnv "MINIO_SECRET_KEY" "" in
  let? (base, count, workflow, conns, jitter) := load_media in
  let? (maxDuration, retries, retryWait, failedTurns, mediaDead, ring) := load_calls in
  let redis := Getenv "REDIS_URL" in
  let? (campaigns, maxCalls, orgLimit, poll) := load_campaigns redis db in
  let? _ := check_switch endianness mode telephony password token encapsulation in
  let? (rmsFloor, threshold, guard, minSpeech, flushAfter) := load_bargein vad in
  let? (speechOnly, preroll, hangover, gateFloor) := load_gate vad flushAfter in
  let? (postCut, ackMargin) := load_silences in
  let? _ := check_agent mode db workflow in
  let? endpoint := load_minio (getEnv "MINIO_ENDPOINT" "") key secret in
  Ok (mkConfig
    (getEnv "ARI_URL" "http://localhost:8088/ari") (getEnv "ARI_USER" "vaani") (getEnv "ARI_PASS" "vaani") (getEnv "ARI_APP" "vaani")
    (getEnv "MEDIA_IP" "127.0.0.1") base count (getEnv "METRICS_ADDR" ":9091")
    endianness jitter (getEnv "RECORD_DIR" "") mode (on "TEST_SILENT_HANDLER" "")
    encapsulation (on "DEBUG_AUDIO" "") maxDuration
    retries retryWait failedTurns (getEnv "LLM_FALLBACK_TEXT" "")
    mediaDead ring (Getenv "OUTBOUND_TEST_CALL")
    campaigns redis maxCalls orgLimit poll
    db workflow conns
    endpoint key secret (getEnv "MINIO_BUCKET" "voice-audio") (same_fold (getEnv "MINIO_SECURE" "false") (bs "true"))
    (on "BARGE_IN_ENABLED" "1") rmsFloor guard minSpeech
    flushAfter speechOnly preroll hangover gateFloor
    postCut (on "BARGE_IN_ACK_FILTER" "1") ackMargin vad threshold
    telephony (getEnv "ESL_ADDR" "127.0.0.1:8021") password (getEnv "EARSHOT_LISTEN_ADDR" ":9095") token).
End load.

(** ** Concrete runs *)

Definition test_env : environ := <[bs "STT_SPEECH_ONLY" := bs "1"]> (<[bs "VAD_MODE" := bs "ten"]> ∅).
Definition no_floats : bytes -> option spec_float := fun _ => None.
(** A reader of the few numbers the runs below use. *)
Definition few_floats (s : bytes) : option spec_float :=
  if bool_decide (s = bs "NaN") then Some S754_nan else option_map of_int (Atoi s).

Definition loaded (r : result Config refusal) : option Config := match r with Ok c => Some c | Err _ => None end.
Definition refused (r : result Config refusal) : option refusal := match r with Ok _ => None | Err e => Some e end.

Example defaults_load :
  (fun c => (MediaPortBase c, MediaDeadTimeout c, STTFlushAfter c, BargeInEnabled c, AppMode c)) <$> loaded (Load no_floats ∅) =
  Some (20000, 30000000000, 400000000, true, bs "loopback").
Proof. vm_compute. done. Qed.

Example gate_cases :
  refused (Load no_floats (<[bs "STT_SPEECH_ONLY" := bs "1"]> ∅)) = Some GateNeedsTen /\
  refused (Load no_floats (<[bs "STT_HANGOVER_MS" := bs "400"]> test_env)) = Some HangoverTooShort /\
  is_ok (Load no_floats test_env) = true.
Proof. vm_compute. done. Qed.

Example refusals :
  refused (Load no_floats (<[bs "MEDIA_PORT_BASE" := bs "abc"]> ∅)) = Some (BadNumber "MEDIA_PORT_BASE" (bs "abc")) /\
  refused (Load no_floats (<[bs "MEDIA_PORT_BASE" := bs "65400"]> ∅)) = Some BadPortRange /\
  refused (Load no_floats (<[bs "APP_MODE" := bs "agent"]> ∅)) = Some NoDograhDB /\
  refused (Load no_floats (<[bs "TELEPHONY" := bs "freeswitch"]> ∅)) = Some NoEslPassword.
Proof. vm_compute. done. Qed.

(** The sum of the range check wraps: a base near 2^63 passes it. *)
Example port_sum_wraps :
  (fun c => (MediaPortBase c, MediaPortCount c)) <$> loaded (Load no_floats (<[bs "MEDIA_PORT_BASE" := bs "9223372036854775807"]> ∅)) =
  Some (9223372036854775807, 256).
Proof. vm_compute. done. Qed.

(** NaN is neither below 0 nor above 1. *)
Example nan_threshold_loads :
  TenVadThreshold <$> loaded (Load few_floats (<[bs "TEN_VAD_THRESHOLD" := bs "NaN"]> ∅)) = Some S754_nan.
Proof. vm_compute. done. Qed.

(** A cap of 2^64 ns and a little, in whole seconds, is one of 290 ms. *)
Example long_cap_is_short :
  MaxCallDuration <$> loaded (Load no_floats (<[bs "MAX_CALL_DURATION_SECONDS" := bs "18446744074"]> ∅)) = Some 290448384.
Proof. vm_compute. done. Qed.

Example endpoints :
  normalizeMinioEndpoint (bs "https://host.example/storage") = Some (bs "host.example", true) /\
  normalizeMinioEndpoint (bs "http:10.0.0.1:9000") = Some (bs "10.0.0.1:9000", true) /\
  normalizeMinioEndpoint (bs " 10.0.0.1:9000 ") = Some (bs "10.0.0.1:9000", false) /\
  normalizeMinioEndpoint (bs "[::1]:9000") = Some (bs "[::1]:9000", false) /\
  normalizeMinioEndpoint (bs "a:b:c") = None /\ normalizeMinioEndpoint (bs "::1") = None /\ normalizeMinioEndpoint (bs "https://") = None.
Proof. vm_compute. done. Qed.

Example dotenv_ex :
  applyDotenv (bs "export A='x y'
# A=2
 B = z
A=3
=4
C") (<[bs "D" := []]> ∅) =
  <[bs "A" := bs "x y"]> (<[bs "B" := bs "z"]> (<[bs "D" := []]> ∅)).
Proof. vm_compute. done. Qed.

Example search_parents :
  search (fun p => if bool_decide (p = bs "/srv/.env") then Some (bs "A=1") else None) 8 (bs "/srv/a/b") = Some (bs "A=1").
Proof. vm_compute. done. Qed.

(** ** The .env file *)

(** The settings of a file that can take effect, in its order. *)
Definition settings (lines : list bytes) : list (bytes * bytes) :=
  base.filter (fun kv => settable kv.1 kv.2 = true) (omap setting lines).

Lemma applyLine_union env line :
  applyLine env line = env ∪ list_to_map (settings [line]).
Proof.
  unfold applyLine, settings. cbn [omap list_omap]. destruct (setting line) as [[k v]|]; [|rewrite filter_nil; cbn [list_to_map foldr]; by rewrite (right_id_L ∅ (∪))].
  unfold Setenv. rewrite filter_cons. cbn [fst snd]. destruct (settable k v) eqn:Es.
  - rewrite decide_True by done. rewrite filter_nil. cbn [list_to_map foldr fst snd]. case_bool_decide as Hk.
    + apply map_eq. intros i. rewrite lookup_union. destruct (decide (i = k)) as [->|Hi].
      * destruct Hk as [x ->]. by rewrite union_Some_l.
      * rewrite lookup_insert_ne, lookup_empty by done. by destruct (env !! i).
    + apply eq_None_not_Some in Hk. apply map_eq. intros i. rewrite lookup_union. destruct (decide (i = k)) as [->|Hi].
      * by rewrite !lookup_insert_eq, Hk.
      * rewrite !lookup_insert_ne, lookup_empty by done. by destruct (env !! i).
  - rewrite decide_False by done. rewrite filter_nil. cbn [list_to_map foldr]. rewrite (right_id_L ∅ (∪)). by case_bool_decide.
Qed.

Lemma settings_app a b : settings (a ++ b) = settings a ++ settings b.
Proof. unfold settings. rewrite omap_app. apply filter_app. Qed.

Lemma apply_union lines env : fold_left applyLine lines env = env ∪ list_to_map (settings lines).
Proof.
  revert env. induction lines as [|l ls IH]; intros env; [symmetry; apply (right_id_L ∅ (∪))|]. cbn [fold_left]. rewrite IH, applyLine_union.
  change (l :: ls) with ([l] ++ ls). by rewrite settings_app, list_to_map_app, (assoc_L (∪)).
Qed.

(** A name and a value that a line can carry. *)
Definition writable (kv : bytes * bytes) : Prop :=
  (exists a i c, kv.1 = a :: i /\ solid a /\ a <> 35 /\ last kv.1 = Some c /\ solid c) /\
  61 ∉ kv.1 /\ 32 ∉ kv.1 /\ 10 ∉ kv.1 /\ 0 ∉ kv.1 /\ 10 ∉ kv.2 /\ 0 ∉ kv.2.

(** A line of the file: [export] or not, the value quoted. *)
Definition line_of (export : bool) (kv : bytes * bytes) : bytes :=
  (if export then bs "export " else []) ++ kv.1 ++ 61 :: 34 :: kv.2 ++ [34].

Lemma ends_trim s a i c : s = a :: i -> solid a -> last s = Some c -> solid c -> TrimSpace s = s.
Proof. intros -> Ha Hl Hc. apply last_Some in Hl as [l Hl]. by apply (TrimSpace_ends a i l c). Qed.

Lemma unquote_quoted v : unquote (34 :: v ++ [34]) = v.
Proof. unfold unquote. rewrite last_snoc. cbn. apply removelast_last. Qed.

Lemma line_setting e kv : writable kv -> setting (line_of e kv) = Some kv.
Proof.
  destruct kv as [k v]. intros [(a & i & c & Hk & Ha & Hsharp & Hl & Hc) (Heq & Hsp & _)]. cbn [fst snd] in *. subst k. unfold setting, line_of. cbn [fst snd].
  assert (Hq : solid 34) by (split; [lia|done]).
  rewrite (ends_trim _ (if e then 101 else a) (if e then bs "xport " ++ (a :: i) ++ 61 :: 34 :: v ++ [34] else i ++ 61 :: 34 :: v ++ [34]) 34);
    [|by destruct e|destruct e; [split; [lia|done]|done]| |done].
  2: { rewrite app_assoc, !app_comm_cons, app_assoc. apply last_snoc. }
  assert (TrimPrefix ((if e then bs "export " else []) ++ (a :: i) ++ 61 :: 34 :: v ++ [34]) (bs "export ") = (a :: i) ++ 61 :: 34 :: v ++ [34]) as ->.
  { destruct e; [done|]. unfold TrimPrefix. destruct (HasPrefix _ _) eqn:E; [|done]. exfalso.
    revert E Hsp. clear. generalize (a :: i) as k. intros k E Hsp. change (bs "export ") with [101; 120; 112; 111; 114; 116; 32] in E.
    do 7 (destruct k as [|? k]; [done|cbn [app HasPrefix] in E; apply andb_prop in E as [Ex E]; apply Z.eqb_eq in Ex; subst]).
    apply Hsp. do 6 right. left. }
  rewrite bool_decide_false by done. assert (forall x, HasPrefix ((a :: i) ++ x) (bs "#") = false) as Hp.
  { intros x. change (bs "#") with [35]. cbn [app HasPrefix]. by rewrite (proj2 (Z.eqb_neq 35 a)) by (intros <-; done). }
  rewrite Hp. cbn [orb].
  rewrite Cut_field by done. change (Some (TrimSpace (a :: i), unquote (TrimSpace (34 :: v ++ [34]))) = Some (a :: i, v)).
  rewrite (ends_trim (a :: i) a i c) by done.
  rewrite (ends_trim (34 :: v ++ [34]) 34 (v ++ [34]) 34); [by rewrite unquote_quoted|done|done| |done].
  rewrite app_comm_cons. apply last_snoc.
Qed.

Lemma line_whole e kv : writable kv -> 10 ∉ line_of e kv.
Proof.
  destruct kv as [k v]. intros (_ & _ & _ & Hk & _ & Hv & _). cbn [fst snd] in *. unfold line_of. cbn [fst snd].
  rewrite !not_elem_of_app, !not_elem_of_cons, not_elem_of_app, not_elem_of_cons. split; [by destruct e; apply (bool_decide_unpack _); vm_compute|].
  split_and!; try done; apply not_elem_of_nil.
Qed.

Lemma Split_lines {A} (f : A -> bytes) xs rest :
  Forall (fun x => 10 ∉ f x) xs -> Split 10 (flat_map (fun x => f x ++ [10]) xs ++ rest) = map f xs ++ Split 10 rest.
Proof.
  induction 1 as [|x xs Hx _ IH]; [done|]. cbn [flat_map map]. rewrite <- !app_assoc. cbn [app]. by rewrite Split_field, IH.
Qed.

Lemma writable_settable kv : writable kv -> settable kv.1 kv.2 = true.
Proof.
  destruct kv as [k v]. intros [(a & i & c & Hk & _) (Heq & _ & _ & H0 & _ & Hv)]. cbn [fst snd] in *. unfold settable.
  rewrite bool_decide_false by (by rewrite Hk). cbn [negb andb].
  assert (forall (f : Z -> bool) l, (forall b, b ∈ l -> f b = false) -> existsb f l = false) as Hex.
  { clear. intros f l H. induction l as [|x l IH]; [done|]. cbn [existsb]. rewrite H by left. apply IH. intros b Hb. apply H. by right. }
  rewrite Hex, Hex; [done| |].
  - intros b Hb. apply Z.eqb_neq. by intros <-.
  - intros b Hb. rewrite orb_false_iff, !Z.eqb_neq. split; by intros ->.
Qed.

(** The .env file only fills in: its effect is the union of the
    environment, which wins, with the file's settings, the first of a name
    winning. And a file written line by line, exported or not, with its values
    quoted, is read back as written. *)
Theorem dotenv_fills (data : bytes) (env : environ) (export : bool) (kvs : list (bytes * bytes)) :
  Forall writable kvs ->
  applyDotenv data env = env ∪ list_to_map (settings (Split 10 data)) /\
  applyDotenv (flat_map (fun kv => line_of export kv ++ [10]) kvs) env = env ∪ list_to_map kvs.
Proof.
  intros Hw. split; [apply apply_union|]. unfold applyDotenv. rewrite apply_union. f_equal. f_equal.
  rewrite <- (app_nil_r (flat_map _ _)).
  rewrite Split_lines, settings_app; [|eapply Forall_impl; [exact Hw|intros; by apply line_whole]].
  change (settings (Split 10 [])) with (@nil (bytes * bytes)). rewrite app_nil_r. unfold settings.
  induction Hw as [|kv kvs Hkv _ IH]; [done|]. cbn [map omap list_omap]. rewrite (line_setting _ _ Hkv).
  rewrite filter_cons, decide_True by (by apply writable_settable). by rewrite IH.
Qed.

Lemma before_slash_split s : 47 ∈ s -> exists p, s = p ++ 47 :: before_slash s.
Proof.
  induction s as [|c s IH]; intros H; [by apply elem_of_nil in H|]. cbn [before_slash]. destruct (Z.eqb_spec c 47) as [->|Hc]; [by exists []|].
  apply elem_of_cons in H as [H|H]; [by symmetry in H|]. destruct (IH H) as [p Hp]. exists (c :: p). cbn [app]. by rewrite <- Hp.
Qed.

(** A parent is absolute again and shorter, the root's excepted. *)
Lemma Dir_shorter r : exists r', Dir (47 :: r) = 47 :: r' /\ (r' = [] /\ r = [] \/ (length r' < length r)%nat).
Proof.
  unfold Dir. cbn [rev]. destruct (before_slash_split (rev r ++ [47])) as [p Hp]; [apply elem_of_app; right; by left|].
  remember (before_slash (rev r ++ [47])) as b eqn:E. clear E. assert (length b <= length r)%nat as Hl.
  { apply (f_equal length) in Hp. rewrite !length_app, length_rev in Hp. cbn in Hp. lia. }
  destruct b as [|x q]; [exists []; split; [done|]; destruct r; [by left|right; cbn; lia]|].
  destruct (exists_last (l := x :: q)) as (i & c & Hq); [done|]. change (rev q ++ [x]) with (rev (x :: q)).
  rewrite Hq in Hp, Hl |- *. rewrite app_comm_cons, app_assoc in Hp.
  apply app_inj_tail in Hp as [_ <-]. exists (rev i). rewrite rev_app_distr. split; [done|]. right. rewrite length_rev.
  rewrite length_app in Hl. cbn in Hl. lia.
Qed.

(** The .env file found is the nearest one, and one there is is found. *)
Lemma search_nearest ReadFile n r data :
  (length r < n)%nat ->
  search ReadFile n (47 :: r) = Some data <->
  exists k, ReadFile (dotenv_in (Nat.iter k Dir (47 :: r))) = Some data /\ forall j, (j < k)%nat -> ReadFile (dotenv_in (Nat.iter j Dir (47 :: r))) = None.
Proof.
  revert r. induction n as [|n IH]; intros r Hn; [lia|]. cbn [search]. destruct (ReadFile (dotenv_in (47 :: r))) as [d|] eqn:Er.
  { split; [intros [= ->]; exists O; split; [done|lia]|]. intros ([|k] & Hk & Hj); [change (ReadFile (dotenv_in (47 :: r)) = Some data) in Hk; congruence|].
    specialize (Hj O ltac:(lia)). change (ReadFile (dotenv_in (47 :: r)) = None) in Hj. congruence. }
  destruct (Dir_shorter r) as (r' & Hd & Hr). case_bool_decide as Hroot.
  - split; [done|]. intros (k & Hk & _). rewrite <- Hk, <- Er. symmetry. f_equal. f_equal. clear Hk.
    induction k as [|k IHk]; [done|]. rewrite Nat.iter_succ. by rewrite IHk.
  - destruct Hr as [[-> ->]|Hr]; [done|]. rewrite Hd, IH by lia. rewrite <- Hd. split.
    + intros (k & Hk & Hj). exists (S k). split; [by rewrite Nat.iter_succ_r|]. intros [|j] Hlt; [done|]. rewrite Nat.iter_succ_r. apply Hj. lia.
    + intros ([|k] & Hk & Hj); [change (ReadFile (dotenv_in (47 :: r)) = Some data) in Hk; congruence|]. exists k. rewrite Nat.iter_succ_r in Hk. split; [done|]. intros j Hlt.
      specialize (Hj (S j) ltac:(lia)). by rewrite Nat.iter_succ_r in Hj.
Qed.

(** ** The endpoint *)

Lemma existsb_false (f : Z -> bool) s b : existsb f s = false -> b ∈ s -> f b = false.
Proof. intros H Hb. destruct (f b) eqn:E; [|done]. rewrite <- H. symmetry. apply existsb_exists. exists b. by rewrite <- list_elem_of_In. Qed.

(** A normalized endpoint is a bare one: a part of what was given, neither
    empty nor with a slash, a space or a tab in it, and that [SplitHostPort]
    reads as a host with a port or one without. *)
Lemma normalized_bare raw e changed :
  normalizeMinioEndpoint raw = Some (e, changed) ->
  e <> [] /\ 47 ∉ e /\ 32 ∉ e /\ 9 ∉ e /\ (is_ok (SplitHostPort e) = true \/ SplitHostPort e = Err MissingPort) /\
  (exists p q, raw = p ++ e ++ q).
Proof.
  unfold normalizeMinioEndpoint. destruct (strip_scheme (TrimSpace raw)) as [v c1] eqn:E1. destruct (strip_path v c1) as [w c2] eqn:E2.
  case_bool_decide as Hne; [done|]. cbn [orb]. destruct (existsb _ _) eqn:Eb; [done|]. intros H.
  assert (e = TrimSpace w /\ (is_ok (SplitHostPort e) = true \/ SplitHostPort e = Err MissingPort)) as [-> Hs].
  { destruct (SplitHostPort (TrimSpace w)) as [x|[]] eqn:Es; inversion H; subst; rewrite Es; auto. }
  assert (47 ∉ w) as Hw.
  { unfold strip_path in E2. destruct (Cut 47 v) as [[h t]|] eqn:Ec; injection E2 as <- _; [by apply Cut_key in Ec as [_ ?]|].
    intros Hin. apply list_elem_of_split in Hin as (l1 & l2 & ->). clear -Ec. induction l1 as [|x l1 IH]; cbn [app Cut] in Ec; [by rewrite Z.eqb_refl in Ec|].
    destruct (x =? 47); [done|]. destruct (Cut 47 (l1 ++ 47 :: l2)) as [[]|]; [done|]. by apply IH. }
  destruct (TrimSpace_sub w) as (p & q & Ht). split_and!; [done| | | |exact Hs|].
  - intros Hin. apply Hw. rewrite Ht. rewrite !elem_of_app. auto.
  - intros Hin. by apply (existsb_false _ _ _ Eb) in Hin.
  - intros Hin. by apply (existsb_false _ _ _ Eb) in Hin.
  - assert (exists p1 q1, v = p1 ++ w ++ q1) as (p1 & q1 & Hv).
    { unfold strip_path in E2. destruct (Cut 47 v) as [[h t]|] eqn:Ec; injection E2 as <- _; [apply Cut_key in Ec as [-> _]; by exists [], (47 :: t)|].
      exists [], []. by rewrite app_nil_r. }
    assert (exists p2, TrimSpace raw = p2 ++ v) as [p2 Hr].
    { unfold strip_scheme in E1. destruct (List.find _ _) as [s|]; injection E1 as <- _; [exists (take (length s) (TrimSpace raw)); by rewrite take_drop|by exists []]. }
    destruct (TrimSpace_sub raw) as (p3 & q3 & H3). exists (p3 ++ p2 ++ p1 ++ p), (q ++ q1 ++ q3). rewrite H3 at 1. rewrite Hr, Hv. rewrite Ht at 1. by rewrite <- !app_assoc.
Qed.

(** ** A configuration that loads *)

(** One step of a chain of reads and checks that succeeded. *)
Ltac load_step H :=
  match type of H with
  | match ?m with Ok _ => _ | Err _ => _ end = Ok _ =>
      let E := fresh "R" in destruct m eqn:E; [|discriminate H]
  | (if ?b then Err _ else _) = Ok _ => let E := fresh "K" in destruct b eqn:E; [discriminate H|]
  | (let '(_, _) := ?p in _) = Ok _ => destruct p
  end.
Ltac load_inv H := repeat load_step H; inversion H; clear H; subst.

Section valid.
Variable ParseFloat : bytes -> option spec_float.
Variable env : environ.

Lemma load_media_ok b c w n j :
  load_media env = Ok (b, c, w, n, j) ->
  1024 <= b /\ 0 < c /\ i64 (b + c) <= 65535 /\ 1 <= n /\ 1 <= j <= 10.
Proof. unfold load_media. intros H. load_inv H. bool_to_prop. lia. Qed.

Lemma load_calls_ok d r w f m t :
  load_calls env = Ok (d, r, w, f, m, t) ->
  0 <= r /\ 0 <= f /\ 5 * second <= t <= 300 * second /\
  (exists n, 0 <= n /\ d = duration n second) /\ (exists n, 0 <= n /\ w = duration n millisecond) /\ (exists n, 0 <= n /\ m = duration n second).
Proof.
  unfold load_calls. intros H. load_inv H. bool_to_prop. split_and!; [lia|lia| | |eexists; split; [|done]; lia..].
  - unfold duration. rewrite i64_small; unfold second; [lia|]. change (2 ^ 63) with 9223372036854775808. lia.
  - unfold duration. rewrite i64_small; unfold second; [lia|]. change (2 ^ 63) with 9223372036854775808. lia.
Qed.

Lemma load_campaigns_ok redis db on m o t :
  load_campaigns env redis db = Ok (on, m, o, t) ->
  0 <= m /\ 1 <= o /\ (on = true -> redis <> [] /\ db <> []).
Proof. unfold load_campaigns. intros H. load_inv H. split_and!; [bool_to_prop; lia..|]. intros E. rewrite E in K0. cbn [andb] in K0. bool_to_prop. by split. Qed.

Lemma check_switch_ok e mode tel pw tok enc u :
  check_switch e mode tel pw tok enc = Ok u ->
  is_ok (Pcm.ParseEndianness e) = true /\ (mode = bs "loopback" \/ mode = bs "agent") /\
  (tel = bs "asterisk" \/ tel = bs "freeswitch" /\ pw <> []) /\ 32 ∉ tok /\ (enc = bs "rtp" \/ enc = bs "audiosocket").
Proof.
  unfold check_switch, equals. destruct (Pcm.ParseEndianness e); [|done]. intros H. load_inv H.
  assert (forall (P Q : Prop) `{Decision P, Decision Q}, negb (bool_decide P) && negb (bool_decide Q) = false -> P \/ Q) as Hor.
  { clear. intros P Q ? ? H. destruct (decide P); [by left|]. destruct (decide Q); [by right|]. by rewrite !bool_decide_false in H. }
  split_and!; [done|eapply Hor; eassumption| | |eapply Hor; eassumption].
  - clear -R. case_bool_decide; [by left|]. case_bool_decide; [|done]. case_bool_decide; [done|]. by right.
  - intros Hin. by apply (existsb_false _ _ _ K0) in Hin.
Qed.

Lemma load_gate_ok vad flush so p h f :
  load_gate ParseFloat env vad flush = Ok (so, p, h, f) ->
  so = true -> vad = bs "ten" /\ (0 < flush -> flush < h).
Proof.
  unfold load_gate, equals. intros H. load_inv H. intros E. rewrite E in *. cbn [andb] in *. split.
  - bool_to_prop. done.
  - intros Hf. rewrite (proj2 (Z.ltb_lt _ _)) in K2 by done. cbn [andb] in K2. bool_to_prop. lia.
Qed.

Lemma check_agent_ok mode db w u :
  check_agent mode db w = Ok u -> mode = bs "agent" -> db <> [] /\ 0 < w.
Proof.
  unfold check_agent, equals. intros H ->. rewrite bool_decide_true in H by done. load_inv H. cbn [andb] in *. bool_to_prop. split; [done|lia].
Qed.

Lemma load_minio_ok raw key secret e :
  load_minio raw key secret = Ok e ->
  e = [] /\ raw = [] \/ e <> [] /\ 47 ∉ e /\ key <> [] /\ secret <> [] /\ exists ch, normalizeMinioEndpoint raw = Some (e, ch).
Proof.
  unfold load_minio. intros H. load_inv H. case_bool_decide as Hr.
  - injection R as <-. by left.
  - destruct (normalizeMinioEndpoint raw) as [[e' ch]|] eqn:En; [|done]. injection R as ->. right.
    destruct (normalized_bare _ _ _ En) as (Hne & H47 & _). rewrite bool_decide_true in K by done. cbn [andb] in K. apply orb_false_iff in K as [K1 K2].
    apply bool_decide_eq_false in K1, K2. split_and!; eauto.
Qed.
End valid.

(** What holds of a configuration [Load] gives. *)
Record Valid (c : Config) : Prop := {
  v_media : 1024 <= MediaPortBase c /\ 0 < MediaPortCount c /\ 1 <= DograhDBMaxConns c /\ 1 <= JitterBufferPackets c <= 10;
  v_endianness : is_ok (Pcm.ParseEndianness (AudioL16Endianness c)) = true;
  v_ring : 5 * second <= OutboundRingTimeout c <= 300 * second;
  v_failures : 0 <= LLMRetries c /\ 0 <= LLMMaxFailedTurns c;
  v_campaigns : 0 <= OutboundMaxCalls c /\ 1 <= OutboundDefaultOrgLimit c /\
    (CampaignsEnabled c = true -> RedisURL c <> [] /\ DograhDBURL c <> []);
  v_mode : AppMode c = bs "loopback" \/ AppMode c = bs "agent" /\ DograhDBURL c <> [] /\ 0 < DograhWorkflowID c;
  v_switch : Telephony c = bs "asterisk" \/ Telephony c = bs "freeswitch" /\ EslPassword c <> [];
  v_token : 32 ∉ EarshotAuthToken c;
  v_wire : MediaEncapsulation c = bs "rtp" \/ MediaEncapsulation c = bs "audiosocket";
  v_gate : STTSpeechOnly c = true -> VadMode c = bs "ten" /\ (0 < STTFlushAfter c -> STTFlushAfter c < STTHangover c);
  v_minio : MinioEndpoint c <> [] -> 47 ∉ MinioEndpoint c /\ MinioAccessKey c <> [] /\ MinioSecretKey c <> [];
}.

Lemma load_valid ParseFloat env c :
  Load ParseFloat env = Ok c -> Valid c /\ i64 (MediaPortBase c + MediaPortCount c) <= 65535.
Proof.
  unfold Load. intros H. load_inv H.
  apply load_media_ok in R as (Hb & Hc & Hs & Hn & Hj). apply load_calls_ok in R0 as (Hr & Hf & Ht & _).
  apply load_campaigns_ok in R1 as (Hm & Ho & Hcamp). apply check_switch_ok in R2 as (He & Hmode & Htel & Htok & Henc).
  pose proof (load_gate_ok _ _ _ _ _ _ _ _ R4) as Hgate. pose proof (check_agent_ok _ _ _ _ R6) as Hag. apply load_minio_ok in R7 as Hminio.
  split; [|exact Hs]. constructor; cbn; try done.
  - destruct Hmode as [Hm'|Hm']; [by left|]. right. split; [done|]. by apply Hag.
  - intros Hne. destruct Hminio as [[? _]|(_ & ? & ? & ? & _)]; done.
Qed.


Example ex_loads : (fun c => (MediaPortBase c, MediaPortCount c)) <$> loaded (Load few_floats test_env) = Some (20000, 256).
Proof. vm_compute. done. Qed.


Example dotenv_fills_witness :
  applyDotenv (flat_map (fun kv => line_of true kv ++ [10]) [(bs "A_B", bs "x y"); (bs "C", [])]) (<[bs "C" := bs "1"]> ∅) =
  <[bs "C" := bs "1"]> ∅ ∪ list_to_map [(bs "A_B", bs "x y"); (bs "C", [])].
Proof.
  apply (dotenv_fills [] (<[bs "C" := bs "1"]> ∅) true [(bs "A_B", bs "x y"); (bs "C", [])]).
  constructor; [|constructor; [|constructor]].
  - split; [exists 65, (bs "_B"), 66; split_and!; try done; split; done|]. split_and!; apply (bool_decide_unpack _); vm_compute; done.
  - split; [exists 67, [], 67; split_and!; try done; split; done|]. split_and!; apply (bool_decide_unpack _); vm_compute; done.
Defined.
