(* ===== verification/CallStart.v ===== *)
(** [internal/callagent/callagent.go]'s [loadWorkflow] and [newAgentHandler],
    and [internal/ai/agent/handler.go]'s [NewHandler] and [readSTT]: what the
    agent of a call is made of, given the configuration (file Config) and the
    call's workflow (file Store), how it opens the call, and how the
    recogniser's results reach its event loop. *)

From Stdlib Require Import String SpecFloat.
From S2P Require Import Prelude Text Chunker Workflow AgentState AgentLoop AgentFrame AgentInv SttClient Template DographTools WorkflowLoad.
From S2P Require Import Pricing Services Qa Store CallAgent Config.

Local Open Scope Z_scope.

(** ** The call's variables *)

Abbreviation value := (Template.value (float64 := spec_float)).

(** [loadWorkflow]'s copy of the contact's variables, then the call's own. *)
Definition callVars (contact : list (bytes * value)) (caller called : bytes) : list (bytes * value) :=
  let vars := fold_left (fun m kv => put kv.1 kv.2 m) contact [] in
  put (bs "called_number") (VString called) (put (bs "caller_number") (VString caller) vars).

Inductive opening := OpenRecorded | OpenGreeting | OpenLLM.

(** ** The agent's configuration *)

(** [stt.Config] of the connection. *)
Record sttConfig := mkStt { stt_key : bytes; stt_model : bytes; stt_language : bytes; FlushSignal : bool }.

(** [agent.STTGateConfig]. *)
Record STTGateConfig := mkGate { g_Enabled : bool; g_Preroll : Z; g_Hangover : Z; g_RMSFloor : spec_float }.

(** Where events go. *)
Inductive sink := MetricsSink | LogSink | InterruptSink.

(** [Hooks]: whether the switch can transfer and is told of interruptions. *)
Record Hooks := mkHooks { hasTransfer : bool; hasInterrupted : bool }.

(** The clients and the [agent.Config] of [newAgentHandler]. *)
Record agentConfig := mkAgent {
  a_STT : sttConfig; a_TTS : TTSConfig;
  a_LLM : LLMConfig; a_usageKey : bytes; a_Retries : Z; a_RetryMaxWait : Z;
  a_Failures : LLMFailurePolicy; a_Start : option Node; a_IdleTimeout : Z; a_MaxDuration : Z;
  a_Transfer : bool; a_hold : bytes; a_beep : bytes; a_BargeIn : detector; a_ObserveOnly : bool; a_Guard : Z; a_MinSpeech : Z;
  a_FlushAfter : Z; a_Gate : STTGateConfig; a_PostCut : Z; a_AckFilter : bool; a_AckMargin : Z; a_sinks : list sink;
}.

Definition opening_of (n : Node) : opening :=
  if bool_decide (is_Some (GreetingClip n)) then OpenRecorded else if bool_decide (Greeting n <> []) then OpenGreeting else OpenLLM.

Definition sinks (h : Hooks) : list sink := [MetricsSink; LogSink] ++ (if hasInterrupted h then [InterruptSink] else []).

(** The settings that choose a call's handler. *)
Definition settings (c : Config) : CallAgent.config :=
  CallAgent.mkConfig (Config.TestSilentHandler c) (Config.AppMode c) (Config.VadMode c) (Config.BargeInEnabled c) (Config.DograhWorkflowID c).

(** The connection to the recogniser. *)
Definition sttSettings (c : Config) (s : services) : sttConfig :=
  mkStt (stt_APIKey (s_STT s)) (stt_Model (s_STT s)) (stt_Language (s_STT s)) ((0 <? Config.STTFlushAfter c) && bool_decide (Config.VadMode c = bs "ten")).

Definition agentOf (c : Config) (wf : Store.loaded) (native : bool) (h : Hooks) (hold beep : bytes) : agentConfig :=
  let s := l_Services wf in
  mkAgent (sttSettings c s) (s_TTS s)
    (s_LLM s) (usageKeyLLM ++ llm_Model (s_LLM s)) (LLMRetries c) (LLMRetryMaxWait c)
    (mkPolicy (LLMMaxFailedTurns c) (LLMFallbackText c) (tts_Language (s_TTS s)))
    (agent_node <$> l_nodes wf !! l_start wf) (Store.IdleTimeout wf) (Store.MaxDuration wf)
    (hasTransfer h) hold beep (newBargeInDetector (settings c) native) (negb (Config.BargeInEnabled c)) (Config.BargeInGuard c) (Config.BargeInMinSpeech c)
    (Config.STTFlushAfter c) (mkGate (STTSpeechOnly c) (STTPreroll c) (STTHangover c) (STTGateRMSFloor c))
    (Config.PostCutSilence c) (BargeInAckFilter c) (Config.AckEndMargin c) (sinks h).

(** ** [NewHandler] *)

(** The zero [Node], of a configuration without a start. *)
Definition zeroNode : Node := Workflow.mkNode [] [] [] [] None None false false false [] [].
Definition startNode (a : agentConfig) : Node := default zeroNode (a_Start a).

(** Only TEN VAD is a [speechClock]. *)
Definition clocked (a : agentConfig) : bool := match a_BargeIn a with DTen => true | _ => false end.

(** The event loop's configuration. *)
Definition loopConfig (a : agentConfig) : AgentState.Config :=
  AgentState.mkConfig true (a_IdleTimeout a) (a_MaxDuration a) (a_ObserveOnly a) (a_Guard a) (a_MinSpeech a) (a_FlushAfter a)
    (a_PostCut a) (a_AckFilter a) (a_AckMargin a) (clocked a).

(** The gate, if frames go through one. *)
Definition gateOf (a : agentConfig) : option STTGateConfig := if g_Enabled (a_Gate a) && clocked a then Some (a_Gate a) else None.

(** What is put into the fresh event buffer. *)
Definition firstEvent (n : Node) : option event :=
  if bool_decide (Greeting n <> []) || bool_decide (is_Some (GreetingClip n)) then Some GreetingEv
  else if bool_decide (node_Prompt n <> []) then Some OpeningEv else None.

(** The timer [run] starts with. *)
Definition maxTimer (a : agentConfig) : option Z := if 0 <? a_MaxDuration a then Some (a_MaxDuration a) else None.

(** ** [readSTT] *)

Inductive speech := PostSignal (ev : event) | PostFinal (ev : event).
Definition read_result (r : Result) : option speech :=
  match RSignal r with
  | NoSignal => if RFinal r then Some (PostFinal (FinalTranscript (RText r))) else None
  | SpeechStarted => Some (PostSignal (CallerSpeech true))
  | _ => Some (PostSignal (CallerSpeech false))
  end.

(** The goroutine: the results waiting in the channel, whether the client closed
    it, what is being posted, what was, whether the call's context is over and
    whether the goroutine has left. *)
Record feed := mkFeed { queue : list Result; shut : bool; posting : option speech; posted : list event; over : bool; left : bool }.
#[global] Instance eta_feed : Eta feed := fun s => mkFeed (queue s) (shut s) (posting s) (posted s) (over s) (left s).
Definition feed0 : feed := mkFeed [] false None [] false false.

(** A result or the close arrives; the goroutine reads, posts, or sees the
    context over: [post] then gives the signal up, the send of a transcript
    ends the goroutine. *)
Inductive label := SArrive (r : Result) | SClose | STake | SPost | SOver | SGone.

Definition event_of (p : speech) : event := match p with PostSignal ev | PostFinal ev => ev end.

Definition step (s : feed) (l : label) : option feed :=
  match l with
  | SArrive r => if shut s then None else Some (s <| queue ::= fun q => q ++ [r] |>)
  | SClose => Some (s <| shut := true |>)
  | STake =>
      if left s then None
      else match posting s, queue s with
           | None, r :: q => Some (s <| queue := q |> <| posting := read_result r |>)
           | None, [] => if shut s then Some (s <| left := true |>) else None
           | Some _, _ => None
           end
  | SPost => match posting s with Some p => Some (s <| posting := None |> <| posted ::= fun l => l ++ [event_of p] |>) | None => None end
  | SOver => Some (s <| over := true |>)
  | SGone =>
      if negb (over s) || left s then None
      else match posting s with
           | None => Some (s <| left := true |>)
           | Some (PostSignal _) => Some (s <| posting := None |>)
           | Some (PostFinal _) => Some (s <| posting := None |> <| left := true |>)
           end
  end.
Definition run (ls : list label) (s : feed) : option feed := fold_left (fun r l => s ← r; step s l) ls (Some s).

(** ** The call's numbers *)

Lemma field_cons k x y (m : list (bytes * value)) : Template.field ((x, y) :: m) k = if bool_decide (x = k) then Some y else Template.field m k.
Proof. unfold Template.field. simpl. by case_bool_decide. Qed.

Lemma field_put k k' (v : value) (m : list (bytes * value)) :
  Template.field (put k' v m) k = if bool_decide (k' = k) then Some v else Template.field m k.
Proof.
  induction m as [|[x y] m IH]; cbn [put]; [by rewrite field_cons|].
  destruct (bool_decide (x = k')) eqn:E; [apply bool_decide_eq_true in E as ->|apply bool_decide_eq_false in E]; rewrite !field_cons.
  - by destruct (bool_decide (k' = k)).
  - rewrite IH. case_bool_decide as E1; [|done]. subst. by rewrite bool_decide_false.
Qed.

Lemma put_keys k k' (v : value) m : k ∈ map fst (put k' v m) <-> k = k' \/ k ∈ map fst m.
Proof.
  induction m as [|[x y] m IH]; simpl; [rewrite elem_of_cons, elem_of_nil; tauto|].
  case_bool_decide as E; simpl; rewrite !elem_of_cons; [subst; tauto|]. rewrite IH. tauto.
Qed.

Lemma put_once k (v : value) m : NoDup (map fst m) -> NoDup (map fst (put k v m)).
Proof.
  induction m as [|[x y] m IH]; simpl; [intros _; apply NoDup_singleton|].
  intros [Hx Hm]%NoDup_cons. case_bool_decide as E; simpl; apply NoDup_cons; [by subst|].
  split; [|by apply IH]. rewrite put_keys. intros [->|H]; done.
Qed.

Lemma puts_once (l m : list (bytes * value)) : NoDup (map fst m) -> NoDup (map fst (fold_left (fun m kv => put kv.1 kv.2 m) l m)).
Proof. revert m. induction l as [|[k v] l IH]; intros m H; [done|]. apply IH. by apply put_once. Qed.

(** Assigning all of [l]: its own values, the others kept. *)
Lemma field_puts k (l m : list (bytes * value)) :
  NoDup (map fst l) ->
  Template.field (fold_left (fun m kv => put kv.1 kv.2 m) l m) k = match Template.field l k with Some v => Some v | None => Template.field m k end.
Proof.
  revert m. induction l as [|[x y] l IH]; intros m; [done|]. cbn [map]. intros [Hx Hl]%NoDup_cons. cbn [fold_left]. rewrite IH, field_put, field_cons by done.
  cbn [fst snd]. case_bool_decide as E; [subst|by destruct (Template.field l k)].
  assert (Template.field l k = None) as ->; [|done]. clear -Hx. induction l as [|[u v] l IH]; [done|]. cbn in Hx.
  rewrite field_cons, bool_decide_false by (intros ->; apply Hx; by left). apply IH. intros H. apply Hx. by right.
Qed.

Lemma callVars_numbers contact caller called :
  NoDup (map fst (callVars contact caller called)) /\
  Template.field (callVars contact caller called) (bs "caller_number") = Some (VString caller) /\
  Template.field (callVars contact caller called) (bs "called_number") = Some (VString called).
Proof.
  unfold callVars. split; [|by rewrite !field_put]. do 2 apply put_once. apply puts_once. constructor.
Qed.

(** ** How a call opens *)

Section opens.
Context `{U : Unicode}.
Variable cfg : AgentState.Config.
Variable e : env.

Definition spoken (w : list AgentState.effect) : list bytes := omap (fun x => match x with ESpeak t _ => Some t | _ => None end) w.

Lemma spoken_app v w : spoken (v ++ w) = spoken v ++ spoken w.
Proof. apply omap_app. Qed.

Lemma speak_chunks_run l gen s :
  speak_ok e = true -> exists w, speak_chunks e l gen s = (tt, s, w) /\ spoken w = l.
Proof.
  intros He. induction l as [|c l (w & E & H)]; [by exists []|].
  cbn [speak_chunks]. unfold sendToTTS. rewrite He. unfold mseq, AgentState.emit, memit. rewrite E.
  eexists. split; [reflexivity|]. cbn. by f_equal.
Qed.

Lemma mseq_run {S W A B} (m : M S W A) (k : A -> M S W B) s a s1 w1 b s2 w2 :
  m s = (a, s1, w1) -> k a s1 = (b, s2, w2) -> mseq m k s = (b, s2, w1 ++ w2).
Proof. intros E1 E2. unfold mseq. by rewrite E1, E2. Qed.

(** The state once the synthesizer is open. *)
Lemma openTTS_run s :
  tts_opens e = true -> tts s = None ->
  exists s', openTTS e s = (true, s', [EOpenTTS (ttsConn s + 1)]) /\ curGen s' = curGen s /\ state s' = state s /\
    tts s' = Some (ttsConn s + 1) /\ history s' = history s.
Proof.
  intros Ht Hn. unfold openTTS. cbv [mseq mread]. rewrite Hn, Ht. eexists. split; [reflexivity|]. by destruct s.
Qed.

Lemma startTurnChunks_run s :
  exists s', startTurnChunks s = (tt, s', []) /\ curGen s' = curGen s /\ state s' = state s /\ tts s' = tts s /\ ttsConn s' = ttsConn s /\
    history s' = history s.
Proof. eexists. split; [reflexivity|]. by destruct s. Qed.

(** What a greeting is heard as, from its clip or its text. *)
Definition greeted (n : Node) (w : list AgentState.effect) : Prop :=
  match GreetingClip n with
  | Some clip => w = [EPlay (clip_Transcript clip) (clip_PCM clip) 1]
  | None => exists rest, concat (spoken w) ++ rest = Greeting n /\ hasLetterOrDigit rest = false
  end.

Definition greeting_rest (n : Node) (gen : Z) : AgentState.act unit :=
  match GreetingClip n with
  | Some clip => playClip e clip (clip_Transcript clip) gen ;; AgentState.emit (EEndGeneration gen)
  | None =>
      let '(chunks, rest) := Feed [] (Greeting n) in
      speak_chunks e chunks gen ;;
      let remainder := (Flush rest).1 in
      mwhen (negb (bool_decide (remainder = []))) (sendToTTS e remainder gen) ;;
      AgentState.emit (EEndGeneration gen)
  end%m.

Lemma greeting_rest_run n s :
  speak_ok e = true -> exists w, greeting_rest n 1 s = (tt, s, w ++ [EEndGeneration 1]) /\ greeted n w.
Proof.
  intros Hs. unfold greeting_rest, greeted. destruct (GreetingClip n) as [clip|].
  - unfold playClip, AgentState.emit. rewrite Hs. by eexists [_].
  - destruct (Feed [] (Greeting n)) as [chunks rest] eqn:Ef. pose proof (Feed_lossless [] (Greeting n)) as Hl. rewrite Ef in Hl. destruct Hl as (Hl & _ & _).
    destruct (speak_chunks_run chunks 1 s Hs) as (w & Ew & Hw). rewrite <- Hw in Hl. destruct (Flush_spec rest) as [_ Hr].
    unfold sendToTTS, AgentState.emit. rewrite Hs. cbv [mseq memit mret]. rewrite Ew. unfold mwhen.
    destruct (bool_decide ((Flush rest).1 = [])) eqn:Eb; cbn [negb]; cbv [mret].
    + apply bool_decide_eq_true in Eb. exists w. split; [done|]. exists rest. split; [done|]. destruct Hr as [Hr|[_ Hr]]; [|done].
      rewrite <- Hr, Eb. done.
    + apply bool_decide_eq_false in Eb. destruct Hr as [Hr|[Hr _]]; [|done]. exists (w ++ [ESpeak (Flush rest).1 1; ETTSChars (Z.of_nat (length (runes (Flush rest).1)))]). split; [by rewrite <- !app_assoc|].
      exists []. split; [|done]. rewrite spoken_app, concat_app. cbn. by rewrite !app_nil_r, Hr.
Qed.

(** The first step of a call that greets. *)
Lemma greeting_opens n :
  tts_opens e = true -> speak_ok e = true ->
  exists w s, handleEvent cfg n e GreetingEv (NewHandler n) = (tt, s, EOpenTTS 1 :: w ++ [EEndGeneration 1]) /\ state s = StateThinking /\ greeted n w.
Proof.
  intros Ht Hs. cbn [handleEvent].
  assert (H0 : exists s, AgentState.upd (fun s => s <| state := StateThinking |> <| curGen ::= Z.succ |> <| turnStartedAt := AgentState.now e |>) (NewHandler n) = (tt, s, []) /\
    curGen s = 1 /\ state s = StateThinking /\ tts s = None /\ ttsConn s = 0) by (eexists; split; [reflexivity|]; by split_and!).
  destruct H0 as (s0 & E0 & G0 & S0 & T0 & C0). destruct (startTurnChunks_run s0) as (s1 & E1 & G1 & S1 & T1 & C1 & _).
  destruct (openTTS_run s1 Ht) as (s2 & E2 & G2 & S2 & _); [congruence|]. destruct (greeting_rest_run n s2 Hs) as (w & Ew & Hw).
  exists w, s2. split; [|split; [congruence|done]]. replace (ttsConn s1 + 1) with 1 in E2 by lia.
  assert (Eg : curGen s2 = 1) by congruence. rewrite <- Eg in Ew at 1.
  unfold handleGreeting. change (EOpenTTS 1 :: w ++ [EEndGeneration 1]) with ([] ++ [] ++ [EOpenTTS 1] ++ w ++ [EEndGeneration 1]).
  eapply mseq_run; [exact E0|]. eapply mseq_run; [exact E1|]. eapply mseq_run; [exact E2|]. cbn [negb]. rewrite mread_seq_at. exact Ew.
Qed.

(** And of one whose agent speaks first. *)
Lemma opening_opens n :
  tts_opens e = true ->
  exists s, handleEvent cfg n e OpeningEv (NewHandler n) = (tt, s, [ETurnStarted; EOpenTTS 1; EStartLLM 1 [] 1]) /\ state s = StateThinking.
Proof.
  intros Ht. cbn [handleEvent]. unfold startTurn.
  assert (H0 : exists s, stopIdleTimer (NewHandler n) = (tt, s, []) /\ curGen s = 0 /\ tts s = None /\ ttsConn s = 0 /\ history s = []) by
    (eexists; split; [reflexivity|]; by split_and!).
  destruct H0 as (s0 & E0 & G0 & T0 & C0 & Hh).
  assert (H1 : exists s, AgentState.upd (fun s => s <| state := StateThinking |>) s0 = (tt, s, []) /\ curGen s = 0 /\ tts s = None /\ ttsConn s = 0 /\ history s = [] /\
    state s = StateThinking) by (eexists; split; [reflexivity|]; by destruct s0; split_and!).
  destruct H1 as (s1 & E1 & G1 & T1 & C1 & H1 & S1).
  assert (H2 : exists s, AgentState.upd (fun s => s <| curGen ::= Z.succ |> <| turnStartedAt := AgentState.now e |> <| turnSpeechEndAt := None |> <| turnLastSoundAt := None |>) s1 =
      (tt, s, []) /\ curGen s = 1 /\ tts s = None /\ ttsConn s = 0 /\ history s = [] /\ state s = StateThinking).
  { eexists. split; [reflexivity|]. destruct s1. cbn in *. subst. by split_and!. }
  destruct H2 as (s2 & E2 & G2 & T2 & C2 & H2 & S2). destruct (startTurnChunks_run s2) as (s3 & E3 & G3 & S3 & T3 & C3 & H3).
  destruct (openTTS_run s3 Ht) as (s4 & E4 & G4 & S4 & T4 & H4); [congruence|]. replace (ttsConn s3 + 1) with 1 in * by lia.
  eexists. split.
  - change [ETurnStarted; EOpenTTS 1; EStartLLM 1 [] 1] with ([] ++ [] ++ [ETurnStarted] ++ [] ++ [] ++ [EOpenTTS 1] ++ [EStartLLM 1 [] 1]).
    eapply mseq_run; [exact E0|]. eapply mseq_run; [exact E1|]. eapply mseq_run; [reflexivity|]. eapply mseq_run; [exact E2|]. eapply mseq_run; [exact E3|].
    eapply mseq_run; [exact E4|]. cbv iota. rewrite mread_seq_at. change [EStartLLM 1 [] 1] with ([] ++ [EStartLLM 1 [] 1]).
    eapply mseq_run; [reflexivity|]. replace (curGen s4) with 1 by congruence. replace (history s4) with (@nil Message) by congruence. by rewrite T4.
  - destruct s4. cbn in *. congruence.
Qed.

End opens.

(** ** What a configuration rules out *)

Section ruled.
Context `{U : Unicode}.
Variable cfg : AgentState.Config.
Variable start : Node.

Ltac whole := unfold agent_step; unfold_handlers; unfold handleTTSAudio, first_audio, startTurn, startTurnChunks, openTTS, stopIdleTimer, AgentState.upd, AgentState.emit.

(** Nothing interrupts the agent. *)
Definition interruption (x : AgentState.effect) : bool := match x with EBargeIn | EInterruptionPaused | EFalseInterruption => true | _ => false end.
Definition calm (s : st) (w : list AgentState.effect) (s' : st) : Prop := paused s = false -> paused s' = false /\ existsb interruption w = false.

#[global] Instance calm_rel : StepRel calm.
Proof.
  split; unfold calm; [done|]. intros s1 w1 s2 w2 s3 H1 H2 P. destruct (H1 P) as [P2 W1]. destruct (H2 P2) as [P3 W2].
  by rewrite existsb_app, W1, W2.
Qed.
Ltac calm_tac := unfold calm; simpl; solve [repeat case_match; simpl; done | rewrite andb_false_r in *; done].
Ltac calm_auto := does_auto calm_tac.

Lemma calm_queue_frames n gen req : does calm (queue_frames n gen req).
Proof. induction n as [|n IH]; simpl; unfold AgentState.upd, AgentState.emit; calm_auto. Qed.
Lemma calm_speak_chunks e l gen : does calm (speak_chunks e l gen).
Proof. induction l as [|c l IH]; simpl; unfold sendToTTS, AgentState.emit; calm_auto. Qed.
Lemma calm_hangup : does calm (hangup cfg).
Proof. unfold hangup, AgentState.upd, AgentState.emit. calm_auto. Qed.
#[local] Hint Resolve calm_queue_frames calm_speak_chunks calm_hangup : does.

(** A paused reply: nothing is claimed. *)
Lemma calm_paused {A} (m : AgentState.act A) s : paused s = true -> does_at calm m s.
Proof. intros P P'. congruence. Qed.

Lemma calm_transcript e text : does calm (handleFinalTranscript cfg e text).
Proof.
  intros s. destruct (paused s) eqn:P; [by apply calm_paused|]. unfold handleFinalTranscript. apply does_at_read. rewrite P.
  whole. calm_auto.
Qed.
Lemma calm_resumeCheck e seq : does calm (handleResumeCheck cfg e seq).
Proof.
  intros s. destruct (paused s) eqn:P; [by apply calm_paused|]. unfold handleResumeCheck. apply does_at_read. rewrite P, orb_true_r. apply does_at_ret, _.
Qed.
Lemma calm_speaking e pcm : BargeInObserveOnly cfg = true -> does calm (processSpeakingFrame cfg e pcm).
Proof.
  intros Ho. unfold processSpeakingFrame, interruptible. rewrite Ho. cbn [negb andb]. whole. calm_auto.
Qed.
#[local] Hint Resolve calm_transcript calm_resumeCheck calm_speaking : does.

Lemma calm_step l : BargeInObserveOnly cfg = true -> does calm (agent_step cfg start l).
Proof.
  intros Ho. pose proof (fun e pcm => calm_speaking e pcm Ho).
  destruct l; unfold agent_step; [|unfold ProcessFrame, feed_part, processHoldFrame, maybeFlushSTT, AgentState.upd, AgentState.emit; calm_auto|whole; calm_auto..].
  intros s. apply does_at_call; [apply _| |by intros; apply does_at_ret, _].
  destruct i as [ev| | |]; [destruct ev|..]; first [apply calm_transcript | apply calm_resumeCheck | whole; calm_auto].
Qed.

(** And a flush is sent only when flushing is on and there is a clock. *)
Definition flushes : bool := (0 <? AgentState.STTFlushAfter cfg) && hasClock cfg.
Definition is_flush (x : AgentState.effect) : bool := match x with EFlushSTT => true | _ => false end.
Definition timely (s : st) (w : list AgentState.effect) (s' : st) : Prop := existsb is_flush w = false.

#[global] Instance timely_rel : StepRel timely.
Proof. split; unfold timely; [done|]. intros s1 w1 s2 w2 s3 H1 H2. by rewrite existsb_app, H1, H2. Qed.
Ltac timely_auto := does_auto ltac:(unfold timely; simpl; repeat case_match; done).

Lemma timely_queue_frames n gen req : does timely (queue_frames n gen req).
Proof. induction n as [|n IH]; simpl; unfold AgentState.upd, AgentState.emit; timely_auto. Qed.
Lemma timely_speak_chunks e l gen : does timely (speak_chunks e l gen).
Proof. induction l as [|c l IH]; simpl; unfold sendToTTS, AgentState.emit; timely_auto. Qed.
#[local] Hint Resolve timely_queue_frames timely_speak_chunks : does.
Lemma timely_hangup : does timely (hangup cfg).
Proof. unfold hangup, AgentState.upd, AgentState.emit. timely_auto. Qed.
Lemma timely_speaking e pcm : does timely (processSpeakingFrame cfg e pcm).
Proof. whole. timely_auto. Qed.
#[local] Hint Resolve timely_hangup timely_speaking : does.

Lemma timely_step l : flushes = false -> does timely (agent_step cfg start l).
Proof.
  unfold flushes. intros Hf. destruct l; [whole; timely_auto| |whole; timely_auto..].
  unfold agent_step, ProcessFrame, feed_part. rewrite Hf. unfold processHoldFrame, mwhen at 2, AgentState.upd, AgentState.emit. timely_auto.
Qed.
End ruled.

(** ** The recogniser's results reach the event loop *)

Definition events (rs : list Result) : list event := omap (fun r => event_of <$> read_result r) rs.
Definition arrived (ls : list label) : list Result := omap (fun l => match l with SArrive r => Some r | _ => None end) ls.
Definition unposted (s : feed) : list event := match posting s with Some p => [event_of p] | None => [] end.
Definition ahead (s : feed) : list event := unposted s ++ events (queue s).

Record fed (rs : list Result) (s : feed) : Prop := {
  f_order : posted s ++ ahead s `sublist_of` events rs;
  f_all : over s = false -> posted s ++ ahead s = events rs;
  f_left : left s = true -> over s = true \/ ahead s = [] /\ shut s = true;
}.

Lemma events_app a b : events (a ++ b) = events a ++ events b.
Proof. apply omap_app. Qed.

(** A result read, as what is to be posted and what is still queued. *)
Lemma events_cons r q : events (r :: q) = match read_result r with Some p => [event_of p] | None => [] end ++ events q.
Proof. unfold events. cbn. by destruct (read_result r). Qed.

Lemma arrive_fed rs s r : shut s = false -> fed rs s -> fed (rs ++ [r]) (s <| queue ::= fun q => q ++ [r] |>).
Proof.
  intros Hs [H1 H2 H3]. destruct s as [q sh p o ov lf]. unfold ahead, unposted in *. cbn in *. split; unfold ahead, unposted; cbn.
  - rewrite !events_app, !app_assoc. apply sublist_app; [by rewrite <- app_assoc|done].
  - intros Ho. rewrite !events_app, !app_assoc. f_equal. rewrite <- app_assoc. auto.
  - intros Hl. destruct (H3 Hl) as [?|[_ ?]]; [by left|congruence].
Qed.

(** What keeps what was posted and is ahead, loses some of it once the context
    is over, or leaves. *)
Lemma fed_same rs s s' :
  fed rs s -> posted s' ++ ahead s' `sublist_of` posted s ++ ahead s ->
  (over s' = false -> posted s' ++ ahead s' = posted s ++ ahead s) -> (over s = true -> over s' = true) ->
  (left s' = true -> over s' = true \/ ahead s' = [] /\ shut s' = true) -> fed rs s'.
Proof.
  intros [H1 H2 H3] Hs He Ho Hl. split; [by etrans|intros Hn|done]. rewrite He by done. apply H2. destruct (over s); [by rewrite Ho in Hn|done].
Qed.

Lemma step_fed rs s l s' : fed rs s -> step s l = Some s' -> fed (rs ++ arrived [l]) s'.
Proof.
  intros F. destruct l; cbn [step]; try change (arrived _) with (@nil Result); rewrite ?app_nil_r.
  - destruct (shut s) eqn:E; intros [= <-]. by apply arrive_fed.
  - intros [= <-]. pose proof (f_left _ _ F). apply (fed_same _ _ _ F); destruct s; cbn in *; naive_solver.
  - destruct (left s) eqn:El; [done|]. destruct (posting s) eqn:Ep; [done|]. destruct (queue s) as [|r q] eqn:Eq.
    + destruct (shut s) eqn:Es; intros [= <-]. apply (fed_same _ _ _ F); try (by destruct s). intros _. right. destruct s. cbn in *. subst. by split.
    + intros [= <-]. apply (fed_same _ _ _ F); destruct s; cbn in *; subst; unfold ahead, unposted; cbn; rewrite ?events_cons; try done.
      all: by destruct (read_result r).
  - destruct (posting s) as [p|] eqn:Ep; intros [= <-]. pose proof (f_left _ _ F).
    apply (fed_same _ _ _ F); destruct s; cbn in *; subst; unfold ahead, unposted in *; cbn in *; rewrite <- ?app_assoc; try done. naive_solver.
  - intros [= <-]. apply (fed_same _ _ _ F); destruct s; cbn; try done. by left.
  - destruct (over s) eqn:Eo; [|done]. destruct (left s) eqn:El; [done|]. cbn [negb orb].
    destruct (posting s) as [[ev|ev]|] eqn:Ep; intros [= <-]; apply (fed_same _ _ _ F); destruct s; cbn in *; subst; try done; try (by left);
      unfold ahead, unposted; cbn; by apply sublist_app, sublist_cons.
Qed.

Lemma run_fed ls s : run ls feed0 = Some s -> fed (arrived ls) s.
Proof.
  revert s. induction ls as [|l ls IH] using rev_ind; intros s; unfold run; [intros [= <-]; by split|]. rewrite fold_left_app. cbn. fold (run ls feed0).
  destruct (run ls feed0) as [s1|] eqn:E; cbn; [|done]. intros Hs. unfold arrived. rewrite omap_app. eapply step_fed; eauto.
Qed.

(** The event loop gets each final transcript and speech signal once, in the
    order the recogniser gave them; until the call's context is over none is
    lost, and a reader that leaves before has handed over all of them. *)
Theorem readSTT_in_order (ls : list label) (s : feed) :
  run ls feed0 = Some s ->
  posted s `sublist_of` events (arrived ls) /\
  (over s = false -> posted s ++ ahead s = events (arrived ls) /\ (left s = true -> posted s = events (arrived ls))).
Proof.
  intros R. apply run_fed in R as [H1 H2 H3]. split.
  - etrans; [|exact H1]. by apply sublist_inserts_r.
  - intros Ho. split; [by apply H2|]. intros Hl. destruct (H3 Hl) as [?|[Ha _]]; [congruence|]. specialize (H2 Ho). by rewrite Ha, app_nil_r in H2.
Qed.

Example readSTT_ex :
  posted <$> run [SArrive (mkResult [] false SpeechStarted); SArrive (mkResult (bs "hel") false NoSignal); STake; SArrive (mkResult (bs "hello") true NoSignal);
                  SPost; STake; STake; SPost; SClose; STake] feed0 =
  Some [CallerSpeech true; FinalTranscript (bs "hello")].
Proof. vm_compute. done. Qed.

(** ** What the configuration promises the call *)

(** C15: The agent of a call, under a configuration that loads, in whatever order
    its event loop, media ticks and tools run: it flushes the recogniser only
    on a connection that was opened for flushing; with barge-in switched off,
    the caller never pauses or interrupts it; and frames go through the speech
    gate only with a voice-activity clock and a hangover longer than the flush. *)
Theorem agent_as_configured `{U : Unicode} (ParseFloat : bytes -> option spec_float) (env : environ) (c : Config) (wf : Store.loaded)
    (native : bool) (h : Hooks) (hold beep : bytes) (ls : list AgentInv.label) :
  Load ParseFloat env = Ok c ->
  let a := agentOf c wf native h hold beep in
  let out := mout (agent_run (loopConfig a) (startNode a) ls) (NewHandler (startNode a)) in
  (existsb is_flush out = true -> FlushSignal (a_STT a) = true) /\
  (Config.BargeInEnabled c = false -> existsb interruption out = false) /\
  (forall g, gateOf a = Some g -> hasClock (loopConfig a) = true /\ (0 < AgentState.STTFlushAfter (loopConfig a) -> AgentState.STTFlushAfter (loopConfig a) < g_Hangover g)).
Proof.
  intros H a out. apply load_valid in H as [V _].
  assert (Hc : clocked a = true -> Config.VadMode c = bs "ten").
  { unfold a, clocked, agentOf, newBargeInDetector, settings. cbn. case_bool_decide; [done|]. cbn. by destruct (Config.BargeInEnabled c). }
  split_and!.
  - intros Hf. destruct (flushes (loopConfig a)) eqn:E.
    + apply andb_true_iff in E as [E1 E2]. cbn in E1, E2 |- *. by rewrite E1, bool_decide_true by auto.
    + pose proof (does_run (loopConfig a) (startNode a) timely ls (fun l => timely_step _ _ l E) (NewHandler (startNode a))) as T.
      unfold does_at, timely in T. unfold out in Hf. congruence.
  - intros Hb. assert (Ho : BargeInObserveOnly (loopConfig a) = true) by (cbn; by rewrite Hb).
    pose proof (does_run (loopConfig a) (startNode a) calm ls (fun l => calm_step _ _ l Ho) (NewHandler (startNode a))) as T. by apply T.
  - intros g. unfold gateOf. destruct (g_Enabled (a_Gate a)) eqn:Eg; [|done]. destruct (clocked a) eqn:Ec; [|done]. cbn. intros [= <-]. split; [done|].
    by apply (v_gate _ V).
Qed.

(** Every call knows both its numbers, whatever variables its contact and
    workflow carry. And its agent opens as the start node says: the first event
    is a greeting, a turn of the model or nothing; a greeting's clip, or its text
    but for an end without letters, is handed whole to the synthesizer, and an
    opening turn asks the model with nothing said yet. *)
Theorem call_opens `{U : Unicode} (cfg : AgentState.Config) (e : AgentState.env) (n : Node) (decodeVars : bytes -> option (list (bytes * value)))
    (row : definitionRow) (contact : list (bytes * value)) (caller called : bytes) :
  tts_opens e = true -> speak_ok e = true ->
  let vars := callVariables decodeVars row (callVars contact caller called) in
  (Template.field vars (bs "caller_number") = Some (VString caller) /\ Template.field vars (bs "called_number") = Some (VString called)) /\
  match firstEvent n with
  | None => opening_of n = OpenLLM /\ node_Prompt n = []
  | Some ev =>
      exists s w, handleEvent cfg n e ev (NewHandler n) = (tt, s, w) /\ state s = StateThinking /\
        match opening_of n with
        | OpenLLM => w = [ETurnStarted; EOpenTTS 1; EStartLLM 1 [] 1]
        | _ => exists v, w = EOpenTTS 1 :: v ++ [EEndGeneration 1] /\ greeted n v
        end
  end.
Proof.
  intros Ht Hs vars. split.
  - destruct (callVars_numbers contact caller called) as (Hn & H1 & H2). unfold vars, callVariables. by rewrite !field_puts, H1, H2.
  - unfold firstEvent, opening_of. destruct (greeting_opens cfg e n Ht Hs) as (w & s & E & S & G). destruct (opening_opens cfg e n Ht) as (s' & E' & S').
    assert (Hg : exists v, EOpenTTS 1 :: w ++ [EEndGeneration 1] = EOpenTTS 1 :: v ++ [EEndGeneration 1] /\ greeted n v) by (by exists w).
    destruct (bool_decide (is_Some (GreetingClip n))); [rewrite orb_true_r; eexists s, _; split; [exact E|by split]|]. rewrite orb_false_r.
    destruct (bool_decide (Greeting n <> [])); [eexists s, _; split; [exact E|by split]|].
    case_bool_decide as Ep; [eexists s', _; split; [exact E'|by split]|]. split; [done|]. by destruct (node_Prompt n).
Qed.

Definition hello : Node := Workflow.mkNode [] (bs "start") (bs "Be brief.") (bs "Hello. Who is it? ") None None false true false [] [].

Definition plain : AgentState.Config := AgentState.mkConfig true 0 0 true 0 0 0 0 false 0 false.
Definition at_ease : AgentState.env := mkEnv 0 None true true true true true false.
Definition bare_row : definitionRow := mkDefinition 1 [] [] [] [] None [].

Example call_opens_witness :
  (exists s w, handleEvent plain hello at_ease GreetingEv (NewHandler hello) = (tt, s, w) /\ state s = StateThinking) /\
  Template.field (callVariables (fun _ => None) bare_row (callVars [(bs "caller_number", VString (bs "1"))] (bs "2") (bs "3"))) (bs "caller_number") = Some (VString (bs "2")).
Proof.
  destruct (call_opens plain at_ease hello (fun _ => None) bare_row [(bs "caller_number", VString (bs "1"))] (bs "2") (bs "3") eq_refl eq_refl)
    as ([H _] & s & w & E & S & _).
  split; [exists s, w; by split|exact H].
Defined.

Definition bare_workflow : Store.loaded :=
  mkLoaded [] 0 1 None (mkServices (mkLLMConfig [] [] [] []) (mkSTTConfig [] [] []) (mkTTSConfig [] [] [] [])) 0 0 (Qa.mkQAConfig [] ∅ ∅ Qa.no_llm).
Definition quiet_frames : list AgentInv.label := [LRun at_ease (Event (CallerSpeech true)); LFrame at_ease [0; 0]].

Example agent_as_configured_witness :
  exists c, Load few_floats test_env = Ok c /\
    forall g, gateOf (agentOf c bare_workflow true (mkHooks true true) [] []) = Some g -> 0 < STTFlushAfter c -> STTFlushAfter c < g_Hangover g.
Proof.
  destruct (Load few_floats test_env) as [c|x] eqn:E; [|exfalso; pose proof ex_loads as H; rewrite E in H; discriminate H].
  exists c. split; [done|]. destruct (agent_as_configured few_floats test_env c bare_workflow true (mkHooks true true) [] [] quiet_frames E) as (_ & _ & H).
  intros g Hg. destruct (H g Hg) as [_ H']. exact H'.
Defined.

(** The native detector is missing: nothing is flushed, though the connection
    was opened for flushing, and every frame is sent. *)
Example flush_unsent :
  (fun c => let a := agentOf c bare_workflow false (mkHooks true true) [] [] in (FlushSignal (a_STT a), hasClock (loopConfig a), gateOf a)) <$> loaded (Load few_floats test_env) =
  Some (true, false, None).
Proof. vm_compute. done. Qed.
