(* ===== verification/Metrics.v ===== *)
(** [internal/metrics/agent.go] and the [Sink]s of [internal/ai/agent]
    (calllog.go's [Sinks] and [CallLog]): where an agent's events are counted,
    and what the counters of all calls together tell.

    A Prometheus counter is its value, a vector its series, a histogram what it
    observed. *)

From Stdlib Require Import String.
From stdpp Require Import gmap.
From S2P Require Import Prelude Text CallLog Workflow AgentState AgentLoop AgentFrame AgentInv.

Local Open Scope Z_scope.

(** ** Sinks *)

(** A call of one of [Sink]'s methods. *)
Inductive sinkEvent :=
  | SBargeIn | SInterruptionPaused | SFalseInterruption | STurnStarted
  | SError (stage : bytes) | STTFB (service : bytes) (d : Z) | SLLMFallback (kind : bytes) | SToolCall (tool : bytes) (ok : bool) (d : Z).

Class Sink (T : Type) := on : sinkEvent -> T -> T.

(** [NoopSink]. *)
#[global] Instance NoopSink : Sink unit := fun _ t => t.

(** A [CallLog] counts for the call's summary. *)
#[global] Instance CallLogSink {json : Type} : Sink (CallLog.t (json := json)) := fun ev l =>
  match ev with
  | SBargeIn => BargeIn l
  | SInterruptionPaused => InterruptionPaused l
  | SFalseInterruption => FalseInterruption l
  | STurnStarted => TurnStarted l
  | SError stage => Error stage l
  | STTFB _ _ | SLLMFallback _ | SToolCall _ _ _ => l
  end.

(** [multiSink]: every event to each in turn. *)
#[global] Instance multiSink {A B} `{Sink A, Sink B} : Sink (A * B) := fun ev s => (on ev s.1, on ev s.2).

Definition deliver {T} `{Sink T} (evs : list sinkEvent) (t : T) : T := fold_left (fun t ev => on ev t) evs t.

(** ** The process's counters *)

Abbreviation counters := (gmap bytes Z).
Definition WithLabelValues (l : bytes) (m : counters) : counters := <[l := default 0 (m !! l)]> m.
Definition inc (l : bytes) (m : counters) : counters := <[l := default 0 (m !! l) + 1]> m.

Record registry := mkRegistry {
  AgentBargeInTotal : Z; AgentInterruptionPausesTotal : Z; AgentFalseInterruptionsTotal : Z; AgentTurnsTotal : Z;
  AgentErrorsTotal : counters; LLMRetriesTotal : counters; LLMFallbackTotal : counters; CallsStartedTotal : counters; CampaignOutcomesTotal : counters;
  LLMTTFTMs : list Z; TTSTTFAMs : list Z; STTEndpointMs : list Z;
  ToolCallsTotal : gmap (bytes * bytes) Z; ToolCallDurationMs : gmap bytes (list Z);
}.
#[global] Instance eta_registry : Eta registry := fun r => mkRegistry
  (AgentBargeInTotal r) (AgentInterruptionPausesTotal r) (AgentFalseInterruptionsTotal r) (AgentTurnsTotal r)
  (AgentErrorsTotal r) (LLMRetriesTotal r) (LLMFallbackTotal r) (CallsStartedTotal r) (CampaignOutcomesTotal r)
  (LLMTTFTMs r) (TTSTTFAMs r) (STTEndpointMs r) (ToolCallsTotal r) (ToolCallDurationMs r).

(** [init]: the series that exist from the start. *)
Definition series (ls : list string) : counters := fold_left (fun m l => WithLabelValues (bs l) m) ls ∅.
Definition init : registry := mkRegistry 0 0 0 0
  (series ["stt"; "llm"; "tts_open"; "tts_speak"; "tts_cancel"; "tts_outbound_full"; "tts_closed"; "tts_drain_timeout"]%string)
  (series ["recovered"; "exhausted"]%string) (series ["apology"; "hangup"]%string) (series ["inbound"; "outbound"]%string)
  (series ["connected"; "busy"; "no-answer"; "rejected"; "failed"]%string)
  [] [] [] ∅ ∅.

Definition LLMRetry (result : bytes) (r : registry) : registry := r <| LLMRetriesTotal ::= inc result |>.

(** [Duration.Milliseconds]. *)
Definition Milliseconds (d : Z) : Z := Z.quot d 1000000.

#[global] Instance AgentSink : Sink registry := fun ev r =>
  match ev with
  | SBargeIn => r <| AgentBargeInTotal ::= Z.succ |>
  | SInterruptionPaused => r <| AgentInterruptionPausesTotal ::= Z.succ |>
  | SFalseInterruption => r <| AgentFalseInterruptionsTotal ::= Z.succ |>
  | STurnStarted => r <| AgentTurnsTotal ::= Z.succ |>
  | SError stage => r <| AgentErrorsTotal ::= inc stage |>
  | SLLMFallback kind => r <| LLMFallbackTotal ::= inc kind |>
  | STTFB service d =>
      if bool_decide (service = bs "llm") then r <| LLMTTFTMs ::= fun l => l ++ [Milliseconds d] |>
      else if bool_decide (service = bs "tts") then r <| TTSTTFAMs ::= fun l => l ++ [Milliseconds d] |>
      else if bool_decide (service = bs "stt") then r <| STTEndpointMs ::= fun l => l ++ [Milliseconds d] |> else r
  | SToolCall tool ok d =>
      let k := (tool, bs (if ok then "ok" else "error")) in
      r <| ToolCallsTotal ::= fun m => <[k := default 0 (m !! k) + 1]> m |>
        <| ToolCallDurationMs ::= fun m => <[tool := default [] (m !! tool) ++ [Milliseconds d]]> m |>
  end.

(** What the agent's effects are to its sink. *)
Definition stage_name (s : stage) : bytes :=
  bs match s with
     | StStt => "stt" | StTtsOpen => "tts_open" | StTtsSpeak => "tts_speak" | StTtsCancel => "tts_cancel"
     | StTtsClosed => "tts_closed" | StTtsDrain => "tts_drain_timeout" | StTtsFull => "tts_outbound_full" | StLlm => "llm"
     end.
Definition sink_event (x : effect) : option sinkEvent :=
  match x with
  | EBargeIn => Some SBargeIn
  | EInterruptionPaused => Some SInterruptionPaused
  | EFalseInterruption => Some SFalseInterruption
  | ETurnStarted => Some STurnStarted
  | EError s => Some (SError (stage_name s))
  | ETTFB service d => Some (STTFB (bs (if service =? 0 then "stt" else if service =? 1 then "llm" else "tts")) d)
  | _ => None
  end.

(** ** Interruptions add up *)

Definition tally (p : effect -> bool) (w : list effect) : Z := Z.of_nat (length (List.filter p w)).
Definition is_cut (x : effect) : bool := match x with EBargeIn | EFalseInterruption => true | _ => false end.
Definition is_pause (x : effect) : bool := match x with EInterruptionPaused => true | _ => false end.

Lemma tally_app p v w : tally p (v ++ w) = tally p v + tally p w.
Proof. unfold tally. rewrite List.filter_app, length_app. lia. Qed.

(** Each confirmed or false interruption had its pause, and the pause that is
    on is still to come to either. *)
Definition paid (s : st) (w : list effect) (s' : st) : Prop := tally is_cut w + Z.b2z (paused s') <= Z.b2z (paused s) + tally is_pause w.
#[global] Instance paid_rel : StepRel paid.
Proof.
  split; unfold paid; [by intros s; destruct (paused s)|]. intros s1 w1 s2 w2 s3 H1 H2. rewrite !tally_app. lia.
Qed.

Lemma does_at_mod_emit {S W A} (R : S -> list W -> S -> Prop) `{!StepRel R} f w (k : unit -> M S W A) s :
  R s [w] (f s) -> does_at R (k tt) (f s) -> does_at R (mseq (mmod f) (fun _ => mseq (memit w) k)) s.
Proof.
  unfold does_at, mout, mstate, mseq, mmod, memit. destruct (k tt (f s)) as [[a s'] w']. simpl. intros H1 H2. by apply (step_app s [w] (f s) w').
Qed.

Section paid.
Context `{U : Unicode}.
Variable cfg : Config.
Variable start : Node.

Ltac paid_tac := unfold paid, tally; simpl; repeat case_match; simpl; lia.
Ltac paid_auto := does_auto paid_tac.
Ltac whole := unfold agent_step; unfold_handlers; unfold handleTTSAudio, first_audio, startTurn, startTurnChunks, openTTS, stopIdleTimer, upd, emit.

Lemma paid_queue_frames n gen req : does paid (queue_frames n gen req).
Proof. induction n as [|n IH]; simpl; unfold upd, emit; paid_auto. Qed.
Lemma paid_speak_chunks e l gen : does paid (speak_chunks e l gen).
Proof. induction l as [|c l IH]; simpl; unfold sendToTTS, emit; paid_auto. Qed.
Lemma paid_hangup : does paid (hangup cfg).
Proof. unfold hangup, upd, emit. paid_auto. Qed.
#[local] Hint Resolve paid_queue_frames paid_speak_chunks paid_hangup : does.

Lemma paid_resume b s : paused s = true -> does_at paid (resumeReply b) s.
Proof.
  intros P. unfold resumeReply, upd, emit. destruct b; unfold mwhen.
  - unfold does_at, paid, mseq, mmod, memit, mout, mstate. simpl. by rewrite P.
  - unfold does_at, paid, mseq, mmod, mret, mout, mstate. simpl. rewrite P. by unfold tally.
Qed.

Lemma paid_cut e : does paid (cutReply e).
Proof. whole. paid_auto. Qed.
#[local] Hint Resolve paid_cut : does.

Lemma paid_confirm e s : paused s = true -> does_at paid (confirmInterruption e) s.
Proof.
  intros P. unfold confirmInterruption, upd, emit. apply does_at_mod_emit; [apply _|unfold paid, tally; simpl; rewrite P; simpl; lia|].
  unfold dropHeld, upd. paid_auto.
Qed.

Lemma paid_held e text s : paused s = true -> does_at paid (mseq (holdSpeech e text) (fun _ => resumeReply true)) s.
Proof.
  intros P. assert (H : exists s1, holdSpeech e text s = (tt, s1, [ESpeechHeld]) /\ paused s1 = paused s) by (eexists; split; [reflexivity|by destruct s]).
  destruct H as (s1 & E & P1). rewrite P in P1. pose proof (paid_resume true s1 P1) as H. unfold does_at in *. rewrite mout_seq, mstate_seq.
  unfold mout at 1, mstate at 2, mval. rewrite E. cbn [fst snd]. unfold mstate at 2. rewrite E. cbn [fst snd].
  apply (step_app s [ESpeechHeld] s1); [|done]. unfold paid, tally. simpl. rewrite P, P1. lia.
Qed.

Lemma paid_transcript e text : does paid (handleFinalTranscript cfg e text).
Proof.
  intros s. unfold handleFinalTranscript. apply does_at_read. unfold upd. apply does_at_mod_seq; [apply _|paid_tac|]. cbv beta.
  destruct (_ <? _); [apply does_at_ret, _|].
  assert (Hgo : does paid ((let! s1 := mread in
       if is_state StateThinking s1 || is_state StateSpeaking s1 then
         mwhen (is_state StateSpeaking s1 && AckFilter cfg &&
                (negb (BargeInObserveOnly cfg) && negb (closing s1) && InterruptMode true (node s1)) &&
                negb (Backchannel.junkTranscript text))
               (holdSpeech e text)
       else acceptUserTurn e text (utteranceStart e s1) (speechEndAt s) (lastSoundAt s))%m)) by (whole; paid_auto).
  destruct (paused s) eqn:P; [|apply Hgo]. destruct (Backchannel.junkTranscript text); [apply does_at_ret, _|].
  destruct (closing s); [by apply paid_resume|]. destruct (_ && _).
  - apply paid_held. exact P.
  - apply does_at_seq; [apply _|by apply paid_confirm|apply Hgo].
Qed.

Lemma paid_resumeCheck e seq : does paid (handleResumeCheck cfg e seq).
Proof.
  intros s. unfold handleResumeCheck. apply does_at_read. destruct (paused s) eqn:P; [|rewrite orb_true_r; apply does_at_ret, _].
  destruct (_ || _); [apply does_at_ret, _|]. cbv zeta. destruct (_ && _); [|by apply paid_resume]. unfold scheduleResumeCheck, upd, emit. paid_auto.
Qed.

Lemma paid_speaking e pcm : does paid (processSpeakingFrame cfg e pcm).
Proof.
  intros s. unfold processSpeakingFrame. apply does_at_read. destruct (paused s) eqn:P; [whole; paid_auto|]. unfold upd, emit.
  apply does_at_emit_seq; [apply _|paid_tac|]. apply does_at_mod_seq; [apply _|paid_tac|]. cbv beta. apply does_at_read.
  destruct (_ && _); [|whole; paid_auto].
  apply does_at_mod_emit; [apply _|unfold paid, tally; simpl; rewrite P; simpl; lia|]. paid_auto.
Qed.

Lemma paid_step l : does paid (agent_step cfg start l).
Proof.
  pose proof paid_speaking as Hs.
  destruct l; unfold agent_step; [|unfold ProcessFrame, feed_part, processHoldFrame, maybeFlushSTT, upd, emit; paid_auto|whole; paid_auto..].
  intros s. apply does_at_call; [apply _| |by intros; apply does_at_ret, _].
  destruct i as [ev| | |]; [destruct ev|..]; first [apply paid_transcript | apply paid_resumeCheck | whole; paid_auto].
Qed.
End paid.

(** ** The counters of all calls together *)

Definition cnt (p : sinkEvent -> bool) (evs : list sinkEvent) : Z := Z.of_nat (length (List.filter p evs)).
Definition isBargeIn (ev : sinkEvent) : bool := match ev with SBargeIn => true | _ => false end.
Definition isPause (ev : sinkEvent) : bool := match ev with SInterruptionPaused => true | _ => false end.
Definition isFalse (ev : sinkEvent) : bool := match ev with SFalseInterruption => true | _ => false end.
Definition isTurn (ev : sinkEvent) : bool := match ev with STurnStarted => true | _ => false end.

Lemma cnt_nil p : cnt p [] = 0.
Proof. done. Qed.

Lemma cnt_cons p ev evs : cnt p (ev :: evs) = (if p ev then 1 else 0) + cnt p evs.
Proof. unfold cnt. simpl. destruct (p ev); simpl; lia. Qed.

Lemma cnt_app p a b : cnt p (a ++ b) = cnt p a + cnt p b.
Proof. unfold cnt. rewrite List.filter_app, length_app. lia. Qed.

#[global] Instance cnt_perm p : Proper (Permutation ==> eq) (cnt p).
Proof. intros a b H. induction H; rewrite ?cnt_cons; lia. Qed.

Lemma deliver_registry evs r :
  let r' := deliver evs r in
  AgentBargeInTotal r' = AgentBargeInTotal r + cnt isBargeIn evs /\ AgentInterruptionPausesTotal r' = AgentInterruptionPausesTotal r + cnt isPause evs /\
  AgentFalseInterruptionsTotal r' = AgentFalseInterruptionsTotal r + cnt isFalse evs /\ AgentTurnsTotal r' = AgentTurnsTotal r + cnt isTurn evs.
Proof.
  revert r. induction evs as [|ev evs IH]; intros r; [cbn -[Z.add]; rewrite !cnt_nil; lia|]. cbv zeta in *. rewrite !cnt_cons.
  change (deliver (ev :: evs) r) with (deliver evs (on ev r)). destruct (IH (on ev r)) as (-> & -> & -> & ->).
  destruct r, ev as [| | | | |service d| |]; try (cbn -[Z.add Z.succ cnt]; lia). unfold on, AgentSink. repeat case_bool_decide; cbn -[Z.add Z.succ cnt]; lia.
Qed.

Section log.
Context {json : Type}.

(** The log of a call that took the events. *)
Definition log_of (evs : list sinkEvent) : CallLog.t (json := json) := deliver evs CallLog.New.

Lemma deliver_log evs (l : CallLog.t (json := json)) :
  let l' := deliver evs l in
  bargeIns l' = bargeIns l + cnt isBargeIn evs /\ pauses l' = pauses l + cnt isPause evs /\
  falseInterruptions l' = falseInterruptions l + cnt isFalse evs /\ replies l' = replies l + cnt isTurn evs.
Proof.
  revert l. induction evs as [|ev evs IH]; intros l; [cbn -[Z.add]; rewrite !cnt_nil; lia|]. cbv zeta in *. rewrite !cnt_cons.
  change (deliver (ev :: evs) l) with (deliver evs (on ev l)). destruct (IH (on ev l)) as (-> & -> & -> & ->).
  destruct l, ev; cbn -[Z.add Z.succ cnt]; lia.
Qed.
End log.

(** A call's run, and what its event loop and ticks tell the sinks. *)
Record callRun := mkCall { c_cfg : Config; c_start : Node; c_labels : list AgentInv.label }.

Section calls.
Context `{U : Unicode}.
Definition run_of (c : callRun) : M st effect (list (list bytes)) := agent_run (c_cfg c) (c_start c) (c_labels c).
Definition call_events (c : callRun) : list sinkEvent := omap sink_event (mout (run_of c) (NewHandler (c_start c))).

Lemma cnt_tally w : cnt isBargeIn (omap sink_event w) + cnt isFalse (omap sink_event w) = tally is_cut w /\ cnt isPause (omap sink_event w) = tally is_pause w.
Proof.
  induction w as [|x w [IH1 IH2]]; [done|]. unfold tally in *. destruct x; cbn [omap list_omap sink_event List.filter is_cut is_pause];
    rewrite ?cnt_cons; cbn [isBargeIn isFalse isPause length]; cbn in *; lia.
Qed.

Lemma call_paid c : cnt isBargeIn (call_events c) + cnt isFalse (call_events c) <= cnt isPause (call_events c).
Proof.
  unfold call_events. destruct (cnt_tally (mout (run_of c) (NewHandler (c_start c)))) as [-> ->].
  pose proof (does_run (c_cfg c) (c_start c) paid (c_labels c) (paid_step _ _) (NewHandler (c_start c))) as H. unfold does_at, paid in H.
  change (paused (NewHandler (c_start c))) with false in H. unfold run_of. destruct (paused _); simpl in H; lia.
Qed.

(** What the turns' goroutines add: no interruption and no turn. *)
Definition beside (ev : sinkEvent) : Prop :=
  match ev with SError stage => exists s, stage = stage_name s | STTFB _ _ | SLLMFallback _ | SToolCall _ _ _ => True | _ => False end.

Definition total (f : callRun -> Z) (calls : list callRun) : Z := foldr (fun c n => f c + n) 0 calls.

Lemma cnt_calls p calls : cnt p (concat (map call_events calls)) = total (fun c => cnt p (call_events c)) calls.
Proof. induction calls as [|c calls IH]; [done|]. cbn [map concat total foldr]. by rewrite cnt_app, IH. Qed.

Lemma total_le f g calls : (forall c, f c <= g c) -> total f calls <= total g calls.
Proof. intros H. induction calls as [|c calls IH]; [done|]. unfold total in *. simpl. specialize (H c). lia. Qed.

Lemma total_plus f g calls : total (fun c => f c + g c) calls = total f calls + total g calls.
Proof. induction calls as [|c calls IH]; [done|]. unfold total in *. simpl. lia. Qed.

Lemma cnt_beside p extra : Forall beside extra -> (forall ev, beside ev -> p ev = false) -> cnt p extra = 0.
Proof. intros He Hp. induction He as [|ev l Hev _ IH]; [done|]. by rewrite cnt_cons, Hp. Qed.

Definition named (ev : sinkEvent) : Prop := match ev with SError stage => exists s, stage = stage_name s | _ => True end.

Lemma call_named c : Forall named (call_events c).
Proof.
  unfold call_events. induction (mout (run_of c) _) as [|x w IH]; [constructor|]. cbn. destruct x; try done; constructor; try done; cbn; eauto.
Qed.

(** The series errors are counted in. *)
Definition series_of (r : registry) : gset bytes := dom (AgentErrorsTotal r).

Lemma dom_inc (l : bytes) (m : counters) : l ∈ (dom m : gset bytes) -> dom (inc l m) = (dom m : gset bytes).
Proof. intros H. unfold inc. rewrite dom_insert_L. set_solver. Qed.

Lemma deliver_series evs r :
  Forall named evs -> (forall s, stage_name s ∈ series_of r) -> series_of (deliver evs r) = series_of r.
Proof.
  revert r. induction evs as [|ev evs IH]; intros r H Hs; [done|]. apply Forall_cons in H as [Hev H].
  change (deliver (ev :: evs) r) with (deliver evs (on ev r)).
  assert (He : series_of (on ev r) = series_of r).
  { destruct r, ev as [| | | |stage|service d| |]; try done.
    - destruct Hev as [s ->]. exact (dom_inc _ _ (Hs s)).
    - unfold on, AgentSink. by repeat case_bool_decide. }
  rewrite IH; [done|done|]. intros s. by rewrite He.
Qed.

(** C16: Whatever the calls of the process do and however their events mix, its
    counters are the sums of what the calls' logs count, no more interruptions
    are confirmed or found false than replies were paused, in all and in each
    call, and errors are counted only in the series that exist from the start. *)
Theorem interruptions_accounted {json : Type} (calls : list callRun) (extra evs : list sinkEvent) :
  Forall beside extra -> evs ≡ₚ concat (map call_events calls) ++ extra ->
  let r := deliver evs init in
  let log c := log_of (json := json) (call_events c) in
  AgentBargeInTotal r = total (fun c => bargeIns (log c)) calls /\
  AgentInterruptionPausesTotal r = total (fun c => pauses (log c)) calls /\
  AgentFalseInterruptionsTotal r = total (fun c => falseInterruptions (log c)) calls /\
  AgentTurnsTotal r = total (fun c => replies (log c)) calls /\
  AgentBargeInTotal r + AgentFalseInterruptionsTotal r <= AgentInterruptionPausesTotal r /\
  (forall c, bargeIns (log c) + falseInterruptions (log c) <= pauses (log c)) /\
  series_of r = series_of init.
Proof.
  intros He Hp r log.
  assert (L : forall c, bargeIns (log c) = cnt isBargeIn (call_events c) /\ pauses (log c) = cnt isPause (call_events c) /\
      falseInterruptions (log c) = cnt isFalse (call_events c) /\ replies (log c) = cnt isTurn (call_events c)) by (intros c; exact (deliver_log (call_events c) CallLog.New)).
  assert (T : forall p, (forall ev, beside ev -> p ev = false) -> cnt p evs = total (fun c => cnt p (call_events c)) calls).
  { intros p Hb. rewrite Hp, cnt_app, cnt_calls, (cnt_beside p extra) by done. lia. }
  assert (E : forall f g, (forall c, f c = g c) -> total f calls = total g calls).
  { intros f g H. apply Z.le_antisymm; apply total_le; intros c; rewrite H; lia. }
  destruct (deliver_registry evs init) as (R1 & R2 & R3 & R4). fold r in R1, R2, R3, R4.
  rewrite T in R1, R2, R3, R4 by (by intros []). change (AgentBargeInTotal init) with 0 in R1. change (AgentInterruptionPausesTotal init) with 0 in R2.
  change (AgentFalseInterruptionsTotal init) with 0 in R3. change (AgentTurnsTotal init) with 0 in R4. rewrite Z.add_0_l in R1, R2, R3, R4. rewrite R1, R2, R3, R4. split_and!.
  1-4: apply E; intros c; destruct (L c) as (A1 & A2 & A3 & A4); congruence.
  - rewrite <- total_plus. apply total_le, call_paid.
  - intros c. destruct (L c) as (-> & -> & -> & _). apply call_paid.
  - apply deliver_series.
    + rewrite Hp. apply Forall_app. split; [|eapply Forall_impl; [exact He|]; by intros []]. apply Forall_concat, Forall_map, Forall_true. intros c. apply call_named.
    + intros s. apply (bool_decide_unpack _). destruct s; vm_compute; exact I.
Qed.
End calls.

(** A call whose caller interrupts once, and is heard. *)
Definition talkative : callRun := mkCall (AgentState.mkConfig true 0 0 false 0 0 0 0 false 0 false)
  (mkNode [] (bs "start") (bs "prompt") (bs "Hello.") None None false true false [] [])
  (let e := mkEnv 5 None true true true true true true in
   [LRun e (Event GreetingEv); LRun e (Event (TTSAudio (repeat 1 1300) 1 1 (bs "Hello."))); LFrame e (repeat 1 640); LRun e (Event (FinalTranscript (bs "stop it please")))]).

Example talkative_events : call_events talkative = [SInterruptionPaused; SBargeIn; STurnStarted].
Proof. vm_compute. done. Qed.

Example interruptions_accounted_witness :
  AgentBargeInTotal (deliver [SInterruptionPaused; SError (bs "llm"); SBargeIn; STurnStarted] init) = 1 /\
  AgentBargeInTotal (deliver [SInterruptionPaused; SError (bs "llm"); SBargeIn; STurnStarted] init) +
    AgentFalseInterruptionsTotal (deliver [SInterruptionPaused; SError (bs "llm"); SBargeIn; STurnStarted] init) <=
    AgentInterruptionPausesTotal (deliver [SInterruptionPaused; SError (bs "llm"); SBargeIn; STurnStarted] init).
Proof.
  destruct (interruptions_accounted (json := unit) [talkative] [SError (bs "llm")] [SInterruptionPaused; SError (bs "llm"); SBargeIn; STurnStarted]) as (H1 & _ & _ & _ & H & _).
  - constructor; [by exists StLlm|constructor].
  - cbn [map concat]. rewrite talkative_events. cbn [app]. apply Permutation_skip. etrans; [apply Permutation_swap|]. apply Permutation_skip, Permutation_swap.
  - split; [vm_compute; reflexivity|exact H].
Defined.
