(* ===== verification/Logging.v ===== *)
(** Logging (internal/config/logging.go) and the startup banner (banner.go): the
    registry that stamps a call's lines with its trace, the settings read from
    the environment, the handler that enriches a record and masks personal data,
    and what the banner shows of the configuration. A sink is what slog's
    handlers keep: the open groups and the attributes preset with them. *)

From Stdlib Require Import SpecFloat.
From stdpp Require Import gmap strings.
From S2P Require Import Prelude Text Workflow Campaign Config.

Local Open Scope Z_scope.

(** ** The calls' log contexts *)

Record callLogContext := mkCtx { traceID : bytes; runID : Z; refs : Z }.
#[global] Instance eta_ctx : Eta callLogContext := fun r => mkCtx (traceID r) (runID r) (refs r).
Local Open Scope record_scope.

Abbreviation registry := (gmap bytes callLogContext).

Definition RegisterCallTrace (id trace : bytes) (calls : registry) : registry := <[id := mkCtx trace 0 1]> calls.
Definition HoldCallTrace (id : bytes) (calls : registry) : registry :=
  match calls !! id with Some c => <[id := c <| refs ::= Z.succ |>]> calls | None => calls end.
Definition UnregisterCallTrace (id : bytes) (calls : registry) : registry :=
  match calls !! id with
  | Some c => let c := c <| refs ::= Z.pred |> in if refs c <=? 0 then delete id calls else <[id := c]> calls
  | None => calls
  end.
Definition SetCallRunID (id : bytes) (run : Z) (calls : registry) : registry :=
  match calls !! id with Some c => <[id := c <| runID := run |>]> calls | None => calls end.
Definition lookupCall (id : bytes) (calls : registry) : bytes * Z :=
  match calls !! id with Some c => (traceID c, runID c) | None => ([], 0) end.
Definition lookupTrace (id : bytes) (calls : registry) : bytes := (lookupCall id calls).1.

Inductive traceOp :=
  | Register (id trace : bytes) | Hold (id : bytes) | Unregister (id : bytes) | SetRun (id : bytes) (run : Z).
Definition traceStep (calls : registry) (o : traceOp) : registry :=
  match o with
  | Register id trace => RegisterCallTrace id trace calls
  | Hold id => HoldCallTrace id calls
  | Unregister id => UnregisterCallTrace id calls
  | SetRun id run => SetCallRunID id run calls
  end.
Definition traceRun (ops : list traceOp) (calls : registry) : registry := fold_left traceStep ops calls.

(** ** Attributes and sinks *)

Inductive value :=
  | VString (s : bytes) | VInt (n : Z) | VTime (t : Z) | VLevel (l : Z) | VGroup (l : list (bytes * value)) | VAny (text : bytes).
Definition attr : Type := bytes * value.

(** What a handler prints of an attribute: the groups it is in, then itself. *)
Definition printed : Type := list bytes * attr.
Record sink := mkSink { groups : list bytes; preset : list printed }.
Definition sinkAttrs (l : list attr) (s : sink) : sink := mkSink (groups s) (preset s ++ map (pair (groups s)) l).
Definition sinkGroup (name : bytes) (s : sink) : sink :=
  if bool_decide (name = []) then s else mkSink (groups s ++ [name]) (preset s).

Record entry := mkEntry { level : Z; message : bytes; function : option bytes; attrs : list attr }.
(** A line of a sink: its message and the attributes in their order. *)
Definition line_of (s : sink) (e : entry) (l : list attr) : Z * bytes * list printed :=
  (level e, message e, preset s ++ map (pair (groups s)) l).

Section logging.
Context `{U : Unicode}.
(** [Value.String] of what is no string, and [Time.Format]. *)
Variable show : value -> bytes.
Variable formatTime : Z -> bytes.

(** *** Settings *)

Definition parseLogPII (v env : bytes) : bool * bool :=
  let v := TrimSpace v in
  let development := bool_decide (env = bs "development") in
  if bool_decide (v = []) then (development, true)
  else if bool_decide (v = bs "1") || bool_decide (v = bs "true") then (true, true)
  else if bool_decide (v = bs "0") || bool_decide (v = bs "false") then (false, true)
  else (development, false).

Definition parseLogFormat (v : bytes) : bytes * bool :=
  let v := ToLowerString (TrimSpace v) in
  if bool_decide (v = []) || bool_decide (v = bs "json") then (bs "json", true)
  else if bool_decide (v = bs "text") then (bs "text", true) else (bs "json", false).

Definition LevelDebug : Z := -4.
Definition LevelInfo : Z := 0.
Definition LevelWarn : Z := 4.
Definition LevelError : Z := 8.
Definition parseLogLevel (v : bytes) : Z * bool :=
  let v := ToLowerString (TrimSpace v) in
  if bool_decide (v = []) || bool_decide (v = bs "info") then (LevelInfo, true)
  else if bool_decide (v = bs "debug") then (LevelDebug, true)
  else if bool_decide (v = bs "warn") || bool_decide (v = bs "warning") then (LevelWarn, true)
  else if bool_decide (v = bs "error") then (LevelError, true) else (LevelInfo, false).

(** *** Masking *)

Definition numberKeys : list bytes := [bs "caller_number"; bs "called_number"; bs "destination"].
Definition piiKeys : list bytes :=
  numberKeys ++ [bs "text"; bs "rejected_text"; bs "args"; bs "result"; bs "reply"; bs "variables"].
Definition pii (key : bytes) : bool := bool_decide (key ∈ piiKeys).

Definition String (v : value) : bytes := match v with VString s => s | _ => show v end.

(** [redact]. *)
Definition redact (key : bytes) (v : value) : value :=
  let s := String v in
  if bool_decide (key ∈ numberKeys) then
    if (length s <=? 2)%nat then VString (repeat 88 (length s))
    else VString (repeat 88 (length s - 2) ++ drop (length s - 2) s)
  else VString (bs "[redacted " ++ Campaign.decimal (Z.of_nat (length (runes s))) ++ bs " chars]").

(** *** The handler *)

Record enrichHandler := mkHandler { inner : sink; otel : option sink; env : bytes; maskPII : bool; minLevel : Z; presets : list attr }.

(** [newHandler]; both formats print the same attributes. *)
Definition newHandler (env : bytes) (level : Z) (pii : bool) (otel : option sink) : enrichHandler :=
  mkHandler (mkSink [] []) otel env (negb pii) level [].

(** [replaceAttr]. *)
Definition levelName (l : Z) : bytes :=
  let name (base : string) (d : Z) := bs base ++ if d =? 0 then [] else (if 0 <? d then [43] else []) ++ Campaign.decimal d in
  if l <? LevelInfo then name "debug" (l - LevelDebug) else if l <? LevelWarn then name "info" (l - LevelInfo)
  else if l <? LevelError then name "warn" (l - LevelWarn) else name "error" (l - LevelError).
Definition replaceAttr (gs : list bytes) (a : attr) : attr :=
  match gs with
  | _ :: _ => a
  | [] =>
      match a with
      | (key, VTime t) => if bool_decide (key = bs "time") then (key, VString (formatTime t)) else a
      | (key, VLevel l) => if bool_decide (key = bs "level") then (key, VString (levelName l)) else a
      | _ => a
      end
  end.

Definition Enabled (e : enrichHandler) (l : Z) : bool := minLevel e <=? l.

Definition WithAttrs (l : list attr) (e : enrichHandler) : enrichHandler :=
  mkHandler (sinkAttrs l (inner e)) (sinkAttrs l <$> otel e) (env e) (maskPII e) (minLevel e) (presets e ++ l).
Definition WithGroup (name : bytes) (e : enrichHandler) : enrichHandler :=
  mkHandler (sinkGroup name (inner e)) (sinkGroup name <$> otel e) (env e) (maskPII e) (minLevel e) (presets e).

(** [maskAttr]. *)
Definition maskAttr (e : enrichHandler) (a : attr) : attr :=
  if maskPII e && pii a.1 then (a.1, redact a.1 a.2) else a.

(** [scanAttrs]: the last "call_id" that is a string, and the keys given. *)
Definition scanStep (r : bytes * bool * bool) (a : attr) : bytes * bool * bool :=
  let '(callID, hasComponent, hasRunID) := r in
  if bool_decide (a.1 = bs "call_id") then (match a.2 with VString s => s | _ => callID end, hasComponent, hasRunID)
  else if bool_decide (a.1 = bs "component") then (callID, true, hasRunID)
  else if bool_decide (a.1 = bs "run_id") then (callID, hasComponent, true)
  else r.
Definition scanAttrs (l : list attr) : bytes * bool * bool := fold_left scanStep l ([], false, false).

(** [componentFromFunction]. *)
Definition components : list (bytes * bytes) := map (fun p => (bs p.1, bs p.2))
  [("/internal/ai/agent/tenvad", "vad"); ("/internal/ai/agent", "agent"); ("/internal/ai/llm", "llm"); ("/internal/ai/stt", "stt");
   ("/internal/ai/tts", "tts"); ("/internal/ari", "ari"); ("/internal/callagent", "agent"); ("/internal/freeswitch", "freeswitch");
   ("/internal/esl", "freeswitch"); ("/internal/media", "media"); ("/internal/dograh", "dograh"); ("/internal/session", "session");
   ("/internal/metrics", "metrics"); ("/internal/config", "config"); ("/internal/", "app")]%string.
Fixpoint Contains (s sub : bytes) : bool :=
  HasPrefix s sub || match s with [] => false | _ :: r => Contains r sub end.
Definition componentFromFunction (fn : bytes) : bytes :=
  match List.find (fun p => Contains fn p.1) components with Some p => p.2 | None => bs "service" end.
Definition componentForPC (f : option bytes) : bytes :=
  match f with Some fn => componentFromFunction fn | None => bs "service" end.

(** [Handle]: the lines of the two sinks; the service group goes to the first
    one only. *)
Definition Version : bytes := bs "2.1.0".
Definition stamped (calls : registry) (l : list attr) (f : option bytes) : list attr :=
  let '(callID, hasComponent, hasRunID) := scanAttrs l in
  let '(trace, run) := lookupCall callID calls in
  (if bool_decide (callID = []) then []
   else (if bool_decide (trace = []) then [] else [(bs "trace_id", VString trace)]) ++
        (if (0 <? run) && negb hasRunID then [(bs "run_id", VInt run)] else [])) ++
  (if hasComponent then [] else [(bs "component", VString (componentForPC f))]).
Definition shared (calls : registry) (e : enrichHandler) (r : entry) : list attr :=
  stamped calls (attrs r) (function r) ++ map (maskAttr e) (presets e) ++ map (maskAttr e) (attrs r).
Definition serviceGroup (e : enrichHandler) : attr :=
  (bs "service", VGroup [(bs "name", VString (bs "vaani-engine")); (bs "version", VString Version); (bs "environment", VString (env e))]).
Definition Handle (calls : registry) (e : enrichHandler) (r : entry) : list (Z * bytes * list printed) :=
  line_of (inner e) r (serviceGroup e :: shared calls e r) ::
  match otel e with Some o => [line_of o r (shared calls e r)] | None => [] end.
End logging.

(** ** The banner *)

Record logSettings := mkLogSettings { l_env : bytes; l_format : bytes; l_level : bytes; l_pii : bool }.

Section banner.
(** The process: its id, host, build and runtime lines; [url.Parse] as scheme,
    host and path; ["%g"] of a float. *)
Variable pid : Z.
Variables host commit go : bytes.
Variable parseURL : bytes -> option (bytes * bytes * bytes).
Variable formatG : spec_float -> bytes.
Variable applied : logSettings.

(** [SafeURL]. *)
Definition SafeURL (raw : bytes) : bytes :=
  if bool_decide (raw = []) then bs "-"
  else match parseURL raw with
       | Some (scheme, h, path) => if bool_decide (h = []) then bs "(hidden)" else scheme ++ bs "://" ++ h ++ path
       | None => bs "(hidden)"
       end.

Definition field (key : string) (v : bytes) : bytes * bytes := (bs key, v).
Definition int (n : Z) : bytes := Campaign.decimal n.

(** [startupFields]. *)
Definition startupFields (cfg : Config) : list (bytes * bytes) :=
  [field "pid" (int pid); field "host" host; field "commit" commit; field "go" go; field "environment" (l_env applied)] ++
  (if bool_decide (Telephony cfg = bs "freeswitch") then
     [field "mode" (AppMode cfg ++ bs " (telephony: freeswitch)"); field "esl" (EslAddr cfg);
      field "earshot" (bs "ws://" ++ EarshotListenAddr cfg ++ bs "/call auth=" ++ bs (if bool_decide (EarshotAuthToken cfg = []) then "off" else "on"))]
   else
     [field "mode" (AppMode cfg ++ bs " (media: " ++ MediaEncapsulation cfg ++ bs ")");
      field "ari" (SafeURL (AriURL cfg) ++ bs " app=" ++ AriApp cfg);
      field "media" (bs "ip " ++ MediaIP cfg ++ bs " ports " ++ int (MediaPortBase cfg) ++ bs "-" ++ int (i64 (MediaPortBase cfg + MediaPortCount cfg - 1)))]) ++
  (if bool_decide (AppMode cfg = bs "agent") then
     [field "dograh" (bs "workflow " ++ int (DograhWorkflowID cfg) ++ bs " db=" ++ SafeURL (DograhDBURL cfg))] else []) ++
  (if bool_decide (MinioEndpoint cfg = []) then [] else [field "minio" (MinioEndpoint cfg ++ bs " bucket=" ++ MinioBucket cfg)]) ++
  [field "vad" (VadMode cfg ++ (if bool_decide (VadMode cfg = bs "ten") then bs " (threshold " ++ formatG (TenVadThreshold cfg) ++ bs ")" else []) ++
                bs " barge-in " ++ bs (if BargeInEnabled cfg then "on" else "off"));
   field "logs" (l_format applied ++ bs " level=" ++ l_level applied ++ bs " pii=" ++ bs (if l_pii applied then "full" else "masked"));
   field "metrics" (MetricsAddr cfg ++ bs " (/metrics, /healthz)")].

(** [writeBanner]: a key padded to twelve characters. *)
Definition pad (key : bytes) : bytes := key ++ repeat 32 (12 - length (runes key)).
Definition rule : bytes := repeat 61 54.
Definition writeBanner (fields : list (bytes * bytes)) : bytes :=
  rule ++ [10] ++ bs "    vaani-engine " ++ Version ++ [10] ++ rule ++ [10] ++
  flat_map (fun f => bs "  " ++ pad f.1 ++ bs " " ++ f.2 ++ [10]) fields ++ rule ++ [10].

(** [Startup]: what goes to the terminal, and the structured line's values. *)
Definition Startup (terminal : bool) (cfg : Config) : bytes * list attr :=
  let fields := startupFields cfg in
  (if bool_decide (l_format applied = bs "text") || terminal then writeBanner fields else [],
   (bs "event", VString (bs "service.starting")) :: map (fun f => (f.1, VString f.2)) fields).
End banner.

(** [buildCommit], of the build's settings. *)
Definition buildCommit (settings : option (list (bytes * bytes))) : bytes :=
  match settings with
  | None => bs "dev"
  | Some l =>
      let '(rev, at_, dirty) := fold_left (fun '(rev, at_, dirty) kv =>
        if bool_decide (kv.1 = bs "vcs.revision") then (kv.2, at_, dirty)
        else if bool_decide (kv.1 = bs "vcs.time") then (rev, kv.2, dirty)
        else if bool_decide (kv.1 = bs "vcs.modified") then (rev, at_, bool_decide (kv.2 = bs "true"))
        else (rev, at_, dirty)) l ([], [], false) in
      if bool_decide (rev = []) then bs "dev"
      else take 7 rev ++ (if dirty : bool then bs "-dirty" else []) ++ (if bool_decide (at_ = []) then [] else bs " (" ++ at_ ++ bs ")")
  end.

(** ** Concrete runs *)

Definition call_line : entry := mkEntry 0 (bs "call answered") (Some (bs "github.com/nitesh/vaani/internal/ari.(*Manager).startCall"))
  [(bs "call_id", VString (bs "c1")); (bs "caller_number", VString (bs "+911234567890"))].
Definition shown (v : value) : bytes := match v with VInt n => Campaign.decimal n | _ => [] end.

Example enriched :
  Handle shown (traceRun [Register (bs "c1") (bs "t"); SetRun (bs "c1") 7] ∅) (newHandler (bs "production") 0 false None) call_line =
  [(0, bs "call answered", map (pair [])
    [(bs "service", VGroup [(bs "name", VString (bs "vaani-engine")); (bs "version", VString (bs "2.1.0")); (bs "environment", VString (bs "production"))]);
     (bs "trace_id", VString (bs "t")); (bs "run_id", VInt 7); (bs "component", VString (bs "ari"));
     (bs "call_id", VString (bs "c1")); (bs "caller_number", VString (bs "XXXXXXXXXXX90"))])].
Proof. vm_compute. done. Qed.

(** A number preset with [WithAttrs] is printed as it is: the sink has it
    before the handler masks anything. *)
Example preset_unmasked :
  let e := WithAttrs [(bs "caller_number", VString (bs "+911234567890"))] (newHandler (bs "production") 0 false None) in
  In ([], (bs "caller_number", VString (bs "+911234567890"))) (concat (map snd (Handle shown ∅ e (mkEntry 0 [] None [])))).
Proof. vm_compute. auto. Qed.

Example levels : (levelName 0, levelName 2, levelName (-5), levelName 8) = (bs "info", bs "info+2", bs "debug-1", bs "error").
Proof. vm_compute. done. Qed.

Example parsed_settings :
  parseLogLevel (bs "WARNING") = (LevelWarn, true) /\ parseLogFormat (bs " Text") = (bs "text", true) /\
  parseLogPII (bs "maybe") (bs "production") = (false, false) /\ parseLogPII [] (bs "development") = (true, true).
Proof. vm_compute. done. Qed.

Example commits :
  buildCommit (Some [(bs "vcs.revision", bs "0123456789"); (bs "vcs.modified", bs "true")]) = bs "0123456-dirty" /\ buildCommit (Some []) = bs "dev".
Proof. vm_compute. done. Qed.

(** ** A call's trace *)

(** What an operation adds to the references on a call's context, and the
    references after some operations. *)
Definition shift (id : bytes) (o : traceOp) : Z :=
  match o with Hold i => if bool_decide (i = id) then 1 else 0 | Unregister i => if bool_decide (i = id) then -1 else 0 | _ => 0 end.
Definition balance (id : bytes) (n : Z) (ops : list traceOp) : Z := fold_left (fun n o => n + shift id o) ops n.
Definition registers (id : bytes) (o : traceOp) : bool := match o with Register i _ => bool_decide (i = id) | _ => false end.

Definition holds (calls : registry) (id trace : bytes) (n : Z) : Prop := exists r, calls !! id = Some (mkCtx trace r n).

Lemma traceStep_holds calls o id trace n :
  registers id o = false -> holds calls id trace n -> 0 < n + shift id o -> holds (traceStep calls o) id trace (n + shift id o).
Proof.
  intros Hr [r Hc] Hn. unfold holds. destruct o as [i tr|i|i|i r']; cbn [traceStep registers shift] in *.
  - apply bool_decide_eq_false in Hr. unfold RegisterCallTrace. rewrite lookup_insert_ne, Z.add_0_r by done. eauto.
  - unfold HoldCallTrace. case_bool_decide as Hi.
    + subst i. rewrite Hc, lookup_insert_eq. by eexists.
    + rewrite Z.add_0_r. destruct (calls !! i); [rewrite lookup_insert_ne by done|]; eauto.
  - unfold UnregisterCallTrace. case_bool_decide as Hi.
    + subst i. rewrite Hc. cbn. rewrite (proj2 (Z.leb_gt _ _)) by lia. rewrite lookup_insert_eq. by eexists.
    + rewrite Z.add_0_r. destruct (calls !! i) as [c|]; [|eauto]. cbn zeta. case_match; [rewrite lookup_delete_ne by done|rewrite lookup_insert_ne by done]; eauto.
  - rewrite Z.add_0_r. unfold SetCallRunID. destruct (decide (i = id)) as [->|Hi].
    + rewrite Hc, lookup_insert_eq. by eexists.
    + destruct (calls !! i); [rewrite lookup_insert_ne by done|]; eauto.
Qed.

Lemma traceRun_holds ops calls id trace n :
  Forall (fun o => registers id o = false) ops -> (forall k, 0 < balance id n (take k ops)) ->
  holds calls id trace n -> holds (traceRun ops calls) id trace (balance id n ops).
Proof.
  intros Hr. revert calls n. induction Hr as [|o ops Ho _ IH]; intros calls n Hb Hc; [done|].
  cbn [traceRun balance fold_left]. apply IH.
  - intros k. exact (Hb (S k)).
  - apply traceStep_holds; [done..|]. exact (Hb 1%nat).
Qed.

(** A registered call's lines carry its trace for as long as its holders have
    not all let go, whatever happens to other calls in between, and the last
    one to let go drops it. *)
Theorem trace_held (calls : registry) (id trace : bytes) (ops : list traceOp) :
  Forall (fun o => registers id o = false) ops ->
  (forall k, 0 < balance id 1 (take k ops)) ->
  lookupTrace id (traceRun (Register id trace :: ops) calls) = trace /\
  (balance id 1 ops = 1 -> traceRun (Register id trace :: ops ++ [Unregister id]) calls !! id = None).
Proof.
  intros Hr Hb. destruct (traceRun_holds ops (traceStep calls (Register id trace)) id trace 1 Hr Hb) as [r Hc].
  { exists 0. cbn. unfold RegisterCallTrace. apply lookup_insert_eq. }
  change (traceRun ops (traceStep calls (Register id trace))) with (traceRun (Register id trace :: ops) calls) in Hc.
  split; [unfold lookupTrace, lookupCall; by rewrite Hc|]. intros H1. rewrite H1 in Hc. rewrite app_comm_cons. unfold traceRun in *. rewrite fold_left_app.
  cbn [fold_left traceStep] in *. unfold UnregisterCallTrace. rewrite Hc. cbn. apply lookup_delete_eq.
Qed.

(** The life of an answered call: set-up registers it, the agent's recording
    goroutine holds it and notes the run; the teardown and the recording let go
    in whichever order. *)
Example trace_held_witness :
  lookupTrace (bs "c") (traceRun (Register (bs "c") (bs "t") :: [Hold (bs "c"); Register (bs "d") (bs "u"); Unregister (bs "c"); SetRun (bs "c") 7]) ∅) = bs "t" /\
  traceRun (Register (bs "c") (bs "t") :: [Hold (bs "c"); Register (bs "d") (bs "u"); Unregister (bs "c"); SetRun (bs "c") 7] ++ [Unregister (bs "c")]) ∅ !! bs "c" = None.
Proof.
  destruct (trace_held ∅ (bs "c") (bs "t") [Hold (bs "c"); Register (bs "d") (bs "u"); Unregister (bs "c"); SetRun (bs "c") 7]) as [H1 H2].
  - repeat constructor.
  - intros [|[|[|[|[|k]]]]]; vm_compute; done.
  - split; [exact H1|]. apply H2. vm_compute. done.
Defined.

(** ** What a masked line tells *)

Section masking.
Context `{U : Unicode}.
Variable show : value -> bytes.

(** Two values a masked line cannot tell apart: two numbers of one length and,
    from three characters on, the same last two; two texts of as many
    characters. *)
Definition alike_value (key : bytes) (v v' : value) : Prop :=
  let s := String show v in
  let s' := String show v' in
  if bool_decide (key ∈ numberKeys) then length s = length s' /\ ((2 < length s)%nat -> drop (length s - 2) s = drop (length s - 2) s')
  else length (runes s) = length (runes s').
Definition alike (a a' : attr) : Prop := a.1 = a'.1 /\ if pii a.1 then alike_value a.1 a.2 a'.2 else a.2 = a'.2.

Lemma redact_alike key v v' : alike_value key v v' -> redact show key v = redact show key v'.
Proof.
  unfold alike_value, redact. case_bool_decide; [|by intros ->]. intros [Hl Hd]. rewrite <- Hl.
  destruct (Nat.leb_spec (length (String show v)) 2); [done|]. by rewrite Hd.
Qed.

Lemma mask_alike e a a' : maskPII e = true -> alike a a' -> maskAttr show e a = maskAttr show e a'.
Proof.
  destruct a as [k v], a' as [k' v']. unfold maskAttr, alike. cbn [fst snd]. intros -> [<- H]. cbn [andb]. destruct (pii k); [|by rewrite H].
  by rewrite (redact_alike _ _ _ H).
Qed.

Lemma scan_alike l l' r : Forall2 alike l l' -> fold_left scanStep l r = fold_left scanStep l' r.
Proof.
  intros H. revert r. induction H as [|[k v] [k' v'] l l' [Hk Hv] _ IH]; intros r; [done|]. cbn [fold_left]. rewrite IH. f_equal.
  cbn [fst snd] in *. subst k'. unfold scanStep. cbn [fst snd]. destruct r as [[c h] n]. case_bool_decide as Hc; [|done].
  assert (pii k = false) as Hp by (subst k; vm_compute; done). rewrite Hp in Hv. by rewrite Hv.
Qed.

End masking.


(** What the start shows of a configuration: whether there is a token, and of
    the two URLs what [SafeURL] leaves. *)
Definition public (parseURL : bytes -> option (bytes * bytes * bytes)) (c : Config) :=
  (Telephony c, AppMode c, EslAddr c, EarshotListenAddr c, bool_decide (EarshotAuthToken c = []), MediaEncapsulation c, AriApp c, MediaIP c,
   (MediaPortBase c, MediaPortCount c, DograhWorkflowID c), (MinioEndpoint c, MinioBucket c), (VadMode c, TenVadThreshold c, BargeInEnabled c),
   MetricsAddr c, SafeURL parseURL (AriURL c), SafeURL parseURL (DograhDBURL c)).

(** The banner and the structured line of the start tell no password, key or
    token: configurations with the same public part start with the same ones. *)
Theorem startup_hides (pid : Z) (host commit go : bytes) (parseURL : bytes -> option (bytes * bytes * bytes)) (formatG : spec_float -> bytes)
    (applied : logSettings) (terminal : bool) (c c' : Config) :
  public parseURL c = public parseURL c' ->
  Startup pid host commit go parseURL formatG applied terminal c = Startup pid host commit go parseURL formatG applied terminal c'.
Proof.
  intros [= H1 H2 H3 H4 H5 H6 H7 H8 H9 H10 H11 H12 H13 H14 H15 H16 H17 H18 H19]. unfold Startup.
  enough (startupFields pid host commit go parseURL formatG applied c = startupFields pid host commit go parseURL formatG applied c') as -> by done.
  unfold startupFields. by rewrite H1, H2, H3, H4, H5, H6, H7, H8, H9, H10, H11, H12, H13, H14, H15, H16, H17, H18, H19.
Qed.

Definition ex_config (secret : bytes) : Config := mkConfig
  (bs "http://localhost:8088/ari") (bs "vaani") secret (bs "vaani") (bs "127.0.0.1") 20000 256 (bs ":9091") (bs "le") 3 [] (bs "agent") false
  (bs "rtp") false 0 2 0 3 [] 0 0 [] false secret 20 2 5 (bs "postgres://u:" ++ secret ++ bs "@db/dograh") 7 50
  (bs "minio:9000") secret secret (bs "voice-audio") false true (S754_zero false) 0 0 0 false 0 0 (S754_zero false) 0 true 0 (bs "energy") (S754_zero false)
  (bs "freeswitch") (bs "127.0.0.1:8021") secret (bs ":9095") secret.

Example startup_hides_witness :
  let parse (_ : bytes) := Some (bs "postgres", bs "db", bs "/dograh") in
  Startup 1 [] [] [] parse (fun _ => []) (mkLogSettings [] [] [] false) true (ex_config (bs "s3cret")) =
  Startup 1 [] [] [] parse (fun _ => []) (mkLogSettings [] [] [] false) true (ex_config (bs "other")).
Proof. apply startup_hides. vm_compute. done. Defined.
