(* ===== verification/Storage.v ===== *)
(** Object storage (internal/dograh/storage.go): the requests of [Put] and [Get],
    their AWS Signature V4 and what the answers come to. SHA-256, HMAC, the
    escaping of a path and the HTTP exchange are parameters. *)

From stdpp Require Import gmap strings.
From S2P Require Import Prelude Text Campaign LlmTurn RunRecord.

Local Open Scope Z_scope.

Record Storage := mkStorage { Endpoint : bytes; AccessKey : bytes; SecretKey : bytes; Bucket : bytes; Secure : bool }.

Definition minioRegion : bytes := bs "us-east-1".

Record request := mkRequest { rq_Method : bytes; rq_scheme : bytes; rq_Host : bytes; rq_path : bytes; rq_query : bytes; rq_headers : gmap bytes bytes; rq_body : bytes }.
Definition header (r : request) (name : string) : bytes := default [] (rq_headers r !! bs name).
Definition Set_ (name : string) (v : bytes) (r : request) : request :=
  mkRequest (rq_Method r) (rq_scheme r) (rq_Host r) (rq_path r) (rq_query r) (<[bs name := v]> (rq_headers r)) (rq_body r).

(** The two formats of [time.Format], of a time in seconds, in UTC. *)
Definition day_of (t : Z) : bytes := let '(y, m, d) := civil (t / 86400) in pad 4 y ++ pad 2 m ++ pad 2 d.
Definition amz_date (t : Z) : bytes :=
  let s := t mod 86400 in day_of t ++ bs "T" ++ pad 2 (s / 3600) ++ pad 2 (s / 60 mod 60) ++ pad 2 (s mod 60) ++ bs "Z".

(** [hex.EncodeToString]. *)
Definition hex_text (s : bytes) : bytes := flat_map (fun b => [LlmTurn.hex (b / 16); LlmTurn.hex (b mod 16)]) s.

Section storage.
Variable sha256 : bytes -> bytes.
Variable hmacSHA256 : bytes -> bytes -> bytes.
Variable EscapedPath : bytes -> bytes.

Definition signedHeaders : bytes := bs "content-type;host;x-amz-content-sha256;x-amz-date".
Definition canonicalRequest (r : request) (payloadHash amzDate : bytes) : bytes :=
  rq_Method r ++ [10] ++ EscapedPath (rq_path r) ++ [10] ++ rq_query r ++ [10] ++
  bs "content-type:" ++ header r "Content-Type" ++ [10] ++ bs "host:" ++ rq_Host r ++ [10] ++
  bs "x-amz-content-sha256:" ++ payloadHash ++ [10] ++ bs "x-amz-date:" ++ amzDate ++ [10; 10] ++
  signedHeaders ++ [10] ++ payloadHash.
Definition scope_of (day : bytes) : bytes := day ++ bs "/" ++ minioRegion ++ bs "/s3/aws4_request".
Definition stringToSign (amzDate scope canonical : bytes) : bytes :=
  bs "AWS4-HMAC-SHA256" ++ [10] ++ amzDate ++ [10] ++ scope ++ [10] ++ hex_text (sha256 canonical).
Definition signingKey (secret day : bytes) : bytes :=
  hmacSHA256 (hmacSHA256 (hmacSHA256 (hmacSHA256 (bs "AWS4" ++ secret) day) minioRegion) (bs "s3")) (bs "aws4_request").

(** [sign]. *)
Definition sign (s : Storage) (r : request) (body : bytes) (now : Z) : request :=
  let amzDate := amz_date now in
  let day := day_of now in
  let payloadHash := hex_text (sha256 body) in
  let r := Set_ "X-Amz-Content-Sha256" payloadHash (Set_ "X-Amz-Date" amzDate r) in
  let scope := scope_of day in
  let signature := hex_text (hmacSHA256 (signingKey (SecretKey s) day) (stringToSign amzDate scope (canonicalRequest r payloadHash amzDate))) in
  Set_ "Authorization" (bs "AWS4-HMAC-SHA256 Credential=" ++ AccessKey s ++ bs "/" ++ scope ++ bs ", SignedHeaders=" ++ signedHeaders ++ bs ", Signature=" ++ signature) r.

Definition new_request (s : Storage) (method key contentType body : bytes) : request :=
  mkRequest method (if Secure s then bs "https" else bs "http") (Endpoint s) (bs "/" ++ Bucket s ++ bs "/" ++ key) []
    (<[bs "Content-Type" := contentType]> ∅) body.

(** How an exchange went: the status, what comes of the body before its end or
    an error and which of the two it is, or no answer. *)
Inductive response := Response (status : Z) (body : bytes) (broken : bool) | NoResponse.
Inductive storageError := Unreached | Status (code : Z) (msg : bytes) | Broken | TooLarge (max : Z).

(** [io.ReadAll(io.LimitReader(body, n))]; an error past the limit is not seen. *)
Definition read_limited (n : Z) (body : bytes) (broken : bool) : result bytes storageError :=
  if broken && (Z.of_nat (length body) <? n) then Err Broken else Ok (take (Z.to_nat n) body).

(** [Put], [Get]. *)
Definition Put (s : Storage) (key contentType body : bytes) (now : Z) (net : request -> response) : request * option storageError :=
  let r := sign s (new_request s (bs "PUT") key contentType body) body now in
  (r, match net r with
      | NoResponse => Some Unreached
      | Response status msg broken => if status =? 200 then None else Some (Status status (take 512 msg))
      end).
Definition Get (s : Storage) (key : bytes) (maxBytes : Z) (now : Z) (net : request -> response) : request * result bytes storageError :=
  let r := sign s (new_request s (bs "GET") key (bs "application/octet-stream") []) [] now in
  (r, match net r with
      | NoResponse => Err Unreached
      | Response status body broken =>
          if status =? 200 then
            match read_limited (i64 (maxBytes + 1)) body broken with
            | Err e => Err e
            | Ok b => if maxBytes <? Z.of_nat (length b) then Err (TooLarge maxBytes) else Ok b
            end
          else Err (Status status (take 512 body))
      end).

(** ** What a server checks *)

(** A server's check of a signed request, after AWS's description of the
    scheme: it takes the credential and the signature from the Authorization
    header, everything else from what it received, and its own copy of the
    secret. *)
Definition after (p : string) (s : bytes) : option bytes := if HasPrefix s (bs p) then Some (drop (length (bs p)) s) else None.
Definition server_accepts (secret_of : bytes -> option bytes) (r : request) : bool :=
  match Split 44 (header r "Authorization") with
  | [credential; signed; signature] =>
      match after "AWS4-HMAC-SHA256 Credential=" credential, after " SignedHeaders=" signed, after " Signature=" signature with
      | Some credential, Some signed, Some signature =>
          match Split 47 credential with
          | [access; day; region; service; kind] =>
              match secret_of access with
              | Some secret =>
                  let date := header r "X-Amz-Date" in
                  let hash := header r "X-Amz-Content-Sha256" in
                  let scope := day ++ [47] ++ region ++ [47] ++ service ++ [47] ++ kind in
                  bool_decide (hash = hex_text (sha256 (rq_body r))) && bool_decide (Some day = (fst <$> Cut 84 date)) && bool_decide (signed = signedHeaders) &&
                  bool_decide (region = minioRegion) && bool_decide (service = bs "s3") && bool_decide (kind = bs "aws4_request") &&
                  bool_decide (signature = hex_text (hmacSHA256 (hmacSHA256 (hmacSHA256 (hmacSHA256 (hmacSHA256 (bs "AWS4" ++ secret) day) region) service) kind)
                                 (stringToSign date scope (canonicalRequest r hash date))))
              | None => false
              end
          | _ => false
          end
      | _, _, _ => false
      end
  | _ => false
  end.
End storage.

(** ** Dates and digits *)

Definition date_char (c : Z) : bool := (c =? 45) || between 48 c 57.

Lemma digit_char d : 0 <= d < 10 -> date_char (48 + d) = true.
Proof. intros H. apply orb_true_iff. right. apply andb_true_iff. split; apply Z.leb_le; lia. Qed.

Lemma decimal_chars n : Forall (fun c => date_char c = true) (Campaign.decimal n).
Proof.
  assert (forall k n acc, 0 <= n -> Forall (fun c => date_char c = true) acc -> Forall (fun c => date_char c = true) (Campaign.digits k n acc)) as Hd.
  { induction k as [|k IH]; intros m acc Hm Ha; [done|]. cbn [Campaign.digits]. destruct (Z.ltb_spec m 10).
    - constructor; [by apply digit_char|done].
    - apply IH; [by apply Z.div_pos|]. constructor; [|done]. apply digit_char. by apply Z.mod_pos_bound. }
  unfold Campaign.decimal. destruct (Z.ltb_spec n 0); [constructor; [done|]|]; apply Hd; (lia || constructor).
Qed.

Lemma pad_chars k n : Forall (fun c => date_char c = true) (pad k n).
Proof. unfold pad. apply Forall_app. split; [|apply decimal_chars]. by apply Forall_replicate. Qed.

Lemma day_chars t : Forall (fun c => date_char c = true) (day_of t).
Proof. unfold day_of. destruct (civil _) as [[y m] d]. rewrite !Forall_app. split_and!; apply pad_chars. Qed.

Lemma day_free t c : date_char c = false -> c ∉ day_of t.
Proof. intros Hc Hin. pose proof (day_chars t) as H. rewrite Forall_forall in H. apply H in Hin. congruence. Qed.

Lemma hex_free s c : Forall (fun b => 0 <= b < 256) s -> c < 48 -> c ∉ hex_text s.
Proof.
  intros Hs Hc. induction Hs as [|b s Hb _ IH]; [apply not_elem_of_nil|]. cbn [hex_text flat_map app]. rewrite !not_elem_of_cons.
  pose proof (Z.mod_pos_bound b 16). pose proof (Z.div_pos b 16). unfold LlmTurn.hex. split_and!; [| |done]; case_match; lia.
Qed.

Section promises.
Variable sha256 : bytes -> bytes.
Variable hmacSHA256 : bytes -> bytes -> bytes.
Variable EscapedPath : bytes -> bytes.
Hypothesis hmac_bytes : forall k d, Forall (fun b => 0 <= b < 256) (hmacSHA256 k d).
#[local] Set Default Proof Using "All".

Lemma after_app p s : after p (bs p ++ s) = Some s.
Proof. unfold after. by rewrite HasPrefix_self, drop_app_length. Qed.

Lemma sign_headers s r body now :
  let q := sign sha256 hmacSHA256 EscapedPath s r body now in
  header q "X-Amz-Date" = amz_date now /\ header q "X-Amz-Content-Sha256" = hex_text (sha256 body) /\ header q "Content-Type" = header r "Content-Type" /\
  rq_body q = rq_body r /\ rq_Method q = rq_Method r /\ rq_Host q = rq_Host r /\ rq_path q = rq_path r /\ rq_query q = rq_query r.
Proof.
  cbn zeta. unfold header, sign, Set_. cbn [rq_headers rq_body rq_Method rq_Host rq_path rq_query].
  split_and!; try done; repeat first [rewrite lookup_insert_eq | rewrite lookup_insert_ne by done]; done.
Qed.

Lemma canonical_signed v q h d : canonicalRequest EscapedPath (Set_ "Authorization" v q) h d = canonicalRequest EscapedPath q h d.
Proof. unfold canonicalRequest, header, Set_. cbn [rq_headers rq_Method rq_path rq_query rq_Host]. by rewrite lookup_insert_ne. Qed.

Lemma sign_authorization s r body now :
  header (sign sha256 hmacSHA256 EscapedPath s r body now) "Authorization" =
  (bs "AWS4-HMAC-SHA256 Credential=" ++ AccessKey s ++ bs "/" ++ scope_of (day_of now)) ++ 44 ::
  (bs " SignedHeaders=" ++ signedHeaders) ++ 44 :: bs " Signature=" ++
  hex_text (hmacSHA256 (signingKey hmacSHA256 (SecretKey s) (day_of now))
    (stringToSign sha256 (amz_date now) (scope_of (day_of now))
       (canonicalRequest EscapedPath (sign sha256 hmacSHA256 EscapedPath s r body now) (hex_text (sha256 body)) (amz_date now)))).
Proof.
  unfold sign at 2. rewrite canonical_signed. unfold header, sign. unfold Set_ at 1. cbn [rq_headers]. rewrite lookup_insert_eq.
  rewrite <- !app_assoc. reflexivity.
Qed.

Ltac absent :=
  unfold scope_of; rewrite ?not_elem_of_app; split_and?;
  first [done | by apply day_free | by apply (bool_decide_unpack _); vm_compute].

Lemma sign_accepted s secret_of method key contentType body now :
  44 ∉ AccessKey s -> 47 ∉ AccessKey s -> secret_of (AccessKey s) = Some (SecretKey s) ->
  server_accepts sha256 hmacSHA256 EscapedPath secret_of
    (sign sha256 hmacSHA256 EscapedPath s (new_request s method key contentType body) body now) = true.
Proof.
  intros H44 H47 Hsec. set (r := new_request s method key contentType body).
  destruct (sign_headers s r body now) as (Hd & Hh & Hc & Hb & Hm & Hho & Hp & Hq). unfold server_accepts.
  rewrite (sign_authorization s r body now). set (sig := hex_text (hmacSHA256 _ _)).
  rewrite (Split_field 44 (bs "AWS4-HMAC-SHA256 Credential=" ++ AccessKey s ++ bs "/" ++ scope_of (day_of now))) by absent.
  rewrite (Split_field 44 (bs " SignedHeaders=" ++ signedHeaders)) by absent.
  rewrite Split_last by (rewrite not_elem_of_app; split; [absent|by apply hex_free]).
  rewrite !after_app.
  change (AccessKey s ++ bs "/" ++ scope_of (day_of now)) with
    (AccessKey s ++ 47 :: day_of now ++ 47 :: minioRegion ++ 47 :: bs "s3" ++ 47 :: bs "aws4_request").
  rewrite (Split_field 47 (AccessKey s)) by done. rewrite (Split_field 47 (day_of now)) by absent.
  rewrite (Split_field 47 minioRegion) by absent. rewrite (Split_field 47 (bs "s3")) by absent. rewrite Split_last by absent.
  rewrite Hsec. cbn zeta. rewrite Hd, Hh, Hb. change (rq_body r) with body. rewrite !bool_decide_true; try done.
  unfold amz_date. change (bs "T" ++ ?x) with (84 :: x). by rewrite Cut_field by absent.
Qed.

End promises.

Definition ex_storage : Storage := mkStorage (bs "minio:9000") (bs "key") (bs "secret") (bs "voice-audio") false.
Definition toy_hmac (k d : bytes) : bytes := [Z.of_nat (length k + length d) mod 256].

Example put_ex :
  let '(r, e) := Put (fun b => [Z.of_nat (length b) mod 256]) toy_hmac (fun p => p) ex_storage (bs "recordings/7.wav") (bs "audio/wav") [1; 2; 3] 1759917600 (fun _ => NoResponse) in
  (header r "X-Amz-Date", header r "Authorization", e) =
  (bs "20251008T100000Z", bs "AWS4-HMAC-SHA256 Credential=key/20251008/us-east-1/s3/aws4_request, SignedHeaders=content-type;host;x-amz-content-sha256;x-amz-date, Signature=48", Some Unreached).
Proof. vm_compute. done. Qed.

