(* ===== verification/AudioTap.v ===== *)
(** The live audio tap of a call (internal/media/audiotap.go): its subscribers'
    channels, the publishing that never waits, and the two ways a channel is
    closed. A step is what runs under the tap's lock, or the close that an
    unsubscription does after it; [None] is Go's panic (a send on a closed
    channel, a second close). *)

From stdpp Require Import gmap strings.
From S2P Require Import Prelude Text.

Local Open Scope Z_scope.

(** A subscriber's channel: what its listener has taken, what waits in it, whether it
    is closed. Its [sync.Once] is done when it has closed it. *)
Record chan := mkChan { taken : list bytes; buffered : list bytes; isClosed : bool; onceDone : bool }.
#[global] Instance eta_chan : Eta chan := fun r => mkChan (taken r) (buffered r) (isClosed r) (onceDone r).

(** The tap, the channels it made, in order, and the unsubscriptions that have
    left the map and not closed their channel yet. *)
Record AudioTap := mkTap { closed : bool; subs : gset nat; chans : list chan; leaving : list nat }.
#[global] Instance eta_tap : Eta AudioTap := fun r => mkTap (closed r) (subs r) (chans r) (leaving r).
Local Open Scope record_scope.

Definition NewAudioTap : AudioTap := mkTap false ∅ [] [].

Definition capacity : nat := 32.

(** [ch <- cp] in a select with a default. *)
Definition offer (frame : bytes) (c : chan) : option chan :=
  if isClosed c then None
  else Some (if (length (buffered c) <? capacity)%nat then c <| buffered ::= fun l => l ++ [frame] |> else c).

(** [once.Do(func() { close(ch) })]. *)
Definition close_once (c : chan) : option chan :=
  if onceDone c then Some c else if isClosed c then None else Some (c <| isClosed := true |> <| onceDone := true |>).

(** A step on each of the channels in a set. *)
Definition update (f : chan -> option chan) (n : nat) (l : list chan) : option (list chan) :=
  match l !! n with Some c => c' ← f c; Some (<[n := c']> l) | None => Some l end.
Definition update_all (f : chan -> option chan) (ns : list nat) (l : list chan) : option (list chan) :=
  fold_left (fun r n => l ← r; update f n l) ns (Some l).

Definition Publish (frame : bytes) (t : AudioTap) : option AudioTap :=
  if closed t || bool_decide (subs t = ∅) then Some t
  else l ← update_all (offer frame) (elements (subs t)) (chans t); Some (t <| chans := l |>).

(** [Subscribe]: the new channel's number is the length before; a closed tap
    gives a closed one, and its unsubscription does nothing. *)
Definition Subscribe (t : AudioTap) : AudioTap :=
  let n := length (chans t) in
  if closed t then t <| chans ::= fun l => l ++ [mkChan [] [] true true] |>
  else t <| chans ::= fun l => l ++ [mkChan [] [] false false] |> <| subs ::= fun s => {[n]} ∪ s |>.

(** The unsubscription: under the lock, then after it. *)
Definition unsubscribe (n : nat) (t : AudioTap) : AudioTap :=
  if bool_decide (n ∈ subs t) then t <| subs ::= fun s => s ∖ {[n]} |> <| leaving ::= fun l => l ++ [n] |> else t.
Definition unsubscribed (n : nat) (t : AudioTap) : option AudioTap :=
  if bool_decide (n ∈ leaving t) then
    l ← update close_once n (chans t); Some (t <| chans := l |> <| leaving ::= base.filter (fun m => m <> n) |>)
  else Some t.

Definition Close (t : AudioTap) : option AudioTap :=
  if closed t then Some t
  else l ← update_all close_once (elements (subs t)) (chans t); Some (t <| closed := true |> <| chans := l |> <| subs := ∅ |>).

(** A listener takes a frame. *)
Definition take_frame (n : nat) (t : AudioTap) : AudioTap :=
  match chans t !! n with
  | Some c => match buffered c with
              | f :: r => t <| chans ::= <[n := c <| taken ::= fun l => l ++ [f] |> <| buffered := r |>]> |>
              | [] => t
              end
  | None => t
  end.

Inductive label := LPublish (frame : bytes) | LSubscribe | LUnsubscribe (n : nat) | LUnsubscribed (n : nat) | LClose | LTake (n : nat).
Definition step (t : AudioTap) (l : label) : option AudioTap :=
  match l with
  | LPublish frame => Publish frame t
  | LSubscribe => Some (Subscribe t)
  | LUnsubscribe n => Some (unsubscribe n t)
  | LUnsubscribed n => unsubscribed n t
  | LClose => Close t
  | LTake n => Some (take_frame n t)
  end.
Definition run (ls : list label) (t : AudioTap) : option AudioTap := fold_left (fun r l => t ← r; step t l) ls (Some t).

(** ** The calls' taps *)

Record taps := mkTaps { byCall : gmap bytes nat; made : list AudioTap }.

(** [RegisterAudioTap]; the tap made is the last. *)
Definition RegisterAudioTap (id : bytes) (s : taps) : taps := mkTaps (<[id := length (made s)]> (byCall s)) (made s ++ [NewAudioTap]).
Definition UnregisterAudioTap (id : bytes) (s : taps) : option taps :=
  match byCall s !! id with
  | Some n => match made s !! n with
              | Some t => t' ← Close t; Some (mkTaps (delete id (byCall s)) (<[n := t']> (made s)))
              | None => Some s
              end
  | None => Some s
  end.
Definition LookupAudioTap (id : bytes) (s : taps) : option AudioTap := n ← byCall s !! id; made s !! n.

Example tap_ex :
  (fun t => (closed t, chans t)) <$>
    run [LSubscribe; LPublish [1]; LSubscribe; LPublish [2]; LTake 0; LUnsubscribe 0; LPublish [3]; LClose; LUnsubscribed 0; LUnsubscribe 0; LPublish [4]; LTake 1] NewAudioTap =
  Some (true, [mkChan [[1]] [[2]] true true; mkChan [[2]] [[3]] true true]).
Proof. vm_compute. done. Qed.

(** ** No panic, every channel closed once, frames in order *)

Lemma update_all_spec f ns l :
  NoDup ns -> (forall n, n ∈ ns -> exists c c', l !! n = Some c /\ f c = Some c') ->
  exists l', update_all f ns l = Some l' /\ length l' = length l /\ forall n, l' !! n = if decide (n ∈ ns) then c ← l !! n; f c else l !! n.
Proof.
  unfold update_all. intros Hn. revert l. induction Hn as [|n ns Hn _ IH]; intros l Hf; [by exists l|].
  destruct (Hf n) as (c & c' & Hc & Hc'); [left|]. cbn [fold_left mbind option_bind]. unfold update at 2. rewrite Hc. cbn [mbind option_bind]. rewrite Hc'. cbn [mbind option_bind].
  destruct (IH (<[n := c']> l)) as (l' & E & Hl & Hlk).
  - intros m Hm. rewrite list_lookup_insert_ne by (by intros ->). apply Hf. by right.
  - exists l'. split; [exact E|]. split; [by rewrite Hl, length_insert|]. intros m. rewrite Hlk. destruct (decide (m = n)) as [->|Hm].
    + rewrite decide_False, decide_True by (done || left). rewrite list_lookup_insert_eq by (by apply lookup_lt_Some in Hc). by rewrite Hc.
    + rewrite list_lookup_insert_ne by done. destruct (decide (m ∈ ns)); [rewrite decide_True by (by right)|rewrite decide_False by (rewrite elem_of_cons; naive_solver)]; done.
Qed.

Definition open (t : AudioTap) (n : nat) : Prop := exists c, chans t !! n = Some c /\ isClosed c = false /\ onceDone c = false.

(** What the operations keep: the subscribers in the map and those leaving have
    open channels, all others closed ones. *)
Record wf (t : AudioTap) : Prop := {
  wf_open : forall n, n ∈ subs t \/ n ∈ leaving t -> open t n;
  wf_apart : forall n, n ∈ subs t -> n ∈ leaving t -> False;
  wf_closed : closed t = true -> subs t = ∅;
  wf_rest : forall n c, chans t !! n = Some c -> isClosed c = onceDone c /\ (isClosed c = true \/ n ∈ subs t \/ n ∈ leaving t);
  wf_room : forall n c, chans t !! n = Some c -> (length (buffered c) <= capacity)%nat;
}.

(** What a listener took and has waiting are published frames in their order. *)
Definition heard (frames : list bytes) (t : AudioTap) : Prop :=
  forall n c, chans t !! n = Some c -> taken c ++ buffered c `sublist_of` frames.
Definition published (ls : list label) : list bytes := omap (fun l => match l with LPublish f => Some f | _ => None end) ls.

Lemma tap_wf0 : wf NewAudioTap /\ heard [] NewAudioTap.
Proof. split; [split; cbn; set_solver|by intros n c H]. Qed.

Lemma publish_wf frames f t : wf t -> heard frames t -> exists t', Publish f t = Some t' /\ wf t' /\ heard (frames ++ [f]) t'.
Proof.
  intros W H. assert (heard (frames ++ [f]) t) as H1.
  { intros n c Hc. rewrite <- (app_nil_r (taken c ++ buffered c)). apply sublist_app; [by eapply H|apply sublist_nil_l]. }
  unfold Publish. destruct (closed t || bool_decide (subs t = ∅)); [by exists t|].
  destruct (update_all_spec (offer f) (elements (subs t)) (chans t)) as (l & -> & Hl & Hlk); [apply NoDup_elements| |].
  { intros n Hn. rewrite elem_of_elements in Hn. destruct (wf_open _ W n (or_introl Hn)) as (c & Hc & Ho & _). exists c. unfold offer. rewrite Ho. eauto. }
  cbn [mbind option_bind]. eexists. split; [done|].
  assert (forall n c', l !! n = Some c' -> exists c, chans t !! n = Some c /\ isClosed c' = isClosed c /\ onceDone c' = onceDone c /\ taken c' = taken c /\
    (buffered c' = buffered c \/ buffered c' = buffered c ++ [f] /\ (length (buffered c) < capacity)%nat)) as Hsame.
  { intros n c' Hc'. rewrite Hlk in Hc'. destruct (decide _); [|exists c'; eauto 10]. destruct (chans t !! n) as [c|]; [|done]. cbn in Hc'. unfold offer in Hc'.
    destruct (isClosed c) eqn:Ei; [done|]. injection Hc' as <-. exists c. destruct (Nat.ltb_spec (length (buffered c)) capacity); cbn; eauto 10. }
  split; [split|]; cbn.
  - intros n Hn. destruct (wf_open _ W n Hn) as (c & Hc & Ho & Hd). unfold open. cbn.
    destruct (l !! n) as [c'|] eqn:E; [destruct (Hsame _ _ E) as (c2 & Hc2 & H2 & H3 & _); exists c'; split; [done|]; split; congruence|].
    apply lookup_ge_None in E. apply lookup_lt_Some in Hc. lia.
  - apply (wf_apart _ W).
  - apply (wf_closed _ W).
  - intros n c' Hc'. destruct (Hsame _ _ Hc') as (c & Hc & -> & -> & _). by apply (wf_rest _ W n c).
  - intros n c' Hc'. destruct (Hsame _ _ Hc') as (c & Hc & _ & _ & _ & [->|[-> Hlt]]); [by apply (wf_room _ W n c)|]. rewrite length_app. cbn. lia.
  - intros n c' Hc'. destruct (Hsame _ _ Hc') as (c & Hc & _ & _ & -> & [->|[-> _]]); [by apply (H1 n c)|].
    rewrite app_assoc. apply sublist_app; [by apply (H n c)|done].
Qed.

Lemma subscribe_wf frames t : wf t -> heard frames t -> wf (Subscribe t) /\ heard frames (Subscribe t).
Proof.
  intros W H. set (fresh := mkChan [] [] (closed t) (closed t)).
  assert (chans (Subscribe t) = chans t ++ [fresh] /\ leaving (Subscribe t) = leaving t /\ closed (Subscribe t) = closed t /\
    subs (Subscribe t) = if closed t then subs t else {[length (chans t)]} ∪ subs t) as (Ec & El & Ek & Es).
  { clear. subst fresh. destruct t as [[] s c l]; done. }
  assert (forall n, n ∈ subs t \/ n ∈ leaving t -> (n < length (chans t))%nat) as Hlt.
  { intros n Hn. destruct (wf_open _ W n Hn) as (c & Hc & _). by apply lookup_lt_Some in Hc. }
  assert (forall n c, (chans t ++ [fresh]) !! n = Some c -> chans t !! n = Some c \/ n = length (chans t) /\ c = fresh) as Hlk.
  { intros n c Hc. by apply lookup_snoc_Some in Hc as [[_ Hc]|[-> ->]]; [left|right]. }
  split; [split|]; unfold open; rewrite ?Ec, ?El, ?Ek, ?Es.
  - intros n Hn. assert (n ∈ subs t \/ n ∈ leaving t \/ n = length (chans t) /\ closed t = false) as [Ho|[Ho|[-> Hk]]].
    { destruct (closed t); [naive_solver|]. set_solver. }
    + destruct (wf_open _ W n (or_introl Ho)) as (c & Hc & Hr). exists c. split; [by apply lookup_app_l_Some|done].
    + destruct (wf_open _ W n (or_intror Ho)) as (c & Hc & Hr). exists c. split; [by apply lookup_app_l_Some|done].
    + exists fresh. split; [by rewrite lookup_app_r, Nat.sub_diag by lia|]. unfold fresh. by rewrite Hk.
  - intros n Hs Hl. destruct (closed t); [by apply (wf_apart _ W n)|]. apply elem_of_union in Hs as [Hs|Hs]; [|by apply (wf_apart _ W n)].
    apply elem_of_singleton in Hs as ->. specialize (Hlt _ (or_intror Hl)). lia.
  - intros Hk. rewrite Hk. by apply (wf_closed _ W).
  - intros n c Hc. destruct (Hlk n c Hc) as [Hc'|[-> ->]].
    + destruct (wf_rest _ W n c Hc') as [H1 H2]. split; [done|]. destruct (closed t); [done|]. set_solver.
    + split; [done|]. destruct (closed t) eqn:Ek'; [by left|]. right. left. set_solver.
  - intros n c Hc. destruct (Hlk n c Hc) as [Hc'|[-> ->]]; [by apply (wf_room _ W n c)|cbn; unfold capacity; lia].
  - intros n c Hc. rewrite Ec in Hc. destruct (Hlk n c Hc) as [Hc'|[-> ->]]; [by apply (H n c)|apply sublist_nil_l].
Qed.

Lemma unsubscribe_wf frames n t : wf t -> heard frames t -> wf (unsubscribe n t) /\ heard frames (unsubscribe n t).
Proof.
  intros W H. unfold unsubscribe. case_bool_decide as Hn; [|done]. split; [|exact H]. split; unfold open; cbn.
  - intros m Hm. apply (wf_open _ W). destruct Hm as [Hm|Hm]; [set_solver|]. apply elem_of_app in Hm as [Hm|Hm%list_elem_of_singleton]; [by right|subst; by left].
  - intros m Hs Hl. apply elem_of_difference in Hs as [Hs Hne]. apply elem_of_app in Hl as [Hl|Hl%list_elem_of_singleton]; [by apply (wf_apart _ W m)|set_solver].
  - intros Hk. rewrite (wf_closed _ W Hk) in Hn. set_solver.
  - intros m c Hc. destruct (wf_rest _ W m c Hc) as [H1 H2]. split; [done|]. destruct H2 as [H2|[H2|H2]]; [by left| |right; right; apply elem_of_app; by left].
    right. destruct (decide (m = n)) as [->|Hm]; [right; apply elem_of_app; right; by apply list_elem_of_singleton|left; set_solver].
  - apply (wf_room _ W).
Qed.

Lemma close_once_open c : isClosed c = false -> onceDone c = false -> close_once c = Some (mkChan (taken c) (buffered c) true true).
Proof. unfold close_once. by intros -> ->. Qed.

Lemma unsubscribed_wf frames n t : wf t -> heard frames t -> exists t', unsubscribed n t = Some t' /\ wf t' /\ heard frames t'.
Proof.
  intros W H. unfold unsubscribed. case_bool_decide as Hn; [|by exists t]. destruct (wf_open _ W n (or_intror Hn)) as (c & Hc & Ho & Hd).
  unfold update. rewrite Hc. cbn [mbind option_bind]. rewrite close_once_open by done. cbn [mbind option_bind]. eexists. split; [done|].
  assert (forall m x, <[n := mkChan (taken c) (buffered c) true true]> (chans t) !! m = Some x ->
    m = n /\ x = mkChan (taken c) (buffered c) true true \/ m <> n /\ chans t !! m = Some x) as Hlk.
  { intros m x Hx. apply list_lookup_insert_Some in Hx as [(-> & <- & _)|[Hm Hx]]; [by left|by right]. }
  split; [split|]; unfold open; cbn.
  - intros m Hm. assert (m <> n /\ (m ∈ subs t \/ m ∈ leaving t)) as [Hne Hm'].
    { destruct Hm as [Hm|Hm]; [split; [intros ->; by apply (wf_apart _ W n)|by left]|]. apply list_elem_of_filter in Hm as [? ?]. auto. }
    rewrite list_lookup_insert_ne by done. by apply (wf_open _ W).
  - intros m Hs Hl. apply list_elem_of_filter in Hl as [_ Hl]. by apply (wf_apart _ W m).
  - apply (wf_closed _ W).
  - intros m x Hx. destruct (Hlk m x Hx) as [[-> ->]|[Hm Hx']]; [split; [done|by left]|]. destruct (wf_rest _ W m x Hx') as [H1 H2]. split; [done|].
    destruct H2 as [H2|[H2|H2]]; [by left|right; by left|right; right; by apply list_elem_of_filter].
  - intros m x Hx. destruct (Hlk m x Hx) as [[-> ->]|[Hm Hx']]; [by apply (wf_room _ W n c)|by apply (wf_room _ W m x)].
  - intros m x Hx. destruct (Hlk m x Hx) as [[-> ->]|[Hm Hx']]; [by apply (H n c)|by apply (H m x)].
Qed.

Lemma close_wf frames t : wf t -> heard frames t -> exists t', Close t = Some t' /\ wf t' /\ heard frames t' /\ closed t' = true.
Proof.
  intros W H. unfold Close. destruct (closed t) eqn:Ek; [by exists t|].
  destruct (update_all_spec close_once (elements (subs t)) (chans t)) as (l & -> & Hl & Hlk); [apply NoDup_elements| |].
  { intros n Hn. rewrite elem_of_elements in Hn. destruct (wf_open _ W n (or_introl Hn)) as (c & Hc & Ho & Hd). exists c. rewrite close_once_open by done. eauto. }
  cbn [mbind option_bind]. eexists. split; [done|].
  assert (forall n c', l !! n = Some c' -> exists c, chans t !! n = Some c /\ taken c' = taken c /\ buffered c' = buffered c /\
    (n ∈ subs t /\ isClosed c' = true /\ onceDone c' = true \/ n ∉ subs t /\ c' = c)) as Hsame.
  { intros n c' Hc'. rewrite Hlk in Hc'. destruct (decide _) as [Hn|Hn]; rewrite elem_of_elements in Hn; [|exists c'; eauto 10].
    destruct (wf_open _ W n (or_introl Hn)) as (c & Hc & Ho & Hd). rewrite Hc in Hc'. cbn in Hc'. rewrite close_once_open in Hc' by done. injection Hc' as <-. exists c. eauto 10. }
  split; [split|split; [|done]]; unfold open; cbn.
  - intros n [Hn|Hn]; [set_solver|]. rewrite Hlk, decide_False; [by apply (wf_open _ W); right|]. rewrite elem_of_elements. intros Hs. by apply (wf_apart _ W n).
  - intros n Hn. set_solver.
  - done.
  - intros n c' Hc'. destruct (Hsame _ _ Hc') as (c & Hc & _ & _ & [(_ & -> & ->)|[Hn ->]]); [split; [done|by left]|].
    destruct (wf_rest _ W n c Hc) as [H1 [H2|[H2|H2]]]; [split; [done|by left]|done|split; [done|right; by right]].
  - intros n c' Hc'. destruct (Hsame _ _ Hc') as (c & Hc & _ & -> & _). by apply (wf_room _ W n c).
  - intros n c' Hc'. destruct (Hsame _ _ Hc') as (c & Hc & -> & -> & _). by apply (H n c).
Qed.

Lemma take_wf frames n t : wf t -> heard frames t -> wf (take_frame n t) /\ heard frames (take_frame n t).
Proof.
  intros W H. unfold take_frame. destruct (chans t !! n) as [c|] eqn:Hc; [|done]. destruct (buffered c) as [|f r] eqn:Eb; [done|].
  set (c1 := c <| taken ::= _ |> <| buffered := r |>).
  assert (isClosed c1 = isClosed c /\ onceDone c1 = onceDone c /\ taken c1 = taken c ++ [f] /\ buffered c1 = r) as (E1 & E2 & E3 & E4) by (by destruct c).
  assert (forall m x, <[n := c1]> (chans t) !! m = Some x -> exists c0, chans t !! m = Some c0 /\ isClosed x = isClosed c0 /\ onceDone x = onceDone c0 /\
    taken x ++ buffered x = taken c0 ++ buffered c0 /\ (length (buffered x) <= length (buffered c0))%nat) as Hlk.
  { intros m x Hx. apply list_lookup_insert_Some in Hx as [(<- & <- & _)|[Hm Hx]]; [|exists x; eauto 10]. exists c. rewrite E3, E4, Eb, <- app_assoc. cbn. eauto 10. }
  split; [split|]; unfold open; cbn.
  - intros m Hm. destruct (wf_open _ W m Hm) as (c0 & Hc0 & Ho & Hd). destruct (decide (m = n)) as [->|Hne].
    + exists c1. rewrite Hc in Hc0. injection Hc0 as <-. rewrite list_lookup_insert_eq by (by apply lookup_lt_Some in Hc). by rewrite E1, E2.
    + exists c0. by rewrite list_lookup_insert_ne.
  - apply (wf_apart _ W).
  - apply (wf_closed _ W).
  - intros m x Hx. destruct (Hlk m x Hx) as (c0 & Hc0 & -> & -> & _). by apply (wf_rest _ W m c0).
  - intros m x Hx. destruct (Hlk m x Hx) as (c0 & Hc0 & _ & _ & _ & Hle). pose proof (wf_room _ W m c0 Hc0). lia.
  - intros m x Hx. destruct (Hlk m x Hx) as (c0 & Hc0 & _ & _ & -> & _). by apply (H m c0).
Qed.

Lemma step_wf frames t l : wf t -> heard frames t -> exists t', step t l = Some t' /\ wf t' /\ heard (frames ++ published [l]) t'.
Proof.
  intros W H. destruct l as [f| |n|n| |n]; cbn [step published omap list_omap]; rewrite ?app_nil_r; [by apply publish_wf|..].
  - eexists. split; [done|]. by apply subscribe_wf.
  - eexists. split; [done|]. by apply unsubscribe_wf.
  - by apply unsubscribed_wf.
  - destruct (close_wf frames t W H) as (t' & E & W' & H' & _). by exists t'.
  - eexists. split; [done|]. by apply take_wf.
Qed.

Lemma run_wf ls frames t : wf t -> heard frames t -> exists t', run ls t = Some t' /\ wf t' /\ heard (frames ++ published ls) t'.
Proof.
  revert frames t. induction ls as [|l ls IH]; intros frames t W H; [exists t; cbn; by rewrite app_nil_r|].
  destruct (step_wf frames t l W H) as (t1 & E & W1 & H1). unfold run. cbn [fold_left mbind option_bind]. rewrite E.
  destruct (IH _ _ W1 H1) as (t' & E' & W' & H'). exists t'. split; [exact E'|]. split; [done|].
  rewrite <- app_assoc in H'. unfold published in *. by rewrite <- omap_app in H'.
Qed.

(** C17: Whatever publishing, subscribing, unsubscribing (twice or at once with
    the call's end included) and listening do to a tap in whatever order, no
    frame is sent on a closed channel and no channel is closed twice; a listener
    hears frames of the call in their order, at most 32 waiting for it; and once
    the call is over and the unsubscriptions done, every channel is closed. *)
Theorem tap_safe (ls : list label) :
  exists t, run ls NewAudioTap = Some t /\
    (forall n c, chans t !! n = Some c -> taken c ++ buffered c `sublist_of` published ls /\ (length (buffered c) <= capacity)%nat) /\
    (closed t = true -> leaving t = [] -> forall n c, chans t !! n = Some c -> isClosed c = true).
Proof.
  destruct tap_wf0 as [W H]. destruct (run_wf ls [] NewAudioTap W H) as (t & E & Wt & Ht). exists t. split; [exact E|]. split.
  - intros n c Hc. split; [by apply (Ht n c)|by apply (wf_room _ Wt n c)].
  - intros Hk Hl n c Hc. destruct (wf_rest _ Wt n c Hc) as [_ [Ho|[Ho|Ho]]]; [done| |].
    + rewrite (wf_closed _ Wt Hk) in Ho. set_solver.
    + rewrite Hl in Ho. by apply elem_of_nil in Ho.
Qed.

(** A call's listeners are found while its tap is registered, and let go with it. *)
Theorem taps_registered (id : bytes) (s : taps) :
  LookupAudioTap id (RegisterAudioTap id s) = Some NewAudioTap /\
  forall s', UnregisterAudioTap id s = Some s' -> LookupAudioTap id s' = None \/ exists n, byCall s !! id = Some n /\ made s !! n = None.
Proof.
  split.
  - unfold LookupAudioTap, RegisterAudioTap. cbn. rewrite lookup_insert_eq. cbn. by rewrite lookup_app_r, Nat.sub_diag by lia.
  - intros s'. unfold UnregisterAudioTap, LookupAudioTap. destruct (byCall s !! id) as [n|] eqn:E.
    + destruct (made s !! n) as [t|] eqn:Em; [|intros _; right; eauto]. destruct (Close t); [|done]. intros [= <-]. left. cbn. by rewrite lookup_delete_eq.
    + intros [= <-]. left. by rewrite E.
Qed.
