(* ===== verification/Server.v ===== *)
(** The server's start and end (cmd/server/main.go), the ARI client's connection
    (internal/ari/client.go) and the raw externalMedia request
    (internal/ari/externalmedia.go). What the outside answers, a connection, a
    ping, a signal, is in a record; [url.Parse], the JSON coder and the random
    bytes are parameters. *)

From Stdlib Require Import SpecFloat.
From stdpp Require Import gmap strings.
From S2P Require Import Prelude Text LlmTurn Esl FreeSwitch Outbound PortAlloc Config.

Local Open Scope Z_scope.

(** ** Connecting to ARI *)

Definition millisecond : Z := 1000000.
Definition second : Z := 1000000000.
Definition initialBackoff : Z := 500 * millisecond.
Definition maxBackoff : Z := 30 * second.

(** How an attempt ends: connected, with an error (and whether the process was
    told to stop in the wait after it), or left behind when it was told to stop. *)
Inductive attempt := Succeeds | Fails (stopped : bool) | Abandoned.
Inductive connectEnd := Connected | GaveUp.

(** [Connect], over the attempts that come: the waits and the end, if there is
    one among them. *)
Fixpoint connect (backoff : Z) (l : list attempt) : list Z * option connectEnd :=
  match l with
  | [] => ([], None)
  | Succeeds :: _ => ([], Some Connected)
  | Abandoned :: _ => ([], Some GaveUp)
  | Fails true :: _ => ([backoff], Some GaveUp)
  | Fails false :: r =>
      let next := backoff * 2 in
      let '(ws, e) := connect (if maxBackoff <? next then maxBackoff else next) r in (backoff :: ws, e)
  end.
Definition Connect : list attempt -> list Z * option connectEnd := connect initialBackoff.

(** [watchReconnects]: the reconnections counted over the polls. *)
Definition watchStep (s : bool * Z) (now : bool) : bool * Z := (now, if now && negb s.1 then s.2 + 1 else s.2).
Definition watchReconnects (up : bool) (polls : list bool) : bool * Z := fold_left watchStep polls (up, 0).

(** A parsed URL: its scheme, its path, the rest; [websocketURL]. *)
Record URL := mkURL { Scheme : bytes; Path : bytes; u_rest : bytes }.
Definition TrimSuffix (s p : bytes) : bytes := if HasPrefix (rev s) (rev p) then take (length s - length p) s else s.
Definition websocketURL (parse : bytes -> option URL) (ariURL : bytes) : option URL :=
  u ← parse ariURL;
  Some (mkURL (if bool_decide (Scheme u = bs "https") then bs "wss" else bs "ws") (TrimSuffix (Path u) (bs "/") ++ bs "/events") (u_rest u)).

(** ** The externalMedia request *)

(** ["%x"] of some bytes; [newUUIDv4] of its sixteen random bytes. *)
Definition hex_text (s : bytes) : bytes := flat_map (fun b => [LlmTurn.hex (b / 16); LlmTurn.hex (b mod 16)]) s.
Definition newUUIDv4 (random : bytes) : bytes :=
  let b := <[6%nat := Z.lor (Z.land (nth 6 random 0) 15) 64]> random in
  let b := <[8%nat := Z.lor (Z.land (nth 8 b 0) 63) 128]> b in
  let part i j := hex_text (take (j - i) (drop i b)) in
  part 0%nat 4%nat ++ bs "-" ++ part 4%nat 6%nat ++ bs "-" ++ part 6%nat 8%nat ++ bs "-" ++ part 8%nat 10%nat ++ bs "-" ++ part 10%nat 16%nat.

(** The body's members and the answer's error. *)
Definition externalMediaBody (channelID app externalHost uuid : bytes) : list (bytes * bytes) :=
  [(bs "channelId", channelID); (bs "app", app); (bs "external_host", externalHost); (bs "encapsulation", bs "audiosocket"); (bs "transport", bs "tcp");
   (bs "connection_type", bs "client"); (bs "format", bs "slin16"); (bs "direction", bs "both"); (bs "data", uuid)].
Definition responseError (what status body : bytes) : bytes :=
  let msg := TrimSpace (take 512 body) in
  if bool_decide (msg = []) then what ++ bs ": " ++ status else what ++ bs ": " ++ status ++ bs ": " ++ msg.
(** The answer, if there was one, as code, status line and body; [None] is
    success. *)
Definition createAudioSocketExternalMedia (answer : option (Z * bytes * bytes)) : option bytes :=
  match answer with
  | None => Some (bs "externalMedia request")
  | Some (code, status, body) => if (code <? 200) || (300 <=? code) then Some (responseError (bs "externalMedia") status body) else None
  end.

(** ** The server *)

(** What the outside answers: how connecting to ARI ends, whether the database
    opens and Redis's URL parses and Redis answers, whether the manager's run
    ends before a signal, whether it drains in time after one, and whether its
    own run fails (FreeSWITCH). *)
Record outside := mkOutside {
  ariConnects : connectEnd; dbOpens : bool; redisParses : bool; redisAnswers : bool; busCloses : bool; drains : bool; managerFails : bool;
  stoppedEarly : bool; testCallSettings : option DialSettings; testCallCreated : option Z; testCallDialed : bool;
}.

Inductive effect :=
  | EStartup | EMetrics | EConnect | EOpenDB (url : bytes) (maxConns : Z) | EUseStorage | EPorts (base count : Z) | ERunManager
  | ETestCall (es : list testEffect) | ETestCallRefused | ECampaigns (maxCalls poll orgLimit ring : Z) | ECloseStore | ECloseClient | EDrainLate.

(** Why the process ends, if not because it was told to. *)
Inductive fatal := BadConfig (r : refusal) | NoARI | NoDB | NoStore | BadRedisURL | NoRedis | BusClosed | ManagerFailed.

(** [openDograh]: whether there is a store, or the database did not open. *)
Definition openDograh (cfg : Config) (o : outside) : list effect * result bool fatal :=
  if bool_decide (DograhDBURL cfg = []) then ([], Ok false)
  else if dbOpens o then
    (EOpenDB (DograhDBURL cfg) (DograhDBMaxConns cfg) :: (if bool_decide (MinioEndpoint cfg = []) then [] else [EUseStorage]), Ok true)
  else ([EOpenDB (DograhDBURL cfg) (DograhDBMaxConns cfg)], Err NoDB).

(** [runOutboundTestCall], with [RunTestCall] of the campaign package. *)
Definition runOutboundTestCall (cfg : Config) (store : bool) (o : outside) : list effect :=
  match ParseTestCall (OutboundTestCall cfg) with
  | None => [ETestCallRefused]
  | Some tc =>
      if negb store then [ETestCallRefused]
      else if stoppedEarly o then []
      else [ETestCall (RunTestCall (testCallSettings o) (testCallCreated o) (testCallDialed o) tc (OutboundRingTimeout cfg)).1]
  end.

(** [newCampaignRunner]. *)
Definition newCampaignRunner (cfg : Config) (store : bool) (o : outside) : result (list effect) fatal :=
  if negb store then Err NoStore
  else if negb (redisParses o) then Err BadRedisURL
  else if negb (redisAnswers o) then Err NoRedis
  else Ok [ECampaigns (OutboundMaxCalls cfg) (CampaignPoll cfg) (OutboundDefaultOrgLimit cfg) (OutboundRingTimeout cfg)].

Definition closing (store : bool) : list effect := (if store then [ECloseStore] else []) ++ [ECloseClient].

(** The end of [run]: the manager's own end, or the drain after a signal. *)
Definition wait_end (o : outside) : list effect * option fatal :=
  if busCloses o then ([], Some BusClosed) else (if drains o then [] else [EDrainLate], None).

(** [runFreeSWITCH]. *)
Definition runFreeSWITCH (cfg : Config) (o : outside) : list effect * option fatal :=
  let '(es, r) := openDograh cfg o in
  match r with
  | Err e => (es, Some e)
  | Ok store => (es ++ [EMetrics; ERunManager] ++ (if store then [ECloseStore] else []), if managerFails o then Some ManagerFailed else None)
  end.

(** [run], of a loaded configuration. *)
Definition runServer (cfg : Config) (o : outside) : list effect * option fatal :=
  if bool_decide (Telephony cfg = bs "freeswitch") then let '(es, e) := runFreeSWITCH cfg o in (EStartup :: es, e)
  else match ariConnects o with
       | GaveUp => ([EStartup; EMetrics; EConnect], Some NoARI)
       | Connected =>
           let '(es, r) := openDograh cfg o in
           let start := [EStartup; EMetrics; EConnect] ++ es in
           match r with
           | Err e => (start ++ [ECloseClient], Some e)
           | Ok store =>
               let start := start ++ [EPorts (MediaPortBase cfg) (MediaPortCount cfg); ERunManager] ++
                            (if bool_decide (OutboundTestCall cfg = []) then [] else runOutboundTestCall cfg store o) in
               match (if CampaignsEnabled cfg then newCampaignRunner cfg store o else Ok []) with
               | Err e => (start ++ closing store, Some e)
               | Ok campaigns => let '(es, e) := wait_end o in (start ++ campaigns ++ es ++ closing store, e)
               end
           end
       end.
Definition runMain (ParseFloat : bytes -> option spec_float) (env : environ) (o : outside) : list effect * option fatal :=
  match Load ParseFloat env with Ok cfg => runServer cfg o | Err r => ([], Some (BadConfig r)) end.

(** ** Connecting *)

Lemma connect_fails n l b :
  0 < b <= maxBackoff ->
  connect b (replicate n (Fails false) ++ l) =
  (map (fun i => Z.min maxBackoff (b * 2 ^ Z.of_nat i)) (seq 0 n) ++ (connect (Z.min maxBackoff (b * 2 ^ Z.of_nat n)) l).1,
   (connect (Z.min maxBackoff (b * 2 ^ Z.of_nat n)) l).2).
Proof.
  revert b. induction n as [|n IH]; intros b Hb.
  - cbn [replicate app seq map]. change (2 ^ Z.of_nat 0) with 1. rewrite Z.mul_1_r, Z.min_r by lia. by destruct (connect b l).
  - cbn [replicate app connect seq map]. assert ((if maxBackoff <? b * 2 then maxBackoff else b * 2) = Z.min maxBackoff (b * 2)) as ->.
    { destruct (Z.ltb_spec maxBackoff (b * 2)); lia. }
    rewrite IH by (unfold maxBackoff, second in *; lia).
    assert (forall i, Z.min maxBackoff (Z.min maxBackoff (b * 2) * 2 ^ Z.of_nat i) = Z.min maxBackoff (b * 2 ^ Z.of_nat (S i))) as Hi.
    { intros i. rewrite Nat2Z.inj_succ, Z.pow_succ_r by lia. assert (0 < 2 ^ Z.of_nat i) by (apply Z.pow_pos_nonneg; lia). unfold maxBackoff, second in *. nia. }
    rewrite Hi. change (2 ^ Z.of_nat 0) with 1. rewrite Z.mul_1_r, (Z.min_r maxBackoff b) by lia. f_equal. cbn [app]. f_equal. f_equal. rewrite <- (seq_shift n 0), map_map. apply map_ext. exact Hi.
Qed.

(** Until Asterisk is there the waits double from half a second to thirty
    seconds; connecting ends with the first success, or when the process is told
    to stop, in a wait or in an attempt. *)
Theorem connect_waits (n : nat) (a : attempt) (l : list attempt) :
  a <> Fails false ->
  Connect (replicate n (Fails false) ++ a :: l) =
  (map (fun i => Z.min maxBackoff (initialBackoff * 2 ^ Z.of_nat i)) (seq 0 n ++ match a with Fails _ => [n] | _ => [] end),
   Some match a with Succeeds => Connected | _ => GaveUp end).
Proof.
  intros Ha. unfold Connect. rewrite connect_fails by (unfold initialBackoff, maxBackoff, millisecond, second; lia).
  destruct a as [|[]|]; [|by rewrite map_app|done|]; cbn [connect fst snd]; by rewrite !app_nil_r.
Qed.

Example connect_waits_witness :
  Connect (replicate 8 (Fails false) ++ Succeeds :: []) =
  (map (fun i => Z.min maxBackoff (initialBackoff * 2 ^ Z.of_nat i)) (seq 0 8 ++ []), Some Connected).
Proof. apply (connect_waits 8 Succeeds []). done. Defined.

(** ** The UUID *)

Lemma hex_digit d : 0 <= d < 16 -> FreeSwitch.hex (LlmTurn.hex d) = true.
Proof.
  intros H. assert (d = 0 \/ d = 1 \/ d = 2 \/ d = 3 \/ d = 4 \/ d = 5 \/ d = 6 \/ d = 7 \/ d = 8 \/ d = 9 \/ d = 10 \/ d = 11 \/ d = 12 \/ d = 13 \/ d = 14 \/ d = 15) as Hd by lia.
  by repeat destruct Hd as [->|Hd]; subst.
Qed.

Lemma byte_hex b : 0 <= b < 256 -> FreeSwitch.hex (LlmTurn.hex (b / 16)) && FreeSwitch.hex (LlmTurn.hex (b mod 16)) = true.
Proof.
  intros H. rewrite !hex_digit; [done|by apply Z.mod_pos_bound|]. split; [apply Z.div_pos; lia|]. apply Z.div_lt_upper_bound; lia.
Qed.

Lemma version_byte b : 0 <= b < 256 -> let v := Z.lor (Z.land b 15) 64 in 0 <= v < 256 /\ v / 16 = 4.
Proof.
  intros H. assert (forallb (fun b => (0 <=? Z.lor (Z.land b 15) 64) && (Z.lor (Z.land b 15) 64 <? 256) && (Z.lor (Z.land b 15) 64 / 16 =? 4)) (map Z.of_nat (seq 0 256)) = true) as Ht by (vm_compute; done).
  rewrite forallb_forall in Ht. specialize (Ht b). cbn zeta. rewrite !andb_true_iff in Ht.
  destruct Ht as [[H1 H2] H3]; [apply in_map_iff; exists (Z.to_nat b); rewrite in_seq; lia|]. bool_to_prop. lia.
Qed.

Lemma variant_byte b : 0 <= b < 256 -> let v := Z.lor (Z.land b 63) 128 in 0 <= v < 256 /\ 8 <= v / 16 <= 11.
Proof.
  intros H. assert (forallb (fun b => (0 <=? Z.lor (Z.land b 63) 128) && (Z.lor (Z.land b 63) 128 <? 256) && (8 <=? Z.lor (Z.land b 63) 128 / 16) && (Z.lor (Z.land b 63) 128 / 16 <=? 11)) (map Z.of_nat (seq 0 256)) = true) as Ht by (vm_compute; done).
  rewrite forallb_forall in Ht. specialize (Ht b). cbn zeta. rewrite !andb_true_iff in Ht.
  destruct Ht as [[[H1 H2] H3] H4]; [apply in_map_iff; exists (Z.to_nat b); rewrite in_seq; lia|]. bool_to_prop. lia.
Qed.

(** A new UUID is one: five groups of hex digits, version 4, variant 10. *)
Theorem uuid_wellformed (random : bytes) :
  length random = 16%nat -> Forall (fun b => 0 <= b < 256) random ->
  channelUUID (newUUIDv4 random) = true /\ newUUIDv4 random !! 14%nat = Some 52 /\ exists d, 8 <= d <= 11 /\ newUUIDv4 random !! 19%nat = Some (LlmTurn.hex d).
Proof.
  intros Hl Hb. do 16 (destruct random as [|? random]; [done|]). destruct random; [|done].
  repeat match goal with H : Forall _ (_ :: _) |- _ => apply Forall_cons in H as [? ?] end.
  unfold newUUIDv4. cbn [list_insert insert nth].
  match goal with |- context [Z.lor (Z.land ?b 15) 64] => destruct (version_byte b) as [Hv Hv4]; [done|]; set (v := Z.lor (Z.land b 15) 64) in * end.
  match goal with |- context [Z.lor (Z.land ?b 63) 128] => destruct (variant_byte b) as [Hw Hw8]; [done|]; set (w := Z.lor (Z.land b 63) 128) in * end.
  cbn [take drop hex_text flat_map Nat.sub app]. split; [|split].
  - change (bs "-") with [45]. cbn [app]. unfold channelUUID. cbn [uuid_groups take drop length Nat.eqb forallb andb].
    rewrite <- !andb_assoc. rewrite ?(andb_assoc (FreeSwitch.hex _) (FreeSwitch.hex _)).
    repeat rewrite byte_hex by done. done.
  - cbn. by rewrite Hv4.
  - exists (w / 16). by split.
Qed.

(** ** The server's promises *)

Lemma openDograh_opens cfg o es store :
  openDograh cfg o = (es, Ok store) ->
  (store = true <-> DograhDBURL cfg <> []) /\ (EOpenDB (DograhDBURL cfg) (DograhDBMaxConns cfg) ∈ es <-> store = true) /\
  (forall e, e ∈ es -> e = EUseStorage \/ e = EOpenDB (DograhDBURL cfg) (DograhDBMaxConns cfg)).
Proof.
  unfold openDograh. case_bool_decide as Hdb.
  - intros [= <- <-]. rewrite elem_of_nil. repeat split; try done. by intros e He%elem_of_nil.
  - destruct (dbOpens o); [|done]. intros [= <- <-]. split_and!; [done| |].
    + split; [done|]. intros _. left.
    + intros e He. apply elem_of_cons in He as [->|He]; [by right|]. case_bool_decide; [by apply elem_of_nil in He|]. apply list_elem_of_singleton in He. by left.
Qed.

(** The effects that open or close something, or dial campaigns. *)
Definition plain (e : effect) : bool :=
  match e with EOpenDB _ _ | ECampaigns _ _ _ _ | ECloseStore | ECloseClient | EConnect => false | _ => true end.
Definition plains (l : list effect) : Prop := Forall (fun e => plain e = true) l.

Lemma plains_not l e : plains l -> plain e = false -> e ∉ l.
Proof. intros H He Hin. unfold plains in H. rewrite Forall_forall in H. apply H in Hin. congruence. Qed.

Lemma openDograh_shape cfg o :
  exists pre, plains pre /\
  openDograh cfg o = if bool_decide (DograhDBURL cfg = []) then ([], Ok false)
                     else (EOpenDB (DograhDBURL cfg) (DograhDBMaxConns cfg) :: pre, if dbOpens o then Ok true else Err NoDB).
Proof.
  unfold openDograh. destruct (dbOpens o); [|exists []; split; [constructor|done]].
  exists (if bool_decide (MinioEndpoint cfg = []) then [] else [EUseStorage]). split; [|done]. case_bool_decide; repeat constructor.
Qed.

Lemma test_plains cfg store o : plains (if bool_decide (OutboundTestCall cfg = []) then [] else runOutboundTestCall cfg store o).
Proof. unfold runOutboundTestCall. repeat case_match; repeat constructor. Qed.

Lemma wait_plains o : plains (wait_end o).1.
Proof. unfold wait_end. repeat case_match; repeat constructor. Qed.

(** What a server's effects are: plain ones around the connection, the database,
    the campaigns and the closing of what was opened. *)
Definition front (cfg : Config) (p a b : list effect) (connects opens : bool) (campaigns : list effect) : list effect :=
  p ++ (if connects then [EConnect] else []) ++ (if opens then [EOpenDB (DograhDBURL cfg) (DograhDBMaxConns cfg)] else []) ++ a ++ campaigns ++ b.
Definition back (o : outside) (connects opens : bool) : list effect :=
  (if opens && dbOpens o then [ECloseStore] else []) ++
  (if connects then match ariConnects o with Connected => [ECloseClient] | GaveUp => [] end else []).
Definition shape (cfg : Config) (o : outside) (p a b : list effect) (connects opens : bool) (campaigns : list effect) : list effect :=
  front cfg p a b connects opens campaigns ++ back o connects opens.

Definition dials (cfg : Config) (o : outside) (opens : bool) (campaigns : list effect) : Prop :=
  campaigns = [] \/
  campaigns = [ECampaigns (OutboundMaxCalls cfg) (CampaignPoll cfg) (OutboundDefaultOrgLimit cfg) (OutboundRingTimeout cfg)] /\
  CampaignsEnabled cfg = true /\ opens = true /\ dbOpens o = true /\ redisAnswers o = true.

Lemma freeswitch_shape cfg o :
  exists a opens e, plains a /\ runFreeSWITCH cfg o = (shape cfg o [] a [] false opens [], e) /\ e <> Some NoStore.
Proof.
  unfold runFreeSWITCH, shape, front, back. destruct (openDograh_shape cfg o) as (pre & Hpre & ->). case_bool_decide.
  - exists [EMetrics; ERunManager], false, (if managerFails o then Some ManagerFailed else None). split; [repeat constructor|]. split; [done|]. by destruct (managerFails o).
  - destruct (dbOpens o).
    + exists (pre ++ [EMetrics; ERunManager]), true, (if managerFails o then Some ManagerFailed else None).
      split; [apply Forall_app; split; [done|repeat constructor]|]. split; [|by destruct (managerFails o)]. cbn. by rewrite <- !app_assoc.
    + exists pre, true, (Some NoDB). split; [done|]. split; [|done]. cbn. by rewrite <- ?app_assoc, ?app_nil_r.
Qed.

Lemma campaigns_case cfg o store :
  Valid cfg -> (store = true <-> DograhDBURL cfg <> []) -> (store = true -> dbOpens o = true) ->
  match (if CampaignsEnabled cfg then newCampaignRunner cfg store o else Ok []) with
  | Err e => e <> NoStore
  | Ok campaigns => dials cfg o store campaigns
  end.
Proof.
  intros Hv Hs Hd. destruct (CampaignsEnabled cfg) eqn:Ec; [|by left]. destruct (v_campaigns _ Hv) as (_ & _ & Hc). destruct (Hc Ec) as [_ Hdb].
  apply Hs in Hdb. subst store. unfold newCampaignRunner. cbn [negb]. destruct (redisParses o); [|done]. destruct (redisAnswers o) eqn:Er; [|done].
  right. split_and!; auto.
Qed.

(** The part of a run that follows the opening of the database. *)
Lemma serve_shape cfg o store pre test :
  Valid cfg -> (store = true <-> DograhDBURL cfg <> []) -> (store = true -> dbOpens o = true) -> ariConnects o = Connected -> plains pre -> plains test ->
  exists a b campaigns e, plains a /\ plains b /\ dials cfg o store campaigns /\ e <> Some NoStore /\
    (let start := ([EStartup; EMetrics; EConnect] ++ (if store then [EOpenDB (DograhDBURL cfg) (DograhDBMaxConns cfg)] else []) ++ pre) ++
                  [EPorts (MediaPortBase cfg) (MediaPortCount cfg); ERunManager] ++ test in
     match (if CampaignsEnabled cfg then newCampaignRunner cfg store o else Ok []) with
     | Err e => (start ++ closing store, Some e)
     | Ok campaigns => let '(es, e) := wait_end o in (start ++ campaigns ++ es ++ closing store, e)
     end) = (shape cfg o [EStartup; EMetrics] a b true store campaigns, e).
Proof.
  intros Hv Hs Hd Ec Hpre Ht. pose proof (campaigns_case cfg o store Hv Hs Hd) as Hc. set (a := pre ++ [EPorts (MediaPortBase cfg) (MediaPortCount cfg); ERunManager] ++ test).
  assert (plains a) as Ha by (apply Forall_app; split; [done|constructor; [done|by constructor]]).
  assert (closing store = (if store && dbOpens o then [ECloseStore] else []) ++ [ECloseClient]) as -> by (unfold closing; destruct store; [by rewrite Hd|done]).
  destruct (if CampaignsEnabled cfg then _ else _) as [campaigns|e].
  - pose proof (wait_plains o) as Hw. destruct (wait_end o) as [es e] eqn:Ew. exists a, es, campaigns, e. split_and!; try done.
    + unfold wait_end in Ew. destruct (busCloses o); by injection Ew as _ <-.
    + unfold shape, front, back, a. rewrite Ec. cbn. by rewrite <- ?app_assoc.
  - exists a, [], [], (Some e). split_and!; [done|constructor|by left|congruence|]. unfold shape, front, back, a. rewrite Ec. cbn. by rewrite <- ?app_assoc.
Qed.

Lemma server_shape cfg o :
  Valid cfg ->
  exists p a b connects opens campaigns e, plains p /\ plains a /\ plains b /\ dials cfg o opens campaigns /\ e <> Some NoStore /\
    runServer cfg o = (shape cfg o p a b connects opens campaigns, e).
Proof.
  intros Hv. assert (plains [EStartup; EMetrics]) as Hp by repeat constructor. unfold runServer. case_bool_decide.
  { destruct (freeswitch_shape cfg o) as (a & opens & e & Ha & -> & He). exists [EStartup], a, [], false, opens, [], e.
    split_and!; try done; [repeat constructor|constructor|by left]. }
  destruct (ariConnects o) eqn:Ec.
  2: { exists [EStartup; EMetrics], [], [], true, false, [], (Some NoARI). unfold shape, front, back. rewrite Ec. split_and!; try done; try constructor; done. }
  destruct (openDograh_shape cfg o) as (pre & Hpre & ->). case_bool_decide as Hdb.
  - destruct (serve_shape cfg o false [] _ Hv ltac:(by split) ltac:(done) Ec ltac:(constructor) (test_plains cfg false o)) as (a & b & c & e & Ha & Hb & Hc & He & E).
    exists [EStartup; EMetrics], a, b, true, false, c, e. by split_and!.
  - destruct (dbOpens o) eqn:Ed.
    + destruct (serve_shape cfg o true pre _ Hv ltac:(done) ltac:(done) Ec Hpre (test_plains cfg true o)) as (a & b & c & e & Ha & Hb & Hc & He & E).
      exists [EStartup; EMetrics], a, b, true, true, c, e. by split_and!.
    + exists [EStartup; EMetrics], pre, [], true, true, [], (Some NoDB). unfold shape, front, back. rewrite Ec, Ed. split_and!; try done; try (by apply Forall_nil); try (by left).
      cbn. by rewrite <- ?app_assoc, ?app_nil_r.
Qed.

Lemma elem_if (b : bool) (x e : effect) : e ∈ (if b then [x] else []) -> e = x.
Proof. destruct b; [apply list_elem_of_singleton|by intros ?%elem_of_nil]. Qed.

Lemma front_elem cfg p a b connects opens campaigns e :
  plains p -> plains a -> plains b -> e ∈ front cfg p a b connects opens campaigns -> plain e = false ->
  e ∈ campaigns \/ e = EConnect \/ e = EOpenDB (DograhDBURL cfg) (DograhDBMaxConns cfg).
Proof.
  intros Hp Ha Hb Hin He. unfold front in Hin. rewrite !elem_of_app in Hin.
  destruct Hin as [Hin|[Hin|[Hin|[Hin|[Hin|Hin]]]]]; try (by apply plains_not in Hin); auto; apply elem_if in Hin; auto.
Qed.

Lemma back_elem o connects opens e : e ∈ back o connects opens -> e = ECloseStore \/ e = ECloseClient.
Proof. unfold back. intros [Hin|Hin]%elem_of_app; [left; by apply elem_if in Hin|]. destruct connects, (ariConnects o); try (by apply elem_of_nil in Hin). right. by apply list_elem_of_singleton in Hin. Qed.

Definition is_open (e : effect) : bool := match e with EOpenDB _ _ => true | _ => false end.
Definition is_connect (e : effect) : bool := match e with EConnect => true | _ => false end.

Lemma existsb_plains f l : plains l -> (forall e, f e = true -> plain e = false) -> existsb f l = false.
Proof. intros H Hf. induction H as [|e l He _ IH]; [done|]. cbn. rewrite IH, orb_false_r. destruct (f e) eqn:E; [|done]. apply Hf in E. congruence. Qed.

Lemma shape_marks cfg o p a b connects opens campaigns :
  plains p -> plains a -> plains b -> dials cfg o opens campaigns ->
  existsb is_open (shape cfg o p a b connects opens campaigns) = opens /\ existsb is_connect (shape cfg o p a b connects opens campaigns) = connects.
Proof.
  intros Hp Ha Hb Hc. assert (forall f, (forall e, f e = true -> plain e = false) -> existsb f p = false /\ existsb f a = false /\ existsb f b = false) as Hx.
  { intros f Hf. split_and!; by apply existsb_plains. }
  destruct (Hx is_open) as (X1 & X2 & X3); [by intros []|]. destruct (Hx is_connect) as (Y1 & Y2 & Y3); [by intros []|].
  unfold shape, front, back. rewrite !existsb_app, X1, X2, X3, Y1, Y2, Y3.
  destruct Hc as [->|(-> & _)], connects, opens, (dbOpens o), (ariConnects o); split; done.
Qed.

(** A server that starts from a checked configuration never finds campaigns
    without a database; it dials them only with the database open and Redis
    answering; and however it ends, the database it opened and the connection to
    Asterisk it made are closed, the one before the other, last of all. *)
Theorem server_runs (ParseFloat : bytes -> option spec_float) (env : environ) (o : outside) (cfg : Config) :
  Load ParseFloat env = Ok cfg ->
  let '(es, e) := runMain ParseFloat env o in
  e <> Some NoStore /\
  (forall m p l r, ECampaigns m p l r ∈ es ->
     CampaignsEnabled cfg = true /\ existsb is_open es = true /\ dbOpens o = true /\ redisAnswers o = true /\ 0 <= m /\ 1 <= l) /\
  exists l, ECloseStore ∉ l /\ ECloseClient ∉ l /\
    es = l ++ (if existsb is_open es && dbOpens o then [ECloseStore] else []) ++
              (if existsb is_connect es then match ariConnects o with Connected => [ECloseClient] | GaveUp => [] end else []).
Proof.
  intros Hl. unfold runMain. rewrite Hl. apply load_valid in Hl as [Hv _].
  destruct (server_shape cfg o Hv) as (p & a & b & connects & opens & campaigns & e & Hp & Ha & Hb & Hc & He & ->).
  destruct (shape_marks cfg o p a b connects opens campaigns Hp Ha Hb Hc) as [-> ->]. split; [done|]. split.
  - intros m q l r Hin. assert (ECampaigns m q l r ∈ campaigns) as Hin'.
    { apply elem_of_app in Hin as [Hin|Hin]; [by destruct (front_elem _ _ _ _ _ _ _ _ Hp Ha Hb Hin eq_refl) as [?|[[=]|[=]]]|].
      by destruct (back_elem _ _ _ _ Hin). }
    destruct Hc as [->|(-> & Hon & Hop & Hdb & Hre)]; [by apply elem_of_nil in Hin'|]. apply list_elem_of_singleton in Hin'. injection Hin' as -> -> -> ->.
    destruct (v_campaigns _ Hv) as (Hm & Ho & _). by split_and!.
  - exists (front cfg p a b connects opens campaigns).
    assert (forall e, plain e = false -> e = ECloseStore \/ e = ECloseClient -> e ∉ front cfg p a b connects opens campaigns) as Hn.
    { intros x Hx Hor Hin. destruct (front_elem _ _ _ _ _ _ _ _ Hp Ha Hb Hin Hx) as [Hin'|[->| ->]]; [|by destruct Hor..].
      destruct Hc as [->|(-> & _)]; [by apply elem_of_nil in Hin'|]. apply list_elem_of_singleton in Hin' as ->. by destruct Hor. }
    split; [apply Hn; auto|]. split; [apply Hn; auto|]. done.
Qed.

Definition ex_env : environ :=
  <[bs "CAMPAIGNS_ENABLED" := bs "1"]> (<[bs "REDIS_URL" := bs "redis://r"]> (<[bs "DOGRAH_DB_URL" := bs "postgres://d"]> ∅)).
Definition ex_outside : outside := mkOutside Connected true true true false false false false None None false.

Example server_ex :
  runMain few_floats ex_env ex_outside =
  ([EStartup; EMetrics; EConnect; EOpenDB (bs "postgres://d") 50; EPorts 20000 256; ERunManager; ECampaigns 20 (5 * second) 2 (30 * second);
    EDrainLate; ECloseStore; ECloseClient], None).
Proof. vm_compute. done. Qed.

Example server_refuses :
  runMain few_floats (delete (bs "REDIS_URL") ex_env) ex_outside = ([], Some (BadConfig CampaignsNeed)).
Proof. vm_compute. done. Qed.

Example server_runs_witness :
  (runMain few_floats ex_env ex_outside).2 <> Some NoStore.
Proof.
  destruct (Load few_floats ex_env) as [c|e] eqn:E; [|exfalso; pose proof server_ex as H; unfold runMain in H; rewrite E in H; discriminate H].
  pose proof (server_runs few_floats ex_env ex_outside c E) as H. destruct (runMain few_floats ex_env ex_outside) as [es e]. exact (proj1 H).
Defined.
