(* ===== verification/EndianCheck.v ===== *)
(** The byte-order probe (cmd/endianness-check/main.go): waiting for its two
    channels, the tone it sends, what it captures of the answers, and the verdict
    on which byte order makes them smoother. [math.Sin] is a parameter (the
    sample at an index); the sockets and the bridge are not modelled. *)

From Stdlib Require Import SpecFloat.
From stdpp Require Import gmap strings.
From S2P Require Import Prelude Text Campaign DographTools Pcm Rtp.

Local Open Scope Z_scope.

Module EndianCheck.
Import Pcm Rtp.

(** ** Waiting for the channels *)

Inductive busEvent := StasisStart (channel : Z) | OtherEvent.
(** What ends the wait besides the last channel. *)
Inductive waitEnd := Stopped | Deadline | BusGone.

(** [waitForStasisStarts]: the events until one of them ends the wait, and that
    end. *)
Fixpoint waitForStasisStarts (remaining : gset Z) (events : list busEvent) (fin : waitEnd) : result unit (waitEnd * gset Z) :=
  if bool_decide (remaining = ∅) then Ok tt
  else match events with
       | [] => Err (fin, remaining)
       | StasisStart c :: r => waitForStasisStarts (remaining ∖ {[c]}) r fin
       | OtherEvent :: r => waitForStasisStarts remaining r fin
       end.

(** ** The tone *)

Section probe.
(** [int16(math.Sin(2*math.Pi*freq*i/rate) * 0.8 * math.MaxInt16)]. *)
Variable sine : Z -> Z.
Variable Unmarshal : bytes -> option Packet.

Definition toneSamples : nat := 32000.
Definition putSample (s : Z) : bytes := let u := u16 s in [u mod 256; u / 256].
Definition generateTone : bytes :=
  let buf := flat_map (fun i => putSample (i16 (sine (Z.of_nat i)))) (List.seq 0 toneSamples) in
  let rem := Z.of_nat (length buf) mod FrameSize in
  if rem =? 0 then buf else buf ++ repeat 0 (Z.to_nat (FrameSize - rem)).

(** ** The probe *)

Record probeStats := mkStats { rawDatagrams : Z; rtcpFiltered : Z; parseFailed : Z; captured : Z }.

Record probe := mkProbe { p_remote : option Z; p_sender : Sender; p_sent : nat; p_stopped : bool; p_bytes : bytes; stats : probeStats; out : list (Z * Packet) }.
#[global] Instance eta_stats : Eta probeStats := fun s => mkStats (rawDatagrams s) (rtcpFiltered s) (parseFailed s) (captured s).
#[global] Instance eta_probe : Eta probe := fun s => mkProbe (p_remote s) (p_sender s) (p_sent s) (p_stopped s) (p_bytes s) (stats s) (out s).
Local Open Scope record_scope.

Definition probe0 (s : Sender) : probe := mkProbe None s 0 false [] (mkStats 0 0 0 0) [].

(** One datagram of the reader's loop. *)
Definition receive (addr : Z) (buf : bytes) (p : probe) : probe :=
  let p := p <| stats ::= fun s => s <| rawDatagrams ::= Z.succ |> |> in
  let p := p <| p_remote ::= fun r => Some (default addr r) |> in
  if IsRTCP buf then p <| stats ::= fun s => s <| rtcpFiltered ::= Z.succ |> |>
  else match ParseRTP Unmarshal buf with
       | None => p <| stats ::= fun s => s <| parseFailed ::= Z.succ |> |>
       | Some pkt => p <| stats ::= fun s => s <| captured ::= Z.succ |> |> <| p_bytes ::= fun b => b ++ Payload pkt |>
       end.

(** One tick of the pacer; an endpoint with no remote sends nothing. *)
Definition frameCount (tone : bytes) : nat := length tone / Z.to_nat FrameSize.
Definition tick (tone : bytes) (p : probe) : probe :=
  if p_stopped p then p
  else if (frameCount tone <=? p_sent p)%nat then p <| p_stopped := true |>
  else
    let frame := take (Z.to_nat FrameSize) (drop (p_sent p * Z.to_nat FrameSize) tone) in
    let '(pkt, s) := Build frame (p_sender p) in
    let p := p <| p_sent ::= S |> <| p_sender := s |> in
    match p_remote p with Some a => p <| out ::= fun l => l ++ [(a, pkt)] |> | None => p end.

Inductive probeLabel := Datagram (addr : Z) (buf : bytes) | Tick.
Definition probeStep (tone : bytes) (p : probe) (l : probeLabel) : probe :=
  match l with Datagram a b => receive a b p | Tick => tick tone p end.
Definition probeRun (tone : bytes) (ls : list probeLabel) (p : probe) : probe := fold_left (probeStep tone) ls p.

Definition requireCaptured (b : bytes) (s : probeStats) : option probeStats := if bool_decide (b = []) then Some s else None.
End probe.

(** ** The verdict *)

Definition float_add (a b : spec_float) : spec_float := SFadd 53 1024 a b.
Definition float_div (a b : spec_float) : spec_float := SFdiv 53 1024 a b.

(** [meanAbsDelta]. *)
Fixpoint sum_deltas (sum : spec_float) (prev : Z) (l : list Z) : spec_float :=
  match l with
  | [] => sum
  | s :: r => sum_deltas (float_add sum (of_int (Z.abs (s - prev)))) s r
  end.
Definition meanAbsDelta (l : list Z) : spec_float :=
  match l with
  | s :: (_ :: _) as r => float_div (sum_deltas (of_int 0) s (tail r)) (of_int (Z.of_nat (length r) - 1))
  | _ => of_int 0
  end.

Record Verdict := mkVerdict { LittleEndianScore : spec_float; BigEndianScore : spec_float; SampleCount : Z }.
Definition LittleEndian (v : Verdict) : bool := SFleb (LittleEndianScore v) (BigEndianScore v).
Definition EnvValue (v : Verdict) : bytes := if LittleEndian v then bs "le" else bs "be".

(** [analyze]. *)
Definition analyze (raw : bytes) : Verdict := mkVerdict (meanAbsDelta (samples raw)) (meanAbsDelta (samples_be raw)) (Z.of_nat (length raw) / 2).

Definition VerdictString (format : spec_float -> bytes) (v : Verdict) : bytes :=
  bs "externalMedia RTP L16 payload is " ++ (if LittleEndian v then bs "little-endian (s16le)" else bs "big-endian (s16be)") ++
  bs " (n=" ++ Campaign.decimal (SampleCount v) ++ bs " samples, le_smoothness=" ++ format (LittleEndianScore v) ++
  bs ", be_smoothness=" ++ format (BigEndianScore v) ++ bs " -- lower is smoother)".

(** *** Concrete runs *)

Definition triangle : list Z := [0; 300; 600; 900; 600; 300; 0; -300; -600; -300; 0; 300].

Example verdicts :
  EnvValue (analyze (flat_map putSample triangle)) = bs "le" /\
  EnvValue (analyze (swapPairs (flat_map putSample triangle))) = bs "be".
Proof. vm_compute. done. Qed.

(** A capture of silence alone scores 0 both ways and is called little-endian. *)
Example silence_is_little : EnvValue (analyze (repeat 0 640)) = bs "le" /\ requireCaptured (repeat 0 640) (mkStats 1 0 0 1) = None.
Proof. vm_compute. done. Qed.

(** *** Waiting *)

Definition started (events : list busEvent) : gset Z :=
  list_to_set (omap (fun e => match e with StasisStart c => Some c | OtherEvent => None end) events).

(** The wait succeeds exactly when every channel has started, in whatever order,
    and else tells the ones that have not. *)
Theorem wait_for_all (ids : gset Z) (events : list busEvent) (fin : waitEnd) :
  waitForStasisStarts ids events fin = if bool_decide (ids ⊆ started events) then Ok tt else Err (fin, ids ∖ started events).
Proof.
  revert ids. induction events as [|e events IH]; intros ids; cbn [waitForStasisStarts].
  - case_bool_decide as He; [subst; by rewrite bool_decide_true by set_solver|]. rewrite bool_decide_false by (unfold started; set_solver).
    f_equal. f_equal. unfold started. set_solver.
  - case_bool_decide as He; [subst; by rewrite bool_decide_true by set_solver|]. destruct e as [c|]; rewrite IH; [|done].
    assert (started (StasisStart c :: events) = {[c]} ∪ started events) as -> by (unfold started; by cbn).
    rewrite (bool_decide_ext (ids ∖ {[c]} ⊆ started events) (ids ⊆ {[c]} ∪ started events)).
    2: { split; [|set_solver]. intros H x Hx. destruct (decide (x = c)); set_solver. }
    case_bool_decide; [done|]. f_equal. f_equal. set_solver.
Qed.

(** *** The probe's books *)

Section books.
Variable Unmarshal : bytes -> option Packet.

Definition heard (l : probeLabel) : bytes :=
  match l with
  | Datagram _ b => if IsRTCP b then [] else match ParseRTP Unmarshal b with Some p => Payload p | None => [] end
  | Tick => []
  end.
Definition addresses (ls : list probeLabel) : list Z := omap (fun l => match l with Datagram a _ => Some a | Tick => None end) ls.
Definition frames (tone : bytes) (n : nat) : list bytes :=
  map (fun i => take (Z.to_nat FrameSize) (drop (i * Z.to_nat FrameSize) tone)) (List.seq 0 n).
#[local] Arguments frames : simpl never.

Definition booked (tone : bytes) (ls : list probeLabel) (p : probe) : Prop :=
  let st := stats p in
  rawDatagrams st = Z.of_nat (length (addresses ls)) /\ rawDatagrams st = rtcpFiltered st + parseFailed st + captured st /\
  p_bytes p = flat_map heard ls /\ p_remote p = head (addresses ls) /\ (p_sent p <= frameCount tone)%nat /\
  map (fun ap => Payload ap.2) (out p) `sublist_of` frames tone (p_sent p) /\
  Forall (fun ap => Some ap.1 = head (addresses ls)) (out p).

Lemma head_app {A} (l k : list A) : head (l ++ k) = match head l with Some a => Some a | None => head k end.
Proof. by destruct l. Qed.

Lemma receive_booked tone ls a b p : booked tone ls p -> booked tone (ls ++ [Datagram a b]) (receive Unmarshal a b p).
Proof.
  destruct p as [r snd sent stopped bytes_ [raw rtcp bad cap] o]. unfold booked. cbn. intros (H1 & H2 & H3 & H4 & H5 & H6 & H7).
  assert (addresses (ls ++ [Datagram a b]) = addresses ls ++ [a]) as Ha by (unfold addresses; by rewrite omap_app).
  assert (head (addresses ls ++ [a]) = Some (default a r)) as Hh by (rewrite head_app, H4; by destruct (head (addresses ls))).
  rewrite Ha, length_app, flat_map_app, Hh. cbn. rewrite app_nil_r.
  assert (Forall (fun ap => Some ap.1 = Some (default a r)) o) as Ho.
  { eapply Forall_impl; [exact H7|]. intros x Hx. cbn in Hx |- *. rewrite <- H4 in Hx. rewrite <- Hx. done. }
  unfold receive. cbn. destruct (IsRTCP b); [cbn; rewrite app_nil_r; split_and!; try done; lia|].
  destruct (ParseRTP Unmarshal b) as [pkt|]; cbn; rewrite ?app_nil_r; split_and!; try done; try lia; congruence.
Qed.

Lemma frames_S tone n : frames tone (S n) = frames tone n ++ [take (Z.to_nat FrameSize) (drop (n * Z.to_nat FrameSize) tone)].
Proof. unfold frames. by rewrite List.seq_S, map_app. Qed.

Lemma tick_booked tone ls p : booked tone ls p -> booked tone (ls ++ [Tick]) (tick tone p).
Proof.
  intros H. assert (addresses (ls ++ [Tick]) = addresses ls) as Ha by (unfold addresses; by rewrite omap_app, app_nil_r).
  assert (flat_map heard (ls ++ [Tick]) = flat_map heard ls) as Hf by (rewrite flat_map_app; cbn; by rewrite !app_nil_r).
  unfold booked in *. rewrite Ha, Hf. unfold tick. destruct (p_stopped p); [done|]. destruct (Nat.leb_spec (frameCount tone) (p_sent p)) as [Hn|Hn]; [by destruct p|].
  destruct p as [r snd sent stopped bytes_ st o]. cbn in *. destruct H as (H1 & H2 & H3 & H4 & H5 & H6 & H7).
  destruct r as [a|]; cbn; rewrite frames_S.
  - split_and!; try done; [|apply Forall_app; split; [done|by constructor]]. rewrite map_app. cbn. by apply sublist_app.
  - split_and!; try done. by apply sublist_inserts_r.
Qed.

(** Whatever arrives and however it falls between the ticks: every datagram is
    counted once, what is captured is the payloads of the RTP packets in order,
    and what is sent are frames of the tone, in order, each once, to the first
    address heard from, nothing before that. *)
Theorem probe_books (tone : bytes) (s : Sender) (ls : list probeLabel) : booked tone ls (probeRun Unmarshal tone ls (probe0 s)).
Proof.
  rewrite <- (rev_involutive ls). induction (rev ls) as [|l r IH].
  - unfold booked. cbn. split_and!; try done; try lia.
  - cbn [rev]. unfold probeRun in *. rewrite fold_left_app. cbn [fold_left]. destruct l; [by apply receive_booked|by apply tick_booked].
Qed.
End books.

(** Exchanging the bytes of every sample exchanges the scores, so a capture and
    its swap never get the same verdict unless the scores tie. *)
Theorem analyze_swapped (raw : bytes) :
  analyze (swapPairs raw) = mkVerdict (BigEndianScore (analyze raw)) (LittleEndianScore (analyze raw)) (SampleCount (analyze raw)).
Proof.
  unfold analyze. cbn. rewrite samples_swap, length_swap. f_equal. f_equal. rewrite <- samples_swap. by rewrite swap_swap.
Qed.
End EndianCheck.
